(* ===== verification/_CoqProject ===== *)
-Q . S2P
Prelude.v
Primes.v
FieldSpec.v
Field5x52.v
Field10x26.v
Field.v
Accum.v
ScalarSpec.v
Scalar4x64.v
Scalar8x32.v
Scalar.v
CurveSpec.v
CurveGroup.v
CurveOrder.v
CurveCount.v
Sha256Spec.v
Hash.v
NumsPoint.v
Residue.v
Svdw.v
Wnaf.v
Group.v
Ecmult.v
EcmultGen.v
EcmultConst.v
EcmultProperties.v
Ecdsa.v
Eckey.v
Recovery.v
EcdsaProperties.v
Der.v
DerProperties.v
Api.v
Properties.v
ScalarProperties.v
Field10x26Properties.v
Scalar8x32Properties.v
GroupProperties.v
ApiProperties.v
RecoveryApi.v
Ecdh.v
Generator.v
Pedersen.v
PedersenProperties.v
LaxDer.v
RangeParams.v
Borromean.v
Rangeproof.v
RangeproofVerify.v
RangeproofRandom.v
RangeproofBuffer.v
RangeproofSign.v
RangeproofProperties.v
