(* ===== verification/Prelude.v ===== *)
(** * A verification development for libsecp256k1-zkp

    The program is the C library under
    src/original/rust-secp256k1-zkp/depend/secp256k1-zkp/ (paths below are
    relative to its src/ directory): elliptic-curve signatures on secp256k1 and
    the extensions grin uses.  It is layered: field elements and scalars in
    machine words; points over the field; multiplications of points by scalars;
    ECDSA, keys and hashing over those; the public API and the optional modules
    on top.  The development follows the layers.

    ** Files and the code they model

    - [Prelude]: C integers as [Z] with their wrap-around ([u8] .. [u128],
      [s32], [s64]), the symbolic execution tactics that discharge the absence
      of overflow ([run], [wlet], [bound_as]), congruences, byte strings, loops.
    - [Primes]: p and n are prime (Pocklington certificates), Fermat's theorem.
    - [FieldSpec]: class [FieldImpl], the interface of field.h: the value of an
      element, its magnitude, its normal form and a law per operation.
    - [Field5x52], [Field10x26]: field_5x52*.h (five 52-bit limbs) and
      field_10x26*.h (ten 26-bit limbs), two instances of it (the second is the
      one the Rust crate is built with).
    - [Field]: field_impl.h over the interface: inversion, square root,
      batched inversion.
    - [ScalarSpec]: class [ScalarImpl], the interface of scalar.h.
    - [Accum]: the accumulator macros (muladd, extract, ...) that
      scalar_4x64_impl.h and scalar_8x32_impl.h both define, at any word width.
    - [Scalar4x64], [Scalar8x32]: scalar_4x64_impl.h and scalar_8x32_impl.h,
      two instances of it (the second is the one the Rust crate is built with).
    - [Scalar]: scalar_impl.h over the interface: inversion, endomorphism split.
    - [CurveSpec], [CurveGroup], [CurveOrder], [CurveCount]: the reference:
      affine points of y^2 = x^3 + 7 over the integers modulo p, their
      chord-and-tangent addition [padd], that it is a group, that the generator
      has order n, and that every point is one of its n multiples.
    - [NumsPoint], [Residue], [Svdw]: the point that blinds the generator table,
      Euler's criterion, and the Shallue and van de Woestijne map.
    - [Group]: group_impl.h over [FieldImpl]: affine and Jacobian points.
    - [Wnaf], [Ecmult], [EcmultGen], [EcmultConst]: ecmult_impl.h,
      ecmult_gen_impl.h and ecmult_const_impl.h: the three multiplications.
    - [Sha256Spec], [Hash]: FIPS 180-4, RFC 2104 and RFC 6979 as references, and
      hash_impl.h.
    - [Ecdsa], [Der]: ecdsa_impl.h.  [Eckey]: eckey_impl.h.
    - [Api]: secp256k1.c, the public functions with their argument checks.
    - [Recovery], [RecoveryApi]: modules/recovery.  [Ecdh]: modules/ecdh.
      [Generator]: modules/generator.
    - [Pedersen]: pedersen_impl.h, switch_impl.h and the commitment functions of
      main_impl.h of modules/rangeproof.
    - [RangeParams], [Rangeproof], [RangeproofVerify], [RangeproofRandom],
      [RangeproofBuffer], [RangeproofSign]: rangeproof_impl.h and the range
      proof functions of main_impl.h; [Borromean]: borromean_impl.h.
    - [LaxDer]: contrib/lax_der_parsing.c and lax_der_privatekey_parsing.c.
    - [Properties], [Field10x26Properties], [ScalarProperties],
      [Scalar8x32Properties],
      [GroupProperties], [EcmultProperties], [EcdsaProperties],
      [DerProperties], [ApiProperties], [PedersenProperties],
      [RangeproofProperties]: theorems about each part, with an instance of each
      at a concrete input ([.._witness]).  The smaller components have theirs at
      the end of their own file.

    Group.v and everything above it is written against the classes [FieldImpl]
    and [ScalarImpl] only, as the C code is written against field.h and
    scalar.h; the theorems hold for every representation that meets the laws.

    ** How the code is read

    A struct is a record of integers.  A C function that writes through a
    pointer returns the new value; one that returns a success flag besides
    returns an option or a pair.  Arithmetic on an unsigned type of width w is
    arithmetic on [Z] reduced modulo 2^w wherever the C expression is, so that
    "no overflow" is proved and not assumed.  A pointer into a byte string
    is the list of the bytes from there on.  Preconditions the C code states
    as comments or VERIFY_CHECKs (magnitudes of field elements, canonical
    scalars) are the predicates [fmag], [fnorm], [sok] of the interfaces; each
    operation is proved to establish those its callers need.

    Uninitialised memory (locals, fresh allocations) is a parameter, named
    [junk] or after the array, and the theorems hold for every content of it.
    At the public functions a pointer argument is an option, None being NULL;
    the callbacks of the context are a log of the reported errors.  The nonce
    function a caller may pass is a parameter.

    Loops with a constant bound are [for_loop]; loops over data are structural
    on the list they traverse.  A while loop with a counter has as fuel the
    bound of the counter, and is proved to end before the fuel does.  The loops
    that draw hash outputs until one is acceptable (the blinding of
    secp256k1_ecmult_gen_blind, the nonce loop of signing, secret keys for range
    proofs) have no bound in the code: their fuel is an argument, running out is
    a result of its own, and theorems say that it happens exactly when all the
    draws within the fuel are refused.

    ** What is proved

    - Both kinds of arithmetic are exact: every field and scalar operation
      computes the residue it should, at every input within the documented
      magnitudes, with no overflow of any 64-, 96-, 128- or 192-bit accumulator;
      normal forms are canonical; parsing and printing round trip.  The largest
      magnitude the code admits is one too many for the normalisation.
    - The Jacobian formulas implement affine addition on all inputs, infinity,
      doubling and opposite points included, in the variable-time and in the
      branch-free version; batch conversions keep every point; decompression
      succeeds exactly on the abscissas of the curve.
    - The three multiplications compute na A + ng G, n G under every blinding,
      and n A, for all scalars and points.  The endomorphism split is exact and
      both halves are short.
    - Streaming SHA-256 and HMAC implement their standards for any split of the
      input into writes; the RFC 6979 generator answers any sequence of requests
      (each below 2^31 bytes, as the code keeps the length in an int) as the
      machine of the standard does.
    - Verification of ECDSA decides the equation of SEC 1; signing produces a
      signature it accepts, recovery finds the key of the signer; the public
      functions keep these promises through their argument checks, encodings,
      key tweaks and context objects.  For each public function of secp256k1.c a
      table of its argument checks says which one is reported, with what text,
      and what the outputs hold then.
    - DER: the strict parser accepts exactly the grammar of X.690 (a negative
      integer or one not below the order is read as 0) and one encoding per pair
      of non-zero scalars; the lax parser never reads outside of its input and
      accepts exactly a grammar.
    - Both parties of ECDH get one secret.
    - Hashing to a generator reaches a point of the curve for every input, by
      the published map; commitments are v H + r G, sums of commitments cancel
      exactly when values and blinding factors do, as the verification of sums
      tests.  The parsers of both look at the first byte only; what is loaded
      from the bytes they accept is a point exactly when the abscissa has one.
    - Borromean signatures: the verifier decides the chain of hashes of the
      paper, and what the signer writes is accepted.  Range proofs: the header
      says the range it should, the verifier decides the published equation, a
      proof that the signer makes is accepted for its commitment, and what the
      rewinding returns opens the commitment.

    ** Not modelled

    The surjection proof and whitelist modules (build.rs does not enable them);
    num_gmp*.h (wrappers of GMP, not compiled in the configuration of build.rs),
    the assembly variants of the field and scalar
    routines (no C semantics), scalar_low (exhaustive tests only), util.h, tests,
    benchmarks, gen_context.c and the language bindings.  Constant-time behaviour
    and the clearing of secrets are outside the model. *)

From Stdlib Require Export ZArith List Lia Bool.
From Stdlib Require Export Morphisms Setoid.
Export ListNotations.

#[export] Set Default Goal Selector "!".

Declare Scope word_scope.
Delimit Scope word_scope with word.
#[global] Open Scope Z_scope.

(** ** Fixed-width integers

    A C unsigned integer of width [w] is a [Z] in [0, 2^w); an operation that
    may wrap is the [Z] operation followed by the reduction of its width. *)

Definition u8 (x : Z) : Z := x mod 0x100.
Definition u32 (x : Z) : Z := x mod 0x100000000.
Definition u64 (x : Z) : Z := x mod 0x10000000000000000.
Definition u128 (x : Z) : Z := x mod 0x100000000000000000000000000000000.

(** Conversion to a signed type of the same width (two's complement). *)
Definition s32 (x : Z) : Z := (x + 0x80000000) mod 0x100000000 - 0x80000000.
Definition s64 (x : Z) : Z :=
  (x + 0x8000000000000000) mod 0x10000000000000000 - 0x8000000000000000.

(** The complement operator [~] at widths 32 and 64. *)
Definition not32 (x : Z) : Z := 0xFFFFFFFF - x.
Definition not64 (x : Z) : Z := 0xFFFFFFFFFFFFFFFF - x.

(** C truth values. *)
Definition b2z (b : bool) : Z := if b then 1 else 0.

Lemma u32_id x : 0 <= x < 2 ^ 32 -> u32 x = x.
Proof. apply Z.mod_small. Qed.

Lemma u64_id x : 0 <= x < 2 ^ 64 -> u64 x = x.
Proof. apply Z.mod_small. Qed.

Lemma u128_id x : 0 <= x < 2 ^ 128 -> u128 x = x.
Proof. apply Z.mod_small. Qed.

Lemma u32_b2z b : u32 (b2z b) = b2z b.
Proof. now destruct b. Qed.

Notation "x .& y" := (Z.land x y) (at level 42, left associativity) : word_scope.
Notation "x .| y" := (Z.lor x y) (at level 46, left associativity) : word_scope.
Notation "x .^ y" := (Z.lxor x y) (at level 44, left associativity) : word_scope.
Notation "x >> y" := (Z.shiftr x y) (at level 39, left associativity) : word_scope.
Notation "x << y" := (Z.shiftl x y) (at level 39, left associativity) : word_scope.

#[global] Open Scope word_scope.

(** ** Interval inference

    [Bounded x n] says that [x] lies in [[0, n]]. The instances below compute
    [n] from the shape of [x]; the hypotheses of the context give the bounds
    of its variables. *)

Class Bounded (x n : Z) : Prop := bounded : 0 <= x <= n.

Section BoundedInstances.
Context {x y n m : Z} {Hx : Bounded x n} {Hy : Bounded y m}.

Lemma bounded_add : Bounded (x + y) (n + m).
Proof. unfold Bounded in *; lia. Qed.

Lemma bounded_mul : Bounded (x * y) (n * m).
Proof. unfold Bounded in *; nia. Qed.

Lemma bounded_div c : Bounded (x / Z.pos c) (n / Z.pos c).
Proof.
  unfold Bounded in *; split; [apply Z.div_pos; lia|].
  apply Z.div_le_mono; lia.
Qed.
End BoundedInstances.

Lemma bounded_mod x c : Bounded (x mod Z.pos c) (Z.pos c - 1).
Proof. unfold Bounded. pose proof (Z.mod_pos_bound x (Z.pos c)). lia. Qed.

Lemma bounded_pos c : Bounded (Z.pos c) (Z.pos c).
Proof. unfold Bounded; lia. Qed.

Lemma bounded_zero : Bounded 0 0.
Proof. unfold Bounded; lia. Qed.

Lemma bounded_b2z b : Bounded (b2z b) 1.
Proof. unfold Bounded; destruct b; cbn; lia. Qed.

Lemma bounded_not32 x n : Bounded x n -> (n <=? 0xFFFFFFFF) = true ->
  Bounded (not32 x) 0xFFFFFFFF.
Proof. unfold Bounded, not32. rewrite Z.leb_le. lia. Qed.

Lemma bounded_not64 x n : Bounded x n -> (n <=? 0xFFFFFFFFFFFFFFFF) = true ->
  Bounded (not64 x) 0xFFFFFFFFFFFFFFFF.
Proof. unfold Bounded, not64. rewrite Z.leb_le. lia. Qed.

#[export] Hint Extern 2 (Bounded (not32 _) _) =>
  eapply bounded_not32; [typeclasses eauto|reflexivity] : typeclass_instances.
#[export] Hint Extern 2 (Bounded (not64 _) _) =>
  eapply bounded_not64; [typeclasses eauto|reflexivity] : typeclass_instances.
#[export] Hint Resolve bounded_add bounded_mul : typeclass_instances.
#[export] Hint Extern 2 (Bounded (_ / Zpos _) _) =>
  eapply @bounded_div : typeclass_instances.
#[export] Hint Extern 2 (Bounded (_ mod Zpos _) _) =>
  apply bounded_mod : typeclass_instances.
#[export] Hint Extern 0 (Bounded (Zpos _) _) =>
  apply bounded_pos : typeclass_instances.
#[export] Hint Extern 0 (Bounded 0 _) =>
  apply bounded_zero : typeclass_instances.
#[export] Hint Extern 0 (Bounded (b2z _) _) =>
  apply bounded_b2z : typeclass_instances.

Lemma bounded_le x n m : Bounded x n -> (n <=? m) = true -> Bounded x m.
Proof. unfold Bounded. rewrite Z.leb_le. lia. Qed.

(** A word in range is left alone by the reduction of its width. *)

Section Small.
Context {x n : Z} {Hx : Bounded x n}.

Lemma u8_small : (n <? 0x100) = true -> u8 x = x.
Proof. rewrite Z.ltb_lt. intros. apply Z.mod_small. unfold Bounded in *; lia. Qed.
Lemma u32_small : (n <? 0x100000000) = true -> u32 x = x.
Proof. rewrite Z.ltb_lt. intros. apply Z.mod_small. unfold Bounded in *; lia. Qed.
Lemma u64_small : (n <? 0x10000000000000000) = true -> u64 x = x.
Proof. rewrite Z.ltb_lt. intros. apply Z.mod_small. unfold Bounded in *; lia. Qed.
Lemma u128_small :
  (n <? 0x100000000000000000000000000000000) = true -> u128 x = x.
Proof. rewrite Z.ltb_lt. intros. apply Z.mod_small. unfold Bounded in *; lia. Qed.
Lemma s64_small : (n <? 0x8000000000000000) = true -> s64 x = x.
Proof.
  rewrite Z.ltb_lt. intros. unfold s64, Bounded in *.
  rewrite Z.mod_small; lia.
Qed.
Lemma s32_small : (n <? 0x80000000) = true -> s32 x = x.
Proof.
  rewrite Z.ltb_lt. intros. unfold s32, Bounded in *.
  rewrite Z.mod_small; lia.
Qed.
End Small.

(** Masks and shifts by constants are remainders and quotients. *)

Lemma land_mask x k : 0 <= k -> x .& (2 ^ k - 1) = x mod 2 ^ k.
Proof. intros. rewrite <- Z.land_ones by lia. f_equal. rewrite Z.ones_equiv; lia. Qed.

Lemma land_mask_cst x m k :
  (0 <=? k) = true -> m = 2 ^ k - 1 -> x .& m = x mod 2 ^ k.
Proof. rewrite Z.leb_le. intros ? ->. now apply land_mask. Qed.

Lemma shr_div x k : (0 <=? k) = true -> x >> k = x / 2 ^ k.
Proof. rewrite Z.leb_le. intros. now apply Z.shiftr_div_pow2. Qed.

Lemma shl_mul x k : (0 <=? k) = true -> x << k = x * 2 ^ k.
Proof. rewrite Z.leb_le. intros. now apply Z.shiftl_mul_pow2. Qed.

(** Disjoint bit patterns: [|] is [+]. *)
Lemma lor_disjoint x k y :
  0 <= k -> 0 <= y < 2 ^ k -> (x * 2 ^ k) .| y = x * 2 ^ k + y.
Proof.
  intros Hk Hy. rewrite <- Z.shiftl_mul_pow2 by lia.
  apply Z.bits_inj'. intros i Hi. rewrite Z.lor_spec.
  rewrite Z.shiftl_mul_pow2 by lia.
  destruct (Z.lt_ge_cases i k).
  - rewrite Z.mul_pow2_bits_low by lia.
    rewrite Z.add_comm, <- (Z.mod_pow2_bits_low (y + _) k) by lia.
    rewrite Z.mod_add by lia. now rewrite Z.mod_small by lia.
  - rewrite <- (Z.mod_small y (2 ^ k)) at 1 by lia.
    rewrite Z.mod_pow2_bits_high by lia.
    rewrite orb_false_r.
    replace i with ((i - k) + k) by lia.
    rewrite <- !Z.div_pow2_bits by lia.
    f_equal. rewrite Z.div_mul, Z.div_add_l, (Z.div_small y) by lia. lia.
Qed.

Lemma land_mask_lit x m k c :
  (0 <=? k) = true -> m = 2 ^ k - 1 -> c = 2 ^ k -> x .& m = x mod c.
Proof. rewrite Z.leb_le. intros ? -> ->. now apply land_mask. Qed.

Lemma land_mask_lit_l x m k c :
  (0 <=? k) = true -> m = 2 ^ k - 1 -> c = 2 ^ k -> m .& x = x mod c.
Proof. intros. rewrite Z.land_comm. eapply land_mask_lit; eassumption. Qed.

Lemma shr_lit x k c : (0 <=? k) = true -> c = 2 ^ k -> x >> k = x / c.
Proof. intros ? ->. now apply shr_div. Qed.

Lemma shl_lit x k c : (0 <=? k) = true -> c = 2 ^ k -> x << k = x * c.
Proof. intros ? ->. now apply shl_mul. Qed.

Lemma lor_lit x c k y n :
  (0 <=? k) = true -> c = 2 ^ k -> Bounded y n -> (n <? c) = true ->
  (x * c) .| y = x * c + y.
Proof.
  rewrite Z.leb_le, Z.ltb_lt. intros ? -> ? ?.
  apply lor_disjoint; unfold Bounded in *; lia.
Qed.

(** Splitting a word at a power of two: one quotient variable carries both. *)
Lemma split_lit x n c :
  Bounded x n ->
  exists q, x / Zpos c = q /\ x mod Zpos c = x - Zpos c * q /\
    Bounded q (n / Zpos c) /\ Bounded (x - Zpos c * q) (Zpos c - 1).
Proof.
  intros Hx. exists (x / Zpos c).
  rewrite <- Z.mod_eq by lia. repeat split; try apply bounded_mod.
  all: apply bounded_div.
Qed.

(** ** Stepping through straight-line code

    [wp P e] is [P e], kept folded so that the tactics below can take the
    [let]s of [e] one at a time, in the order of the C statements. *)

Definition wp {A} (P : A -> Prop) (e : A) : Prop := P e.

Lemma wp_let {A B} (P : B -> Prop) (e : A) (b : A -> B) :
  (forall x, x = e -> wp P (b x)) -> wp P (let x := e in b x).
Proof. intros H. apply H. reflexivity. Qed.

Lemma wp_intro {A} (P : A -> Prop) (e : A) : wp P e -> P e.
Proof. exact (fun H => H). Qed.

Ltac is_lit t :=
  lazymatch t with
  | Z0 => idtac
  | Zpos ?p => let b := isPcst p in lazymatch b with true => idtac end
  end.

(** [bound e as H] infers the interval of [e]. *)
Ltac bound_as e H :=
  let pf := constr:(_ : Bounded e _) in
  lazymatch type of pf with
  | Bounded _ ?n =>
    let n' := eval vm_compute in n in
    assert (H : Bounded e n') by exact pf
  end.

Ltac fold_consts H :=
  match type of H with
  | context [Z.shiftr ?a ?b] => is_lit a; is_lit b;
      let c := eval vm_compute in (Z.shiftr a b) in change (Z.shiftr a b) with c in H
  | context [Z.shiftl ?a ?b] => is_lit a; is_lit b;
      let c := eval vm_compute in (Z.shiftl a b) in change (Z.shiftl a b) with c in H
  | context [Z.mul ?a ?b] => is_lit a; is_lit b;
      let c := eval vm_compute in (Z.mul a b) in change (Z.mul a b) with c in H
  | context [Z.add ?a ?b] => is_lit a; is_lit b;
      let c := eval vm_compute in (Z.add a b) in change (Z.add a b) with c in H
  end.

Ltac mask_step H :=
  match type of H with
  | context [Z.land ?x ?m] => is_lit m;
      let k := eval vm_compute in (Z.log2 (m + 1)) in
      let c := eval vm_compute in (m + 1) in
      rewrite (land_mask_lit x m k c eq_refl eq_refl eq_refl) in H
  | context [Z.land ?m ?x] => is_lit m;
      let k := eval vm_compute in (Z.log2 (m + 1)) in
      let c := eval vm_compute in (m + 1) in
      rewrite (land_mask_lit_l x m k c eq_refl eq_refl eq_refl) in H
  | context [Z.shiftr ?x ?k] => is_lit k;
      let c := eval vm_compute in (2 ^ k) in
      rewrite (shr_lit x k c eq_refl eq_refl) in H
  | context [Z.shiftl ?x ?k] => is_lit k;
      let c := eval vm_compute in (2 ^ k) in
      rewrite (shl_lit x k c eq_refl eq_refl) in H
  end.

Ltac no_wrap e :=
  lazymatch e with
  | context [u64 _] => fail
  | context [u32 _] => fail
  | context [u128 _] => fail
  | context [s64 _] => fail
  | context [u8 _] => fail
  | _ => idtac
  end.

Ltac unwrap_with e lem H :=
  no_wrap e;
  let B := fresh "B" in bound_as e B;
  rewrite (@lem e _ B eq_refl) in H; clear B.

Ltac unwrap_step H :=
  match type of H with
  | context [u64 ?e] => unwrap_with e @u64_small H
  | context [u128 ?e] => unwrap_with e @u128_small H
  | context [u32 ?e] => unwrap_with e @u32_small H
  | context [s64 ?e] => unwrap_with e @s64_small H
  | context [u8 ?e] => unwrap_with e @u8_small H
  end.

Ltac split_step H :=
  let go x c :=
    let B := fresh "B" in bound_as x B;
    lazymatch type of B with
    | Bounded _ ?n =>
      let q := fresh "q" in let Hd := fresh "Hdiv" in let Hm := fresh "Hmod" in
      let Hq := fresh "Hq" in let Hr := fresh "Hr" in
      destruct (split_lit x n c B) as (q & Hd & Hm & Hq & Hr); clear B;
      let nq := eval vm_compute in (n / Zpos c) in
      change (n / Zpos c) with nq in Hq;
      let nr := eval vm_compute in (Zpos c - 1) in
      change (Zpos c - 1) with nr in Hr;
      try rewrite Hd in H; try rewrite Hm in H
    end in
  match type of H with
  | context [?x / Zpos ?c] =>
      match goal with Hd : x / Zpos c = _ |- _ => rewrite Hd in H end
  | context [?x mod Zpos ?c] =>
      match goal with Hm : x mod Zpos c = _ |- _ => rewrite Hm in H end
  | context [?x / Zpos ?c] => no_wrap x; go x c
  | context [?x mod Zpos ?c] => no_wrap x; go x c
  end.

Ltac lor_step H :=
  match type of H with
  | context [Z.lor (?x * ?c) ?y] => is_lit c;
      let k := eval vm_compute in (Z.log2 c) in
      let B := fresh "B" in bound_as y B;
      rewrite (lor_lit x c k y _ eq_refl eq_refl B eq_refl) in H; clear B
  end.

Ltac norm_word H :=
  repeat first
    [ fold_consts H | mask_step H | unwrap_step H | split_step H | lor_step H ].

(** One C assignment: the new value [x], its equation and its interval. *)
Ltac wlet :=
  lazymatch goal with
  | |- wp ?P (let x := ?e in @?b x) =>
    let y := fresh x in let H := fresh "E" y in
    apply (wp_let P e b); intros y H; cbv beta;
    norm_word H;
    lazymatch type of H with
    | _ = ?r =>
      tryif (is_lit r) then subst y
      else tryif (is_var r) then subst y
      else (let B := fresh "B" y in bound_as r B; rewrite <- H in B)
    end
  end.

Ltac wlets := repeat wlet.

(** The same assignment with its right-hand side left as it is. *)
Ltac wtake x H :=
  lazymatch goal with
  | |- wp ?P (let y := ?e in @?b y) => apply (wp_let P e b); intros x H; cbv beta
  end.

(** [lia] with quotients and remainders by constants. *)
Ltac dlia := Z.div_mod_to_equations; lia.

(** Evaluate the interval ends of the context. *)
Ltac eval_bounds :=
  repeat match goal with
  | H : Bounded ?x ?n |- _ =>
    tryif is_lit n then fail else
      (let n' := eval vm_compute in n in change (Bounded x n') in H)
  end.

(** A range goal closed by the interval of its subject alone. *)
Ltac by_bound :=
  lazymatch goal with
  | |- 0 <= ?x <= _ =>
    let B := fresh "B" in bound_as x B; clear - B; unfold Bounded in B; lia
  | |- Bounded ?x _ =>
    let B := fresh "B" in bound_as x B; clear - B; unfold Bounded in *; lia
  end.

(** Enter the body of [f] in a goal [let r := f .. in P r], keeping its [let]s,
    and take the assignments one at a time. *)
Ltac enter f :=
  lazymatch goal with |- let r := ?e in @?P r => change (wp P e) end;
  cbv beta delta [f].

Ltac run f := enter f; wlets; cbv beta delta [wp].

(** ** Congruence

    [a =[n]= b] is the equality of values that the code keeps in a
    non-canonical representation. *)

Definition cong (n a b : Z) : Prop := (n | a - b).

Notation "a =[ n ]= b" := (cong n a b)
  (at level 70, n at level 50, format "a  =[ n ]=  b").

Lemma cong_iff n a b : a =[n]= b <-> a mod n = b mod n.
Proof.
  unfold cong. split.
  - intros [k Hk]. replace a with (b + k * n) by lia. apply Z_mod_plus_full.
  - intros H. exists (a / n - b / n).
    pose proof (Z_div_mod_eq_full a n). pose proof (Z_div_mod_eq_full b n). nia.
Qed.

#[export] Instance cong_equiv n : Equivalence (cong n).
Proof.
  unfold cong; split.
  - intros a. exists 0. lia.
  - intros a b [k H]. exists (- k). lia.
  - intros a b c [k H] [l K]. exists (k + l). lia.
Qed.

#[export] Instance cong_add n : Proper (cong n ==> cong n ==> cong n) Z.add.
Proof. intros a b [k H] c d [l K]. exists (k + l). lia. Qed.

#[export] Instance cong_mul n : Proper (cong n ==> cong n ==> cong n) Z.mul.
Proof. intros a b [k H] c d [l K]. exists (k * c + b * l). nia. Qed.

#[export] Instance cong_opp n : Proper (cong n ==> cong n) Z.opp.
Proof. intros a b [k H]. exists (- k). lia. Qed.

#[export] Instance cong_sub n : Proper (cong n ==> cong n ==> cong n) Z.sub.
Proof. intros a b [k H] c d [l K]. exists (k - l). lia. Qed.

#[export] Instance cong_pow n : Proper (cong n ==> eq ==> cong n) Z.pow.
Proof.
  intros a b H k ? <-. destruct (Z.neg_nonneg_cases k) as [Hk|Hk].
  { now rewrite !Z.pow_neg_r. }
  pattern k. apply natlike_ind; [now rewrite !Z.pow_0_r| |exact Hk].
  intros i Hi IH. rewrite !Z.pow_succ_r by exact Hi.
  now apply cong_mul.
Qed.

Lemma cong_eq n a b : a = b -> a =[n]= b.
Proof. now intros ->. Qed.

(** The multiple of [n] that separates the two sides is given. *)
Lemma cong_by k n a b : a = b + k * n -> a =[n]= b.
Proof. intros ->. exists k. lia. Qed.

Lemma cong_mod n a : a mod n =[n]= a.
Proof. apply cong_iff, Zmod_mod. Qed.

Lemma cong_small n a b : a =[n]= b -> 0 <= a < n -> 0 <= b < n -> a = b.
Proof. rewrite cong_iff. intros H ? ?. now rewrite !Z.mod_small in H by assumption. Qed.

Lemma cong_mod_small n a b : a =[n]= b -> 0 <= a < n -> a = b mod n.
Proof. rewrite cong_iff. intros <- ?. now rewrite Z.mod_small. Qed.

(** ** Big-endian bytes *)

Abbreviation bytes := (list Z).

Definition is_byte (b : Z) : Prop := 0 <= b < 256.

(** The number a byte string denotes, most significant byte first. *)
Definition be_val (l : bytes) : Z := fold_left (fun acc b => acc * 256 + b) l 0.

(** The [n] low bytes of [x], most significant byte first. *)
Fixpoint be_bytes (n : nat) (x : Z) : bytes :=
  match n with
  | O => []
  | S m => be_bytes m (x / 256) ++ [x mod 256]
  end.

Lemma be_val_snoc l b : be_val (l ++ [b]) = be_val l * 256 + b.
Proof. unfold be_val. now rewrite fold_left_app. Qed.

Lemma be_val_app l m :
  be_val (l ++ m) = be_val l * 256 ^ Z.of_nat (length m) + be_val m.
Proof.
  induction m as [|b m IH] using rev_ind.
  { rewrite app_nil_r. cbn. lia. }
  rewrite app_assoc, !be_val_snoc, IH, length_app, Nat2Z.inj_add.
  rewrite Z.pow_add_r by lia. change (256 ^ Z.of_nat (length [b])) with 256. ring.
Qed.

Lemma be_val_cons b m : be_val (b :: m) = b * 256 ^ Z.of_nat (length m) + be_val m.
Proof. exact (be_val_app [b] m). Qed.

Lemma be_val_range l :
  Forall is_byte l -> 0 <= be_val l < 256 ^ Z.of_nat (length l).
Proof.
  induction l as [|b l IH] using rev_ind; intros H; [cbn; lia|].
  apply Forall_app in H as [H1 H2]. inversion_clear H2. specialize (IH H1).
  rewrite be_val_snoc, length_app, Nat2Z.inj_add, Z.pow_add_r by lia.
  change (256 ^ Z.of_nat (length [b])) with 256.
  unfold is_byte in *. lia.
Qed.

Lemma be_val_bound l n : Forall is_byte l -> n = 256 ^ Z.of_nat (length l) - 1 ->
  Bounded (be_val l) n.
Proof. intros H ->. pose proof (be_val_range l H). unfold Bounded. lia. Qed.

Lemma length_be_bytes n x : length (be_bytes n x) = n.
Proof. revert x; induction n as [|n IH]; intros; cbn; [|rewrite length_app, IH; cbn; lia]. reflexivity. Qed.

Lemma be_bytes_byte n x : Forall is_byte (be_bytes n x).
Proof.
  revert x; induction n as [|n IH]; intros; cbn; constructor || apply Forall_app.
  split; [apply IH|]. repeat constructor; apply Z.mod_pos_bound; lia.
Qed.

Lemma be_val_bytes n x : be_val (be_bytes n x) = x mod 256 ^ Z.of_nat n.
Proof.
  revert x; induction n as [|n IH]; intros x.
  { cbn. symmetry. apply Z.mod_1_r. }
  cbn [be_bytes]. rewrite be_val_snoc, IH, Nat2Z.inj_succ, Z.pow_succ_r by lia.
  rewrite Z.rem_mul_r by (try apply Z.pow_nonzero; lia). ring.
Qed.

Lemma be_bytes_app n m x :
  be_bytes (n + m) x = be_bytes n (x / 256 ^ Z.of_nat m) ++ be_bytes m x.
Proof.
  revert x; induction m as [|m IH]; intros x.
  { now rewrite Nat.add_0_r, Z.pow_0_r, Z.div_1_r, app_nil_r. }
  rewrite Nat.add_succ_r. cbn [be_bytes]. rewrite IH, app_assoc, Nat2Z.inj_succ.
  rewrite Z.pow_succ_r by lia. now rewrite Z.div_div by (try apply Z.pow_pos_nonneg; lia).
Qed.

Lemma be_bytes_mod n x : be_bytes n x = be_bytes n (x mod 256 ^ Z.of_nat n).
Proof.
  revert x; induction n as [|n IH]; intros x; [reflexivity|].
  cbn [be_bytes]. rewrite Nat2Z.inj_succ, Z.pow_succ_r, Z.rem_mul_r
    by (try apply Z.pow_nonzero; lia).
  rewrite (Z.mul_comm 256), Z_mod_plus_full, Zmod_mod.
  rewrite Z.div_add, (Z.div_small (x mod 256)), Z.add_0_l
    by (try apply Z.mod_pos_bound; lia).
  now rewrite <- IH.
Qed.

Lemma be_bytes_val l :
  Forall is_byte l -> be_bytes (length l) (be_val l) = l.
Proof.
  induction l as [|b l IH] using rev_ind; intros H; [reflexivity|].
  apply Forall_app in H as [H1 H2]. inversion_clear H2. unfold is_byte in *.
  rewrite length_app, Nat.add_comm. cbn [length Nat.add be_bytes].
  rewrite be_val_snoc. rewrite Z.div_add_l, Z.div_small by lia.
  rewrite Z.add_0_r, IH by assumption.
  now rewrite Z.add_comm, Z_mod_plus_full, Z.mod_small by lia.
Qed.

Lemma be_val_inj l m :
  Forall is_byte l -> Forall is_byte m -> length l = length m ->
  be_val l = be_val m -> l = m.
Proof.
  intros Hl Hm E H. rewrite <- (be_bytes_val l Hl), <- (be_bytes_val m Hm).
  now rewrite E, H.
Qed.

Lemma Forall_firstn {A} (P : A -> Prop) n l : Forall P l -> Forall P (firstn n l).
Proof. revert l; induction n; intros [|x l] H; cbn; inversion_clear H; auto. Qed.

Lemma Forall_skipn {A} (P : A -> Prop) n l : Forall P l -> Forall P (skipn n l).
Proof. revert l; induction n; intros [|x l] H; cbn; inversion_clear H; auto. Qed.

Lemma firstn_app_exact {A} (l m : list A) n : length l = n -> firstn n (l ++ m) = l.
Proof.
  intros <-. rewrite firstn_app, Nat.sub_diag, firstn_O, app_nil_r. apply firstn_all.
Qed.

Lemma skipn_app_exact {A} (l m : list A) n : length l = n -> skipn n (l ++ m) = m.
Proof. intros <-. now rewrite skipn_app, Nat.sub_diag, skipn_all, skipn_O. Qed.

(** Eight 32-bit words, most significant first, as in the constant
    macros of the field and scalar headers. *)
Definition words_val (d7 d6 d5 d4 d3 d2 d1 d0 : Z) : Z :=
  fold_left (fun acc d => acc * 2 ^ 32 + d) [d7; d6; d5; d4; d3; d2; d1; d0] 0.

(** [memcpy]-style slices: [len] bytes from offset [off]. *)
Definition slice (l : bytes) (off len : nat) : bytes := firstn len (skipn off l).

Lemma slice_all (l : bytes) n : length l = n -> slice l 0 n = l.
Proof. intros <-. apply firstn_all. Qed.

(** ** Counted loops

    [for_loop n body s] is [for (i = 0; i < n; i++) s = body(i, s)]. *)

Fixpoint for_from {S : Type} (i : Z) (n : nat) (body : Z -> S -> S) (s : S) : S :=
  match n with
  | O => s
  | Datatypes.S m => for_from (i + 1) m body (body i s)
  end.

Definition for_loop {S : Type} (n : nat) (body : Z -> S -> S) (s : S) : S :=
  for_from 0 n body s.

Lemma for_from_inv {S} (Q : Z -> S -> Prop) body n i s :
  Q i s ->
  (forall k s, i <= k < i + Z.of_nat n -> Q k s -> Q (k + 1) (body k s)) ->
  Q (i + Z.of_nat n) (for_from i n body s).
Proof.
  revert i s; induction n as [|n IH]; intros i s H0 Hs.
  { cbn. now rewrite Z.add_0_r. }
  cbn [for_from]. replace (i + Z.of_nat (Datatypes.S n)) with (i + 1 + Z.of_nat n) by lia.
  apply IH; [apply Hs; [lia|assumption]|]. intros; apply Hs; [lia|assumption].
Qed.

Lemma for_loop_inv {S} (Q : Z -> S -> Prop) body n s :
  Q 0 s ->
  (forall k s, 0 <= k < Z.of_nat n -> Q k s -> Q (k + 1) (body k s)) ->
  Q (Z.of_nat n) (for_loop n body s).
Proof. intros. now apply (for_from_inv Q body n 0 s). Qed.

(** The element of an array; the indices of the code are in range. *)
Definition at_ (l : list Z) (i : Z) : Z := nth (Z.to_nat i) l 0.

Lemma at_byte l i : Forall is_byte l -> is_byte (at_ l i).
Proof.
  intros H. unfold at_. destruct (Nat.lt_ge_cases (Z.to_nat i) (length l)).
  - rewrite Forall_forall in H. apply H, nth_In. assumption.
  - rewrite nth_overflow by assumption. unfold is_byte. lia.
Qed.

Lemma be_val_nth l i :
  Forall is_byte l -> 0 <= i < Z.of_nat (length l) ->
  at_ l (Z.of_nat (length l) - 1 - i) = (be_val l / 256 ^ i) mod 256.
Proof.
  intros H. revert i. induction l as [|b l IH] using rev_ind; intros i Hi.
  { cbn in Hi. lia. }
  apply Forall_app in H as [H1 H2]. inversion_clear H2. unfold is_byte in *.
  rewrite be_val_snoc. rewrite length_app, Nat2Z.inj_add in *. cbn [length] in *.
  unfold at_ in *. destruct (Z.eq_dec i 0) as [->|Hne].
  - rewrite app_nth2 by lia. replace (_ - _)%nat with O by lia. cbn [nth].
    rewrite Z.pow_0_r, Z.div_1_r, Z.add_comm, Z_mod_plus_full, Z.mod_small; lia.
  - rewrite app_nth1 by lia.
    replace (Z.of_nat (length l) + Z.of_nat 1 - 1 - i)
      with (Z.of_nat (length l) - 1 - (i - 1)) by lia.
    rewrite IH by (assumption || lia).
    replace (256 ^ i) with (256 * 256 ^ (i - 1)).
    2:{ rewrite <- Z.pow_succ_r by lia. f_equal. lia. }
    rewrite <- Z.div_div by (try apply Z.pow_pos_nonneg; lia).
    now rewrite Z.div_add_l, (Z.div_small b), Z.add_0_r by lia.
Qed.

(** ** Bitwise facts *)

Lemma land_ub x y : 0 <= x -> 0 <= x .& y <= x.
Proof.
  intros Hx. split; [apply Z.land_nonneg; now left|].
  enough (x = x .& y + Z.ldiff x y) by (pose proof (Z.ldiff_nonneg x y); lia).
  rewrite Z.add_nocarry_lxor.
  2:{ apply Z.bits_inj'. intros i _.
      rewrite Z.land_spec, Z.land_spec, Z.ldiff_spec, Z.bits_0.
      now destruct (Z.testbit x i), (Z.testbit y i). }
  apply Z.bits_inj'. intros i _.
  rewrite Z.lxor_spec, Z.land_spec, Z.ldiff_spec.
  now destruct (Z.testbit x i), (Z.testbit y i).
Qed.

(** A conjunction of words is the all-ones mask only when each word is. *)
Lemma land_eq_ones x y k :
  0 <= k -> 0 <= x < 2 ^ k -> 0 <= y < 2 ^ k ->
  x .& y = 2 ^ k - 1 <-> x = 2 ^ k - 1 /\ y = 2 ^ k - 1.
Proof.
  intros Hk Hx Hy. split; [intros E|intros [-> ->]; apply Z.land_diag].
  pose proof (land_ub x y). pose proof (land_ub y x). rewrite (Z.land_comm y x) in *. lia.
Qed.

Lemma lor_eq_0 x y : x .| y = 0 <-> x = 0 /\ y = 0.
Proof. apply Z.lor_eq_0_iff. Qed.

(** Bounds of the bitwise operators, for interval inference. *)

Lemma testbit_above x k i : 0 <= x < 2 ^ k -> k <= i -> Z.testbit x i = false.
Proof.
  intros Hx Hi. rewrite <- (Z.mod_small x (2 ^ k)) by lia.
  apply Z.mod_pow2_bits_high.
  destruct (Z.neg_nonneg_cases k); [rewrite Z.pow_neg_r in Hx|]; lia.
Qed.

Lemma bits_range x k : 0 <= k -> 0 <= x ->
  (forall i, k <= i -> Z.testbit x i = false) -> 0 <= x < 2 ^ k.
Proof.
  intros Hk Hx H. split; [exact Hx|].
  replace x with (x mod 2 ^ k); [apply Z.mod_pos_bound; lia|].
  apply Z.bits_inj'. intros i _. destruct (Z.lt_ge_cases i k).
  - now apply Z.mod_pow2_bits_low.
  - rewrite Z.mod_pow2_bits_high by lia. now rewrite H.
Qed.

Lemma lor_range x y k :
  0 <= k -> 0 <= x < 2 ^ k -> 0 <= y < 2 ^ k -> 0 <= x .| y < 2 ^ k.
Proof.
  intros Hk Hx Hy. apply bits_range; [exact Hk|apply Z.lor_nonneg; lia|].
  intros i Hi. rewrite Z.lor_spec, !(testbit_above _ k) by lia. reflexivity.
Qed.

Lemma lxor_range x y k :
  0 <= k -> 0 <= x < 2 ^ k -> 0 <= y < 2 ^ k -> 0 <= x .^ y < 2 ^ k.
Proof.
  intros Hk Hx Hy. apply bits_range; [exact Hk|apply Z.lxor_nonneg; lia|].
  intros i Hi. rewrite Z.lxor_spec, !(testbit_above _ k) by lia. reflexivity.
Qed.

Definition width_ones (n m : Z) : Z := 2 ^ (Z.log2 (Z.max n m) + 1) - 1.

Lemma width_ones_lt x n m k : Bounded x n \/ Bounded x m -> k = Z.log2 (Z.max n m) + 1 ->
  0 <= x < 2 ^ k.
Proof.
  unfold Bounded. intros H ->.
  pose proof (Z.log2_spec (Z.max n m)). rewrite <- Z.add_1_r in *.
  destruct (Z.eq_dec (Z.max n m) 0) as [E|]; [rewrite E; cbn|]; lia.
Qed.

Section BoundedBits.
Context {x y n m : Z} {Hx : Bounded x n} {Hy : Bounded y m}.

Lemma bounded_land : Bounded (x .& y) n.
Proof. pose proof (land_ub x y). unfold Bounded in *; lia. Qed.

Lemma bounded_lor : Bounded (x .| y) (width_ones n m).
Proof.
  unfold width_ones. pose proof (Z.log2_nonneg (Z.max n m)).
  enough (0 <= x .| y < 2 ^ (Z.log2 (Z.max n m) + 1)) by (unfold Bounded; lia).
  apply lor_range; [lia|..];
    apply (width_ones_lt _ n m); auto.
Qed.

Lemma bounded_lxor : Bounded (x .^ y) (width_ones n m).
Proof.
  unfold width_ones. pose proof (Z.log2_nonneg (Z.max n m)).
  enough (0 <= x .^ y < 2 ^ (Z.log2 (Z.max n m) + 1)) by (unfold Bounded; lia).
  apply lxor_range; [lia|..];
    apply (width_ones_lt _ n m); auto.
Qed.
End BoundedBits.

#[export] Hint Resolve bounded_land bounded_lor bounded_lxor : typeclass_instances.

Lemma lxor_move x c d : x .^ c = d <-> x = d .^ c.
Proof.
  split; intros H; [rewrite <- H | rewrite H];
    now rewrite Z.lxor_assoc, Z.lxor_nilpotent, Z.lxor_0_r.
Qed.

(** ** Digits

    [dig w v k] is digit [k] of [v] in base [2^w]. *)

Definition dig (w v k : Z) : Z := (v / 2 ^ (w * k)) mod 2 ^ w.

Lemma testbit_dig w v k i : 0 <= w -> 0 <= k -> 0 <= i ->
  Z.testbit (dig w v k) i = (i <? w) && Z.testbit v (w * k + i).
Proof.
  intros. unfold dig. rewrite Z.testbit_mod_pow2, Z.div_pow2_bits by nia.
  f_equal. f_equal. lia.
Qed.

Lemma dig_range w v k : 0 <= w -> 0 <= dig w v k < 2 ^ w.
Proof. intros. apply Z.mod_pos_bound. lia. Qed.

Lemma dig_step w v k : 0 <= w -> 0 <= k ->
  v / 2 ^ (w * k) = dig w v k + 2 ^ w * (v / 2 ^ (w * (k + 1))).
Proof.
  intros. unfold dig. replace (w * (k + 1)) with (w * k + w) by lia.
  rewrite Z.pow_add_r, <- Z.div_div by nia.
  pose proof (Z_div_mod_eq_full (v / 2 ^ (w * k)) (2 ^ w)). lia.
Qed.

(** A sub-word of a digit. *)
Lemma dig_sub w v k s n : 0 <= w -> 0 <= k -> 0 <= s -> 0 <= n -> s + n <= w ->
  (dig w v k >> s) mod 2 ^ n = (v / 2 ^ (w * k + s)) mod 2 ^ n.
Proof.
  intros. apply Z.bits_inj'. intros i Hi.
  rewrite !Z.testbit_mod_pow2, Z.shiftr_spec, testbit_dig, Z.div_pow2_bits by nia.
  destruct (Z.ltb_spec i n); cbn [andb]; [|reflexivity].
  replace (i + s <? w) with true by (symmetry; apply Z.ltb_lt; lia).
  cbn [andb]. f_equal. lia.
Qed.

(** Reading [V] from its low end, [n] bits at a time, into base-[2^w] digits:
    the next [n] bits land in digit [T / w]. *)
Lemma dig_fill w V T n k : 0 < w -> 0 <= T -> 0 <= n -> T mod w + n <= w -> 0 <= k ->
  dig w (V mod 2 ^ (T + n)) k =
  if k =? T / w
  then dig w (V mod 2 ^ T) k .| (((V / 2 ^ T) mod 2 ^ n) << (T mod w))
  else dig w (V mod 2 ^ T) k.
Proof.
  intros Hw HT Hn Hs Hk.
  pose proof (Z_div_mod_eq_full T w) as E. pose proof (Z.mod_pos_bound T w Hw).
  pose proof (Z.div_pos T w HT Hw).
  set (l := T / w) in *. set (s := T mod w) in *.
  apply Z.bits_inj'. intros i Hi.
  assert (B : forall t, 0 <= t -> Z.testbit (dig w (V mod 2 ^ t) k) i =
    (i <? w) && ((w * k + i <? t) && Z.testbit V (w * k + i))).
  { intros t Ht. rewrite testbit_dig, Z.testbit_mod_pow2 by lia. reflexivity. }
  rewrite B by lia. destruct (Z.eqb_spec k l) as [->|Hne].
  - rewrite Z.lor_spec, B, Z.shiftl_spec by lia.
    destruct (Z.lt_ge_cases i s).
    + rewrite (Z.testbit_neg_r _ (i - s)), orb_false_r by lia.
      do 2 f_equal. rewrite E.
      now rewrite (proj2 (Z.ltb_lt _ _)), (proj2 (Z.ltb_lt _ _)) by lia.
    + rewrite Z.testbit_mod_pow2, Z.div_pow2_bits by lia.
      replace (i - s + T) with (w * l + i) by lia.
      rewrite (proj2 (Z.ltb_ge (w * l + i) T)) by lia. cbn [andb].
      rewrite andb_false_r. cbn [orb].
      destruct (Z.ltb_spec i w), (Z.ltb_spec (w * l + i) (T + n)),
        (Z.ltb_spec (i - s) n); cbn [andb]; try reflexivity; lia.
  - rewrite B by lia. destruct (Z.ltb_spec i w); cbn [andb]; [|reflexivity].
    f_equal. destruct (Z.ltb_spec (w * k + i) (T + n)), (Z.ltb_spec (w * k + i) T);
      try reflexivity; nia.
Qed.

Lemma be_bytes_map n x :
  be_bytes n x = map (fun k => (x / 256 ^ (Z.of_nat n - 1 - Z.of_nat k)) mod 256) (seq 0 n).
Proof.
  revert x; induction n as [|n IH]; intros x; [reflexivity|].
  cbn [be_bytes]. rewrite seq_S, map_app, IH. cbn [map Nat.add]. f_equal.
  - apply map_ext_in. intros k Hk. apply in_seq in Hk. f_equal.
    rewrite Z.div_div by (try apply Z.pow_pos_nonneg; lia). f_equal.
    rewrite <- Z.pow_succ_r by lia. f_equal. lia.
  - replace (Z.of_nat (S n) - 1 - Z.of_nat n) with 0 by lia.
    now rewrite Z.pow_0_r, Z.div_1_r.
Qed.

(** A left shift truncated to [n] bits keeps the low [n - k] bits. *)
Lemma shl_trunc x k n : 0 <= k <= n ->
  (x << k) mod 2 ^ n = (x mod 2 ^ (n - k)) * 2 ^ k.
Proof.
  intros H. rewrite Z.shiftl_mul_pow2 by lia.
  replace (2 ^ n) with (2 ^ (n - k) * 2 ^ k) by (rewrite <- Z.pow_add_r by lia; f_equal; lia).
  apply Zmult_mod_distr_r.
Qed.

(** Two adjacent bit fields joined by [|]. *)
Lemma lor_join lo hi k : 0 <= k -> 0 <= lo < 2 ^ k -> lo .| (hi * 2 ^ k) = lo + hi * 2 ^ k.
Proof. intros. rewrite Z.lor_comm, lor_disjoint by assumption. lia. Qed.

Lemma join_div_mod x y k n : 0 <= k -> 0 <= x < 2 ^ n -> k <= n ->
  (x / 2 ^ k) .| (y * 2 ^ (n - k)) = x / 2 ^ k + y * 2 ^ (n - k).
Proof.
  intros Hk Hx Hn. apply lor_join; [lia|]. split; [apply Z.div_pos; lia|].
  apply Z.div_lt_upper_bound; [lia|]. rewrite <- Z.pow_add_r by lia.
  replace (k + (n - k)) with n by lia. lia.
Qed.

Lemma div_mod_bits x n m i : 0 <= n -> 0 <= m -> 0 <= i ->
  Z.testbit ((x / 2 ^ n) mod 2 ^ m) i = (i <? m) && Z.testbit x (i + n).
Proof. intros. now rewrite Z.testbit_mod_pow2, Z.div_pow2_bits by lia. Qed.

(** A right shift across two adjacent digits. *)
Lemma funnel w v k n : 0 < n < w -> 0 <= k ->
  (dig w v k >> n) .| ((dig w v (k + 1) << (w - n)) mod 2 ^ w)
  = (v / 2 ^ (w * k + n)) mod 2 ^ w.
Proof.
  intros Hn Hk. apply Z.bits_inj'. intros i Hi.
  rewrite div_mod_bits, Z.lor_spec, Z.shiftr_spec, testbit_dig by nia.
  rewrite Z.testbit_mod_pow2, Z.shiftl_spec by lia.
  destruct (Z.ltb_spec i w); cbn [andb].
  - destruct (Z.ltb_spec (i + n) w); cbn [andb orb].
    + rewrite (Z.testbit_neg_r _ (i - (w - n))), orb_false_r by lia. f_equal. lia.
    + rewrite testbit_dig by lia. destruct (Z.ltb_spec (i - (w - n)) w); [|lia].
      cbn [andb]. f_equal. lia.
  - destruct (Z.ltb_spec (i + n) w); [lia|reflexivity].
Qed.

Lemma funnel_add w v k n : 0 < n < w -> 0 <= k ->
  (dig w v k >> n) + ((dig w v (k + 1) << (w - n)) mod 2 ^ w)
  = (v / 2 ^ (w * k + n)) mod 2 ^ w.
Proof.
  intros Hn Hk. rewrite <- funnel by assumption.
  rewrite shl_trunc by lia. symmetry. apply lor_join; [lia|].
  pose proof (dig_range w v k ltac:(lia)). rewrite Z.shiftr_div_pow2 by lia.
  split; [apply Z.div_pos; lia|]. apply Z.div_lt_upper_bound; [lia|].
  rewrite <- Z.pow_add_r by lia. replace (n + (w - n)) with w by lia. lia.
Qed.

Lemma dig_shift w v n k : 0 <= w -> 0 <= n -> 0 <= k ->
  dig w (v / 2 ^ n) k = (v / 2 ^ (w * k + n)) mod 2 ^ w.
Proof.
  intros. unfold dig. rewrite Z.div_div by (try apply Z.pow_pos_nonneg; lia).
  rewrite <- Z.pow_add_r by nia. do 3 f_equal. lia.
Qed.

Lemma mod_mod_pow2 x n m : 0 <= m <= n -> (x mod 2 ^ n) mod 2 ^ m = x mod 2 ^ m.
Proof.
  intros H. apply Z.bits_inj'. intros i Hi. rewrite !Z.testbit_mod_pow2 by lia.
  destruct (Z.ltb_spec i m), (Z.ltb_spec i n); cbn [andb]; reflexivity || lia.
Qed.

Lemma dig_above w v m k : 0 <= w -> 0 <= m -> 0 <= v < 2 ^ (w * m) -> m <= k ->
  dig w v k = 0.
Proof.
  intros Hw Hm Hv Hk. unfold dig. rewrite Z.div_small; [reflexivity|].
  assert (2 ^ (w * m) <= 2 ^ (w * k)) by (apply Z.pow_le_mono_r; nia). lia.
Qed.

(** A mask in the middle of a word. *)
Lemma land_field x k n : 0 <= k -> 0 <= n ->
  x .& ((2 ^ n - 1) * 2 ^ k) = ((x / 2 ^ k) mod 2 ^ n) * 2 ^ k.
Proof.
  intros Hk Hn. rewrite <- land_mask by lia.
  rewrite <- !Z.shiftl_mul_pow2, <- Z.shiftr_div_pow2 by lia.
  apply Z.bits_inj'. intros i Hi.
  rewrite Z.land_spec, !Z.shiftl_spec, Z.land_spec by lia.
  destruct (Z.lt_ge_cases i k).
  - now rewrite !(Z.testbit_neg_r _ (i - k)), !andb_false_r by lia.
  - rewrite Z.shiftr_spec by lia. now replace (i - k + k) with i by lia.
Qed.

(** Constant-time selection: [flag + ~0] is all ones when [flag] is 0, and 0
    when it is 1. *)
Lemma select64 (flag : bool) x y :
  0 <= x < 2 ^ 64 -> 0 <= y < 2 ^ 64 ->
  (x .& u64 (b2z flag + not64 0)) .| (y .& not64 (u64 (b2z flag + not64 0)))
  = if flag then y else x.
Proof.
  intros Hx Hy. destruct flag; cbn [b2z].
  - change (u64 (1 + not64 0)) with 0. change (not64 0) with (2 ^ 64 - 1).
    now rewrite Z.land_0_r, Z.lor_0_l, land_mask, Z.mod_small by lia.
  - change (u64 (0 + not64 0)) with (2 ^ 64 - 1). change (not64 (2 ^ 64 - 1)) with 0.
    now rewrite Z.land_0_r, Z.lor_0_r, land_mask, Z.mod_small by lia.
Qed.

Lemma select32 (flag : bool) x y :
  0 <= x < 2 ^ 32 -> 0 <= y < 2 ^ 32 ->
  (x .& u32 (b2z flag + not32 0)) .| (y .& not32 (u32 (b2z flag + not32 0)))
  = if flag then y else x.
Proof.
  intros Hx Hy. destruct flag; cbn [b2z].
  - change (u32 (1 + not32 0)) with 0. change (not32 0) with (2 ^ 32 - 1).
    now rewrite Z.land_0_r, Z.lor_0_l, land_mask, Z.mod_small by lia.
  - change (u32 (0 + not32 0)) with (2 ^ 32 - 1). change (not32 (2 ^ 32 - 1)) with 0.
    now rewrite Z.land_0_r, Z.lor_0_r, land_mask, Z.mod_small by lia.
Qed.

(** ** Arrays of structures *)

Definition upd {A} (l : list A) (i : nat) (v : A) : list A :=
  firstn i l ++ match skipn i l with [] => [] | _ :: t => v :: t end.

Lemma length_upd {A} (l : list A) i v : length (upd l i v) = length l.
Proof.
  unfold upd. rewrite length_app.
  rewrite <- (firstn_skipn i l) at 3. rewrite length_app. f_equal.
  now destruct (skipn i l).
Qed.

Lemma nth_upd {A} (l : list A) i j v d : (i < length l)%nat ->
  nth j (upd l i v) d = if Nat.eqb i j then v else nth j l d.
Proof.
  intros Hi. unfold upd.
  assert (Hf : length (firstn i l) = i) by (rewrite length_firstn; lia).
  pose proof (firstn_skipn i l) as E.
  destruct (skipn i l) as [|x t] eqn:Es.
  { apply (f_equal (@length A)) in Es. rewrite length_skipn in Es. cbn in Es. lia. }
  destruct (Nat.eqb_spec i j) as [->|Hne].
  - rewrite app_nth2 by lia. now rewrite Hf, Nat.sub_diag.
  - transitivity (nth j (firstn i l ++ x :: t) d); [|now rewrite E].
    destruct (Nat.lt_ge_cases j i).
    + now rewrite !app_nth1 by lia.
    + rewrite !app_nth2 by lia. rewrite Hf.
      destruct (j - i)%nat eqn:Ej; [lia|reflexivity].
Qed.

Lemma Forall_upd {A} (P : A -> Prop) l i v : Forall P l -> P v -> Forall P (upd l i v).
Proof.
  intros Hl Hv. unfold upd. apply Forall_app. split; [now apply Forall_firstn|].
  pose proof (Forall_skipn P i l Hl) as H. destruct (skipn i l); [constructor|].
  inversion H; subst. constructor; assumption.
Qed.
