(* ===== verification/Primes.v ===== *)
(** * Primality of the field characteristic and of the group order

    The inverses and square roots of the library are exponentiations, correct
    because 2^256 - 2^32 - 977 and the order of the curve are prime.  Both are
    proved here with Pocklington certificates checked by computation. *)
From Stdlib Require Import Znumtheory Zmod.
From Bignums Require Import BigN.BigN.
From S2P Require Import Prelude.

(** ** Modular exponentiation

    On [bigN], whose digits are machine integers, so that the certificates
    below stay cheap to re-check. *)

Fixpoint powmod (n a : BigN.t) (e : positive) : BigN.t :=
  match e with
  | xH => BigN.modulo a n
  | xO e' => BigN.modulo (BigN.square (powmod n a e')) n
  | xI e' => BigN.modulo (BigN.mul (BigN.modulo (BigN.square (powmod n a e')) n) a) n
  end.

Lemma powmod_correct n a e : BigN.to_Z (powmod n a e) = BigN.to_Z a ^ Zpos e mod BigN.to_Z n.
Proof.
  induction e as [e IH|e IH|]; cbn [powmod];
    rewrite ?BigN.spec_modulo, ?BigN.spec_mul, ?BigN.spec_modulo, ?BigN.spec_square, ?IH.
  - rewrite Pos2Z.inj_xI, Z.pow_add_r, Z.pow_1_r by lia.
    replace (2 * Zpos e) with (Zpos e + Zpos e) by lia. rewrite Z.pow_add_r by lia.
    apply cong_iff. rewrite !cong_mod. reflexivity.
  - replace (Zpos e~0) with (Zpos e + Zpos e) by lia.
    rewrite Z.pow_add_r by lia. apply cong_iff. rewrite !cong_mod. reflexivity.
  - now rewrite Z.pow_1_r.
Qed.

(** ** Trial division for the small primes *)

Definition trial (n : Z) : bool :=
  (1 <? n) &&
  forallb (fun k => negb (n mod Z.of_nat k =? 0))
    (seq 2 (Z.to_nat (Z.sqrt n) - 1)).

Lemma small_divisor n d : 1 < d < n -> (d | n) ->
  exists m, 1 < m /\ (m | n) /\ m * m <= n.
Proof.
  intros Hd [e ->]. destruct (Z.le_gt_cases d e).
  - exists d. repeat split; [lia|now exists e|nia].
  - exists e. repeat split; [nia|exists d; lia|nia].
Qed.

Lemma trial_prime n : trial n = true -> Z.prime n.
Proof.
  unfold trial. rewrite andb_true_iff, Z.ltb_lt, forallb_forall.
  intros [Hn H]. split; [exact Hn|]. intros d Hd Hdiv.
  destruct (small_divisor n d Hd Hdiv) as (m & Hm & Hmn & Hmm).
  assert (m <= Z.sqrt n) by (apply Z.sqrt_le_square; lia).
  specialize (H (Z.to_nat m)). rewrite in_seq, Z2Nat.id in H by lia.
  rewrite negb_true_iff, Z.eqb_neq in H. apply H; [lia|].
  apply Z.mod_divide; [lia|exact Hmn].
Qed.

(** ** Pocklington's criterion *)

Lemma prime_divisor m : 1 < m -> exists r, Z.prime r /\ (r | m).
Proof.
  intros Hm. assert (H : 0 <= m) by lia. revert Hm. pattern m.
  apply Z_lt_induction; [|exact H]. clear m H. intros m IH Hm.
  destruct (prime_dec m) as [P|P].
  - exists m. split; [|apply Z.divide_refl]. now apply prime_alt in P.
  - apply not_prime_divide in P as (d & Hd & Hdm); [|exact Hm].
    destruct (IH d ltac:(lia) ltac:(lia)) as (r & Hr & Hrd).
    exists r. split; [exact Hr|now apply Z.divide_trans with d].
Qed.

(** A prime factor [q] of [N - 1] with a witness [a] divides [r - 1] for every
    prime divisor [r] of [N]. *)
Lemma pock_factor N q a r : 1 < N -> Z.prime q -> (q | N - 1) ->
  a ^ (N - 1) mod N = 1 -> Z.gcd (a ^ ((N - 1) / q) - 1) N = 1 ->
  Z.prime r -> (r | N) -> (q | r - 1).
Proof.
  intros HN Hq Hdiv Ha Hg Hr HrN. pose proof (Z.prime_ge_2 _ Hr).
  pose proof (Z.prime_ge_2 _ Hq).
  destruct (Z.eq_dec ((r - 1) mod q) 0) as [E|E].
  { apply Z.mod_divide; [lia|exact E]. }
  exfalso. set (b := a ^ ((N - 1) / q)) in *.
  assert (Hbq : b ^ q =[r]= 1).
  { unfold b. rewrite <- Z.pow_mul_r by (try apply Z.div_pos; lia).
    destruct Hdiv as [k Hk]. rewrite Hk, Z.div_mul, <- Hk by lia.
    destruct HrN as [j ->].
    apply cong_iff. rewrite <- (Z.mod_mod_divide _ (j * r)) by now exists j.
    now rewrite Ha. }
  assert (Hb0 : b mod r <> 0).
  { intros Hz. change 0 with (0 mod r) in Hz. apply cong_iff in Hz. rewrite Hz in Hbq.
    rewrite Z.pow_0_l in Hbq by lia. apply cong_iff in Hbq.
    rewrite Z.mod_0_l, Z.mod_1_l in Hbq; lia. }
  assert (Hbr : b ^ (r - 1) =[r]= 1).
  { apply cong_iff. rewrite Z.mod_1_l by lia. now apply ZmodInv.Z.fermat_nz. }
  assert (Hco : Z.coprime q (r - 1)).
  { apply Z.coprime_prime_l; [exact Hq|]. intros D. apply E. now apply Z.mod_divide; [lia|]. }
  apply Z.Bezout_coprime in Hco as (u & v & Huv).
  assert (Hb1 : b =[r]= 1).
  { (* u q + v (r-1) = 1 with u made positive *)
    set (k := Z.abs u + Z.abs v).
    set (u' := u + k * (r - 1)). set (w := k * q - v).
    assert (Hu : u' * q = 1 + w * (r - 1)).
    { transitivity ((u * q + v * (r - 1)) + w * (r - 1)); [unfold u', w; ring|].
      now rewrite Huv. }
    assert (Hk : - u <= k /\ v <= k /\ 0 <= k) by (unfold k; lia).
    clearbody k. clear Huv.
    assert (0 <= u') by (unfold u'; clear - Hk H; nia).
    assert (0 <= w) by (unfold w; clear - Hk H0; nia).
    assert (C : b ^ (u' * q) =[r]= b ^ (1 + w * (r - 1))) by now rewrite Hu.
    assert (0 <= w * (r - 1)) by (apply Z.mul_nonneg_nonneg; lia).
    rewrite Z.pow_add_r, Z.pow_1_r in C by lia.
    rewrite (Z.mul_comm u'), (Z.mul_comm w), !Z.pow_mul_r in C by lia.
    rewrite Hbq, Hbr, !Z.pow_1_l, Z.mul_1_r in C by lia. now symmetry. }
  assert (D : (r | 1)).
  { rewrite <- Hg. apply Z.gcd_greatest; [exact Hb1|exact HrN]. }
  apply Z.divide_1_r_nonneg in D; lia.
Qed.

Lemma gcd_cong N a b : a =[N]= b -> Z.gcd a N = Z.gcd b N.
Proof. intros H%cong_iff. now rewrite <- (Z.gcd_mod_l a), H, Z.gcd_mod_l. Qed.

(** A certificate: the base [a] and distinct primes [q] of [N - 1] whose
    product exceeds the square root of [N]. *)
Definition check_cert (N a : Z) (qs : list Z) : bool :=
  let F := fold_right Z.mul 1 qs in
  let n := BigN.of_N (Z.to_N N) in
  let b := BigN.of_N (Z.to_N a) in
  match N - 1 with
  | Zpos e =>
    (0 <? F) && (N <? F * F) && (0 <=? a) && (BigN.eqb (powmod n b e) BigN.one) &&
    forallb (fun q => ((N - 1) mod q =? 0) &&
      match (N - 1) / q with
      | Zpos e' =>
        BigN.eqb (BigN.gcd (BigN.sub (BigN.add (powmod n b e') n) BigN.one) n) BigN.one
      | _ => false
      end) qs
  | _ => false
  end.

Lemma coprime_product_divide a b m :
  Z.coprime a b -> (a | m) -> (b | m) -> (a * b | m).
Proof.
  intros H%Z.Bezout_coprime [i ->] [j E]. destruct H as (u & v & H).
  exists (u * j + v * i).
  replace (i * a) with ((u * a + v * b) * (i * a)) by (rewrite H; ring).
  rewrite Z.mul_add_distr_r. rewrite E at 1. ring.
Qed.

Lemma distinct_primes_divide qs m :
  Forall Z.prime qs -> NoDup qs -> Forall (fun q => (q | m)) qs ->
  (fold_right Z.mul 1 qs | m).
Proof.
  induction qs as [|q qs IH]; intros Hp Hn Hd; [apply Z.divide_1_l|].
  inversion_clear Hp as [|? ? Pq Pqs]. inversion_clear Hn as [|? ? Nq Nqs].
  inversion_clear Hd as [|? ? Dq Dqs].
  cbn [fold_right]. apply coprime_product_divide; [|exact Dq|now apply IH].
  clear IH Dq Dqs Nqs. induction qs as [|x qs IHx]; [apply Z.coprime_1_r|].
  inversion_clear Pqs as [|? ? Px Pxs]. cbn [fold_right].
  apply Z.coprime_mul_r; [|apply IHx; [assumption|intros C; apply Nq; now right]].
  apply Z.coprime_prime_l; [exact Pq|]. intros D.
  apply Z.divide_prime_prime in D; [|assumption|assumption].
  subst. apply Nq. now left.
Qed.

Theorem pocklington N a qs : 1 < N ->
  Forall Z.prime qs -> NoDup qs -> check_cert N a qs = true -> Z.prime N.
Proof.
  intros HN Hp Hnd H. unfold check_cert in H. cbv zeta in H.
  set (n := BigN.of_N (Z.to_N N)) in H. set (b := BigN.of_N (Z.to_N a)) in H.
  assert (En : BigN.to_Z n = N) by (unfold n; rewrite BigN.spec_of_N; lia).
  destruct (N - 1) as [|e|e] eqn:EN; try discriminate.
  rewrite !andb_true_iff, !Z.ltb_lt, Z.leb_le, forallb_forall, BigN.spec_eqb, Z.eqb_eq,
    powmod_correct, <- EN in H.
  destruct H as [[[[HF0 HF] Ha0] Ha] Hq].
  assert (Eb : BigN.to_Z b = a) by (unfold b; rewrite BigN.spec_of_N; lia).
  clearbody n b. rewrite Eb, En, BigN.spec_1 in Ha. split; [exact HN|]. intros d Hd Hdiv.
  destruct (small_divisor N d Hd Hdiv) as (m & Hm & HmN & Hmm).
  destruct (prime_divisor m Hm) as (r & Hr & Hrm).
  assert (HrN : (r | N)) by now apply Z.divide_trans with m.
  assert (Hrle : r <= m) by (apply Z.divide_pos_le; [lia|exact Hrm]).
  pose proof (Z.prime_ge_2 _ Hr).
  assert (D : (fold_right Z.mul 1 qs | r - 1)).
  { apply distinct_primes_divide; [exact Hp|exact Hnd|].
    apply Forall_forall. intros q Hin. specialize (Hq q Hin).
    rewrite Forall_forall in Hp. specialize (Hp q Hin).
    apply andb_true_iff in Hq as [Hdq Hgq]. apply Z.eqb_eq in Hdq.
    pose proof (Z.prime_ge_2 _ Hp).
    destruct ((N - 1) / q) as [|e'|e'] eqn:Eq; try discriminate.
    rewrite BigN.spec_eqb, BigN.spec_gcd, Z.eqb_eq, BigN.spec_1, BigN.spec_sub,
      BigN.spec_add, powmod_correct, Eb, En, BigN.spec_1 in Hgq.
    apply (pock_factor N q a r); try assumption.
    { apply Z.mod_divide; [lia|exact Hdq]. }
    rewrite Eq. etransitivity; [|exact Hgq]. apply gcd_cong.
    pose proof (Z.mod_pos_bound (a ^ Zpos e') N). rewrite Z.max_r by lia.
    rewrite cong_mod. apply (cong_by (-1)). ring. }
  apply Z.divide_pos_le in D; [|lia]. set (F := fold_right Z.mul 1 qs) in *.
  clear - D Hrle Hmm HF HF0. nia.
Qed.

(** ** The certificates *)

Ltac by_trial := apply trial_prime; vm_compute; reflexivity.

Create HintDb primes.

Lemma prime_7 : Z.prime 7. Proof. by_trial. Qed.
Lemma prime_19 : Z.prime 19. Proof. by_trial. Qed.
Lemma prime_29 : Z.prime 29. Proof. by_trial. Qed.
Lemma prime_41 : Z.prime 41. Proof. by_trial. Qed.
Lemma prime_53 : Z.prime 53. Proof. by_trial. Qed.
Lemma prime_101 : Z.prime 101. Proof. by_trial. Qed.
Lemma prime_113 : Z.prime 113. Proof. by_trial. Qed.
Lemma prime_239 : Z.prime 239. Proof. by_trial. Qed.
Lemma prime_419 : Z.prime 419. Proof. by_trial. Qed.
Lemma prime_1409 : Z.prime 1409. Proof. by_trial. Qed.
Lemma prime_1871 : Z.prime 1871. Proof. by_trial. Qed.
#[export] Hint Resolve prime_7 prime_19 prime_29 prime_41 prime_53 prime_101 prime_113 prime_239 prime_419 prime_1409 prime_1871 : primes.

Ltac pock a qs :=
  apply (pocklington _ a qs);
    [ lia
    | repeat (apply Forall_cons; [auto with primes|]); apply Forall_nil
    | repeat constructor; cbn [In]; intuition lia
    | vm_compute; reflexivity ].

Lemma prime_9349 : Z.prime 9349. Proof. pock 2 [41; 19]. Qed.
#[export] Hint Resolve prime_9349 : primes.
Lemma prime_20113 : Z.prime 20113. Proof. pock 2 [419]. Qed.
#[export] Hint Resolve prime_20113 : primes.
Lemma prime_28181 : Z.prime 28181. Proof. pock 2 [1409]. Qed.
#[export] Hint Resolve prime_28181 : primes.
Lemma prime_96557 : Z.prime 96557. Proof. pock 2 [239; 101]. Qed.
#[export] Hint Resolve prime_96557 : primes.
Lemma prime_120233 : Z.prime 120233. Proof. pock 2 [113; 19]. Qed.
#[export] Hint Resolve prime_120233 : primes.
Lemma prime_1206781 : Z.prime 1206781. Proof. pock 2 [20113]. Qed.
#[export] Hint Resolve prime_1206781 : primes.
Lemma prime_1627771 : Z.prime 1627771. Proof. pock 2 [1871]. Qed.
#[export] Hint Resolve prime_1627771 : primes.
Lemma prime_7240687 : Z.prime 7240687. Proof. pock 2 [1206781]. Qed.
#[export] Hint Resolve prime_7240687 : primes.
Lemma prime_44706919 : Z.prime 44706919. Proof. pock 2 [9349]. Qed.
#[export] Hint Resolve prime_44706919 : primes.
Lemma prime_107590001 : Z.prime 107590001. Proof. pock 2 [53; 29; 7]. Qed.
#[export] Hint Resolve prime_107590001 : primes.
Lemma prime_545358713 : Z.prime 545358713. Proof. pock 2 [28181]. Qed.
#[export] Hint Resolve prime_545358713 : primes.
Lemma prime_297159362677 : Z.prime 297159362677. Proof. pock 2 [1627771]. Qed.
#[export] Hint Resolve prime_297159362677 : primes.

Lemma prime_q67 : Z.prime 174723607534414371449.
Proof. pock 2 [44706919; 120233]. Qed.

Lemma prime_q95 : Z.prime 29047611873442575647497758179.
Proof. pock 2 [297159362677; 545358713]. Qed.
#[export] Hint Resolve prime_q67 prime_q95 : primes.

Lemma prime_q108 : Z.prime 341948486974166000522343609283189.
Proof. pock 2 [29047611873442575647497758179]. Qed.

Lemma prime_q128 : Z.prime 255515944373312847190720520512484175977.
Proof. pock 2 [107590001; 7240687; 96557]. Qed.
#[export] Hint Resolve prime_q108 prime_q128 : primes.

Lemma prime_q237 :
  Z.prime 205115282021455665897114700593932402728804164701536103180137503955397371.
Proof. pock 2 [255515944373312847190720520512484175977]. Qed.
#[export] Hint Resolve prime_q237 : primes.

(** The field characteristic. *)
Lemma prime_field :
  Z.prime 0xFFFFFFFFFFFFFFFFFFFFFFFFFFFFFFFFFFFFFFFFFFFFFFFFFFFFFFFEFFFFFC2F.
Proof.
  pock 2 [205115282021455665897114700593932402728804164701536103180137503955397371].
Qed.

(** The order of the group. *)
Lemma prime_order :
  Z.prime 0xFFFFFFFFFFFFFFFFFFFFFFFFFFFFFFFEBAAEDCE6AF48A03BBFD25E8CD0364141.
Proof. pock 2 [341948486974166000522343609283189; 174723607534414371449]. Qed.

Lemma powmod_ne N a e : 0 <= N -> 0 <= a ->
  BigN.eqb (powmod (BigN.of_N (Z.to_N N)) (BigN.of_N (Z.to_N a)) e) BigN.one = false ->
  a ^ Zpos e mod N <> 1.
Proof.
  intros HN Ha E H. rewrite BigN.spec_eqb, powmod_correct in E.
  rewrite !BigN.spec_of_N, !Z2N.id in E by assumption. rewrite H in E. discriminate E.
Qed.

(** -7 is not a cube modulo the field characteristic: its power of exponent
    (p - 1) / 3 is not 1. *)
Lemma minus7_not_cube :
  0xfffffffffffffffffffffffffffffffffffffffffffffffffffffffefffffc28
    ^ 0x55555555555555555555555555555555555555555555555555555554fffffeba
      mod 0xFFFFFFFFFFFFFFFFFFFFFFFFFFFFFFFFFFFFFFFFFFFFFFFFFFFFFFFEFFFFFC2F <> 1.
Proof. apply powmod_ne; [discriminate..|vm_compute; reflexivity]. Qed.
