(* ===== verification/FieldSpec.v ===== *)
(** * What the field implementations promise

    The library has two representations of integers modulo [p]
    (field_5x52_impl.h and field_10x26_impl.h), selected at build time; the
    code above them (field_impl.h, group_impl.h) uses the functions declared
    in field.h only.  [FieldImpl] is that interface: the operations, the value
    [fval] a representation denotes, the magnitude discipline [fmag] the
    comments of field.h describe, and the laws the callers rely on. *)
From S2P Require Import Prelude.

(** The field characteristic 2^256 - 2^32 - 977 (SEC2 2.7.1). *)
Definition p : Z :=
  0xFFFFFFFFFFFFFFFFFFFFFFFFFFFFFFFFFFFFFFFFFFFFFFFFFFFFFFFEFFFFFC2F.

Class FieldImpl := {
  fe : Type;
  fe_storage : Type;
  (** abstraction *)
  fval : fe -> Z;
  fmag : fe -> Z -> Prop;
  fnorm : fe -> Prop;
  (** operations of field.h *)
  fe_const : Z -> Z -> Z -> Z -> Z -> Z -> Z -> Z -> fe;
  fe_normalize : fe -> fe;
  fe_normalize_weak : fe -> fe;
  fe_normalize_var : fe -> fe;
  fe_normalizes_to_zero : fe -> bool;
  fe_normalizes_to_zero_var : fe -> bool;
  fe_set_int : Z -> fe;
  fe_clear : fe -> fe;
  fe_is_zero : fe -> bool;
  fe_is_odd : fe -> bool;
  fe_cmp_var : fe -> fe -> Z;
  fe_set_b32 : bytes -> fe * bool;
  fe_get_b32 : fe -> bytes;
  fe_negate : fe -> Z -> fe;
  fe_mul_int : fe -> Z -> fe;
  fe_add : fe -> fe -> fe;
  fe_mul : fe -> fe -> fe;
  fe_sqr : fe -> fe;
  fe_cmov : fe -> fe -> bool -> fe;
  fe_storage_cmov : fe_storage -> fe_storage -> bool -> fe_storage;
  fe_to_storage : fe -> fe_storage;
  fe_from_storage : fe_storage -> fe;
  (** magnitudes and normal forms *)
  fmag_le : forall a m m', fmag a m -> m <= m' -> fmag a m';
  fmag_nonneg : forall a m, fmag a m -> 0 <= m;
  fnorm_mag : forall a, fnorm a -> fmag a 1;
  fnorm_range : forall a, fnorm a -> 0 <= fval a < p;
  fnorm_inj : forall a b, fnorm a -> fnorm b -> fval a = fval b -> a = b;
  (** normalisation: at magnitude 32, which negation and the additions may reach,
      the first carry of the 10x26 code can wrap *)
  fe_normalize_ok : forall a, fmag a 31 ->
    fnorm (fe_normalize a) /\ fval (fe_normalize a) = fval a mod p;
  fe_normalize_weak_ok : forall a, fmag a 31 ->
    fmag (fe_normalize_weak a) 1 /\ fval (fe_normalize_weak a) =[p]= fval a;
  fe_normalize_var_ok : forall a, fmag a 31 -> fe_normalize_var a = fe_normalize a;
  fe_normalizes_to_zero_ok : forall a, fmag a 31 ->
    fe_normalizes_to_zero a = (fval a mod p =? 0);
  fe_normalizes_to_zero_var_ok : forall a, fmag a 31 ->
    fe_normalizes_to_zero_var a = (fval a mod p =? 0);
  (** reading a normalised element *)
  fe_is_zero_ok : forall a, fnorm a -> fe_is_zero a = (fval a =? 0);
  fe_is_odd_ok : forall a, fnorm a -> fe_is_odd a = Z.odd (fval a);
  fe_cmp_var_ok : forall a b, fnorm a -> fnorm b ->
    fe_cmp_var a b = match fval a ?= fval b with Lt => -1 | Eq => 0 | Gt => 1 end;
  fe_get_b32_ok : forall a, fnorm a -> fe_get_b32 a = be_bytes 32 (fval a);
  (** building elements *)
  fe_set_int_ok : forall n, 0 <= n <= 0x3FFFFFF ->
    fnorm (fe_set_int n) /\ fval (fe_set_int n) = n;
  fe_clear_ok : forall a, fnorm (fe_clear a) /\ fval (fe_clear a) = 0;
  fe_set_b32_ok : forall l, Forall is_byte l -> length l = 32%nat ->
    snd (fe_set_b32 l) = (be_val l <? p) /\
    fval (fst (fe_set_b32 l)) = be_val l /\ fmag (fst (fe_set_b32 l)) 1 /\
    (be_val l < p -> fnorm (fst (fe_set_b32 l)));
  fe_const_ok : forall d7 d6 d5 d4 d3 d2 d1 d0,
    Forall (fun d => 0 <= d < 2 ^ 32) [d7; d6; d5; d4; d3; d2; d1; d0] ->
    words_val d7 d6 d5 d4 d3 d2 d1 d0 < p ->
    fnorm (fe_const d7 d6 d5 d4 d3 d2 d1 d0) /\
    fval (fe_const d7 d6 d5 d4 d3 d2 d1 d0) = words_val d7 d6 d5 d4 d3 d2 d1 d0;
  (** arithmetic *)
  fe_negate_ok : forall a m, fmag a m -> m <= 31 ->
    fmag (fe_negate a m) (m + 1) /\ fval (fe_negate a m) =[p]= - fval a;
  fe_mul_int_ok : forall a m k, fmag a m -> 0 <= k -> m * k <= 32 ->
    fmag (fe_mul_int a k) (m * k) /\ fval (fe_mul_int a k) = fval a * k;
  fe_add_ok : forall a b m m', fmag a m -> fmag b m' -> m + m' <= 32 ->
    fmag (fe_add a b) (m + m') /\ fval (fe_add a b) = fval a + fval b;
  fe_mul_ok : forall a b, fmag a 8 -> fmag b 8 ->
    fmag (fe_mul a b) 1 /\ fval (fe_mul a b) =[p]= fval a * fval b;
  fe_sqr_ok : forall a, fmag a 8 ->
    fmag (fe_sqr a) 1 /\ fval (fe_sqr a) =[p]= fval a * fval a;
  (** moves and storage *)
  fe_cmov_ok : forall a b m flag, fmag a m -> fmag b m -> m <= 32 ->
    fe_cmov a b flag = if flag then b else a;
  fe_storage_cmov_ok : forall a b flag, fnorm a -> fnorm b ->
    fe_storage_cmov (fe_to_storage a) (fe_to_storage b) flag
      = fe_to_storage (if flag then b else a);
  fe_from_to_storage : forall a, fnorm a -> fe_from_storage (fe_to_storage a) = a;
}.
