(* ===== verification/Field5x52.v ===== *)
(** * Field elements in five 52-bit limbs

    The representation of field_5x52.h with the operations of
    field_5x52_impl.h and the 128-bit products of field_5x52_int128_impl.h.
    [fe] is the struct [secp256k1_fe]; a function that updates its argument in
    place returns the new struct.  [secp256k1_fe_mul_inner] reads [a] into
    locals and never writes an element before its last read of the same index,
    so that [r == a], which the callers use, needs no separate treatment. *)
From S2P Require Import Prelude FieldSpec.

(** ** The representation *)

Record fe := Fe { n0 : Z; n1 : Z; n2 : Z; n3 : Z; n4 : Z }.

Record fe_storage := FeStorage { st0 : Z; st1 : Z; st2 : Z; st3 : Z }.

(** Array access [a->n[i]] and update [r->n[i] = v]. *)
Definition limb (a : fe) (i : Z) : Z :=
  at_ [n0 a; n1 a; n2 a; n3 a; n4 a] i.

Definition set_limb (a : fe) (i v : Z) : fe :=
  let f k x := if i =? k then v else x in
  Fe (f 0 (n0 a)) (f 1 (n1 a)) (f 2 (n2 a)) (f 3 (n3 a)) (f 4 (n4 a)).

(** SECP256K1_FE_CONST: eight 32-bit words spread over the limbs. *)
Definition SECP256K1_FE_CONST (d7 d6 d5 d4 d3 d2 d1 d0 : Z) : fe :=
  Fe (d0 .| ((d1 .& 0xFFFFF) << 32))
     (((d1 >> 20) .| (d2 << 12)) .| ((d3 .& 0xFF) << 44))
     ((d3 >> 8) .| ((d4 .& 0xFFFFFFF) << 24))
     (((d4 >> 28) .| (d5 << 4)) .| ((d6 .& 0xFFFF) << 36))
     ((d6 >> 16) .| (d7 << 16)).

(** The conditions [secp256k1_fe_verify] checks: the magnitude bound and the
    extra condition of a normalised element. *)
Definition secp256k1_fe_verify (normalized : bool) (magnitude : Z) (a : fe) : bool :=
  let m := if normalized then 1 else 2 * magnitude in
  let r := (n0 a <=? u64 (0xFFFFFFFFFFFFF * m))
           && (n1 a <=? u64 (0xFFFFFFFFFFFFF * m))
           && (n2 a <=? u64 (0xFFFFFFFFFFFFF * m))
           && (n3 a <=? u64 (0xFFFFFFFFFFFFF * m))
           && (n4 a <=? u64 (0x0FFFFFFFFFFFF * m))
           && (0 <=? magnitude) && (magnitude <=? 2048) in
  if normalized then
    let r := r && (magnitude <=? 1) in
    if r && (n4 a =? 0x0FFFFFFFFFFFF)
         && (((n3 a .& n2 a) .& n1 a) =? 0xFFFFFFFFFFFFF)
    then r && (n0 a <? 0xFFFFEFFFFFC2F)
    else r
  else r.

(** ** Multiplication *)

Definition secp256k1_fe_mul_inner (a b : fe) : fe :=
  let a0 := n0 a in let a1 := n1 a in let a2 := n2 a in
  let a3 := n3 a in let a4 := n4 a in
  let M := 0xFFFFFFFFFFFFF in let R := 0x1000003D10 in
  let d := u128 (u128 (u128 (u128 (a0 * n3 b) + u128 (a1 * n2 b))
                       + u128 (a2 * n1 b)) + u128 (a3 * n0 b)) in
  let c := u128 (a4 * n4 b) in
  let d := u128 (d + u128 ((c .& M) * R)) in let c := c >> 52 in
  let t3 := u64 (d .& M) in let d := d >> 52 in
  let d := u128 (d + u128 (u128 (u128 (u128 (u128 (a0 * n4 b) + u128 (a1 * n3 b))
                       + u128 (a2 * n2 b)) + u128 (a3 * n1 b)) + u128 (a4 * n0 b))) in
  let d := u128 (d + u128 (c * R)) in
  let t4 := u64 (d .& M) in let d := d >> 52 in
  let tx := t4 >> 48 in let t4 := t4 .& (M >> 4) in
  let c := u128 (a0 * n0 b) in
  let d := u128 (d + u128 (u128 (u128 (u128 (a1 * n4 b) + u128 (a2 * n3 b))
                       + u128 (a3 * n2 b)) + u128 (a4 * n1 b))) in
  let u0 := u64 (d .& M) in let d := d >> 52 in
  let u0 := u64 (u0 << 4) .| tx in
  let c := u128 (c + u128 (u0 * (R >> 4))) in
  let r0 := u64 (c .& M) in let c := c >> 52 in
  let c := u128 (c + u128 (u128 (a0 * n1 b) + u128 (a1 * n0 b))) in
  let d := u128 (d + u128 (u128 (u128 (a2 * n4 b) + u128 (a3 * n3 b)) + u128 (a4 * n2 b))) in
  let c := u128 (c + u128 ((d .& M) * R)) in let d := d >> 52 in
  let r1 := u64 (c .& M) in let c := c >> 52 in
  let c := u128 (c + u128 (u128 (u128 (a0 * n2 b) + u128 (a1 * n1 b)) + u128 (a2 * n0 b))) in
  let d := u128 (d + u128 (u128 (a3 * n4 b) + u128 (a4 * n3 b))) in
  let c := u128 (c + u128 ((d .& M) * R)) in let d := d >> 52 in
  let r2 := u64 (c .& M) in let c := c >> 52 in
  let c := u128 (c + u128 (u128 (d * R) + t3)) in
  let r3 := u64 (c .& M) in let c := c >> 52 in
  let c := u128 (c + t4) in
  let r4 := u64 c in
  Fe r0 r1 r2 r3 r4.

(** [t3], [t4], [tx] and [u0] are [int64_t] here, [a4] and [a0] are doubled in
    place on the way. *)
Definition secp256k1_fe_sqr_inner (a : fe) : fe :=
  let a0 := n0 a in let a1 := n1 a in let a2 := n2 a in
  let a3 := n3 a in let a4 := n4 a in
  let M := 0xFFFFFFFFFFFFF in let R := 0x1000003D10 in
  let d := u128 (u128 (u64 (a0 * 2) * a3) + u128 (u64 (a1 * 2) * a2)) in
  let c := u128 (a4 * a4) in
  let d := u128 (d + u128 ((c .& M) * R)) in let c := c >> 52 in
  let t3 := s64 (d .& M) in let d := d >> 52 in
  let a4 := u64 (a4 * 2) in
  let d := u128 (d + u128 (u128 (u128 (a0 * a4) + u128 (u64 (a1 * 2) * a3))
                           + u128 (a2 * a2))) in
  let d := u128 (d + u128 (c * R)) in
  let t4 := s64 (d .& M) in let d := d >> 52 in
  let tx := t4 >> 48 in let t4 := s64 (u64 t4 .& (M >> 4)) in
  let c := u128 (a0 * a0) in
  let d := u128 (d + u128 (u128 (a1 * a4) + u128 (u64 (a2 * 2) * a3))) in
  let u0 := s64 (d .& M) in let d := d >> 52 in
  let u0 := s64 (u0 << 4) .| tx in
  let c := u128 (c + u128 (u128 u0 * (R >> 4))) in
  let r0 := u64 (c .& M) in let c := c >> 52 in
  let a0 := u64 (a0 * 2) in
  let c := u128 (c + u128 (a0 * a1)) in
  let d := u128 (d + u128 (u128 (a2 * a4) + u128 (a3 * a3))) in
  let c := u128 (c + u128 ((d .& M) * R)) in let d := d >> 52 in
  let r1 := u64 (c .& M) in let c := c >> 52 in
  let c := u128 (c + u128 (u128 (a0 * a2) + u128 (a1 * a1))) in
  let d := u128 (d + u128 (a3 * a4)) in
  let c := u128 (c + u128 ((d .& M) * R)) in let d := d >> 52 in
  let r2 := u64 (c .& M) in let c := c >> 52 in
  let c := u128 (c + u128 (u128 (d * R) + u128 t3)) in
  let r3 := u64 (c .& M) in let c := c >> 52 in
  let c := u128 (c + u128 t4) in
  let r4 := u64 c in
  Fe r0 r1 r2 r3 r4.

(** ** Normalisation *)

Definition secp256k1_fe_normalize (r : fe) : fe :=
  let t0 := n0 r in let t1 := n1 r in let t2 := n2 r in
  let t3 := n3 r in let t4 := n4 r in
  let x := t4 >> 48 in let t4 := t4 .& 0x0FFFFFFFFFFFF in
  let t0 := u64 (t0 + u64 (x * 0x1000003D1)) in
  let t1 := u64 (t1 + (t0 >> 52)) in let t0 := t0 .& 0xFFFFFFFFFFFFF in
  let t2 := u64 (t2 + (t1 >> 52)) in let t1 := t1 .& 0xFFFFFFFFFFFFF in let m := t1 in
  let t3 := u64 (t3 + (t2 >> 52)) in let t2 := t2 .& 0xFFFFFFFFFFFFF in let m := m .& t2 in
  let t4 := u64 (t4 + (t3 >> 52)) in let t3 := t3 .& 0xFFFFFFFFFFFFF in let m := m .& t3 in
  let x := (t4 >> 48) .| b2z ((t4 =? 0x0FFFFFFFFFFFF) && (m =? 0xFFFFFFFFFFFFF)
                              && (0xFFFFEFFFFFC2F <=? t0)) in
  let t0 := u64 (t0 + u64 (x * 0x1000003D1)) in
  let t1 := u64 (t1 + (t0 >> 52)) in let t0 := t0 .& 0xFFFFFFFFFFFFF in
  let t2 := u64 (t2 + (t1 >> 52)) in let t1 := t1 .& 0xFFFFFFFFFFFFF in
  let t3 := u64 (t3 + (t2 >> 52)) in let t2 := t2 .& 0xFFFFFFFFFFFFF in
  let t4 := u64 (t4 + (t3 >> 52)) in let t3 := t3 .& 0xFFFFFFFFFFFFF in
  let t4 := t4 .& 0x0FFFFFFFFFFFF in
  Fe t0 t1 t2 t3 t4.

Definition secp256k1_fe_normalize_weak (r : fe) : fe :=
  let t0 := n0 r in let t1 := n1 r in let t2 := n2 r in
  let t3 := n3 r in let t4 := n4 r in
  let x := t4 >> 48 in let t4 := t4 .& 0x0FFFFFFFFFFFF in
  let t0 := u64 (t0 + u64 (x * 0x1000003D1)) in
  let t1 := u64 (t1 + (t0 >> 52)) in let t0 := t0 .& 0xFFFFFFFFFFFFF in
  let t2 := u64 (t2 + (t1 >> 52)) in let t1 := t1 .& 0xFFFFFFFFFFFFF in
  let t3 := u64 (t3 + (t2 >> 52)) in let t2 := t2 .& 0xFFFFFFFFFFFFF in
  let t4 := u64 (t4 + (t3 >> 52)) in let t3 := t3 .& 0xFFFFFFFFFFFFF in
  Fe t0 t1 t2 t3 t4.

Definition secp256k1_fe_normalize_var (r : fe) : fe :=
  let t0 := n0 r in let t1 := n1 r in let t2 := n2 r in
  let t3 := n3 r in let t4 := n4 r in
  let x := t4 >> 48 in let t4 := t4 .& 0x0FFFFFFFFFFFF in
  let t0 := u64 (t0 + u64 (x * 0x1000003D1)) in
  let t1 := u64 (t1 + (t0 >> 52)) in let t0 := t0 .& 0xFFFFFFFFFFFFF in
  let t2 := u64 (t2 + (t1 >> 52)) in let t1 := t1 .& 0xFFFFFFFFFFFFF in let m := t1 in
  let t3 := u64 (t3 + (t2 >> 52)) in let t2 := t2 .& 0xFFFFFFFFFFFFF in let m := m .& t2 in
  let t4 := u64 (t4 + (t3 >> 52)) in let t3 := t3 .& 0xFFFFFFFFFFFFF in let m := m .& t3 in
  let x := (t4 >> 48) .| b2z ((t4 =? 0x0FFFFFFFFFFFF) && (m =? 0xFFFFFFFFFFFFF)
                              && (0xFFFFEFFFFFC2F <=? t0)) in
  if negb (x =? 0) then
    let t0 := u64 (t0 + 0x1000003D1) in
    let t1 := u64 (t1 + (t0 >> 52)) in let t0 := t0 .& 0xFFFFFFFFFFFFF in
    let t2 := u64 (t2 + (t1 >> 52)) in let t1 := t1 .& 0xFFFFFFFFFFFFF in
    let t3 := u64 (t3 + (t2 >> 52)) in let t2 := t2 .& 0xFFFFFFFFFFFFF in
    let t4 := u64 (t4 + (t3 >> 52)) in let t3 := t3 .& 0xFFFFFFFFFFFFF in
    let t4 := t4 .& 0x0FFFFFFFFFFFF in
    Fe t0 t1 t2 t3 t4
  else Fe t0 t1 t2 t3 t4.

Definition secp256k1_fe_normalizes_to_zero (r : fe) : bool :=
  let t0 := n0 r in let t1 := n1 r in let t2 := n2 r in
  let t3 := n3 r in let t4 := n4 r in
  let x := t4 >> 48 in let t4 := t4 .& 0x0FFFFFFFFFFFF in
  let t0 := u64 (t0 + u64 (x * 0x1000003D1)) in
  let t1 := u64 (t1 + (t0 >> 52)) in let t0 := t0 .& 0xFFFFFFFFFFFFF in
  let z0 := t0 in let z1 := t0 .^ 0x1000003D0 in
  let t2 := u64 (t2 + (t1 >> 52)) in let t1 := t1 .& 0xFFFFFFFFFFFFF in
  let z0 := z0 .| t1 in let z1 := z1 .& t1 in
  let t3 := u64 (t3 + (t2 >> 52)) in let t2 := t2 .& 0xFFFFFFFFFFFFF in
  let z0 := z0 .| t2 in let z1 := z1 .& t2 in
  let t4 := u64 (t4 + (t3 >> 52)) in let t3 := t3 .& 0xFFFFFFFFFFFFF in
  let z0 := z0 .| t3 in let z1 := z1 .& t3 in
  let z0 := z0 .| t4 in let z1 := z1 .& (t4 .^ 0xF000000000000) in
  (z0 =? 0) || (z1 =? 0xFFFFFFFFFFFFF).

Definition secp256k1_fe_normalizes_to_zero_var (r : fe) : bool :=
  let t0 := n0 r in
  let t4 := n4 r in
  let x := t4 >> 48 in
  let t0 := u64 (t0 + u64 (x * 0x1000003D1)) in
  let z0 := t0 .& 0xFFFFFFFFFFFFF in
  let z1 := z0 .^ 0x1000003D0 in
  if negb (z0 =? 0) && negb (z1 =? 0xFFFFFFFFFFFFF) then false else
  let t1 := n1 r in
  let t2 := n2 r in
  let t3 := n3 r in
  let t4 := t4 .& 0x0FFFFFFFFFFFF in
  let t1 := u64 (t1 + (t0 >> 52)) in
  let t2 := u64 (t2 + (t1 >> 52)) in let t1 := t1 .& 0xFFFFFFFFFFFFF in
  let z0 := z0 .| t1 in let z1 := z1 .& t1 in
  let t3 := u64 (t3 + (t2 >> 52)) in let t2 := t2 .& 0xFFFFFFFFFFFFF in
  let z0 := z0 .| t2 in let z1 := z1 .& t2 in
  let t4 := u64 (t4 + (t3 >> 52)) in let t3 := t3 .& 0xFFFFFFFFFFFFF in
  let z0 := z0 .| t3 in let z1 := z1 .& t3 in
  let z0 := z0 .| t4 in let z1 := z1 .& (t4 .^ 0xF000000000000) in
  (z0 =? 0) || (z1 =? 0xFFFFFFFFFFFFF).

(** ** Elements from and to integers, bytes and storage *)

Definition secp256k1_fe_set_int (a : Z) : fe := Fe (u64 a) 0 0 0 0.

Definition secp256k1_fe_is_zero (a : fe) : bool :=
  ((((n0 a .| n1 a) .| n2 a) .| n3 a) .| n4 a) =? 0.

Definition secp256k1_fe_is_odd (a : fe) : bool := negb ((n0 a .& 1) =? 0).

Definition secp256k1_fe_clear (a : fe) : fe :=
  for_loop 5 (fun i a => set_limb a i 0) a.

(** [for (i = 4; i >= 0; i--)] with the two early returns. *)
Definition secp256k1_fe_cmp_var (a b : fe) : Z :=
  fold_right (fun i rest =>
    if limb b i <? limb a i then 1
    else if limb a i <? limb b i then -1
    else rest) 0 [4; 3; 2; 1; 0].

Definition secp256k1_fe_set_b32 (a : bytes) : fe * bool :=
  let r := for_loop 32 (fun i r =>
      for_loop 2 (fun j r =>
        let l := (8 * i + 4 * j) / 52 in
        let shift := (8 * i + 4 * j) mod 52 in
        set_limb r l (limb r l .|
          u64 (((at_ a (31 - i) >> (4 * j)) .& 0xF) << shift))) r)
    (Fe 0 0 0 0 0) in
  if (n4 r =? 0x0FFFFFFFFFFFF) && (((n3 r .& n2 r) .& n1 r) =? 0xFFFFFFFFFFFFF)
     && (0xFFFFEFFFFFC2F <=? n0 r)
  then (r, false)
  else (r, true).

(** The byte [c] computed for [r[31-i]]. *)
Definition fe_byte (a : fe) (i : Z) : Z :=
  for_loop 2 (fun j c =>
    let l := (8 * i + 4 * j) / 52 in
    let shift := (8 * i + 4 * j) mod 52 in
    c .| (((limb a l >> shift) .& 0xF) << (4 * j))) 0.

Definition secp256k1_fe_get_b32 (a : fe) : bytes :=
  map (fun k => u8 (fe_byte a (31 - Z.of_nat k))) (seq 0 32).

Definition secp256k1_fe_negate (a : fe) (m : Z) : fe :=
  Fe (u64 (u64 (0xFFFFEFFFFFC2F * 2 * (m + 1)) - n0 a))
     (u64 (u64 (0xFFFFFFFFFFFFF * 2 * (m + 1)) - n1 a))
     (u64 (u64 (0xFFFFFFFFFFFFF * 2 * (m + 1)) - n2 a))
     (u64 (u64 (0xFFFFFFFFFFFFF * 2 * (m + 1)) - n3 a))
     (u64 (u64 (0x0FFFFFFFFFFFF * 2 * (m + 1)) - n4 a)).

Definition secp256k1_fe_mul_int (r : fe) (a : Z) : fe :=
  Fe (u64 (n0 r * a)) (u64 (n1 r * a)) (u64 (n2 r * a)) (u64 (n3 r * a))
     (u64 (n4 r * a)).

Definition secp256k1_fe_add (r a : fe) : fe :=
  Fe (u64 (n0 r + n0 a)) (u64 (n1 r + n1 a)) (u64 (n2 r + n2 a))
     (u64 (n3 r + n3 a)) (u64 (n4 r + n4 a)).

Definition secp256k1_fe_mul (a b : fe) : fe := secp256k1_fe_mul_inner a b.

Definition secp256k1_fe_sqr (a : fe) : fe := secp256k1_fe_sqr_inner a.

Definition secp256k1_fe_cmov (r a : fe) (flag : bool) : fe :=
  let mask0 := u64 (b2z flag + not64 0) in
  let mask1 := not64 mask0 in
  let f x y := (x .& mask0) .| (y .& mask1) in
  Fe (f (n0 r) (n0 a)) (f (n1 r) (n1 a)) (f (n2 r) (n2 a)) (f (n3 r) (n3 a))
     (f (n4 r) (n4 a)).

Definition secp256k1_fe_storage_cmov (r a : fe_storage) (flag : bool) : fe_storage :=
  let mask0 := u64 (b2z flag + not64 0) in
  let mask1 := not64 mask0 in
  let f x y := (x .& mask0) .| (y .& mask1) in
  FeStorage (f (st0 r) (st0 a)) (f (st1 r) (st1 a)) (f (st2 r) (st2 a))
    (f (st3 r) (st3 a)).

Definition secp256k1_fe_to_storage (a : fe) : fe_storage :=
  FeStorage (n0 a .| u64 (n1 a << 52))
            ((n1 a >> 12) .| u64 (n2 a << 40))
            ((n2 a >> 24) .| u64 (n3 a << 28))
            ((n3 a >> 36) .| u64 (n4 a << 16)).

Definition secp256k1_fe_from_storage (a : fe_storage) : fe :=
  Fe (st0 a .& 0xFFFFFFFFFFFFF)
     ((st0 a >> 52) .| (u64 (st1 a << 12) .& 0xFFFFFFFFFFFFF))
     ((st1 a >> 40) .| (u64 (st2 a << 24) .& 0xFFFFFFFFFFFFF))
     ((st2 a >> 28) .| (u64 (st3 a << 36) .& 0xFFFFFFFFFFFFF))
     (st3 a >> 16).

(** ** Value, magnitude and normal form *)

Definition fe_val (a : fe) : Z :=
  n0 a + n1 a * 2 ^ 52 + n2 a * 2 ^ 104 + n3 a * 2 ^ 156 + n4 a * 2 ^ 208.

(** Magnitude [m]: every limb is at most [2 m] times the largest limb of a
    normalised element. *)
Record fe_mag (a : fe) (m : Z) : Prop := {
  mag_nonneg : 0 <= m;
  mag0 : 0 <= n0 a <= 0xFFFFFFFFFFFFF * (2 * m);
  mag1 : 0 <= n1 a <= 0xFFFFFFFFFFFFF * (2 * m);
  mag2 : 0 <= n2 a <= 0xFFFFFFFFFFFFF * (2 * m);
  mag3 : 0 <= n3 a <= 0xFFFFFFFFFFFFF * (2 * m);
  mag4 : 0 <= n4 a <= 0x0FFFFFFFFFFFF * (2 * m)
}.

Record fe_norm (a : fe) : Prop := {
  norm0 : Bounded (n0 a) 0xFFFFFFFFFFFFF;
  norm1 : Bounded (n1 a) 0xFFFFFFFFFFFFF;
  norm2 : Bounded (n2 a) 0xFFFFFFFFFFFFF;
  norm3 : Bounded (n3 a) 0xFFFFFFFFFFFFF;
  norm4 : Bounded (n4 a) 0x0FFFFFFFFFFFF;
  norm_val : fe_val a < p
}.

Lemma fe_mag_le a m m' : fe_mag a m -> m <= m' -> fe_mag a m'.
Proof. intros [] ?. split; lia. Qed.

Lemma fe_norm_mag a : fe_norm a -> fe_mag a 1.
Proof. intros []. unfold Bounded in *. split; lia. Qed.

(** The intervals of the limbs at a concrete magnitude. *)
Lemma fe_mag_bounds a m m' : fe_mag a m -> m <= m' ->
  Bounded (n0 a) (0xFFFFFFFFFFFFF * (2 * m')) /\
  Bounded (n1 a) (0xFFFFFFFFFFFFF * (2 * m')) /\
  Bounded (n2 a) (0xFFFFFFFFFFFFF * (2 * m')) /\
  Bounded (n3 a) (0xFFFFFFFFFFFFF * (2 * m')) /\
  Bounded (n4 a) (0x0FFFFFFFFFFFF * (2 * m')).
Proof. intros [] ?. unfold Bounded. lia. Qed.

Ltac mag_bounds H m :=
  let H' := fresh in
  pose proof (fe_mag_bounds _ _ m H ltac:(lia)) as H';
  destruct H' as (? & ? & ? & ? & ?); eval_bounds.

(** ** Multiplication is multiplication modulo [p] *)

Theorem fe_mul_inner_correct a b : fe_mag a 8 -> fe_mag b 8 ->
  let r := secp256k1_fe_mul_inner a b in
  fe_mag r 1 /\ fe_val r =[p]= fe_val a * fe_val b.
Proof.
  intros Ha Hb. mag_bounds Ha 8. mag_bounds Hb 8.
  run secp256k1_fe_mul_inner. split.
  { split; cbn [n0 n1 n2 n3 n4]; by_bound || lia. }
  apply (cong_by (- (16 * ((c - 4503599627370496 * q) * 2 ^ 156 + q * 2 ^ 208
    + (d4 - 4503599627370496 * q5) * 2 ^ 52
    + (d5 - 4503599627370496 * q7) * 2 ^ 104 + q7 * 2 ^ 156) + u1))).
  unfold fe_val, p. cbn [n0 n1 n2 n3 n4]. subst. ring.
Qed.

Theorem fe_sqr_inner_correct a : fe_mag a 8 ->
  let r := secp256k1_fe_sqr_inner a in
  fe_mag r 1 /\ fe_val r =[p]= fe_val a * fe_val a.
Proof.
  intros Ha. mag_bounds Ha 8.
  run secp256k1_fe_sqr_inner. split.
  { split; cbn [n0 n1 n2 n3 n4]; by_bound || lia. }
  apply (cong_by (- (16 * ((c - 4503599627370496 * q) * 2 ^ 156 + q * 2 ^ 208
    + (d4 - 4503599627370496 * q5) * 2 ^ 52
    + (d5 - 4503599627370496 * q7) * 2 ^ 104 + q7 * 2 ^ 156) + u1))).
  unfold fe_val, p. cbn [n0 n1 n2 n3 n4]. subst. ring.
Qed.

(** ** Normalisation *)

(** The second half of [secp256k1_fe_normalize], after the first carry pass. *)
Definition final_reduce (r : fe) : fe :=
  let t0 := n0 r in let t1 := n1 r in let t2 := n2 r in
  let t3 := n3 r in let t4 := n4 r in
  let x := (t4 >> 48) .| b2z ((t4 =? 0x0FFFFFFFFFFFF)
      && (((t1 .& t2) .& t3) =? 0xFFFFFFFFFFFFF) && (0xFFFFEFFFFFC2F <=? t0)) in
  let t0 := u64 (t0 + u64 (x * 0x1000003D1)) in
  let t1 := u64 (t1 + (t0 >> 52)) in let t0 := t0 .& 0xFFFFFFFFFFFFF in
  let t2 := u64 (t2 + (t1 >> 52)) in let t1 := t1 .& 0xFFFFFFFFFFFFF in
  let t3 := u64 (t3 + (t2 >> 52)) in let t2 := t2 .& 0xFFFFFFFFFFFFF in
  let t4 := u64 (t4 + (t3 >> 52)) in let t3 := t3 .& 0xFFFFFFFFFFFFF in
  let t4 := t4 .& 0x0FFFFFFFFFFFF in
  Fe t0 t1 t2 t3 t4.

Lemma normalize_split r :
  secp256k1_fe_normalize r = final_reduce (secp256k1_fe_normalize_weak r).
Proof. reflexivity. Qed.

(** The state between the two passes. *)
Record half_norm (a : fe) : Prop := {
  half0 : Bounded (n0 a) 0xFFFFFFFFFFFFF;
  half1 : Bounded (n1 a) 0xFFFFFFFFFFFFF;
  half2 : Bounded (n2 a) 0xFFFFFFFFFFFFF;
  half3 : Bounded (n3 a) 0xFFFFFFFFFFFFF;
  half4 : Bounded (n4 a) 0x1000000000FFF;
  half_val : fe_val a < 2 ^ 256 + 2 ^ 221
}.

Lemma first_pass a : fe_mag a 2047 ->
  let r := secp256k1_fe_normalize_weak a in
  half_norm r /\ fe_val r =[p]= fe_val a.
Proof.
  intros Ha. mag_bounds Ha 2047.
  run secp256k1_fe_normalize_weak. split.
  - split; cbn [n0 n1 n2 n3 n4]; try by_bound.
    unfold fe_val. cbn [n0 n1 n2 n3 n4]. unfold Bounded in *. lia.
  - apply (cong_by (- q)). unfold fe_val, p. cbn [n0 n1 n2 n3 n4]. subst. ring.
Qed.

(** The flag [x] of the final reduction says whether the value reaches [p]. *)
Lemma reduce_flag r : half_norm r ->
  (n4 r >> 48) .| b2z ((n4 r =? 0x0FFFFFFFFFFFF)
      && (((n1 r .& n2 r) .& n3 r) =? 0xFFFFFFFFFFFFF)
      && (0xFFFFEFFFFFC2F <=? n0 r)) = b2z (p <=? fe_val r).
Proof.
  intros [H0 H1 H2 H3 H4 Hv]. unfold Bounded in *.
  assert (M : (n1 r .& n2 r) .& n3 r = 0xFFFFFFFFFFFFF <->
    n1 r = 0xFFFFFFFFFFFFF /\ n2 r = 0xFFFFFFFFFFFFF /\ n3 r = 0xFFFFFFFFFFFFF).
  { pose proof (land_ub (n1 r) (n2 r)).
    change 0xFFFFFFFFFFFFF with (2 ^ 52 - 1).
    rewrite !land_eq_ones by lia. tauto. }
  rewrite (shr_lit _ 48 0x1000000000000 eq_refl eq_refl). unfold fe_val, p.
  assert (E : n4 r < 0x1000000000000 /\ n4 r / 0x1000000000000 = 0 \/
    0x1000000000000 <= n4 r /\ n4 r / 0x1000000000000 = 1) by dlia.
  destruct (Z.eqb_spec (n4 r) 0x0FFFFFFFFFFFF) as [A|A],
    (Z.eqb_spec ((n1 r .& n2 r) .& n3 r) 0xFFFFFFFFFFFFF) as [B|B]; rewrite M in B;
    clear M; destruct (Z.leb_spec 0xFFFFEFFFFFC2F (n0 r)), E as [[E1 E]|[E1 E]];
    rewrite E; clear E; cbn [b2z andb];
    match goal with |- context [?x <=? ?y] => destruct (Z.leb_spec x y) end;
    try reflexivity; exfalso; lia.
Qed.

Lemma final_reduce_correct a : half_norm a ->
  let r := final_reduce a in fe_norm r /\ fe_val r = fe_val a mod p.
Proof.
  intros Ha. pose proof Ha as [? ? ? ? ? Hv]. pose proof (reduce_flag a Ha) as Hx.
  enter final_reduce. do 5 wlet. subst t0 t1 t2 t3 t4.
  wtake x Ex. rewrite Hx in Ex. clear Hx.
  assert (Bx : Bounded x 1) by (subst x; apply bounded_b2z).
  wlets. cbv beta delta [wp].
  assert (Hxv : x = 1 /\ p <= fe_val a \/ x = 0 /\ fe_val a < p).
  { subst x. destruct (Z.leb_spec p (fe_val a)); cbn; tauto. }
  clear Ex. set (r := Fe t2 t4 t6 t8 t9).
  assert (V : fe_val r = fe_val a + x * 0x1000003D1 - q3 * 2 ^ 256).
  { unfold r, fe_val. cbn [n0 n1 n2 n3 n4]. subst. ring. }
  assert (R : 0 <= fe_val r < 2 ^ 256).
  { unfold r, fe_val. cbn [n0 n1 n2 n3 n4]. unfold Bounded in *. lia. }
  assert (Hq3' : fe_val r < p /\ fe_val r = fe_val a - x * p).
  { clear - Hxv V R Hv Hq3. unfold Bounded, p in *. lia. }
  destruct Hq3' as [Hlt Heq]. split; [now split|].
  apply cong_mod_small; [|lia]. now apply (cong_by (- x)); lia.
Qed.

Theorem fe_normalize_correct a : fe_mag a 2047 ->
  let r := secp256k1_fe_normalize a in fe_norm r /\ fe_val r = fe_val a mod p.
Proof.
  intros Ha. cbv zeta. rewrite normalize_split.
  destruct (first_pass a Ha) as [H1 H2].
  destruct (final_reduce_correct _ H1) as [H3 ->]. split; [exact H3|].
  now apply cong_iff.
Qed.

Theorem fe_normalize_weak_correct a : fe_mag a 2047 ->
  let r := secp256k1_fe_normalize_weak a in fe_mag r 1 /\ fe_val r =[p]= fe_val a.
Proof.
  intros Ha. destruct (first_pass a Ha) as [[] H]. split; [|exact H].
  unfold Bounded in *. split; lia.
Qed.

(** The variable-time normalisation computes the same element. *)

Definition final_reduce_var (r : fe) : fe :=
  let t0 := n0 r in let t1 := n1 r in let t2 := n2 r in
  let t3 := n3 r in let t4 := n4 r in
  let x := (t4 >> 48) .| b2z ((t4 =? 0x0FFFFFFFFFFFF)
      && (((t1 .& t2) .& t3) =? 0xFFFFFFFFFFFFF) && (0xFFFFEFFFFFC2F <=? t0)) in
  if negb (x =? 0) then
    let t0 := u64 (t0 + 0x1000003D1) in
    let t1 := u64 (t1 + (t0 >> 52)) in let t0 := t0 .& 0xFFFFFFFFFFFFF in
    let t2 := u64 (t2 + (t1 >> 52)) in let t1 := t1 .& 0xFFFFFFFFFFFFF in
    let t3 := u64 (t3 + (t2 >> 52)) in let t2 := t2 .& 0xFFFFFFFFFFFFF in
    let t4 := u64 (t4 + (t3 >> 52)) in let t3 := t3 .& 0xFFFFFFFFFFFFF in
    let t4 := t4 .& 0x0FFFFFFFFFFFF in
    Fe t0 t1 t2 t3 t4
  else Fe t0 t1 t2 t3 t4.

(** A word below its mask is its own low part. *)
Ltac simpl_low :=
  repeat match goal with
  | |- context [Z.land ?x ?m] => is_lit m; first
    [ rewrite (land_mask_lit x m 52 0x10000000000000 eq_refl eq_refl eq_refl)
    | rewrite (land_mask_lit x m 48 0x1000000000000 eq_refl eq_refl eq_refl) ]
  | |- context [Z.shiftr ?x 52] => rewrite (shr_lit x 52 0x10000000000000 eq_refl eq_refl)
  end.

Theorem fe_normalize_var_correct a : fe_mag a 2047 ->
  secp256k1_fe_normalize_var a = secp256k1_fe_normalize a.
Proof.
  intros Ha. rewrite normalize_split.
  change (secp256k1_fe_normalize_var a)
    with (final_reduce_var (secp256k1_fe_normalize_weak a)).
  destruct (first_pass a Ha) as [H _]. revert H.
  generalize (secp256k1_fe_normalize_weak a). clear. intros r H.
  unfold final_reduce_var, final_reduce. rewrite (reduce_flag r H).
  destruct (p <=? fe_val r) eqn:E; [reflexivity|].
  destruct H as [H0 H1 H2 H3 H4 _]. cbn [b2z Z.eqb negb].
  assert (n4 r < 2 ^ 48) by (apply Z.leb_gt in E; unfold fe_val, p, Bounded in *; lia).
  change (u64 (0 * 0x1000003D1)) with 0. rewrite Z.add_0_r.
  unfold Bounded in *. simpl_low. unfold u64.
  f_equal; dlia.
Qed.

(** ** Zero tests *)

(** The last lines of [secp256k1_fe_normalizes_to_zero]. *)
Definition zero_or_p (r : fe) : bool :=
  let z0 := (((n0 r .| n1 r) .| n2 r) .| n3 r) .| n4 r in
  let z1 := ((((n0 r .^ 0x1000003D0) .& n1 r) .& n2 r) .& n3 r)
              .& (n4 r .^ 0xF000000000000) in
  (z0 =? 0) || (z1 =? 0xFFFFFFFFFFFFF).

Lemma normalizes_to_zero_split r :
  secp256k1_fe_normalizes_to_zero r = zero_or_p (secp256k1_fe_normalize_weak r).
Proof. reflexivity. Qed.

Lemma zero_or_p_correct r : half_norm r -> zero_or_p r = (fe_val r mod p =? 0).
Proof.
  intros [H0 H1 H2 H3 H4 Hv]. unfold zero_or_p.
  assert (B0 := @bounded_lxor _ _ _ _ H0 (bounded_pos 0x1000003D0)).
  assert (B4 := @bounded_lxor _ _ _ _ H4 (bounded_pos 0xF000000000000)).
  eval_bounds. unfold Bounded in *.
  set (u0 := n0 r .^ 0x1000003D0) in *. set (u4 := n4 r .^ 0xF000000000000) in *.
  pose proof (land_ub u0 (n1 r)). pose proof (land_ub (u0 .& n1 r) (n2 r)).
  pose proof (land_ub ((u0 .& n1 r) .& n2 r) (n3 r)).
  apply eq_true_iff_eq.
  rewrite orb_true_iff, !Z.eqb_eq, !lor_eq_0.
  change 0xFFFFFFFFFFFFF with (2 ^ 52 - 1) at 1.
  rewrite !land_eq_ones by lia. unfold u0, u4. rewrite !lxor_move.
  change ((2 ^ 52 - 1) .^ 0x1000003D0) with 0xFFFFEFFFFFC2F.
  change ((2 ^ 52 - 1) .^ 0xF000000000000) with 0x0FFFFFFFFFFFF.
  assert (E : fe_val r mod p = 0 <-> fe_val r = 0 \/ fe_val r = p).
  { assert (Hn : 0 <= fe_val r) by (unfold fe_val; lia).
    clear - Hn Hv. unfold p in *. dlia. }
  rewrite E. clear - H0 H1 H2 H3 H4. unfold fe_val, p. lia.
Qed.

Theorem fe_normalizes_to_zero_correct a : fe_mag a 2047 ->
  secp256k1_fe_normalizes_to_zero a = (fe_val a mod p =? 0).
Proof.
  intros Ha. rewrite normalizes_to_zero_split.
  destruct (first_pass a Ha) as [H1 H2].
  rewrite zero_or_p_correct by exact H1. now apply cong_iff in H2 as ->.
Qed.

Lemma land4_ub x a b c d : 0 <= x -> (((x .& a) .& b) .& c) .& d <= x.
Proof.
  intros H. pose proof (land_ub x a H). pose proof (land_ub (x .& a) b).
  pose proof (land_ub ((x .& a) .& b) c). pose proof (land_ub (((x .& a) .& b) .& c) d).
  lia.
Qed.

(** The early return is taken only when the full test would fail. *)
Theorem fe_normalizes_to_zero_var_correct a :
  secp256k1_fe_normalizes_to_zero_var a = secp256k1_fe_normalizes_to_zero a.
Proof.
  unfold secp256k1_fe_normalizes_to_zero_var.
  match goal with |- (if ?b then _ else _) = _ => destruct b eqn:E end; [|reflexivity].
  apply andb_true_iff in E as [E0 E1].
  rewrite negb_true_iff, Z.eqb_neq in E0, E1.
  symmetry. apply not_true_iff_false. unfold secp256k1_fe_normalizes_to_zero.
  rewrite orb_true_iff, !Z.eqb_eq, !lor_eq_0. intros [Hz|Hz]; [tauto|].
  apply E1. clear E0 E1.
  match type of Hz with ((((?x .& ?a1) .& ?a2) .& ?a3) .& ?a4) = _ =>
    assert (Hx : 0 <= x <= 0xFFFFFFFFFFFFF)
  end.
  { pose proof (bounded_mod (u64 (n0 a + u64 ((n4 a >> 48) * 0x1000003D1))) 0x10000000000000) as B.
    rewrite <- (land_mask_lit _ 0xFFFFFFFFFFFFF 52 _ eq_refl eq_refl eq_refl) in B.
    pose proof (@bounded_lxor _ _ _ _ B (bounded_pos 0x1000003D0)). eval_bounds.
    assumption. }
  apply Z.le_antisymm; [apply Hx|].
  eapply Z.le_trans; [apply Z.eq_le_incl; symmetry; exact Hz|].
  apply land4_ub, Hx.
Qed.

(** ** Conversion from and to big-endian bytes *)

(** The limbs of an integer. *)
Definition fe_of_Z (v : Z) : fe :=
  Fe (dig 52 v 0) (dig 52 v 1) (dig 52 v 2) (dig 52 v 3) (dig 52 v 4).

Lemma fe_val_of_Z v : 0 <= v < 2 ^ 256 -> fe_val (fe_of_Z v) = v.
Proof.
  intros Hv. unfold fe_val, fe_of_Z. cbn [n0 n1 n2 n3 n4].
  pose proof (dig_step 52 v 0 ltac:(lia) ltac:(lia)) as D0.
  pose proof (dig_step 52 v 1 ltac:(lia) ltac:(lia)) as D1.
  pose proof (dig_step 52 v 2 ltac:(lia) ltac:(lia)) as D2.
  pose proof (dig_step 52 v 3 ltac:(lia) ltac:(lia)) as D3.
  replace (dig 52 v 4) with (v / 2 ^ (52 * 4)).
  2:{ unfold dig. rewrite Z.mod_small; [reflexivity|].
      split; [apply Z.div_pos; lia|apply Z.div_lt_upper_bound; lia]. }
  change (52 * 0) with 0 in D0. rewrite Z.div_1_r in D0.
  cbn [Z.add Pos.add Z.mul Pos.mul Pos.succ] in *. lia.
Qed.

Lemma fe_of_Z_val a : fe_norm a -> fe_of_Z (fe_val a) = a.
Proof.
  intros [H0 H1 H2 H3 H4 _]. unfold Bounded in *. destruct a as [a0 a1 a2 a3 a4].
  cbn [n0 n1 n2 n3 n4] in *. unfold fe_of_Z, fe_val, dig. cbn [n0 n1 n2 n3 n4].
  cbn [Z.add Pos.add Z.mul Pos.mul Pos.succ]. f_equal.
  all: cbn [Z.pow Z.pow_pos Pos.iter Z.mul Pos.mul]; dlia.
Qed.

Lemma limb_of_Z v l : 0 <= l <= 4 -> limb (fe_of_Z v) l = dig 52 v l.
Proof.
  intros H. assert (l = 0 \/ l = 1 \/ l = 2 \/ l = 3 \/ l = 4) as Hl by lia.
  repeat destruct Hl as [Hl|Hl]; subst l; reflexivity.
Qed.

(** One nibble of the loop. *)
Lemma fe_fill V T : 0 <= T -> T mod 52 + 4 <= 52 -> T / 52 <= 4 ->
  set_limb (fe_of_Z (V mod 2 ^ T)) (T / 52)
    (limb (fe_of_Z (V mod 2 ^ T)) (T / 52)
     .| u64 (((V / 2 ^ T) mod 2 ^ 4) << (T mod 52)))
  = fe_of_Z (V mod 2 ^ (T + 4)).
Proof.
  intros HT Hs Hl. pose proof (Z.div_pos T 52 HT ltac:(lia)).
  pose proof (Z.mod_pos_bound T 52 ltac:(lia)).
  pose proof (Z.mod_pos_bound (V / 2 ^ T) (2 ^ 4) ltac:(lia)).
  assert (2 ^ (T mod 52) <= 2 ^ 48) by (apply Z.pow_le_mono_r; lia).
  unfold u64. rewrite (Z.mod_small (_ << _)).
  2:{ rewrite Z.shiftl_mul_pow2 by lia. nia. }
  rewrite limb_of_Z by lia. unfold set_limb.
  cbv beta zeta. unfold fe_of_Z at 1 2 3 4 5. cbn [n0 n1 n2 n3 n4].
  unfold fe_of_Z. rewrite !(dig_fill 52 V T 4) by lia.
  f_equal; match goal with |- (if ?i =? ?k then _ else _) = _ =>
    rewrite (Z.eqb_sym k i); destruct (Z.eqb_spec i k) as [E|E];
    try rewrite E; reflexivity end.
Qed.

Section SetB32.
Variable l : bytes.
Hypothesis Hl : Forall is_byte l.
Hypothesis Hlen : length l = 32%nat.

Lemma be_val_32 : 0 <= be_val l < 2 ^ 256.
Proof. pose proof (be_val_range l Hl) as H. rewrite Hlen in H. exact H. Qed.

Lemma nibble_b32 i j : 0 <= i < 32 -> 0 <= j < 2 ->
  (at_ l (31 - i) >> (4 * j)) .& 0xF = (be_val l / 2 ^ (8 * i + 4 * j)) mod 2 ^ 4.
Proof.
  intros Hi Hj. pose proof (be_val_nth l i Hl) as H. rewrite Hlen in H.
  change (Z.of_nat 32 - 1 - i) with (31 - i) in H. rewrite H by lia.
  replace (256 ^ i) with (2 ^ (8 * i)) by (rewrite Z.pow_mul_r by lia; reflexivity).
  rewrite (land_mask_lit _ 15 4 (2 ^ 4)) by reflexivity.
  change (be_val l / 2 ^ (8 * i)) with (be_val l / 2 ^ (8 * i)).
  apply (dig_sub 8 (be_val l) i (4 * j) 4); lia.
Qed.

Lemma set_b32_limbs :
  for_loop 32 (fun i r =>
    for_loop 2 (fun j r =>
      let l' := (8 * i + 4 * j) / 52 in
      let shift := (8 * i + 4 * j) mod 52 in
      set_limb r l' (limb r l' .|
        u64 (((at_ l (31 - i) >> (4 * j)) .& 0xF) << shift))) r)
  (Fe 0 0 0 0 0) = fe_of_Z (be_val l).
Proof.
  pose proof be_val_32 as HV. rewrite <- (Z.mod_small _ _ HV).
  change 256 with (8 * Z.of_nat 32). pattern (Z.of_nat 32).
  match goal with |- (fun n => for_loop 32 ?b ?s = _) _ =>
    apply (for_loop_inv (fun n r => r = fe_of_Z (be_val l mod 2 ^ (8 * n))) b 32 s) end.
  { rewrite Z.mul_0_r, Z.mod_1_r. reflexivity. }
  intros i r Hi ->.
  replace (8 * (i + 1)) with (8 * i + 4 * Z.of_nat 2) by lia.
  pattern (Z.of_nat 2).
  match goal with |- (fun n => for_loop 2 ?b ?s = _) _ =>
    apply (for_loop_inv (fun n r => r = fe_of_Z (be_val l mod 2 ^ (8 * i + 4 * n))) b 2 s) end.
  { now rewrite Z.mul_0_r, Z.add_0_r. }
  intros j r Hj ->. cbv zeta. rewrite nibble_b32 by lia.
  replace (8 * i + 4 * (j + 1)) with (8 * i + 4 * j + 4) by lia.
  apply fe_fill; dlia.
Qed.
End SetB32.

Lemma overflow_flag r :
  Bounded (n0 r) 0xFFFFFFFFFFFFF -> Bounded (n1 r) 0xFFFFFFFFFFFFF ->
  Bounded (n2 r) 0xFFFFFFFFFFFFF -> Bounded (n3 r) 0xFFFFFFFFFFFFF ->
  Bounded (n4 r) 0x0FFFFFFFFFFFF ->
  (n4 r =? 0x0FFFFFFFFFFFF) && (((n3 r .& n2 r) .& n1 r) =? 0xFFFFFFFFFFFFF)
    && (0xFFFFEFFFFFC2F <=? n0 r) = (p <=? fe_val r).
Proof.
  unfold Bounded. intros H0 H1 H2 H3 H4. pose proof (land_ub (n3 r) (n2 r)).
  apply eq_true_iff_eq. rewrite !andb_true_iff, !Z.eqb_eq, !Z.leb_le.
  change 0xFFFFFFFFFFFFF with (2 ^ 52 - 1) at 1.
  rewrite !land_eq_ones by lia. unfold fe_val, p. lia.
Qed.

Lemma fe_of_Z_bounds v : 0 <= v < 2 ^ 256 ->
  Bounded (n0 (fe_of_Z v)) 0xFFFFFFFFFFFFF /\ Bounded (n1 (fe_of_Z v)) 0xFFFFFFFFFFFFF /\
  Bounded (n2 (fe_of_Z v)) 0xFFFFFFFFFFFFF /\ Bounded (n3 (fe_of_Z v)) 0xFFFFFFFFFFFFF /\
  Bounded (n4 (fe_of_Z v)) 0x0FFFFFFFFFFFF.
Proof.
  intros Hv. unfold fe_of_Z, Bounded. cbn [n0 n1 n2 n3 n4].
  pose proof (dig_range 52 v 0). pose proof (dig_range 52 v 1).
  pose proof (dig_range 52 v 2). pose proof (dig_range 52 v 3).
  pose proof (dig_range 52 v 4). repeat split; try lia.
  unfold dig. rewrite Z.mod_small.
  - enough (v / 2 ^ (52 * 4) < 2 ^ 48) by lia. apply Z.div_lt_upper_bound; lia.
  - split; [apply Z.div_pos; lia|apply Z.div_lt_upper_bound; lia].
Qed.

Lemma fe_norm_of_Z v : 0 <= v < p -> fe_norm (fe_of_Z v).
Proof.
  intros Hv. assert (Hv' : 0 <= v < 2 ^ 256) by (unfold p in *; lia).
  destruct (fe_of_Z_bounds v Hv') as (? & ? & ? & ? & ?).
  split; try assumption. rewrite fe_val_of_Z; lia.
Qed.

Theorem fe_set_b32_correct l : Forall is_byte l -> length l = 32%nat ->
  secp256k1_fe_set_b32 l = (fe_of_Z (be_val l), be_val l <? p).
Proof.
  intros Hl Hlen. cbv beta delta [secp256k1_fe_set_b32].
  rewrite (set_b32_limbs l Hl Hlen). cbv zeta.
  pose proof (be_val_32 l Hl Hlen) as HV.
  destruct (fe_of_Z_bounds _ HV) as (? & ? & ? & ? & ?).
  rewrite overflow_flag by assumption. rewrite fe_val_of_Z by assumption.
  rewrite Z.ltb_antisym. now destruct (p <=? be_val l).
Qed.

Lemma fe_byte_correct a i : fe_norm a -> 0 <= i < 32 ->
  fe_byte a i = (fe_val a / 2 ^ (8 * i)) mod 2 ^ 8.
Proof.
  intros Ha Hi. rewrite <- (fe_of_Z_val a Ha) at 1. generalize (fe_val a). clear a Ha.
  intros v. unfold fe_byte, for_loop. cbn [for_from]. cbv zeta.
  assert (N : forall T, 0 <= T -> T mod 4 = 0 -> T / 52 <= 4 ->
    (limb (fe_of_Z v) (T / 52) >> (T mod 52)) .& 0xF = (v / 2 ^ T) mod 2 ^ 4).
  { intros T HT H4 Hl. pose proof (Z.div_pos T 52 HT ltac:(lia)).
    rewrite limb_of_Z by lia. rewrite (land_mask_lit _ 15 4 (2 ^ 4)) by reflexivity.
    rewrite dig_sub by dlia. do 3 f_equal. dlia. }
  rewrite !N by dlia. rewrite Z.lor_0_l. rewrite Z.mul_0_r, Z.add_0_r.
  rewrite (shl_lit _ _ 1) by reflexivity.
  rewrite (shl_lit _ _ 16) by reflexivity. rewrite Z.mul_1_r, Z.lor_comm.
  change 16 with (2 ^ 4). rewrite lor_disjoint by (try apply Z.mod_pos_bound; lia).
  replace (2 ^ (8 * i + 4 * (0 + 1))) with (2 ^ (8 * i) * 2 ^ 4).
  2:{ rewrite <- Z.pow_add_r by lia. f_equal. }
  rewrite <- Z.div_div by (try apply Z.pow_nonzero; lia).
  change (2 ^ 8) with (2 ^ 4 * 2 ^ 4). generalize (v / 2 ^ (8 * i)). intros w.
  rewrite (Z.rem_mul_r w) by lia. ring.
Qed.

Theorem fe_get_b32_correct a : fe_norm a ->
  secp256k1_fe_get_b32 a = be_bytes 32 (fe_val a).
Proof.
  intros Ha. unfold secp256k1_fe_get_b32. rewrite be_bytes_map.
  apply map_ext_in. intros k Hk. apply in_seq in Hk.
  rewrite fe_byte_correct by (assumption || lia).
  change (2 ^ 8) with 256. unfold u8. rewrite Z.mod_mod by lia.
  replace (256 ^ (Z.of_nat 32 - 1 - Z.of_nat k)) with (2 ^ (8 * (31 - Z.of_nat k))).
  { reflexivity. }
  rewrite Z.pow_mul_r by lia. f_equal.
Qed.

(** ** The remaining operations *)

Theorem fe_set_int_correct n : 0 <= n < 2 ^ 52 ->
  fe_norm (secp256k1_fe_set_int n) /\ fe_val (secp256k1_fe_set_int n) = n.
Proof.
  intros Hn. unfold secp256k1_fe_set_int, u64. rewrite Z.mod_small by lia.
  assert (V : fe_val (Fe n 0 0 0 0) = n) by (unfold fe_val; cbn [n0 n1 n2 n3 n4]; lia).
  split; [|exact V]. split; cbn [n0 n1 n2 n3 n4]; unfold Bounded; try lia.
  rewrite V. unfold p. lia.
Qed.

Theorem fe_is_zero_correct a : fe_norm a ->
  secp256k1_fe_is_zero a = (fe_val a =? 0).
Proof.
  intros [H0 H1 H2 H3 H4 _]. unfold secp256k1_fe_is_zero, Bounded in *.
  apply eq_true_iff_eq. rewrite !Z.eqb_eq, !lor_eq_0. unfold fe_val. lia.
Qed.

Theorem fe_is_odd_correct a : fe_norm a ->
  secp256k1_fe_is_odd a = Z.odd (fe_val a).
Proof.
  intros _. unfold secp256k1_fe_is_odd.
  rewrite (land_mask_lit _ 1 1 2) by reflexivity.
  rewrite Zmod_odd. unfold fe_val.
  replace (n0 a + _ + _ + _ + _) with (n0 a + 2 * (n1 a * 2 ^ 51 + n2 a * 2 ^ 103
    + n3 a * 2 ^ 155 + n4 a * 2 ^ 207)) by lia.
  rewrite Z.odd_add_mul_2. now destruct (Z.odd (n0 a)).
Qed.

Theorem fe_clear_correct a : secp256k1_fe_clear a = Fe 0 0 0 0 0.
Proof. reflexivity. Qed.

Theorem fe_cmp_var_correct a b : fe_norm a -> fe_norm b ->
  secp256k1_fe_cmp_var a b =
    match fe_val a ?= fe_val b with Lt => -1 | Eq => 0 | Gt => 1 end.
Proof.
  intros [A0 A1 A2 A3 A4 _] [B0 B1 B2 B3 B4 _]. unfold Bounded in *.
  unfold secp256k1_fe_cmp_var, limb, at_, fe_val. cbn [fold_right Z.to_nat nth].
  change (Pos.to_nat 1) with 1%nat. change (Pos.to_nat 2) with 2%nat.
  change (Pos.to_nat 3) with 3%nat. change (Pos.to_nat 4) with 4%nat. cbn [nth].
  repeat match goal with |- context [if ?x <? ?y then _ else _] =>
    destruct (Z.ltb_spec x y) end;
  match goal with |- context [?x ?= ?y] => destruct (Z.compare_spec x y) end;
  try reflexivity; exfalso; lia.
Qed.

Theorem fe_negate_correct a m : fe_mag a m -> m <= 2046 ->
  let r := secp256k1_fe_negate a m in
  fe_mag r (m + 1) /\ fe_val r =[p]= - fe_val a.
Proof.
  intros [Hm A0 A1 A2 A3 A4] Hm'. cbv zeta.
  assert (E : forall c x, 0 <= c <= 0xFFFFFFFFFFFFF -> 0 <= x <= c * 2 * (m + 1) ->
    u64 (u64 (c * 2 * (m + 1)) - x) = c * 2 * (m + 1) - x).
  { intros c x Hc Hx. unfold u64. rewrite (Z.mod_small (c * _ * _)) by nia.
    apply Z.mod_small. nia. }
  unfold secp256k1_fe_negate. rewrite !E by lia.
  split; [split; cbn [n0 n1 n2 n3 n4]; lia|].
  apply (cong_by (2 * (m + 1))). unfold fe_val, p. cbn [n0 n1 n2 n3 n4]. ring.
Qed.

Theorem fe_mul_int_correct a m k : fe_mag a m -> 0 <= k -> m * k <= 2047 ->
  let r := secp256k1_fe_mul_int a k in
  fe_mag r (m * k) /\ fe_val r = fe_val a * k.
Proof.
  intros [Hm A0 A1 A2 A3 A4] Hk Hmk. cbv zeta.
  unfold secp256k1_fe_mul_int, u64. rewrite !Z.mod_small by nia.
  split; [split; cbn [n0 n1 n2 n3 n4]; nia|].
  unfold fe_val. cbn [n0 n1 n2 n3 n4]. ring.
Qed.

Theorem fe_add_correct a b m m' : fe_mag a m -> fe_mag b m' -> m + m' <= 2047 ->
  let r := secp256k1_fe_add a b in
  fe_mag r (m + m') /\ fe_val r = fe_val a + fe_val b.
Proof.
  intros [Hm A0 A1 A2 A3 A4] [Hm' B0 B1 B2 B3 B4] Hmm. cbv zeta.
  unfold secp256k1_fe_add, u64. rewrite !Z.mod_small by lia.
  split; [split; cbn [n0 n1 n2 n3 n4]; lia|].
  unfold fe_val. cbn [n0 n1 n2 n3 n4]. ring.
Qed.

Theorem fe_cmov_correct a b m m' flag : fe_mag a m -> fe_mag b m' -> m <= 2047 -> m' <= 2047 ->
  secp256k1_fe_cmov a b flag = if flag then b else a.
Proof.
  intros [Hm A0 A1 A2 A3 A4] [Hm' B0 B1 B2 B3 B4] Hle Hle'.
  unfold secp256k1_fe_cmov. rewrite !select64 by lia. destruct flag, a, b; reflexivity.
Qed.

(** ** Packed storage *)

Definition storage_val (s : fe_storage) : Z :=
  st0 s + st1 s * 2 ^ 64 + st2 s * 2 ^ 128 + st3 s * 2 ^ 192.

Definition storage_ok (s : fe_storage) : Prop :=
  0 <= st0 s < 2 ^ 64 /\ 0 <= st1 s < 2 ^ 64 /\ 0 <= st2 s < 2 ^ 64 /\ 0 <= st3 s < 2 ^ 64.

Theorem fe_storage_cmov_correct r a flag : storage_ok r -> storage_ok a ->
  secp256k1_fe_storage_cmov r a flag = if flag then a else r.
Proof.
  unfold storage_ok. intros Hr Ha.
  unfold secp256k1_fe_storage_cmov. rewrite !select64 by lia. destruct flag, a, r; reflexivity.
Qed.

Lemma u64_shl x k : 0 <= k <= 64 -> u64 (x << k) = (x mod 2 ^ (64 - k)) * 2 ^ k.
Proof. exact (shl_trunc x k 64). Qed.

Lemma fe_to_storage_correct a : fe_norm a ->
  let s := secp256k1_fe_to_storage a in storage_ok s /\ storage_val s = fe_val a.
Proof.
  intros [H0 H1 H2 H3 H4 _]. unfold Bounded in *. cbv zeta.
  unfold secp256k1_fe_to_storage. rewrite !u64_shl, !shr_div by (lia || reflexivity).
  change (64 - 52) with 12. change (64 - 40) with 24.
  change (64 - 28) with 36. change (64 - 16) with 48.
  rewrite (lor_join _ _ 52) by lia.
  rewrite (join_div_mod (n1 a) _ 12 52), (join_div_mod (n2 a) _ 24 52),
    (join_div_mod (n3 a) _ 36 52) by lia.
  unfold storage_ok, storage_val, fe_val. cbn [st0 st1 st2 st3].
  cbn [Z.pow Z.pow_pos Pos.iter Z.mul Pos.mul Z.sub Z.opp Z.add Z.pos_sub Pos.pred_double]. 
  split; dlia.
Qed.

Lemma u64_shl_mask x k : 0 <= k <= 52 ->
  u64 (x << k) .& 0xFFFFFFFFFFFFF = (x mod 2 ^ (52 - k)) * 2 ^ k.
Proof.
  intros H. rewrite (land_mask_lit _ _ 52 (2 ^ 52)) by reflexivity.
  unfold u64. change 0x10000000000000000 with (2 ^ 64).
  rewrite Z.mod_mod_divide by now exists (2 ^ 12).
  now apply shl_trunc.
Qed.

Lemma fe_from_storage_val s : storage_ok s -> storage_val s < p ->
  fe_norm (secp256k1_fe_from_storage s) /\
  fe_val (secp256k1_fe_from_storage s) = storage_val s.
Proof.
  intros (H0 & H1 & H2 & H3) Hp. unfold secp256k1_fe_from_storage.
  rewrite !u64_shl_mask, !shr_div by (lia || reflexivity).
  rewrite (land_mask_lit _ _ 52 (2 ^ 52)) by reflexivity.
  rewrite (join_div_mod (st0 s) _ 52 64), (join_div_mod (st1 s) _ 40 64),
    (join_div_mod (st2 s) _ 28 64) by lia.
  match goal with |- fe_norm ?r /\ _ => set (x := r) end.
  assert (V : fe_val x = storage_val s).
  { unfold x, fe_val, storage_val. cbn [n0 n1 n2 n3 n4].
    cbn [Z.pow Z.pow_pos Pos.iter Z.mul Pos.mul Z.sub Z.opp Z.add Z.pos_sub Pos.pred_double].
    clear x Hp. dlia. }
  split; [|exact V]. split; [..|lia]; unfold x, Bounded; cbn [n0 n1 n2 n3 n4];
    cbn [Z.pow Z.pow_pos Pos.iter Z.mul Pos.mul Z.sub Z.opp Z.add Z.pos_sub Pos.pred_double];
    clear x V Hp; dlia.
Qed.

Lemma fe_norm_inj a b : fe_norm a -> fe_norm b -> fe_val a = fe_val b -> a = b.
Proof. intros Ha Hb E. rewrite <- (fe_of_Z_val a Ha), E. now apply fe_of_Z_val. Qed.

Theorem fe_storage_roundtrip a : fe_norm a ->
  secp256k1_fe_from_storage (secp256k1_fe_to_storage a) = a.
Proof.
  intros Ha. destruct (fe_to_storage_correct a Ha) as [Hs Hv].
  destruct (fe_from_storage_val _ Hs) as [H1 H2].
  { rewrite Hv. apply Ha. }
  apply fe_norm_inj; try assumption. congruence.
Qed.

Lemma fe_const_correct w7 w6 w5 w4 w3 w2 w1 w0 :
  Forall (fun d => 0 <= d < 2 ^ 32) [w7; w6; w5; w4; w3; w2; w1; w0] ->
  words_val w7 w6 w5 w4 w3 w2 w1 w0 < p ->
  fe_norm (SECP256K1_FE_CONST w7 w6 w5 w4 w3 w2 w1 w0) /\
  fe_val (SECP256K1_FE_CONST w7 w6 w5 w4 w3 w2 w1 w0) = words_val w7 w6 w5 w4 w3 w2 w1 w0.
Proof.
  intros H. repeat match goal with H : Forall _ (_ :: _) |- _ => inversion_clear H end.
  unfold SECP256K1_FE_CONST, words_val. cbn [fold_left].
  change 0xFFFFF with (2 ^ 20 - 1). change 0xFF with (2 ^ 8 - 1).
  change 0xFFFFFFF with (2 ^ 28 - 1). change 0xFFFF with (2 ^ 16 - 1).
  rewrite !land_mask, !Z.shiftr_div_pow2, !Z.shiftl_mul_pow2 by lia.
  rewrite (lor_join w0 _ 32), (lor_join (w1 / _) _ 12), (lor_join (w3 / _) _ 24),
    (lor_join (w4 / _) _ 4), (lor_join (w6 / _) _ 16), !(lor_join (_ + _) _ 44),
    !(lor_join (_ + _) _ 36) by dlia.
  intros Hp.
  assert (V : fe_val (Fe (w0 + w1 mod 2 ^ 20 * 2 ^ 32)
    (w1 / 2 ^ 20 + w2 * 2 ^ 12 + w3 mod 2 ^ 8 * 2 ^ 44)
    (w3 / 2 ^ 8 + w4 mod 2 ^ 28 * 2 ^ 24)
    (w4 / 2 ^ 28 + w5 * 2 ^ 4 + w6 mod 2 ^ 16 * 2 ^ 36)
    (w6 / 2 ^ 16 + w7 * 2 ^ 16)) =
    ((((((w7 * 2 ^ 32 + w6) * 2 ^ 32 + w5) * 2 ^ 32 + w4) * 2 ^ 32 + w3) * 2 ^ 32 + w2)
      * 2 ^ 32 + w1) * 2 ^ 32 + w0).
  { unfold fe_val. cbn [n0 n1 n2 n3 n4]. dlia. }
  split; [|rewrite V; lia].
  split; [..|rewrite V; lia]; cbn [n0 n1 n2 n3 n4]; unfold Bounded; dlia.
Qed.

(** ** The limit of the magnitude discipline

    [secp256k1_fe_verify] accepts magnitude 2048; the first carry pass of
    [secp256k1_fe_normalize] is exact up to 2047 only. *)

Definition fe_2048 : fe :=
  let m := 4096 in
  Fe (0xFFFFFFFFFFFFF * m) (0xFFFFFFFFFFFFF * m) (0xFFFFFFFFFFFFF * m)
     (0xFFFFFFFFFFFFF * m) (0x0FFFFFFFFFFFF * m).

Theorem fe_normalize_2048 :
  secp256k1_fe_verify false 2048 fe_2048 = true /\
  fe_val (secp256k1_fe_normalize fe_2048) <> fe_val fe_2048 mod p.
Proof. split; [reflexivity|vm_compute; discriminate]. Qed.

(** ** The interface *)

#[export, refine] Instance field_5x52 : FieldImpl := {
  FieldSpec.fe := fe;
  FieldSpec.fe_storage := fe_storage;
  fval := fe_val;
  fmag := fe_mag;
  fnorm := fe_norm;
  fe_const := SECP256K1_FE_CONST;
  fe_normalize := secp256k1_fe_normalize;
  fe_normalize_weak := secp256k1_fe_normalize_weak;
  fe_normalize_var := secp256k1_fe_normalize_var;
  fe_normalizes_to_zero := secp256k1_fe_normalizes_to_zero;
  fe_normalizes_to_zero_var := secp256k1_fe_normalizes_to_zero_var;
  fe_set_int := secp256k1_fe_set_int;
  fe_clear := secp256k1_fe_clear;
  fe_is_zero := secp256k1_fe_is_zero;
  fe_is_odd := secp256k1_fe_is_odd;
  fe_cmp_var := secp256k1_fe_cmp_var;
  fe_set_b32 := secp256k1_fe_set_b32;
  fe_get_b32 := secp256k1_fe_get_b32;
  fe_negate := secp256k1_fe_negate;
  fe_mul_int := secp256k1_fe_mul_int;
  fe_add := secp256k1_fe_add;
  fe_mul := secp256k1_fe_mul;
  fe_sqr := secp256k1_fe_sqr;
  fe_cmov := secp256k1_fe_cmov;
  fe_storage_cmov := secp256k1_fe_storage_cmov;
  fe_to_storage := secp256k1_fe_to_storage;
  fe_from_storage := secp256k1_fe_from_storage;
  fmag_le := fe_mag_le;
  fnorm_mag := fe_norm_mag;
  fnorm_inj := fe_norm_inj;
  fe_is_zero_ok := fe_is_zero_correct;
  fe_is_odd_ok := fe_is_odd_correct;
  fe_cmp_var_ok := fe_cmp_var_correct;
  fe_get_b32_ok := fe_get_b32_correct;
  fe_const_ok := fe_const_correct;
  fe_mul_ok := fe_mul_inner_correct;
  fe_sqr_ok := fe_sqr_inner_correct;
  fe_from_to_storage := fe_storage_roundtrip;
}.
Proof.
  - intros a m []. assumption.
  - intros a []. unfold Bounded, fe_val in *. lia.
  - intros a Ha. apply fe_normalize_correct, (fe_mag_le _ 31); [exact Ha|lia].
  - intros a Ha. apply fe_normalize_weak_correct, (fe_mag_le _ 31); [exact Ha|lia].
  - intros a Ha. apply fe_normalize_var_correct, (fe_mag_le _ 31); [exact Ha|lia].
  - intros a Ha. apply fe_normalizes_to_zero_correct, (fe_mag_le _ 31); [exact Ha|lia].
  - intros a Ha. rewrite fe_normalizes_to_zero_var_correct.
    apply fe_normalizes_to_zero_correct, (fe_mag_le _ 31); [exact Ha|lia].
  - intros n Hn. apply fe_set_int_correct. lia.
  - intros a. rewrite fe_clear_correct. apply (fe_set_int_correct 0). lia.
  - intros l Hl Hlen. rewrite fe_set_b32_correct by assumption. cbn [fst snd].
    pose proof (be_val_32 l Hl Hlen) as HV.
    destruct (fe_of_Z_bounds _ HV) as (? & ? & ? & ? & ?).
    split; [reflexivity|]. split; [apply fe_val_of_Z; lia|].
    split; [|intros; apply fe_norm_of_Z; lia].
    unfold Bounded in *. split; cbn [fst]; lia.
  - intros a m Ha Hm. apply fe_negate_correct; [exact Ha|lia].
  - intros a m k Ha Hk Hm. apply fe_mul_int_correct; [exact Ha|lia|lia].
  - intros a b m m' Ha Hb Hm. apply fe_add_correct; [exact Ha|exact Hb|lia].
  - intros a b m flag Ha Hb Hm. eapply fe_cmov_correct; [exact Ha|exact Hb|lia|lia].
  - intros a b flag Ha Hb. rewrite fe_storage_cmov_correct; [now destruct flag|..];
      now apply fe_to_storage_correct.
Defined.
