(* ===== verification/Field10x26.v ===== *)
(** * Field elements in ten 26-bit limbs

    The representation of field_10x26.h with the operations of
    field_10x26_impl.h, the variant of the field for machines without 128-bit
    integers and the one the Rust crate is built with.  [fe] is the struct
    [secp256k1_fe]; a function that updates its argument in place returns the new
    struct.  [secp256k1_fe_mul_inner] and [secp256k1_fe_sqr_inner] write the
    result after their last read of the arguments. *)
From S2P Require Import Prelude FieldSpec.

(** ** The representation *)

Record fe := Fe {
  n0 : Z; n1 : Z; n2 : Z; n3 : Z; n4 : Z; n5 : Z; n6 : Z; n7 : Z; n8 : Z; n9 : Z
}.

Record fe_storage := FeStorage {
  st0 : Z; st1 : Z; st2 : Z; st3 : Z; st4 : Z; st5 : Z; st6 : Z; st7 : Z
}.

(** Array access [a->n[i]] and update [r->n[i] = v]. *)
Definition limb (a : fe) (i : Z) : Z :=
  at_ [n0 a; n1 a; n2 a; n3 a; n4 a; n5 a; n6 a; n7 a; n8 a; n9 a] i.

Definition set_limb (a : fe) (i v : Z) : fe :=
  let f k x := if i =? k then v else x in
  Fe (f 0 (n0 a)) (f 1 (n1 a)) (f 2 (n2 a)) (f 3 (n3 a)) (f 4 (n4 a))
     (f 5 (n5 a)) (f 6 (n6 a)) (f 7 (n7 a)) (f 8 (n8 a)) (f 9 (n9 a)).

(** SECP256K1_FE_CONST: eight 32-bit words spread over the limbs. *)
Definition SECP256K1_FE_CONST (d7 d6 d5 d4 d3 d2 d1 d0 : Z) : fe :=
  Fe (d0 .& 0x3FFFFFF)
     ((d0 >> 26) .| ((d1 .& 0xFFFFF) << 6))
     ((d1 >> 20) .| ((d2 .& 0x3FFF) << 12))
     ((d2 >> 14) .| ((d3 .& 0xFF) << 18))
     ((d3 >> 8) .| ((d4 .& 0x3) << 24))
     ((d4 >> 2) .& 0x3FFFFFF)
     ((d4 >> 28) .| ((d5 .& 0x3FFFFF) << 4))
     ((d5 >> 22) .| ((d6 .& 0xFFFF) << 10))
     ((d6 >> 16) .| ((d7 .& 0x3FF) << 16))
     (d7 >> 10).

(** The conditions [secp256k1_fe_verify] checks. *)
Definition secp256k1_fe_verify (normalized : bool) (magnitude : Z) (a : fe) : bool :=
  let m := if normalized then 1 else 2 * magnitude in
  let r := (n0 a <=? u32 (0x3FFFFFF * m)) && (n1 a <=? u32 (0x3FFFFFF * m))
           && (n2 a <=? u32 (0x3FFFFFF * m)) && (n3 a <=? u32 (0x3FFFFFF * m))
           && (n4 a <=? u32 (0x3FFFFFF * m)) && (n5 a <=? u32 (0x3FFFFFF * m))
           && (n6 a <=? u32 (0x3FFFFFF * m)) && (n7 a <=? u32 (0x3FFFFFF * m))
           && (n8 a <=? u32 (0x3FFFFFF * m)) && (n9 a <=? u32 (0x03FFFFF * m))
           && (0 <=? magnitude) && (magnitude <=? 32) in
  if normalized then
    let r := r && (magnitude <=? 1) in
    if r && (n9 a =? 0x03FFFFF) then
      let mid := (((((n8 a .& n7 a) .& n6 a) .& n5 a) .& n4 a) .& n3 a) .& n2 a in
      if mid =? 0x3FFFFFF
      then r && (u32 (u32 (n1 a + 0x40) + (u32 (n0 a + 0x3D1) >> 26)) <=? 0x3FFFFFF)
      else r
    else r
  else r.

(** ** Multiplication

    Column [k] is the sum of the products [a[i] * b[j]] with [i + j = k]; the
    column and the one ten places above it are added to the accumulators [c] and
    [d] together.  The variable [u8] is called [u8'] here. *)

(** The end of both multiplications, from the store of [r[3]] on. *)
Definition inner_end (c d u8' t0 t1 t2 t3 t4 t5 t6 t7 t9 : Z) : fe :=
  let M := 0x3FFFFFF in let R0 := 0x3D10 in let R1 := 0x400 in
  let r3 := t3 in let r4 := t4 in let r5 := t5 in let r6 := t6 in let r7 := t7 in
  let r8 := u32 (c .& M) in let c := c >> 26 in let c := u64 (c + u8' * R1) in
  let c := u64 (c + (d * R0 + t9)) in
  let r9 := u32 (c .& (M >> 4)) in let c := c >> 22 in let c := u64 (c + d * (R1 << 4)) in
  let d := u64 (c * (R0 >> 4) + t0) in
  let r0 := u32 (d .& M) in let d := d >> 26 in
  let d := u64 (d + (c * (R1 >> 4) + t1)) in
  let r1 := u32 (d .& M) in let d := d >> 26 in
  let d := u64 (d + t2) in
  let r2 := u32 d in
  Fe r0 r1 r2 r3 r4 r5 r6 r7 r8 r9.

(** Column 8 of the product. *)
Definition mul_column_8 (a b : fe) (c d t0 t1 t2 t3 t4 t5 t6 t7 t9 : Z) : fe :=
  let a0 := n0 a in let a1 := n1 a in let a2 := n2 a in let a3 := n3 a in let a4 := n4 a in
  let a5 := n5 a in let a6 := n6 a in let a7 := n7 a in let a8 := n8 a in let a9 := n9 a in
  let M := 0x3FFFFFF in let R0 := 0x3D10 in let R1 := 0x400 in
  let c := u64 (c + (a0 * n8 b + a1 * n7 b + a2 * n6 b + a3 * n5 b
                      + a4 * n4 b + a5 * n3 b + a6 * n2 b + a7 * n1 b
                      + a8 * n0 b)) in
  let d := u64 (d + (a9 * n9 b)) in
  let u8' := d .& M in let d := d >> 26 in let c := u64 (c + u8' * R0) in
  inner_end c d u8' t0 t1 t2 t3 t4 t5 t6 t7 t9.

(** Columns 4 to 7. *)
Definition mul_columns_4_7 (a b : fe) (c d t0 t1 t2 t3 t9 : Z) : fe :=
  let a0 := n0 a in let a1 := n1 a in let a2 := n2 a in let a3 := n3 a in let a4 := n4 a in
  let a5 := n5 a in let a6 := n6 a in let a7 := n7 a in let a8 := n8 a in let a9 := n9 a in
  let M := 0x3FFFFFF in let R0 := 0x3D10 in let R1 := 0x400 in
  let c := u64 (c + (a0 * n4 b + a1 * n3 b + a2 * n2 b + a3 * n1 b
                      + a4 * n0 b)) in
  let d := u64 (d + (a5 * n9 b + a6 * n8 b + a7 * n7 b + a8 * n6 b
                      + a9 * n5 b)) in
  let u4 := d .& M in let d := d >> 26 in let c := u64 (c + u4 * R0) in
  let t4 := u32 (c .& M) in let c := c >> 26 in let c := u64 (c + u4 * R1) in
  let c := u64 (c + (a0 * n5 b + a1 * n4 b + a2 * n3 b + a3 * n2 b
                      + a4 * n1 b + a5 * n0 b)) in
  let d := u64 (d + (a6 * n9 b + a7 * n8 b + a8 * n7 b + a9 * n6 b)) in
  let u5 := d .& M in let d := d >> 26 in let c := u64 (c + u5 * R0) in
  let t5 := u32 (c .& M) in let c := c >> 26 in let c := u64 (c + u5 * R1) in
  let c := u64 (c + (a0 * n6 b + a1 * n5 b + a2 * n4 b + a3 * n3 b
                      + a4 * n2 b + a5 * n1 b + a6 * n0 b)) in
  let d := u64 (d + (a7 * n9 b + a8 * n8 b + a9 * n7 b)) in
  let u6 := d .& M in let d := d >> 26 in let c := u64 (c + u6 * R0) in
  let t6 := u32 (c .& M) in let c := c >> 26 in let c := u64 (c + u6 * R1) in
  let c := u64 (c + (a0 * n7 b + a1 * n6 b + a2 * n5 b + a3 * n4 b
                      + a4 * n3 b + a5 * n2 b + a6 * n1 b + a7 * n0 b)) in
  let d := u64 (d + (a8 * n9 b + a9 * n8 b)) in
  let u7 := d .& M in let d := d >> 26 in let c := u64 (c + u7 * R0) in
  let t7 := u32 (c .& M) in let c := c >> 26 in let c := u64 (c + u7 * R1) in
  mul_column_8 a b c d t0 t1 t2 t3 t4 t5 t6 t7 t9.

Definition secp256k1_fe_mul_inner (a b : fe) : fe :=
  let a0 := n0 a in let a1 := n1 a in let a2 := n2 a in let a3 := n3 a in let a4 := n4 a in
  let a5 := n5 a in let a6 := n6 a in let a7 := n7 a in let a8 := n8 a in let a9 := n9 a in
  let M := 0x3FFFFFF in let R0 := 0x3D10 in let R1 := 0x400 in
  let d := u64 (a0 * n9 b + a1 * n8 b + a2 * n7 b + a3 * n6 b + a4 * n5 b
                 + a5 * n4 b + a6 * n3 b + a7 * n2 b + a8 * n1 b + a9 * n0 b) in
  let t9 := u32 (d .& M) in let d := d >> 26 in
  let c := u64 (a0 * n0 b) in
  let d := u64 (d + (a1 * n9 b + a2 * n8 b + a3 * n7 b + a4 * n6 b
                      + a5 * n5 b + a6 * n4 b + a7 * n3 b + a8 * n2 b
                      + a9 * n1 b)) in
  let u0 := d .& M in let d := d >> 26 in let c := u64 (c + u0 * R0) in
  let t0 := u32 (c .& M) in let c := c >> 26 in let c := u64 (c + u0 * R1) in
  let c := u64 (c + (a0 * n1 b + a1 * n0 b)) in
  let d := u64 (d + (a2 * n9 b + a3 * n8 b + a4 * n7 b + a5 * n6 b
                      + a6 * n5 b + a7 * n4 b + a8 * n3 b + a9 * n2 b)) in
  let u1 := d .& M in let d := d >> 26 in let c := u64 (c + u1 * R0) in
  let t1 := u32 (c .& M) in let c := c >> 26 in let c := u64 (c + u1 * R1) in
  let c := u64 (c + (a0 * n2 b + a1 * n1 b + a2 * n0 b)) in
  let d := u64 (d + (a3 * n9 b + a4 * n8 b + a5 * n7 b + a6 * n6 b
                      + a7 * n5 b + a8 * n4 b + a9 * n3 b)) in
  let u2 := d .& M in let d := d >> 26 in let c := u64 (c + u2 * R0) in
  let t2 := u32 (c .& M) in let c := c >> 26 in let c := u64 (c + u2 * R1) in
  let c := u64 (c + (a0 * n3 b + a1 * n2 b + a2 * n1 b + a3 * n0 b)) in
  let d := u64 (d + (a4 * n9 b + a5 * n8 b + a6 * n7 b + a7 * n6 b
                      + a8 * n5 b + a9 * n4 b)) in
  let u3 := d .& M in let d := d >> 26 in let c := u64 (c + u3 * R0) in
  let t3 := u32 (c .& M) in let c := c >> 26 in let c := u64 (c + u3 * R1) in
  mul_columns_4_7 a b c d t0 t1 t2 t3 t9.

(** The square uses every mixed product once, doubled in 32 bits. *)
Definition sqr_column_8 (a : fe) (c d t0 t1 t2 t3 t4 t5 t6 t7 t9 : Z) : fe :=
  let a0 := n0 a in let a1 := n1 a in let a2 := n2 a in let a3 := n3 a in let a4 := n4 a in
  let a5 := n5 a in let a6 := n6 a in let a7 := n7 a in let a8 := n8 a in let a9 := n9 a in
  let M := 0x3FFFFFF in let R0 := 0x3D10 in let R1 := 0x400 in
  let c := u64 (c + (u32 (a0 * 2) * a8 + u32 (a1 * 2) * a7
                      + u32 (a2 * 2) * a6 + u32 (a3 * 2) * a5 + a4 * a4)) in
  let d := u64 (d + (a9 * a9)) in
  let u8' := d .& M in let d := d >> 26 in let c := u64 (c + u8' * R0) in
  inner_end c d u8' t0 t1 t2 t3 t4 t5 t6 t7 t9.

(** Columns 4 to 7. *)
Definition sqr_columns_4_7 (a : fe) (c d t0 t1 t2 t3 t9 : Z) : fe :=
  let a0 := n0 a in let a1 := n1 a in let a2 := n2 a in let a3 := n3 a in let a4 := n4 a in
  let a5 := n5 a in let a6 := n6 a in let a7 := n7 a in let a8 := n8 a in let a9 := n9 a in
  let M := 0x3FFFFFF in let R0 := 0x3D10 in let R1 := 0x400 in
  let c := u64 (c + (u32 (a0 * 2) * a4 + u32 (a1 * 2) * a3 + a2 * a2)) in
  let d := u64 (d + (u32 (a5 * 2) * a9 + u32 (a6 * 2) * a8 + a7 * a7)) in
  let u4 := d .& M in let d := d >> 26 in let c := u64 (c + u4 * R0) in
  let t4 := u32 (c .& M) in let c := c >> 26 in let c := u64 (c + u4 * R1) in
  let c := u64 (c + (u32 (a0 * 2) * a5 + u32 (a1 * 2) * a4
                      + u32 (a2 * 2) * a3)) in
  let d := u64 (d + (u32 (a6 * 2) * a9 + u32 (a7 * 2) * a8)) in
  let u5 := d .& M in let d := d >> 26 in let c := u64 (c + u5 * R0) in
  let t5 := u32 (c .& M) in let c := c >> 26 in let c := u64 (c + u5 * R1) in
  let c := u64 (c + (u32 (a0 * 2) * a6 + u32 (a1 * 2) * a5
                      + u32 (a2 * 2) * a4 + a3 * a3)) in
  let d := u64 (d + (u32 (a7 * 2) * a9 + a8 * a8)) in
  let u6 := d .& M in let d := d >> 26 in let c := u64 (c + u6 * R0) in
  let t6 := u32 (c .& M) in let c := c >> 26 in let c := u64 (c + u6 * R1) in
  let c := u64 (c + (u32 (a0 * 2) * a7 + u32 (a1 * 2) * a6
                      + u32 (a2 * 2) * a5 + u32 (a3 * 2) * a4)) in
  let d := u64 (d + (u32 (a8 * 2) * a9)) in
  let u7 := d .& M in let d := d >> 26 in let c := u64 (c + u7 * R0) in
  let t7 := u32 (c .& M) in let c := c >> 26 in let c := u64 (c + u7 * R1) in
  sqr_column_8 a c d t0 t1 t2 t3 t4 t5 t6 t7 t9.

Definition secp256k1_fe_sqr_inner (a : fe) : fe :=
  let a0 := n0 a in let a1 := n1 a in let a2 := n2 a in let a3 := n3 a in let a4 := n4 a in
  let a5 := n5 a in let a6 := n6 a in let a7 := n7 a in let a8 := n8 a in let a9 := n9 a in
  let M := 0x3FFFFFF in let R0 := 0x3D10 in let R1 := 0x400 in
  let d := u64 (u32 (a0 * 2) * a9 + u32 (a1 * 2) * a8 + u32 (a2 * 2) * a7
                 + u32 (a3 * 2) * a6 + u32 (a4 * 2) * a5) in
  let t9 := u32 (d .& M) in let d := d >> 26 in
  let c := u64 (a0 * a0) in
  let d := u64 (d + (u32 (a1 * 2) * a9 + u32 (a2 * 2) * a8
                      + u32 (a3 * 2) * a7 + u32 (a4 * 2) * a6 + a5 * a5)) in
  let u0 := d .& M in let d := d >> 26 in let c := u64 (c + u0 * R0) in
  let t0 := u32 (c .& M) in let c := c >> 26 in let c := u64 (c + u0 * R1) in
  let c := u64 (c + (u32 (a0 * 2) * a1)) in
  let d := u64 (d + (u32 (a2 * 2) * a9 + u32 (a3 * 2) * a8
                      + u32 (a4 * 2) * a7 + u32 (a5 * 2) * a6)) in
  let u1 := d .& M in let d := d >> 26 in let c := u64 (c + u1 * R0) in
  let t1 := u32 (c .& M) in let c := c >> 26 in let c := u64 (c + u1 * R1) in
  let c := u64 (c + (u32 (a0 * 2) * a2 + a1 * a1)) in
  let d := u64 (d + (u32 (a3 * 2) * a9 + u32 (a4 * 2) * a8
                      + u32 (a5 * 2) * a7 + a6 * a6)) in
  let u2 := d .& M in let d := d >> 26 in let c := u64 (c + u2 * R0) in
  let t2 := u32 (c .& M) in let c := c >> 26 in let c := u64 (c + u2 * R1) in
  let c := u64 (c + (u32 (a0 * 2) * a3 + u32 (a1 * 2) * a2)) in
  let d := u64 (d + (u32 (a4 * 2) * a9 + u32 (a5 * 2) * a8
                      + u32 (a6 * 2) * a7)) in
  let u3 := d .& M in let d := d >> 26 in let c := u64 (c + u3 * R0) in
  let t3 := u32 (c .& M) in let c := c >> 26 in let c := u64 (c + u3 * R1) in
  sqr_columns_4_7 a c d t0 t1 t2 t3 t9.

(** ** Normalisation

    The suffix UL makes a constant an [unsigned long], of 32 or 64 bits; what is
    stored has 32 bits either way, and the sums that are only compared do not
    reach 2^32. *)

Definition secp256k1_fe_normalize (r : fe) : fe :=
  let t0 := n0 r in let t1 := n1 r in let t2 := n2 r in let t3 := n3 r in let t4 := n4 r in
  let t5 := n5 r in let t6 := n6 r in let t7 := n7 r in let t8 := n8 r in let t9 := n9 r in
  let x := t9 >> 22 in let t9 := t9 .& 0x03FFFFF in
  let t0 := u32 (t0 + x * 0x3D1) in let t1 := u32 (t1 + u32 (x << 6)) in
  let t1 := u32 (t1 + (t0 >> 26)) in let t0 := t0 .& 0x3FFFFFF in
  let t2 := u32 (t2 + (t1 >> 26)) in let t1 := t1 .& 0x3FFFFFF in
  let t3 := u32 (t3 + (t2 >> 26)) in let t2 := t2 .& 0x3FFFFFF in let m := t2 in
  let t4 := u32 (t4 + (t3 >> 26)) in let t3 := t3 .& 0x3FFFFFF in
  let m := m .& t3 in
  let t5 := u32 (t5 + (t4 >> 26)) in let t4 := t4 .& 0x3FFFFFF in
  let m := m .& t4 in
  let t6 := u32 (t6 + (t5 >> 26)) in let t5 := t5 .& 0x3FFFFFF in
  let m := m .& t5 in
  let t7 := u32 (t7 + (t6 >> 26)) in let t6 := t6 .& 0x3FFFFFF in
  let m := m .& t6 in
  let t8 := u32 (t8 + (t7 >> 26)) in let t7 := t7 .& 0x3FFFFFF in
  let m := m .& t7 in
  let t9 := u32 (t9 + (t8 >> 26)) in let t8 := t8 .& 0x3FFFFFF in
  let m := m .& t8 in
  let x := (t9 >> 22) .| b2z ((t9 =? 0x03FFFFF) && (m =? 0x3FFFFFF)
                              && (0x3FFFFFF <? u32 (u32 (t1 + 0x40) + (u32 (t0 + 0x3D1) >> 26)))) in
  let t0 := u32 (t0 + x * 0x3D1) in let t1 := u32 (t1 + u32 (x << 6)) in
  let t1 := u32 (t1 + (t0 >> 26)) in let t0 := t0 .& 0x3FFFFFF in
  let t2 := u32 (t2 + (t1 >> 26)) in let t1 := t1 .& 0x3FFFFFF in
  let t3 := u32 (t3 + (t2 >> 26)) in let t2 := t2 .& 0x3FFFFFF in
  let t4 := u32 (t4 + (t3 >> 26)) in let t3 := t3 .& 0x3FFFFFF in
  let t5 := u32 (t5 + (t4 >> 26)) in let t4 := t4 .& 0x3FFFFFF in
  let t6 := u32 (t6 + (t5 >> 26)) in let t5 := t5 .& 0x3FFFFFF in
  let t7 := u32 (t7 + (t6 >> 26)) in let t6 := t6 .& 0x3FFFFFF in
  let t8 := u32 (t8 + (t7 >> 26)) in let t7 := t7 .& 0x3FFFFFF in
  let t9 := u32 (t9 + (t8 >> 26)) in let t8 := t8 .& 0x3FFFFFF in
  let t9 := t9 .& 0x03FFFFF in
  Fe t0 t1 t2 t3 t4 t5 t6 t7 t8 t9.

Definition secp256k1_fe_normalize_weak (r : fe) : fe :=
  let t0 := n0 r in let t1 := n1 r in let t2 := n2 r in let t3 := n3 r in let t4 := n4 r in
  let t5 := n5 r in let t6 := n6 r in let t7 := n7 r in let t8 := n8 r in let t9 := n9 r in
  let x := t9 >> 22 in let t9 := t9 .& 0x03FFFFF in
  let t0 := u32 (t0 + x * 0x3D1) in let t1 := u32 (t1 + u32 (x << 6)) in
  let t1 := u32 (t1 + (t0 >> 26)) in let t0 := t0 .& 0x3FFFFFF in
  let t2 := u32 (t2 + (t1 >> 26)) in let t1 := t1 .& 0x3FFFFFF in
  let t3 := u32 (t3 + (t2 >> 26)) in let t2 := t2 .& 0x3FFFFFF in
  let t4 := u32 (t4 + (t3 >> 26)) in let t3 := t3 .& 0x3FFFFFF in
  let t5 := u32 (t5 + (t4 >> 26)) in let t4 := t4 .& 0x3FFFFFF in
  let t6 := u32 (t6 + (t5 >> 26)) in let t5 := t5 .& 0x3FFFFFF in
  let t7 := u32 (t7 + (t6 >> 26)) in let t6 := t6 .& 0x3FFFFFF in
  let t8 := u32 (t8 + (t7 >> 26)) in let t7 := t7 .& 0x3FFFFFF in
  let t9 := u32 (t9 + (t8 >> 26)) in let t8 := t8 .& 0x3FFFFFF in
  Fe t0 t1 t2 t3 t4 t5 t6 t7 t8 t9.

Definition secp256k1_fe_normalize_var (r : fe) : fe :=
  let t0 := n0 r in let t1 := n1 r in let t2 := n2 r in let t3 := n3 r in let t4 := n4 r in
  let t5 := n5 r in let t6 := n6 r in let t7 := n7 r in let t8 := n8 r in let t9 := n9 r in
  let x := t9 >> 22 in let t9 := t9 .& 0x03FFFFF in
  let t0 := u32 (t0 + x * 0x3D1) in let t1 := u32 (t1 + u32 (x << 6)) in
  let t1 := u32 (t1 + (t0 >> 26)) in let t0 := t0 .& 0x3FFFFFF in
  let t2 := u32 (t2 + (t1 >> 26)) in let t1 := t1 .& 0x3FFFFFF in
  let t3 := u32 (t3 + (t2 >> 26)) in let t2 := t2 .& 0x3FFFFFF in let m := t2 in
  let t4 := u32 (t4 + (t3 >> 26)) in let t3 := t3 .& 0x3FFFFFF in
  let m := m .& t3 in
  let t5 := u32 (t5 + (t4 >> 26)) in let t4 := t4 .& 0x3FFFFFF in
  let m := m .& t4 in
  let t6 := u32 (t6 + (t5 >> 26)) in let t5 := t5 .& 0x3FFFFFF in
  let m := m .& t5 in
  let t7 := u32 (t7 + (t6 >> 26)) in let t6 := t6 .& 0x3FFFFFF in
  let m := m .& t6 in
  let t8 := u32 (t8 + (t7 >> 26)) in let t7 := t7 .& 0x3FFFFFF in
  let m := m .& t7 in
  let t9 := u32 (t9 + (t8 >> 26)) in let t8 := t8 .& 0x3FFFFFF in
  let m := m .& t8 in
  let x := (t9 >> 22) .| b2z ((t9 =? 0x03FFFFF) && (m =? 0x3FFFFFF)
                              && (0x3FFFFFF <? u32 (u32 (t1 + 0x40) + (u32 (t0 + 0x3D1) >> 26)))) in
  if negb (x =? 0) then
    let t0 := u32 (t0 + 0x3D1) in let t1 := u32 (t1 + u32 (x << 6)) in
    let t1 := u32 (t1 + (t0 >> 26)) in let t0 := t0 .& 0x3FFFFFF in
    let t2 := u32 (t2 + (t1 >> 26)) in let t1 := t1 .& 0x3FFFFFF in
    let t3 := u32 (t3 + (t2 >> 26)) in let t2 := t2 .& 0x3FFFFFF in
    let t4 := u32 (t4 + (t3 >> 26)) in let t3 := t3 .& 0x3FFFFFF in
    let t5 := u32 (t5 + (t4 >> 26)) in let t4 := t4 .& 0x3FFFFFF in
    let t6 := u32 (t6 + (t5 >> 26)) in let t5 := t5 .& 0x3FFFFFF in
    let t7 := u32 (t7 + (t6 >> 26)) in let t6 := t6 .& 0x3FFFFFF in
    let t8 := u32 (t8 + (t7 >> 26)) in let t7 := t7 .& 0x3FFFFFF in
    let t9 := u32 (t9 + (t8 >> 26)) in let t8 := t8 .& 0x3FFFFFF in
    let t9 := t9 .& 0x03FFFFF in
    Fe t0 t1 t2 t3 t4 t5 t6 t7 t8 t9
  else
    Fe t0 t1 t2 t3 t4 t5 t6 t7 t8 t9.

Definition secp256k1_fe_normalizes_to_zero (r : fe) : bool :=
  let t0 := n0 r in let t1 := n1 r in let t2 := n2 r in let t3 := n3 r in let t4 := n4 r in
  let t5 := n5 r in let t6 := n6 r in let t7 := n7 r in let t8 := n8 r in let t9 := n9 r in
  let x := t9 >> 22 in let t9 := t9 .& 0x03FFFFF in
  let t0 := u32 (t0 + x * 0x3D1) in let t1 := u32 (t1 + u32 (x << 6)) in
  let t1 := u32 (t1 + (t0 >> 26)) in let t0 := t0 .& 0x3FFFFFF in
  let z0 := t0 in let z1 := t0 .^ 0x3D0 in
  let t2 := u32 (t2 + (t1 >> 26)) in let t1 := t1 .& 0x3FFFFFF in
  let z0 := z0 .| t1 in let z1 := z1 .& (t1 .^ 0x40) in
  let t3 := u32 (t3 + (t2 >> 26)) in let t2 := t2 .& 0x3FFFFFF in
  let z0 := z0 .| t2 in let z1 := z1 .& t2 in
  let t4 := u32 (t4 + (t3 >> 26)) in let t3 := t3 .& 0x3FFFFFF in
  let z0 := z0 .| t3 in let z1 := z1 .& t3 in
  let t5 := u32 (t5 + (t4 >> 26)) in let t4 := t4 .& 0x3FFFFFF in
  let z0 := z0 .| t4 in let z1 := z1 .& t4 in
  let t6 := u32 (t6 + (t5 >> 26)) in let t5 := t5 .& 0x3FFFFFF in
  let z0 := z0 .| t5 in let z1 := z1 .& t5 in
  let t7 := u32 (t7 + (t6 >> 26)) in let t6 := t6 .& 0x3FFFFFF in
  let z0 := z0 .| t6 in let z1 := z1 .& t6 in
  let t8 := u32 (t8 + (t7 >> 26)) in let t7 := t7 .& 0x3FFFFFF in
  let z0 := z0 .| t7 in let z1 := z1 .& t7 in
  let t9 := u32 (t9 + (t8 >> 26)) in let t8 := t8 .& 0x3FFFFFF in
  let z0 := z0 .| t8 in let z1 := z1 .& t8 in
  let z0 := z0 .| t9 in let z1 := z1 .& (t9 .^ 0x3C00000) in
  (z0 =? 0) || (z1 =? 0x3FFFFFF).

Definition secp256k1_fe_normalizes_to_zero_var (r : fe) : bool :=
  let t0 := n0 r in
  let t9 := n9 r in
  let x := t9 >> 22 in
  let t0 := u32 (t0 + x * 0x3D1) in
  let z0 := t0 .& 0x3FFFFFF in
  let z1 := z0 .^ 0x3D0 in
  if negb (z0 =? 0) && negb (z1 =? 0x3FFFFFF) then false else
  let t1 := n1 r in let t2 := n2 r in let t3 := n3 r in let t4 := n4 r in
  let t5 := n5 r in let t6 := n6 r in let t7 := n7 r in let t8 := n8 r in
  let t9 := t9 .& 0x03FFFFF in
  let t1 := u32 (t1 + u32 (x << 6)) in
  let t1 := u32 (t1 + (t0 >> 26)) in
  let t2 := u32 (t2 + (t1 >> 26)) in let t1 := t1 .& 0x3FFFFFF in
  let z0 := z0 .| t1 in let z1 := z1 .& (t1 .^ 0x40) in
  let t3 := u32 (t3 + (t2 >> 26)) in let t2 := t2 .& 0x3FFFFFF in
  let z0 := z0 .| t2 in let z1 := z1 .& t2 in
  let t4 := u32 (t4 + (t3 >> 26)) in let t3 := t3 .& 0x3FFFFFF in
  let z0 := z0 .| t3 in let z1 := z1 .& t3 in
  let t5 := u32 (t5 + (t4 >> 26)) in let t4 := t4 .& 0x3FFFFFF in
  let z0 := z0 .| t4 in let z1 := z1 .& t4 in
  let t6 := u32 (t6 + (t5 >> 26)) in let t5 := t5 .& 0x3FFFFFF in
  let z0 := z0 .| t5 in let z1 := z1 .& t5 in
  let t7 := u32 (t7 + (t6 >> 26)) in let t6 := t6 .& 0x3FFFFFF in
  let z0 := z0 .| t6 in let z1 := z1 .& t6 in
  let t8 := u32 (t8 + (t7 >> 26)) in let t7 := t7 .& 0x3FFFFFF in
  let z0 := z0 .| t7 in let z1 := z1 .& t7 in
  let t9 := u32 (t9 + (t8 >> 26)) in let t8 := t8 .& 0x3FFFFFF in
  let z0 := z0 .| t8 in let z1 := z1 .& t8 in
  let z0 := z0 .| t9 in let z1 := z1 .& (t9 .^ 0x3C00000) in
  (z0 =? 0) || (z1 =? 0x3FFFFFF).

(** ** Elements from and to integers, bytes and storage *)

Definition secp256k1_fe_set_int (a : Z) : fe := Fe (u32 a) 0 0 0 0 0 0 0 0 0.

Definition secp256k1_fe_is_zero (a : fe) : bool :=
  (((((((((n0 a .| n1 a) .| n2 a) .| n3 a) .| n4 a) .| n5 a) .| n6 a) .| n7 a) .| n8 a) .| n9 a)
    =? 0.

Definition secp256k1_fe_is_odd (a : fe) : bool := negb ((n0 a .& 1) =? 0).

Definition secp256k1_fe_clear (a : fe) : fe :=
  for_loop 10 (fun i a => set_limb a i 0) a.

(** [for (i = 9; i >= 0; i--)] with the two early returns. *)
Definition secp256k1_fe_cmp_var (a b : fe) : Z :=
  fold_right (fun i rest =>
    if limb b i <? limb a i then 1
    else if limb a i <? limb b i then -1
    else rest) 0 [9; 8; 7; 6; 5; 4; 3; 2; 1; 0].

Definition secp256k1_fe_set_b32 (a : bytes) : fe * bool :=
  let r := for_loop 32 (fun i r =>
      for_loop 4 (fun j r =>
        let l := (8 * i + 2 * j) / 26 in
        let shift := (8 * i + 2 * j) mod 26 in
        set_limb r l (limb r l .|
          u32 (((at_ a (31 - i) >> (2 * j)) .& 0x3) << shift))) r)
    (Fe 0 0 0 0 0 0 0 0 0 0) in
  if (n9 r =? 0x3FFFFF)
     && (((((((n8 r .& n7 r) .& n6 r) .& n5 r) .& n4 r) .& n3 r) .& n2 r) =? 0x3FFFFFF)
     && (0x3FFFFFF <? u32 (u32 (n1 r + 0x40) + (u32 (n0 r + 0x3D1) >> 26)))
  then (r, false)
  else (r, true).

(** The byte [c] computed for [r[31-i]]. *)
Definition fe_byte (a : fe) (i : Z) : Z :=
  for_loop 4 (fun j c =>
    let l := (8 * i + 2 * j) / 26 in
    let shift := (8 * i + 2 * j) mod 26 in
    c .| (((limb a l >> shift) .& 0x3) << (2 * j))) 0.

Definition secp256k1_fe_get_b32 (a : fe) : bytes :=
  map (fun k => u8 (fe_byte a (31 - Z.of_nat k))) (seq 0 32).

Definition secp256k1_fe_negate (a : fe) (m : Z) : fe :=
  Fe (u32 (0x3FFFC2F * 2 * (m + 1) - n0 a)) (u32 (0x3FFFFBF * 2 * (m + 1) - n1 a))
     (u32 (0x3FFFFFF * 2 * (m + 1) - n2 a)) (u32 (0x3FFFFFF * 2 * (m + 1) - n3 a))
     (u32 (0x3FFFFFF * 2 * (m + 1) - n4 a)) (u32 (0x3FFFFFF * 2 * (m + 1) - n5 a))
     (u32 (0x3FFFFFF * 2 * (m + 1) - n6 a)) (u32 (0x3FFFFFF * 2 * (m + 1) - n7 a))
     (u32 (0x3FFFFFF * 2 * (m + 1) - n8 a)) (u32 (0x03FFFFF * 2 * (m + 1) - n9 a)).

Definition secp256k1_fe_mul_int (r : fe) (a : Z) : fe :=
  Fe (u32 (n0 r * a)) (u32 (n1 r * a)) (u32 (n2 r * a)) (u32 (n3 r * a))
     (u32 (n4 r * a)) (u32 (n5 r * a)) (u32 (n6 r * a)) (u32 (n7 r * a))
     (u32 (n8 r * a)) (u32 (n9 r * a)).

Definition secp256k1_fe_add (r a : fe) : fe :=
  Fe (u32 (n0 r + n0 a)) (u32 (n1 r + n1 a)) (u32 (n2 r + n2 a)) (u32 (n3 r + n3 a))
     (u32 (n4 r + n4 a)) (u32 (n5 r + n5 a)) (u32 (n6 r + n6 a)) (u32 (n7 r + n7 a))
     (u32 (n8 r + n8 a)) (u32 (n9 r + n9 a)).

Definition secp256k1_fe_mul (a b : fe) : fe := secp256k1_fe_mul_inner a b.

Definition secp256k1_fe_sqr (a : fe) : fe := secp256k1_fe_sqr_inner a.

Definition secp256k1_fe_cmov (r a : fe) (flag : bool) : fe :=
  let mask0 := u32 (b2z flag + not32 0) in
  let mask1 := not32 mask0 in
  let f x y := (x .& mask0) .| (y .& mask1) in
  Fe (f (n0 r) (n0 a)) (f (n1 r) (n1 a)) (f (n2 r) (n2 a)) (f (n3 r) (n3 a))
     (f (n4 r) (n4 a)) (f (n5 r) (n5 a)) (f (n6 r) (n6 a)) (f (n7 r) (n7 a))
     (f (n8 r) (n8 a)) (f (n9 r) (n9 a)).

Definition secp256k1_fe_storage_cmov (r a : fe_storage) (flag : bool) : fe_storage :=
  let mask0 := u32 (b2z flag + not32 0) in
  let mask1 := not32 mask0 in
  let f x y := (x .& mask0) .| (y .& mask1) in
  FeStorage (f (st0 r) (st0 a)) (f (st1 r) (st1 a)) (f (st2 r) (st2 a)) (f (st3 r) (st3 a))
    (f (st4 r) (st4 a)) (f (st5 r) (st5 a)) (f (st6 r) (st6 a)) (f (st7 r) (st7 a)).

Definition secp256k1_fe_to_storage (a : fe) : fe_storage :=
  FeStorage (n0 a .| u32 (n1 a << 26))
            ((n1 a >> 6) .| u32 (n2 a << 20))
            ((n2 a >> 12) .| u32 (n3 a << 14))
            ((n3 a >> 18) .| u32 (n4 a << 8))
            (((n4 a >> 24) .| u32 (n5 a << 2)) .| u32 (n6 a << 28))
            ((n6 a >> 4) .| u32 (n7 a << 22))
            ((n7 a >> 10) .| u32 (n8 a << 16))
            ((n8 a >> 16) .| u32 (n9 a << 10)).

Definition secp256k1_fe_from_storage (a : fe_storage) : fe :=
  Fe (st0 a .& 0x3FFFFFF)
     ((st0 a >> 26) .| (u32 (st1 a << 6) .& 0x3FFFFFF))
     ((st1 a >> 20) .| (u32 (st2 a << 12) .& 0x3FFFFFF))
     ((st2 a >> 14) .| (u32 (st3 a << 18) .& 0x3FFFFFF))
     ((st3 a >> 8) .| (u32 (st4 a << 24) .& 0x3FFFFFF))
     ((st4 a >> 2) .& 0x3FFFFFF)
     ((st4 a >> 28) .| (u32 (st5 a << 4) .& 0x3FFFFFF))
     ((st5 a >> 22) .| (u32 (st6 a << 10) .& 0x3FFFFFF))
     ((st6 a >> 16) .| (u32 (st7 a << 16) .& 0x3FFFFFF))
     (st7 a >> 10).

(** ** Value, magnitude and normal form *)

Definition fe_val (a : fe) : Z :=
  n0 a + n1 a * 2 ^ 26 + n2 a * 2 ^ 52 + n3 a * 2 ^ 78 + n4 a * 2 ^ 104 + n5 a * 2 ^ 130
  + n6 a * 2 ^ 156 + n7 a * 2 ^ 182 + n8 a * 2 ^ 208 + n9 a * 2 ^ 234.

(** Magnitude [m]: every limb is at most [2 m] times the largest limb of a
    normalised element. *)
Record fe_mag (a : fe) (m : Z) : Prop := {
  mag_nonneg : 0 <= m;
  mag0 : 0 <= n0 a <= 0x3FFFFFF * (2 * m);
  mag1 : 0 <= n1 a <= 0x3FFFFFF * (2 * m);
  mag2 : 0 <= n2 a <= 0x3FFFFFF * (2 * m);
  mag3 : 0 <= n3 a <= 0x3FFFFFF * (2 * m);
  mag4 : 0 <= n4 a <= 0x3FFFFFF * (2 * m);
  mag5 : 0 <= n5 a <= 0x3FFFFFF * (2 * m);
  mag6 : 0 <= n6 a <= 0x3FFFFFF * (2 * m);
  mag7 : 0 <= n7 a <= 0x3FFFFFF * (2 * m);
  mag8 : 0 <= n8 a <= 0x3FFFFFF * (2 * m);
  mag9 : 0 <= n9 a <= 0x03FFFFF * (2 * m)
}.

(** The limbs of a value below 2^256, in words of their size. *)
Record fe_words (a : fe) : Prop := {
  word0 : Bounded (n0 a) 0x3FFFFFF;
  word1 : Bounded (n1 a) 0x3FFFFFF;
  word2 : Bounded (n2 a) 0x3FFFFFF;
  word3 : Bounded (n3 a) 0x3FFFFFF;
  word4 : Bounded (n4 a) 0x3FFFFFF;
  word5 : Bounded (n5 a) 0x3FFFFFF;
  word6 : Bounded (n6 a) 0x3FFFFFF;
  word7 : Bounded (n7 a) 0x3FFFFFF;
  word8 : Bounded (n8 a) 0x3FFFFFF;
  word9 : Bounded (n9 a) 0x03FFFFF
}.

Record fe_norm (a : fe) : Prop := {
  norm_words : fe_words a;
  norm_val : fe_val a < p
}.

Ltac limbs := cbn [n0 n1 n2 n3 n4 n5 n6 n7 n8 n9] in *.

Lemma fe32_mag_le a m m' : fe_mag a m -> m <= m' -> fe_mag a m'.
Proof. intros [] ?. split; lia. Qed.

Lemma fe_words_mag a : fe_words a -> fe_mag a 1.
Proof. intros []. unfold Bounded in *. split; lia. Qed.

Lemma fe32_norm_mag a : fe_norm a -> fe_mag a 1.
Proof. intros []. now apply fe_words_mag. Qed.

Lemma fe_words_range a : fe_words a -> 0 <= fe_val a < 2 ^ 256.
Proof. intros []. unfold Bounded, fe_val in *. lia. Qed.

(** The intervals of the limbs at a concrete magnitude. *)
Lemma fe32_mag_bounds a m m' : fe_mag a m -> m <= m' ->
  Bounded (n0 a) (0x3FFFFFF * (2 * m')) /\ Bounded (n1 a) (0x3FFFFFF * (2 * m')) /\
  Bounded (n2 a) (0x3FFFFFF * (2 * m')) /\ Bounded (n3 a) (0x3FFFFFF * (2 * m')) /\
  Bounded (n4 a) (0x3FFFFFF * (2 * m')) /\ Bounded (n5 a) (0x3FFFFFF * (2 * m')) /\
  Bounded (n6 a) (0x3FFFFFF * (2 * m')) /\ Bounded (n7 a) (0x3FFFFFF * (2 * m')) /\
  Bounded (n8 a) (0x3FFFFFF * (2 * m')) /\ Bounded (n9 a) (0x03FFFFF * (2 * m')).
Proof. intros [] ?. unfold Bounded. repeat split; lia. Qed.

Ltac mag_bounds H m :=
  let H' := fresh in
  pose proof (fe32_mag_bounds _ _ m H ltac:(lia)) as H';
  destruct H' as (? & ? & ? & ? & ? & ? & ? & ? & ? & ?); eval_bounds.

(** Only the equations of the variables are left, to be substituted. *)
Ltac drop_bounds :=
  repeat match goal with
  | H : Bounded _ _ |- _ => clear H
  | H : _ / _ = _ |- _ => clear H
  | H : _ mod _ = _ |- _ => clear H
  | H : fe_mag _ _ |- _ => clear H
  end.

(** Only the intervals of the variables are left. *)
Ltac drop_equations := repeat match goal with H : @eq Z _ _ |- _ => clear H end.

(** ** Multiplication is multiplication modulo [p] *)

Lemma inner_end_correct c d u t0 t1 t2 t3 t4 t5 t6 t7 t9 :
  Bounded c 0x9000016FBFFFC2F8 -> Bounded d 0x4000000 -> Bounded u 0x3FFFFFF ->
  Bounded t0 0x3FFFFFF -> Bounded t1 0x3FFFFFF -> Bounded t2 0x3FFFFFF ->
  Bounded t3 0x3FFFFFF -> Bounded t4 0x3FFFFFF -> Bounded t5 0x3FFFFFF ->
  Bounded t6 0x3FFFFFF -> Bounded t7 0x3FFFFFF -> Bounded t9 0x3FFFFFF ->
  let r := inner_end c d u t0 t1 t2 t3 t4 t5 t6 t7 t9 in
  fe_mag r 1 /\ fe_val r =[p]=
    t0 + t1 * 2 ^ 26 + t2 * 2 ^ 52 + t3 * 2 ^ 78 + t4 * 2 ^ 104 + t5 * 2 ^ 130 + t6 * 2 ^ 156
    + t7 * 2 ^ 182 + c * 2 ^ 208 + (t9 + u * 0x400 + d * 0x3D10) * 2 ^ 234 + d * 0x400 * 2 ^ 260.
Proof.
  intros Bc Bd Bu ? ? ? ? ? ? ? ? ?. run inner_end. split.
  { split; limbs; by_bound || lia. }
  apply (cong_by (- c2)). unfold fe_val, p. limbs. subst. ring.
Qed.

(** The sum of the columns is the product: what moves from a column [k + 10] to
    the columns [k] and [k + 1] is a multiple of 16 [p]. *)
Ltac sum_of_columns u0 u1 u2 u3 u4 u5 u6 u7 u8 :=
  lazymatch goal with
  | |- wp _ (inner_end ?c ?d ?u ?t0 ?t1 ?t2 ?t3 ?t4 ?t5 ?t6 ?t7 ?t9) =>
    let M := fresh "M" in let V := fresh "V" in
    destruct (inner_end_correct c d u t0 t1 t2 t3 t4 t5 t6 t7 t9) as [M V];
    [by_bound..|];
    split; [exact M|]; etransitivity; [exact V|]; clear M V;
    apply (cong_by (- (16 * (u0 + u1 * 2 ^ 26 + u2 * 2 ^ 52 + u3 * 2 ^ 78 + u4 * 2 ^ 104
      + u5 * 2 ^ 130 + u6 * 2 ^ 156 + u7 * 2 ^ 182 + u8 * 2 ^ 208 + d * 2 ^ 234))));
    drop_bounds; unfold fe_val, p; subst; ring
  end.

Theorem fe32_mul_inner_correct a b : fe_mag a 8 -> fe_mag b 8 ->
  let r := secp256k1_fe_mul_inner a b in
  fe_mag r 1 /\ fe_val r =[p]= fe_val a * fe_val b.
Proof.
  intros Ha Hb. mag_bounds Ha 8. mag_bounds Hb 8. enter secp256k1_fe_mul_inner. wlets.
  cbv beta delta [mul_columns_4_7]. wlets. cbv beta delta [mul_column_8]. wlets.
  sum_of_columns u0 u1 u2 u3 u4 u5 u6 u7 u8'.
Qed.

Theorem fe32_sqr_inner_correct a : fe_mag a 8 ->
  let r := secp256k1_fe_sqr_inner a in
  fe_mag r 1 /\ fe_val r =[p]= fe_val a * fe_val a.
Proof.
  intros Ha. mag_bounds Ha 8. enter secp256k1_fe_sqr_inner. wlets.
  cbv beta delta [sqr_columns_4_7]. wlets. cbv beta delta [sqr_column_8]. wlets.
  sum_of_columns u0 u1 u2 u3 u4 u5 u6 u7 u8'.
Qed.
(** ** Normalisation *)

(** Two programs that share their first assignments are compared one
    assignment at a time: to unfold all of them would copy each limb twice per
    step of the carry chain. *)
Lemma let_left {A C} (e : A) (b : A -> C) (R : C) :
  (forall x, x = e -> b x = R) -> (let x := e in b x) = R.
Proof. intros H. now apply H. Qed.

Lemma let_right {A B C} (f : B -> C) (e : A) (c : A -> B) (L : C) :
  (forall x, x = e -> L = f (c x)) -> L = f (let x := e in c x).
Proof. intros H. now apply H. Qed.

Ltac next_let x E :=
  lazymatch goal with |- (let x := ?e in @?b x) = ?R => apply (let_left e b R) end;
  intros x E; cbv beta.

(** An assignment of the program on the left; flags and copies are expanded. *)
Ltac lets_left :=
  repeat (let x := fresh "x" in let E := fresh "E" in next_let x E;
    lazymatch type of E with
    | _ = Z.land _ ?m => tryif is_lit m then idtac else subst x
    | _ = Z.lor _ (b2z _) => idtac
    | _ = Z.lor _ _ => subst x
    | _ = Z.lxor _ _ => subst x
    | _ = ?e => tryif is_var e then subst x else idtac
    end).

(** The same assignment on the right is recognised by its equation. *)
Ltac lets_right f :=
  repeat (lazymatch goal with |- ?L = f (let x := ?e in @?c x) => apply (let_right f e c L) end;
    let x := fresh "x" in let E := fresh "E" in intros x E; cbv beta;
    cbn [n0 n1 n2 n3 n4 n5 n6 n7 n8 n9] in E;
    lazymatch type of E with _ = ?e =>
      tryif is_var e then idtac
      else match goal with H : ?y = e |- _ =>
        tryif constr_eq x y then fail else rewrite <- H in E | _ => idtac end end;
    subst x).

Ltac lets_right_top :=
  lazymatch goal with |- @eq ?T ?L ?R => change (L = @id T R); lets_right (@id T) end.

(** The second half of [secp256k1_fe_normalize], after the first carry pass. *)
Definition final_reduce (r : fe) : fe :=
  let t0 := n0 r in let t1 := n1 r in let t2 := n2 r in let t3 := n3 r in let t4 := n4 r in
  let t5 := n5 r in let t6 := n6 r in let t7 := n7 r in let t8 := n8 r in let t9 := n9 r in
  let x := (t9 >> 22) .| b2z ((t9 =? 0x03FFFFF)
      && (((((((t2 .& t3) .& t4) .& t5) .& t6) .& t7) .& t8) =? 0x3FFFFFF)
      && (0x3FFFFFF <? u32 (u32 (t1 + 0x40) + (u32 (t0 + 0x3D1) >> 26)))) in
  let t0 := u32 (t0 + x * 0x3D1) in let t1 := u32 (t1 + u32 (x << 6)) in
  let t1 := u32 (t1 + (t0 >> 26)) in let t0 := t0 .& 0x3FFFFFF in
  let t2 := u32 (t2 + (t1 >> 26)) in let t1 := t1 .& 0x3FFFFFF in
  let t3 := u32 (t3 + (t2 >> 26)) in let t2 := t2 .& 0x3FFFFFF in
  let t4 := u32 (t4 + (t3 >> 26)) in let t3 := t3 .& 0x3FFFFFF in
  let t5 := u32 (t5 + (t4 >> 26)) in let t4 := t4 .& 0x3FFFFFF in
  let t6 := u32 (t6 + (t5 >> 26)) in let t5 := t5 .& 0x3FFFFFF in
  let t7 := u32 (t7 + (t6 >> 26)) in let t6 := t6 .& 0x3FFFFFF in
  let t8 := u32 (t8 + (t7 >> 26)) in let t7 := t7 .& 0x3FFFFFF in
  let t9 := u32 (t9 + (t8 >> 26)) in let t8 := t8 .& 0x3FFFFFF in
  let t9 := t9 .& 0x03FFFFF in
  Fe t0 t1 t2 t3 t4 t5 t6 t7 t8 t9.

Lemma normalize_split_w26 r :
  secp256k1_fe_normalize r = final_reduce (secp256k1_fe_normalize_weak r).
Proof.
  cbv beta delta [secp256k1_fe_normalize secp256k1_fe_normalize_weak]. lets_left.
  lets_right final_reduce. cbv beta delta [final_reduce]. 
  lets_right_top. reflexivity.
Qed.

(** The state between the two passes: words, but for a carry in the last. *)
Record half_norm (a : fe) : Prop := {
  half0 : Bounded (n0 a) 0x3FFFFFF;
  half1 : Bounded (n1 a) 0x3FFFFFF;
  half2 : Bounded (n2 a) 0x3FFFFFF;
  half3 : Bounded (n3 a) 0x3FFFFFF;
  half4 : Bounded (n4 a) 0x3FFFFFF;
  half5 : Bounded (n5 a) 0x3FFFFFF;
  half6 : Bounded (n6 a) 0x3FFFFFF;
  half7 : Bounded (n7 a) 0x3FFFFFF;
  half8 : Bounded (n8 a) 0x3FFFFFF;
  half9 : Bounded (n9 a) 0x40003F;
  half_val : fe_val a < 2 ^ 256 + 2 ^ 240
}.

Lemma first_pass_w26 a : fe_mag a 31 ->
  let r := secp256k1_fe_normalize_weak a in
  half_norm r /\ fe_val r =[p]= fe_val a.
Proof.
  intros Ha. mag_bounds Ha 31. run secp256k1_fe_normalize_weak. split.
  - split; limbs; try by_bound. drop_equations. unfold fe_val, Bounded in *. limbs. lia.
  - apply (cong_by (- q)). drop_bounds. unfold fe_val, p. limbs. subst. ring.
Qed.

(** A conjunction of words is all ones only when each word is. *)
Lemma fold_land_ones l : forall x, 0 <= x <= 0x3FFFFFF -> Forall (fun y => 0 <= y <= 0x3FFFFFF) l ->
  fold_left Z.land l x = 0x3FFFFFF <-> x = 0x3FFFFFF /\ Forall (eq 0x3FFFFFF) l.
Proof.
  induction l as [|y l IH]; intros x Hx Hl; cbn [fold_left].
  { split; [|tauto]. intros E. now split. }
  inversion_clear Hl as [|? ? Hy Hl']. pose proof (land_ub x y) as U. rewrite IH by (assumption || lia).
  pose proof (land_eq_ones x y 26 ltac:(lia) ltac:(lia) ltac:(lia)) as L.
  change (2 ^ 26 - 1) with 0x3FFFFFF in L. rewrite L, Forall_cons_iff.
  split; [intros [[-> ->] ?]|intros [-> [<- ?]]]; auto.
Qed.

Lemma fold_land_le l : forall x, 0 <= x -> fold_left Z.land l x <= x.
Proof.
  induction l as [|y l IH]; intros x Hx; cbn [fold_left]; [lia|].
  pose proof (land_ub x y Hx). specialize (IH (x .& y)). lia.
Qed.

Lemma land7_ones a b c d e f g :
  Bounded a 0x3FFFFFF -> Bounded b 0x3FFFFFF -> Bounded c 0x3FFFFFF -> Bounded d 0x3FFFFFF ->
  Bounded e 0x3FFFFFF -> Bounded f 0x3FFFFFF -> Bounded g 0x3FFFFFF ->
  (((((a .& b) .& c) .& d) .& e) .& f) .& g = 0x3FFFFFF <->
  a = 0x3FFFFFF /\ b = 0x3FFFFFF /\ c = 0x3FFFFFF /\ d = 0x3FFFFFF /\ e = 0x3FFFFFF /\
  f = 0x3FFFFFF /\ g = 0x3FFFFFF.
Proof.
  unfold Bounded. intros. change ((((((a .& b) .& c) .& d) .& e) .& f) .& g)
    with (fold_left Z.land [b; c; d; e; f; g] a).
  rewrite fold_land_ones.
  - rewrite !Forall_cons_iff, Forall_nil_iff. clear. lia.
  - assumption.
  - repeat first [assumption | constructor].
Qed.

(** The sum that decides between the two lowest words. *)
Lemma low_words a b : Bounded a 0x3FFFFFF -> Bounded b 0x3FFFFFF ->
  (0x3FFFFFF <? u32 (u32 (b + 0x40) + (u32 (a + 0x3D1) >> 26)))
    = (0x3FFFFBF * 2 ^ 26 + 0x3FFFC2F <=? a + b * 2 ^ 26).
Proof.
  unfold Bounded. intros. rewrite (shr_lit _ 26 0x4000000 eq_refl eq_refl).
  unfold u32. apply eq_true_iff_eq. rewrite Z.ltb_lt, Z.leb_le. dlia.
Qed.

(** The flag [x] of the final reduction says whether the value reaches [p]. *)
Lemma reduce_flag_w26 r : half_norm r ->
  (n9 r >> 22) .| b2z ((n9 r =? 0x03FFFFF)
      && (((((((n2 r .& n3 r) .& n4 r) .& n5 r) .& n6 r) .& n7 r) .& n8 r) =? 0x3FFFFFF)
      && (0x3FFFFFF <? u32 (u32 (n1 r + 0x40) + (u32 (n0 r + 0x3D1) >> 26)))) = b2z (p <=? fe_val r).
Proof.
  intros [H0 H1 H2 H3 H4 H5 H6 H7 H8 H9 Hv]. rewrite (low_words _ _ H0 H1).
  pose proof (land7_ones _ _ _ _ _ _ _ H2 H3 H4 H5 H6 H7 H8) as M. unfold Bounded in *.
  rewrite (shr_lit _ 22 0x400000 eq_refl eq_refl). unfold fe_val, p in *.
  assert (E : n9 r < 0x400000 /\ n9 r / 0x400000 = 0 \/
    0x400000 <= n9 r /\ n9 r / 0x400000 = 1) by dlia.
  destruct (Z.eqb_spec (n9 r) 0x03FFFFF) as [A|A];
    destruct (Z.eqb_spec ((((((n2 r .& n3 r) .& n4 r) .& n5 r) .& n6 r) .& n7 r) .& n8 r)
      0x3FFFFFF) as [B|B]; rewrite M in B; clear M;
    destruct (Z.leb_spec (0x3FFFFBF * 2 ^ 26 + 0x3FFFC2F) (n0 r + n1 r * 2 ^ 26));
    destruct E as [[E1 E]|[E1 E]]; rewrite E; clear E; cbn [b2z andb];
    match goal with |- context [?x <=? ?y] => destruct (Z.leb_spec x y) end;
    try reflexivity; exfalso; lia.
Qed.

Lemma final_reduce_correct_w26 a : half_norm a ->
  let r := final_reduce a in fe_norm r /\ fe_val r = fe_val a mod p.
Proof.
  intros Ha. pose proof Ha as [? ? ? ? ? ? ? ? ? ? Hv]. pose proof (reduce_flag_w26 a Ha) as Hx.
  enter final_reduce. do 10 wlet. subst t0 t1 t2 t3 t4 t5 t6 t7 t8 t9.
  wtake x Ex. rewrite Hx in Ex. clear Hx.
  assert (Bx : Bounded x 1) by (subst x; apply bounded_b2z).
  assert (Hxv : x = 1 /\ p <= fe_val a \/ x = 0 /\ fe_val a < p).
  { subst x. destruct (Z.leb_spec p (fe_val a)); cbn; tauto. }
  clear Ex. wlets. cbv beta delta [wp].
  match goal with |- fe_norm ?e /\ _ => set (r := e) end.
  assert (W : fe_words r) by (split; unfold r; limbs; by_bound).
  pose proof (fe_words_range r W) as R.
  assert (V : fe_val r = fe_val a + x * 0x1000003D1 - q8 * 2 ^ 256).
  { drop_bounds. unfold r, fe_val. limbs. subst. ring. }
  assert (E : fe_val r < p /\ fe_val r = fe_val a - x * p).
  { clear - Hxv V R Hv Hq8. unfold Bounded, p in *. lia. }
  destruct E as [Hlt Heq]. split; [now split|].
  apply cong_mod_small; [|lia]. now apply (cong_by (- x)); lia.
Qed.

Theorem fe32_normalize_correct a : fe_mag a 31 ->
  let r := secp256k1_fe_normalize a in fe_norm r /\ fe_val r = fe_val a mod p.
Proof.
  intros Ha. cbv zeta. rewrite normalize_split_w26.
  destruct (first_pass_w26 a Ha) as [H1 H2].
  destruct (final_reduce_correct_w26 _ H1) as [H3 ->]. split; [exact H3|].
  now apply cong_iff.
Qed.

Theorem fe32_normalize_weak_correct a : fe_mag a 31 ->
  let r := secp256k1_fe_normalize_weak a in fe_mag r 1 /\ fe_val r =[p]= fe_val a.
Proof.
  intros Ha. destruct (first_pass_w26 a Ha) as [[] H]. split; [|exact H].
  unfold Bounded in *. split; lia.
Qed.

(** The variable-time normalisation computes the same element. *)

Definition final_reduce_var (r : fe) : fe :=
  let t0 := n0 r in let t1 := n1 r in let t2 := n2 r in let t3 := n3 r in let t4 := n4 r in
  let t5 := n5 r in let t6 := n6 r in let t7 := n7 r in let t8 := n8 r in let t9 := n9 r in
  let x := (t9 >> 22) .| b2z ((t9 =? 0x03FFFFF)
      && (((((((t2 .& t3) .& t4) .& t5) .& t6) .& t7) .& t8) =? 0x3FFFFFF)
      && (0x3FFFFFF <? u32 (u32 (t1 + 0x40) + (u32 (t0 + 0x3D1) >> 26)))) in
  if negb (x =? 0) then
    let t0 := u32 (t0 + 0x3D1) in let t1 := u32 (t1 + u32 (x << 6)) in
    let t1 := u32 (t1 + (t0 >> 26)) in let t0 := t0 .& 0x3FFFFFF in
    let t2 := u32 (t2 + (t1 >> 26)) in let t1 := t1 .& 0x3FFFFFF in
    let t3 := u32 (t3 + (t2 >> 26)) in let t2 := t2 .& 0x3FFFFFF in
    let t4 := u32 (t4 + (t3 >> 26)) in let t3 := t3 .& 0x3FFFFFF in
    let t5 := u32 (t5 + (t4 >> 26)) in let t4 := t4 .& 0x3FFFFFF in
    let t6 := u32 (t6 + (t5 >> 26)) in let t5 := t5 .& 0x3FFFFFF in
    let t7 := u32 (t7 + (t6 >> 26)) in let t6 := t6 .& 0x3FFFFFF in
    let t8 := u32 (t8 + (t7 >> 26)) in let t7 := t7 .& 0x3FFFFFF in
    let t9 := u32 (t9 + (t8 >> 26)) in let t8 := t8 .& 0x3FFFFFF in
    let t9 := t9 .& 0x03FFFFF in
    Fe t0 t1 t2 t3 t4 t5 t6 t7 t8 t9
  else
    Fe t0 t1 t2 t3 t4 t5 t6 t7 t8 t9.

Lemma normalize_var_split r :
  secp256k1_fe_normalize_var r = final_reduce_var (secp256k1_fe_normalize_weak r).
Proof.
  cbv beta delta [secp256k1_fe_normalize_var secp256k1_fe_normalize_weak]. lets_left.
  lets_right final_reduce_var. cbv beta delta [final_reduce_var].
  lets_right_top. reflexivity.
Qed.

(** Nothing is carried by words. *)
Lemma carry_none x y : Bounded x 0x3FFFFFF -> Bounded y 0x3FFFFFF -> u32 (y + (x >> 26)) = y.
Proof.
  unfold Bounded. intros. rewrite (shr_lit _ 26 0x4000000 eq_refl eq_refl).
  rewrite Z.div_small, Z.add_0_r by lia. apply u32_id. lia.
Qed.

Lemma mask_word x : Bounded x 0x3FFFFFF -> x .& 0x3FFFFFF = x.
Proof.
  unfold Bounded. intros. rewrite (land_mask_lit _ _ 26 0x4000000) by reflexivity.
  apply Z.mod_small. lia.
Qed.

Lemma final_reduce_words r : half_norm r -> fe_val r < p -> final_reduce r = r.
Proof.
  intros H Hp. pose proof (reduce_flag_w26 r H) as Hx. apply Z.leb_gt in Hp as E. rewrite E in Hx.
  assert (W : n9 r < 2 ^ 22) by (destruct H; unfold fe_val, p, Bounded in *; lia).
  destruct H as [H0 H1 H2 H3 H4 H5 H6 H7 H8 H9 _].
  assert (H9' : Bounded (n9 r) 0x3FFFFF) by (unfold Bounded in *; lia).
  assert (H9'' : Bounded (n9 r) 0x3FFFFFF) by (unfold Bounded in *; lia).
  cbv beta delta [final_reduce]. do 10 (next_let t Et; subst t).
  next_let x Ex. rewrite Hx in Ex. cbn [b2z] in Ex. subst x.
  assert (Z0 : forall y, Bounded y 0x3FFFFFF -> u32 (y + 0) = y).
  { intros y Hy. rewrite Z.add_0_r. apply u32_id. unfold Bounded in Hy. lia. }
  change (u32 (0 << 6)) with 0. change (0 * 0x3D1) with 0.
  do 2 (next_let t Et; rewrite Z0 in Et by assumption; subst t).
  do 9 (next_let t Et; rewrite carry_none in Et by assumption; subst t;
        next_let t Et; rewrite mask_word in Et by assumption; subst t).
  next_let t Et. rewrite (land_mask_lit _ _ 22 0x400000), Z.mod_small in Et by
    (reflexivity || (unfold Bounded in *; lia)).
  subst t. now destruct r.
Qed.

Theorem fe32_normalize_var_correct a : fe_mag a 31 ->
  secp256k1_fe_normalize_var a = secp256k1_fe_normalize a.
Proof.
  intros Ha. rewrite normalize_split_w26, normalize_var_split.
  destruct (first_pass_w26 a Ha) as [H _]. revert H.
  generalize (secp256k1_fe_normalize_weak a). clear. intros r H.
  destruct (Z.lt_ge_cases (fe_val r) p) as [L|L].
  - rewrite final_reduce_words by assumption. cbv beta delta [final_reduce_var].
    do 10 (next_let t Et; subst t). next_let x Ex. rewrite (reduce_flag_w26 r H) in Ex.
    apply Z.leb_gt in L. rewrite L in Ex. subst x. now destruct r.
  - cbv beta delta [final_reduce_var final_reduce].
    do 10 (next_let t Et; subst t). next_let x Ex.
    assert (X : x = 1).
    { rewrite Ex, (reduce_flag_w26 r H). apply Z.leb_le in L. now rewrite L. }
    replace (x =? 0) with false by (now rewrite X). change (negb false) with true. cbv iota.
    next_let t Et. replace (n0 r + 0x3D1) with (n0 r + x * 0x3D1) in Et by lia.
    clear X L H. lets_left.
    lets_right_top. reflexivity.
Qed.

(** ** Zero tests *)

(** The last lines of [secp256k1_fe_normalizes_to_zero]. *)
Definition zero_or_p (r : fe) : bool :=
  let z0 := ((((((((n0 r .| n1 r) .| n2 r) .| n3 r) .| n4 r) .| n5 r) .| n6 r) .| n7 r)
              .| n8 r) .| n9 r in
  let z1 := (((((((((n0 r .^ 0x3D0) .& (n1 r .^ 0x40)) .& n2 r) .& n3 r) .& n4 r) .& n5 r)
              .& n6 r) .& n7 r) .& n8 r) .& (n9 r .^ 0x3C00000) in
  (z0 =? 0) || (z1 =? 0x3FFFFFF).

Lemma normalizes_to_zero_split_w26 r :
  secp256k1_fe_normalizes_to_zero r = zero_or_p (secp256k1_fe_normalize_weak r).
Proof.
  cbv beta delta [secp256k1_fe_normalizes_to_zero secp256k1_fe_normalize_weak]. lets_left.
  lets_right zero_or_p. reflexivity.
Qed.

Lemma zero_or_p_correct_w26 r : half_norm r -> zero_or_p r = (fe_val r mod p =? 0).
Proof.
  intros [H0 H1 H2 H3 H4 H5 H6 H7 H8 H9 Hv].
  assert (B0 := @bounded_lxor _ _ _ _ H0 (bounded_pos 0x3D0)).
  assert (B1 := @bounded_lxor _ _ _ _ H1 (bounded_pos 0x40)).
  assert (B9 := @bounded_lxor _ _ _ _ H9 (bounded_pos 0x3C00000)).
  eval_bounds. unfold Bounded in *. unfold zero_or_p.
  set (u0 := n0 r .^ 0x3D0) in *. set (u1 := n1 r .^ 0x40) in *.
  set (u9 := n9 r .^ 0x3C00000) in *.
  assert (M : (((((((((u0 .& u1) .& n2 r) .& n3 r) .& n4 r) .& n5 r) .& n6 r) .& n7 r) .& n8 r)
    .& u9) = 0x3FFFFFF <-> u0 = 0x3FFFFFF /\ Forall (eq 0x3FFFFFF)
      [u1; n2 r; n3 r; n4 r; n5 r; n6 r; n7 r; n8 r; u9]).
  { apply (fold_land_ones [u1; n2 r; n3 r; n4 r; n5 r; n6 r; n7 r; n8 r; u9]); [assumption|].
    repeat first [assumption | constructor]. }
  apply eq_true_iff_eq. rewrite orb_true_iff, !Z.eqb_eq, !lor_eq_0, M. clear M.
  rewrite !Forall_cons_iff, Forall_nil_iff. clear B0 B1 B9. unfold u0, u1, u9.
  rewrite !(Z.eq_sym_iff 0x3FFFFFF), !lxor_move.
  change (0x3FFFFFF .^ 0x3D0) with 0x3FFFC2F. change (0x3FFFFFF .^ 0x40) with 0x3FFFFBF.
  change (0x3FFFFFF .^ 0x3C00000) with 0x03FFFFF. clear u0 u1 u9.
  assert (E : fe_val r mod p = 0 <-> fe_val r = 0 \/ fe_val r = p).
  { assert (Hn : 0 <= fe_val r) by (unfold fe_val; lia).
    clear - Hn Hv. unfold p in *. dlia. }
  rewrite E. clear E Hv. unfold fe_val, p. lia.
Qed.

Theorem fe32_normalizes_to_zero_correct a : fe_mag a 31 ->
  secp256k1_fe_normalizes_to_zero a = (fe_val a mod p =? 0).
Proof.
  intros Ha. rewrite normalizes_to_zero_split_w26.
  destruct (first_pass_w26 a Ha) as [H1 H2].
  rewrite zero_or_p_correct_w26 by exact H1. now apply cong_iff in H2 as ->.
Qed.

(** The early return is taken only when the full test would fail. *)
Lemma zero_low_word r : secp256k1_fe_normalizes_to_zero r = true ->
  let z0 := u32 (n0 r + (n9 r >> 22) * 0x3D1) .& 0x3FFFFFF in
  z0 = 0 \/ z0 .^ 0x3D0 = 0x3FFFFFF.
Proof.
  rewrite normalizes_to_zero_split_w26. cbv zeta.
  change (u32 (n0 r + (n9 r >> 22) * 0x3D1) .& 0x3FFFFFF) with (n0 (secp256k1_fe_normalize_weak r)).
  assert (B : Bounded (n0 (secp256k1_fe_normalize_weak r)) 0x3FFFFFF).
  { change (n0 (secp256k1_fe_normalize_weak r))
      with (u32 (n0 r + (n9 r >> 22) * 0x3D1) .& 0x3FFFFFF).
    rewrite (land_mask_lit _ _ 26 0x4000000) by reflexivity. apply (bounded_mod _ 0x4000000). }
  revert B. generalize (secp256k1_fe_normalize_weak r). clear r. intros r B.
  assert (B0 := @bounded_lxor _ _ _ _ B (bounded_pos 0x3D0)). eval_bounds.
  unfold zero_or_p. rewrite orb_true_iff, !Z.eqb_eq, !lor_eq_0. intros [Hz|Hz]; [left; tauto|right].
  set (u0 := n0 r .^ 0x3D0) in *. unfold Bounded in *.
  pose proof (fold_land_le [n1 r .^ 0x40; n2 r; n3 r; n4 r; n5 r; n6 r; n7 r; n8 r;
    n9 r .^ 0x3C00000] u0 ltac:(lia)) as L. cbn [fold_left] in L. lia.
Qed.

Theorem fe32_normalizes_to_zero_var_correct r :
  secp256k1_fe_normalizes_to_zero_var r = secp256k1_fe_normalizes_to_zero r.
Proof.
  cbv beta delta [secp256k1_fe_normalizes_to_zero_var]. lets_left.
  match goal with |- (if ?b then _ else _) = _ => destruct b eqn:Ec end.
  - subst. symmetry. apply not_true_iff_false. intros H. apply zero_low_word in H.
    rewrite andb_true_iff, !negb_true_iff, !Z.eqb_neq in Ec. tauto.
  - clear Ec. cbv beta delta [secp256k1_fe_normalizes_to_zero]. lets_left.
    lets_right_top. reflexivity.
Qed.

(** ** Conversion from and to big-endian bytes *)

(** The limbs of an integer. *)
Definition fe_of_Z (v : Z) : fe :=
  Fe (dig 26 v 0) (dig 26 v 1) (dig 26 v 2) (dig 26 v 3) (dig 26 v 4)
     (dig 26 v 5) (dig 26 v 6) (dig 26 v 7) (dig 26 v 8) (dig 26 v 9).

Lemma fe32_val_of_Z v : 0 <= v < 2 ^ 256 -> fe_val (fe_of_Z v) = v.
Proof.
  intros Hv. unfold fe_val, fe_of_Z. limbs.
  assert (D : forall k, 0 <= k -> v / 2 ^ (26 * k) = dig 26 v k + 2 ^ 26 * (v / 2 ^ (26 * (k + 1))))
    by (intros; apply dig_step; lia).
  pose proof (D 0 ltac:(lia)) as D0. pose proof (D 1 ltac:(lia)). pose proof (D 2 ltac:(lia)).
  pose proof (D 3 ltac:(lia)). pose proof (D 4 ltac:(lia)). pose proof (D 5 ltac:(lia)).
  pose proof (D 6 ltac:(lia)). pose proof (D 7 ltac:(lia)). pose proof (D 8 ltac:(lia)). clear D.
  replace (dig 26 v 9) with (v / 2 ^ (26 * 9)).
  2:{ unfold dig. rewrite Z.mod_small; [reflexivity|].
      split; [apply Z.div_pos; lia|apply Z.div_lt_upper_bound; lia]. }
  change (26 * 0) with 0 in D0. rewrite Z.div_1_r in D0.
  cbn [Z.add Pos.add Z.mul Pos.mul Pos.succ] in *. clear Hv.
  repeat match goal with |- context [v / ?m] => generalize dependent (v / m); intros end.
  lia.
Qed.

Lemma fe_of_Z_words v : 0 <= v < 2 ^ 256 -> fe_words (fe_of_Z v).
Proof.
  intros Hv. assert (D : forall k, Bounded (dig 26 v k) 0x3FFFFFF).
  { intros k. pose proof (dig_range 26 v k ltac:(lia)). unfold Bounded. lia. }
  unfold fe_of_Z. split; limbs; try apply D.
  unfold dig. rewrite Z.mod_small.
  - unfold Bounded. enough (0 <= v / 2 ^ (26 * 9) < 2 ^ 22) by lia.
    split; [apply Z.div_pos; lia|apply Z.div_lt_upper_bound; lia].
  - split; [apply Z.div_pos; lia|apply Z.div_lt_upper_bound; lia].
Qed.

Lemma low_digit x X y Y : Bounded x 0x3FFFFFF -> Bounded y 0x3FFFFFF ->
  x + 2 ^ 26 * X = y + 2 ^ 26 * Y -> x = y /\ X = Y.
Proof. unfold Bounded. lia. Qed.

Lemma fe_val_horner a : fe_val a = n0 a + 2 ^ 26 * (n1 a + 2 ^ 26 * (n2 a + 2 ^ 26 * (n3 a
  + 2 ^ 26 * (n4 a + 2 ^ 26 * (n5 a + 2 ^ 26 * (n6 a + 2 ^ 26 * (n7 a + 2 ^ 26 * (n8 a
  + 2 ^ 26 * n9 a)))))))).
Proof. unfold fe_val. ring. Qed.

(** A number has one way to be written in words. *)
Lemma fe_words_inj a b : fe_words a -> fe_words b -> fe_val a = fe_val b -> a = b.
Proof.
  intros [] [] E. rewrite !fe_val_horner in E. destruct a, b. limbs.
  repeat (apply low_digit in E as [? E]; [|assumption..]). congruence.
Qed.

Lemma fe32_of_Z_val a : fe_words a -> fe_of_Z (fe_val a) = a.
Proof.
  intros Ha. pose proof (fe_words_range a Ha). apply fe_words_inj; [now apply fe_of_Z_words|exact Ha|].
  now apply fe32_val_of_Z.
Qed.

Lemma fe32_norm_inj a b : fe_norm a -> fe_norm b -> fe_val a = fe_val b -> a = b.
Proof. intros [] []. now apply fe_words_inj. Qed.

Lemma limb_of_Z_w26 v l : 0 <= l <= 9 -> limb (fe_of_Z v) l = dig 26 v l.
Proof.
  intros H. assert (l = 0 \/ l = 1 \/ l = 2 \/ l = 3 \/ l = 4 \/ l = 5 \/ l = 6 \/ l = 7 \/
    l = 8 \/ l = 9) as Hl by lia.
  repeat destruct Hl as [Hl|Hl]; subst l; reflexivity.
Qed.

(** Two bits of the loop. *)
Lemma fe32_fill V T : 0 <= T -> T mod 26 + 2 <= 26 -> T / 26 <= 9 ->
  set_limb (fe_of_Z (V mod 2 ^ T)) (T / 26)
    (limb (fe_of_Z (V mod 2 ^ T)) (T / 26)
     .| u32 (((V / 2 ^ T) mod 2 ^ 2) << (T mod 26)))
  = fe_of_Z (V mod 2 ^ (T + 2)).
Proof.
  intros HT Hs Hl. pose proof (Z.div_pos T 26 HT ltac:(lia)).
  pose proof (Z.mod_pos_bound T 26 ltac:(lia)).
  pose proof (Z.mod_pos_bound (V / 2 ^ T) (2 ^ 2) ltac:(lia)).
  assert (2 ^ (T mod 26) <= 2 ^ 24) by (apply Z.pow_le_mono_r; lia).
  rewrite (u32_id (_ << _)).
  2:{ rewrite Z.shiftl_mul_pow2 by lia. nia. }
  rewrite limb_of_Z_w26 by lia. unfold set_limb. cbv beta zeta.
  unfold fe_of_Z at 1 2 3 4 5 6 7 8 9 10. limbs.
  unfold fe_of_Z. rewrite !(dig_fill 26 V T 2) by lia.
  f_equal; match goal with |- (if ?i =? ?k then _ else _) = _ =>
    rewrite (Z.eqb_sym k i); destruct (Z.eqb_spec i k) as [E|E];
    try rewrite E; reflexivity end.
Qed.

Section SetB32.
Variable l : bytes.
Hypothesis Hl : Forall is_byte l.
Hypothesis Hlen : length l = 32%nat.

Lemma be_val_32_w26 : 0 <= be_val l < 2 ^ 256.
Proof. pose proof (be_val_range l Hl) as H. rewrite Hlen in H. exact H. Qed.

Lemma crumb_b32 i j : 0 <= i < 32 -> 0 <= j < 4 ->
  (at_ l (31 - i) >> (2 * j)) .& 0x3 = (be_val l / 2 ^ (8 * i + 2 * j)) mod 2 ^ 2.
Proof.
  intros Hi Hj. pose proof (be_val_nth l i Hl) as H. rewrite Hlen in H.
  change (Z.of_nat 32 - 1 - i) with (31 - i) in H. rewrite H by lia.
  replace (256 ^ i) with (2 ^ (8 * i)) by (rewrite Z.pow_mul_r by lia; reflexivity).
  rewrite (land_mask_lit _ 3 2 (2 ^ 2)) by reflexivity.
  apply (dig_sub 8 (be_val l) i (2 * j) 2); lia.
Qed.

Lemma set_b32_limbs_w26 :
  for_loop 32 (fun i r =>
    for_loop 4 (fun j r =>
      let l' := (8 * i + 2 * j) / 26 in
      let shift := (8 * i + 2 * j) mod 26 in
      set_limb r l' (limb r l' .|
        u32 (((at_ l (31 - i) >> (2 * j)) .& 0x3) << shift))) r)
  (Fe 0 0 0 0 0 0 0 0 0 0) = fe_of_Z (be_val l).
Proof.
  pose proof be_val_32_w26 as HV. rewrite <- (Z.mod_small _ _ HV).
  change 256 with (8 * Z.of_nat 32). pattern (Z.of_nat 32).
  match goal with |- (fun n => for_loop 32 ?b ?s = _) _ =>
    apply (for_loop_inv (fun n r => r = fe_of_Z (be_val l mod 2 ^ (8 * n))) b 32 s) end.
  { rewrite Z.mul_0_r, Z.mod_1_r. reflexivity. }
  intros i r Hi ->.
  replace (8 * (i + 1)) with (8 * i + 2 * Z.of_nat 4) by lia.
  pattern (Z.of_nat 4).
  match goal with |- (fun n => for_loop 4 ?b ?s = _) _ =>
    apply (for_loop_inv (fun n r => r = fe_of_Z (be_val l mod 2 ^ (8 * i + 2 * n))) b 4 s) end.
  { now rewrite Z.mul_0_r, Z.add_0_r. }
  intros j r Hj ->. cbv zeta. rewrite crumb_b32 by lia.
  replace (8 * i + 2 * (j + 1)) with (8 * i + 2 * j + 2) by lia.
  apply fe32_fill; dlia.
Qed.
End SetB32.

Lemma overflow_flag_w26 r : fe_words r ->
  (n9 r =? 0x3FFFFF)
    && (((((((n8 r .& n7 r) .& n6 r) .& n5 r) .& n4 r) .& n3 r) .& n2 r) =? 0x3FFFFFF)
    && (0x3FFFFFF <? u32 (u32 (n1 r + 0x40) + (u32 (n0 r + 0x3D1) >> 26))) = (p <=? fe_val r).
Proof.
  intros [H0 H1 H2 H3 H4 H5 H6 H7 H8 H9]. rewrite (low_words _ _ H0 H1).
  pose proof (land7_ones _ _ _ _ _ _ _ H8 H7 H6 H5 H4 H3 H2) as M. unfold Bounded in *.
  apply eq_true_iff_eq. rewrite !andb_true_iff, !Z.eqb_eq, !Z.leb_le, M. clear M.
  unfold fe_val, p. lia.
Qed.

Lemma fe32_norm_of_Z v : 0 <= v < p -> fe_norm (fe_of_Z v).
Proof.
  intros Hv. assert (Hv' : 0 <= v < 2 ^ 256) by (unfold p in *; lia).
  split; [now apply fe_of_Z_words|]. rewrite fe32_val_of_Z; lia.
Qed.

Theorem fe32_set_b32_correct l : Forall is_byte l -> length l = 32%nat ->
  secp256k1_fe_set_b32 l = (fe_of_Z (be_val l), be_val l <? p).
Proof.
  intros Hl Hlen. cbv beta delta [secp256k1_fe_set_b32].
  rewrite (set_b32_limbs_w26 l Hl Hlen). cbv zeta.
  pose proof (be_val_32_w26 l Hl Hlen) as HV.
  rewrite overflow_flag_w26 by now apply fe_of_Z_words. rewrite fe32_val_of_Z by assumption.
  rewrite Z.ltb_antisym. now destruct (p <=? be_val l).
Qed.

Lemma fe32_byte_correct a i : fe_words a -> 0 <= i < 32 ->
  fe_byte a i = (fe_val a / 2 ^ (8 * i)) mod 2 ^ 8.
Proof.
  intros Ha Hi. rewrite <- (fe32_of_Z_val a Ha) at 1. generalize (fe_val a). clear a Ha.
  intros v. unfold fe_byte, for_loop. cbn [for_from]. cbv zeta.
  assert (N : forall j, 0 <= j < 4 ->
    (limb (fe_of_Z v) ((8 * i + 2 * j) / 26) >> ((8 * i + 2 * j) mod 26)) .& 0x3
      = (v / 2 ^ (8 * i) / 4 ^ j) mod 4).
  { intros j Hj. rewrite limb_of_Z_w26 by dlia. rewrite (land_mask_lit _ 3 2 (2 ^ 2)) by reflexivity.
    rewrite dig_sub by dlia. change (2 ^ 2) with 4. replace (4 ^ j) with (2 ^ (2 * j)).
    - rewrite Z.div_div, <- Z.pow_add_r by (try apply Z.pow_nonzero; try apply Z.pow_pos_nonneg; lia).
      do 3 f_equal. dlia.
    - now rewrite Z.pow_mul_r by lia. }
  rewrite (N 0), (N (0 + 1)), (N (0 + 1 + 1)), (N (0 + 1 + 1 + 1)) by lia.
  generalize (v / 2 ^ (8 * i)). clear. intros w. rewrite Z.lor_0_l.
  cbn [Z.mul Z.add Pos.add Pos.succ Pos.mul]. rewrite Z.shiftl_0_r.
  change (w / 4 ^ 0) with (w / 1). change (4 ^ 1) with 4. change (4 ^ 2) with 16. change (4 ^ 3) with 64.
  rewrite Z.div_1_r, !shl_mul, (Z.lor_comm (w mod 4)) by reflexivity.
  rewrite (lor_disjoint _ 2), (Z.lor_comm (_ + _)), (lor_disjoint _ 4), (Z.lor_comm (_ + _)),
    (lor_disjoint _ 6) by dlia.
  change (2 ^ 8) with 256. change (2 ^ 2) with 4. change (2 ^ 4) with 16. change (2 ^ 6) with 64. dlia.
Qed.

Theorem fe32_get_b32_correct a : fe_norm a ->
  secp256k1_fe_get_b32 a = be_bytes 32 (fe_val a).
Proof.
  intros [Ha _]. unfold secp256k1_fe_get_b32. rewrite be_bytes_map.
  apply map_ext_in. intros k Hk. apply in_seq in Hk.
  rewrite fe32_byte_correct by (assumption || lia).
  change (2 ^ 8) with 256. unfold u8. rewrite Z.mod_mod by lia.
  replace (256 ^ (Z.of_nat 32 - 1 - Z.of_nat k)) with (2 ^ (8 * (31 - Z.of_nat k))).
  { reflexivity. }
  rewrite Z.pow_mul_r by lia. f_equal.
Qed.

(** ** The remaining operations *)

Theorem fe32_set_int_correct n : 0 <= n < 2 ^ 26 ->
  fe_norm (secp256k1_fe_set_int n) /\ fe_val (secp256k1_fe_set_int n) = n.
Proof.
  intros Hn. unfold secp256k1_fe_set_int. rewrite u32_id by lia.
  assert (V : fe_val (Fe n 0 0 0 0 0 0 0 0 0) = n) by (unfold fe_val; limbs; lia).
  split; [|exact V]. split; [|rewrite V; unfold p; lia].
  split; limbs; unfold Bounded; lia.
Qed.

Theorem fe32_is_zero_correct a : fe_norm a ->
  secp256k1_fe_is_zero a = (fe_val a =? 0).
Proof.
  intros [[H0 H1 H2 H3 H4 H5 H6 H7 H8 H9] _]. unfold secp256k1_fe_is_zero, Bounded in *.
  apply eq_true_iff_eq. rewrite !Z.eqb_eq, !lor_eq_0. unfold fe_val. lia.
Qed.

Theorem fe32_is_odd_correct a : fe_norm a ->
  secp256k1_fe_is_odd a = Z.odd (fe_val a).
Proof.
  intros _. unfold secp256k1_fe_is_odd. rewrite (land_mask_lit _ 1 1 2) by reflexivity.
  rewrite Zmod_odd, fe_val_horner. change (2 ^ 26) with (2 * 2 ^ 25).
  rewrite <- Z.mul_assoc, Z.odd_add_mul_2. now destruct (Z.odd (n0 a)).
Qed.

Theorem fe32_clear_correct a : secp256k1_fe_clear a = Fe 0 0 0 0 0 0 0 0 0 0.
Proof. reflexivity. Qed.

(** Numbers are compared from the most significant digit on. *)
Lemma compare_digit x X y Y : Bounded x 0x3FFFFFF -> Bounded y 0x3FFFFFF ->
  (x + 2 ^ 26 * X ?= y + 2 ^ 26 * Y) = match X ?= Y with Eq => x ?= y | c => c end.
Proof.
  unfold Bounded. intros.
  destruct (Z.compare_spec X Y), (Z.compare_spec x y),
    (Z.compare_spec (x + 2 ^ 26 * X) (y + 2 ^ 26 * Y)); reflexivity || lia.
Qed.

Theorem fe32_cmp_var_correct a b : fe_norm a -> fe_norm b ->
  secp256k1_fe_cmp_var a b =
    match fe_val a ?= fe_val b with Lt => -1 | Eq => 0 | Gt => 1 end.
Proof.
  intros [[] _] [[] _]. rewrite !fe_val_horner, !compare_digit by assumption.
  destruct a as [a0 a1 a2 a3 a4 a5 a6 a7 a8 a9], b as [b0 b1 b2 b3 b4 b5 b6 b7 b8 b9]. limbs.
  assert (S : forall x y rest, (if y <? x then 1 else if x <? y then -1 else rest)
    = match x ?= y with Lt => -1 | Eq => rest | Gt => 1 end).
  { intros x y rest. destruct (Z.compare_spec x y), (Z.ltb_spec y x), (Z.ltb_spec x y);
      reflexivity || lia. }
  unfold secp256k1_fe_cmp_var. cbn [fold_right]. rewrite !S. unfold limb, at_.
  change (Z.to_nat 9) with 9%nat. change (Z.to_nat 8) with 8%nat. change (Z.to_nat 7) with 7%nat.
  change (Z.to_nat 6) with 6%nat. change (Z.to_nat 5) with 5%nat. change (Z.to_nat 4) with 4%nat.
  change (Z.to_nat 3) with 3%nat. change (Z.to_nat 2) with 2%nat. change (Z.to_nat 1) with 1%nat.
  change (Z.to_nat 0) with 0%nat. limbs. cbn [nth].
  repeat match goal with |- context [?x ?= ?y] => destruct (x ?= y) end; reflexivity.
Qed.

Theorem fe32_negate_correct a m : fe_mag a m -> m <= 31 ->
  let r := secp256k1_fe_negate a m in
  fe_mag r (m + 1) /\ fe_val r =[p]= - fe_val a.
Proof.
  intros [Hm A0 A1 A2 A3 A4 A5 A6 A7 A8 A9] Hm'. cbv zeta.
  assert (E : forall c x, 0 <= c <= 0x3FFFFFF -> 0 <= x <= c * 2 * (m + 1) ->
    u32 (c * 2 * (m + 1) - x) = c * 2 * (m + 1) - x).
  { intros c x Hc Hx. apply u32_id. nia. }
  unfold secp256k1_fe_negate. rewrite !E by lia.
  split; [split; limbs; lia|].
  apply (cong_by (2 * (m + 1))). unfold fe_val, p. limbs. ring.
Qed.

Theorem fe32_mul_int_correct a m k : fe_mag a m -> 0 <= k -> m * k <= 32 ->
  let r := secp256k1_fe_mul_int a k in
  fe_mag r (m * k) /\ fe_val r = fe_val a * k.
Proof.
  intros [Hm A0 A1 A2 A3 A4 A5 A6 A7 A8 A9] Hk Hmk. cbv zeta.
  assert (E : forall c x, 0 <= c <= 0x3FFFFFF -> 0 <= x <= c * (2 * m) ->
    u32 (x * k) = x * k /\ 0 <= x * k <= c * (2 * (m * k))).
  { intros c x Hc Hx. rewrite u32_id; nia. }
  pose proof (E 0x3FFFFFF) as E1. pose proof (E 0x03FFFFF) as E2. clear E.
  unfold secp256k1_fe_mul_int.
  rewrite !(fun x H => proj1 (E1 x ltac:(lia) H)), (fun H => proj1 (E2 (n9 a) ltac:(lia) H)) by assumption.
  split; [split; limbs; [nia|now apply E1..|now apply E2]|].
  unfold fe_val. limbs. ring.
Qed.

Theorem fe32_add_correct a b m m' : fe_mag a m -> fe_mag b m' -> m + m' <= 32 ->
  let r := secp256k1_fe_add a b in
  fe_mag r (m + m') /\ fe_val r = fe_val a + fe_val b.
Proof.
  intros [Hm A0 A1 A2 A3 A4 A5 A6 A7 A8 A9] [Hm' B0 B1 B2 B3 B4 B5 B6 B7 B8 B9] Hmm. cbv zeta.
  unfold secp256k1_fe_add. rewrite !u32_id by lia.
  split; [split; limbs; lia|].
  unfold fe_val. limbs. ring.
Qed.

Theorem fe32_cmov_correct a b m flag : fe_mag a m -> fe_mag b m -> m <= 32 ->
  secp256k1_fe_cmov a b flag = if flag then b else a.
Proof.
  intros [Hm A0 A1 A2 A3 A4 A5 A6 A7 A8 A9] [_ B0 B1 B2 B3 B4 B5 B6 B7 B8 B9] Hle.
  unfold secp256k1_fe_cmov. rewrite !select32 by lia. destruct flag, a, b; reflexivity.
Qed.

(** ** Packed storage *)

Definition storage_val (s : fe_storage) : Z :=
  st0 s + st1 s * 2 ^ 32 + st2 s * 2 ^ 64 + st3 s * 2 ^ 96 + st4 s * 2 ^ 128 + st5 s * 2 ^ 160
  + st6 s * 2 ^ 192 + st7 s * 2 ^ 224.

Definition storage_ok (s : fe_storage) : Prop :=
  Forall (fun w => 0 <= w < 2 ^ 32) [st0 s; st1 s; st2 s; st3 s; st4 s; st5 s; st6 s; st7 s].

Ltac words_of H := unfold storage_ok in H; rewrite !Forall_cons_iff in H;
  destruct H as (? & ? & ? & ? & ? & ? & ? & ? & _).

Theorem fe32_storage_cmov_correct r a flag : storage_ok r -> storage_ok a ->
  secp256k1_fe_storage_cmov r a flag = if flag then a else r.
Proof.
  intros Hr Ha. words_of Hr. words_of Ha.
  unfold secp256k1_fe_storage_cmov. rewrite !select32 by lia. destruct flag, a, r; reflexivity.
Qed.

Lemma u32_shl x k : 0 <= k <= 32 -> u32 (x << k) = (x mod 2 ^ (32 - k)) * 2 ^ k.
Proof. exact (shl_trunc x k 32). Qed.

Lemma u32_shl_mask x k : 0 <= k <= 26 ->
  u32 (x << k) .& 0x3FFFFFF = (x mod 2 ^ (26 - k)) * 2 ^ k.
Proof.
  intros H. rewrite (land_mask_lit _ _ 26 (2 ^ 26)) by reflexivity.
  unfold u32. change 0x100000000 with (2 ^ 32).
  rewrite Z.mod_mod_divide by now exists (2 ^ 6).
  now apply shl_trunc.
Qed.

(** A word cut in two at bit [k]. *)
Lemma cut_word x k n : 0 <= k <= n -> 0 <= x < 2 ^ n ->
  x = x mod 2 ^ k + 2 ^ k * (x / 2 ^ k) /\ 0 <= x mod 2 ^ k < 2 ^ k /\
  0 <= x / 2 ^ k < 2 ^ (n - k).
Proof.
  intros Hk Hx. split; [pose proof (Z_div_mod_eq_full x (2 ^ k)); lia|].
  split; [apply Z.mod_pos_bound; lia|]. split; [apply Z.div_pos; lia|].
  apply Z.div_lt_upper_bound; [lia|]. rewrite <- Z.pow_add_r by lia.
  now replace (k + (n - k)) with n by lia.
Qed.

(** The differences of constants in the goal. *)
Ltac eval_subs :=
  repeat match goal with |- context [Z.sub ?a ?b] => is_lit a; is_lit b;
    let c := eval vm_compute in (Z.sub a b) in change (Z.sub a b) with c end.

Ltac cut x k n :=
  let H := fresh in
  assert (H := cut_word x k n ltac:(lia) ltac:(lia)); revert H; eval_subs;
  let m := fresh "m" in let q := fresh "q" in
  generalize (x mod 2 ^ k) (x / 2 ^ k); intros m q H.

Lemma fe32_to_storage_correct a : fe_words a ->
  let s := secp256k1_fe_to_storage a in storage_ok s /\ storage_val s = fe_val a.
Proof.
  intros [H0 H1 H2 H3 H4 H5 H6 H7 H8 H9]. unfold Bounded in *. cbv zeta.
  unfold secp256k1_fe_to_storage. rewrite !u32_shl, !shr_div by (lia || reflexivity). eval_subs.
  rewrite (lor_join (n0 a) _ 26), (join_div_mod (n1 a) _ 6 26), (join_div_mod (n2 a) _ 12 26),
    (join_div_mod (n3 a) _ 18 26), (lor_join (n4 a / _) _ 2), (lor_join _ _ 28),
    (join_div_mod (n6 a) _ 4 26),
    (join_div_mod (n7 a) _ 10 26), (join_div_mod (n8 a) _ 16 26) by dlia.
  rewrite (Z.mod_small (n5 a)), (Z.mod_small (n9 a)) by lia. eval_subs.
  unfold storage_ok, storage_val, fe_val. cbn [st0 st1 st2 st3 st4 st5 st6 st7].
  cut (n1 a) 6 26. cut (n2 a) 12 26. cut (n3 a) 18 26. cut (n4 a) 24 26.
  cut (n6 a) 4 26. cut (n7 a) 10 26. cut (n8 a) 16 26.
  split; [|lia]. repeat (apply Forall_cons; [lia|]). apply Forall_nil.
Qed.

Lemma fe32_from_storage_val s : storage_ok s ->
  fe_words (secp256k1_fe_from_storage s) /\
  fe_val (secp256k1_fe_from_storage s) = storage_val s.
Proof.
  intros H. words_of H. unfold secp256k1_fe_from_storage.
  rewrite !u32_shl_mask, !shr_div by (lia || reflexivity).
  rewrite !(land_mask_lit _ _ 26 (2 ^ 26)) by reflexivity. eval_subs.
  rewrite (join_div_mod (st0 s) _ 26 32), (join_div_mod (st1 s) _ 20 32),
    (join_div_mod (st2 s) _ 14 32), (join_div_mod (st3 s) _ 8 32), (join_div_mod (st4 s) _ 28 32),
    (join_div_mod (st5 s) _ 22 32), (join_div_mod (st6 s) _ 16 32) by lia. eval_subs.
  unfold storage_val, fe_val. limbs.
  replace (st4 s / 2 ^ 28) with (st4 s / 2 ^ 2 / 2 ^ 26) by now rewrite Z.div_div by lia.
  cut (st0 s) 26 32. cut (st1 s) 20 32. cut (st2 s) 14 32. cut (st3 s) 8 32. cut (st4 s) 2 32.
  cut q3 26 30. cut (st5 s) 22 32. cut (st6 s) 16 32. cut (st7 s) 10 32.
  split; [|lia]. split; limbs; unfold Bounded; lia.
Qed.

Theorem fe32_storage_roundtrip a : fe_norm a ->
  secp256k1_fe_from_storage (secp256k1_fe_to_storage a) = a.
Proof.
  intros [Ha _]. destruct (fe32_to_storage_correct a Ha) as [Hs Hv].
  destruct (fe32_from_storage_val _ Hs) as [H1 H2].
  apply fe_words_inj; try assumption. congruence.
Qed.

(** Eight words of 32 bits as limbs: the constants are written out the way
    [secp256k1_fe_from_storage] reads them. *)
Lemma fe_const_storage d7 d6 d5 d4 d3 d2 d1 d0 :
  Forall (fun d => 0 <= d < 2 ^ 32) [d7; d6; d5; d4; d3; d2; d1; d0] ->
  SECP256K1_FE_CONST d7 d6 d5 d4 d3 d2 d1 d0 =
  secp256k1_fe_from_storage (FeStorage d0 d1 d2 d3 d4 d5 d6 d7).
Proof.
  intros _. unfold SECP256K1_FE_CONST, secp256k1_fe_from_storage. cbn [st0 st1 st2 st3 st4 st5 st6 st7].
  rewrite !u32_shl_mask by lia. eval_subs.
  rewrite (land_mask_lit d1 _ 20 (2 ^ 20)), (land_mask_lit d2 _ 14 (2 ^ 14)),
    (land_mask_lit d3 _ 8 (2 ^ 8)), (land_mask_lit d4 _ 2 (2 ^ 2)), (land_mask_lit d5 _ 22 (2 ^ 22)),
    (land_mask_lit d6 _ 16 (2 ^ 16)), (land_mask_lit d7 _ 10 (2 ^ 10)) by reflexivity.
  now rewrite !Z.shiftl_mul_pow2 by lia.
Qed.

Lemma fe32_const_correct d7 d6 d5 d4 d3 d2 d1 d0 :
  Forall (fun d => 0 <= d < 2 ^ 32) [d7; d6; d5; d4; d3; d2; d1; d0] ->
  words_val d7 d6 d5 d4 d3 d2 d1 d0 < p ->
  fe_norm (SECP256K1_FE_CONST d7 d6 d5 d4 d3 d2 d1 d0) /\
  fe_val (SECP256K1_FE_CONST d7 d6 d5 d4 d3 d2 d1 d0) = words_val d7 d6 d5 d4 d3 d2 d1 d0.
Proof.
  intros H Hp. rewrite fe_const_storage by exact H.
  assert (V : storage_val (FeStorage d0 d1 d2 d3 d4 d5 d6 d7) = words_val d7 d6 d5 d4 d3 d2 d1 d0).
  { unfold storage_val, words_val. cbn [st0 st1 st2 st3 st4 st5 st6 st7 fold_left]. ring. }
  destruct (fe32_from_storage_val (FeStorage d0 d1 d2 d3 d4 d5 d6 d7)) as [W E].
  { apply Forall_rev in H. exact H. }
  split; [split|]; [exact W|congruence..].
Qed.

(** ** The limit of the magnitude discipline

    [secp256k1_fe_verify] accepts magnitude 32; the first carry pass of
    [secp256k1_fe_normalize] is exact up to 31 only. *)

Definition fe_32 : fe :=
  let l := 0x3FFFFFF * 64 in Fe l l l l l l l l l (0x03FFFFF * 64).

(** ** The interface *)

Lemma secp256k1_fe_bytes l : Forall is_byte l -> length l = 32%nat ->
  snd (secp256k1_fe_set_b32 l) = (be_val l <? p) /\
  fe_val (fst (secp256k1_fe_set_b32 l)) = be_val l /\ fe_mag (fst (secp256k1_fe_set_b32 l)) 1 /\
  (be_val l < p -> fe_norm (fst (secp256k1_fe_set_b32 l))).
Proof.
  intros Hl Hlen. rewrite fe32_set_b32_correct by assumption. cbn [fst snd].
  pose proof (be_val_32_w26 l Hl Hlen) as HV.
  split; [reflexivity|]. split; [now apply fe32_val_of_Z|].
  split; [now apply fe_words_mag, fe_of_Z_words|]. intros. apply fe32_norm_of_Z. lia.
Qed.

#[export, refine] Instance field_10x26 : FieldImpl := {
  FieldSpec.fe := fe;
  FieldSpec.fe_storage := fe_storage;
  fval := fe_val;
  fmag := fe_mag;
  fnorm := fe_norm;
  fe_const := SECP256K1_FE_CONST;
  fe_normalize := secp256k1_fe_normalize;
  fe_normalize_weak := secp256k1_fe_normalize_weak;
  fe_normalize_var := secp256k1_fe_normalize_var;
  fe_normalizes_to_zero := secp256k1_fe_normalizes_to_zero;
  fe_normalizes_to_zero_var := secp256k1_fe_normalizes_to_zero_var;
  fe_set_int := secp256k1_fe_set_int;
  fe_clear := secp256k1_fe_clear;
  fe_is_zero := secp256k1_fe_is_zero;
  fe_is_odd := secp256k1_fe_is_odd;
  fe_cmp_var := secp256k1_fe_cmp_var;
  fe_set_b32 := secp256k1_fe_set_b32;
  fe_get_b32 := secp256k1_fe_get_b32;
  fe_negate := secp256k1_fe_negate;
  fe_mul_int := secp256k1_fe_mul_int;
  fe_add := secp256k1_fe_add;
  fe_mul := secp256k1_fe_mul;
  fe_sqr := secp256k1_fe_sqr;
  fe_cmov := secp256k1_fe_cmov;
  fe_storage_cmov := secp256k1_fe_storage_cmov;
  fe_to_storage := secp256k1_fe_to_storage;
  fe_from_storage := secp256k1_fe_from_storage;
  fmag_le := fe32_mag_le;
  fmag_nonneg := mag_nonneg;
  fnorm_mag := fe32_norm_mag;
  fnorm_inj := fe32_norm_inj;
  fe_normalize_ok := fe32_normalize_correct;
  fe_normalize_weak_ok := fe32_normalize_weak_correct;
  fe_normalize_var_ok := fe32_normalize_var_correct;
  fe_normalizes_to_zero_ok := fe32_normalizes_to_zero_correct;
  fe_is_zero_ok := fe32_is_zero_correct;
  fe_is_odd_ok := fe32_is_odd_correct;
  fe_cmp_var_ok := fe32_cmp_var_correct;
  fe_get_b32_ok := fe32_get_b32_correct;
  fe_set_b32_ok := secp256k1_fe_bytes;
  fe_const_ok := fe32_const_correct;
  fe_negate_ok := fe32_negate_correct;
  fe_mul_int_ok := fe32_mul_int_correct;
  fe_add_ok := fe32_add_correct;
  fe_mul_ok := fe32_mul_inner_correct;
  fe_sqr_ok := fe32_sqr_inner_correct;
  fe_cmov_ok := fe32_cmov_correct;
  fe_from_to_storage := fe32_storage_roundtrip;
}.
Proof.
  - intros a [W ?]. pose proof (fe_words_range a W). lia.
  - intros a Ha. rewrite fe32_normalizes_to_zero_var_correct. now apply fe32_normalizes_to_zero_correct.
  - intros n Hn. apply fe32_set_int_correct. lia.
  - intros a. rewrite fe32_clear_correct. apply (fe32_set_int_correct 0). lia.
  - intros a b flag [Ha _] [Hb _]. rewrite fe32_storage_cmov_correct; [now destruct flag|..];
      now apply fe32_to_storage_correct.
Defined.
