(* ===== verification/Field.v ===== *)
(** * field_impl.h: the operations built on any field implementation

    Comparison, the addition chains for inverses and square roots, and the
    batched inversion, over the interface of FieldSpec.v.  The builtin
    configuration of build.rs is modelled: [secp256k1_fe_inv_var] is
    [secp256k1_fe_inv] (USE_FIELD_INV_BUILTIN) and
    [secp256k1_fe_is_quad_var] is [secp256k1_fe_sqrt] (USE_NUM_NONE). *)
From S2P Require Import Prelude Primes FieldSpec.

(** ** Arithmetic modulo [p] *)

Lemma prime_p : Z.prime p.
Proof. exact prime_field. Qed.

Lemma p_pos : 0 < p.
Proof. reflexivity. Qed.

Lemma fermat_p a : a mod p <> 0 -> a ^ (p - 1) =[p]= 1.
Proof. intros H. apply cong_iff. exact (ZmodInv.Z.fermat_nz p a prime_p H). Qed.

Lemma inverse_p a : a mod p <> 0 -> a * a ^ (p - 2) =[p]= 1.
Proof.
  intros H. rewrite <- Z.pow_succ_r by (unfold p; lia).
  exact (fermat_p a H).
Qed.

Lemma cong_0 a : a mod p = 0 <-> a =[p]= 0.
Proof. rewrite cong_iff. now rewrite Z.mod_0_l by (unfold p; lia). Qed.

(** [p] has no zero divisors. *)
Lemma mul_nonzero a b : a mod p <> 0 -> b mod p <> 0 -> (a * b) mod p <> 0.
Proof.
  intros Ha Hb H. apply Z.mod_divide in H; [|unfold p; lia].
  apply Z.divide_prime_mul in H; [|exact prime_p].
  destruct H as [H|H]; apply Z.mod_divide in H; (unfold p in *; lia) || tauto.
Qed.

Lemma mul_zero a b : a * b =[p]= 0 -> a =[p]= 0 \/ b =[p]= 0.
Proof.
  intros H. rewrite <- !cong_0 in *.
  destruct (Z.eq_dec (a mod p) 0), (Z.eq_dec (b mod p) 0); try tauto.
  exfalso. now apply (mul_nonzero a b).
Qed.

(** Inverses are unique. *)
Lemma inverse_unique a x y : a * x =[p]= 1 -> a * y =[p]= 1 -> x =[p]= y.
Proof.
  intros Hx Hy. transitivity (x * (a * y)).
  - now rewrite Hy, Z.mul_1_r.
  - replace (x * (a * y)) with (a * x * y) by ring. now rewrite Hx, Z.mul_1_l.
Qed.

(** Euler's criterion in the form the square root uses: [p = 3 mod 4]. *)
Lemma sqrt_p a s : s * s =[p]= a ->
  a ^ ((p + 1) / 4) * a ^ ((p + 1) / 4) =[p]= a.
Proof.
  intros Hs. rewrite <- Z.pow_add_r by (unfold p; cbn; lia).
  change ((p + 1) / 4 + (p + 1) / 4) with (1 + (p - 1) / 2).
  rewrite <- Hs at 1. rewrite <- Z.pow_2_r, <- Z.pow_mul_r by (unfold p; cbn; lia).
  change (2 * (1 + (p - 1) / 2)) with (2 + (p - 1)).
  rewrite Z.pow_add_r, Z.pow_2_r by (unfold p; lia).
  destruct (Z.eq_dec (s mod p) 0) as [E|E].
  - apply cong_0 in E. rewrite <- Hs, E. reflexivity.
  - rewrite (fermat_p s E), Z.mul_1_r. exact Hs.
Qed.

Section FieldOps.
Context {F : FieldImpl}.

(** ** Definitions *)

Definition secp256k1_fe_equal (a b : fe) : bool :=
  let na := fe_negate a 1 in
  let na := fe_add na b in
  fe_normalizes_to_zero na.

Definition secp256k1_fe_equal_var (a b : fe) : bool :=
  let na := fe_negate a 1 in
  let na := fe_add na b in
  fe_normalizes_to_zero_var na.

(** [for (j = 0; j < n; j++) secp256k1_fe_sqr(&x, &x)] *)
Definition sqr_loop (n : nat) (x : fe) : fe := for_loop n (fun _ x => fe_sqr x) x.

Definition secp256k1_fe_sqrt (a : fe) : fe * bool :=
  let x2 := fe_sqr a in
  let x2 := fe_mul x2 a in
  let x3 := fe_sqr x2 in
  let x3 := fe_mul x3 a in
  let x6 := sqr_loop 3 x3 in
  let x6 := fe_mul x6 x3 in
  let x9 := sqr_loop 3 x6 in
  let x9 := fe_mul x9 x3 in
  let x11 := sqr_loop 2 x9 in
  let x11 := fe_mul x11 x2 in
  let x22 := sqr_loop 11 x11 in
  let x22 := fe_mul x22 x11 in
  let x44 := sqr_loop 22 x22 in
  let x44 := fe_mul x44 x22 in
  let x88 := sqr_loop 44 x44 in
  let x88 := fe_mul x88 x44 in
  let x176 := sqr_loop 88 x88 in
  let x176 := fe_mul x176 x88 in
  let x220 := sqr_loop 44 x176 in
  let x220 := fe_mul x220 x44 in
  let x223 := sqr_loop 3 x220 in
  let x223 := fe_mul x223 x3 in
  let t1 := sqr_loop 23 x223 in
  let t1 := fe_mul t1 x22 in
  let t1 := sqr_loop 6 t1 in
  let t1 := fe_mul t1 x2 in
  let t1 := fe_sqr t1 in
  let r := fe_sqr t1 in
  let t1 := fe_sqr r in
  (r, secp256k1_fe_equal t1 a).

Definition secp256k1_fe_inv (a : fe) : fe :=
  let x2 := fe_sqr a in
  let x2 := fe_mul x2 a in
  let x3 := fe_sqr x2 in
  let x3 := fe_mul x3 a in
  let x6 := sqr_loop 3 x3 in
  let x6 := fe_mul x6 x3 in
  let x9 := sqr_loop 3 x6 in
  let x9 := fe_mul x9 x3 in
  let x11 := sqr_loop 2 x9 in
  let x11 := fe_mul x11 x2 in
  let x22 := sqr_loop 11 x11 in
  let x22 := fe_mul x22 x11 in
  let x44 := sqr_loop 22 x22 in
  let x44 := fe_mul x44 x22 in
  let x88 := sqr_loop 44 x44 in
  let x88 := fe_mul x88 x44 in
  let x176 := sqr_loop 88 x88 in
  let x176 := fe_mul x176 x88 in
  let x220 := sqr_loop 44 x176 in
  let x220 := fe_mul x220 x44 in
  let x223 := sqr_loop 3 x220 in
  let x223 := fe_mul x223 x3 in
  let t1 := sqr_loop 23 x223 in
  let t1 := fe_mul t1 x22 in
  let t1 := sqr_loop 5 t1 in
  let t1 := fe_mul t1 a in
  let t1 := sqr_loop 3 t1 in
  let t1 := fe_mul t1 x2 in
  let t1 := sqr_loop 2 t1 in
  fe_mul a t1.

Definition secp256k1_fe_inv_var (a : fe) : fe := secp256k1_fe_inv a.

(** The arrays [r] and [a] do not overlap (the VERIFY_CHECK of line 270); the
    first loop leaves [i = len], and the second runs [j] from [len - 1] to 1
    with [i = j - 1]. *)
Definition secp256k1_fe_inv_all_var (r a : list fe) (len : nat) : list fe :=
  if Nat.ltb len 1 then r else
  let z := fe_set_int 0 in
  let r := upd r 0 (nth 0 a z) in
  let r := fold_left (fun r i => upd r i (fe_mul (nth (i - 1) r z) (nth i a z)))
             (seq 1 (len - 1)) r in
  let u := secp256k1_fe_inv_var (nth (len - 1) r z) in
  let '(r, u) := fold_left (fun '(r, u) j =>
                    (upd r j (fe_mul (nth (j - 1) r z) u), fe_mul u (nth j a z)))
                  (rev (seq 1 (len - 1))) (r, u) in
  upd r 0 u.

Definition secp256k1_fe_is_quad_var (a : fe) : bool :=
  snd (secp256k1_fe_sqrt a).

(** ** Comparison *)

Lemma fe_equal_spec a b m : fmag a 1 -> fmag b m -> m <= 29 ->
  secp256k1_fe_equal a b = (fval a mod p =? fval b mod p).
Proof.
  intros Ha Hb Hm. unfold secp256k1_fe_equal.
  destruct (fe_negate_ok a 1 Ha ltac:(lia)) as [M1 V1].
  destruct (fe_add_ok _ _ _ _ M1 Hb ltac:(lia)) as [M2 V2].
  rewrite fe_normalizes_to_zero_ok by (eapply fmag_le; [exact M2|lia]).
  apply eq_true_iff_eq. rewrite !Z.eqb_eq, V2, cong_0, V1, <- cong_iff.
  unfold cong. replace (- fval a + fval b - 0) with (- (fval a - fval b)) by ring.
  apply Z.divide_opp_r.
Qed.

Lemma fe_equal_var_spec a b m : fmag a 1 -> fmag b m -> m <= 29 ->
  secp256k1_fe_equal_var a b = (fval a mod p =? fval b mod p).
Proof.
  intros Ha Hb Hm. rewrite <- (fe_equal_spec a b m Ha Hb Hm).
  unfold secp256k1_fe_equal_var, secp256k1_fe_equal.
  destruct (fe_negate_ok a 1 Ha ltac:(lia)) as [M1 _].
  destruct (fe_add_ok _ _ _ _ M1 Hb ltac:(lia)) as [M2 _].
  now rewrite fe_normalizes_to_zero_ok, fe_normalizes_to_zero_var_ok
    by (eapply fmag_le; [exact M2|lia]).
Qed.

(** ** The addition chains *)

Section Chain.
Variable A : Z.

(** [x] has small magnitude and is [A] to the power [e]. *)
Definition is_pow (x : fe) (e : Z) : Prop :=
  0 <= e /\ fmag x 8 /\ fval x =[p]= A ^ e.

Lemma is_pow_mul x y e f : is_pow x e -> is_pow y f -> is_pow (fe_mul x y) (e + f).
Proof.
  intros (He & Mx & Vx) (Hf & My & Vy).
  destruct (fe_mul_ok x y Mx My) as [M V].
  split; [lia|]. split; [now apply (fmag_le _ 1); [|lia]|].
  now rewrite V, Vx, Vy, Z.pow_add_r by lia.
Qed.

Lemma is_pow_sqr x e : is_pow x e -> is_pow (fe_sqr x) (2 * e).
Proof.
  intros (He & Mx & Vx). destruct (fe_sqr_ok x Mx) as [M V].
  split; [lia|]. split; [now apply (fmag_le _ 1); [|lia]|].
  rewrite V, Vx. replace (2 * e) with (e + e) by ring. now rewrite Z.pow_add_r by lia.
Qed.

Lemma is_pow_loop n x e : is_pow x e -> is_pow (sqr_loop n x) (2 ^ Z.of_nat n * e).
Proof.
  intros H. unfold sqr_loop.
  apply (for_loop_inv (fun k y => is_pow y (2 ^ k * e))).
  { now rewrite Z.mul_1_l. }
  intros k y Hk Hy. rewrite Z.pow_add_r by lia.
  replace (2 ^ k * 2 ^ 1 * e) with (2 * (2 ^ k * e)) by ring. now apply is_pow_sqr.
Qed.
End Chain.

Lemma is_pow_init a : fmag a 8 -> is_pow (fval a) a 1.
Proof. intros H. split; [lia|]. split; [exact H|]. now rewrite Z.pow_1_r. Qed.

(** Compute the exponent of every step of a chain. *)
Ltac chain_step :=
  lazymatch goal with
  | |- wp ?P (let x := ?e in @?b x) =>
    let y := fresh x in let H := fresh "E" y in
    apply (wp_let P e b); intros y H; cbv beta;
    let K := fresh "K" in
    lazymatch e with
    | fe_sqr ?u => match goal with Hu : is_pow _ u _ |- _ => pose proof (is_pow_sqr _ _ _ Hu) as K end
    | sqr_loop ?n ?u => match goal with Hu : is_pow _ u _ |- _ => pose proof (is_pow_loop _ n _ _ Hu) as K end
    | fe_mul ?u ?v => match goal with Hu : is_pow _ u _, Hv : is_pow _ v _ |- _ =>
        pose proof (is_pow_mul _ _ _ _ _ Hu Hv) as K end
    end;
    rewrite <- H in K;
    lazymatch type of K with is_pow ?A ?w ?ex =>
      let ex' := eval vm_compute in ex in change (is_pow A w ex') in K end
  end.

(** [a] to the power [p - 2]. *)
Lemma fe_inv_pow a : fmag a 8 ->
  let r := secp256k1_fe_inv a in is_pow (fval a) r (p - 2) /\ fmag r 1.
Proof.
  intros Ha. pose proof (is_pow_init a Ha) as K.
  enter @secp256k1_fe_inv. repeat chain_step. unfold wp. split.
  - exact (is_pow_mul _ _ _ _ _ K ltac:(eassumption)).
  - apply fe_mul_ok; [exact Ha|]. match goal with H : is_pow _ ?t _ |- fmag ?t 8 => apply H end.
Qed.

Lemma fe_inv_spec a : fmag a 8 ->
  fmag (secp256k1_fe_inv a) 1 /\
  (fval a mod p <> 0 -> fval a * fval (secp256k1_fe_inv a) =[p]= 1) /\
  (fval a mod p = 0 -> fval (secp256k1_fe_inv a) =[p]= 0).
Proof.
  intros Ha. destruct (fe_inv_pow a Ha) as [(_ & _ & V) M]. split; [exact M|split].
  - intros Hn. rewrite V. now apply inverse_p.
  - intros Hz. apply cong_0 in Hz. rewrite V, Hz.
    rewrite Z.pow_0_l by (unfold p; lia). reflexivity.
Qed.

(** The square root candidate is [a] to the power [(p + 1) / 4], itself the
    square of [a] to the power [(p + 1) / 8]. *)
Lemma fe_sqrt_pow a : fmag a 8 ->
  let r := secp256k1_fe_sqrt a in
  is_pow (fval a) (fst r) ((p + 1) / 4) /\ fmag (fst r) 1 /\
  snd r = secp256k1_fe_equal (fe_sqr (fst r)) a.
Proof.
  intros Ha. pose proof (is_pow_init a Ha) as K.
  enter @secp256k1_fe_sqrt. repeat chain_step. unfold wp. cbn [fst snd].
  change ((p + 1) / 4)
    with 0x3FFFFFFFFFFFFFFFFFFFFFFFFFFFFFFFFFFFFFFFFFFFFFFFFFFFFFFFBFFFFF0C.
  split; [match goal with H : is_pow _ r _ |- _ => exact H end|].
  split; [|match goal with E : ?t = fe_sqr r |- _ => now rewrite E end].
  match goal with E : r = fe_sqr ?t, H : is_pow _ ?t _ |- _ => rewrite E; apply fe_sqr_ok, H end.
Qed.

Lemma fe_sqrt_spec a : fmag a 8 ->
  let r := fst (secp256k1_fe_sqrt a) in let ok := snd (secp256k1_fe_sqrt a) in
  fmag r 1 /\ (ok = true <-> exists s, s * s =[p]= fval a) /\
  (ok = true -> fval r * fval r =[p]= fval a /\ exists s, s * s =[p]= fval r).
Proof.
  intros Ha. destruct (fe_sqrt_pow a Ha) as [(_ & _ & V) [M E]]. cbv zeta.
  set (r := fst (secp256k1_fe_sqrt a)) in *. set (ok := snd (secp256k1_fe_sqrt a)) in *.
  destruct (fe_sqr_ok r ltac:(eapply fmag_le; [exact M|lia])) as [M2 V2].
  rewrite (fe_equal_spec _ _ 8 M2 Ha ltac:(lia)) in E.
  assert (Ok : ok = true <-> fval r * fval r =[p]= fval a).
  { rewrite E, Z.eqb_eq, <- cong_iff. now rewrite V2. }
  split; [exact M|]. split.
  - rewrite Ok. split; [intros H; now exists (fval r)|]. intros [s Hs].
    rewrite V. now apply sqrt_p with s.
  - rewrite Ok. intros H. split; [exact H|].
    exists (fval a ^ ((p + 1) / 8)). rewrite V, <- Z.pow_add_r by (unfold p; cbn; lia).
    apply cong_eq. f_equal.
Qed.

(** ** Batched inversion *)

Section InvAll.
Variables (r0 a : list fe) (len : nat).
Hypothesis Hr0 : length r0 = len.
Hypothesis Ha : length a = len.
Hypothesis Hlen : (1 <= len)%nat.
Hypothesis Hmag : Forall (fun x => fmag x 8) a.
Hypothesis Hnz : Forall (fun x => fval x mod p <> 0) a.

Let z := fe_set_int 0.
Let A i := fval (nth i a z).

(** The product of the first [i + 1] values. *)
Fixpoint prefix (i : nat) : Z :=
  match i with O => A 0 | S j => prefix j * A i end.

Lemma A_mag i : (i < len)%nat -> fmag (nth i a z) 8.
Proof. intros. rewrite Forall_forall in Hmag. apply Hmag, nth_In. lia. Qed.

Lemma A_nz i : (i < len)%nat -> A i mod p <> 0.
Proof.
  intros. rewrite Forall_forall in Hnz. apply (Hnz (nth i a z)), nth_In. lia.
Qed.

Lemma prefix_nz i : (i < len)%nat -> prefix i mod p <> 0.
Proof.
  induction i as [|i IH]; intros H; [now apply A_nz|].
  cbn [prefix]. apply mul_nonzero; [apply IH; lia|now apply A_nz].
Qed.

(** After the first loop, [r[k]] holds the prefix product. *)
Lemma prefix_loop n : (n < len)%nat ->
  let r := fold_left (fun r i => upd r i (fe_mul (nth (i - 1) r z) (nth i a z)))
             (seq 1 n) (upd r0 0 (nth 0 a z)) in
  length r = len /\
  forall k, (k <= n)%nat -> fmag (nth k r z) 8 /\ fval (nth k r z) =[p]= prefix k.
Proof.
  induction n as [|n IH]; intros Hn; cbv zeta.
  - cbn [seq fold_left]. rewrite length_upd. split; [exact Hr0|].
    intros k Hk. assert (k = 0)%nat as -> by lia.
    rewrite nth_upd by lia. cbn [Nat.eqb prefix]. split; [now apply A_mag|reflexivity].
  - rewrite seq_S, fold_left_app. cbn [fold_left Nat.add].
    destruct (IH ltac:(lia)) as [L H].
    set (r := fold_left _ (seq 1 n) _) in *. rewrite length_upd. split; [exact L|].
    intros k Hk. rewrite nth_upd by lia.
    destruct (Nat.eqb_spec (S n) k) as [<-|Hne]; [|apply H; lia].
    destruct (H n ltac:(lia)) as [M V]. replace (S n - 1)%nat with n by lia.
    destruct (fe_mul_ok _ _ M (A_mag (S n) Hn)) as [M' V'].
    split; [eapply fmag_le; [exact M'|lia]|]. now rewrite V', V.
Qed.

Definition inverts (u : fe) (k : nat) : Prop := fmag u 8 /\ fval u * A k =[p]= 1.

(** The second loop, [j] running from [n] down to 1: [u] stays the inverse of
    the prefix product at [j]. *)
Lemma inverse_loop n r u : (n < len)%nat -> length r = len ->
  (forall k, (k <= n)%nat -> fmag (nth k r z) 8 /\ fval (nth k r z) =[p]= prefix k) ->
  fmag u 8 -> fval u * prefix n =[p]= 1 ->
  let '(r', u') := fold_left (fun '(r, u) j =>
      (upd r j (fe_mul (nth (j - 1) r z) u), fe_mul u (nth j a z)))
    (rev (seq 1 n)) (r, u) in
  length r' = len /\ inverts u' 0 /\
  (forall k, (1 <= k <= n)%nat -> inverts (nth k r' z) k) /\
  (forall k, (n < k)%nat -> nth k r' z = nth k r z).
Proof.
  revert r u. induction n as [|n IH]; intros r u Hn L H Mu Vu.
  - cbn. repeat split; try assumption; intros; lia || reflexivity.
  - rewrite seq_S, rev_app_distr. cbn [rev app fold_left Nat.add].
    replace (S n - 1)%nat with n by lia.
    destruct (H n ltac:(lia)) as [Mn Vn].
    destruct (fe_mul_ok _ _ Mn Mu) as [M1 V1].
    destruct (fe_mul_ok _ _ Mu (A_mag (S n) Hn)) as [M2 V2].
    fold (A (S n)) in V2. cbn [prefix] in Vu.
    specialize (IH (upd r (S n) (fe_mul (nth n r z) u)) (fe_mul u (nth (S n) a z))).
    destruct (fold_left _ _ _) as [r' u'].
    destruct IH as (L' & U' & HI & HO).
    { lia. }
    { now rewrite length_upd. }
    { intros k Hk. rewrite nth_upd by lia.
      destruct (Nat.eqb_spec (S n) k); [lia|]. apply H; lia. }
    { eapply fmag_le; [exact M2|lia]. }
    { rewrite V2. rewrite <- Vu. apply cong_eq. ring. }
    split; [exact L'|]. split; [exact U'|]. split.
    + intros k Hk. destruct (Nat.eq_dec k (S n)) as [->|Hne]; [|apply HI; lia].
      rewrite HO by lia. rewrite nth_upd, Nat.eqb_refl by lia.
      split; [eapply fmag_le; [exact M1|lia]|].
      rewrite V1, Vn. rewrite <- Vu. apply cong_eq. ring.
    + intros k Hk. rewrite HO, nth_upd by lia.
      destruct (Nat.eqb_spec (S n) k); [lia|reflexivity].
Qed.

Lemma fe_inv_all_spec :
  let r := secp256k1_fe_inv_all_var r0 a len in
  length r = len /\
  forall k, (k < len)%nat ->
    fmag (nth k r z) 8 /\ fval (nth k r z) * fval (nth k a z) =[p]= 1.
Proof.
  cbv zeta. unfold secp256k1_fe_inv_all_var.
  replace (Nat.ltb len 1) with false by (symmetry; apply Nat.ltb_ge; lia).
  destruct (prefix_loop (len - 1) ltac:(lia)) as [L H]. cbv zeta. change (fe_set_int 0) with z.
  set (r := fold_left _ (seq 1 (len - 1)) _) in *.
  destruct (H (len - 1)%nat ltac:(lia)) as [Ml Vl].
  destruct (fe_inv_spec _ Ml) as (Mu & Vu & _).
  set (u := secp256k1_fe_inv (nth (len - 1) r z)) in *.
  assert (Hl : fval (nth (len - 1) r z) mod p <> 0).
  { apply cong_iff in Vl. rewrite Vl. apply prefix_nz. lia. }
  specialize (Vu Hl). rewrite Vl, Z.mul_comm in Vu.
  pose proof (inverse_loop (len - 1) r u ltac:(lia) L H
    ltac:(eapply fmag_le; [exact Mu|lia]) Vu) as K.
  change (secp256k1_fe_inv_var (nth (len - 1) r z)) with u.
  match goal with |- context [fold_left ?f ?l (r, u)] =>
    destruct (fold_left f l (r, u)) as [r' u'] end.
  destruct K as (L' & U' & HI & _).
  rewrite length_upd. split; [exact L'|]. intros k Hk. rewrite nth_upd by lia.
  destruct (Nat.eqb_spec 0 k) as [<-|Hne]; [exact U'|]. apply HI. lia.
Qed.
End InvAll.
End FieldOps.
