(* ===== verification/Accum.v ===== *)
(** * The multi-precision accumulator of the scalar code

    scalar_4x64_impl.h and scalar_8x32_impl.h compute long products in an
    accumulator of three words (c0, c1, c2) with the macros below.  The two
    sets of macros have the same text at the two word sizes; they are modelled
    once, over the width [w] of a word and the width [wt] of the top word, and
    shown to add exactly while the top word does not overflow. *)
From S2P Require Import Prelude.

Record acc := Acc { c0 : Z; c1 : Z; c2 : Z }.

Section Macros.
Variables w wt : Z.

Definition uw (x : Z) : Z := x mod 2 ^ w.
Definition ut (x : Z) : Z := x mod 2 ^ wt.

(** Add a*b to the number defined by (c0,c1,c2). *)
Definition muladd (c : acc) (a b : Z) : acc :=
  let t := a * b in
  let th := uw (t >> w) in
  let tl := uw t in
  let c0' := uw (c0 c + tl) in
  let th := uw (th + b2z (c0' <? tl)) in
  let c1' := uw (c1 c + th) in
  let c2' := ut (c2 c + b2z (c1' <? th)) in
  Acc c0' c1' c2'.

(** Add a*b to the number defined by (c0,c1). *)
Definition muladd_fast (c : acc) (a b : Z) : acc :=
  let t := a * b in
  let th := uw (t >> w) in
  let tl := uw t in
  let c0' := uw (c0 c + tl) in
  let th := uw (th + b2z (c0' <? tl)) in
  let c1' := uw (c1 c + th) in
  Acc c0' c1' (c2 c).

(** Add 2*a*b to the number defined by (c0,c1,c2). *)
Definition muladd2 (c : acc) (a b : Z) : acc :=
  let t := a * b in
  let th := uw (t >> w) in
  let tl := uw t in
  let th2 := uw (th + th) in
  let c2' := ut (c2 c + b2z (th2 <? th)) in
  let tl2 := uw (tl + tl) in
  let th2 := uw (th2 + b2z (tl2 <? tl)) in
  let c0' := uw (c0 c + tl2) in
  let th2 := uw (th2 + b2z (c0' <? tl2)) in
  let c2' := ut (c2' + (b2z (c0' <? tl2) .& b2z (th2 =? 0))) in
  let c1' := uw (c1 c + th2) in
  let c2' := ut (c2' + b2z (c1' <? th2)) in
  Acc c0' c1' c2'.

(** Add a to the number defined by (c0,c1,c2). *)
Definition sumadd (c : acc) (a : Z) : acc :=
  let c0' := uw (c0 c + a) in
  let over := b2z (c0' <? a) in
  let c1' := uw (c1 c + over) in
  let c2' := ut (c2 c + b2z (c1' <? over)) in
  Acc c0' c1' c2'.

(** Add a to the number defined by (c0,c1). *)
Definition sumadd_fast (c : acc) (a : Z) : acc :=
  let c0' := uw (c0 c + a) in
  let c1' := uw (c1 c + b2z (c0' <? a)) in
  Acc c0' c1' (c2 c).

(** Extract the lowest word of (c0,c1,c2), and shift the number one word. *)
Definition extract (c : acc) : Z * acc := (c0 c, Acc (c1 c) (c2 c) 0).

(** The same with c2 required to be zero. *)
Definition extract_fast (c : acc) : Z * acc := (c0 c, Acc (c1 c) 0 (c2 c)).

(** ** What the macros compute *)

Hypothesis Hw : 0 < wt <= w.

Local Notation "'B'" := (2 ^ w).

Definition acc_val (c : acc) : Z := c0 c + B * c1 c + B * B * c2 c.

(** Words in range, value at most [n]. *)
Record acc_ok (c : acc) (n : Z) : Prop := {
  acc_c0 : 0 <= c0 c < B;
  acc_c1 : 0 <= c1 c < B;
  acc_c2 : 0 <= c2 c < 2 ^ wt;
  acc_le : acc_val c <= n }.

Lemma B_pos : 0 < B.
Proof. apply Z.pow_pos_nonneg; lia. Qed.

Lemma B_ge2 : 2 <= B.
Proof. change 2 with (2 ^ 1) at 1. apply Z.pow_le_mono_r; lia. Qed.

Lemma uw_range x : 0 <= uw x < B.
Proof. apply Z.mod_pos_bound, B_pos. Qed.

Lemma ut_range x : 0 <= ut x < 2 ^ wt.
Proof. apply Z.mod_pos_bound, Z.pow_pos_nonneg; lia. Qed.

(** The carry out of a wrapping addition is read off a comparison. *)
Lemma carry x y : 0 <= x < B -> 0 <= y < B ->
  x + y = uw (x + y) + B * b2z (uw (x + y) <? y) /\ 0 <= uw (x + y) < B.
Proof.
  intros Hx Hy. split; [|apply uw_range]. unfold uw.
  destruct (Z.lt_ge_cases (x + y) B).
  - rewrite Z.mod_small by lia. destruct (Z.ltb_spec (x + y) y); cbn [b2z]; lia.
  - replace ((x + y) mod B) with (x + y - B).
    2:{ apply (Z.mod_unique _ _ 1); lia. }
    destruct (Z.ltb_spec (x + y - B) y); cbn [b2z]; lia.
Qed.

Lemma uw_id x : 0 <= x < B -> uw x = x.
Proof. intros. now apply Z.mod_small. Qed.

Lemma ut_id x : 0 <= x < 2 ^ wt -> ut x = x.
Proof. intros. now apply Z.mod_small. Qed.

Lemma B_top : B * B * 2 ^ wt > 0.
Proof. pose proof B_pos. assert (0 < 2 ^ wt) by (apply Z.pow_pos_nonneg; lia). nia. Qed.

(** High and low words of a product. *)
Lemma product_split a b A D : 0 <= a <= A -> 0 <= b <= D -> A < B -> D < B ->
  let th := uw ((a * b) >> w) in let tl := uw (a * b) in
  a * b = tl + B * th /\ 0 <= tl < B /\ 0 <= th /\ th <= B - 2.
Proof.
  intros Ha Hb HA HD. pose proof B_pos as P. pose proof B_ge2. cbv zeta. unfold uw.
  rewrite Z.shiftr_div_pow2 by lia.
  assert (0 <= a * b) by nia.
  assert (a * b <= (B - 1) * (B - 1)) by (apply Z.mul_le_mono_nonneg; lia).
  assert (a * b / B <= B - 2).
  { apply Z.lt_succ_r, Z.div_lt_upper_bound; [lia|]. nia. }
  pose proof (Z.div_pos (a * b) B ltac:(lia) P).
  pose proof (Z_div_mod_eq_full (a * b) B).
  pose proof (Z.mod_pos_bound (a * b) B P).
  rewrite (Z.mod_small (a * b / B)) by lia. lia.
Qed.

Lemma b2z_range b : 0 <= b2z b <= 1.
Proof. destruct b; cbn; lia. Qed.

(** The common tail of the macros: th is added to c1, its carry to c2. *)
Lemma add_tail x y z th N : 0 <= x < B -> 0 <= y < B -> 0 <= z < 2 ^ wt ->
  0 <= th < B -> x + B * (y + th) + B * B * z <= N -> N < B * B * 2 ^ wt ->
  let y' := uw (y + th) in let z' := ut (z + b2z (y' <? th)) in
  acc_ok (Acc x y' z') N /\
  acc_val (Acc x y' z') = x + B * (y + th) + B * B * z.
Proof.
  intros Hx Hy Hz Ht HN HN'. cbv zeta. pose proof B_pos.
  destruct (carry y th Hy Ht) as [E R].
  set (y' := uw (y + th)) in *. pose proof (b2z_range (y' <? th)).
  set (k := b2z (y' <? th)) in *.
  assert (Hz' : z + k < 2 ^ wt).
  { assert (B * B * (z + k) < B * B * 2 ^ wt) by nia.
    apply (Z.mul_lt_mono_pos_l (B * B)); nia. }
  rewrite ut_id by lia.
  assert (V : acc_val (Acc x y' (z + k)) = x + B * (y + th) + B * B * z).
  { unfold acc_val. cbn [c0 c1 c2]. rewrite E. ring. }
  split; [|exact V]. split; cbn [c0 c1 c2]; lia.
Qed.

Lemma muladd_ok c a b n A D : acc_ok c n -> 0 <= a <= A -> 0 <= b <= D ->
  A < B -> D < B -> n + A * D < B * B * 2 ^ wt ->
  acc_ok (muladd c a b) (n + A * D) /\ acc_val (muladd c a b) = acc_val c + a * b.
Proof.
  intros [H0 H1 H2 HV] Ha Hb HA HD Hn.
  destruct (product_split a b A D Ha Hb HA HD) as (E & Rl & Rh1 & Rh2).
  unfold muladd. cbv zeta. set (th := uw ((a * b) >> w)) in *. set (tl := uw (a * b)) in *.
  destruct (carry (c0 c) tl H0 Rl) as [E0 R0]. set (c0' := uw (c0 c + tl)) in *.
  pose proof (b2z_range (c0' <? tl)). rewrite (uw_id (th + _)) by lia.
  assert (M : a * b <= A * D) by (apply Z.mul_le_mono_nonneg; lia).
  unfold acc_val in HV.
  destruct (add_tail c0' (c1 c) (c2 c) (th + b2z (c0' <? tl)) (n + A * D)) as [K V];
    try assumption; try lia.
  split; [exact K|]. rewrite V. unfold acc_val. rewrite E. lia.
Qed.

(** For the fast macros the number stays below two words. *)
Lemma acc_fast c n : acc_ok c n -> n < B * B -> c2 c = 0.
Proof. intros [H0 H1 H2 HV] Hn. unfold acc_val in HV. pose proof B_pos. nia. Qed.

Lemma fast_tail x y th N : 0 <= x < B -> 0 <= y -> 0 <= th ->
  x + B * (y + th) <= N -> N < B * B ->
  acc_ok (Acc x (uw (y + th)) 0) N /\
  acc_val (Acc x (uw (y + th)) 0) = x + B * (y + th).
Proof.
  intros Hx Hy Ht HN HN'. pose proof B_pos. rewrite uw_id by nia.
  assert (0 < 2 ^ wt) by (apply Z.pow_pos_nonneg; lia).
  unfold acc_val; cbn [c0 c1 c2]. split; [|ring].
  split; unfold acc_val; cbn [c0 c1 c2]; nia.
Qed.

Lemma muladd_fast_ok c a b n A D : acc_ok c n -> 0 <= a <= A -> 0 <= b <= D ->
  A < B -> D < B -> n + A * D < B * B ->
  acc_ok (muladd_fast c a b) (n + A * D) /\
  acc_val (muladd_fast c a b) = acc_val c + a * b.
Proof.
  intros Hc Ha Hb HA HD Hn.
  assert (Hz : c2 c = 0) by (apply (acc_fast c n); [exact Hc|nia]).
  destruct Hc as [H0 H1 H2 HV]. unfold acc_val in HV.
  destruct (product_split a b A D Ha Hb HA HD) as (E & Rl & Rh1 & Rh2).
  unfold muladd_fast. cbv zeta. set (th := uw ((a * b) >> w)) in *. set (tl := uw (a * b)) in *.
  destruct (carry (c0 c) tl H0 Rl) as [E0 R0]. set (c0' := uw (c0 c + tl)) in *.
  pose proof (b2z_range (c0' <? tl)). rewrite (uw_id (th + _)) by lia.
  assert (M : a * b <= A * D) by (apply Z.mul_le_mono_nonneg; lia).
  rewrite Hz in *.
  destruct (fast_tail c0' (c1 c) (th + b2z (c0' <? tl)) (n + A * D)) as [K V];
    try assumption; try lia.
  split; [exact K|]. rewrite V. unfold acc_val. rewrite E, Hz. lia.
Qed.

Lemma sumadd_ok c a n A : acc_ok c n -> 0 <= a <= A -> A < B ->
  n + A < B * B * 2 ^ wt ->
  acc_ok (sumadd c a) (n + A) /\ acc_val (sumadd c a) = acc_val c + a.
Proof.
  intros [H0 H1 H2 HV] Ha HA Hn. unfold acc_val in HV. pose proof B_ge2.
  unfold sumadd. cbv zeta.
  destruct (carry (c0 c) a H0 ltac:(lia)) as [E0 R0]. set (c0' := uw (c0 c + a)) in *.
  pose proof (b2z_range (c0' <? a)).
  destruct (add_tail c0' (c1 c) (c2 c) (b2z (c0' <? a)) (n + A)) as [K V];
    try assumption; try lia.
  split; [exact K|]. rewrite V. unfold acc_val. lia.
Qed.

Lemma sumadd_fast_ok c a n A : acc_ok c n -> 0 <= a <= A -> A < B -> n + A < B * B ->
  acc_ok (sumadd_fast c a) (n + A) /\ acc_val (sumadd_fast c a) = acc_val c + a.
Proof.
  intros Hc Ha HA Hn.
  assert (Hz : c2 c = 0) by (apply (acc_fast c n); [exact Hc|lia]).
  destruct Hc as [H0 H1 H2 HV]. unfold acc_val in HV.
  unfold sumadd_fast. cbv zeta.
  destruct (carry (c0 c) a H0 ltac:(lia)) as [E0 R0]. set (c0' := uw (c0 c + a)) in *.
  pose proof (b2z_range (c0' <? a)). rewrite Hz in *.
  destruct (fast_tail c0' (c1 c) (b2z (c0' <? a)) (n + A)) as [K V];
    try assumption; try lia.
  split; [exact K|]. rewrite V. unfold acc_val. rewrite Hz. lia.
Qed.

(** The doubled high word with the carries of the low words: the second
    overflow of [th2] is seen by its being 0. *)
Lemma double_high th k1 k3 : 0 <= th <= B - 2 -> 0 <= k1 <= 1 -> (k3 = true \/ k3 = false) ->
  let th2 := uw (th + th) in
  let th2' := uw (th2 + k1) in
  let th2'' := uw (th2' + b2z k3) in
  2 * th + k1 + b2z k3 = th2'' + B * (b2z (th2 <? th) + (b2z k3 .& b2z (th2'' =? 0))) /\
  0 <= th2'' < B.
Proof.
  intros Ht Hk1 Hk3. cbv zeta. pose proof B_ge2.
  destruct (carry th th ltac:(lia) ltac:(lia)) as [E R].
  set (th2 := uw (th + th)) in *. set (k := b2z (th2 <? th)) in *.
  assert (Ek : B = 2 * 2 ^ (w - 1)).
  { rewrite <- Z.pow_succ_r by lia. f_equal. lia. }
  assert (0 <= k <= 1) by apply b2z_range.
  assert (th2 <= B - 2) by nia.
  rewrite (uw_id (th2 + k1)) by lia. split; [|apply uw_range].
  destruct Hk3 as [-> | ->]; cbn [b2z].
  - destruct (Z.eq_dec (th2 + k1) (B - 1)) as [Eq|Ne].
    + replace (th2 + k1 + 1) with B by lia. unfold uw. rewrite Z_mod_same_full.
      change (1 .& b2z (0 =? 0)) with 1. lia.
    + rewrite uw_id by lia. destruct (Z.eqb_spec (th2 + k1 + 1) 0); [lia|].
      change (1 .& b2z false) with 0. lia.
  - rewrite Z.add_0_r, uw_id, Z.land_0_l by lia. lia.
Qed.

Lemma muladd2_ok c a b n A D : acc_ok c n -> 0 <= a <= A -> 0 <= b <= D ->
  A < B -> D < B -> n + 2 * (A * D) < B * B * 2 ^ wt ->
  acc_ok (muladd2 c a b) (n + 2 * (A * D)) /\
  acc_val (muladd2 c a b) = acc_val c + 2 * (a * b).
Proof.
  intros [H0 H1 H2 HV] Ha Hb HA HD Hn. unfold acc_val in HV. pose proof B_ge2 as P.
  destruct (product_split a b A D Ha Hb HA HD) as (E & Rl & Rh1 & Rh2).
  assert (M : a * b <= A * D) by (apply Z.mul_le_mono_nonneg; lia).
  unfold muladd2. cbv zeta. set (th := uw ((a * b) >> w)) in *. set (tl := uw (a * b)) in *.
  destruct (carry tl tl Rl Rl) as [E1 R1]. set (tl2 := uw (tl + tl)) in *.
  destruct (carry (c0 c) tl2 H0 R1) as [E3 R3]. set (c0' := uw (c0 c + tl2)) in *.
  destruct (double_high th (b2z (tl2 <? tl)) (c0' <? tl2) ltac:(lia) (b2z_range _)
    ltac:(destruct (c0' <? tl2); auto)) as [E2 R2].
  set (th2 := uw (uw (uw (th + th) + _) + _)) in *.
  pose proof (b2z_range (uw (th + th) <? th)).
  set (k0 := b2z (uw (th + th) <? th)) in *.
  assert (0 <= b2z (c0' <? tl2) .& b2z (th2 =? 0)) by (apply Z.land_nonneg; left; apply b2z_range).
  set (k2 := b2z (c0' <? tl2) .& b2z (th2 =? 0)) in *.
  set (k1 := b2z (tl2 <? tl)) in *. set (k3 := b2z (c0' <? tl2)) in *.
  assert (T : c0' + B * (c1 c + th2) + B * B * (c2 c + k0 + k2)
    = c0 c + B * c1 c + B * B * c2 c + 2 * (a * b)) by (rewrite E; nia).
  assert (Hz : c2 c + k0 + k2 < 2 ^ wt).
  { apply (Z.mul_lt_mono_pos_l (B * B)); [nia|]. 
    assert (0 <= c0' + B * (c1 c + th2)) by nia. lia. }
  rewrite (ut_id (c2 c + k0)), (ut_id (c2 c + k0 + k2)) by lia.
  destruct (add_tail c0' (c1 c) (c2 c + k0 + k2) th2 (n + 2 * (A * D))) as [K V];
    try assumption; try lia.
  split; [exact K|]. rewrite V. unfold acc_val. lia.
Qed.

Lemma acc_val_nonneg c n : acc_ok c n -> 0 <= acc_val c.
Proof. intros [H0 H1 H2 _]. unfold acc_val. pose proof B_pos. nia. Qed.

Lemma extract_ok c n : acc_ok c n ->
  acc_ok (snd (extract c)) (n / B) /\ 0 <= fst (extract c) < B /\
  acc_val c = fst (extract c) + B * acc_val (snd (extract c)).
Proof.
  intros [H0 H1 H2 HV]. unfold extract. cbn [fst snd]. pose proof B_pos as P.
  assert (Hle : 2 ^ wt <= B) by (apply Z.pow_le_mono_r; lia).
  assert (E : acc_val c = c0 c + B * acc_val (Acc (c1 c) (c2 c) 0)).
  { unfold acc_val. cbn [c0 c1 c2]. ring. }
  split; [|split; [exact H0|exact E]].
  split; cbn [c0 c1 c2]; try lia.
  apply Z.div_le_lower_bound; [exact P|]. lia.
Qed.

Lemma extract_fast_ok c n : acc_ok c n -> n < B * B ->
  acc_ok (snd (extract_fast c)) (n / B) /\ 0 <= fst (extract_fast c) < B /\
  acc_val c = fst (extract_fast c) + B * acc_val (snd (extract_fast c)).
Proof.
  intros Hc Hn. assert (Hz : c2 c = 0) by now apply (acc_fast c n).
  pose proof (extract_ok c n Hc) as H. unfold extract_fast, extract in *.
  now rewrite Hz in *.
Qed.

Lemma acc_init x n : 0 <= x <= n -> n < B -> acc_ok (Acc x 0 0) n /\ acc_val (Acc x 0 0) = x.
Proof.
  intros Hx Hn. assert (0 < 2 ^ wt) by (apply Z.pow_pos_nonneg; lia).
  unfold acc_val. cbn [c0 c1 c2]. split; [|ring]. split; unfold acc_val; cbn [c0 c1 c2]; lia.
Qed.

(** An accumulator below one word holds it in c0. *)
Lemma acc_last c n : acc_ok c n -> n < B -> acc_val c = c0 c /\ 0 <= c0 c <= n.
Proof.
  intros [H0 H1 H2 HV] Hn. unfold acc_val in *. pose proof B_pos.
  assert (c2 c = 0) by nia. assert (c1 c = 0) by nia. nia.
Qed.
End Macros.

(** ** Stepping through the macros

    [acc_step] takes one macro of a sequence, with the bound of the accumulator
    computed from the bounds of the operands. *)

Lemma wp_pair {A B C} (P : C -> Prop) (e : A * B) (b : A -> B -> C) :
  (forall x y, e = (x, y) -> wp P (b x y)) -> wp P (let '(x, y) := e in b x y).
Proof. destruct e as [x y]. intros H. now apply H. Qed.

Ltac with_bound x k :=
  let H := fresh "H" in bound_as x H;
  lazymatch type of H with Bounded _ ?n => k n H end.

Ltac find_acc c k :=
  match goal with H : acc_ok ?w ?t c ?n |- _ => k w t n H end.

(** Facts about the accumulator [e], with its bound evaluated. *)
Ltac acc_facts pf n :=
  let K := fresh "K" in let V := fresh "V" in
  destruct pf as [K V];
  let n' := eval vm_compute in n in
  lazymatch type of K with acc_ok ?w ?t ?c _ => change (acc_ok w t c n') in K end.

Ltac acc_op e :=
  lazymatch e with
  | Acc ?x 0 0 => fail
  | muladd ?w ?t ?c ?u ?v => find_acc c ltac:(fun w t n Hc =>
      with_bound u ltac:(fun A Hu => with_bound v ltac:(fun D Hv =>
      acc_facts (muladd_ok w t ltac:(lia) c u v n A D Hc Hu Hv eq_refl eq_refl eq_refl)
        (n + A * D))))
  | muladd2 ?w ?t ?c ?u ?v => find_acc c ltac:(fun w t n Hc =>
      with_bound u ltac:(fun A Hu => with_bound v ltac:(fun D Hv =>
      acc_facts (muladd2_ok w t ltac:(lia) c u v n A D Hc Hu Hv eq_refl eq_refl eq_refl)
        (n + 2 * (A * D)))))
  | muladd_fast _ ?c ?u ?v => find_acc c ltac:(fun w t n Hc =>
      with_bound u ltac:(fun A Hu => with_bound v ltac:(fun D Hv =>
      acc_facts (muladd_fast_ok w t ltac:(lia) c u v n A D Hc Hu Hv eq_refl eq_refl eq_refl)
        (n + A * D))))
  | sumadd ?w ?t ?c ?u => find_acc c ltac:(fun w t n Hc =>
      with_bound u ltac:(fun A Hu =>
      acc_facts (sumadd_ok w t ltac:(lia) c u n A Hc Hu eq_refl eq_refl) (n + A)))
  | sumadd_fast _ ?c ?u => find_acc c ltac:(fun w t n Hc =>
      with_bound u ltac:(fun A Hu =>
      acc_facts (sumadd_fast_ok w t ltac:(lia) c u n A Hc Hu eq_refl eq_refl) (n + A)))
  end.

Ltac acc_split pf E w n :=
  let K := fresh "K" in let R := fresh "R" in let V := fresh "V" in
  pose proof pf as (K & R & V); rewrite E in K, R, V; cbn [fst snd] in K, R, V;
  let n' := eval vm_compute in (n / 2 ^ w) in
  let m' := eval vm_compute in (2 ^ w - 1) in
  (lazymatch type of K with acc_ok ?w ?t ?c _ => change (acc_ok w t c n') in K end);
  (lazymatch type of R with 0 <= ?x < _ =>
    let R' := fresh "R" in assert (R' : Bounded x m') by (unfold Bounded; lia); clear R end).

Ltac acc_step :=
  lazymatch goal with
  | |- wp ?P (let '(x, y) := extract ?c in @?b x y) =>
    apply (wp_pair P (extract c) b); let x := fresh "x" in let c' := fresh "ac" in
    let E := fresh "E" in intros x c' E;
    find_acc c ltac:(fun w t n Hc => acc_split (extract_ok w t ltac:(lia) c n Hc) E w n);
    clear E; cbv beta
  | |- wp ?P (let '(x, y) := extract_fast ?c in @?b x y) =>
    apply (wp_pair P (extract_fast c) b); let x := fresh "x" in let c' := fresh "ac" in
    let E := fresh "E" in intros x c' E;
    find_acc c ltac:(fun w t n Hc => acc_split (extract_fast_ok w t ltac:(lia) c n Hc eq_refl) E w n);
    clear E; cbv beta
  | |- wp ?P (let c := ?e in @?b c) =>
    acc_op e;
    let y := fresh "ac" in let E := fresh "E" in
    apply (wp_let P e b); intros y E; cbv beta; rewrite <- E in *; clear E
  end.

(** Start an accumulator at the word [x]. *)
Ltac acc_start w t :=
  lazymatch goal with
  | |- wp ?P (let c := Acc ?x 0 0 in @?b c) =>
    with_bound x ltac:(fun n Hx =>
      acc_facts (acc_init w t ltac:(lia) x n Hx eq_refl) n);
    let y := fresh "ac" in let E := fresh "E" in
    apply (wp_let P (Acc x 0 0) b); intros y E; cbv beta; rewrite <- E in *; clear E
  end.

(** The last word of a product is what is left in the accumulator. *)
Ltac last_word :=
  lazymatch goal with
  | |- wp ?P (let l := ?e in @?b l) =>
    lazymatch e with context [c0 ?c] =>
      find_acc c ltac:(fun w t n K =>
        let Ec := fresh "Ec" in let Bc := fresh "Bc" in
        destruct (acc_last w t ltac:(lia) c n K eq_refl) as [Ec Bc];
        fold (Bounded (c0 c) n) in Bc)
    end
  end.

(** ** Little-endian arrays of words *)

Definition words_of (w : Z) (l : list Z) : Z := fold_right (fun d acc => d + 2 ^ w * acc) 0 l.

Definition words_in (m : Z) (l : list Z) : Prop := Forall (fun d => Bounded d m) l.

Lemma words_range w l : 0 <= w -> words_in (2 ^ w - 1) l ->
  0 <= words_of w l < 2 ^ (w * Z.of_nat (length l)).
Proof.
  intros Hw. assert (0 < 2 ^ w) by (apply Z.pow_pos_nonneg; lia).
  induction 1 as [|d l Hd Hl IH]; cbn [words_of fold_right length].
  - rewrite Z.mul_0_r. cbn. lia.
  - fold (words_of w l). unfold Bounded in Hd.
    rewrite Nat2Z.inj_succ, Z.mul_succ_r, Z.add_comm, Z.pow_add_r by lia.
    remember (2 ^ (w * Z.of_nat (length l))) as N. nia.
Qed.

Lemma words_dig w l i : 0 <= w -> words_in (2 ^ w - 1) l -> 0 <= i ->
  at_ l i = dig w (words_of w l) i.
Proof.
  intros Hw H. revert i. assert (P : 0 < 2 ^ w) by (apply Z.pow_pos_nonneg; lia).
  induction H as [|d l Hd Hl IH]; intros i Hi.
  { change (words_of w []) with 0. unfold at_, dig.
    rewrite Z.div_0_l, Z.mod_0_l by (try apply Z.pow_nonzero; nia).
    now destruct (Z.to_nat i). }
  cbn [words_of fold_right]. fold (words_of w l). unfold Bounded in Hd.
  destruct (Z.eq_dec i 0) as [->|Hne].
  - unfold dig, at_. rewrite Z.mul_0_r, Z.pow_0_r, Z.div_1_r. cbn [Z.to_nat nth].
    rewrite Z.mul_comm, Z_mod_plus_full, Z.mod_small; lia.
  - transitivity (at_ l (i - 1)).
    { unfold at_. replace (Z.to_nat i) with (S (Z.to_nat (i - 1))) by lia. reflexivity. }
    rewrite IH by lia. unfold dig.
    replace (w * i) with (w + w * (i - 1)) by ring. rewrite Z.pow_add_r by nia.
    rewrite <- Z.div_div by (try apply Z.pow_pos_nonneg; nia).
    do 2 f_equal. rewrite Z.mul_comm, Z.div_add, Z.div_small by lia. lia.
Qed.

(** The top word [m - 1] of [m] words shifted right. *)
Lemma shr_dig_top w m v n : 0 < w -> 0 < m -> 0 <= n -> 0 <= v < 2 ^ (w * m) ->
  dig w v (m - 1) >> n = dig w (v / 2 ^ n) (m - 1).
Proof.
  intros Hw Hm Hn Hv. rewrite Z.shiftr_div_pow2, dig_shift by lia. unfold dig.
  set (k := w * (m - 1)). assert (Ek : w * m = k + w) by (unfold k; ring).
  rewrite Ek, Z.pow_add_r in Hv by (unfold k; nia).
  assert (0 < 2 ^ k) by (apply Z.pow_pos_nonneg; unfold k; nia).
  assert (v / 2 ^ k < 2 ^ w) by (apply Z.div_lt_upper_bound; lia).
  pose proof (Z.div_pos v (2 ^ k) ltac:(lia) ltac:(lia)).
  assert (0 < 2 ^ n) by (apply Z.pow_pos_nonneg; lia).
  rewrite Z.pow_add_r, <- Z.div_div by (unfold k; nia).
  rewrite (Z.mod_small (v / _)) by lia. rewrite Z.mod_small; [reflexivity|].
  split; [apply Z.div_pos; lia|].
  apply (Z.le_lt_trans _ (v / 2 ^ k)); [apply Z.div_le_upper_bound; nia|lia].
Qed.

(** One word of [P >> sh] as the code reads it from the words of [P]. *)
Lemma shifted_word w m P sh j (b : bool) : 0 < w -> w * m = 512 ->
  0 <= P < 2 ^ 512 -> 0 <= sh <= 512 -> 0 <= j ->
  (if b then sh mod w <> 0 else sh mod w = 0 \/ 512 - w <= sh + w * j) ->
  (if sh <? 512 - w * j
   then (dig w P (j + sh / w) >> (sh mod w))
        .| (if b then (dig w P (1 + j + sh / w) << (w - sh mod w)) mod 2 ^ w else 0)
   else 0) = dig w (P / 2 ^ sh) j.
Proof.
  intros Hw Hm HP Hs Hj Hb. set (q := sh / w) in *. set (s := sh mod w) in *.
  assert (E : sh = w * q + s) by apply Z_div_mod_eq_full.
  assert (0 <= s < w) by (apply Z.mod_pos_bound; lia).
  assert (0 <= q) by (apply Z.div_pos; lia).
  rewrite dig_shift by lia. replace (w * j + sh) with (w * (j + q) + s) by (rewrite E; ring).
  destruct (Z.ltb_spec sh (512 - w * j)).
  - destruct (Z.eq_dec s 0) as [Hz|Hz].
    { destruct b; [easy|]. rewrite Hz, Z.shiftr_0_r, Z.lor_0_r, Z.add_0_r. reflexivity. }
    rewrite <- funnel by lia. f_equal. replace (1 + j + q) with (j + q + 1) by lia.
    destruct b; [reflexivity|]. rewrite (dig_above w P m) by (rewrite ?Hm; lia || nia).
    now rewrite Z.shiftl_0_l, Z.mod_0_l by (apply Z.pow_nonzero; lia).
  - rewrite Z.div_small; [now rewrite Z.mod_0_l by (apply Z.pow_nonzero; lia)|]. split; [lia|].
    apply (Z.lt_le_trans _ (2 ^ 512)); [lia|apply Z.pow_le_mono_r; [lia|]]. lia.
Qed.

(** Rounding to nearest is adding the highest bit shifted out. *)
Lemma round_half P s : 0 <= P -> 0 < s ->
  (P + 2 ^ (s - 1)) / 2 ^ s = P / 2 ^ s + b2z (Z.testbit P (s - 1)).
Proof.
  intros HP Hs. set (h := 2 ^ (s - 1)).
  assert (Hh : 0 < h) by (apply Z.pow_pos_nonneg; lia).
  assert (E : 2 ^ s = h * 2).
  { unfold h. rewrite Z.mul_comm, <- Z.pow_succ_r by lia. f_equal. lia. }
  rewrite E, <- !Z.div_div by lia. replace (P + h) with (P + 1 * h) by ring.
  rewrite Z.div_add by lia.
  assert (T : Z.testbit P (s - 1) = Z.odd (P / h)).
  { unfold h. rewrite <- Z.bit0_odd, Z.div_pow2_bits by lia. f_equal. }
  rewrite T. pose proof (Zodd_div2 (P / h)). pose proof (Zeven_div2 (P / h)).
  rewrite Zdiv2_div in *.
  destruct (Z.odd (P / h)) eqn:O; cbn [b2z].
  - apply Zodd_bool_iff in O. dlia.
  - rewrite <- Z.negb_even in O. apply negb_false_iff, Zeven_bool_iff in O. dlia.
Qed.

Lemma word_eq v x b : v = x + b -> x = v - b.
Proof. lia. Qed.

(** Express the words of a product by the accumulator, and the accumulator by
    the products it added; what is left is a ring equation. *)
Ltac acc_sums :=
  repeat match goal with
  | V : acc_val ?w ?c = ?x + 2 ^ ?w * acc_val ?w ?c' |- context [?x] =>
    is_var x; apply word_eq in V; rewrite V; clear V
  end;
  repeat match goal with
  | V : acc_val ?w ?c = _ |- context [acc_val ?w ?c] => rewrite V; clear V
  end.

Ltac words_done :=
  split; [reflexivity|]; split; [repeat (apply Forall_cons; [assumption|]); apply Forall_nil|];
  unfold words_of; cbn [fold_right].
