(* ===== verification/ScalarSpec.v ===== *)
(** * What the scalar implementations promise

    scalar_4x64_impl.h and scalar_8x32_impl.h hold an integer modulo the group
    order in four or eight words; the representation is always reduced.
    [ScalarImpl] is the interface of scalar.h the rest of the library uses:
    [sval] is the integer a scalar denotes and [sok] says that it is stored in
    canonical form. *)
From S2P Require Import Prelude.

(** The group order (SEC2 2.7.1). *)
Definition n_order : Z :=
  0xFFFFFFFFFFFFFFFFFFFFFFFFFFFFFFFEBAAEDCE6AF48A03BBFD25E8CD0364141.

Lemma mod_once v : 0 <= v < 2 * n_order ->
  v - b2z (n_order <=? v) * n_order = v mod n_order.
Proof.
  intros Hv. destruct (Z.leb_spec n_order v); cbn [b2z].
  - apply (Z.mod_unique _ _ 1); lia.
  - rewrite Z.mod_small; lia.
Qed.

Lemma neg_mod v : 0 <= v < n_order -> (- v) mod n_order = if v =? 0 then 0 else n_order - v.
Proof.
  intros Hv. destruct (Z.eqb_spec v 0) as [->|]; [reflexivity|].
  symmetry. apply (Z.mod_unique _ _ (-1)); lia.
Qed.

Class ScalarImpl := {
  scalar : Type;
  (** abstraction *)
  sval : scalar -> Z;
  sok : scalar -> Prop;
  (** operations of scalar.h *)
  s_const : Z -> Z -> Z -> Z -> Z -> Z -> Z -> Z -> scalar;
  s_clear : scalar -> scalar;
  s_set_int : Z -> scalar;
  s_set_u64 : Z -> scalar;
  s_get_bits : scalar -> Z -> Z -> Z;
  s_get_bits_var : scalar -> Z -> Z -> Z;
  s_set_b32 : bytes -> scalar * bool;
  s_get_b32 : scalar -> bytes;
  s_add : scalar -> scalar -> scalar * bool;
  s_cadd_bit : scalar -> Z -> bool -> scalar;
  s_mul : scalar -> scalar -> scalar;
  s_sqr : scalar -> scalar;
  s_shr_int : scalar -> Z -> scalar * Z;
  s_negate : scalar -> scalar;
  s_cond_negate : scalar -> bool -> scalar * Z;
  s_is_zero : scalar -> bool;
  s_is_one : scalar -> bool;
  s_is_even : scalar -> bool;
  s_is_high : scalar -> bool;
  s_eq : scalar -> scalar -> bool;
  s_split_128 : scalar -> scalar * scalar;
  s_mul_shift_var : scalar -> scalar -> Z -> scalar;
  (** canonical form *)
  sok_range : forall a, sok a -> 0 <= sval a < n_order;
  sok_inj : forall a b, sok a -> sok b -> sval a = sval b -> a = b;
  (** laws *)
  s_const_ok : forall d7 d6 d5 d4 d3 d2 d1 d0,
    Forall (fun d => 0 <= d < 2 ^ 32) [d7; d6; d5; d4; d3; d2; d1; d0] ->
    words_val d7 d6 d5 d4 d3 d2 d1 d0 < n_order ->
    sok (s_const d7 d6 d5 d4 d3 d2 d1 d0) /\
    sval (s_const d7 d6 d5 d4 d3 d2 d1 d0) = words_val d7 d6 d5 d4 d3 d2 d1 d0;
  s_clear_ok : forall a, sok (s_clear a) /\ sval (s_clear a) = 0;
  s_set_int_ok : forall v, 0 <= v < 2 ^ 32 -> sok (s_set_int v) /\ sval (s_set_int v) = v;
  s_set_u64_ok : forall v, 0 <= v < 2 ^ 64 -> sok (s_set_u64 v) /\ sval (s_set_u64 v) = v;
  s_get_bits_ok : forall a off cnt, sok a -> 0 <= off -> 0 < cnt < 32 ->
    off + cnt <= 256 -> (off + cnt - 1) / 32 = off / 32 ->
    s_get_bits a off cnt = (sval a / 2 ^ off) mod 2 ^ cnt;
  s_get_bits_var_ok : forall a off cnt, sok a -> 0 <= off -> 0 < cnt < 32 ->
    off + cnt <= 256 -> s_get_bits_var a off cnt = (sval a / 2 ^ off) mod 2 ^ cnt;
  s_set_b32_ok : forall l, Forall is_byte l -> length l = 32%nat ->
    let '(a, overflow) := s_set_b32 l in
    sok a /\ sval a = be_val l mod n_order /\ overflow = (n_order <=? be_val l);
  s_get_b32_ok : forall a, sok a -> s_get_b32 a = be_bytes 32 (sval a);
  s_add_ok : forall a b, sok a -> sok b ->
    let '(r, overflow) := s_add a b in
    sok r /\ sval r = (sval a + sval b) mod n_order /\
    overflow = (n_order <=? sval a + sval b);
  s_cadd_bit_ok : forall a bit flag, sok a -> 0 <= bit < 256 ->
    (flag = true -> sval a + 2 ^ bit < n_order) ->
    sok (s_cadd_bit a bit flag) /\
    sval (s_cadd_bit a bit flag) = if flag then sval a + 2 ^ bit else sval a;
  s_mul_ok : forall a b, sok a -> sok b ->
    sok (s_mul a b) /\ sval (s_mul a b) = (sval a * sval b) mod n_order;
  s_sqr_ok : forall a, sok a ->
    sok (s_sqr a) /\ sval (s_sqr a) = (sval a * sval a) mod n_order;
  s_shr_int_ok : forall a n, sok a -> 0 < n < 16 ->
    let '(r, low) := s_shr_int a n in
    sok r /\ sval r = sval a / 2 ^ n /\ low = sval a mod 2 ^ n;
  s_negate_ok : forall a, sok a ->
    sok (s_negate a) /\ sval (s_negate a) = (- sval a) mod n_order;
  s_cond_negate_ok : forall a flag, sok a ->
    let '(r, sign) := s_cond_negate a flag in
    sok r /\ sval r = (if flag then (- sval a) mod n_order else sval a) /\
    sign = (if flag then -1 else 1);
  s_is_zero_ok : forall a, sok a -> s_is_zero a = (sval a =? 0);
  s_is_one_ok : forall a, sok a -> s_is_one a = (sval a =? 1);
  s_is_even_ok : forall a, sok a -> s_is_even a = Z.even (sval a);
  s_is_high_ok : forall a, sok a -> s_is_high a = (n_order / 2 <? sval a);
  s_eq_ok : forall a b, sok a -> sok b -> s_eq a b = (sval a =? sval b);
  s_split_128_ok : forall a, sok a ->
    let '(r1, r2) := s_split_128 a in
    sok r1 /\ sok r2 /\ sval r1 = sval a mod 2 ^ 128 /\ sval r2 = sval a / 2 ^ 128;
  s_mul_shift_var_ok : forall a b shift, sok a -> sok b -> 256 <= shift <= 512 ->
    sok (s_mul_shift_var a b shift) /\
    sval (s_mul_shift_var a b shift)
      = (sval a * sval b + 2 ^ (shift - 1)) / 2 ^ shift;
}.
