(* ===== verification/Scalar4x64.v ===== *)
(** * scalar_4x64_impl.h: scalars in four 64-bit words

    The portable code (no inline assembly).  A scalar is the record of its
    words [d0] to [d3]; a C result returned through a pointer is the value of
    the definition, paired with the return value where there is one. *)
From S2P Require Import Prelude ScalarSpec Accum.

Record scalar := Scalar { d0 : Z; d1 : Z; d2 : Z; d3 : Z }.

(** Word [i] of the array. *)
Definition word (a : scalar) (i : Z) : Z := at_ [d0 a; d1 a; d2 a; d3 a] i.

Definition SECP256K1_SCALAR_CONST (d7 d6 d5 d4 d3 d2 d1 d0 : Z) : scalar :=
  Scalar ((d1 << 32) .| d0) ((d3 << 32) .| d2) ((d5 << 32) .| d4) ((d7 << 32) .| d6).

(** Limbs of the order, of 2^256 minus the order, and of half the order. *)
Definition SECP256K1_N_0 : Z := 0xBFD25E8CD0364141.
Definition SECP256K1_N_1 : Z := 0xBAAEDCE6AF48A03B.
Definition SECP256K1_N_2 : Z := 0xFFFFFFFFFFFFFFFE.
Definition SECP256K1_N_3 : Z := 0xFFFFFFFFFFFFFFFF.
Definition SECP256K1_N_C_0 : Z := u64 (not64 SECP256K1_N_0 + 1).
Definition SECP256K1_N_C_1 : Z := not64 SECP256K1_N_1.
Definition SECP256K1_N_C_2 : Z := 1.
Definition SECP256K1_N_H_0 : Z := 0xDFE92F46681B20A0.
Definition SECP256K1_N_H_1 : Z := 0x5D576E7357A4501D.
Definition SECP256K1_N_H_2 : Z := 0xFFFFFFFFFFFFFFFF.
Definition SECP256K1_N_H_3 : Z := 0x7FFFFFFFFFFFFFFF.

Definition secp256k1_scalar_clear (r : scalar) : scalar := Scalar 0 0 0 0.

Definition secp256k1_scalar_set_int (v : Z) : scalar := Scalar v 0 0 0.

Definition secp256k1_scalar_set_u64 (v : Z) : scalar := Scalar v 0 0 0.

(** The result is converted to a 32-bit [unsigned int]. *)
Definition secp256k1_scalar_get_bits (a : scalar) (offset count : Z) : Z :=
  u32 ((word a (offset >> 6) >> (offset .& 0x3F)) .& u64 (u64 (1 << count) - 1)).

Definition secp256k1_scalar_get_bits_var (a : scalar) (offset count : Z) : Z :=
  if (u32 (u32 (offset + count) - 1) >> 6) =? (offset >> 6)
  then secp256k1_scalar_get_bits a offset count
  else u32 (((word a (offset >> 6) >> (offset .& 0x3F))
             .| u64 (word a ((offset >> 6) + 1) << (64 - (offset .& 0x3F))))
            .& u64 (u64 (1 << count) - 1)).

Definition secp256k1_scalar_check_overflow (a : scalar) : Z :=
  let yes := 0 in
  let no := 0 in
  let no := no .| b2z (d3 a <? SECP256K1_N_3) in
  let no := no .| b2z (d2 a <? SECP256K1_N_2) in
  let yes := yes .| (b2z (SECP256K1_N_2 <? d2 a) .& Z.lnot no) in
  let no := no .| b2z (d1 a <? SECP256K1_N_1) in
  let yes := yes .| (b2z (SECP256K1_N_1 <? d1 a) .& Z.lnot no) in
  let yes := yes .| (b2z (SECP256K1_N_0 <=? d0 a) .& Z.lnot no) in
  yes.

Definition secp256k1_scalar_reduce (r : scalar) (overflow : Z) : scalar * Z :=
  let t := u128 (d0 r + u64 (overflow * SECP256K1_N_C_0)) in
  let r0 := t .& 0xFFFFFFFFFFFFFFFF in let t := t >> 64 in
  let t := u128 (t + u128 (d1 r + u64 (overflow * SECP256K1_N_C_1))) in
  let r1 := t .& 0xFFFFFFFFFFFFFFFF in let t := t >> 64 in
  let t := u128 (t + u128 (d2 r + u32 (overflow * SECP256K1_N_C_2))) in
  let r2 := t .& 0xFFFFFFFFFFFFFFFF in let t := t >> 64 in
  let t := u128 (t + d3 r) in
  let r3 := t .& 0xFFFFFFFFFFFFFFFF in
  (Scalar r0 r1 r2 r3, overflow).

Definition secp256k1_scalar_add (a b : scalar) : scalar * Z :=
  let t := u128 (d0 a + d0 b) in
  let r0 := t .& 0xFFFFFFFFFFFFFFFF in let t := t >> 64 in
  let t := u128 (t + u128 (d1 a + d1 b)) in
  let r1 := t .& 0xFFFFFFFFFFFFFFFF in let t := t >> 64 in
  let t := u128 (t + u128 (d2 a + d2 b)) in
  let r2 := t .& 0xFFFFFFFFFFFFFFFF in let t := t >> 64 in
  let t := u128 (t + u128 (d3 a + d3 b)) in
  let r3 := t .& 0xFFFFFFFFFFFFFFFF in let t := t >> 64 in
  let r := Scalar r0 r1 r2 r3 in
  let overflow := u32 (t + secp256k1_scalar_check_overflow r) in
  let '(r, _) := secp256k1_scalar_reduce r overflow in
  (r, overflow).

Definition secp256k1_scalar_cadd_bit (r : scalar) (bit : Z) (flag : bool) : scalar :=
  let bit := u32 (bit + (u32 (b2z flag - 1) .& 0x100)) in
  let t := u128 (d0 r + u64 (b2z ((bit >> 6) =? 0) << (bit .& 0x3F))) in
  let r0 := t .& 0xFFFFFFFFFFFFFFFF in let t := t >> 64 in
  let t := u128 (t + u128 (d1 r + u64 (b2z ((bit >> 6) =? 1) << (bit .& 0x3F)))) in
  let r1 := t .& 0xFFFFFFFFFFFFFFFF in let t := t >> 64 in
  let t := u128 (t + u128 (d2 r + u64 (b2z ((bit >> 6) =? 2) << (bit .& 0x3F)))) in
  let r2 := t .& 0xFFFFFFFFFFFFFFFF in let t := t >> 64 in
  let t := u128 (t + u128 (d3 r + u64 (b2z ((bit >> 6) =? 3) << (bit .& 0x3F)))) in
  let r3 := t .& 0xFFFFFFFFFFFFFFFF in
  Scalar r0 r1 r2 r3.

(** The word whose least significant byte is [b lo]. *)
Definition join8 (b : Z -> Z) (lo : Z) : Z :=
  (((((((b lo .| (b (lo - 1) << 8)) .| (b (lo - 2) << 16)) .| (b (lo - 3) << 24))
    .| (b (lo - 4) << 32)) .| (b (lo - 5) << 40)) .| (b (lo - 6) << 48))
    .| (b (lo - 7) << 56)).

Definition secp256k1_scalar_set_b32 (b32 : bytes) : scalar * Z :=
  let b := at_ b32 in
  let r := Scalar (join8 b 31) (join8 b 23) (join8 b 15) (join8 b 7) in
  secp256k1_scalar_reduce r (secp256k1_scalar_check_overflow r).

Definition secp256k1_scalar_get_b32 (a : scalar) : bytes :=
  flat_map (fun d => map u8 [d >> 56; d >> 48; d >> 40; d >> 32; d >> 24; d >> 16; d >> 8; d])
    [d3 a; d2 a; d1 a; d0 a].

Definition secp256k1_scalar_is_zero (a : scalar) : bool :=
  (((d0 a .| d1 a) .| d2 a) .| d3 a) =? 0.

Definition secp256k1_scalar_negate (a : scalar) : scalar :=
  let nonzero := u64 (0xFFFFFFFFFFFFFFFF * b2z (negb (secp256k1_scalar_is_zero a))) in
  let t := u128 (u128 (not64 (d0 a) + SECP256K1_N_0) + 1) in
  let r0 := t .& nonzero in let t := t >> 64 in
  let t := u128 (t + u128 (not64 (d1 a) + SECP256K1_N_1)) in
  let r1 := t .& nonzero in let t := t >> 64 in
  let t := u128 (t + u128 (not64 (d2 a) + SECP256K1_N_2)) in
  let r2 := t .& nonzero in let t := t >> 64 in
  let t := u128 (t + u128 (not64 (d3 a) + SECP256K1_N_3)) in
  let r3 := t .& nonzero in
  Scalar r0 r1 r2 r3.

Definition secp256k1_scalar_is_one (a : scalar) : bool :=
  ((((d0 a .^ 1) .| d1 a) .| d2 a) .| d3 a) =? 0.

Definition secp256k1_scalar_is_high (a : scalar) : Z :=
  let yes := 0 in
  let no := 0 in
  let no := no .| b2z (d3 a <? SECP256K1_N_H_3) in
  let yes := yes .| (b2z (SECP256K1_N_H_3 <? d3 a) .& Z.lnot no) in
  let no := no .| (b2z (d2 a <? SECP256K1_N_H_2) .& Z.lnot yes) in
  let no := no .| (b2z (d1 a <? SECP256K1_N_H_1) .& Z.lnot yes) in
  let yes := yes .| (b2z (SECP256K1_N_H_1 <? d1 a) .& Z.lnot no) in
  let yes := yes .| (b2z (SECP256K1_N_H_0 <? d0 a) .& Z.lnot no) in
  yes.

Definition secp256k1_scalar_cond_negate (r : scalar) (flag : bool) : scalar * Z :=
  let mask := u64 (b2z (negb flag) - 1) in
  let nonzero := u64 (b2z (secp256k1_scalar_is_zero r) - 1) in
  let t := u128 ((d0 r .^ mask) + (u64 (SECP256K1_N_0 + 1) .& mask)) in
  let r0 := t .& nonzero in let t := t >> 64 in
  let t := u128 (t + u128 ((d1 r .^ mask) + (SECP256K1_N_1 .& mask))) in
  let r1 := t .& nonzero in let t := t >> 64 in
  let t := u128 (t + u128 ((d2 r .^ mask) + (SECP256K1_N_2 .& mask))) in
  let r2 := t .& nonzero in let t := t >> 64 in
  let t := u128 (t + u128 ((d3 r .^ mask) + (SECP256K1_N_3 .& mask))) in
  let r3 := t .& nonzero in
  (Scalar r0 r1 r2 r3, 2 * b2z (mask =? 0) - 1).

Definition secp256k1_scalar_reduce_512 (l : list Z) : scalar :=
  let n0 := nth 4 l 0 in let n1 := nth 5 l 0 in
  let n2 := nth 6 l 0 in let n3 := nth 7 l 0 in
  let l0 := nth 0 l 0 in let l1 := nth 1 l 0 in
  let l2 := nth 2 l 0 in let l3 := nth 3 l 0 in
  let c := Acc l0 0 0 in
  let c := muladd_fast 64 c n0 SECP256K1_N_C_0 in
  let '(m0, c) := extract_fast c in
  let c := sumadd_fast 64 c l1 in
  let c := muladd 64 64 c n1 SECP256K1_N_C_0 in
  let c := muladd 64 64 c n0 SECP256K1_N_C_1 in
  let '(m1, c) := extract c in
  let c := sumadd 64 64 c l2 in
  let c := muladd 64 64 c n2 SECP256K1_N_C_0 in
  let c := muladd 64 64 c n1 SECP256K1_N_C_1 in
  let c := sumadd 64 64 c n0 in
  let '(m2, c) := extract c in
  let c := sumadd 64 64 c l3 in
  let c := muladd 64 64 c n3 SECP256K1_N_C_0 in
  let c := muladd 64 64 c n2 SECP256K1_N_C_1 in
  let c := sumadd 64 64 c n1 in
  let '(m3, c) := extract c in
  let c := muladd 64 64 c n3 SECP256K1_N_C_1 in
  let c := sumadd 64 64 c n2 in
  let '(m4, c) := extract c in
  let c := sumadd_fast 64 c n3 in
  let '(m5, c) := extract_fast c in
  let m6 := u32 (c0 c) in
  let c := Acc m0 0 0 in
  let c := muladd_fast 64 c m4 SECP256K1_N_C_0 in
  let '(p0, c) := extract_fast c in
  let c := sumadd_fast 64 c m1 in
  let c := muladd 64 64 c m5 SECP256K1_N_C_0 in
  let c := muladd 64 64 c m4 SECP256K1_N_C_1 in
  let '(p1, c) := extract c in
  let c := sumadd 64 64 c m2 in
  let c := muladd 64 64 c m6 SECP256K1_N_C_0 in
  let c := muladd 64 64 c m5 SECP256K1_N_C_1 in
  let c := sumadd 64 64 c m4 in
  let '(p2, c) := extract c in
  let c := sumadd_fast 64 c m3 in
  let c := muladd_fast 64 c m6 SECP256K1_N_C_1 in
  let c := sumadd_fast 64 c m5 in
  let '(p3, c) := extract_fast c in
  let p4 := u32 (c0 c + m6) in
  let c := u128 (p0 + u128 (SECP256K1_N_C_0 * p4)) in
  let r0 := c .& 0xFFFFFFFFFFFFFFFF in let c := c >> 64 in
  let c := u128 (c + u128 (p1 + u128 (SECP256K1_N_C_1 * p4))) in
  let r1 := c .& 0xFFFFFFFFFFFFFFFF in let c := c >> 64 in
  let c := u128 (c + u128 (p2 + p4)) in
  let r2 := c .& 0xFFFFFFFFFFFFFFFF in let c := c >> 64 in
  let c := u128 (c + p3) in
  let r3 := c .& 0xFFFFFFFFFFFFFFFF in let c := c >> 64 in
  let r := Scalar r0 r1 r2 r3 in
  fst (secp256k1_scalar_reduce r (u32 (c + secp256k1_scalar_check_overflow r))).

Definition secp256k1_scalar_mul_512 (a b : scalar) : list Z :=
  let c := Acc 0 0 0 in
  let c := muladd_fast 64 c (d0 a) (d0 b) in
  let '(l0, c) := extract_fast c in
  let c := muladd 64 32 c (d0 a) (d1 b) in
  let c := muladd 64 32 c (d1 a) (d0 b) in
  let '(l1, c) := extract c in
  let c := muladd 64 32 c (d0 a) (d2 b) in
  let c := muladd 64 32 c (d1 a) (d1 b) in
  let c := muladd 64 32 c (d2 a) (d0 b) in
  let '(l2, c) := extract c in
  let c := muladd 64 32 c (d0 a) (d3 b) in
  let c := muladd 64 32 c (d1 a) (d2 b) in
  let c := muladd 64 32 c (d2 a) (d1 b) in
  let c := muladd 64 32 c (d3 a) (d0 b) in
  let '(l3, c) := extract c in
  let c := muladd 64 32 c (d1 a) (d3 b) in
  let c := muladd 64 32 c (d2 a) (d2 b) in
  let c := muladd 64 32 c (d3 a) (d1 b) in
  let '(l4, c) := extract c in
  let c := muladd 64 32 c (d2 a) (d3 b) in
  let c := muladd 64 32 c (d3 a) (d2 b) in
  let '(l5, c) := extract c in
  let c := muladd_fast 64 c (d3 a) (d3 b) in
  let '(l6, c) := extract_fast c in
  let l7 := c0 c in
  [l0; l1; l2; l3; l4; l5; l6; l7].

Definition secp256k1_scalar_sqr_512 (a : scalar) : list Z :=
  let c := Acc 0 0 0 in
  let c := muladd_fast 64 c (d0 a) (d0 a) in
  let '(l0, c) := extract_fast c in
  let c := muladd2 64 32 c (d0 a) (d1 a) in
  let '(l1, c) := extract c in
  let c := muladd2 64 32 c (d0 a) (d2 a) in
  let c := muladd 64 32 c (d1 a) (d1 a) in
  let '(l2, c) := extract c in
  let c := muladd2 64 32 c (d0 a) (d3 a) in
  let c := muladd2 64 32 c (d1 a) (d2 a) in
  let '(l3, c) := extract c in
  let c := muladd2 64 32 c (d1 a) (d3 a) in
  let c := muladd 64 32 c (d2 a) (d2 a) in
  let '(l4, c) := extract c in
  let c := muladd2 64 32 c (d2 a) (d3 a) in
  let '(l5, c) := extract c in
  let c := muladd_fast 64 c (d3 a) (d3 a) in
  let '(l6, c) := extract_fast c in
  let l7 := c0 c in
  [l0; l1; l2; l3; l4; l5; l6; l7].

Definition secp256k1_scalar_mul (a b : scalar) : scalar :=
  secp256k1_scalar_reduce_512 (secp256k1_scalar_mul_512 a b).

Definition secp256k1_scalar_shr_int (r : scalar) (n : Z) : scalar * Z :=
  let ret := d0 r .& ((1 << n) - 1) in
  let r0 := u64 ((d0 r >> n) + u64 (d1 r << (64 - n))) in
  let r1 := u64 ((d1 r >> n) + u64 (d2 r << (64 - n))) in
  let r2 := u64 ((d2 r >> n) + u64 (d3 r << (64 - n))) in
  let r3 := d3 r >> n in
  (Scalar r0 r1 r2 r3, ret).

Definition secp256k1_scalar_sqr (a : scalar) : scalar :=
  secp256k1_scalar_reduce_512 (secp256k1_scalar_sqr_512 a).

Definition secp256k1_scalar_split_128 (a : scalar) : scalar * scalar :=
  (Scalar (d0 a) (d1 a) 0 0, Scalar (d2 a) (d3 a) 0 0).

Definition secp256k1_scalar_eq (a b : scalar) : bool :=
  ((((d0 a .^ d0 b) .| (d1 a .^ d1 b)) .| (d2 a .^ d2 b)) .| (d3 a .^ d3 b)) =? 0.

(** Reads of [l] beyond its end are guarded by the tests on [shift]. *)
Definition secp256k1_scalar_mul_shift_var (a b : scalar) (shift : Z) : scalar :=
  let l := at_ (secp256k1_scalar_mul_512 a b) in
  let shiftlimbs := shift >> 6 in
  let shiftlow := shift .& 0x3F in
  let shifthigh := 64 - shiftlow in
  let r0 := if shift <? 512 then
      (l (0 + shiftlimbs) >> shiftlow)
      .| (if (shift <? 448) && negb (shiftlow =? 0)
          then u64 (l (1 + shiftlimbs) << shifthigh) else 0) else 0 in
  let r1 := if shift <? 448 then
      (l (1 + shiftlimbs) >> shiftlow)
      .| (if (shift <? 384) && negb (shiftlow =? 0)
          then u64 (l (2 + shiftlimbs) << shifthigh) else 0) else 0 in
  let r2 := if shift <? 384 then
      (l (2 + shiftlimbs) >> shiftlow)
      .| (if (shift <? 320) && negb (shiftlow =? 0)
          then u64 (l (3 + shiftlimbs) << shifthigh) else 0) else 0 in
  let r3 := if shift <? 320 then l (3 + shiftlimbs) >> shiftlow else 0 in
  secp256k1_scalar_cadd_bit (Scalar r0 r1 r2 r3) 0
    (negb (((l ((shift - 1) >> 6) >> ((shift - 1) .& 0x3f)) .& 1) =? 0)).

(** scalar_impl.h *)
Definition secp256k1_scalar_is_even (a : scalar) : bool := (d0 a .& 1) =? 0.

(** * Theorems *)

Definition val (a : scalar) : Z :=
  d0 a + d1 a * 2 ^ 64 + d2 a * 2 ^ 128 + d3 a * 2 ^ 192.

Record limbs (a : scalar) : Prop := {
  lim0 : Bounded (d0 a) 0xFFFFFFFFFFFFFFFF;
  lim1 : Bounded (d1 a) 0xFFFFFFFFFFFFFFFF;
  lim2 : Bounded (d2 a) 0xFFFFFFFFFFFFFFFF;
  lim3 : Bounded (d3 a) 0xFFFFFFFFFFFFFFFF }.

Definition canon (a : scalar) : Prop := limbs a /\ val a < n_order.

Lemma val_range a : limbs a -> 0 <= val a < 2 ^ 256.
Proof. intros []. unfold Bounded, val in *. lia. Qed.

Lemma val_inj a b : limbs a -> limbs b -> val a = val b -> a = b.
Proof.
  intros [] []. destruct a as [a0 a1 a2 a3], b as [b0 b1 b2 b3].
  unfold val, Bounded in *. cbn [d0 d1 d2 d3] in *. intros. f_equal; lia.
Qed.

(** The scalar with a given value. *)
Definition of_Z (v : Z) : scalar := Scalar (dig 64 v 0) (dig 64 v 1) (dig 64 v 2) (dig 64 v 3).

Ltac nconst :=
  change SECP256K1_N_0 with 0xBFD25E8CD0364141 in *;
  change SECP256K1_N_1 with 0xBAAEDCE6AF48A03B in *;
  change SECP256K1_N_2 with 0xFFFFFFFFFFFFFFFE in *;
  change SECP256K1_N_3 with 0xFFFFFFFFFFFFFFFF in *;
  change SECP256K1_N_C_0 with 0x402DA1732FC9BEBF in *;
  change SECP256K1_N_C_1 with 0x4551231950B75FC4 in *;
  change SECP256K1_N_C_2 with 1 in *.

Lemma check_overflow_spec a : limbs a ->
  secp256k1_scalar_check_overflow a = b2z (n_order <=? val a).
Proof.
  intros []. unfold Bounded in *. unfold secp256k1_scalar_check_overflow, val, n_order.
  nconst.
  destruct (Z.ltb_spec (d3 a) 0xFFFFFFFFFFFFFFFF),
    (Z.ltb_spec (d2 a) 0xFFFFFFFFFFFFFFFE), (Z.ltb_spec 0xFFFFFFFFFFFFFFFE (d2 a)),
    (Z.ltb_spec (d1 a) 0xBAAEDCE6AF48A03B), (Z.ltb_spec 0xBAAEDCE6AF48A03B (d1 a)),
    (Z.leb_spec 0xBFD25E8CD0364141 (d0 a)); try lia;
  match goal with |- _ = b2z (?x <=? ?y) => destruct (Z.leb_spec x y) end;
  first [reflexivity | exfalso; lia].
Qed.

Lemma is_high_spec a : limbs a ->
  secp256k1_scalar_is_high a = b2z (n_order / 2 <? val a).
Proof.
  intros []. unfold Bounded in *. unfold secp256k1_scalar_is_high, val.
  change (n_order / 2) with
    0x7FFFFFFFFFFFFFFFFFFFFFFFFFFFFFFF5D576E7357A4501DDFE92F46681B20A0.
  change SECP256K1_N_H_0 with 0xDFE92F46681B20A0.
  change SECP256K1_N_H_1 with 0x5D576E7357A4501D.
  change SECP256K1_N_H_2 with 0xFFFFFFFFFFFFFFFF.
  change SECP256K1_N_H_3 with 0x7FFFFFFFFFFFFFFF.
  destruct (Z.ltb_spec (d3 a) 0x7FFFFFFFFFFFFFFF), (Z.ltb_spec 0x7FFFFFFFFFFFFFFF (d3 a)),
    (Z.ltb_spec (d2 a) 0xFFFFFFFFFFFFFFFF),
    (Z.ltb_spec (d1 a) 0x5D576E7357A4501D), (Z.ltb_spec 0x5D576E7357A4501D (d1 a)),
    (Z.ltb_spec 0xDFE92F46681B20A0 (d0 a)); try lia;
  match goal with |- _ = b2z (?x <? ?y) => destruct (Z.ltb_spec x y) end;
  first [reflexivity | exfalso; lia].
Qed.

(** Subtracting [overflow] times the order, from a sum whose carry out of the
    top word is [k], by adding the complement of the order. *)
Lemma reduce_spec r overflow k : limbs r -> Bounded overflow 1 ->
  0 <= val r + 2 ^ 256 * k - overflow * n_order < 2 ^ 256 ->
  limbs (fst (secp256k1_scalar_reduce r overflow)) /\
  val (fst (secp256k1_scalar_reduce r overflow))
    = val r + 2 ^ 256 * k - overflow * n_order.
Proof.
  intros [] Ho Hv.
  enough (let s := secp256k1_scalar_reduce r overflow in
    limbs (fst s) /\ val (fst s) = val r + 2 ^ 256 * k - overflow * n_order) by assumption.
  enter secp256k1_scalar_reduce. nconst. wlets. cbv beta delta [wp]. cbn [fst].
  split; [split; cbn [d0 d1 d2 d3]; by_bound|].
  unfold val, n_order in *. cbn [d0 d1 d2 d3]. unfold Bounded in *. lia.
Qed.

(** The last step of the operations that end in [secp256k1_scalar_reduce]. *)
Lemma reduce_final r k v : limbs r -> val r + 2 ^ 256 * k = v -> 0 <= v < 2 * n_order ->
  0 <= k ->
  k + secp256k1_scalar_check_overflow r = b2z (n_order <=? v) /\
  canon (fst (secp256k1_scalar_reduce r (b2z (n_order <=? v)))) /\
  val (fst (secp256k1_scalar_reduce r (b2z (n_order <=? v)))) = v mod n_order.
Proof.
  intros Lr Hv Hr Hk. pose proof (val_range r Lr) as Rr.
  pose proof (mod_once v Hr) as M.
  pose proof (Z.mod_pos_bound v n_order ltac:(unfold n_order; lia)) as Rm.
  rewrite check_overflow_spec by exact Lr. split.
  - destruct (Z.leb_spec n_order (val r)), (Z.leb_spec n_order v); cbn [b2z];
      unfold n_order in *; lia.
  - destruct (reduce_spec r (b2z (n_order <=? v)) k Lr (bounded_b2z _)) as [L V].
    { rewrite Hv, M. unfold n_order in *. lia. }
    rewrite Hv, M in V. split; [split; [exact L|lia]|exact V].
Qed.

Lemma reduce_snd r o : snd (secp256k1_scalar_reduce r o) = o.
Proof. reflexivity. Qed.

Lemma add_spec a b : canon a -> canon b ->
  let r := secp256k1_scalar_add a b in
  canon (fst r) /\ val (fst r) = (val a + val b) mod n_order /\
  snd r = b2z (n_order <=? val a + val b).
Proof.
  intros [[] Ha] [[] Hb]. enter secp256k1_scalar_add. wlets.
  wtake r Er.
  assert (Lr : limbs r) by (subst r; split; cbn [d0 d1 d2 d3]; by_bound).
  assert (Vr : val r + 2 ^ 256 * q2 = val a + val b).
  { subst r. unfold val in *. cbn [d0 d1 d2 d3]. lia. }
  destruct (reduce_final r q2 (val a + val b) Lr Vr) as (E & C & V).
  { unfold val, Bounded in *. lia. } { unfold Bounded in *; lia. }
  rewrite E, u32_b2z. unfold wp. cbv zeta.
  set (o := b2z _) in *. destruct (secp256k1_scalar_reduce r o). now cbn in *.
Qed.

(** ** Words and values *)

Lemma val_of_Z v : 0 <= v < 2 ^ 256 -> val (of_Z v) = v.
Proof.
  intros Hv. unfold val, of_Z. cbn [d0 d1 d2 d3].
  pose proof (dig_step 64 v 0 ltac:(lia) ltac:(lia)).
  pose proof (dig_step 64 v 1 ltac:(lia) ltac:(lia)).
  pose proof (dig_step 64 v 2 ltac:(lia) ltac:(lia)).
  pose proof (dig_step 64 v 3 ltac:(lia) ltac:(lia)).
  rewrite (Z.div_small v (2 ^ (64 * (3 + 1)))) in * by (cbn; lia).
  cbn [Z.mul Z.add Pos.mul Pos.add Pos.add_carry Pos.succ] in *.
  rewrite Z.pow_0_r, Z.div_1_r in *. lia.
Qed.

Lemma of_Z_limbs v : limbs (of_Z v).
Proof.
  unfold of_Z. split; cbn [d0 d1 d2 d3]; unfold Bounded;
    match goal with |- 0 <= dig ?w ?v ?k <= _ => pose proof (dig_range w v k ltac:(lia)) end; lia.
Qed.

Lemma of_Z_val a : limbs a -> of_Z (val a) = a.
Proof.
  intros H. apply val_inj; [apply of_Z_limbs|exact H|]. now apply val_of_Z, val_range.
Qed.

Lemma word_dig a i : limbs a -> 0 <= i -> word a i = dig 64 (val a) i.
Proof.
  intros H Hi. pose proof (of_Z_val a H) as E. rewrite <- E at 1.
  destruct (Z.le_gt_cases 4 i) as [Hb|Hb].
  - rewrite (dig_above 64 (val a) 4 i) by (lia || exact (val_range a H)).
    unfold word, at_. rewrite nth_overflow; [reflexivity|cbn; lia].
  - assert (i = 0 \/ i = 1 \/ i = 2 \/ i = 3) as [-> |[-> |[-> | ->]]] by lia; reflexivity.
Qed.

Lemma land_low x n : 0 <= n -> n < 64 -> x .& u64 (u64 (1 << n) - 1) = x mod 2 ^ n.
Proof.
  intros H0 H1. rewrite Z.shiftl_mul_pow2, Z.mul_1_l by lia. unfold u64.
  assert (1 <= 2 ^ n < 2 ^ 64).
  { split; [apply (Z.pow_le_mono_r 2 0 n); lia|apply Z.pow_lt_mono_r; lia]. }
  rewrite (Z.mod_small (2 ^ n)), Z.mod_small by lia. now apply land_mask.
Qed.

Lemma u32_small_mod x n : 0 <= n <= 32 -> u32 (x mod 2 ^ n) = x mod 2 ^ n.
Proof.
  intros Hn. apply Z.mod_small. pose proof (Z.mod_pos_bound x (2 ^ n) ltac:(lia)).
  assert (2 ^ n <= 2 ^ 32) by (apply Z.pow_le_mono_r; lia). lia.
Qed.

Lemma and63 x : x .& 0x3F = x mod 64.
Proof. change 0x3F with (2 ^ 6 - 1). now apply land_mask. Qed.

Lemma shr6 x : x >> 6 = x / 64.
Proof. now rewrite Z.shiftr_div_pow2. Qed.

Lemma get_bits_spec a off cnt : canon a -> 0 <= off -> 0 < cnt < 32 -> off + cnt <= 256 ->
  off mod 64 + cnt <= 64 ->
  secp256k1_scalar_get_bits a off cnt = (val a / 2 ^ off) mod 2 ^ cnt.
Proof.
  intros [Ha _] Ho Hc Hs Hd. unfold secp256k1_scalar_get_bits.
  rewrite and63, shr6, land_low, u32_small_mod by lia.
  rewrite word_dig by (assumption || (apply Z.div_pos; lia)).
  pose proof (Z.mod_pos_bound off 64 ltac:(lia)).
  rewrite dig_sub by (try (apply Z.div_pos); lia).
  do 3 f_equal. symmetry. apply Z_div_mod_eq_full.
Qed.

Lemma get_bits_var_spec a off cnt : canon a -> 0 <= off -> 0 < cnt < 32 -> off + cnt <= 256 ->
  secp256k1_scalar_get_bits_var a off cnt = (val a / 2 ^ off) mod 2 ^ cnt.
Proof.
  intros Ha Ho Hc Hs. unfold secp256k1_scalar_get_bits_var.
  rewrite (u32_id (off + cnt)), (u32_id (off + cnt - 1)), !shr6, !and63 by lia.
  destruct (Z.eqb_spec ((off + cnt - 1) / 64) (off / 64)) as [E|E].
  - apply get_bits_spec; try assumption. dlia.
  - destruct Ha as [La _].
    assert (0 < off mod 64 < 64) by dlia.
    rewrite land_low, !word_dig by (assumption || (apply Z.div_pos; lia) || dlia).
    change u64 with (fun x => x mod 2 ^ 64). cbv beta.
    rewrite funnel by (assumption || (apply Z.div_pos; lia)).
    rewrite <- Z_div_mod_eq_full, mod_mod_pow2, u32_small_mod by lia. reflexivity.
Qed.

(** ** Bytes *)

Lemma join8_spec b lo : (forall i, lo - 7 <= i <= lo -> is_byte (b i)) ->
  join8 b lo = be_val [b (lo - 7); b (lo - 6); b (lo - 5); b (lo - 4);
                       b (lo - 3); b (lo - 2); b (lo - 1); b lo].
Proof.
  intros H. unfold is_byte in H.
  pose proof (H lo ltac:(lia)). pose proof (H (lo - 1) ltac:(lia)).
  pose proof (H (lo - 2) ltac:(lia)). pose proof (H (lo - 3) ltac:(lia)).
  pose proof (H (lo - 4) ltac:(lia)). pose proof (H (lo - 5) ltac:(lia)).
  pose proof (H (lo - 6) ltac:(lia)). pose proof (H (lo - 7) ltac:(lia)).
  unfold join8, be_val. cbn [fold_left]. rewrite !Z.shiftl_mul_pow2 by lia.
  rewrite (lor_join _ _ 8), (lor_join _ _ 16), (lor_join _ _ 24), (lor_join _ _ 32),
    (lor_join _ _ 40), (lor_join _ _ 48), (lor_join _ _ 56) by lia. lia.
Qed.

Lemma set_b32_words l : Forall is_byte l -> length l = 32%nat ->
  let b := at_ l in let r := Scalar (join8 b 31) (join8 b 23) (join8 b 15) (join8 b 7) in
  limbs r /\ val r = be_val l.
Proof.
  intros Hl Hlen. cbv zeta.
  rewrite !join8_spec by (intros; now apply at_byte).
  do 32 (destruct l as [|? l]; [discriminate|]). destruct l; [|discriminate].
  repeat match goal with H : Forall _ (_ :: _) |- _ => inversion_clear H end.
  repeat match goal with |- context [at_ ?L ?k] =>
    let v := eval vm_compute in (at_ L k) in change (at_ L k) with v end.
  split.
  - split; cbn [d0 d1 d2 d3]; (apply be_val_bound; [|reflexivity]);
      repeat (apply Forall_cons; [assumption|]); apply Forall_nil.
  - match goal with |- val (Scalar (be_val ?d) (be_val ?c) (be_val ?b) (be_val ?a)) = _ =>
      transitivity (be_val (a ++ b ++ c ++ d)); [|reflexivity] end.
    rewrite !be_val_app. unfold val. cbn [d0 d1 d2 d3 app length Z.of_nat Pos.of_succ_nat Pos.succ].
    lia.
Qed.

Lemma set_b32_spec l : Forall is_byte l -> length l = 32%nat ->
  let r := secp256k1_scalar_set_b32 l in
  canon (fst r) /\ val (fst r) = be_val l mod n_order /\
  snd r = b2z (n_order <=? be_val l).
Proof.
  intros Hl Hlen. cbv zeta. unfold secp256k1_scalar_set_b32. cbv zeta.
  destruct (set_b32_words l Hl Hlen) as [L V]. cbv zeta in L, V.
  set (r := Scalar _ _ _ _) in *. pose proof (val_range r L) as R.
  destruct (reduce_final r 0 (be_val l) L ltac:(lia) ltac:(unfold n_order; lia) ltac:(lia))
    as (E & C & W).
  rewrite Z.add_0_l in E. rewrite E, reduce_snd.
  exact (conj C (conj W eq_refl)).
Qed.

Lemma be_bytes_word d :
  map u8 [d >> 56; d >> 48; d >> 40; d >> 32; d >> 24; d >> 16; d >> 8; d] = be_bytes 8 d.
Proof.
  rewrite be_bytes_map. cbn [map seq]. unfold u8. rewrite !Z.shiftr_div_pow2 by lia.
  repeat (f_equal; try reflexivity). symmetry. apply Z.div_1_r.
Qed.

Lemma be_bytes_32 v : be_bytes 32 v =
  be_bytes 8 (dig 64 v 3) ++ be_bytes 8 (dig 64 v 2) ++
  be_bytes 8 (dig 64 v 1) ++ be_bytes 8 (dig 64 v 0).
Proof.
  assert (E : forall k, be_bytes 8 (dig 64 v k) = be_bytes 8 (v / 2 ^ (64 * k))).
  { intros k. rewrite (be_bytes_mod 8 (_ / _)). reflexivity. }
  rewrite !E. rewrite (Z.div_1_r v : v / 2 ^ (64 * 0) = v).
  change 32%nat with (8 + (8 + (8 + 8)))%nat. now rewrite !be_bytes_app.
Qed.

Lemma get_b32_spec a : limbs a -> secp256k1_scalar_get_b32 a = be_bytes 32 (val a).
Proof.
  intros H. unfold secp256k1_scalar_get_b32. cbn [flat_map].
  rewrite !be_bytes_word, app_nil_r, be_bytes_32. now rewrite <- (of_Z_val a H) at 1 2 3 4.
Qed.

(** ** Tests *)

Lemma zero_spec a : limbs a -> secp256k1_scalar_is_zero a = (val a =? 0).
Proof.
  intros []. unfold secp256k1_scalar_is_zero, val, Bounded in *. apply eq_true_iff_eq.
  rewrite !Z.eqb_eq, !lor_eq_0. lia.
Qed.

Lemma one_spec a : limbs a -> secp256k1_scalar_is_one a = (val a =? 1).
Proof.
  intros []. unfold secp256k1_scalar_is_one, val, Bounded in *. apply eq_true_iff_eq.
  rewrite !Z.eqb_eq, !lor_eq_0, lxor_move. change (0 .^ 1) with 1. lia.
Qed.

Lemma even_spec a : limbs a -> secp256k1_scalar_is_even a = Z.even (val a).
Proof.
  intros []. unfold secp256k1_scalar_is_even, val, Bounded in *.
  change 1 with (2 ^ 1 - 1). rewrite land_mask by lia. apply eq_true_iff_eq.
  rewrite Z.eqb_eq, Z.even_spec. split.
  - intros H. exists (d0 a / 2 + 2 ^ 63 * d1 a + 2 ^ 127 * d2 a + 2 ^ 191 * d3 a). dlia.
  - intros [k Hk]. dlia.
Qed.

Lemma eq_spec a b : limbs a -> limbs b -> secp256k1_scalar_eq a b = (val a =? val b).
Proof.
  intros Ha Hb. unfold secp256k1_scalar_eq. apply eq_true_iff_eq.
  rewrite !Z.eqb_eq, !lor_eq_0, !Z.lxor_eq_0_iff. split.
  - intros (((E0 & E1) & E2) & E3). unfold val. congruence.
  - intros E. now rewrite (val_inj a b Ha Hb E).
Qed.

(** ** Negation *)

Lemma negate_spec a : canon a ->
  let r := secp256k1_scalar_negate a in
  canon r /\ val r = (- val a) mod n_order.
Proof.
  intros [[] Ha]. pose proof (val_range a ltac:(now split)) as R.
  rewrite neg_mod by lia.
  enter secp256k1_scalar_negate. rewrite zero_spec by (now split). nconst.
  destruct (Z.eqb_spec (val a) 0) as [E|E]; cbv beta iota delta [negb b2z]; wlets; cbv beta delta [wp].
  - split; [split|]; [split; cbn [d0 d1 d2 d3]; by_bound| |];
      unfold val, n_order in *; cbn [d0 d1 d2 d3]; unfold Bounded in *; lia.
  - split; [split|]; [split; cbn [d0 d1 d2 d3]; by_bound| |];
      unfold val, n_order, not64 in *; cbn [d0 d1 d2 d3]; unfold Bounded in *; lia.
Qed.

Lemma lxor_ones x : Bounded x 0xFFFFFFFFFFFFFFFF -> x .^ 0xFFFFFFFFFFFFFFFF = not64 x.
Proof.
  intros Hx. unfold Bounded in Hx. apply Z.bits_inj'. intros i Hi. rewrite Z.lxor_spec.
  change 0xFFFFFFFFFFFFFFFF with (Z.ones 64). rewrite Z.testbit_ones_nonneg by lia.
  unfold not64. replace (0xFFFFFFFFFFFFFFFF - x) with (Z.lnot x + 1 * 2 ^ 64) by (unfold Z.lnot; lia).
  assert (V : (Z.lnot x + 1 * 2 ^ 64) mod 2 ^ 64 = Z.lnot x + 1 * 2 ^ 64).
  { apply Z.mod_small. unfold Z.lnot. lia. }
  rewrite <- V, Z_mod_plus_full, Z.testbit_mod_pow2 by lia.
  destruct (Z.ltb_spec i 64); cbn [andb].
  - now rewrite Z.lnot_spec, xorb_true_r by lia.
  - now rewrite (testbit_above x 64) by lia.
Qed.

Lemma cond_negate_spec a flag : canon a ->
  let r := secp256k1_scalar_cond_negate a flag in
  canon (fst r) /\ val (fst r) = (if flag then (- val a) mod n_order else val a) /\
  snd r = if flag then -1 else 1.
Proof.
  intros [[] Ha]. pose proof (val_range a ltac:(now split)) as R.
  enter secp256k1_scalar_cond_negate. rewrite zero_spec by (now split). nconst.
  wtake mask Em. destruct flag; cbn [negb b2z] in Em.
  - rewrite neg_mod by lia. change (u64 (0 - 1)) with 0xFFFFFFFFFFFFFFFF in Em. subst mask.
    rewrite !lxor_ones by assumption.
    wtake nonzero En. destruct (Z.eqb_spec (val a) 0) as [E|E]; cbn [b2z] in En; vm_compute in En;
      subst nonzero; wlets; cbv beta delta [wp]; cbn [fst snd];
      (split; [split; [split; cbn [d0 d1 d2 d3]; by_bound|]|split; [|reflexivity]]);
      unfold val, n_order, not64 in *; cbn [d0 d1 d2 d3]; unfold Bounded in *; lia.
  - change (u64 (1 - 1)) with 0 in Em. subst mask. rewrite !Z.lxor_0_r, !Z.land_0_r.
    wtake nonzero En. destruct (Z.eqb_spec (val a) 0) as [E|E]; cbn [b2z] in En; vm_compute in En;
      subst nonzero; wlets; cbv beta delta [wp]; cbn [fst snd];
      (split; [split; [split; cbn [d0 d1 d2 d3]; by_bound|]|split; [|reflexivity]]);
      unfold val, n_order in *; cbn [d0 d1 d2 d3]; unfold Bounded in *; lia.
Qed.

(** ** Adding a bit *)

(** Four addends, one per word, carried upwards. *)
Definition add_words (r : scalar) (e0 e1 e2 e3 : Z) : scalar :=
  let t := u128 (d0 r + e0) in
  let r0 := t .& 0xFFFFFFFFFFFFFFFF in let t := t >> 64 in
  let t := u128 (t + u128 (d1 r + e1)) in
  let r1 := t .& 0xFFFFFFFFFFFFFFFF in let t := t >> 64 in
  let t := u128 (t + u128 (d2 r + e2)) in
  let r2 := t .& 0xFFFFFFFFFFFFFFFF in let t := t >> 64 in
  let t := u128 (t + u128 (d3 r + e3)) in
  let r3 := t .& 0xFFFFFFFFFFFFFFFF in
  Scalar r0 r1 r2 r3.

Lemma add_words_spec a e : limbs a -> limbs e -> val a + val e < 2 ^ 256 ->
  let r := add_words a (d0 e) (d1 e) (d2 e) (d3 e) in
  limbs r /\ val r = val a + val e.
Proof.
  intros [] [] H. run add_words. split; [split; cbn [d0 d1 d2 d3]; by_bound|].
  unfold val in *. cbn [d0 d1 d2 d3]. unfold Bounded in *. lia.
Qed.

(** The addends of [secp256k1_scalar_cadd_bit]. *)
Definition bit_word (bit k : Z) : Z := u64 (b2z ((bit >> 6) =? k) << (bit .& 0x3F)).

Lemma bit_word_dig bit k : 0 <= bit < 256 -> 0 <= k < 4 ->
  bit_word bit k = dig 64 (2 ^ bit) k.
Proof.
  intros Hb Hk. unfold bit_word. rewrite and63, shr6.
  apply Z.bits_inj'. intros i Hi. rewrite testbit_dig, Z.pow2_bits_eqb by lia.
  change (u64 ?x) with (x mod 2 ^ 64). rewrite Z.testbit_mod_pow2 by lia.
  destruct (Z.ltb_spec i 64); [cbn [andb]|reflexivity]. rewrite Z.shiftl_spec by lia. destruct (Z.eqb_spec (bit / 64) k) as [E|E]; cbn [b2z].
  - change 1 with (2 ^ 0). rewrite Z.pow2_bits_eqb by lia. apply eq_true_iff_eq.
    rewrite !Z.eqb_eq. dlia.
  - rewrite Z.testbit_0_l. symmetry. apply Z.eqb_neq. dlia.
Qed.

Lemma cadd_bit_spec a bit flag : limbs a -> 0 <= bit < 256 ->
  (flag = true -> val a + 2 ^ bit < 2 ^ 256) ->
  let r := secp256k1_scalar_cadd_bit a bit flag in
  limbs r /\ val r = if flag then val a + 2 ^ bit else val a.
Proof.
  intros Ha Hb Hf.
  enough (let b := u32 (bit + (u32 (b2z flag - 1) .& 0x100)) in
    let r := add_words a (bit_word b 0) (bit_word b 1) (bit_word b 2) (bit_word b 3) in
    limbs r /\ val r = if flag then val a + 2 ^ bit else val a) by assumption.
  cbv zeta. destruct flag; cbn [b2z].
  - change (u32 (1 - 1) .& 0x100) with 0. rewrite Z.add_0_r, u32_id by lia.
    assert (0 < 2 ^ bit < 2 ^ 256).
    { split; [apply Z.pow_pos_nonneg|apply Z.pow_lt_mono_r]; lia. }
    pose proof (add_words_spec a (of_Z (2 ^ bit)) Ha (of_Z_limbs _)) as H1.
    rewrite val_of_Z in H1 by lia. unfold of_Z in H1. cbn [d0 d1 d2 d3] in H1.
    rewrite !bit_word_dig by lia. apply H1. now apply Hf.
  - change (u32 (0 - 1) .& 0x100) with 256. rewrite u32_id by lia.
    assert (E : forall k, 0 <= k < 4 -> bit_word (bit + 256) k = 0).
    { intros k Hk. unfold bit_word. rewrite shr6.
      destruct (Z.eqb_spec ((bit + 256) / 64) k); [dlia|]. cbn [b2z].
      now rewrite Z.shiftl_0_l. }
    rewrite !E by lia.
    destruct (add_words_spec a (Scalar 0 0 0 0) Ha) as [L V].
    { split; cbn; unfold Bounded; lia. }
    { pose proof (val_range a Ha). change (val (Scalar 0 0 0 0)) with 0. lia. }
    split; [exact L|].
    exact (eq_trans V (Z.add_0_r (val a))).
Qed.

(** ** Shifts *)

Lemma funnel_u64 v k n : 0 < n < 64 -> 0 <= k ->
  u64 ((dig 64 v k >> n) + u64 (dig 64 v (k + 1) << (64 - n))) = dig 64 (v / 2 ^ n) k.
Proof.
  intros Hn Hk. change u64 with (fun x => x mod 2 ^ 64). cbv beta.
  now rewrite funnel_add, Zmod_mod, dig_shift by lia.
Qed.

Lemma shr_int_spec a n : canon a -> 0 < n < 16 ->
  let r := secp256k1_scalar_shr_int a n in
  limbs (fst r) /\ val (fst r) = val a / 2 ^ n /\ snd r = val a mod 2 ^ n.
Proof.
  intros [Ha _] Hn. pose proof (val_range a Ha) as R.
  assert (E : secp256k1_scalar_shr_int a n = (of_Z (val a / 2 ^ n), val a mod 2 ^ n)).
  { unfold secp256k1_scalar_shr_int. f_equal.
    - rewrite <- (of_Z_val a Ha) at 1 2 3 4 5 6 7. unfold of_Z at 1 2 3 4 5 6 7.
      cbn [d0 d1 d2 d3]. set (v := val a) in *. cbv zeta.
      rewrite (funnel_u64 v 0), (funnel_u64 v 1), (funnel_u64 v 2) by lia.
      now rewrite (shr_dig_top 64 4) by lia.
    - rewrite Z.shiftl_mul_pow2, Z.mul_1_l, land_mask by lia.
      change (d0 a) with (word a 0). rewrite word_dig by (assumption || lia).
      unfold dig. rewrite (Z.div_1_r (val a) : val a / 2 ^ (64 * 0) = val a).
      apply mod_mod_pow2. lia. }
  cbv zeta. rewrite E. cbn [fst snd].
  split; [apply of_Z_limbs|]. split; [|reflexivity].
  apply val_of_Z. assert (0 < 2 ^ n) by (apply Z.pow_pos_nonneg; lia).
  split; [apply Z.div_pos; lia|apply Z.div_lt_upper_bound; nia].
Qed.

Lemma split_128_spec a : limbs a ->
  let r := secp256k1_scalar_split_128 a in
  limbs (fst r) /\ limbs (snd r) /\
  val (fst r) = val a mod 2 ^ 128 /\ val (snd r) = val a / 2 ^ 128.
Proof.
  intros []. unfold secp256k1_scalar_split_128. cbn [fst snd].
  unfold val, Bounded in *. cbn [d0 d1 d2 d3].
  split; [split; cbn [d0 d1 d2 d3]; unfold Bounded; lia|].
  split; [split; cbn [d0 d1 d2 d3]; unfold Bounded; lia|]. dlia.
Qed.

(** ** The long products *)

Lemma mul_512_spec a b : limbs a -> limbs b ->
  let l := secp256k1_scalar_mul_512 a b in
  length l = 8%nat /\ words_in 0xFFFFFFFFFFFFFFFF l /\ words_of 64 l = val a * val b.
Proof.
  intros [] []. enter secp256k1_scalar_mul_512. acc_start 64 32.
  do 23 acc_step. last_word. unfold wp. cbv zeta. words_done. unfold val. lia.
Qed.

Lemma sqr_512_spec a : limbs a ->
  let l := secp256k1_scalar_sqr_512 a in
  length l = 8%nat /\ words_in 0xFFFFFFFFFFFFFFFF l /\ words_of 64 l = val a * val a.
Proof.
  intros []. enter secp256k1_scalar_sqr_512. acc_start 64 32.
  do 17 acc_step. last_word. unfold wp. cbv zeta. words_done. unfold val. lia.
Qed.

Lemma reduce_512_spec l : length l = 8%nat -> words_in 0xFFFFFFFFFFFFFFFF l ->
  let r := secp256k1_scalar_reduce_512 l in
  canon r /\ val r = words_of 64 l mod n_order.
Proof.
  intros Hl Hw.
  destruct l as [|l0 [|l1 [|l2 [|l3 [|l4 [|l5 [|l6 [|l7 [|]]]]]]]]]; try discriminate.
  repeat match goal with H : words_in _ (_ :: _) |- _ => inversion_clear H end.
  repeat match goal with H : Forall _ (_ :: _) |- _ => inversion_clear H end.
  enter secp256k1_scalar_reduce_512. nconst.
  do 8 (wtake x E; cbn [nth] in E; subst x).
  acc_start 64 64. do 21 acc_step. last_word. wlet.
  acc_start 64 64. do 15 acc_step. last_word. wlets.
  wtake r Er.
  assert (Lr : limbs r) by (subst r; split; cbn [d0 d1 d2 d3]; by_bound).
  set (W := words_of 64 _). set (v := val r + 2 ^ 256 * q2).
  set (k := l4 + 2 ^ 64 * l5 + 2 ^ 128 * l6 + 2 ^ 192 * l7
            + (x3 + 2 ^ 64 * x4 + 2 ^ 128 * m6) + p4).
  assert (E : W = k * n_order + v).
  { subst W v k r. unfold words_of, val, n_order. cbn [fold_right d0 d1 d2 d3]. lia. }
  assert (Hv : 0 <= v < 2 * n_order).
  { subst v r. unfold val, n_order. cbn [d0 d1 d2 d3]. unfold Bounded in *. lia. }
  destruct (reduce_final r q2 v Lr eq_refl Hv ltac:(apply Hq2)) as (Eo & C & Vr).
  rewrite Eo, u32_b2z. unfold wp. split; [exact C|].
  rewrite Vr, E, Z.add_comm. symmetry. apply Z_mod_plus_full.
Qed.

Lemma mul_spec a b : canon a -> canon b ->
  canon (secp256k1_scalar_mul a b) /\
  val (secp256k1_scalar_mul a b) = (val a * val b) mod n_order.
Proof.
  intros [Ha _] [Hb _]. destruct (mul_512_spec a b Ha Hb) as (L & W & <-).
  now apply reduce_512_spec.
Qed.

Lemma sqr_spec a : canon a ->
  canon (secp256k1_scalar_sqr a) /\
  val (secp256k1_scalar_sqr a) = (val a * val a) mod n_order.
Proof.
  intros [Ha _]. destruct (sqr_512_spec a Ha) as (L & W & <-).
  now apply reduce_512_spec.
Qed.

(** ** The rounded shift of a product *)

Lemma mul_shift_var_spec a b shift : canon a -> canon b -> 256 <= shift <= 512 ->
  canon (secp256k1_scalar_mul_shift_var a b shift) /\
  val (secp256k1_scalar_mul_shift_var a b shift)
    = (val a * val b + 2 ^ (shift - 1)) / 2 ^ shift.
Proof.
  intros [Ha Na] [Hb Nb] Hs.
  pose proof (val_range a Ha) as Ra. pose proof (val_range b Hb) as Rb.
  destruct (mul_512_spec a b Ha Hb) as (Ll & Wl & El).
  set (P := val a * val b) in *.
  assert (RP : 0 <= P < 2 ^ 512) by (unfold P; nia).
  assert (D : forall i, 0 <= i -> at_ (secp256k1_scalar_mul_512 a b) i = dig 64 P i).
  { intros i Hi. rewrite <- El. apply (words_dig 64); [lia|exact Wl|exact Hi]. }
  unfold secp256k1_scalar_mul_shift_var. rewrite !shr6, !and63. cbv zeta.
  pose proof (Z.div_pos shift 64 ltac:(lia) ltac:(lia)).
  rewrite !D by (try apply Z.div_pos; lia).
  match goal with |- context [secp256k1_scalar_cadd_bit ?r 0 ?f] =>
    set (R := r); set (flag := f) end.
  assert (ER : R = of_Z (P / 2 ^ shift)).
  { assert (C : forall j, let b := (shift <? 448 - 64 * j) && negb (shift mod 64 =? 0) in
      if b then shift mod 64 <> 0 else shift mod 64 = 0 \/ 448 <= shift + 64 * j).
    { intros j. cbv zeta. destruct (Z.ltb_spec shift (448 - 64 * j)),
        (Z.eqb_spec (shift mod 64) 0); cbn [andb negb]; lia. }
    unfold R, of_Z. f_equal.
    - exact (shifted_word 64 8 P shift 0 _ eq_refl eq_refl RP ltac:(lia) ltac:(lia) (C 0)).
    - exact (shifted_word 64 8 P shift 1 _ eq_refl eq_refl RP ltac:(lia) ltac:(lia) (C 1)).
    - exact (shifted_word 64 8 P shift 2 _ eq_refl eq_refl RP ltac:(lia) ltac:(lia) (C 2)).
    - rewrite <- (shifted_word 64 8 P shift 3 false) by lia.
      now rewrite Z.lor_0_r. }
  assert (EF : flag = Z.testbit P (shift - 1)).
  { unfold flag. change 1 with (2 ^ 1 - 1) at 3. rewrite land_mask by lia.
    pose proof (Z.mod_pos_bound (shift - 1) 64 ltac:(lia)).
    rewrite dig_sub by (try (apply Z.div_pos); lia).
    rewrite <- Z_div_mod_eq_full. change (2 ^ 1) with 2.
    rewrite <- Z.bit0_mod, Z.div_pow2_bits by lia. rewrite Z.add_0_l.
    now destruct (Z.testbit P (shift - 1)). }
  assert (RQ : 0 <= P / 2 ^ shift < n_order - 1).
  { split; [apply Z.div_pos; lia|]. apply Z.div_lt_upper_bound; [lia|].
    apply (Z.lt_le_trans _ (2 ^ 256 * (n_order - 1))).
    - unfold P, n_order in *. nia.
    - apply Z.mul_le_mono_nonneg_r; [unfold n_order; lia|]. apply Z.pow_le_mono_r; lia. }
  assert (VR : val R = P / 2 ^ shift).
  { rewrite ER. apply val_of_Z. unfold n_order in *. lia. }
  destruct (cadd_bit_spec R 0 flag) as [L V].
  { rewrite ER. apply of_Z_limbs. } { lia. }
  { intros _. rewrite VR. unfold n_order in *. lia. }
  rewrite round_half, <- EF, <- VR by lia.
  assert (V' : val (secp256k1_scalar_cadd_bit R 0 flag) = val R + b2z flag).
  { rewrite V. destruct flag; cbn [b2z]; lia. }
  split; [|exact V']. split; [exact L|].
  rewrite V', VR. pose proof (Accum.b2z_range flag). lia.
Qed.

(** ** The interface *)

Lemma const_spec a7 a6 a5 a4 a3 a2 a1 a0 :
  Forall (fun d => 0 <= d < 2 ^ 32) [a7; a6; a5; a4; a3; a2; a1; a0] ->
  let r := SECP256K1_SCALAR_CONST a7 a6 a5 a4 a3 a2 a1 a0 in
  limbs r /\ val r = words_val a7 a6 a5 a4 a3 a2 a1 a0.
Proof.
  intros H. repeat match goal with H : Forall _ (_ :: _) |- _ => inversion_clear H end.
  cbv zeta. unfold SECP256K1_SCALAR_CONST, words_val. cbn [fold_left].
  rewrite !Z.shiftl_mul_pow2, !lor_disjoint by lia.
  split; [split; cbn [d0 d1 d2 d3]; unfold Bounded; lia|].
  unfold val. cbn [d0 d1 d2 d3]. lia.
Qed.

Lemma small_canon v : 0 <= v < 2 ^ 64 -> canon (Scalar v 0 0 0) /\ val (Scalar v 0 0 0) = v.
Proof.
  intros H. unfold canon, val, n_order. cbn [d0 d1 d2 d3].
  split; [split|]; [split; cbn [d0 d1 d2 d3]; unfold Bounded| |]; lia.
Qed.

Definition as_bool (r : scalar * Z) : scalar * bool := (fst r, negb (snd r =? 0)).

#[export, refine] Instance scalar_4x64 : ScalarImpl := {
  ScalarSpec.scalar := scalar;
  sval := val;
  sok := canon;
  s_const := SECP256K1_SCALAR_CONST;
  s_clear := secp256k1_scalar_clear;
  s_set_int := secp256k1_scalar_set_int;
  s_set_u64 := secp256k1_scalar_set_u64;
  s_get_bits := secp256k1_scalar_get_bits;
  s_get_bits_var := secp256k1_scalar_get_bits_var;
  s_set_b32 := fun l => as_bool (secp256k1_scalar_set_b32 l);
  s_get_b32 := secp256k1_scalar_get_b32;
  s_add := fun a b => as_bool (secp256k1_scalar_add a b);
  s_cadd_bit := secp256k1_scalar_cadd_bit;
  s_mul := secp256k1_scalar_mul;
  s_sqr := secp256k1_scalar_sqr;
  s_shr_int := secp256k1_scalar_shr_int;
  s_negate := secp256k1_scalar_negate;
  s_cond_negate := secp256k1_scalar_cond_negate;
  s_is_zero := secp256k1_scalar_is_zero;
  s_is_one := secp256k1_scalar_is_one;
  s_is_even := secp256k1_scalar_is_even;
  s_is_high := fun a => negb (secp256k1_scalar_is_high a =? 0);
  s_eq := secp256k1_scalar_eq;
  s_split_128 := secp256k1_scalar_split_128;
  s_mul_shift_var := secp256k1_scalar_mul_shift_var;
  s_get_bits_var_ok := get_bits_var_spec;
  s_mul_ok := mul_spec;
  s_sqr_ok := sqr_spec;
  s_negate_ok := negate_spec;
  s_mul_shift_var_ok := mul_shift_var_spec;
}.
Proof.
  - intros a [L N]. split; [apply val_range, L|exact N].
  - intros a b [La _] [Lb _]. now apply val_inj.
  - intros a7 a6 a5 a4 a3 a2 a1 a0 H Hn.
    destruct (const_spec a7 a6 a5 a4 a3 a2 a1 a0 H) as [L V].
    split; [|exact V]. split; [exact L|]. rewrite V. exact Hn.
  - intros a. apply (small_canon 0). lia.
  - intros v Hv. apply small_canon. lia.
  - intros v Hv. now apply small_canon.
  - intros a off cnt Ha Ho Hc Hs Hd. apply get_bits_spec; try assumption. dlia.
  - intros l Hl Hlen. pose proof (set_b32_spec l Hl Hlen) as (C & V & O).
    unfold as_bool. split; [exact C|]. split; [exact V|]. rewrite O. now destruct (_ <=? _).
  - intros a [L _]. now apply get_b32_spec.
  - intros a b Ha Hb. pose proof (add_spec a b Ha Hb) as (C & V & O).
    unfold as_bool. split; [exact C|]. split; [exact V|]. rewrite O. now destruct (_ <=? _).
  - intros a bit flag [L N] Hb Hf.
    assert (B : n_order < 2 ^ 256) by (unfold n_order; lia).
    destruct (cadd_bit_spec a bit flag L Hb) as [L' V].
    { intros E. specialize (Hf E). lia. }
    split; [|exact V]. split; [exact L'|]. rewrite V. destruct flag; [now apply Hf|exact N].
  - intros a n Ha Hn. pose proof (shr_int_spec a n Ha Hn) as (L & V & O).
    destruct (secp256k1_scalar_shr_int a n) as [r low]. cbn [fst snd] in *.
    split; [|split; [exact V|exact O]]. split; [exact L|]. rewrite V.
    destruct Ha as [La Na]. pose proof (val_range a La).
    apply (Z.le_lt_trans _ (val a)); [|exact Na].
    assert (0 < 2 ^ n) by (apply Z.pow_pos_nonneg; lia).
    apply Z.div_le_upper_bound; nia.
  - intros a flag Ha. pose proof (cond_negate_spec a flag Ha) as (C & V & O).
    destruct (secp256k1_scalar_cond_negate a flag). auto.
  - intros a [L _]. now apply zero_spec.
  - intros a [L _]. now apply one_spec.
  - intros a [L _]. now apply even_spec.
  - intros a [L _]. rewrite is_high_spec by exact L. now destruct (_ <? _).
  - intros a b [La _] [Lb _]. now apply eq_spec.
  - intros a [L N]. pose proof (split_128_spec a L) as (L1 & L2 & V1 & V2).
    destruct (secp256k1_scalar_split_128 a) as [r1 r2]. cbn [fst snd] in *.
    pose proof (val_range a L). unfold canon. rewrite V1, V2. unfold n_order in *.
    split; [split; [exact L1|dlia]|]. split; [split; [exact L2|dlia]|]. auto.
Defined.
