(* ===== verification/Scalar8x32.v ===== *)
(** * scalar_8x32_impl.h: scalars in eight 32-bit words

    The representation of the configuration the Rust crate builds
    (USE_SCALAR_8X32).  As for the 4x64 code, a scalar is the record of its
    words, and a result returned through a pointer is the value of the
    definition, paired with the return value where there is one. *)
From S2P Require Import Prelude ScalarSpec Accum.

Record scalar := Scalar {
  d0 : Z; d1 : Z; d2 : Z; d3 : Z; d4 : Z; d5 : Z; d6 : Z; d7 : Z }.

(** Word [i] of the array. *)
Definition word (a : scalar) (i : Z) : Z :=
  at_ [d0 a; d1 a; d2 a; d3 a; d4 a; d5 a; d6 a; d7 a] i.

Definition SECP256K1_SCALAR_CONST (d7 d6 d5 d4 d3 d2 d1 d0 : Z) : scalar :=
  Scalar d0 d1 d2 d3 d4 d5 d6 d7.

(** Limbs of the order, of 2^256 minus the order, and of half the order. *)
Definition SECP256K1_N_0 : Z := 0xD0364141.
Definition SECP256K1_N_1 : Z := 0xBFD25E8C.
Definition SECP256K1_N_2 : Z := 0xAF48A03B.
Definition SECP256K1_N_3 : Z := 0xBAAEDCE6.
Definition SECP256K1_N_4 : Z := 0xFFFFFFFE.
Definition SECP256K1_N_5 : Z := 0xFFFFFFFF.
Definition SECP256K1_N_6 : Z := 0xFFFFFFFF.
Definition SECP256K1_N_7 : Z := 0xFFFFFFFF.
Definition SECP256K1_N_C_0 : Z := u32 (not32 SECP256K1_N_0 + 1).
Definition SECP256K1_N_C_1 : Z := not32 SECP256K1_N_1.
Definition SECP256K1_N_C_2 : Z := not32 SECP256K1_N_2.
Definition SECP256K1_N_C_3 : Z := not32 SECP256K1_N_3.
Definition SECP256K1_N_C_4 : Z := 1.
Definition SECP256K1_N_H_0 : Z := 0x681B20A0.
Definition SECP256K1_N_H_1 : Z := 0xDFE92F46.
Definition SECP256K1_N_H_2 : Z := 0x57A4501D.
Definition SECP256K1_N_H_3 : Z := 0x5D576E73.
Definition SECP256K1_N_H_4 : Z := 0xFFFFFFFF.
Definition SECP256K1_N_H_5 : Z := 0xFFFFFFFF.
Definition SECP256K1_N_H_6 : Z := 0xFFFFFFFF.
Definition SECP256K1_N_H_7 : Z := 0x7FFFFFFF.

Definition secp256k1_scalar_clear (r : scalar) : scalar := Scalar 0 0 0 0 0 0 0 0.

Definition secp256k1_scalar_set_int (v : Z) : scalar := Scalar v 0 0 0 0 0 0 0.

Definition secp256k1_scalar_set_u64 (v : Z) : scalar :=
  Scalar (u32 v) (u32 (v >> 32)) 0 0 0 0 0 0.

(** The mask [(1 << count) - 1] is computed in an [int]. *)
Definition secp256k1_scalar_get_bits (a : scalar) (offset count : Z) : Z :=
  (word a (offset >> 5) >> (offset .& 0x1F)) .& u32 (s32 (s32 (1 << count) - 1)).

Definition secp256k1_scalar_get_bits_var (a : scalar) (offset count : Z) : Z :=
  if (u32 (u32 (offset + count) - 1) >> 5) =? (offset >> 5)
  then secp256k1_scalar_get_bits a offset count
  else ((word a (offset >> 5) >> (offset .& 0x1F))
        .| u32 (word a ((offset >> 5) + 1) << (32 - (offset .& 0x1F))))
       .& u32 (u32 (1 << count) - 1).

Definition secp256k1_scalar_check_overflow (a : scalar) : Z :=
  let yes := 0 in
  let no := 0 in
  let no := no .| b2z (d7 a <? SECP256K1_N_7) in
  let no := no .| b2z (d6 a <? SECP256K1_N_6) in
  let no := no .| b2z (d5 a <? SECP256K1_N_5) in
  let no := no .| b2z (d4 a <? SECP256K1_N_4) in
  let yes := yes .| (b2z (SECP256K1_N_4 <? d4 a) .& Z.lnot no) in
  let no := no .| (b2z (d3 a <? SECP256K1_N_3) .& Z.lnot yes) in
  let yes := yes .| (b2z (SECP256K1_N_3 <? d3 a) .& Z.lnot no) in
  let no := no .| (b2z (d2 a <? SECP256K1_N_2) .& Z.lnot yes) in
  let yes := yes .| (b2z (SECP256K1_N_2 <? d2 a) .& Z.lnot no) in
  let no := no .| (b2z (d1 a <? SECP256K1_N_1) .& Z.lnot yes) in
  let yes := yes .| (b2z (SECP256K1_N_1 <? d1 a) .& Z.lnot no) in
  let yes := yes .| (b2z (SECP256K1_N_0 <=? d0 a) .& Z.lnot no) in
  yes.

Definition secp256k1_scalar_reduce (r : scalar) (overflow : Z) : scalar * Z :=
  let t := u64 (d0 r + u32 (overflow * SECP256K1_N_C_0)) in
  let r0 := t .& 0xFFFFFFFF in let t := t >> 32 in
  let t := u64 (t + u64 (d1 r + u32 (overflow * SECP256K1_N_C_1))) in
  let r1 := t .& 0xFFFFFFFF in let t := t >> 32 in
  let t := u64 (t + u64 (d2 r + u32 (overflow * SECP256K1_N_C_2))) in
  let r2 := t .& 0xFFFFFFFF in let t := t >> 32 in
  let t := u64 (t + u64 (d3 r + u32 (overflow * SECP256K1_N_C_3))) in
  let r3 := t .& 0xFFFFFFFF in let t := t >> 32 in
  let t := u64 (t + u64 (d4 r + u32 (overflow * SECP256K1_N_C_4))) in
  let r4 := t .& 0xFFFFFFFF in let t := t >> 32 in
  let t := u64 (t + d5 r) in
  let r5 := t .& 0xFFFFFFFF in let t := t >> 32 in
  let t := u64 (t + d6 r) in
  let r6 := t .& 0xFFFFFFFF in let t := t >> 32 in
  let t := u64 (t + d7 r) in
  let r7 := t .& 0xFFFFFFFF in
  (Scalar r0 r1 r2 r3 r4 r5 r6 r7, overflow).

Definition secp256k1_scalar_add (a b : scalar) : scalar * Z :=
  let t := u64 (d0 a + d0 b) in
  let r0 := t .& 0xFFFFFFFF in let t := t >> 32 in
  let t := u64 (t + u64 (d1 a + d1 b)) in
  let r1 := t .& 0xFFFFFFFF in let t := t >> 32 in
  let t := u64 (t + u64 (d2 a + d2 b)) in
  let r2 := t .& 0xFFFFFFFF in let t := t >> 32 in
  let t := u64 (t + u64 (d3 a + d3 b)) in
  let r3 := t .& 0xFFFFFFFF in let t := t >> 32 in
  let t := u64 (t + u64 (d4 a + d4 b)) in
  let r4 := t .& 0xFFFFFFFF in let t := t >> 32 in
  let t := u64 (t + u64 (d5 a + d5 b)) in
  let r5 := t .& 0xFFFFFFFF in let t := t >> 32 in
  let t := u64 (t + u64 (d6 a + d6 b)) in
  let r6 := t .& 0xFFFFFFFF in let t := t >> 32 in
  let t := u64 (t + u64 (d7 a + d7 b)) in
  let r7 := t .& 0xFFFFFFFF in let t := t >> 32 in
  let r := Scalar r0 r1 r2 r3 r4 r5 r6 r7 in
  let overflow := u32 (t + secp256k1_scalar_check_overflow r) in
  let '(r, _) := secp256k1_scalar_reduce r overflow in
  (r, overflow).

Definition secp256k1_scalar_cadd_bit (r : scalar) (bit : Z) (flag : bool) : scalar :=
  let bit := u32 (bit + (u32 (b2z flag - 1) .& 0x100)) in
  let t := u64 (d0 r + u32 (b2z ((bit >> 5) =? 0) << (bit .& 0x1F))) in
  let r0 := t .& 0xFFFFFFFF in let t := t >> 32 in
  let t := u64 (t + u64 (d1 r + u32 (b2z ((bit >> 5) =? 1) << (bit .& 0x1F)))) in
  let r1 := t .& 0xFFFFFFFF in let t := t >> 32 in
  let t := u64 (t + u64 (d2 r + u32 (b2z ((bit >> 5) =? 2) << (bit .& 0x1F)))) in
  let r2 := t .& 0xFFFFFFFF in let t := t >> 32 in
  let t := u64 (t + u64 (d3 r + u32 (b2z ((bit >> 5) =? 3) << (bit .& 0x1F)))) in
  let r3 := t .& 0xFFFFFFFF in let t := t >> 32 in
  let t := u64 (t + u64 (d4 r + u32 (b2z ((bit >> 5) =? 4) << (bit .& 0x1F)))) in
  let r4 := t .& 0xFFFFFFFF in let t := t >> 32 in
  let t := u64 (t + u64 (d5 r + u32 (b2z ((bit >> 5) =? 5) << (bit .& 0x1F)))) in
  let r5 := t .& 0xFFFFFFFF in let t := t >> 32 in
  let t := u64 (t + u64 (d6 r + u32 (b2z ((bit >> 5) =? 6) << (bit .& 0x1F)))) in
  let r6 := t .& 0xFFFFFFFF in let t := t >> 32 in
  let t := u64 (t + u64 (d7 r + u32 (b2z ((bit >> 5) =? 7) << (bit .& 0x1F)))) in
  let r7 := t .& 0xFFFFFFFF in
  Scalar r0 r1 r2 r3 r4 r5 r6 r7.

(** The word whose least significant byte is [b lo]. *)
Definition join4 (b : Z -> Z) (lo : Z) : Z :=
  ((b lo .| (b (lo - 1) << 8)) .| (b (lo - 2) << 16)) .| (b (lo - 3) << 24).

Definition secp256k1_scalar_set_b32 (b32 : bytes) : scalar * Z :=
  let b := at_ b32 in
  let r := Scalar (join4 b 31) (join4 b 27) (join4 b 23) (join4 b 19)
                  (join4 b 15) (join4 b 11) (join4 b 7) (join4 b 3) in
  secp256k1_scalar_reduce r (secp256k1_scalar_check_overflow r).

Definition secp256k1_scalar_get_b32 (a : scalar) : bytes :=
  flat_map (fun d => map u8 [d >> 24; d >> 16; d >> 8; d])
    [d7 a; d6 a; d5 a; d4 a; d3 a; d2 a; d1 a; d0 a].

Definition secp256k1_scalar_is_zero (a : scalar) : bool :=
  (((((((d0 a .| d1 a) .| d2 a) .| d3 a) .| d4 a) .| d5 a) .| d6 a) .| d7 a) =? 0.

Definition secp256k1_scalar_negate (a : scalar) : scalar :=
  let nonzero := u32 (0xFFFFFFFF * b2z (negb (secp256k1_scalar_is_zero a))) in
  let t := u64 (u64 (not32 (d0 a) + SECP256K1_N_0) + 1) in
  let r0 := t .& nonzero in let t := t >> 32 in
  let t := u64 (t + u64 (not32 (d1 a) + SECP256K1_N_1)) in
  let r1 := t .& nonzero in let t := t >> 32 in
  let t := u64 (t + u64 (not32 (d2 a) + SECP256K1_N_2)) in
  let r2 := t .& nonzero in let t := t >> 32 in
  let t := u64 (t + u64 (not32 (d3 a) + SECP256K1_N_3)) in
  let r3 := t .& nonzero in let t := t >> 32 in
  let t := u64 (t + u64 (not32 (d4 a) + SECP256K1_N_4)) in
  let r4 := t .& nonzero in let t := t >> 32 in
  let t := u64 (t + u64 (not32 (d5 a) + SECP256K1_N_5)) in
  let r5 := t .& nonzero in let t := t >> 32 in
  let t := u64 (t + u64 (not32 (d6 a) + SECP256K1_N_6)) in
  let r6 := t .& nonzero in let t := t >> 32 in
  let t := u64 (t + u64 (not32 (d7 a) + SECP256K1_N_7)) in
  let r7 := t .& nonzero in
  Scalar r0 r1 r2 r3 r4 r5 r6 r7.

Definition secp256k1_scalar_is_one (a : scalar) : bool :=
  ((((((((d0 a .^ 1) .| d1 a) .| d2 a) .| d3 a) .| d4 a) .| d5 a) .| d6 a) .| d7 a) =? 0.

Definition secp256k1_scalar_is_high (a : scalar) : Z :=
  let yes := 0 in
  let no := 0 in
  let no := no .| b2z (d7 a <? SECP256K1_N_H_7) in
  let yes := yes .| (b2z (SECP256K1_N_H_7 <? d7 a) .& Z.lnot no) in
  let no := no .| (b2z (d6 a <? SECP256K1_N_H_6) .& Z.lnot yes) in
  let no := no .| (b2z (d5 a <? SECP256K1_N_H_5) .& Z.lnot yes) in
  let no := no .| (b2z (d4 a <? SECP256K1_N_H_4) .& Z.lnot yes) in
  let no := no .| (b2z (d3 a <? SECP256K1_N_H_3) .& Z.lnot yes) in
  let yes := yes .| (b2z (SECP256K1_N_H_3 <? d3 a) .& Z.lnot no) in
  let no := no .| (b2z (d2 a <? SECP256K1_N_H_2) .& Z.lnot yes) in
  let yes := yes .| (b2z (SECP256K1_N_H_2 <? d2 a) .& Z.lnot no) in
  let no := no .| (b2z (d1 a <? SECP256K1_N_H_1) .& Z.lnot yes) in
  let yes := yes .| (b2z (SECP256K1_N_H_1 <? d1 a) .& Z.lnot no) in
  let yes := yes .| (b2z (SECP256K1_N_H_0 <? d0 a) .& Z.lnot no) in
  yes.

Definition secp256k1_scalar_cond_negate (r : scalar) (flag : bool) : scalar * Z :=
  let mask := u32 (b2z (negb flag) - 1) in
  let nonzero := u32 (0xFFFFFFFF * b2z (negb (secp256k1_scalar_is_zero r))) in
  let t := u64 ((d0 r .^ mask) + (u32 (SECP256K1_N_0 + 1) .& mask)) in
  let r0 := t .& nonzero in let t := t >> 32 in
  let t := u64 (t + u64 ((d1 r .^ mask) + (SECP256K1_N_1 .& mask))) in
  let r1 := t .& nonzero in let t := t >> 32 in
  let t := u64 (t + u64 ((d2 r .^ mask) + (SECP256K1_N_2 .& mask))) in
  let r2 := t .& nonzero in let t := t >> 32 in
  let t := u64 (t + u64 ((d3 r .^ mask) + (SECP256K1_N_3 .& mask))) in
  let r3 := t .& nonzero in let t := t >> 32 in
  let t := u64 (t + u64 ((d4 r .^ mask) + (SECP256K1_N_4 .& mask))) in
  let r4 := t .& nonzero in let t := t >> 32 in
  let t := u64 (t + u64 ((d5 r .^ mask) + (SECP256K1_N_5 .& mask))) in
  let r5 := t .& nonzero in let t := t >> 32 in
  let t := u64 (t + u64 ((d6 r .^ mask) + (SECP256K1_N_6 .& mask))) in
  let r6 := t .& nonzero in let t := t >> 32 in
  let t := u64 (t + u64 ((d7 r .^ mask) + (SECP256K1_N_7 .& mask))) in
  let r7 := t .& nonzero in
  (Scalar r0 r1 r2 r3 r4 r5 r6 r7, 2 * b2z (mask =? 0) - 1).

Definition secp256k1_scalar_reduce_512 (l : list Z) : scalar :=
  let n0 := nth 8 l 0 in let n1 := nth 9 l 0 in
  let n2 := nth 10 l 0 in let n3 := nth 11 l 0 in
  let n4 := nth 12 l 0 in let n5 := nth 13 l 0 in
  let n6 := nth 14 l 0 in let n7 := nth 15 l 0 in
  let l0 := nth 0 l 0 in let l1 := nth 1 l 0 in
  let l2 := nth 2 l 0 in let l3 := nth 3 l 0 in
  let l4 := nth 4 l 0 in let l5 := nth 5 l 0 in
  let l6 := nth 6 l 0 in let l7 := nth 7 l 0 in
  let c := Acc l0 0 0 in
  let c := muladd_fast 32 c n0 SECP256K1_N_C_0 in
  let '(m0, c) := extract_fast c in
  let c := sumadd_fast 32 c l1 in
  let c := muladd 32 32 c n1 SECP256K1_N_C_0 in
  let c := muladd 32 32 c n0 SECP256K1_N_C_1 in
  let '(m1, c) := extract c in
  let c := sumadd 32 32 c l2 in
  let c := muladd 32 32 c n2 SECP256K1_N_C_0 in
  let c := muladd 32 32 c n1 SECP256K1_N_C_1 in
  let c := muladd 32 32 c n0 SECP256K1_N_C_2 in
  let '(m2, c) := extract c in
  let c := sumadd 32 32 c l3 in
  let c := muladd 32 32 c n3 SECP256K1_N_C_0 in
  let c := muladd 32 32 c n2 SECP256K1_N_C_1 in
  let c := muladd 32 32 c n1 SECP256K1_N_C_2 in
  let c := muladd 32 32 c n0 SECP256K1_N_C_3 in
  let '(m3, c) := extract c in
  let c := sumadd 32 32 c l4 in
  let c := muladd 32 32 c n4 SECP256K1_N_C_0 in
  let c := muladd 32 32 c n3 SECP256K1_N_C_1 in
  let c := muladd 32 32 c n2 SECP256K1_N_C_2 in
  let c := muladd 32 32 c n1 SECP256K1_N_C_3 in
  let c := sumadd 32 32 c n0 in
  let '(m4, c) := extract c in
  let c := sumadd 32 32 c l5 in
  let c := muladd 32 32 c n5 SECP256K1_N_C_0 in
  let c := muladd 32 32 c n4 SECP256K1_N_C_1 in
  let c := muladd 32 32 c n3 SECP256K1_N_C_2 in
  let c := muladd 32 32 c n2 SECP256K1_N_C_3 in
  let c := sumadd 32 32 c n1 in
  let '(m5, c) := extract c in
  let c := sumadd 32 32 c l6 in
  let c := muladd 32 32 c n6 SECP256K1_N_C_0 in
  let c := muladd 32 32 c n5 SECP256K1_N_C_1 in
  let c := muladd 32 32 c n4 SECP256K1_N_C_2 in
  let c := muladd 32 32 c n3 SECP256K1_N_C_3 in
  let c := sumadd 32 32 c n2 in
  let '(m6, c) := extract c in
  let c := sumadd 32 32 c l7 in
  let c := muladd 32 32 c n7 SECP256K1_N_C_0 in
  let c := muladd 32 32 c n6 SECP256K1_N_C_1 in
  let c := muladd 32 32 c n5 SECP256K1_N_C_2 in
  let c := muladd 32 32 c n4 SECP256K1_N_C_3 in
  let c := sumadd 32 32 c n3 in
  let '(m7, c) := extract c in
  let c := muladd 32 32 c n7 SECP256K1_N_C_1 in
  let c := muladd 32 32 c n6 SECP256K1_N_C_2 in
  let c := muladd 32 32 c n5 SECP256K1_N_C_3 in
  let c := sumadd 32 32 c n4 in
  let '(m8, c) := extract c in
  let c := muladd 32 32 c n7 SECP256K1_N_C_2 in
  let c := muladd 32 32 c n6 SECP256K1_N_C_3 in
  let c := sumadd 32 32 c n5 in
  let '(m9, c) := extract c in
  let c := muladd 32 32 c n7 SECP256K1_N_C_3 in
  let c := sumadd 32 32 c n6 in
  let '(m10, c) := extract c in
  let c := sumadd_fast 32 c n7 in
  let '(m11, c) := extract_fast c in
  let m12 := c0 c in
  let c := Acc m0 0 0 in
  let c := muladd_fast 32 c m8 SECP256K1_N_C_0 in
  let '(p0, c) := extract_fast c in
  let c := sumadd_fast 32 c m1 in
  let c := muladd 32 32 c m9 SECP256K1_N_C_0 in
  let c := muladd 32 32 c m8 SECP256K1_N_C_1 in
  let '(p1, c) := extract c in
  let c := sumadd 32 32 c m2 in
  let c := muladd 32 32 c m10 SECP256K1_N_C_0 in
  let c := muladd 32 32 c m9 SECP256K1_N_C_1 in
  let c := muladd 32 32 c m8 SECP256K1_N_C_2 in
  let '(p2, c) := extract c in
  let c := sumadd 32 32 c m3 in
  let c := muladd 32 32 c m11 SECP256K1_N_C_0 in
  let c := muladd 32 32 c m10 SECP256K1_N_C_1 in
  let c := muladd 32 32 c m9 SECP256K1_N_C_2 in
  let c := muladd 32 32 c m8 SECP256K1_N_C_3 in
  let '(p3, c) := extract c in
  let c := sumadd 32 32 c m4 in
  let c := muladd 32 32 c m12 SECP256K1_N_C_0 in
  let c := muladd 32 32 c m11 SECP256K1_N_C_1 in
  let c := muladd 32 32 c m10 SECP256K1_N_C_2 in
  let c := muladd 32 32 c m9 SECP256K1_N_C_3 in
  let c := sumadd 32 32 c m8 in
  let '(p4, c) := extract c in
  let c := sumadd 32 32 c m5 in
  let c := muladd 32 32 c m12 SECP256K1_N_C_1 in
  let c := muladd 32 32 c m11 SECP256K1_N_C_2 in
  let c := muladd 32 32 c m10 SECP256K1_N_C_3 in
  let c := sumadd 32 32 c m9 in
  let '(p5, c) := extract c in
  let c := sumadd 32 32 c m6 in
  let c := muladd 32 32 c m12 SECP256K1_N_C_2 in
  let c := muladd 32 32 c m11 SECP256K1_N_C_3 in
  let c := sumadd 32 32 c m10 in
  let '(p6, c) := extract c in
  let c := sumadd_fast 32 c m7 in
  let c := muladd_fast 32 c m12 SECP256K1_N_C_3 in
  let c := sumadd_fast 32 c m11 in
  let '(p7, c) := extract_fast c in
  let p8 := u32 (c0 c + m12) in
  let c := u64 (p0 + u64 (SECP256K1_N_C_0 * p8)) in
  let r0 := c .& 0xFFFFFFFF in let c := c >> 32 in
  let c := u64 (c + u64 (p1 + u64 (SECP256K1_N_C_1 * p8))) in
  let r1 := c .& 0xFFFFFFFF in let c := c >> 32 in
  let c := u64 (c + u64 (p2 + u64 (SECP256K1_N_C_2 * p8))) in
  let r2 := c .& 0xFFFFFFFF in let c := c >> 32 in
  let c := u64 (c + u64 (p3 + u64 (SECP256K1_N_C_3 * p8))) in
  let r3 := c .& 0xFFFFFFFF in let c := c >> 32 in
  let c := u64 (c + u64 (p4 + p8)) in
  let r4 := c .& 0xFFFFFFFF in let c := c >> 32 in
  let c := u64 (c + p5) in
  let r5 := c .& 0xFFFFFFFF in let c := c >> 32 in
  let c := u64 (c + p6) in
  let r6 := c .& 0xFFFFFFFF in let c := c >> 32 in
  let c := u64 (c + p7) in
  let r7 := c .& 0xFFFFFFFF in let c := c >> 32 in
  let r := Scalar r0 r1 r2 r3 r4 r5 r6 r7 in
  fst (secp256k1_scalar_reduce r (u32 (c + secp256k1_scalar_check_overflow r))).

Definition secp256k1_scalar_mul_512 (a b : scalar) : list Z :=
  let c := Acc 0 0 0 in
  let c := muladd_fast 32 c (d0 a) (d0 b) in
  let '(l0, c) := extract_fast c in
  let c := muladd 32 32 c (d0 a) (d1 b) in
  let c := muladd 32 32 c (d1 a) (d0 b) in
  let '(l1, c) := extract c in
  let c := muladd 32 32 c (d0 a) (d2 b) in
  let c := muladd 32 32 c (d1 a) (d1 b) in
  let c := muladd 32 32 c (d2 a) (d0 b) in
  let '(l2, c) := extract c in
  let c := muladd 32 32 c (d0 a) (d3 b) in
  let c := muladd 32 32 c (d1 a) (d2 b) in
  let c := muladd 32 32 c (d2 a) (d1 b) in
  let c := muladd 32 32 c (d3 a) (d0 b) in
  let '(l3, c) := extract c in
  let c := muladd 32 32 c (d0 a) (d4 b) in
  let c := muladd 32 32 c (d1 a) (d3 b) in
  let c := muladd 32 32 c (d2 a) (d2 b) in
  let c := muladd 32 32 c (d3 a) (d1 b) in
  let c := muladd 32 32 c (d4 a) (d0 b) in
  let '(l4, c) := extract c in
  let c := muladd 32 32 c (d0 a) (d5 b) in
  let c := muladd 32 32 c (d1 a) (d4 b) in
  let c := muladd 32 32 c (d2 a) (d3 b) in
  let c := muladd 32 32 c (d3 a) (d2 b) in
  let c := muladd 32 32 c (d4 a) (d1 b) in
  let c := muladd 32 32 c (d5 a) (d0 b) in
  let '(l5, c) := extract c in
  let c := muladd 32 32 c (d0 a) (d6 b) in
  let c := muladd 32 32 c (d1 a) (d5 b) in
  let c := muladd 32 32 c (d2 a) (d4 b) in
  let c := muladd 32 32 c (d3 a) (d3 b) in
  let c := muladd 32 32 c (d4 a) (d2 b) in
  let c := muladd 32 32 c (d5 a) (d1 b) in
  let c := muladd 32 32 c (d6 a) (d0 b) in
  let '(l6, c) := extract c in
  let c := muladd 32 32 c (d0 a) (d7 b) in
  let c := muladd 32 32 c (d1 a) (d6 b) in
  let c := muladd 32 32 c (d2 a) (d5 b) in
  let c := muladd 32 32 c (d3 a) (d4 b) in
  let c := muladd 32 32 c (d4 a) (d3 b) in
  let c := muladd 32 32 c (d5 a) (d2 b) in
  let c := muladd 32 32 c (d6 a) (d1 b) in
  let c := muladd 32 32 c (d7 a) (d0 b) in
  let '(l7, c) := extract c in
  let c := muladd 32 32 c (d1 a) (d7 b) in
  let c := muladd 32 32 c (d2 a) (d6 b) in
  let c := muladd 32 32 c (d3 a) (d5 b) in
  let c := muladd 32 32 c (d4 a) (d4 b) in
  let c := muladd 32 32 c (d5 a) (d3 b) in
  let c := muladd 32 32 c (d6 a) (d2 b) in
  let c := muladd 32 32 c (d7 a) (d1 b) in
  let '(l8, c) := extract c in
  let c := muladd 32 32 c (d2 a) (d7 b) in
  let c := muladd 32 32 c (d3 a) (d6 b) in
  let c := muladd 32 32 c (d4 a) (d5 b) in
  let c := muladd 32 32 c (d5 a) (d4 b) in
  let c := muladd 32 32 c (d6 a) (d3 b) in
  let c := muladd 32 32 c (d7 a) (d2 b) in
  let '(l9, c) := extract c in
  let c := muladd 32 32 c (d3 a) (d7 b) in
  let c := muladd 32 32 c (d4 a) (d6 b) in
  let c := muladd 32 32 c (d5 a) (d5 b) in
  let c := muladd 32 32 c (d6 a) (d4 b) in
  let c := muladd 32 32 c (d7 a) (d3 b) in
  let '(l10, c) := extract c in
  let c := muladd 32 32 c (d4 a) (d7 b) in
  let c := muladd 32 32 c (d5 a) (d6 b) in
  let c := muladd 32 32 c (d6 a) (d5 b) in
  let c := muladd 32 32 c (d7 a) (d4 b) in
  let '(l11, c) := extract c in
  let c := muladd 32 32 c (d5 a) (d7 b) in
  let c := muladd 32 32 c (d6 a) (d6 b) in
  let c := muladd 32 32 c (d7 a) (d5 b) in
  let '(l12, c) := extract c in
  let c := muladd 32 32 c (d6 a) (d7 b) in
  let c := muladd 32 32 c (d7 a) (d6 b) in
  let '(l13, c) := extract c in
  let c := muladd_fast 32 c (d7 a) (d7 b) in
  let '(l14, c) := extract_fast c in
  let l15 := c0 c in
  [l0; l1; l2; l3; l4; l5; l6; l7; l8; l9; l10; l11; l12; l13; l14; l15].

Definition secp256k1_scalar_sqr_512 (a : scalar) : list Z :=
  let c := Acc 0 0 0 in
  let c := muladd_fast 32 c (d0 a) (d0 a) in
  let '(l0, c) := extract_fast c in
  let c := muladd2 32 32 c (d0 a) (d1 a) in
  let '(l1, c) := extract c in
  let c := muladd2 32 32 c (d0 a) (d2 a) in
  let c := muladd 32 32 c (d1 a) (d1 a) in
  let '(l2, c) := extract c in
  let c := muladd2 32 32 c (d0 a) (d3 a) in
  let c := muladd2 32 32 c (d1 a) (d2 a) in
  let '(l3, c) := extract c in
  let c := muladd2 32 32 c (d0 a) (d4 a) in
  let c := muladd2 32 32 c (d1 a) (d3 a) in
  let c := muladd 32 32 c (d2 a) (d2 a) in
  let '(l4, c) := extract c in
  let c := muladd2 32 32 c (d0 a) (d5 a) in
  let c := muladd2 32 32 c (d1 a) (d4 a) in
  let c := muladd2 32 32 c (d2 a) (d3 a) in
  let '(l5, c) := extract c in
  let c := muladd2 32 32 c (d0 a) (d6 a) in
  let c := muladd2 32 32 c (d1 a) (d5 a) in
  let c := muladd2 32 32 c (d2 a) (d4 a) in
  let c := muladd 32 32 c (d3 a) (d3 a) in
  let '(l6, c) := extract c in
  let c := muladd2 32 32 c (d0 a) (d7 a) in
  let c := muladd2 32 32 c (d1 a) (d6 a) in
  let c := muladd2 32 32 c (d2 a) (d5 a) in
  let c := muladd2 32 32 c (d3 a) (d4 a) in
  let '(l7, c) := extract c in
  let c := muladd2 32 32 c (d1 a) (d7 a) in
  let c := muladd2 32 32 c (d2 a) (d6 a) in
  let c := muladd2 32 32 c (d3 a) (d5 a) in
  let c := muladd 32 32 c (d4 a) (d4 a) in
  let '(l8, c) := extract c in
  let c := muladd2 32 32 c (d2 a) (d7 a) in
  let c := muladd2 32 32 c (d3 a) (d6 a) in
  let c := muladd2 32 32 c (d4 a) (d5 a) in
  let '(l9, c) := extract c in
  let c := muladd2 32 32 c (d3 a) (d7 a) in
  let c := muladd2 32 32 c (d4 a) (d6 a) in
  let c := muladd 32 32 c (d5 a) (d5 a) in
  let '(l10, c) := extract c in
  let c := muladd2 32 32 c (d4 a) (d7 a) in
  let c := muladd2 32 32 c (d5 a) (d6 a) in
  let '(l11, c) := extract c in
  let c := muladd2 32 32 c (d5 a) (d7 a) in
  let c := muladd 32 32 c (d6 a) (d6 a) in
  let '(l12, c) := extract c in
  let c := muladd2 32 32 c (d6 a) (d7 a) in
  let '(l13, c) := extract c in
  let c := muladd_fast 32 c (d7 a) (d7 a) in
  let '(l14, c) := extract_fast c in
  let l15 := c0 c in
  [l0; l1; l2; l3; l4; l5; l6; l7; l8; l9; l10; l11; l12; l13; l14; l15].

Definition secp256k1_scalar_mul (a b : scalar) : scalar :=
  secp256k1_scalar_reduce_512 (secp256k1_scalar_mul_512 a b).

Definition secp256k1_scalar_shr_int (r : scalar) (n : Z) : scalar * Z :=
  let ret := d0 r .& ((1 << n) - 1) in
  let r0 := u32 ((d0 r >> n) + u32 (d1 r << (32 - n))) in
  let r1 := u32 ((d1 r >> n) + u32 (d2 r << (32 - n))) in
  let r2 := u32 ((d2 r >> n) + u32 (d3 r << (32 - n))) in
  let r3 := u32 ((d3 r >> n) + u32 (d4 r << (32 - n))) in
  let r4 := u32 ((d4 r >> n) + u32 (d5 r << (32 - n))) in
  let r5 := u32 ((d5 r >> n) + u32 (d6 r << (32 - n))) in
  let r6 := u32 ((d6 r >> n) + u32 (d7 r << (32 - n))) in
  let r7 := d7 r >> n in
  (Scalar r0 r1 r2 r3 r4 r5 r6 r7, ret).

Definition secp256k1_scalar_sqr (a : scalar) : scalar :=
  secp256k1_scalar_reduce_512 (secp256k1_scalar_sqr_512 a).

Definition secp256k1_scalar_split_128 (a : scalar) : scalar * scalar :=
  (Scalar (d0 a) (d1 a) (d2 a) (d3 a) 0 0 0 0, Scalar (d4 a) (d5 a) (d6 a) (d7 a) 0 0 0 0).

Definition secp256k1_scalar_eq (a b : scalar) : bool :=
  ((((((((d0 a .^ d0 b) .| (d1 a .^ d1 b)) .| (d2 a .^ d2 b)) .| (d3 a .^ d3 b))
      .| (d4 a .^ d4 b)) .| (d5 a .^ d5 b)) .| (d6 a .^ d6 b)) .| (d7 a .^ d7 b)) =? 0.

(** Reads of [l] beyond its end are guarded by the tests on [shift]. *)
Definition secp256k1_scalar_mul_shift_var (a b : scalar) (shift : Z) : scalar :=
  let l := at_ (secp256k1_scalar_mul_512 a b) in
  let shiftlimbs := shift >> 5 in
  let shiftlow := shift .& 0x1F in
  let shifthigh := 32 - shiftlow in
  let r0 := if shift <? 512 then
      (l (0 + shiftlimbs) >> shiftlow)
      .| (if (shift <? 480) && negb (shiftlow =? 0)
          then u32 (l (1 + shiftlimbs) << shifthigh) else 0) else 0 in
  let r1 := if shift <? 480 then
      (l (1 + shiftlimbs) >> shiftlow)
      .| (if (shift <? 448) && negb (shiftlow =? 0)
          then u32 (l (2 + shiftlimbs) << shifthigh) else 0) else 0 in
  let r2 := if shift <? 448 then
      (l (2 + shiftlimbs) >> shiftlow)
      .| (if (shift <? 416) && negb (shiftlow =? 0)
          then u32 (l (3 + shiftlimbs) << shifthigh) else 0) else 0 in
  let r3 := if shift <? 416 then
      (l (3 + shiftlimbs) >> shiftlow)
      .| (if (shift <? 384) && negb (shiftlow =? 0)
          then u32 (l (4 + shiftlimbs) << shifthigh) else 0) else 0 in
  let r4 := if shift <? 384 then
      (l (4 + shiftlimbs) >> shiftlow)
      .| (if (shift <? 352) && negb (shiftlow =? 0)
          then u32 (l (5 + shiftlimbs) << shifthigh) else 0) else 0 in
  let r5 := if shift <? 352 then
      (l (5 + shiftlimbs) >> shiftlow)
      .| (if (shift <? 320) && negb (shiftlow =? 0)
          then u32 (l (6 + shiftlimbs) << shifthigh) else 0) else 0 in
  let r6 := if shift <? 320 then
      (l (6 + shiftlimbs) >> shiftlow)
      .| (if (shift <? 288) && negb (shiftlow =? 0)
          then u32 (l (7 + shiftlimbs) << shifthigh) else 0) else 0 in
  let r7 := if shift <? 288 then l (7 + shiftlimbs) >> shiftlow else 0 in
  secp256k1_scalar_cadd_bit (Scalar r0 r1 r2 r3 r4 r5 r6 r7) 0
    (negb (((l ((shift - 1) >> 5) >> ((shift - 1) .& 0x1f)) .& 1) =? 0)).

(** scalar_impl.h *)
Definition secp256k1_scalar_is_even (a : scalar) : bool := (d0 a .& 1) =? 0.
(** * Theorems *)

Definition val (a : scalar) : Z :=
  d0 a + d1 a * 2 ^ 32 + d2 a * 2 ^ 64 + d3 a * 2 ^ 96
  + d4 a * 2 ^ 128 + d5 a * 2 ^ 160 + d6 a * 2 ^ 192 + d7 a * 2 ^ 224.

Record limbs (a : scalar) : Prop := {
  lim0 : Bounded (d0 a) 0xFFFFFFFF;
  lim1 : Bounded (d1 a) 0xFFFFFFFF;
  lim2 : Bounded (d2 a) 0xFFFFFFFF;
  lim3 : Bounded (d3 a) 0xFFFFFFFF;
  lim4 : Bounded (d4 a) 0xFFFFFFFF;
  lim5 : Bounded (d5 a) 0xFFFFFFFF;
  lim6 : Bounded (d6 a) 0xFFFFFFFF;
  lim7 : Bounded (d7 a) 0xFFFFFFFF }.

Definition canon (a : scalar) : Prop := limbs a /\ val a < n_order.

Lemma w32_val_range a : limbs a -> 0 <= val a < 2 ^ 256.
Proof. intros []. unfold Bounded, val in *. lia. Qed.

(** The scalar with a given value. *)
Definition of_Z (v : Z) : scalar :=
  Scalar (dig 32 v 0) (dig 32 v 1) (dig 32 v 2) (dig 32 v 3)
         (dig 32 v 4) (dig 32 v 5) (dig 32 v 6) (dig 32 v 7).

(** A record literal projected. *)
Ltac words := cbn [d0 d1 d2 d3 d4 d5 d6 d7] in *.

Ltac nconst :=
  change SECP256K1_N_0 with 0xD0364141 in *;
  change SECP256K1_N_1 with 0xBFD25E8C in *;
  change SECP256K1_N_2 with 0xAF48A03B in *;
  change SECP256K1_N_3 with 0xBAAEDCE6 in *;
  change SECP256K1_N_4 with 0xFFFFFFFE in *;
  change SECP256K1_N_5 with 0xFFFFFFFF in *;
  change SECP256K1_N_6 with 0xFFFFFFFF in *;
  change SECP256K1_N_7 with 0xFFFFFFFF in *;
  change SECP256K1_N_C_0 with 0x2FC9BEBF in *;
  change SECP256K1_N_C_1 with 0x402DA173 in *;
  change SECP256K1_N_C_2 with 0x50B75FC4 in *;
  change SECP256K1_N_C_3 with 0x45512319 in *;
  change SECP256K1_N_C_4 with 1 in *;
  change SECP256K1_N_H_0 with 0x681B20A0 in *;
  change SECP256K1_N_H_1 with 0xDFE92F46 in *;
  change SECP256K1_N_H_2 with 0x57A4501D in *;
  change SECP256K1_N_H_3 with 0x5D576E73 in *;
  change SECP256K1_N_H_4 with 0xFFFFFFFF in *;
  change SECP256K1_N_H_5 with 0xFFFFFFFF in *;
  change SECP256K1_N_H_6 with 0xFFFFFFFF in *;
  change SECP256K1_N_H_7 with 0x7FFFFFFF in *.

(** ** Comparison with the order

    Each line of the two comparisons is decided by one test, or not at all
    once [yes] or [no] is set. *)

Lemma land_done b : b2z b .& Z.lnot 1 = 0.
Proof. now destruct b. Qed.

Lemma land_open b : b2z b .& Z.lnot 0 = b2z b.
Proof. now destruct b. Qed.

Lemma lor_done b : 1 .| b2z b = 1.
Proof. now destruct b. Qed.

Ltac cmp_step :=
  lazymatch goal with
  | |- wp ?P (let x := ?e in @?b x) =>
    let y := fresh "v" in let E := fresh "E" in
    apply (wp_let P e b); intros y E; cbv beta;
    rewrite ?land_done, ?land_open, ?lor_done in E;
    (lazymatch type of E with
     | context [b2z (?u <? ?v)] => destruct (Z.ltb_spec u v)
     | context [b2z (?u <=? ?v)] => destruct (Z.leb_spec u v)
     | _ => idtac
     end); vm_compute in E; subst y; try lia
  end.

Lemma w32_check_overflow_spec a : limbs a ->
  let r := secp256k1_scalar_check_overflow a in r = b2z (n_order <=? val a).
Proof.
  intros []. enter secp256k1_scalar_check_overflow. nconst. cbv beta delta [Bounded] in *.
  cbv beta delta [val n_order]. repeat cmp_step; cbv beta delta [wp];
    match goal with |- _ = b2z (?x <=? ?y) => destruct (Z.leb_spec x y) end;
    first [reflexivity | exfalso; lia].
Qed.

Lemma w32_is_high_spec a : limbs a ->
  let r := secp256k1_scalar_is_high a in r = b2z (n_order / 2 <? val a).
Proof.
  intros []. enter secp256k1_scalar_is_high. nconst. cbv beta delta [Bounded] in *.
  change (n_order / 2) with
    0x7FFFFFFFFFFFFFFFFFFFFFFFFFFFFFFF5D576E7357A4501DDFE92F46681B20A0.
  cbv beta delta [val]. repeat cmp_step; cbv beta delta [wp];
    match goal with |- _ = b2z (?x <? ?y) => destruct (Z.ltb_spec x y) end;
    first [reflexivity | exfalso; lia].
Qed.

(** Subtracting [overflow] times the order, from a sum whose carry out of the
    top word is [k], by adding the complement of the order. *)
Lemma w32_reduce_spec r overflow k : limbs r -> Bounded overflow 1 ->
  0 <= val r + 2 ^ 256 * k - overflow * n_order < 2 ^ 256 ->
  limbs (fst (secp256k1_scalar_reduce r overflow)) /\
  val (fst (secp256k1_scalar_reduce r overflow))
    = val r + 2 ^ 256 * k - overflow * n_order.
Proof.
  intros [] Ho Hv.
  enough (let s := secp256k1_scalar_reduce r overflow in
    limbs (fst s) /\ val (fst s) = val r + 2 ^ 256 * k - overflow * n_order) by assumption.
  enter secp256k1_scalar_reduce. nconst. wlets. cbv beta delta [wp]. cbn [fst].
  split; [split; words; by_bound|].
  unfold val, n_order in *. words. unfold Bounded in *. lia.
Qed.

(** The last step of the operations that end in [secp256k1_scalar_reduce]. *)
Lemma w32_reduce_final r k v : limbs r -> val r + 2 ^ 256 * k = v -> 0 <= v < 2 * n_order ->
  0 <= k ->
  k + secp256k1_scalar_check_overflow r = b2z (n_order <=? v) /\
  canon (fst (secp256k1_scalar_reduce r (b2z (n_order <=? v)))) /\
  val (fst (secp256k1_scalar_reduce r (b2z (n_order <=? v)))) = v mod n_order.
Proof.
  intros Lr Hv Hr Hk. pose proof (w32_val_range r Lr) as Rr.
  pose proof (mod_once v Hr) as M.
  pose proof (Z.mod_pos_bound v n_order ltac:(unfold n_order; lia)) as Rm.
  rewrite (w32_check_overflow_spec r Lr). split.
  - destruct (Z.leb_spec n_order (val r)), (Z.leb_spec n_order v); cbn [b2z];
      unfold n_order in *; lia.
  - destruct (w32_reduce_spec r (b2z (n_order <=? v)) k Lr (bounded_b2z _)) as [L V].
    { rewrite Hv, M. unfold n_order in *. lia. }
    rewrite Hv, M in V. split; [split; [exact L|lia]|exact V].
Qed.

Lemma w32_reduce_snd r o : snd (secp256k1_scalar_reduce r o) = o.
Proof. reflexivity. Qed.

Lemma w32_add_spec a b : canon a -> canon b ->
  let r := secp256k1_scalar_add a b in
  canon (fst r) /\ val (fst r) = (val a + val b) mod n_order /\
  snd r = b2z (n_order <=? val a + val b).
Proof.
  intros [[] Ha] [[] Hb]. enter secp256k1_scalar_add. wlets.
  wtake r Er.
  assert (Lr : limbs r) by (subst r; split; words; by_bound).
  match goal with |- context [?k + secp256k1_scalar_check_overflow r] =>
    assert (Vr : val r + 2 ^ 256 * k = val a + val b)
      by (subst r; unfold val in *; words; lia);
    destruct (w32_reduce_final r k (val a + val b) Lr Vr) as (E & C & V);
    [unfold val, Bounded in *; lia|unfold Bounded in *; lia|] end.
  rewrite E, u32_b2z. unfold wp. cbv zeta.
  set (o := b2z _) in *. destruct (secp256k1_scalar_reduce r o). now cbn in *.
Qed.

(** ** Words and values *)

Lemma w32_val_of_Z v : 0 <= v < 2 ^ 256 -> val (of_Z v) = v.
Proof.
  intros Hv. unfold val, of_Z. words.
  pose proof (dig_step 32 v 0 ltac:(lia) ltac:(lia)).
  pose proof (dig_step 32 v 1 ltac:(lia) ltac:(lia)).
  pose proof (dig_step 32 v 2 ltac:(lia) ltac:(lia)).
  pose proof (dig_step 32 v 3 ltac:(lia) ltac:(lia)).
  pose proof (dig_step 32 v 4 ltac:(lia) ltac:(lia)).
  pose proof (dig_step 32 v 5 ltac:(lia) ltac:(lia)).
  pose proof (dig_step 32 v 6 ltac:(lia) ltac:(lia)).
  pose proof (dig_step 32 v 7 ltac:(lia) ltac:(lia)).
  rewrite (Z.div_small v (2 ^ (32 * (7 + 1)))) in * by (cbn; lia).
  cbn [Z.mul Z.add Pos.mul Pos.add Pos.add_carry Pos.succ] in *.
  rewrite Z.pow_0_r, Z.div_1_r in *. lia.
Qed.

Lemma w32_of_Z_limbs v : limbs (of_Z v).
Proof.
  unfold of_Z. split; words; unfold Bounded;
    match goal with |- 0 <= dig ?w ?v ?k <= _ => pose proof (dig_range w v k ltac:(lia)) end; lia.
Qed.

Lemma w32_word_dig a i : limbs a -> 0 <= i -> word a i = dig 32 (val a) i.
Proof.
  intros [] Hi. set (l := [d0 a; d1 a; d2 a; d3 a; d4 a; d5 a; d6 a; d7 a]).
  assert (E : val a = words_of 32 l).
  { unfold val, words_of, l. cbn [fold_right]. ring. }
  rewrite E. apply (words_dig 32); [lia| |exact Hi].
  repeat (apply Forall_cons; [assumption|]). apply Forall_nil.
Qed.

Lemma w32_of_Z_val a : limbs a -> of_Z (val a) = a.
Proof.
  intros H. unfold of_Z. rewrite <- !(w32_word_dig a) by (assumption || lia).
  now destruct a.
Qed.

Lemma w32_val_inj a b : limbs a -> limbs b -> val a = val b -> a = b.
Proof. intros Ha Hb E. now rewrite <- (w32_of_Z_val a Ha), E, w32_of_Z_val. Qed.

Lemma w32_land_low x n : 0 <= n -> n < 32 -> x .& u32 (u32 (1 << n) - 1) = x mod 2 ^ n.
Proof.
  intros H0 H1. rewrite Z.shiftl_mul_pow2, Z.mul_1_l by lia. unfold u32.
  assert (1 <= 2 ^ n < 2 ^ 32).
  { split; [apply (Z.pow_le_mono_r 2 0 n); lia|apply Z.pow_lt_mono_r; lia]. }
  rewrite (Z.mod_small (2 ^ n)), Z.mod_small by lia. now apply land_mask.
Qed.

(** The mask computed in an [int], also for [n = 31]. *)
Lemma land_low_int x n : 0 < n < 32 -> x .& u32 (s32 (s32 (1 << n) - 1)) = x mod 2 ^ n.
Proof.
  intros Hn. rewrite Z.shiftl_mul_pow2, Z.mul_1_l by lia.
  replace (u32 (s32 (s32 (2 ^ n) - 1))) with (2 ^ n - 1); [now apply land_mask; lia|].
  destruct (Z.eq_dec n 31) as [->|]; [reflexivity|].
  assert (1 <= 2 ^ n <= 2 ^ 30).
  { split; [apply (Z.pow_le_mono_r 2 0 n); lia|apply Z.pow_le_mono_r; lia]. }
  unfold s32. rewrite (Z.mod_small (2 ^ n + _)) by lia.
  rewrite (Z.mod_small (2 ^ n + 2147483648 - 2147483648 - 1 + _)) by lia.
  rewrite u32_id; lia.
Qed.

Lemma and31 x : x .& 0x1F = x mod 32.
Proof. change 0x1F with (2 ^ 5 - 1). now apply land_mask. Qed.

Lemma shr5 x : x >> 5 = x / 32.
Proof. now rewrite Z.shiftr_div_pow2. Qed.

Lemma w32_get_bits_spec a off cnt : canon a -> 0 <= off -> 0 < cnt < 32 -> off + cnt <= 256 ->
  off mod 32 + cnt <= 32 ->
  secp256k1_scalar_get_bits a off cnt = (val a / 2 ^ off) mod 2 ^ cnt.
Proof.
  intros [Ha _] Ho Hc Hs Hd. unfold secp256k1_scalar_get_bits.
  rewrite and31, shr5, land_low_int by lia.
  rewrite w32_word_dig by (assumption || (apply Z.div_pos; lia)).
  pose proof (Z.mod_pos_bound off 32 ltac:(lia)).
  rewrite dig_sub by (try (apply Z.div_pos); lia).
  do 3 f_equal. symmetry. apply Z_div_mod_eq_full.
Qed.

Lemma w32_get_bits_var_spec a off cnt : canon a -> 0 <= off -> 0 < cnt < 32 -> off + cnt <= 256 ->
  secp256k1_scalar_get_bits_var a off cnt = (val a / 2 ^ off) mod 2 ^ cnt.
Proof.
  intros Ha Ho Hc Hs. unfold secp256k1_scalar_get_bits_var.
  rewrite (u32_id (off + cnt)), (u32_id (off + cnt - 1)), !shr5, !and31 by lia.
  destruct (Z.eqb_spec ((off + cnt - 1) / 32) (off / 32)) as [E|E].
  - apply w32_get_bits_spec; try assumption. dlia.
  - destruct Ha as [La _].
    assert (0 < off mod 32 < 32) by dlia.
    rewrite w32_land_low, !w32_word_dig by (assumption || (apply Z.div_pos; lia) || dlia).
    change u32 with (fun x => x mod 2 ^ 32). cbv beta.
    rewrite funnel by (assumption || (apply Z.div_pos; lia)).
    rewrite <- Z_div_mod_eq_full, mod_mod_pow2 by lia. reflexivity.
Qed.

(** ** Bytes *)

Lemma join4_spec b lo : (forall i, lo - 3 <= i <= lo -> is_byte (b i)) ->
  join4 b lo = be_val [b (lo - 3); b (lo - 2); b (lo - 1); b lo].
Proof.
  intros H. unfold is_byte in H.
  pose proof (H lo ltac:(lia)). pose proof (H (lo - 1) ltac:(lia)).
  pose proof (H (lo - 2) ltac:(lia)). pose proof (H (lo - 3) ltac:(lia)).
  unfold join4, be_val. cbn [fold_left]. rewrite !Z.shiftl_mul_pow2 by lia.
  rewrite (lor_join _ _ 8), (lor_join _ _ 16), (lor_join _ _ 24) by lia. lia.
Qed.

Lemma w32_set_b32_words l : Forall is_byte l -> length l = 32%nat ->
  let b := at_ l in
  let r := Scalar (join4 b 31) (join4 b 27) (join4 b 23) (join4 b 19)
                  (join4 b 15) (join4 b 11) (join4 b 7) (join4 b 3) in
  limbs r /\ val r = be_val l.
Proof.
  intros Hl Hlen. cbv zeta.
  rewrite !join4_spec by (intros; now apply at_byte).
  do 32 (destruct l as [|? l]; [discriminate|]). destruct l; [|discriminate].
  repeat match goal with H : Forall _ (_ :: _) |- _ => inversion_clear H end.
  repeat match goal with |- context [at_ ?L ?k] =>
    let v := eval vm_compute in (at_ L k) in change (at_ L k) with v end.
  split.
  - split; words; (apply be_val_bound; [|reflexivity]);
      repeat (apply Forall_cons; [assumption|]); apply Forall_nil.
  - match goal with |- val (Scalar (be_val ?h) (be_val ?g) (be_val ?f) (be_val ?e)
        (be_val ?d) (be_val ?c) (be_val ?b) (be_val ?a)) = _ =>
      transitivity (be_val (a ++ b ++ c ++ d ++ e ++ f ++ g ++ h)); [|reflexivity] end.
    rewrite !be_val_app. unfold val. words.
    cbn [app length Z.of_nat Pos.of_succ_nat Pos.succ]. lia.
Qed.

Lemma w32_set_b32_spec l : Forall is_byte l -> length l = 32%nat ->
  let r := secp256k1_scalar_set_b32 l in
  canon (fst r) /\ val (fst r) = be_val l mod n_order /\
  snd r = b2z (n_order <=? be_val l).
Proof.
  intros Hl Hlen. cbv zeta. unfold secp256k1_scalar_set_b32. cbv zeta.
  destruct (w32_set_b32_words l Hl Hlen) as [L V]. cbv zeta in L, V.
  set (r := Scalar _ _ _ _ _ _ _ _) in *. pose proof (w32_val_range r L) as R.
  destruct (w32_reduce_final r 0 (be_val l) L ltac:(lia) ltac:(unfold n_order; lia) ltac:(lia))
    as (E & C & W).
  rewrite Z.add_0_l in E. rewrite E, w32_reduce_snd.
  exact (conj C (conj W eq_refl)).
Qed.

Lemma w32_be_bytes_word d : map u8 [d >> 24; d >> 16; d >> 8; d] = be_bytes 4 d.
Proof.
  rewrite be_bytes_map. cbn [map seq]. unfold u8. rewrite !Z.shiftr_div_pow2 by lia.
  repeat (f_equal; try reflexivity). symmetry. apply Z.div_1_r.
Qed.

Lemma w32_be_bytes_32 v : be_bytes 32 v =
  be_bytes 4 (dig 32 v 7) ++ be_bytes 4 (dig 32 v 6) ++
  be_bytes 4 (dig 32 v 5) ++ be_bytes 4 (dig 32 v 4) ++
  be_bytes 4 (dig 32 v 3) ++ be_bytes 4 (dig 32 v 2) ++
  be_bytes 4 (dig 32 v 1) ++ be_bytes 4 (dig 32 v 0).
Proof.
  assert (E : forall k, be_bytes 4 (dig 32 v k) = be_bytes 4 (v / 2 ^ (32 * k))).
  { intros k. rewrite (be_bytes_mod 4 (_ / _)). reflexivity. }
  rewrite !E. rewrite (Z.div_1_r v : v / 2 ^ (32 * 0) = v).
  change 32%nat with (4 + (4 + (4 + (4 + (4 + (4 + (4 + 4)))))))%nat.
  now rewrite !be_bytes_app.
Qed.

Lemma w32_get_b32_spec a : limbs a -> secp256k1_scalar_get_b32 a = be_bytes 32 (val a).
Proof.
  intros H. unfold secp256k1_scalar_get_b32. cbn [flat_map].
  rewrite !w32_be_bytes_word, app_nil_r, w32_be_bytes_32.
  now rewrite <- (w32_of_Z_val a H) at 1 2 3 4 5 6 7 8.
Qed.

(** ** Tests *)

Lemma w32_zero_spec a : limbs a -> secp256k1_scalar_is_zero a = (val a =? 0).
Proof.
  intros []. unfold secp256k1_scalar_is_zero, val, Bounded in *. apply eq_true_iff_eq.
  rewrite !Z.eqb_eq, !lor_eq_0. lia.
Qed.

Lemma w32_one_spec a : limbs a -> secp256k1_scalar_is_one a = (val a =? 1).
Proof.
  intros []. unfold secp256k1_scalar_is_one, val, Bounded in *. apply eq_true_iff_eq.
  rewrite !Z.eqb_eq, !lor_eq_0, lxor_move. change (0 .^ 1) with 1. lia.
Qed.

Lemma w32_even_spec a : limbs a -> secp256k1_scalar_is_even a = Z.even (val a).
Proof.
  intros H. unfold secp256k1_scalar_is_even. change (d0 a) with (word a 0).
  rewrite w32_word_dig by (assumption || lia). change 1 with (2 ^ 1 - 1).
  rewrite land_mask by lia. unfold dig. rewrite (Z.div_1_r (val a) : val a / 2 ^ (32 * 0) = val a).
  rewrite mod_mod_pow2 by lia. change (2 ^ 1) with 2.
  rewrite <- Z.bit0_mod, Z.bit0_odd, <- Z.negb_even. now destruct (Z.even (val a)).
Qed.

Lemma w32_eq_spec a b : limbs a -> limbs b -> secp256k1_scalar_eq a b = (val a =? val b).
Proof.
  intros Ha Hb. unfold secp256k1_scalar_eq. apply eq_true_iff_eq.
  rewrite !Z.eqb_eq, !lor_eq_0, !Z.lxor_eq_0_iff. split.
  - intros (((((((E0 & E1) & E2) & E3) & E4) & E5) & E6) & E7). unfold val. congruence.
  - intros E. now rewrite (w32_val_inj a b Ha Hb E).
Qed.

(** ** Negation *)

Lemma w32_negate_spec a : canon a ->
  let r := secp256k1_scalar_negate a in
  canon r /\ val r = (- val a) mod n_order.
Proof.
  intros [[] Ha]. pose proof (w32_val_range a ltac:(now split)) as R.
  rewrite neg_mod by lia.
  enter secp256k1_scalar_negate. rewrite w32_zero_spec by (now split). nconst.
  destruct (Z.eqb_spec (val a) 0) as [E|E]; cbv beta iota delta [negb b2z]; wlets; cbv beta delta [wp].
  - split; [split|]; [split; words; by_bound| |];
      unfold val, n_order in *; words; unfold Bounded in *; lia.
  - split; [split|]; [split; words; by_bound| |];
      unfold val, n_order, not32 in *; words; unfold Bounded in *; lia.
Qed.

Lemma w32_lxor_ones x : Bounded x 0xFFFFFFFF -> x .^ 0xFFFFFFFF = not32 x.
Proof.
  intros Hx. unfold Bounded in Hx. apply Z.bits_inj'. intros i Hi. rewrite Z.lxor_spec.
  change 0xFFFFFFFF with (Z.ones 32). rewrite Z.testbit_ones_nonneg by lia.
  unfold not32. replace (0xFFFFFFFF - x) with (Z.lnot x + 1 * 2 ^ 32) by (unfold Z.lnot; lia).
  assert (V : (Z.lnot x + 1 * 2 ^ 32) mod 2 ^ 32 = Z.lnot x + 1 * 2 ^ 32).
  { apply Z.mod_small. unfold Z.lnot. lia. }
  rewrite <- V, Z_mod_plus_full, Z.testbit_mod_pow2 by lia.
  destruct (Z.ltb_spec i 32); cbn [andb].
  - now rewrite Z.lnot_spec, xorb_true_r by lia.
  - now rewrite (testbit_above x 32) by lia.
Qed.

Lemma w32_cond_negate_spec a flag : canon a ->
  let r := secp256k1_scalar_cond_negate a flag in
  canon (fst r) /\ val (fst r) = (if flag then (- val a) mod n_order else val a) /\
  snd r = if flag then -1 else 1.
Proof.
  intros [[] Ha]. pose proof (w32_val_range a ltac:(now split)) as R.
  enter secp256k1_scalar_cond_negate. rewrite w32_zero_spec by (now split). nconst.
  wtake mask Em. destruct flag; cbn [negb b2z] in Em.
  - rewrite neg_mod by lia. change (u32 (0 - 1)) with 0xFFFFFFFF in Em. subst mask.
    rewrite !w32_lxor_ones by assumption.
    wtake nonzero En. destruct (Z.eqb_spec (val a) 0) as [E|E]; cbn [b2z negb] in En; vm_compute in En;
      subst nonzero; wlets; cbv beta delta [wp]; cbn [fst snd];
      (split; [split; [split; words; by_bound|]|split; [|reflexivity]]);
      unfold val, n_order, not32 in *; words; unfold Bounded in *; lia.
  - change (u32 (1 - 1)) with 0 in Em. subst mask. rewrite !Z.lxor_0_r, !Z.land_0_r.
    wtake nonzero En. destruct (Z.eqb_spec (val a) 0) as [E|E]; cbn [b2z negb] in En; vm_compute in En;
      subst nonzero; wlets; cbv beta delta [wp]; cbn [fst snd];
      (split; [split; [split; words; by_bound|]|split; [|reflexivity]]);
      unfold val, n_order in *; words; unfold Bounded in *; lia.
Qed.

(** ** Adding a bit *)

(** Eight addends, one per word, carried upwards. *)
Definition add_words (r e : scalar) : scalar :=
  let t := u64 (d0 r + d0 e) in
  let r0 := t .& 0xFFFFFFFF in let t := t >> 32 in
  let t := u64 (t + u64 (d1 r + d1 e)) in
  let r1 := t .& 0xFFFFFFFF in let t := t >> 32 in
  let t := u64 (t + u64 (d2 r + d2 e)) in
  let r2 := t .& 0xFFFFFFFF in let t := t >> 32 in
  let t := u64 (t + u64 (d3 r + d3 e)) in
  let r3 := t .& 0xFFFFFFFF in let t := t >> 32 in
  let t := u64 (t + u64 (d4 r + d4 e)) in
  let r4 := t .& 0xFFFFFFFF in let t := t >> 32 in
  let t := u64 (t + u64 (d5 r + d5 e)) in
  let r5 := t .& 0xFFFFFFFF in let t := t >> 32 in
  let t := u64 (t + u64 (d6 r + d6 e)) in
  let r6 := t .& 0xFFFFFFFF in let t := t >> 32 in
  let t := u64 (t + u64 (d7 r + d7 e)) in
  let r7 := t .& 0xFFFFFFFF in
  Scalar r0 r1 r2 r3 r4 r5 r6 r7.

Lemma w32_add_words_spec a e : limbs a -> limbs e -> val a + val e < 2 ^ 256 ->
  let r := add_words a e in
  limbs r /\ val r = val a + val e.
Proof.
  intros [] [] H. run add_words. split; [split; words; by_bound|].
  unfold val in *. words. unfold Bounded in *. lia.
Qed.

(** The addends of [secp256k1_scalar_cadd_bit]. *)
Definition bit_word (bit k : Z) : Z := u32 (b2z ((bit >> 5) =? k) << (bit .& 0x1F)).

Definition bit_words (bit : Z) : scalar :=
  Scalar (bit_word bit 0) (bit_word bit 1) (bit_word bit 2) (bit_word bit 3)
         (bit_word bit 4) (bit_word bit 5) (bit_word bit 6) (bit_word bit 7).

Lemma w32_bit_word_dig bit k : 0 <= bit < 256 -> 0 <= k < 8 ->
  bit_word bit k = dig 32 (2 ^ bit) k.
Proof.
  intros Hb Hk. unfold bit_word. rewrite and31, shr5.
  apply Z.bits_inj'. intros i Hi. rewrite testbit_dig, Z.pow2_bits_eqb by lia.
  change (u32 ?x) with (x mod 2 ^ 32). rewrite Z.testbit_mod_pow2 by lia.
  destruct (Z.ltb_spec i 32); [cbn [andb]|reflexivity]. rewrite Z.shiftl_spec by lia.
  destruct (Z.eqb_spec (bit / 32) k) as [E|E]; cbn [b2z].
  - change 1 with (2 ^ 0). rewrite Z.pow2_bits_eqb by lia. apply eq_true_iff_eq.
    rewrite !Z.eqb_eq. dlia.
  - rewrite Z.testbit_0_l. symmetry. apply Z.eqb_neq. dlia.
Qed.

Lemma w32_cadd_bit_spec a bit flag : limbs a -> 0 <= bit < 256 ->
  (flag = true -> val a + 2 ^ bit < 2 ^ 256) ->
  let r := secp256k1_scalar_cadd_bit a bit flag in
  limbs r /\ val r = if flag then val a + 2 ^ bit else val a.
Proof.
  intros Ha Hb Hf.
  enough (let b := u32 (bit + (u32 (b2z flag - 1) .& 0x100)) in
    let r := add_words a (bit_words b) in
    limbs r /\ val r = if flag then val a + 2 ^ bit else val a) by assumption.
  cbv zeta. destruct flag; cbn [b2z].
  - change (u32 (1 - 1) .& 0x100) with 0. rewrite Z.add_0_r, u32_id by lia.
    assert (0 < 2 ^ bit < 2 ^ 256).
    { split; [apply Z.pow_pos_nonneg|apply Z.pow_lt_mono_r]; lia. }
    assert (E : bit_words bit = of_Z (2 ^ bit)).
    { unfold bit_words, of_Z. now rewrite !w32_bit_word_dig by lia. }
    rewrite E. pose proof (w32_add_words_spec a (of_Z (2 ^ bit)) Ha (w32_of_Z_limbs _)) as H1.
    rewrite w32_val_of_Z in H1 by lia. apply H1. now apply Hf.
  - change (u32 (0 - 1) .& 0x100) with 256. rewrite u32_id by lia.
    assert (E : forall k, 0 <= k < 8 -> bit_word (bit + 256) k = 0).
    { intros k Hk. unfold bit_word. rewrite shr5.
      destruct (Z.eqb_spec ((bit + 256) / 32) k); [dlia|]. cbn [b2z].
      now rewrite Z.shiftl_0_l. }
    unfold bit_words. rewrite !E by lia.
    destruct (w32_add_words_spec a (Scalar 0 0 0 0 0 0 0 0) Ha) as [L V].
    { split; cbn; unfold Bounded; lia. }
    { pose proof (w32_val_range a Ha). change (val (Scalar 0 0 0 0 0 0 0 0)) with 0. lia. }
    split; [exact L|].
    exact (eq_trans V (Z.add_0_r (val a))).
Qed.

(** ** Shifts *)

Lemma funnel_u32 v k n : 0 < n < 32 -> 0 <= k ->
  u32 ((dig 32 v k >> n) + u32 (dig 32 v (k + 1) << (32 - n))) = dig 32 (v / 2 ^ n) k.
Proof.
  intros Hn Hk. change u32 with (fun x => x mod 2 ^ 32). cbv beta.
  now rewrite funnel_add, Zmod_mod, dig_shift by lia.
Qed.

Lemma shr_int_value v n : 0 <= v < 2 ^ 256 -> 0 < n < 16 ->
  secp256k1_scalar_shr_int (of_Z v) n = (of_Z (v / 2 ^ n), v mod 2 ^ n).
Proof.
  intros Hv Hn. unfold secp256k1_scalar_shr_int, of_Z. words. cbv zeta. f_equal.
  - rewrite (funnel_u32 v 0), (funnel_u32 v 1), (funnel_u32 v 2), (funnel_u32 v 3),
      (funnel_u32 v 4), (funnel_u32 v 5), (funnel_u32 v 6) by lia.
    now rewrite (shr_dig_top 32 8) by lia.
  - rewrite Z.shiftl_mul_pow2, Z.mul_1_l, land_mask by lia.
    unfold dig. rewrite (Z.div_1_r v : v / 2 ^ (32 * 0) = v). apply mod_mod_pow2. lia.
Qed.

Lemma w32_shr_int_spec a n : canon a -> 0 < n < 16 ->
  let r := secp256k1_scalar_shr_int a n in
  limbs (fst r) /\ val (fst r) = val a / 2 ^ n /\ snd r = val a mod 2 ^ n.
Proof.
  intros [Ha _] Hn. pose proof (w32_val_range a Ha) as R.
  cbv zeta. rewrite <- (w32_of_Z_val a Ha) at 1 2 4. rewrite shr_int_value by assumption.
  cbn [fst snd]. split; [apply w32_of_Z_limbs|]. split; [|reflexivity].
  apply w32_val_of_Z. assert (0 < 2 ^ n) by (apply Z.pow_pos_nonneg; lia).
  split; [apply Z.div_pos; lia|apply Z.div_lt_upper_bound; nia].
Qed.

Lemma w32_split_128_spec a : limbs a ->
  let r := secp256k1_scalar_split_128 a in
  limbs (fst r) /\ limbs (snd r) /\
  val (fst r) = val a mod 2 ^ 128 /\ val (snd r) = val a / 2 ^ 128.
Proof.
  intros []. unfold secp256k1_scalar_split_128. cbn [fst snd].
  unfold val, Bounded in *. words.
  split; [split; words; unfold Bounded; lia|].
  split; [split; words; unfold Bounded; lia|]. dlia.
Qed.

(** ** The long products *)

Lemma w32_mul_512_spec a b : limbs a -> limbs b ->
  let l := secp256k1_scalar_mul_512 a b in
  length l = 16%nat /\ words_in 0xFFFFFFFF l /\ words_of 32 l = val a * val b.
Proof.
  intros [] []. enter secp256k1_scalar_mul_512. acc_start 32 32.
  repeat acc_step. last_word. unfold wp. cbv zeta. words_done.
  rewrite <- Ec; clear Ec. acc_sums. unfold val. ring.
Qed.

Lemma w32_sqr_512_spec a : limbs a ->
  let l := secp256k1_scalar_sqr_512 a in
  length l = 16%nat /\ words_in 0xFFFFFFFF l /\ words_of 32 l = val a * val a.
Proof.
  intros []. enter secp256k1_scalar_sqr_512. acc_start 32 32.
  repeat acc_step. last_word. unfold wp. cbv zeta. words_done.
  rewrite <- Ec; clear Ec. acc_sums. unfold val. ring.
Qed.

Lemma w32_reduce_512_spec l : length l = 16%nat -> words_in 0xFFFFFFFF l ->
  let r := secp256k1_scalar_reduce_512 l in
  canon r /\ val r = words_of 32 l mod n_order.
Proof.
  intros Hl Hw.
  destruct l as [|l0 [|l1 [|l2 [|l3 [|l4 [|l5 [|l6 [|l7
    [|l8 [|l9 [|l10 [|l11 [|l12 [|l13 [|l14 [|l15 [|]]]]]]]]]]]]]]]]]; try discriminate.
  repeat match goal with H : words_in _ (_ :: _) |- _ => inversion_clear H end.
  repeat match goal with H : Forall _ (_ :: _) |- _ => inversion_clear H end.
  enter secp256k1_scalar_reduce_512. nconst.
  do 16 (wtake x E; cbn [nth] in E; subst x).
  acc_start 32 32. repeat acc_step. last_word. wlet.
  set (N := words_of 32 [l8; l9; l10; l11; l12; l13; l14; l15]).
  set (L := words_of 32 [l0; l1; l2; l3; l4; l5; l6; l7]).
  set (Mlo := words_of 32 [x; x0; x1; x2; x3; x4; x5; x6]).
  set (Mhi := words_of 32 [x7; x8; x9; x10; m12]).
  assert (E1 : L + N * (2 ^ 256 - n_order) = Mlo + 2 ^ 256 * Mhi).
  { unfold L, N, Mlo, Mhi, words_of, n_order. cbn [fold_right]. rewrite Em12, <- Ec.
    acc_sums. ring. }
  repeat match goal with V : acc_val _ _ = _ |- _ => clear V end.
  acc_start 32 32. repeat acc_step. last_word. wlet.
  set (Plo := words_of 32 [x11; x12; x13; x14; x15; x16; x17; x18]).
  assert (E2 : Mlo + Mhi * (2 ^ 256 - n_order) = Plo + 2 ^ 256 * p8).
  { unfold Mlo, Mhi, Plo, words_of, n_order. cbn [fold_right]. rewrite Ep8, <- Ec.
    acc_sums. ring. }
  clear - E1 E2 R11 R12 R13 R14 R15 R16 R17 R18 R19 Bp8. wlets. wtake r Er.
  assert (Lr : limbs r) by (subst r; split; words; by_bound).
  set (v := val r + 2 ^ 256 * q6).
  assert (E3 : Plo + p8 * (2 ^ 256 - n_order) = v).
  { unfold Plo, v, val, words_of, n_order. subst r. cbn [fold_right]. words. lia. }
  assert (E : words_of 32 [l0; l1; l2; l3; l4; l5; l6; l7; l8; l9; l10; l11; l12; l13; l14; l15]
      = (N + Mhi + p8) * n_order + v).
  { rewrite <- E3. transitivity (L + 2 ^ 256 * N); [|lia].
    unfold L, N, words_of. cbn [fold_right]. ring. }
  assert (Hv : 0 <= v < 2 * n_order).
  { subst v r. unfold val, n_order. words. unfold Bounded in *. lia. }
  destruct (w32_reduce_final r q6 v Lr eq_refl Hv ltac:(apply Hq6)) as (Eo & C & Vr).
  rewrite Eo, u32_b2z. unfold wp. split; [exact C|].
  rewrite Vr, E, Z.add_comm. symmetry. apply Z_mod_plus_full.
Qed.

Lemma w32_mul_spec a b : canon a -> canon b ->
  canon (secp256k1_scalar_mul a b) /\
  val (secp256k1_scalar_mul a b) = (val a * val b) mod n_order.
Proof.
  intros [Ha _] [Hb _]. destruct (w32_mul_512_spec a b Ha Hb) as (L & W & <-).
  now apply w32_reduce_512_spec.
Qed.

Lemma w32_sqr_spec a : canon a ->
  canon (secp256k1_scalar_sqr a) /\
  val (secp256k1_scalar_sqr a) = (val a * val a) mod n_order.
Proof.
  intros [Ha _]. destruct (w32_sqr_512_spec a Ha) as (L & W & <-).
  now apply w32_reduce_512_spec.
Qed.

(** ** The rounded shift of a product *)

Lemma w32_mul_shift_var_spec a b shift : canon a -> canon b -> 256 <= shift <= 512 ->
  canon (secp256k1_scalar_mul_shift_var a b shift) /\
  val (secp256k1_scalar_mul_shift_var a b shift)
    = (val a * val b + 2 ^ (shift - 1)) / 2 ^ shift.
Proof.
  intros [Ha Na] [Hb Nb] Hs.
  pose proof (w32_val_range a Ha) as Ra. pose proof (w32_val_range b Hb) as Rb.
  destruct (w32_mul_512_spec a b Ha Hb) as (Ll & Wl & El).
  set (P := val a * val b) in *.
  assert (RP : 0 <= P < 2 ^ 512) by (unfold P; nia).
  assert (D : forall i, 0 <= i -> at_ (secp256k1_scalar_mul_512 a b) i = dig 32 P i).
  { intros i Hi. rewrite <- El. apply (words_dig 32); [lia|exact Wl|exact Hi]. }
  unfold secp256k1_scalar_mul_shift_var. rewrite !shr5, !and31. cbv zeta.
  pose proof (Z.div_pos shift 32 ltac:(lia) ltac:(lia)).
  rewrite !D by (try apply Z.div_pos; lia).
  match goal with |- context [secp256k1_scalar_cadd_bit ?r 0 ?f] =>
    set (R := r); set (flag := f) end.
  assert (ER : R = of_Z (P / 2 ^ shift)).
  { assert (C : forall j, let b := (shift <? 480 - 32 * j) && negb (shift mod 32 =? 0) in
      if b then shift mod 32 <> 0 else shift mod 32 = 0 \/ 480 <= shift + 32 * j).
    { intros j. cbv zeta. destruct (Z.ltb_spec shift (480 - 32 * j)),
        (Z.eqb_spec (shift mod 32) 0); cbn [andb negb]; lia. }
    unfold R, of_Z. f_equal.
    - exact (shifted_word 32 16 P shift 0 _ eq_refl eq_refl RP ltac:(lia) ltac:(lia) (C 0)).
    - exact (shifted_word 32 16 P shift 1 _ eq_refl eq_refl RP ltac:(lia) ltac:(lia) (C 1)).
    - exact (shifted_word 32 16 P shift 2 _ eq_refl eq_refl RP ltac:(lia) ltac:(lia) (C 2)).
    - exact (shifted_word 32 16 P shift 3 _ eq_refl eq_refl RP ltac:(lia) ltac:(lia) (C 3)).
    - exact (shifted_word 32 16 P shift 4 _ eq_refl eq_refl RP ltac:(lia) ltac:(lia) (C 4)).
    - exact (shifted_word 32 16 P shift 5 _ eq_refl eq_refl RP ltac:(lia) ltac:(lia) (C 5)).
    - exact (shifted_word 32 16 P shift 6 _ eq_refl eq_refl RP ltac:(lia) ltac:(lia) (C 6)).
    - rewrite <- (shifted_word 32 16 P shift 7 false) by lia.
      now rewrite Z.lor_0_r. }
  assert (EF : flag = Z.testbit P (shift - 1)).
  { unfold flag. change 1 with (2 ^ 1 - 1) at 3. rewrite land_mask by lia.
    pose proof (Z.mod_pos_bound (shift - 1) 32 ltac:(lia)).
    rewrite dig_sub by (try (apply Z.div_pos); lia).
    rewrite <- Z_div_mod_eq_full. change (2 ^ 1) with 2.
    rewrite <- Z.bit0_mod, Z.div_pow2_bits by lia. rewrite Z.add_0_l.
    now destruct (Z.testbit P (shift - 1)). }
  assert (RQ : 0 <= P / 2 ^ shift < n_order - 1).
  { split; [apply Z.div_pos; lia|]. apply Z.div_lt_upper_bound; [lia|].
    apply (Z.lt_le_trans _ (2 ^ 256 * (n_order - 1))).
    - unfold P, n_order in *. nia.
    - apply Z.mul_le_mono_nonneg_r; [unfold n_order; lia|]. apply Z.pow_le_mono_r; lia. }
  assert (VR : val R = P / 2 ^ shift).
  { rewrite ER. apply w32_val_of_Z. unfold n_order in *. lia. }
  destruct (w32_cadd_bit_spec R 0 flag) as [L V].
  { rewrite ER. apply w32_of_Z_limbs. } { lia. }
  { intros _. rewrite VR. unfold n_order in *. lia. }
  rewrite round_half, <- EF, <- VR by lia.
  assert (V' : val (secp256k1_scalar_cadd_bit R 0 flag) = val R + b2z flag).
  { rewrite V. destruct flag; cbn [b2z]; lia. }
  split; [|exact V']. split; [exact L|].
  rewrite V', VR. pose proof (Accum.b2z_range flag). lia.
Qed.

(** ** The interface *)

Lemma w32_const_spec a7 a6 a5 a4 a3 a2 a1 a0 :
  Forall (fun d => 0 <= d < 2 ^ 32) [a7; a6; a5; a4; a3; a2; a1; a0] ->
  let r := SECP256K1_SCALAR_CONST a7 a6 a5 a4 a3 a2 a1 a0 in
  limbs r /\ val r = words_val a7 a6 a5 a4 a3 a2 a1 a0.
Proof.
  intros H. repeat match goal with H : Forall _ (_ :: _) |- _ => inversion_clear H end.
  cbv zeta. unfold SECP256K1_SCALAR_CONST, words_val. cbn [fold_left].
  split; [split; words; unfold Bounded; lia|].
  unfold val. words. lia.
Qed.

Lemma w32_small_canon v : 0 <= v < 2 ^ 32 -> canon (Scalar v 0 0 0 0 0 0 0) /\ val (Scalar v 0 0 0 0 0 0 0) = v.
Proof.
  intros H. unfold canon, val, n_order. words.
  split; [split|]; [split; words; unfold Bounded| |]; lia.
Qed.

Lemma set_u64_spec v : 0 <= v < 2 ^ 64 ->
  canon (secp256k1_scalar_set_u64 v) /\ val (secp256k1_scalar_set_u64 v) = v.
Proof.
  intros Hv. unfold secp256k1_scalar_set_u64. rewrite Z.shiftr_div_pow2 by lia.
  change (u32 ?x) with (x mod 2 ^ 32).
  rewrite (Z.mod_small (v / 2 ^ 32)) by dlia.
  unfold canon, val, n_order. words.
  split; [split|]; [split; words; unfold Bounded| |]; dlia.
Qed.

Definition as_bool (r : scalar * Z) : scalar * bool := (fst r, negb (snd r =? 0)).

#[export, refine] Instance scalar_8x32 : ScalarImpl := {
  ScalarSpec.scalar := scalar;
  sval := val;
  sok := canon;
  s_const := SECP256K1_SCALAR_CONST;
  s_clear := secp256k1_scalar_clear;
  s_set_int := secp256k1_scalar_set_int;
  s_set_u64 := secp256k1_scalar_set_u64;
  s_get_bits := secp256k1_scalar_get_bits;
  s_get_bits_var := secp256k1_scalar_get_bits_var;
  s_set_b32 := fun l => as_bool (secp256k1_scalar_set_b32 l);
  s_get_b32 := secp256k1_scalar_get_b32;
  s_add := fun a b => as_bool (secp256k1_scalar_add a b);
  s_cadd_bit := secp256k1_scalar_cadd_bit;
  s_mul := secp256k1_scalar_mul;
  s_sqr := secp256k1_scalar_sqr;
  s_shr_int := secp256k1_scalar_shr_int;
  s_negate := secp256k1_scalar_negate;
  s_cond_negate := secp256k1_scalar_cond_negate;
  s_is_zero := secp256k1_scalar_is_zero;
  s_is_one := secp256k1_scalar_is_one;
  s_is_even := secp256k1_scalar_is_even;
  s_is_high := fun a => negb (secp256k1_scalar_is_high a =? 0);
  s_eq := secp256k1_scalar_eq;
  s_split_128 := secp256k1_scalar_split_128;
  s_mul_shift_var := secp256k1_scalar_mul_shift_var;
  s_get_bits_var_ok := w32_get_bits_var_spec;
  s_mul_ok := w32_mul_spec;
  s_sqr_ok := w32_sqr_spec;
  s_negate_ok := w32_negate_spec;
  s_mul_shift_var_ok := w32_mul_shift_var_spec;
}.
Proof.
  - intros a [L N]. split; [apply w32_val_range, L|exact N].
  - intros a b [La _] [Lb _]. now apply w32_val_inj.
  - intros a7 a6 a5 a4 a3 a2 a1 a0 H Hn.
    destruct (w32_const_spec a7 a6 a5 a4 a3 a2 a1 a0 H) as [L V].
    split; [|exact V]. split; [exact L|]. rewrite V. exact Hn.
  - intros a. apply (w32_small_canon 0). lia.
  - intros v Hv. apply w32_small_canon. lia.
  - intros v Hv. now apply set_u64_spec.
  - intros a off cnt Ha Ho Hc Hs Hd. apply w32_get_bits_spec; try assumption. dlia.
  - intros l Hl Hlen. pose proof (w32_set_b32_spec l Hl Hlen) as (C & V & O).
    unfold as_bool. split; [exact C|]. split; [exact V|]. rewrite O. now destruct (_ <=? _).
  - intros a [L _]. now apply w32_get_b32_spec.
  - intros a b Ha Hb. pose proof (w32_add_spec a b Ha Hb) as (C & V & O).
    unfold as_bool. split; [exact C|]. split; [exact V|]. rewrite O. now destruct (_ <=? _).
  - intros a bit flag [L N] Hb Hf.
    assert (B : n_order < 2 ^ 256) by (unfold n_order; lia).
    destruct (w32_cadd_bit_spec a bit flag L Hb) as [L' V].
    { intros E. specialize (Hf E). lia. }
    split; [|exact V]. split; [exact L'|]. rewrite V. destruct flag; [now apply Hf|exact N].
  - intros a n Ha Hn. pose proof (w32_shr_int_spec a n Ha Hn) as (L & V & O).
    destruct (secp256k1_scalar_shr_int a n) as [r low]. cbn [fst snd] in *.
    split; [|split; [exact V|exact O]]. split; [exact L|]. rewrite V.
    destruct Ha as [La Na]. pose proof (w32_val_range a La).
    apply (Z.le_lt_trans _ (val a)); [|exact Na].
    assert (0 < 2 ^ n) by (apply Z.pow_pos_nonneg; lia).
    apply Z.div_le_upper_bound; nia.
  - intros a flag Ha. pose proof (w32_cond_negate_spec a flag Ha) as (C & V & O).
    destruct (secp256k1_scalar_cond_negate a flag). auto.
  - intros a [L _]. now apply w32_zero_spec.
  - intros a [L _]. now apply w32_one_spec.
  - intros a [L _]. now apply w32_even_spec.
  - intros a [L _]. rewrite w32_is_high_spec by exact L. now destruct (_ <? _).
  - intros a b [La _] [Lb _]. now apply w32_eq_spec.
  - intros a [L N]. pose proof (w32_split_128_spec a L) as (L1 & L2 & V1 & V2).
    destruct (secp256k1_scalar_split_128 a) as [r1 r2]. cbn [fst snd] in *.
    pose proof (w32_val_range a L). unfold canon. rewrite V1, V2. unfold n_order in *.
    split; [split; [exact L1|dlia]|]. split; [split; [exact L2|dlia]|]. auto.
Defined.
