(* ===== verification/Scalar.v ===== *)
(** * scalar_impl.h: inversion and the endomorphism split

    Written against the interface of scalar.h, so that the theorems hold for
    both representations of scalars. *)
From S2P Require Import Prelude Primes ScalarSpec.

Section ScalarOps.
Context {S : ScalarImpl}.

(** ** Definitions *)

(** [for (i = 0; i < n; i++) secp256k1_scalar_sqr(t, t)]. *)
Definition sqr_loop (n : nat) (t : scalar) : scalar := for_loop n (fun _ t => s_sqr t) t.

(** The second half of the chain: the accumulation of the final result. *)
Definition inverse_accumulate (x x2 x3 x4 x6 x8 t : scalar) : scalar :=
  let t := sqr_loop 2 t in
  let t := s_mul t x in
  let t := sqr_loop 4 t in
  let t := s_mul t x3 in
  let t := sqr_loop 2 t in
  let t := s_mul t x in
  let t := sqr_loop 2 t in
  let t := s_mul t x in
  let t := sqr_loop 2 t in
  let t := s_mul t x in
  let t := sqr_loop 4 t in
  let t := s_mul t x3 in
  let t := sqr_loop 3 t in
  let t := s_mul t x2 in
  let t := sqr_loop 4 t in
  let t := s_mul t x3 in
  let t := sqr_loop 5 t in
  let t := s_mul t x3 in
  let t := sqr_loop 4 t in
  let t := s_mul t x2 in
  let t := sqr_loop 2 t in
  let t := s_mul t x in
  let t := sqr_loop 2 t in
  let t := s_mul t x in
  let t := sqr_loop 5 t in
  let t := s_mul t x4 in
  let t := sqr_loop 2 t in
  let t := s_mul t x in
  let t := sqr_loop 3 t in
  let t := s_mul t x in
  let t := sqr_loop 4 t in
  let t := s_mul t x in
  let t := sqr_loop 2 t in
  let t := s_mul t x in
  let t := sqr_loop 10 t in
  let t := s_mul t x3 in
  let t := sqr_loop 4 t in
  let t := s_mul t x3 in
  let t := sqr_loop 9 t in
  let t := s_mul t x8 in
  let t := sqr_loop 2 t in
  let t := s_mul t x in
  let t := sqr_loop 3 t in
  let t := s_mul t x in
  let t := sqr_loop 3 t in
  let t := s_mul t x in
  let t := sqr_loop 5 t in
  let t := s_mul t x4 in
  let t := sqr_loop 2 t in
  let t := s_mul t x in
  let t := sqr_loop 5 t in
  let t := s_mul t x2 in
  let t := sqr_loop 4 t in
  let t := s_mul t x2 in
  let t := sqr_loop 2 t in
  let t := s_mul t x in
  let t := sqr_loop 8 t in
  let t := s_mul t x2 in
  let t := sqr_loop 3 t in
  let t := s_mul t x2 in
  let t := sqr_loop 3 t in
  let t := s_mul t x in
  let t := sqr_loop 6 t in
  let t := s_mul t x in
  let t := sqr_loop 8 t in
  s_mul t x6.

(** The first half computes x^(2^N - 1) for some N. *)
Definition secp256k1_scalar_inverse (x : scalar) : scalar :=
  let x2 := s_sqr x in
  let x2 := s_mul x2 x in
  let x3 := s_sqr x2 in
  let x3 := s_mul x3 x in
  let x4 := s_sqr x3 in
  let x4 := s_mul x4 x in
  let x6 := s_sqr x4 in
  let x6 := s_sqr x6 in
  let x6 := s_mul x6 x2 in
  let x7 := s_sqr x6 in
  let x7 := s_mul x7 x in
  let x8 := s_sqr x7 in
  let x8 := s_mul x8 x in
  let x15 := s_sqr x8 in
  let x15 := sqr_loop 6 x15 in
  let x15 := s_mul x15 x7 in
  let x30 := s_sqr x15 in
  let x30 := sqr_loop 14 x30 in
  let x30 := s_mul x30 x15 in
  let x60 := s_sqr x30 in
  let x60 := sqr_loop 29 x60 in
  let x60 := s_mul x60 x30 in
  let x120 := s_sqr x60 in
  let x120 := sqr_loop 59 x120 in
  let x120 := s_mul x120 x60 in
  let x127 := s_sqr x120 in
  let x127 := sqr_loop 6 x127 in
  let x127 := s_mul x127 x7 in
  inverse_accumulate x x2 x3 x4 x6 x8 x127.

(** USE_SCALAR_INV_BUILTIN. *)
Definition secp256k1_scalar_inverse_var (x : scalar) : scalar := secp256k1_scalar_inverse x.

Definition minus_lambda : scalar := s_const
  0xAC9C52B3 0x3FA3CF1F 0x5AD9E3FD 0x77ED9BA4 0xA880B9FC 0x8EC739C2 0xE0CFC810 0xB51283CF.
Definition minus_b1 : scalar := s_const
  0x00000000 0x00000000 0x00000000 0x00000000 0xE4437ED6 0x010E8828 0x6F547FA9 0x0ABFE4C3.
Definition minus_b2 : scalar := s_const
  0xFFFFFFFF 0xFFFFFFFF 0xFFFFFFFF 0xFFFFFFFE 0x8A280AC5 0x0774346D 0xD765CDA8 0x3DB1562C.
Definition g1 : scalar := s_const
  0x00000000 0x00000000 0x00000000 0x00003086 0xD221A7D4 0x6BCDE86C 0x90E49284 0xEB153DAB.
Definition g2 : scalar := s_const
  0x00000000 0x00000000 0x00000000 0x0000E443 0x7ED6010E 0x88286F54 0x7FA90ABF 0xE4C42212.

(** The pair (r1, r2). *)
Definition secp256k1_scalar_split_lambda (a : scalar) : scalar * scalar :=
  let c1 := s_mul_shift_var a g1 272 in
  let c2 := s_mul_shift_var a g2 272 in
  let c1 := s_mul c1 minus_b1 in
  let c2 := s_mul c2 minus_b2 in
  let '(r2, _) := s_add c1 c2 in
  let r1 := s_mul r2 minus_lambda in
  let '(r1, _) := s_add r1 a in
  (r1, r2).

(** ** The addition chain *)

Section Chain.
Variable A : Z.

(** [x] is [A] to the power [e]. *)
Definition is_spow (x : scalar) (e : Z) : Prop :=
  0 <= e /\ sok x /\ sval x =[n_order]= A ^ e.

Lemma spow_mul x y e f : is_spow x e -> is_spow y f -> is_spow (s_mul x y) (e + f).
Proof.
  intros (He & Hx & Vx) (Hf & Hy & Vy). destruct (s_mul_ok x y Hx Hy) as [M V].
  split; [lia|]. split; [exact M|].
  now rewrite V, cong_mod, Vx, Vy, Z.pow_add_r by lia.
Qed.

Lemma spow_sqr x e : is_spow x e -> is_spow (s_sqr x) (2 * e).
Proof.
  intros (He & Hx & Vx). destruct (s_sqr_ok x Hx) as [M V].
  split; [lia|]. split; [exact M|]. rewrite V, cong_mod, Vx.
  replace (2 * e) with (e + e) by ring. now rewrite Z.pow_add_r by lia.
Qed.

Lemma spow_loop n x e : is_spow x e -> is_spow (sqr_loop n x) (2 ^ Z.of_nat n * e).
Proof.
  intros H. unfold sqr_loop.
  apply (for_loop_inv (fun k y => is_spow y (2 ^ k * e))).
  { now rewrite Z.mul_1_l. }
  intros k y Hk Hy. rewrite Z.pow_add_r by lia.
  replace (2 ^ k * 2 ^ 1 * e) with (2 * (2 ^ k * e)) by ring. now apply spow_sqr.
Qed.
End Chain.

Ltac chain_step :=
  lazymatch goal with
  | |- wp ?P (let x := ?e in @?b x) =>
    let y := fresh x in let H := fresh "E" y in
    apply (wp_let P e b); intros y H; cbv beta;
    let K := fresh "K" in
    lazymatch e with
    | s_sqr ?u => match goal with Hu : is_spow _ u _ |- _ => pose proof (spow_sqr _ _ _ Hu) as K end
    | sqr_loop ?n ?u => match goal with Hu : is_spow _ u _ |- _ => pose proof (spow_loop _ n _ _ Hu) as K end
    | s_mul ?u ?v => match goal with Hu : is_spow _ u _, Hv : is_spow _ v _ |- _ =>
        pose proof (spow_mul _ _ _ _ _ Hu Hv) as K end
    end;
    rewrite <- H in K;
    lazymatch type of K with is_spow ?A ?w ?ex =>
      let ex' := eval vm_compute in ex in change (is_spow A w ex') in K end;
    clear H
  end.

Lemma accumulate_pow A x x2 x3 x4 x6 x8 t :
  is_spow A x 1 -> is_spow A x2 3 -> is_spow A x3 7 -> is_spow A x4 15 ->
  is_spow A x6 63 -> is_spow A x8 255 -> is_spow A t (2 ^ 127 - 1) ->
  let r := inverse_accumulate x x2 x3 x4 x6 x8 t in is_spow A r (n_order - 2).
Proof.
  intros K1 K2 K3 K4 K6 K8 Kt. enter inverse_accumulate.
  repeat chain_step. unfold wp. eapply (spow_mul _ _ _ _ _ ltac:(eassumption) K6).
Qed.

(** [x] to the power [n - 2]. *)
Lemma inverse_pow x : sok x -> is_spow (sval x) (secp256k1_scalar_inverse x) (n_order - 2).
Proof.
  intros Hx. assert (K : is_spow (sval x) x 1).
  { split; [lia|]. split; [exact Hx|]. now rewrite Z.pow_1_r. }
  enough (let r := secp256k1_scalar_inverse x in is_spow (sval x) r (n_order - 2)) by assumption.
  enter secp256k1_scalar_inverse. repeat chain_step.
  unfold wp. now apply accumulate_pow.
Qed.

Lemma prime_n : Z.prime n_order.
Proof. exact prime_order. Qed.

Lemma inverse_spec x : sok x ->
  sok (secp256k1_scalar_inverse x) /\
  (sval x <> 0 -> sval x * sval (secp256k1_scalar_inverse x) =[n_order]= 1) /\
  (sval x = 0 -> sval (secp256k1_scalar_inverse x) = 0).
Proof.
  intros Hx. destruct (inverse_pow x Hx) as (_ & H & V).
  pose proof (sok_range x Hx). split; [exact H|]. split.
  - intros Hn. rewrite V, <- Z.pow_succ_r by (unfold n_order; lia).
    apply cong_iff. apply (ZmodInv.Z.fermat_nz n_order (sval x) prime_n).
    rewrite Z.mod_small; assumption.
  - intros E. apply (cong_small n_order); [|apply sok_range, H|unfold n_order; lia].
    rewrite V, E. apply cong_eq, Z.pow_0_l. reflexivity.
Qed.

(** ** The endomorphism split *)

(** lambda, and the lattice basis (a1, b1), (a2, b2) of the vectors (u, v)
    with u + v lambda = 0 modulo the order. *)
Definition lambda : Z := 0x5363ad4cc05c30e0a5261c028812645a122e22ea20816678df02967c1b23bd72.
Definition a1 : Z := 0x3086d221a7d46bcde86c90e49284eb15.
Definition b1 : Z := - 0xe4437ed6010e88286f547fa90abfe4c3.
Definition a2 : Z := 0x114ca50f7a8e2f3f657c1108d9d44cfd8.
Definition b2 : Z := 0x3086d221a7d46bcde86c90e49284eb15.

Lemma lattice : a1 + b1 * lambda =[n_order]= 0 /\ a2 + b2 * lambda =[n_order]= 0.
Proof. split; apply cong_iff; reflexivity. Qed.

Lemma lambda_cube : lambda * lambda + lambda + 1 =[n_order]= 0.
Proof. apply cong_iff. reflexivity. Qed.

Ltac by_const := apply s_const_ok; [repeat constructor; lia|reflexivity].

Lemma minus_lambda_ok : sok minus_lambda /\ sval minus_lambda = n_order - lambda.
Proof. by_const. Qed.
Lemma minus_b1_ok : sok minus_b1 /\ sval minus_b1 = - b1.
Proof. by_const. Qed.
Lemma minus_b2_ok : sok minus_b2 /\ sval minus_b2 = n_order - b2.
Proof. by_const. Qed.
Lemma g1_ok : sok g1 /\ sval g1 = 0x3086D221A7D46BCDE86C90E49284EB153DAB.
Proof. by_const. Qed.
Lemma g2_ok : sok g2 /\ sval g2 = 0xE4437ED6010E88286F547FA90ABFE4C42212.
Proof. by_const. Qed.

(** The two halves before their reduction modulo the order. *)
Definition split_k2 (k : Z) : Z :=
  let c1 := (k * 0x3086D221A7D46BCDE86C90E49284EB153DAB + 2 ^ 271) / 2 ^ 272 in
  let c2 := (k * 0xE4437ED6010E88286F547FA90ABFE4C42212 + 2 ^ 271) / 2 ^ 272 in
  - (c1 * b1 + c2 * b2).
Definition split_k1 (k : Z) : Z :=
  let c1 := (k * 0x3086D221A7D46BCDE86C90E49284EB153DAB + 2 ^ 271) / 2 ^ 272 in
  let c2 := (k * 0xE4437ED6010E88286F547FA90ABFE4C42212 + 2 ^ 271) / 2 ^ 272 in
  k - (c1 * a1 + c2 * a2).

Lemma split_small k : 0 <= k < n_order ->
  - 2 ^ 128 < split_k1 k < 2 ^ 128 /\ - 2 ^ 128 < split_k2 k < 2 ^ 128.
Proof.
  intros Hk. unfold split_k1, split_k2. cbv zeta.
  set (u := k * 0x3086D221A7D46BCDE86C90E49284EB153DAB + 2 ^ 271).
  set (v := k * 0xE4437ED6010E88286F547FA90ABFE4C42212 + 2 ^ 271).
  pose proof (Z_div_mod_eq_full u (2 ^ 272)). pose proof (Z.mod_pos_bound u (2 ^ 272) eq_refl).
  pose proof (Z_div_mod_eq_full v (2 ^ 272)). pose proof (Z.mod_pos_bound v (2 ^ 272) eq_refl).
  set (c1 := u / 2 ^ 272) in *. set (c2 := v / 2 ^ 272) in *.
  subst u v. unfold a1, a2, b1, b2, n_order in *. clearbody c1 c2. lia.
Qed.

Lemma split_sum k : split_k1 k + split_k2 k * lambda =[n_order]= k.
Proof.
  destruct lattice as [H1 H2]. unfold split_k1, split_k2. cbv zeta.
  set (c1 := _ / 2 ^ 272). set (c2 := (k * 0xE4437ED6010E88286F547FA90ABFE4C42212 + 2 ^ 271) / 2 ^ 272).
  transitivity (k - c1 * (a1 + b1 * lambda) - c2 * (a2 + b2 * lambda)); [apply cong_eq; ring|].
  rewrite H1, H2. apply cong_eq. ring.
Qed.

Lemma split_lambda_spec a : sok a ->
  let r := secp256k1_scalar_split_lambda a in
  sok (fst r) /\ sok (snd r) /\
  sval (fst r) =[n_order]= split_k1 (sval a) /\
  sval (snd r) =[n_order]= split_k2 (sval a).
Proof.
  intros Ha. unfold secp256k1_scalar_split_lambda. cbv zeta.
  destruct minus_lambda_ok as [Kl Vl], minus_b1_ok as [K1 V1], minus_b2_ok as [K2 V2],
    g1_ok as [Kg1 Vg1], g2_ok as [Kg2 Vg2].
  destruct (s_mul_shift_var_ok a g1 272 Ha Kg1 ltac:(lia)) as [M1 W1].
  destruct (s_mul_shift_var_ok a g2 272 Ha Kg2 ltac:(lia)) as [M2 W2].
  destruct (s_mul_ok _ _ M1 K1) as [P1 X1]. destruct (s_mul_ok _ _ M2 K2) as [P2 X2].
  pose proof (s_add_ok _ _ P1 P2) as A. destruct (s_add _ _) as [r2 o2].
  destruct A as (L2 & Y2 & _).
  destruct (s_mul_ok _ _ L2 Kl) as [P3 X3].
  pose proof (s_add_ok _ _ P3 Ha) as A. destruct (s_add _ _) as [r1 o1].
  destruct A as (L1 & Y1 & _). cbn [fst snd].
  rewrite Vg1 in W1. rewrite Vg2 in W2. rewrite V1 in X1. rewrite V2 in X2. rewrite Vl in X3.
  set (c1 := sval (s_mul_shift_var a g1 272)) in *.
  set (c2 := sval (s_mul_shift_var a g2 272)) in *.
  assert (E2 : sval r2 =[n_order]= split_k2 (sval a)).
  { unfold split_k2. cbv zeta. change 271 with (272 - 1). rewrite <- W1, <- W2.
    rewrite Y2, cong_mod, X1, X2, !cong_mod.
    apply (cong_by c2). ring. }
  split; [exact L1|]. split; [exact L2|]. split; [|exact E2].
  rewrite Y1, cong_mod, X3, cong_mod, E2.
  destruct lattice as [H1 H2]. unfold split_k1, split_k2. cbv zeta.
  change 271 with (272 - 1). rewrite <- W1, <- W2.
  transitivity (sval a - (c1 * a1 + c2 * a2) + c1 * (a1 + b1 * lambda) + c2 * (a2 + b2 * lambda)).
  - apply (cong_by (- (c1 * b1 + c2 * b2))). ring.
  - rewrite H1, H2. apply cong_eq. ring.
Qed.
End ScalarOps.
