(* ===== verification/CurveSpec.v ===== *)
(** * The curve y^2 = x^3 + 7 over the integers modulo p

    The affine group operation the Jacobian formulas of group_impl.h are
    compared with: points with canonical coordinates, negation and addition by
    the chord and tangent rule. *)
From S2P Require Import Prelude Primes FieldSpec Field.

(** ** Inverses modulo p *)

(** Square and multiply. *)
Fixpoint pow_mod (m a : Z) (e : positive) : Z :=
  match e with
  | xH => a mod m
  | xO e => let r := pow_mod m a e in r * r mod m
  | xI e => let r := pow_mod m a e in r * r mod m * a mod m
  end.

Lemma pow_mod_spec m a e : pow_mod m a e =[m]= a ^ Zpos e.
Proof.
  induction e as [e IH|e IH|]; cbn [pow_mod].
  - rewrite !cong_mod, IH. apply cong_eq.
    replace (Zpos e~1) with (Zpos e + Zpos e + 1) by lia.
    rewrite !Z.pow_add_r by lia. ring.
  - rewrite cong_mod, IH. apply cong_eq.
    replace (Zpos e~0) with (Zpos e + Zpos e) by lia. now rewrite Z.pow_add_r by lia.
  - rewrite cong_mod. apply cong_eq. ring.
Qed.

Definition fp_inv (a : Z) : Z := pow_mod p a (Z.to_pos (p - 2)).

Arguments fp_inv : simpl never.

Lemma fp_inv_ok a : a mod p <> 0 -> a * fp_inv a =[p]= 1.
Proof. intros H. unfold fp_inv. rewrite pow_mod_spec. exact (inverse_p a H). Qed.

Lemma fp_div_ok a d : d mod p <> 0 -> a * fp_inv d * d =[p]= a.
Proof.
  intros H. pose proof (fp_inv_ok d H) as E. revert E. generalize (fp_inv d). intros i E.
  transitivity (a * (d * i)); [apply cong_eq; ring|]. rewrite E. apply cong_eq. ring.
Qed.

(** ** Points *)

Inductive point := Inf | Aff (x y : Z).

Definition in_fp (a : Z) : Prop := 0 <= a < p.

Definition on_curve (P : point) : Prop :=
  match P with
  | Inf => True
  | Aff x y => in_fp x /\ in_fp y /\ y * y =[p]= x * x * x + 7
  end.

Definition pneg (P : point) : point :=
  match P with Inf => Inf | Aff x y => Aff x (- y mod p) end.

(** The third point of the line of slope [l] through (x1, y1) and a point of
    abscissa x2, mirrored. *)
Definition chord (l x1 y1 x2 : Z) : point :=
  let x3 := (l * l - x1 - x2) mod p in
  Aff x3 ((l * (x1 - x3) - y1) mod p).

Definition padd (P Q : point) : point :=
  match P, Q with
  | Inf, _ => Q
  | _, Inf => P
  | Aff x1 y1, Aff x2 y2 =>
    if x1 =? x2 then
      if (y1 + y2) mod p =? 0 then Inf
      else chord (3 * x1 * x1 * fp_inv (2 * y1)) x1 y1 x1
    else chord ((y2 - y1) * fp_inv (x2 - x1)) x1 y1 x2
  end.

(** ** Arithmetic facts *)

Lemma in_fp_eq a b : in_fp a -> in_fp b -> a =[p]= b -> a = b.
Proof. intros Ha Hb H. exact (cong_small p a b H Ha Hb). Qed.

Lemma in_fp_mod a : in_fp (a mod p).
Proof. apply Z.mod_pos_bound. reflexivity. Qed.

Lemma sub_nonzero a b : in_fp a -> in_fp b -> a <> b -> (b - a) mod p <> 0.
Proof.
  intros Ha Hb Hn H. apply Hn, in_fp_eq; try assumption.
  apply cong_0 in H. destruct H as [k H]. exists (- k). lia.
Qed.

Lemma cancel_l c a b : c mod p <> 0 -> c * a =[p]= c * b -> a =[p]= b.
Proof.
  intros Hc H. assert (c * (a - b) =[p]= 0).
  { replace (c * (a - b)) with (c * a - c * b) by ring. rewrite H. apply cong_eq. ring. }
  destruct (mul_zero _ _ H0) as [E|E].
  - now apply cong_0 in E.
  - destruct E as [k E]. exists k. lia.
Qed.

Lemma nonzero_factors a b c : c =[p]= a * b -> c mod p <> 0 -> a mod p <> 0 /\ b mod p <> 0.
Proof.
  intros E H. split; intros H0; apply H, cong_0; apply cong_0 in H0; rewrite E, H0;
    apply cong_eq; ring.
Qed.

Lemma two_nonzero a : a mod p <> 0 -> (2 * a) mod p <> 0.
Proof. intros H. apply mul_nonzero; [now vm_compute|exact H]. Qed.

(** -7 is not a cube: a point of the curve has y <> 0. *)
Lemma y_nonzero x y : on_curve (Aff x y) -> y mod p <> 0.
Proof.
  intros (Hx & Hy & E) H. apply cong_0 in H.
  assert (C : x * x * x =[p]= p - 7).
  { rewrite H, Z.mul_0_l in E. destruct E as [k E]. exists (- k - 1). lia. }
  assert (Hn : x mod p <> 0).
  { intros H0. apply cong_0 in H0. rewrite H0 in C. apply cong_iff in C.
    vm_compute in C. discriminate C. }
  apply minus7_not_cube. rewrite <- (Z.mod_small 1 p) by (split; reflexivity || discriminate).
  apply cong_iff. transitivity (x ^ (p - 1)); [|exact (fermat_p x Hn)].
  change ((p - 7) ^ ((p - 1) / 3) =[p]= x ^ (p - 1)). rewrite <- C. apply cong_eq.
  replace (x * x * x) with (x ^ 3) by ring.
  rewrite <- Z.pow_mul_r by (vm_compute; discriminate).
  f_equal.
Qed.

(** ** The chord and tangent rule *)

(** The curve polynomial minus the square of a line vanishes at the third
    point when it vanishes at the first two. *)
Lemma chord_on l x1 y1 x2 :
  y1 * y1 =[p]= x1 * x1 * x1 + 7 ->
  ((x2 - x1) mod p <> 0 /\
     (l * (x2 - x1) + y1) * (l * (x2 - x1) + y1) =[p]= x2 * x2 * x2 + 7
   \/ x2 = x1 /\ l * (2 * y1) =[p]= 3 * x1 * x1) ->
  on_curve (chord l x1 y1 x2).
Proof.
  intros E1 H. unfold chord. split; [apply in_fp_mod|]. split; [apply in_fp_mod|].
  rewrite !cong_mod. set (x3 := l * l - x1 - x2).
  set (f := fun x => x * x * x + 7 - (l * (x - x1) + y1) * (l * (x - x1) + y1)).
  enough (f x3 =[p]= 0) as F.
  { destruct F as [k F]. exists (- k). unfold f in F. lia. }
  assert (F1 : f x1 =[p]= 0).
  { unfold f. replace (l * (x1 - x1) + y1) with y1 by ring. rewrite E1. apply cong_eq. ring. }
  destruct H as [[Hn E2]|[-> T]].
  - apply (cancel_l (x2 - x1)); [exact Hn|].
    assert (F2 : f x2 =[p]= 0) by (unfold f; rewrite E2; apply cong_eq; ring).
    transitivity (f x2 * (x3 - x1) - f x1 * (x3 - x2)).
    + apply cong_eq. unfold f, x3. ring.
    + rewrite F1, F2. apply cong_eq. ring.
  - transitivity ((3 * x1 * x1 - l * (2 * y1)) * (x3 - x1) + f x1).
    + apply cong_eq. unfold f, x3. ring.
    + rewrite F1, T. apply cong_eq. ring.
Qed.

Lemma padd_chord x1 y1 x2 y2 : on_curve (Aff x1 y1) -> on_curve (Aff x2 y2) -> x1 <> x2 ->
  exists l, l * (x2 - x1) =[p]= y2 - y1 /\
    padd (Aff x1 y1) (Aff x2 y2) = chord l x1 y1 x2 /\ on_curve (chord l x1 y1 x2).
Proof.
  intros (Hx1 & Hy1 & E1) (Hx2 & Hy2 & E2) Hn.
  pose proof (sub_nonzero x1 x2 Hx1 Hx2 Hn) as Hd.
  exists ((y2 - y1) * fp_inv (x2 - x1)).
  pose proof (fp_div_ok (y2 - y1) (x2 - x1) Hd) as L.
  split; [exact L|]. split.
  - cbn [padd]. destruct (Z.eqb_spec x1 x2); [contradiction|reflexivity].
  - apply chord_on; [exact E1|]. left. split; [exact Hd|]. rewrite L.
    replace (y2 - y1 + y1) with y2 by ring. exact E2.
Qed.

Lemma padd_tangent x y : on_curve (Aff x y) ->
  exists l, l * (2 * y) =[p]= 3 * x * x /\
    padd (Aff x y) (Aff x y) = chord l x y x /\ on_curve (chord l x y x).
Proof.
  intros H. pose proof (two_nonzero y (y_nonzero x y H)) as Hy. destruct H as (Hx & Hy' & E).
  exists (3 * x * x * fp_inv (2 * y)).
  pose proof (fp_div_ok (3 * x * x) (2 * y) Hy) as L.
  split; [exact L|]. split.
  - cbn [padd]. rewrite Z.eqb_refl. replace (y + y) with (2 * y) by ring.
    destruct (Z.eqb_spec ((2 * y) mod p) 0); [contradiction|reflexivity].
  - apply chord_on; [exact E|]. now right.
Qed.

Lemma padd_opposite x y1 y2 : (y1 + y2) mod p = 0 -> padd (Aff x y1) (Aff x y2) = Inf.
Proof. intros H. cbn [padd]. now rewrite Z.eqb_refl, H. Qed.

(** Two points of the curve with one abscissa are equal or opposite. *)
Lemma same_x x y1 y2 : on_curve (Aff x y1) -> on_curve (Aff x y2) ->
  y1 = y2 \/ (y1 + y2) mod p = 0.
Proof.
  intros (_ & H1 & E1) (_ & H2 & E2).
  assert (F : (y1 - y2) * (y1 + y2) =[p]= 0).
  { replace ((y1 - y2) * (y1 + y2)) with (y1 * y1 - y2 * y2) by ring.
    rewrite E1, E2. apply cong_eq. ring. }
  destruct (mul_zero _ _ F) as [H|H]; [left|right; now apply cong_0].
  apply in_fp_eq; try assumption. destruct H as [k H]. exists k. lia.
Qed.

Theorem padd_on_curve P Q : on_curve P -> on_curve Q -> on_curve (padd P Q).
Proof.
  destruct P as [|x1 y1]; [intros _ H; exact H|].
  destruct Q as [|x2 y2]; [intros H _; exact H|]. intros HP HQ.
  destruct (Z.eq_dec x1 x2) as [->|Hn].
  - destruct (same_x x2 y1 y2 HP HQ) as [->|H].
    + destruct (padd_tangent x2 y2 HP) as (l & _ & -> & H). exact H.
    + rewrite padd_opposite by exact H. exact I.
  - destruct (padd_chord x1 y1 x2 y2 HP HQ Hn) as (l & _ & -> & H). exact H.
Qed.

Lemma pneg_on_curve P : on_curve P -> on_curve (pneg P).
Proof.
  destruct P as [|x y]; [trivial|]. intros (Hx & Hy & E). cbn.
  split; [exact Hx|]. split; [apply in_fp_mod|]. rewrite cong_mod, <- E. apply cong_eq. ring.
Qed.

Lemma padd_neg P : padd P (pneg P) = Inf.
Proof.
  destruct P as [|x y]; [reflexivity|]. apply padd_opposite. apply cong_0.
  rewrite cong_mod. apply cong_eq. ring.
Qed.

(** The slope both for distinct points and for a double:
    (x1^2 + x1 x2 + x2^2) / (y1 + y2), when that makes sense. *)
Lemma padd_slope x1 y1 x2 y2 : on_curve (Aff x1 y1) -> on_curve (Aff x2 y2) ->
  (padd (Aff x1 y1) (Aff x2 y2) = Inf /\ x1 = x2 /\ y1 + y2 =[p]= 0) \/
  exists l, padd (Aff x1 y1) (Aff x2 y2) = chord l x1 y1 x2 /\ on_curve (chord l x1 y1 x2) /\
    l * (x2 - x1) =[p]= y2 - y1 /\
    l * (y1 + y2) =[p]= x1 * x1 + x1 * x2 + x2 * x2 /\
    (y1 + y2 =[p]= 0 -> (x1 - x2) mod p <> 0).
Proof.
  intros H1 H2. destruct (Z.eq_dec x1 x2) as [->|Hx].
  - destruct (same_x x2 y1 y2 H1 H2) as [->|E].
    + right. destruct (padd_tangent x2 y2 H1) as (l & L & E & Hc). exists l.
      split; [exact E|]. split; [exact Hc|]. split; [apply cong_eq; ring|].
      replace (y2 + y2) with (2 * y2) by ring. split; [rewrite L; apply cong_eq; ring|].
      intros C. apply cong_0 in C. destruct (two_nonzero y2 (y_nonzero x2 y2 H1) C).
    + left. split; [now apply padd_opposite|]. split; [reflexivity|now apply cong_0].
  - right. destruct (padd_chord x1 y1 x2 y2 H1 H2 Hx) as (l & L & E & Hc). exists l.
    split; [exact E|]. split; [exact Hc|]. split; [exact L|].
    destruct H1 as (F1 & _ & E1), H2 as (F2 & _ & E2). split.
    + apply (cancel_l (x2 - x1)); [now apply sub_nonzero|].
      transitivity (l * (x2 - x1) * (y1 + y2)); [apply cong_eq; ring|]. rewrite L.
      transitivity (y2 * y2 - y1 * y1); [apply cong_eq; ring|]. rewrite E1, E2.
      apply cong_eq. ring.
    + intros _. apply sub_nonzero; congruence.
Qed.

(** What the branch-free addition computes from the scaled coordinates: a
    numerator [R] and a denominator [M] of the slope. *)
Lemma unified_cases x1 y1 x2 y2 Z m rr R M (deg : bool) :
  on_curve (Aff x1 y1) -> on_curve (Aff x2 y2) -> Z mod p <> 0 ->
  m =[p]= (y1 + y2) * (Z * Z * Z) ->
  rr =[p]= (x1 * x1 + x1 * x2 + x2 * x2) * (Z * Z * Z * Z) ->
  deg = (m mod p =? 0) && (rr mod p =? 0) ->
  R =[p]= (if deg then 2 * y1 * (Z * Z * Z) else rr) ->
  M =[p]= (if deg then (x1 - x2) * (Z * Z) else m) ->
  if M mod p =? 0 then padd (Aff x1 y1) (Aff x2 y2) = Inf
  else exists l, padd (Aff x1 y1) (Aff x2 y2) = chord l x1 y1 x2 /\
    on_curve (chord l x1 y1 x2) /\ l * (x2 - x1) =[p]= y2 - y1 /\ R =[p]= l * (M * Z).
Proof.
  intros H1 H2 HZ Hm Hr Hd HR HM.
  assert (HZ2 : (Z * Z) mod p <> 0) by now apply mul_nonzero.
  assert (HZ3 : (Z * Z * Z) mod p <> 0) by now apply mul_nonzero.
  destruct (padd_slope x1 y1 x2 y2 H1 H2) as [(E & -> & Y)|(l & E & Hc & L & S & N)].
  - replace (M mod p =? 0) with true; [exact E|]. symmetry. apply Z.eqb_eq, cong_0.
    rewrite HM. destruct deg; [apply cong_eq; ring|]. rewrite Hm, Y. apply cong_eq. ring.
  - assert (HM0 : M mod p <> 0 /\ R =[p]= l * (M * Z)).
    { destruct deg; symmetry in Hd.
      - apply andb_true_iff in Hd. rewrite !Z.eqb_eq, !cong_0 in Hd. destruct Hd as [Hm0 _].
        assert (Y : y1 + y2 =[p]= 0).
        { rewrite Hm, Z.mul_comm in Hm0. apply (cancel_l _ _ _ HZ3). rewrite Hm0.
          apply cong_eq. ring. }
        split; [rewrite cong_0, HM, <- cong_0; exact (mul_nonzero _ _ (N Y) HZ2)|].
        rewrite HR, HM. transitivity (- (l * (x2 - x1)) * (Z * Z * Z)); [|apply cong_eq; ring].
        rewrite L. replace y2 with (y1 + y2 - y1) by ring. rewrite Y. apply cong_eq. ring.
      - assert (Hm0 : m mod p <> 0).
        { intros C. rewrite C in Hd. apply Z.eqb_neq in Hd. apply Hd, cong_0.
          apply cong_0 in C. rewrite Hm, Z.mul_comm in C.
          assert (Y : y1 + y2 =[p]= 0) by (apply (cancel_l _ _ _ HZ3); rewrite C; apply cong_eq; ring).
          rewrite Hr, <- S, Y. apply cong_eq. ring. }
        split; [apply cong_iff in HM; now rewrite HM|].
        rewrite HR, HM, Hr, Hm, <- S. apply cong_eq. ring. }
    destruct HM0 as [HM0 HR0]. destruct (Z.eqb_spec (M mod p) 0) as [C|_]; [contradiction|].
    exists l. exact (conj E (conj Hc (conj L HR0))).
Qed.

(** ** The endomorphism and the generator *)

Definition beta_val : Z :=
  words_val 0x7ae96a2b 0x657c0710 0x6e64479e 0xac3434e9 0x9cf04975 0x12f58995 0xc1396c28 0x719501ee.

(** (x, y) |-> (beta x, y), with beta a cube root of one, maps the curve to itself. *)
Definition pendo (P : point) : point :=
  match P with Inf => Inf | Aff x y => Aff (x * beta_val mod p) y end.

Lemma beta_cube : beta_val * beta_val * beta_val =[p]= 1.
Proof. apply cong_iff. vm_compute. reflexivity. Qed.

Lemma pendo_on_curve P : on_curve P -> on_curve (pendo P).
Proof.
  destruct P as [|x y]; [trivial|]. intros (Hx & Hy & E).
  split; [apply in_fp_mod|]. split; [exact Hy|].
  rewrite !(cong_mod p (x * beta_val)), E.
  transitivity (x * x * x * (beta_val * beta_val * beta_val) + 7).
  - rewrite beta_cube. apply cong_eq. ring.
  - apply cong_eq. ring.
Qed.

(** The generator. *)
Definition G_point : point := Aff
  (words_val 0x79BE667E 0xF9DCBBAC 0x55A06295 0xCE870B07 0x029BFCDB 0x2DCE28D9 0x59F2815B 0x16F81798)
  (words_val 0x483ADA77 0x26A3C465 0x5DA4FBFC 0x0E1108A8 0xFD17B448 0xA6855419 0x9C47D08F 0xFB10D4B8).

Lemma on_curve_check x y : (0 <=? x) && (x <? p) && (0 <=? y) && (y <? p) &&
  ((y * y) mod p =? (x * x * x + 7) mod p) = true -> on_curve (Aff x y).
Proof.
  rewrite !andb_true_iff, !Z.leb_le, !Z.ltb_lt, Z.eqb_eq. intros [[[[? ?] ?] ?] E].
  split; [now split|]. split; [now split|now apply cong_iff].
Qed.

Lemma G_on_curve : on_curve G_point.
Proof. apply on_curve_check. vm_compute. reflexivity. Qed.
