(* ===== verification/CurveGroup.v ===== *)
(** * The points of the curve form an abelian group

    Associativity of chord-and-tangent addition, by the classical argument on
    functions with prescribed zeros: of two parenthesisations of a sum of three
    points, each comes with a function x^2 + b x + c + a y on the curve that
    vanishes at the three points and at the opposite of the sum; two such
    functions that agree at the three points are equal. *)
From S2P Require Import Prelude Primes FieldSpec Field CurveSpec.
From Stdlib Require Import Ncring Cring Integral_domain NsatzTactic.
#[local] Open Scope Z_scope.

(** ** Polynomial reasoning modulo p *)

#[export] Instance cong_ops : @Ring_ops Z 0 1 Z.add Z.mul Z.sub Z.opp (cong p) := {}.

#[export] Instance cong_ring : Ring (Ro := cong_ops).
Proof.
  constructor;
    cbv [zero one addition multiplication subtraction opposite equality zero_notation
         one_notation add_notation mul_notation sub_notation opp_notation eq_notation];
    try exact _; intros; try (apply cong_eq; ring).
Qed.

#[export] Instance cong_cring : Cring (Rr := cong_ring).
Proof. intros x y. apply cong_eq. apply Z.mul_comm. Qed.

#[export] Instance cong_domain : Integral_domain (Rcr := cong_cring).
Proof.
  split.
  - intros x y H. apply mul_zero. exact H.
  - intros H. apply cong_iff in H. vm_compute in H. discriminate H.
Qed.

(** Constants are non-zero modulo p. *)
Ltac nsatz_internal_discrR ::=
  let E := fresh "E" in intro E; apply cong_iff in E; vm_compute in E; discriminate E.

(** ** Collinear points *)

Definition curve_eq (x y : Z) : Prop := y * y =[p]= x * x * x + 7.

(** The line y = l x + c meets the curve in the three points, counted with
    multiplicity. *)
Record col (l c x1 y1 x2 y2 x3 y3 : Z) : Prop := {
  col_e1 : x1 + x2 + x3 =[p]= l * l;
  col_e2 : x1 * x2 + x1 * x3 + x2 * x3 =[p]= - (2 * l * c);
  col_e3 : x1 * x2 * x3 =[p]= c * c - 7;
  col_y1 : y1 =[p]= l * x1 + c;
  col_y2 : y2 =[p]= l * x2 + c;
  col_y3 : y3 =[p]= l * x3 + c
}.

Lemma col_swap l c x1 y1 x2 y2 x3 y3 :
  col l c x1 y1 x2 y2 x3 y3 -> col l c x2 y2 x1 y1 x3 y3.
Proof. intros [H1 H2 H3 H4 H5 H6]. constructor; (assumption || nsatz). Qed.

Lemma col_rot l c x1 y1 x2 y2 x3 y3 :
  col l c x1 y1 x2 y2 x3 y3 -> col l c x2 y2 x3 y3 x1 y1.
Proof. intros [H1 H2 H3 H4 H5 H6]. constructor; (assumption || nsatz). Qed.

Lemma col_neg l c x1 y1 x2 y2 x3 y3 z1 z2 z3 :
  col l c x1 y1 x2 y2 x3 y3 -> z1 =[p]= - y1 -> z2 =[p]= - y2 -> z3 =[p]= - y3 ->
  col (- l) (- c) x1 z1 x2 z2 x3 z3.
Proof. intros [H1 H2 H3 H4 H5 H6] Z1 Z2 Z3. constructor; (assumption || nsatz). Qed.

(** The tangent at a double point. *)
Lemma col_tangent l c x y x3 y3 : col l c x y x y x3 y3 -> l * (2 * y) =[p]= 3 * x * x.
Proof. intros [H1 H2 H3 H4 H5 H6]. nsatz. Qed.

(** A point of the curve on the line is one of the three. *)
Lemma col_on l c x1 y1 x2 y2 x3 y3 x y : col l c x1 y1 x2 y2 x3 y3 -> curve_eq x y ->
  y =[p]= l * x + c -> (x - x1) * ((x - x2) * (x - x3)) =[p]= 0.
Proof. intros [H1 H2 H3 H4 H5 H6] E Y. unfold curve_eq in E. nsatz. Qed.

Lemma col_of_slope l x1 y1 x2 y2 x3 : curve_eq x1 y1 -> curve_eq x2 y2 ->
  l * (x2 - x1) =[p]= y2 - y1 -> l * (y1 + y2) =[p]= x1 * x1 + x1 * x2 + x2 * x2 ->
  x3 =[p]= l * l - x1 - x2 ->
  col l (y1 - l * x1) x1 y1 x2 y2 x3 (l * x3 + (y1 - l * x1)).
Proof. unfold curve_eq. intros E1 E2 L S H3. constructor; nsatz. Qed.

(** ** Addition and collinearity *)

Definition Col (l c : Z) (P Q R : point) : Prop :=
  match P, Q, R with
  | Aff x1 y1, Aff x2 y2, Aff x3 y3 => col l c x1 y1 x2 y2 x3 y3
  | _, _, _ => False
  end.

Lemma Col_swap l c P Q R : Col l c P Q R -> Col l c Q P R.
Proof. destruct P, Q, R; try contradiction. apply col_swap. Qed.

Lemma Col_rot l c P Q R : Col l c P Q R -> Col l c Q R P.
Proof. destruct P, Q, R; try contradiction. apply col_rot. Qed.

Lemma Col_neg l c P Q R : Col l c P Q R -> Col (- l) (- c) (pneg P) (pneg Q) (pneg R).
Proof.
  destruct P, Q, R; try contradiction. intros H. cbn [pneg Col].
  apply (col_neg _ _ _ _ _ _ _ _ _ _ _ H); apply cong_mod.
Qed.

Lemma pneg_pneg P : on_curve P -> pneg (pneg P) = P.
Proof.
  destruct P as [|x y]; [reflexivity|]. intros (_ & Hy & _). cbn [pneg]. f_equal.
  apply in_fp_eq; [apply in_fp_mod|exact Hy|]. rewrite !cong_mod. apply cong_eq. ring.
Qed.

Lemma pneg_inj P Q : on_curve P -> on_curve Q -> pneg P = pneg Q -> P = Q.
Proof. intros HP HQ E. rewrite <- (pneg_pneg P HP), <- (pneg_pneg Q HQ). now rewrite E. Qed.

(** Two finite points whose sum is finite lie on a line with the opposite of
    their sum. *)
Lemma padd_col P Q : on_curve P -> on_curve Q -> P <> Inf -> Q <> Inf -> padd P Q <> Inf ->
  exists l c, Col l c P Q (pneg (padd P Q)).
Proof.
  destruct P as [|x1 y1]; [congruence|]. destruct Q as [|x2 y2]; [congruence|].
  intros H1 H2 _ _ Hn.
  destruct (padd_slope x1 y1 x2 y2 H1 H2) as [(E & _)|(l & E & _ & L & S & _)]; [contradiction|].
  rewrite E. unfold chord. cbn [pneg Col]. exists l, (y1 - l * x1).
  set (x3 := (l * l - x1 - x2) mod p).
  destruct (col_of_slope l x1 y1 x2 y2 x3) as [C1 C2 C3 C4 C5 C6];
    try (exact L || exact S || apply H1 || apply H2); [apply cong_mod|].
  constructor; try assumption. rewrite !cong_mod. apply cong_eq. ring.
Qed.

Lemma chord_eq l x1 y1 x2 x3 y3 : in_fp x3 -> x3 =[p]= l * l - x1 - x2 ->
  y3 =[p]= l * (x3 - x1) + y1 -> chord l x1 y1 x2 = pneg (Aff x3 y3).
Proof.
  intros Hx E Y. unfold chord. cbn [pneg].
  rewrite <- (in_fp_eq x3 ((l * l - x1 - x2) mod p)); [|exact Hx|apply in_fp_mod|].
  - f_equal. apply cong_iff. rewrite Y. apply cong_eq. ring.
  - rewrite E. symmetry. apply cong_mod.
Qed.

(** Conversely three collinear points add up to zero. *)
Lemma col_padd l c P Q R : on_curve P -> on_curve Q -> on_curve R -> Col l c P Q R ->
  padd P Q = pneg R.
Proof.
  destruct P as [|x1 y1], Q as [|x2 y2], R as [|x3 y3]; try contradiction. cbn [Col].
  intros H1 H2 H3 C. pose proof (proj1 H3) as F3.
  assert (HL : exists l', padd (Aff x1 y1) (Aff x2 y2) = chord l' x1 y1 x2 /\ l' =[p]= l).
  { destruct (Z.eq_dec x1 x2) as [->|Hn].
    - assert (y1 = y2) as ->.
      { apply in_fp_eq; [apply H1|apply H2|]. rewrite (col_y1 _ _ _ _ _ _ _ _ C).
        symmetry. apply C. }
      destruct (padd_tangent x2 y2 H1) as (l' & T & -> & _). exists l'. split; [reflexivity|].
      pose proof (two_nonzero y2 (y_nonzero x2 y2 H1)) as Hy.
      apply (cancel_l (2 * y2)); [exact Hy|]. rewrite !(Z.mul_comm (2 * y2)), T.
      symmetry. exact (col_tangent _ _ _ _ _ _ C).
    - destruct (padd_chord x1 y1 x2 y2 H1 H2 Hn) as (l' & L & -> & _). exists l'.
      split; [reflexivity|]. apply (cancel_l (x2 - x1)).
      + apply sub_nonzero; [apply H1|apply H2|exact Hn].
      + rewrite !(Z.mul_comm (x2 - x1)), L. destruct C. nsatz. }
  destruct HL as (l' & -> & E). destruct C. apply chord_eq; [exact F3|nsatz|nsatz].
Qed.

Lemma padd_comm P Q : on_curve P -> on_curve Q -> padd P Q = padd Q P.
Proof.
  intros HP HQ. destruct P as [|x1 y1]; [now destruct Q|]. destruct Q as [|x2 y2]; [reflexivity|].
  destruct (padd_slope x1 y1 x2 y2 HP HQ) as [(E & -> & Y)|(l & E & Hc & _)].
  - rewrite E. symmetry. apply padd_opposite, cong_0. rewrite Z.add_comm. exact Y.
  - destruct (padd_col (Aff x1 y1) (Aff x2 y2)) as (l' & c & C); try (assumption || discriminate).
    { rewrite E. discriminate. }
    symmetry. rewrite (col_padd l' c _ _ (pneg (padd (Aff x1 y1) (Aff x2 y2)))); try assumption.
    + apply pneg_pneg. now apply padd_on_curve.
    + apply pneg_on_curve. now apply padd_on_curve.
    + now apply Col_swap.
Qed.

Lemma padd_inf_iff P Q : on_curve P -> on_curve Q -> padd P Q = Inf -> Q = pneg P.
Proof.
  intros HP HQ E. destruct P as [|x1 y1]; [exact E|]. destruct Q as [|x2 y2]; [discriminate E|].
  destruct (padd_slope x1 y1 x2 y2 HP HQ) as [(_ & <- & Y)|(l & E' & _)];
    [|rewrite E' in E; discriminate E].
  cbn [pneg]. f_equal. apply in_fp_eq; [apply HQ|apply in_fp_mod|]. rewrite cong_mod. nsatz.
Qed.

Lemma pneg_inf P : pneg P = Inf -> P = Inf.
Proof. now destruct P. Qed.

Create HintDb curve discriminated.
#[export] Hint Resolve padd_on_curve pneg_on_curve : curve.

Lemma padd_Inf_r P : padd P Inf = P.
Proof. now destruct P. Qed.

Lemma padd_neg_l P : on_curve P -> padd (pneg P) P = Inf.
Proof. intros H. rewrite padd_comm by auto with curve. apply padd_neg. Qed.

Lemma pneg_padd P Q : on_curve P -> on_curve Q -> pneg (padd P Q) = padd (pneg P) (pneg Q).
Proof.
  intros HP HQ. destruct P as [|x1 y1]; [reflexivity|]. destruct Q as [|x2 y2]; [reflexivity|].
  set (P := Aff x1 y1) in *. set (Q := Aff x2 y2) in *.
  destruct (padd P Q) as [|x y] eqn:E.
  - apply padd_inf_iff in E; try assumption. rewrite E. cbn [pneg].
    rewrite pneg_pneg by assumption. symmetry. now apply padd_neg_l.
  - destruct (padd_col P Q) as (l & c & C); try (assumption || discriminate || congruence).
    apply Col_neg in C. rewrite (pneg_pneg (padd P Q)) in C by auto with curve.
    symmetry. rewrite E in *. apply (col_padd _ _ _ _ _ ) in C; auto with curve.
    rewrite <- E. auto with curve.
Qed.

Lemma padd_cancel P Q : on_curve P -> on_curve Q -> padd (padd P Q) (pneg Q) = P.
Proof.
  intros HP HQ. destruct P as [|x1 y1]; [apply padd_neg|].
  destruct Q as [|x2 y2]; [reflexivity|].
  set (P := Aff x1 y1) in *. set (Q := Aff x2 y2) in *.
  destruct (padd P Q) as [|x y] eqn:E.
  - apply padd_inf_iff in E; try assumption. rewrite E. cbn [padd].
    now apply pneg_pneg.
  - destruct (padd_col P Q) as (l & c & C); try (assumption || discriminate || congruence).
    rewrite <- E. apply Col_neg in C. rewrite (pneg_pneg (padd P Q)) in C by auto with curve.
    apply Col_rot, Col_swap, col_padd in C; auto with curve.
    rewrite C. now apply pneg_pneg.
Qed.

Lemma padd_cancel_l P Q : on_curve P -> on_curve Q -> padd (pneg P) (padd P Q) = Q.
Proof.
  intros HP HQ. rewrite padd_comm by auto with curve. rewrite (padd_comm P Q) by assumption.
  now apply padd_cancel.
Qed.

(** ** Functions with four zeros *)

(** The function x^2 + b x + c + a y at a point. *)
Definition quad_fun (a b c x y : Z) : Z := x * x + b * x + c + a * y.

(** Its derivative along the curve, up to the factor 2 y. *)
Definition quad_der (a b c x y : Z) : Z := (2 * x + b) * (2 * y) + a * (3 * x * x).

(** The function vanishes at the four points, doubly at the first when it is
    repeated. *)
Record four_zeros (a b c x1 y1 x2 y2 x3 y3 x4 y4 : Z) : Prop := {
  fz1 : quad_fun a b c x1 y1 =[p]= 0;
  fz2 : quad_fun a b c x2 y2 =[p]= 0;
  fz3 : quad_fun a b c x3 y3 =[p]= 0;
  fz4 : quad_fun a b c x4 y4 =[p]= 0;
  fz_sum : x1 + x2 + x3 + x4 =[p]= a * a - 2 * b;
  fz_der2 : x1 = x2 -> y1 = y2 -> quad_der a b c x1 y1 =[p]= 0;
  fz_der3 : x1 = x3 -> y1 = y3 -> quad_der a b c x1 y1 =[p]= 0
}.

Lemma half x y v : on_curve (Aff x y) -> 2 * y * v =[p]= 0 -> v =[p]= 0.
Proof.
  intros H E. apply (cancel_l (2 * y)); [apply two_nonzero, (y_nonzero x y H)|].
  rewrite E. apply cong_eq. ring.
Qed.

(** Two additions in a row give such a function. *)
Lemma two_lines l c l' c' x1 y1 x2 y2 x y z x3 y3 x4 y4 :
  on_curve (Aff x1 y1) -> on_curve (Aff x2 y2) -> on_curve (Aff x3 y3) -> on_curve (Aff x4 y4) ->
  col l c x1 y1 x2 y2 x y -> z =[p]= - y -> col l' c' x z x3 y3 x4 y4 ->
  four_zeros (- (l + l')) (x + l * l') (x * x + l * l' * x + l * c' + l' * c)
    x1 y1 x2 y2 x3 y3 x4 y4.
Proof.
  intros H1 H2 H3 H4 C Hz C'.
  assert (E1 : curve_eq x1 y1) by apply H1. assert (E2 : curve_eq x2 y2) by apply H2.
  assert (E3 : curve_eq x3 y3) by apply H3. assert (E4 : curve_eq x4 y4) by apply H4.
  unfold curve_eq in *. destruct C, C'. unfold quad_fun, quad_der. constructor.
  - apply (half x1 y1); [exact H1|]. unfold quad_fun. nsatz.
  - apply (half x2 y2); [exact H2|]. unfold quad_fun. nsatz.
  - apply (half x3 y3); [exact H3|]. unfold quad_fun. nsatz.
  - apply (half x4 y4); [exact H4|]. unfold quad_fun. nsatz.
  - nsatz.
  - intros <- <-. unfold quad_der. nsatz.
  - intros <- <-. apply (half x1 y1); [exact H1|]. unfold quad_der. nsatz.
Qed.

Lemma nonzero_diff x x' : in_fp x -> in_fp x' -> x <> x' -> ~ x - x' =[p]= 0.
Proof.
  intros H H' Hn E. apply Hn, in_fp_eq; try assumption. destruct E as [k E]. exists k. lia.
Qed.

Lemma cancel_diff x x' v : in_fp x -> in_fp x' -> x <> x' -> (x - x') * v =[p]= 0 -> v =[p]= 0.
Proof.
  intros H H' Hn E. destruct (mul_zero _ _ E) as [E0|E0]; [|exact E0].
  destruct (nonzero_diff x x' H H' Hn E0).
Qed.

(** Distinct points have distinct abscissas, or are opposite. *)
Definition apart (P Q : point) : Prop :=
  match P, Q with Aff x1 y1, Aff x2 y2 => x1 <> x2 | _, _ => True end.

Section FourZeros.
Variables (l k x1 y1 x2 y2 xd yd x3 y3 : Z).
Hypothesis (H1 : on_curve (Aff x1 y1)) (H2 : on_curve (Aff x2 y2)).
Hypothesis (H3 : on_curve (Aff x3 y3)) (Hd : on_curve (Aff xd yd)).
Hypothesis (C : col l k x1 y1 x2 y2 xd yd).
Hypothesis (N12 : x1 = x2 /\ y1 = y2 \/ x1 <> x2).
Hypothesis (N31 : x3 <> x1) (N32 : x3 <> x2).
Hypothesis (ND : Aff x3 y3 <> Aff xd yd).

(** The leading coefficient of such a function does not vanish. *)
Lemma four_zeros_lead a b c x4 y4 :
  four_zeros a b c x1 y1 x2 y2 x3 y3 x4 y4 -> ~ a =[p]= 0.
Proof.
  intros F A. assert (E : (x3 - x1) * ((x3 - x2) * 1) =[p]= 0).
  { assert (B : b =[p]= - (x1 + x2) /\ c =[p]= x1 * x2).
    { destruct F as [F1 F2 F3 _ _ D _]. unfold quad_fun in *. destruct N12 as [[<- <-]|Hn].
      - specialize (D eq_refl eq_refl). unfold quad_der in D.
        assert (B : 2 * x1 + b =[p]= 0) by (apply (half x1 y1); [exact H1|nsatz]).
        split; nsatz.
      - assert (B : x1 + x2 + b =[p]= 0).
        { apply (cancel_diff x1 x2); [apply H1|apply H2|exact Hn|nsatz]. }
        split; nsatz. }
    destruct B. pose proof (fz3 _ _ _ _ _ _ _ _ _ _ _ F) as F3. unfold quad_fun in F3. nsatz. }
  apply cancel_diff in E; [|apply H3|apply H1|exact N31].
  apply cancel_diff in E; [|apply H3|apply H2|exact N32].
  apply cong_iff in E. vm_compute in E. discriminate E.
Qed.

(** Two such functions are equal. *)
Lemma four_zeros_unique a b c a' b' c' x4 y4 x4' y4' :
  four_zeros a b c x1 y1 x2 y2 x3 y3 x4 y4 ->
  four_zeros a' b' c' x2 y2 x3 y3 x1 y1 x4' y4' ->
  a =[p]= a' /\ b =[p]= b' /\ c =[p]= c'.
Proof.
  intros F F'. pose proof (col_y1 _ _ _ _ _ _ _ _ C) as L1.
  pose proof (col_y2 _ _ _ _ _ _ _ _ C) as L2.
  assert (L : b - b' + (a - a') * l =[p]= 0 /\ c - c' + (a - a') * k =[p]= 0).
  { destruct F as [F1 F2 F3 _ _ D _], F' as [G2 G3 G1 _ _ _ D']. unfold quad_fun in *.
    destruct N12 as [[<- <-]|Hn].
    - specialize (D eq_refl eq_refl). specialize (D' eq_refl eq_refl). unfold quad_der in *.
      pose proof (col_tangent _ _ _ _ _ _ C) as T.
      assert (B : b - b' + (a - a') * l =[p]= 0) by (apply (half x1 y1); [exact H1|nsatz]).
      split; [exact B|nsatz].
    - assert (B : b - b' + (a - a') * l =[p]= 0).
      { apply (cancel_diff x1 x2); [apply H1|apply H2|exact Hn|nsatz]. }
      split; [exact B|nsatz]. }
  destruct L as [B K].
  assert (A : (a - a') * (y3 - (l * x3 + k)) =[p]= 0).
  { pose proof (fz3 _ _ _ _ _ _ _ _ _ _ _ F) as F3.
    pose proof (fz2 _ _ _ _ _ _ _ _ _ _ _ F') as G3. unfold quad_fun in *. nsatz. }
  destruct (mul_zero _ _ A) as [A0|A0]; [repeat split; nsatz|exfalso].
  assert (Y : y3 =[p]= l * x3 + k) by nsatz.
  pose proof (col_on _ _ _ _ _ _ _ _ x3 y3 C (proj2 (proj2 H3)) Y) as E.
  apply cancel_diff in E; [|apply H3|apply H1|exact N31].
  apply cancel_diff in E; [|apply H3|apply H2|exact N32].
  apply ND. assert (x3 = xd) as ->.
  { apply in_fp_eq; [apply H3|apply Hd|nsatz]. }
  f_equal. apply in_fp_eq; [apply H3|apply Hd|]. rewrite Y. symmetry. apply C.
Qed.

Lemma fourth_unique a b c a' b' c' x4 y4 x4' y4' :
  on_curve (Aff x4 y4) -> on_curve (Aff x4' y4') ->
  four_zeros a b c x1 y1 x2 y2 x3 y3 x4 y4 ->
  four_zeros a' b' c' x2 y2 x3 y3 x1 y1 x4' y4' -> Aff x4 y4 = Aff x4' y4'.
Proof.
  intros H4 H4' F F'. destruct (four_zeros_unique _ _ _ _ _ _ _ _ _ _ F F') as (A & B & K).
  pose proof (four_zeros_lead _ _ _ _ _ F) as Ha.
  assert (X : x4 = x4').
  { apply in_fp_eq; [apply H4|apply H4'|].
    pose proof (fz_sum _ _ _ _ _ _ _ _ _ _ _ F). pose proof (fz_sum _ _ _ _ _ _ _ _ _ _ _ F').
    nsatz. }
  subst x4'. f_equal. apply in_fp_eq; [apply H4|apply H4'|].
  apply (cancel_l a); [now rewrite cong_0|].
  pose proof (fz4 _ _ _ _ _ _ _ _ _ _ _ F). pose proof (fz4 _ _ _ _ _ _ _ _ _ _ _ F').
  unfold quad_fun in *. nsatz.
Qed.
End FourZeros.

(** ** Associativity *)

Lemma same_x_points x y1 y2 : on_curve (Aff x y1) -> on_curve (Aff x y2) ->
  Aff x y1 = Aff x y2 \/ Aff x y2 = pneg (Aff x y1).
Proof.
  intros H1 H2. destruct (same_x x y1 y2 H1 H2) as [->|E]; [now left|right].
  apply padd_inf_iff; try assumption. now apply padd_opposite.
Qed.

(** Sum with the opposite of a sum, along lines. *)
Lemma padd_lines P Q R : on_curve P -> on_curve Q -> on_curve R ->
  P <> Inf -> Q <> Inf -> R <> Inf -> padd P Q <> Inf -> padd (padd P Q) R <> Inf ->
  exists x1 y1 x2 y2 x3 y3 x y x4 y4 l c, P = Aff x1 y1 /\ Q = Aff x2 y2 /\ R = Aff x3 y3 /\
  pneg (padd P Q) = Aff x y /\ pneg (padd (padd P Q) R) = Aff x4 y4 /\
  col l c x1 y1 x2 y2 x y /\
  exists a b k, four_zeros a b k x1 y1 x2 y2 x3 y3 x4 y4.
Proof.
  intros HP HQ HR P0 Q0 R0 S0 T0.
  destruct (padd_col P Q) as (l & c & C); try assumption.
  destruct (padd_col (padd P Q) R) as (l' & c' & C'); try (assumption || auto with curve).
  pose proof (pneg_on_curve _ (padd_on_curve _ _ (padd_on_curve _ _ HP HQ) HR)) as HT.
  rewrite <- (pneg_pneg (padd P Q)) in C' at 1 by auto with curve.
  destruct P as [|x1 y1]; [congruence|]. destruct Q as [|x2 y2]; [congruence|].
  destruct R as [|x3 y3]; [congruence|].
  destruct (pneg (padd (padd (Aff x1 y1) (Aff x2 y2)) (Aff x3 y3))) as [|x4 y4];
    [destruct (pneg _); contradiction|].
  destruct (pneg (padd (Aff x1 y1) (Aff x2 y2))) as [|x y]; [contradiction|].
  exists x1, y1, x2, y2, x3, y3, x, y, x4, y4, l, c. repeat (split; [reflexivity|]).
  split; [exact C|]. eexists _, _, _.
  refine (two_lines l c l' c' _ _ _ _ _ _ _ _ _ _ _ HP HQ HR HT C _ C'). apply cong_mod.
Qed.

Lemma assoc_generic P Q R : on_curve P -> on_curve Q -> on_curve R ->
  P <> Inf -> Q <> Inf -> R <> Inf ->
  Q <> pneg P -> R <> pneg Q -> R <> pneg P -> R <> P -> R <> Q ->
  R <> pneg (padd P Q) -> P <> pneg (padd Q R) ->
  padd (padd P Q) R = padd P (padd Q R).
Proof.
  intros HP HQ HR P0 Q0 R0 N1 N2 N3 N4 N5 N6 N7.
  assert (S1 : padd P Q <> Inf) by (intros E; apply N1; now apply padd_inf_iff).
  assert (S2 : padd Q R <> Inf) by (intros E; apply N2; now apply padd_inf_iff).
  assert (T1 : padd (padd P Q) R <> Inf).
  { intros E. apply N6. apply padd_inf_iff; auto with curve. }
  assert (T2 : padd (padd Q R) P <> Inf).
  { intros E. apply N7. apply padd_inf_iff; auto with curve. }
  rewrite (padd_comm P (padd Q R)) by auto with curve.
  apply pneg_inj; auto with curve.
  pose proof (pneg_on_curve _ (padd_on_curve _ _ (padd_on_curve _ _ HP HQ) HR)) as HT1.
  pose proof (pneg_on_curve _ (padd_on_curve _ _ (padd_on_curve _ _ HQ HR) HP)) as HT2.
  pose proof (pneg_on_curve _ (padd_on_curve _ _ HP HQ)) as HD.
  destruct (padd_lines P Q R) as (x1 & y1 & x2 & y2 & x3 & y3 & x & y & x4 & y4 & l & c &
    -> & -> & -> & ED & ET & C & a & b & k & F); try assumption.
  destruct (padd_lines _ _ _ HQ HR HP) as (x2' & y2' & x3' & y3' & x1' & y1' & x' & y' & x4' & y4' &
    l' & c' & E2 & E3 & E1 & _ & ET' & _ & a' & b' & k' & F'); try assumption.
  injection E1 as <- <-. injection E2 as <- <-. injection E3 as <- <-.
  rewrite ET, ET'. rewrite ET in HT1. rewrite ET' in HT2. rewrite ED in HD, N6.
  refine (fourth_unique l c x1 y1 x2 y2 x y x3 y3 HP HQ HR HD C _ _ _ N6 _ _ _ _ _ _ _ _ _ _
    HT1 HT2 F F').
  - destruct (Z.eq_dec x1 x2) as [E|]; [left|now right]. subst x2.
    destruct (same_x_points x1 y1 y2 HP HQ) as [E|E]; [|contradiction].
    injection E as <-. auto.
  - intros ->. destruct (same_x_points x1 y1 y3 HP HR) as [E|E]; congruence.
  - intros ->. destruct (same_x_points x2 y2 y3 HQ HR) as [E|E]; congruence.
Qed.

Lemma point_eq_dec (P Q : point) : {P = Q} + {P <> Q}.
Proof. decide equality; apply Z.eq_dec. Defined.

(** Only one of the two sums matters when [R] is the opposite of [P + Q]. *)
Lemma assoc_zero P Q : on_curve P -> on_curve Q -> P <> Inf -> Q <> Inf -> Q <> pneg P ->
  padd P (padd Q (pneg (padd P Q))) = Inf.
Proof.
  intros HP HQ P0 Q0 N. destruct (padd_col P Q) as (l & c & C); try assumption.
  { intros E. apply N. now apply padd_inf_iff. }
  apply Col_rot in C. rewrite (col_padd l c Q _ P); auto with curve. apply padd_neg.
Qed.

Theorem padd_assoc P Q R : on_curve P -> on_curve Q -> on_curve R ->
  padd (padd P Q) R = padd P (padd Q R).
Proof.
  intros HP HQ HR.
  destruct (point_eq_dec P Inf) as [->|P0]; [reflexivity|].
  destruct (point_eq_dec Q Inf) as [->|Q0]; [now rewrite padd_Inf_r|].
  destruct (point_eq_dec R Inf) as [->|R0]; [now rewrite !padd_Inf_r|].
  destruct (point_eq_dec Q (pneg P)) as [->|N1].
  { rewrite padd_neg. cbn [padd]. symmetry. rewrite <- (pneg_pneg P HP) at 1.
    apply padd_cancel_l; auto with curve. }
  destruct (point_eq_dec R (pneg Q)) as [->|N2].
  { rewrite padd_neg, padd_Inf_r. now apply padd_cancel. }
  destruct (point_eq_dec R P) as [->|N4].
  { rewrite (padd_comm (padd P Q)), (padd_comm P Q) by auto with curve. reflexivity. }
  destruct (point_eq_dec R (pneg P)) as [->|N3].
  { rewrite (padd_comm P Q) by assumption. rewrite padd_cancel by assumption.
    rewrite (padd_comm P), (padd_comm Q) by auto with curve.
    rewrite <- (pneg_pneg P HP) at 2. symmetry. rewrite (padd_comm (pneg P)) by auto with curve.
    apply padd_cancel; auto with curve. }
  destruct (point_eq_dec R (pneg (padd P Q))) as [->|N6].
  { rewrite padd_neg. symmetry. now apply assoc_zero. }
  destruct (point_eq_dec P (pneg (padd Q R))) as [E|N7].
  { transitivity Inf.
    - rewrite (padd_comm P Q), (padd_comm _ R) by auto with curve. rewrite E.
      rewrite (padd_comm Q R) by assumption. apply assoc_zero; try assumption.
      intros E'. apply N2. rewrite E'. symmetry. now apply pneg_pneg.
    - rewrite E at 1. symmetry. apply padd_neg_l. auto with curve. }
  destruct (point_eq_dec R Q) as [->|N5].
  { destruct (point_eq_dec P Q) as [->|N8].
    { apply padd_comm; auto with curve. }
    rewrite (padd_comm (padd P Q) Q), (padd_comm P (padd Q Q)) by auto with curve.
    rewrite (padd_comm P Q) in N6 |- * by assumption. symmetry.
    assert (P <> pneg Q) by (intros ->; apply N1; symmetry; now apply pneg_pneg).
    now apply assoc_generic. }
  now apply assoc_generic.
Qed.

(** ** Multiples of a point *)

Fixpoint pmul (k : nat) (P : point) : point :=
  match k with O => Inf | S k => padd P (pmul k P) end.

(** [k] times [P], for an integer [k]. *)
Definition smul (k : Z) (P : point) : point :=
  if 0 <=? k then pmul (Z.to_nat k) P else pneg (pmul (Z.to_nat (- k)) P).

Lemma pmul_on_curve k P : on_curve P -> on_curve (pmul k P).
Proof. intros H. induction k; cbn [pmul]; auto with curve. exact I. Qed.

Lemma smul_on_curve k P : on_curve P -> on_curve (smul k P).
Proof.
  intros H. unfold smul. destruct (0 <=? k).
  - now apply pmul_on_curve.
  - now apply pneg_on_curve, pmul_on_curve.
Qed.

(** The named points. *)
Create HintDb curve_point discriminated.
#[export] Hint Resolve G_on_curve : curve_point.
#[export] Hint Constants Opaque : curve_point.

(** Proves that a compound point is on the curve.  (The search of [auto] would
    unfold multiples by large numbers.) *)
Ltac oc :=
  lazymatch goal with
  | |- on_curve (padd _ _) => apply padd_on_curve; oc
  | |- on_curve (pneg _) => apply pneg_on_curve; oc
  | |- on_curve (pendo _) => apply pendo_on_curve; oc
  | |- on_curve (pmul _ _) => apply pmul_on_curve; oc
  | |- on_curve (smul _ _) => apply smul_on_curve; oc
  | |- on_curve Inf => exact I
  | |- _ => first [assumption | solve [auto 1 with curve_point nocore]]
  end.

Lemma pmul_add j k P : on_curve P -> pmul (j + k) P = padd (pmul j P) (pmul k P).
Proof.
  intros H. induction j as [|j IH]; [reflexivity|]. cbn [Nat.add pmul]. rewrite IH.
  symmetry. apply padd_assoc; oc.
Qed.

Lemma pmul_comm_add P Q k : on_curve P -> on_curve Q ->
  pmul k (padd P Q) = padd (pmul k P) (pmul k Q).
Proof.
  intros HP HQ. induction k as [|k IH]; [reflexivity|]. cbn [pmul]. rewrite IH.
  rewrite !padd_assoc by oc. f_equal.
  rewrite <- !padd_assoc by oc. f_equal. apply padd_comm; oc.
Qed.

Lemma smul_nat k P : smul (Z.of_nat k) P = pmul k P.
Proof. unfold smul. rewrite (proj2 (Z.leb_le _ _)) by lia. now rewrite Nat2Z.id. Qed.

Lemma smul_opp k P : on_curve P -> smul (- k) P = pneg (smul k P).
Proof.
  intros H. unfold smul. destruct (Z.leb_spec 0 k), (Z.leb_spec 0 (- k)); try lia.
  - replace k with 0 by lia. reflexivity.
  - now rewrite Z.opp_involutive.
  - rewrite pneg_pneg by oc. reflexivity.
Qed.

Lemma smul_sub_nat j k P : on_curve P ->
  smul (Z.of_nat j - Z.of_nat k) P = padd (pmul j P) (pneg (pmul k P)).
Proof.
  intros H. destruct (Nat.le_ge_cases k j) as [L|L].
  - replace (Z.of_nat j - Z.of_nat k) with (Z.of_nat (j - k)) by lia. rewrite smul_nat.
    replace j with ((j - k) + k)%nat at 2 by lia. rewrite pmul_add by exact H.
    symmetry. apply padd_cancel; oc.
  - replace (Z.of_nat j - Z.of_nat k) with (- Z.of_nat (k - j)) by lia.
    rewrite smul_opp, smul_nat by exact H.
    replace k with ((k - j) + j)%nat at 2 by lia. rewrite pmul_add by exact H.
    rewrite pneg_padd by oc.
    rewrite (padd_comm (pneg _)) by oc.
    rewrite <- padd_assoc by oc. rewrite padd_neg. reflexivity.
Qed.

Lemma Z_as_diff k : exists i j, k = Z.of_nat i - Z.of_nat j.
Proof. exists (Z.to_nat k), (Z.to_nat (- k)). lia. Qed.

Theorem smul_add j k P : on_curve P -> smul (j + k) P = padd (smul j P) (smul k P).
Proof.
  intros H. destruct (Z_as_diff j) as (a & b & ->), (Z_as_diff k) as (c & d & ->).
  replace (Z.of_nat a - Z.of_nat b + (Z.of_nat c - Z.of_nat d))
    with (Z.of_nat (a + c) - Z.of_nat (b + d)) by lia.
  rewrite !smul_sub_nat, !pmul_add by exact H.
  rewrite pneg_padd by oc.
  rewrite !padd_assoc by oc. f_equal.
  rewrite <- !padd_assoc by oc. f_equal. apply padd_comm; oc.
Qed.

Lemma smul_0 P : smul 0 P = Inf.
Proof. reflexivity. Qed.

Lemma smul_1 P : smul 1 P = P.
Proof. unfold smul. cbn. apply padd_Inf_r. Qed.

Lemma smul_Inf k : smul k Inf = Inf.
Proof.
  unfold smul. assert (E : forall n, pmul n Inf = Inf).
  { induction n; cbn [pmul padd]; auto. }
  rewrite !E. now destruct (0 <=? k).
Qed.

Lemma smul_double k P : on_curve P -> smul (2 * k) P = padd (smul k P) (smul k P).
Proof. intros H. rewrite <- smul_add by exact H. f_equal. lia. Qed.

Lemma smul_padd k P Q : on_curve P -> on_curve Q ->
  smul k (padd P Q) = padd (smul k P) (smul k Q).
Proof.
  intros HP HQ. unfold smul. destruct (0 <=? k); rewrite pmul_comm_add by assumption; [reflexivity|].
  apply pneg_padd; oc.
Qed.

Lemma smul_smul j k P : on_curve P -> smul j (smul k P) = smul (j * k) P.
Proof.
  intros H. assert (N : forall n, smul (Z.of_nat n) (smul k P) = smul (Z.of_nat n * k) P).
  { induction n as [|n IH]; [reflexivity|]. rewrite Nat2Z.inj_succ.
    replace (Z.succ (Z.of_nat n)) with (Z.of_nat n + 1) by lia.
    rewrite smul_add, IH, smul_1, <- smul_add by oc. f_equal. lia. }
  destruct (Z.le_ge_cases 0 j).
  - rewrite <- (Z2Nat.id j) by lia. apply N.
  - replace j with (- Z.of_nat (Z.to_nat (- j))) by lia.
    rewrite smul_opp, N, <- smul_opp by oc. f_equal. lia.
Qed.
