(* ===== verification/CurveOrder.v ===== *)
(** * The order of the generator and the endomorphism

    The generator G has order n, and on its multiples the endomorphism
    (x, y) |-> (beta x, y) is multiplication by lambda.  Both follow from one
    relation between 128-bit multiples of G and of its image, evaluated below
    in machine integers, and from the norm a1^2 - a1 b1 + b1^2 = n. *)
From S2P Require Import Prelude Primes FieldSpec Field ScalarSpec Scalar CurveSpec CurveGroup.
From Stdlib Require Import NsatzTactic.
From Bignums Require Import BigZ.BigZ.
#[local] Open Scope Z_scope.

(** ** The endomorphism is additive *)

Lemma Col_endo l c P Q R : Col l c P Q R ->
  Col (l * (beta_val * beta_val)) c (pendo P) (pendo Q) (pendo R).
Proof.
  destruct P as [|x1 y1], Q as [|x2 y2], R as [|x3 y3]; try contradiction.
  cbn [Col pendo]. intros [E1 E2 E3 E4 E5 E6]. pose proof beta_cube as B.
  revert B. generalize beta_val. intros b B.
  constructor; rewrite ?cong_mod; nsatz.
Qed.

Lemma pendo_neg P : pendo (pneg P) = pneg (pendo P).
Proof. now destruct P. Qed.

Lemma pendo_finite P : P <> Inf -> pendo P <> Inf.
Proof. now destruct P. Qed.

Lemma pendo_padd P Q : on_curve P -> on_curve Q -> pendo (padd P Q) = padd (pendo P) (pendo Q).
Proof.
  intros HP HQ. destruct (point_eq_dec P Inf) as [->|P0]; [reflexivity|].
  destruct (point_eq_dec Q Inf) as [->|Q0]; [now rewrite !padd_Inf_r|].
  destruct (point_eq_dec (padd P Q) Inf) as [E|S0].
  - apply padd_inf_iff in E; try assumption. subst Q. now rewrite pendo_neg, !padd_neg.
  - destruct (padd_col P Q) as (l & c & C); try assumption.
    apply Col_endo, col_padd in C; try oc.
    rewrite C, pendo_neg, pneg_pneg; try oc; reflexivity.
Qed.

Lemma pendo_pmul k P : on_curve P -> pendo (pmul k P) = pmul k (pendo P).
Proof.
  intros H. induction k as [|k IH]; [reflexivity|]. cbn [pmul].
  rewrite pendo_padd, IH; try oc; reflexivity.
Qed.

Lemma pendo_smul k P : on_curve P -> pendo (smul k P) = smul k (pendo P).
Proof.
  intros H. unfold smul. destruct (0 <=? k); rewrite ?pendo_neg, pendo_pmul by exact H; reflexivity.
Qed.

(** P, its image and the image of its image lie on a horizontal line. *)
Lemma pendo_sum P : on_curve P -> padd P (pendo P) = pneg (pendo (pendo P)).
Proof.
  intros H. destruct P as [|x y]; [reflexivity|].
  apply (col_padd 0 y); try oc.
  pose proof beta_cube as B. assert (B1 : 1 + beta_val + beta_val * beta_val =[p]= 0)
    by (apply cong_iff; vm_compute; reflexivity).
  destruct H as (_ & _ & E). cbn [pendo Col]. revert B B1. generalize beta_val. intros b B B1.
  constructor; rewrite ?(cong_mod p ((x * b) mod p * b)), ?cong_mod; nsatz.
Qed.

(** ** Evaluating a multiple *)

Definition bp : BigZ.t := BigZ.of_Z p.

Definition mulm (a b : BigZ.t) : BigZ.t := BigZ.modulo (BigZ.mul a b) bp.

Lemma mulm_ok a b : BigZ.to_Z (mulm a b) =[p]= BigZ.to_Z a * BigZ.to_Z b.
Proof.
  unfold mulm, bp. rewrite BigZ.spec_modulo, BigZ.spec_mul, BigZ.spec_of_Z. apply cong_mod.
Qed.

Record jac := Jac { jacx : BigZ.t; jacy : BigZ.t; jacz : BigZ.t }.

Definition jdbl (a : jac) : jac :=
  let xx := mulm (jacx a) (jacx a) in
  let yy := mulm (jacy a) (jacy a) in
  let d := mulm (jacx a) yy in
  let e := BigZ.add xx (BigZ.add xx xx) in
  let d2 := BigZ.add d d in
  let d4 := BigZ.add d2 d2 in
  let x := BigZ.sub (mulm e e) (BigZ.add d4 d4) in
  let c := mulm yy yy in
  let c2 := BigZ.add c c in
  let c4 := BigZ.add c2 c2 in
  let z := mulm (jacy a) (jacz a) in
  Jac x (BigZ.sub (mulm e (BigZ.sub d4 x)) (BigZ.add c4 c4)) (BigZ.add z z).

Definition jmadd (a : jac) (x2 y2 : BigZ.t) : jac :=
  let zz := mulm (jacz a) (jacz a) in
  let h := BigZ.sub (mulm x2 zz) (jacx a) in
  let r := BigZ.sub (mulm y2 (mulm (jacz a) zz)) (jacy a) in
  let hh := mulm h h in
  let hhh := mulm h hh in
  let v := mulm (jacx a) hh in
  let x := BigZ.sub (mulm r r) (BigZ.add hhh (BigZ.add v v)) in
  Jac x (BigZ.sub (mulm r (BigZ.sub v x)) (mulm (jacy a) hhh)) (mulm (jacz a) h).

Fixpoint jmul (k : positive) (x y : BigZ.t) : jac :=
  match k with
  | xH => Jac x y BigZ.one
  | xO k => jdbl (jmul k x y)
  | xI k => jmadd (jdbl (jmul k x y)) x y
  end.

(** The triple represents a finite point, if its z is not zero. *)
Definition jac_rep (a : jac) (P : point) : Prop :=
  match P with
  | Inf => False
  | Aff x y =>
    let z := BigZ.to_Z (jacz a) in
    BigZ.to_Z (jacx a) =[p]= x * z * z /\ BigZ.to_Z (jacy a) =[p]= y * z * z * z
  end.

Definition jac_ok (a : jac) (P : point) : Prop := BigZ.to_Z (jacz a) mod p <> 0 -> jac_rep a P.

(** [a] denotes the residue of [v]. *)
Definition cz (a : BigZ.t) (v : Z) : Prop := BigZ.to_Z a =[p]= v.

Lemma cz_mul a b u v : cz a u -> cz b v -> cz (mulm a b) (u * v).
Proof. unfold cz. intros Ha Hb. rewrite mulm_ok, Ha, Hb. reflexivity. Qed.

Lemma cz_add a b u v : cz a u -> cz b v -> cz (BigZ.add a b) (u + v).
Proof. unfold cz. intros Ha Hb. rewrite BigZ.spec_add, Ha, Hb. reflexivity. Qed.

Lemma cz_sub a b u v : cz a u -> cz b v -> cz (BigZ.sub a b) (u - v).
Proof. unfold cz. intros Ha Hb. rewrite BigZ.spec_sub, Ha, Hb. reflexivity. Qed.

Lemma cz_eq a u v : cz a u -> u =[p]= v -> cz a v.
Proof. unfold cz. intros Ha E. now rewrite Ha. Qed.

Lemma cz_0 a u : cz a u -> (BigZ.to_Z a mod p = 0 <-> u =[p]= 0).
Proof. unfold cz. intros Ha. now rewrite cong_0, Ha. Qed.

Ltac cz_tac := repeat first [eassumption | apply cz_mul | apply cz_add | apply cz_sub].

Lemma jdbl_val a x y z e : cz (jacx a) x -> cz (jacy a) y -> cz (jacz a) z ->
  3 * x * x =[p]= e ->
  let r := jdbl a in
  let x' := e * e - 8 * x * (y * y) in
  cz (jacx r) x' /\ cz (jacy r) (e * (4 * x * (y * y) - x') - 8 * (y * y) * (y * y)) /\
  cz (jacz r) (2 * y * z).
Proof.
  intros HX HY HZ He. unfold jdbl. set (xx := mulm (jacx a) (jacx a)). cbn [jacx jacy jacz].
  assert (Hxx : cz (BigZ.add xx (BigZ.add xx xx)) e).
  { eapply cz_eq; [unfold xx; cz_tac|]. rewrite <- He. apply cong_eq. ring. }
  clearbody xx. split; [|split]; (eapply cz_eq; [cz_tac|apply cong_eq; ring]).
Qed.

Lemma jmadd_val a bx by_ x y z x2 y2 : cz (jacx a) x -> cz (jacy a) y -> cz (jacz a) z ->
  cz bx x2 -> cz by_ y2 ->
  let r := jmadd a bx by_ in
  let h := x2 * (z * z) - x in
  let s := y2 * (z * z * z) - y in
  let x' := s * s - h * h * h - 2 * x * (h * h) in
  cz (jacx r) x' /\ cz (jacy r) (s * (x * (h * h) - x') - y * (h * h * h)) /\
  cz (jacz r) (z * h).
Proof.
  intros HX HY HZ H1 H2. unfold jmadd. cbn [jacx jacy jacz].
  split; [|split]; (eapply cz_eq; [cz_tac|apply cong_eq; ring]).
Qed.

(** A value of the z coordinate whose product with something is not zero. *)
Lemma cz_factor a b c u v : cz a u -> cz b v -> u =[p]= v * c -> BigZ.to_Z a mod p <> 0 ->
  BigZ.to_Z b mod p <> 0 /\ c mod p <> 0.
Proof.
  unfold cz. intros Ha Hb E H. rewrite cong_0 in H. rewrite !cong_0.
  split; intros E0; apply H; rewrite Ha, E.
  - rewrite <- Hb, E0. apply cong_eq. ring.
  - rewrite E0. apply cong_eq. ring.
Qed.

Lemma cz_self a : cz a (BigZ.to_Z a).
Proof. apply cong_eq. reflexivity. Qed.

(** A representation, from the values of the three coordinates. *)
Lemma jac_rep_intro a x y z : cz (jacz a) z -> cz (jacx a) (x * z * z) ->
  cz (jacy a) (y * z * z * z) -> jac_rep a (Aff x y).
Proof. unfold cz, jac_rep. intros -> -> ->. split; reflexivity. Qed.

Lemma jdbl_ok a P : on_curve P -> jac_ok a P -> jac_ok (jdbl a) (padd P P).
Proof.
  intros HP H Hz.
  pose proof (jdbl_val a _ _ _ _ (cz_self _) (cz_self _) (cz_self _) (cong_eq _ _ _ eq_refl))
    as (_ & _ & K).
  destruct (cz_factor _ _ (2 * BigZ.to_Z (jacy a)) _ _ K (cz_self (jacz a))) as [Hz0 _];
    [apply cong_eq; ring|exact Hz|]. clear K.
  specialize (H Hz0). destruct P as [|x y]; [contradiction|]. destruct H as [HX HY].
  destruct (padd_tangent x y HP) as (l & T & -> & _). unfold chord. cbv zeta.
  set (z := BigZ.to_Z (jacz a)) in *.
  destruct (jdbl_val a _ _ z (l * (2 * y) * (z * z * z * z)) HX HY (cz_self _)) as (KX & KY & KZ).
  { rewrite T. apply cong_eq. ring. }
  apply (jac_rep_intro _ _ _ _ KZ); (eapply cz_eq; [eassumption|]); rewrite !cong_mod;
    apply cong_eq; ring.
Qed.

Lemma jmadd_ok a P bx by_ Q : on_curve P -> on_curve Q ->
  Q = Aff (BigZ.to_Z bx) (BigZ.to_Z by_) ->
  jac_ok a P -> jac_ok (jmadd a bx by_) (padd P Q).
Proof.
  intros HP HQ -> H Hz. set (x2 := BigZ.to_Z bx) in *. set (y2 := BigZ.to_Z by_) in *.
  pose proof (jmadd_val a bx by_ _ _ _ x2 y2 (cz_self _) (cz_self _) (cz_self _)
    (cz_self _) (cz_self _)) as (_ & _ & K).
  destruct (cz_factor _ _ _ _ _ K (cz_self (jacz a)) (cong_eq _ _ _ eq_refl) Hz) as [Hz0 Hh].
  clear K. specialize (H Hz0). destruct P as [|x y]; [contradiction|]. destruct H as [HX HY].
  set (z := BigZ.to_Z (jacz a)) in *.
  assert (N : x <> x2).
  { intros ->. apply Hh, cong_0. rewrite HX. apply cong_eq. ring. }
  destruct (padd_chord x y x2 y2 HP HQ N) as (l & L & -> & _). unfold chord. cbv zeta.
  destruct (jmadd_val a bx by_ _ _ z x2 y2 HX HY (cz_self _) (cz_self _) (cz_self _))
    as (KX & KY & KZ).
  assert (S : y2 * (z * z * z) - y * z * z * z =[p]= l * (x2 - x) * (z * z * z)).
  { rewrite L. apply cong_eq. ring. }
  apply (jac_rep_intro _ _ _ _ KZ); (eapply cz_eq; [eassumption|]); rewrite !cong_mod, ?S;
    apply cong_eq; ring.
Qed.

Lemma jmul_ok k bx by_ P : on_curve P -> P = Aff (BigZ.to_Z bx) (BigZ.to_Z by_) ->
  jac_ok (jmul k bx by_) (pmul (Pos.to_nat k) P).
Proof.
  intros HP E. induction k as [k IH|k IH|]; cbn [jmul].
  - replace (Pos.to_nat k~1) with ((Pos.to_nat k + Pos.to_nat k) + 1)%nat by lia.
    rewrite !pmul_add by exact HP. cbn [pmul]. rewrite padd_Inf_r.
    apply jmadd_ok; [oc|oc|exact E|]. apply jdbl_ok; oc.
  - replace (Pos.to_nat k~0) with (Pos.to_nat k + Pos.to_nat k)%nat by lia.
    rewrite pmul_add by exact HP. apply jdbl_ok; oc.
  - change (pmul (Pos.to_nat 1) P) with (padd P Inf). rewrite padd_Inf_r, E. intros _.
    split; cbn [jacx jacy jacz]; rewrite BigZ.spec_1; apply cong_eq; ring.
Qed.

(** Multiples by large numbers are never computed by conversion. *)
#[global] Opaque pmul smul.

(** ** The relation between G and its image *)

Definition bG : jac := match G_point with
  | Aff x y => Jac (BigZ.of_Z x) (BigZ.of_Z y) BigZ.one | Inf => Jac BigZ.zero BigZ.zero BigZ.zero end.

Definition bE : jac := match pendo G_point with
  | Aff x y => Jac (BigZ.of_Z x) (BigZ.of_Z y) BigZ.one | Inf => Jac BigZ.zero BigZ.zero BigZ.zero end.

(** Equality of two representations, with both z not zero. *)
Definition jac_same (a b : jac) : bool :=
  let za := mulm (jacz a) (jacz a) in
  let zb := mulm (jacz b) (jacz b) in
  negb (BigZ.eqb (mulm (jacz a) (jacz b)) BigZ.zero) &&
  BigZ.eqb (mulm (jacx a) zb) (mulm (jacx b) za) &&
  BigZ.eqb (mulm (jacy a) (mulm zb (jacz b))) (mulm (jacy b) (mulm za (jacz a))).

Lemma mulm_range a b : BigZ.to_Z (mulm a b) = (BigZ.to_Z a * BigZ.to_Z b) mod p.
Proof. unfold mulm, bp. now rewrite BigZ.spec_modulo, BigZ.spec_mul, BigZ.spec_of_Z. Qed.

Lemma bigz_eqb a b : BigZ.eqb a b = true -> BigZ.to_Z a = BigZ.to_Z b.
Proof. rewrite BigZ.spec_eqb. apply Z.eqb_eq. Qed.

Lemma jac_same_ok a b P Q : on_curve P -> on_curve Q -> jac_ok a P -> jac_ok b Q ->
  jac_same a b = true -> P = Q.
Proof.
  intros HP HQ Ha Hb H. unfold jac_same in H. cbv zeta in H.
  apply andb_true_iff in H as [H HY]. apply andb_true_iff in H as [HZ HX].
  apply bigz_eqb in HX, HY. apply negb_true_iff in HZ.
  rewrite BigZ.spec_eqb, mulm_range, BigZ.spec_0 in HZ. apply Z.eqb_neq in HZ.
  destruct (nonzero_factors _ _ _ (cong_eq _ _ _ eq_refl) HZ) as [Za Zb].
  specialize (Ha Za). specialize (Hb Zb). destruct P as [|x y]; [contradiction|].
  destruct Q as [|x' y']; [contradiction|]. destruct Ha as [Xa Ya], Hb as [Xb Yb].
  revert Za Zb HX HY Xa Ya Xb Yb. set (za := BigZ.to_Z (jacz a)). set (zb := BigZ.to_Z (jacz b)).
  intros Za Zb HX HY Xa Ya Xb Yb.
  assert (Z2 : (za * za * (zb * zb)) mod p <> 0) by (repeat apply mul_nonzero; assumption).
  apply (cong_eq p) in HX, HY. repeat rewrite mulm_ok in HX. repeat rewrite mulm_ok in HY. fold za zb in HX, HY.
  rewrite Xa, Xb in HX. rewrite Ya, Yb in HY. f_equal.
  - apply in_fp_eq; [apply HP|apply HQ|]. apply (cancel_l _ _ _ Z2).
    transitivity (x * za * za * (zb * zb)); [apply cong_eq; ring|]. rewrite HX. apply cong_eq. ring.
  - assert (Z3 : (za * za * (zb * zb) * (za * zb)) mod p <> 0) by (repeat apply mul_nonzero; assumption).
    apply in_fp_eq; [apply HP|apply HQ|]. apply (cancel_l _ _ _ Z3).
    transitivity (y * za * za * za * (zb * zb * zb)); [apply cong_eq; ring|].
    rewrite HY. apply cong_eq. ring.
Qed.

Lemma relation_check : jac_same (jmul (Z.to_pos a1) (jacx bG) (jacy bG))
  (jmul (Z.to_pos (- b1)) (jacx bE) (jacy bE)) = true.
Proof. vm_compute. reflexivity. Qed.

Lemma relation_gen k1 k2 :
  jac_same (jmul k1 (jacx bG) (jacy bG)) (jmul k2 (jacx bE) (jacy bE)) = true ->
  smul (Zpos k1) G_point = smul (Zpos k2) (pendo G_point).
Proof.
  assert (HG : G_point = Aff (BigZ.to_Z (jacx bG)) (BigZ.to_Z (jacy bG))).
  { unfold bG, G_point. cbn [jacx jacy]. now rewrite !BigZ.spec_of_Z. }
  assert (HE : pendo G_point = Aff (BigZ.to_Z (jacx bE)) (BigZ.to_Z (jacy bE))).
  { unfold bE, G_point. cbn [pendo jacx jacy]. now rewrite !BigZ.spec_of_Z. }
  intros H. rewrite <- !positive_nat_Z, !smul_nat.
  pose proof (jmul_ok k1 _ _ _ G_on_curve HG) as K1.
  pose proof (jmul_ok k2 _ _ _ (pendo_on_curve _ G_on_curve) HE) as K2.
  refine (jac_same_ok _ _ _ _ _ _ K1 K2 H); oc.
Qed.

(** A multiple of G, checked with Jacobian coordinates. *)
Lemma smul_check k x y : on_curve (Aff x y) ->
  jac_same (jmul k (jacx bG) (jacy bG)) (Jac (BigZ.of_Z x) (BigZ.of_Z y) BigZ.one) = true ->
  smul (Zpos k) G_point = Aff x y.
Proof.
  assert (HG : G_point = Aff (BigZ.to_Z (jacx bG)) (BigZ.to_Z (jacy bG))).
  { unfold bG, G_point. cbn [jacx jacy]. now rewrite !BigZ.spec_of_Z. }
  intros HC H. rewrite <- positive_nat_Z, smul_nat.
  refine (jac_same_ok _ _ _ _ (pmul_on_curve _ _ G_on_curve) HC (jmul_ok k _ _ _ G_on_curve HG) _ H).
  intros _. unfold jac_rep. cbn [jacx jacy jacz]. rewrite !BigZ.spec_of_Z, BigZ.spec_1.
  split; apply cong_eq; ring.
Qed.

Lemma relation : smul a1 G_point = smul (- b1) (pendo G_point).
Proof.
  assert (E1 : a1 = Zpos (Z.to_pos a1)) by reflexivity.
  assert (E2 : - b1 = Zpos (Z.to_pos (- b1))) by reflexivity.
  rewrite E1, E2. exact (relation_gen _ _ relation_check).
Qed.

(** ** The order of G *)

(** A relation a P + b endo(P) = 0 makes a^2 - a b + b^2 a multiple of the order. *)
Lemma norm_order a b P : on_curve P -> padd (smul a P) (smul b (pendo P)) = Inf ->
  smul (a * a - a * b + b * b) P = Inf.
Proof.
  intros HP H1. pose proof (f_equal pendo H1) as H2.
  rewrite pendo_padd, !pendo_smul in H2 by oc. change (pendo Inf) with Inf in H2.
  assert (E : pendo (pendo P) = pneg (padd P (pendo P))).
  { rewrite pendo_sum, pneg_pneg by oc. reflexivity. }
  rewrite E in H2. rewrite <- (smul_1 (padd P (pendo P))), <- smul_opp, smul_smul, smul_padd in H2 by oc.
  apply (f_equal (smul (a - b))) in H1. apply (f_equal (smul b)) in H2.
  rewrite smul_padd, !smul_smul, smul_Inf in H1 by oc.
  rewrite smul_padd, smul_padd, !smul_smul, smul_Inf in H2 by oc.
  rewrite (padd_comm (smul _ P)), <- padd_assoc, <- smul_add in H2 by oc.
  replace (b * a + b * (b * - (1))) with ((a - b) * b) in H2 by ring.
  rewrite padd_comm in H1 by oc. apply padd_inf_iff in H1, H2; try oc.
  rewrite <- H1 in H2.
  replace (a * a - a * b + b * b) with ((a - b) * a + - (b * (b * - (1)))) by ring.
  rewrite smul_add, smul_opp, H2 by oc. apply padd_neg.
Qed.

(** ... and determines endo(P), when b has an inverse [u] modulo the order [n]. *)
Lemma relation_endo a b u n P : on_curve P -> padd (smul a P) (smul b (pendo P)) = Inf ->
  smul n P = Inf -> u * b =[n]= 1 -> pendo P = smul (- (u * a)) P.
Proof.
  intros HP H1 Hn [d Hu]. apply (f_equal (smul u)) in H1.
  rewrite smul_padd, !smul_smul, smul_Inf in H1 by oc.
  replace (u * b) with (d * n + 1) in H1 by lia.
  rewrite (smul_add (d * n)), smul_1, <- (smul_smul d n), <- pendo_smul, Hn in H1 by oc.
  change (pendo Inf) with Inf in H1. rewrite smul_Inf in H1. cbn [padd] in H1.
  rewrite smul_opp by oc. apply padd_inf_iff in H1; oc.
Qed.

Lemma relation_sum : padd (smul a1 G_point) (smul b1 (pendo G_point)) = Inf.
Proof.
  rewrite relation, smul_opp by oc. apply padd_neg_l. oc.
Qed.

Lemma norm_value : a1 * a1 - a1 * b1 + b1 * b1 = n_order.
Proof. reflexivity. Qed.

Theorem order_G : smul n_order G_point = Inf.
Proof. rewrite <- norm_value. exact (norm_order _ _ _ G_on_curve relation_sum). Qed.

Lemma smul_n k : smul (n_order * k) G_point = Inf.
Proof. rewrite Z.mul_comm, <- smul_smul, order_G by oc. apply smul_Inf. Qed.

(** Only the residue of the multiplier modulo n matters. *)
Lemma smul_cong j k : j =[n_order]= k -> smul j G_point = smul k G_point.
Proof.
  intros [d H]. replace j with (n_order * d + k) by lia.
  rewrite smul_add, smul_n by oc. reflexivity.
Qed.

Lemma smul_mod k : smul (k mod n_order) G_point = smul k G_point.
Proof. apply smul_cong, cong_mod. Qed.

(** ** The endomorphism is multiplication by lambda *)

(** The inverse of b1 modulo n. *)
Definition b1_inv : Z := 0x31b1633fc5ab1fcc52b833bb09096f7515ae3b756978bf8c77e177dff9273b38.

Lemma pendo_G : pendo G_point = smul lambda G_point.
Proof.
  rewrite (relation_endo a1 b1 b1_inv n_order G_point G_on_curve relation_sum order_G).
  - apply smul_cong, cong_iff. reflexivity.
  - apply cong_iff. reflexivity.
Qed.

Theorem pendo_lambda k : pendo (smul k G_point) = smul lambda (smul k G_point).
Proof.
  rewrite pendo_smul, pendo_G, !smul_smul by oc. f_equal. apply Z.mul_comm.
Qed.

(** ** Multipliers are determined modulo n *)

Lemma smul_zero_iff k : smul k G_point = Inf <-> k =[n_order]= 0.
Proof.
  split; [|intros H; rewrite (smul_cong _ _ H); reflexivity].
  intros H. destruct (Z.eq_dec (k mod n_order) 0) as [E|E]; [apply cong_iff; exact E|exfalso].
  assert (D : smul (k ^ (n_order - 2) * k) G_point = Inf).
  { rewrite <- smul_smul, H by oc. apply smul_Inf. }
  rewrite (smul_cong _ 1) in D; [discriminate D|].
  replace (k ^ (n_order - 2) * k) with (k ^ (n_order - 1)).
  - apply cong_iff, (ZmodInv.Z.fermat_nz n_order k prime_n E).
  - replace (n_order - 1) with (n_order - 2 + 1) by ring.
    rewrite Z.pow_add_r, Z.pow_1_r by (unfold n_order; lia). reflexivity.
Qed.

Lemma smul_inj j k : smul j G_point = smul k G_point -> j =[n_order]= k.
Proof.
  intros H. assert (E : j - k =[n_order]= 0).
  { apply smul_zero_iff. rewrite <- Z.add_opp_r, smul_add, smul_opp, H by oc.
    apply padd_neg. }
  destruct E as [d E]. exists d. lia.
Qed.
