(* ===== verification/CurveCount.v ===== *)
(** * Every point of the curve is a multiple of G

    An elementary count: at most two points share an abscissa, so there are at
    most 2 p + 1 points; a point outside the group of G would, with its double,
    give three disjoint copies of that group, which is too many; and a point
    whose double is inside the group is itself inside, because no point of the
    curve has order two. *)
From S2P Require Import Prelude Primes FieldSpec Field ScalarSpec Scalar CurveSpec CurveGroup CurveOrder.

(** ** At most 2 p + 1 points *)

Definition point_code (P : point) : Z :=
  match P with Inf => 0 | Aff x y => 2 * x + 1 + b2z (Z.odd y) end.

Lemma opposite_odd y1 y2 : in_fp y1 -> in_fp y2 -> y1 mod p <> 0 -> (y1 + y2) mod p = 0 ->
  Z.odd y2 = negb (Z.odd y1).
Proof.
  intros H1 H2 Hn E. unfold in_fp in *. rewrite Z.mod_small in Hn by lia.
  assert (Ey : y2 = p - y1).
  { apply Z.mod_divide in E; [|discriminate]. destruct E as [q E].
    assert (q = 1) by nia. lia. }
  rewrite Ey, Z.odd_sub. change (Z.odd p) with true. apply xorb_true_l.
Qed.

Lemma point_code_inj P Q : on_curve P -> on_curve Q -> point_code P = point_code Q -> P = Q.
Proof.
  intros HP HQ E. destruct P as [|x1 y1], Q as [|x2 y2]; cbn [point_code] in E.
  - reflexivity.
  - destruct HQ as (H & _). unfold in_fp in H. destruct (Z.odd y2); cbn [b2z] in E; lia.
  - destruct HP as (H & _). unfold in_fp in H. destruct (Z.odd y1); cbn [b2z] in E; lia.
  - assert (Ex : x1 = x2) by (destruct (Z.odd y1), (Z.odd y2); cbn [b2z] in E; lia). subst x2.
    destruct (same_x x1 y1 y2 HP HQ) as [->|Ho]; [reflexivity|].
    pose proof (opposite_odd y1 y2 (proj1 (proj2 HP)) (proj1 (proj2 HQ)) (y_nonzero _ _ HP) Ho) as N.
    rewrite N in E. destruct (Z.odd y1); cbn [b2z negb] in E; lia.
Qed.

Lemma point_code_range P : on_curve P -> 0 <= point_code P <= 2 * p.
Proof.
  destruct P as [|x y]; cbn [point_code]; [unfold p; lia|]. intros (H & _). unfold in_fp in H.
  destruct (Z.odd y); cbn [b2z]; lia.
Qed.

Lemma NoDup_map_on {A B} (f : A -> B) (Q : A -> Prop) l :
  (forall a b, Q a -> Q b -> f a = f b -> a = b) -> Forall Q l -> NoDup l -> NoDup (map f l).
Proof.
  intros Hf HQ. induction 1 as [|a l Ha _ IH]; [constructor|]. inversion HQ; subst. cbn [map].
  constructor; [|now apply IH]. rewrite in_map_iff. intros (b & E & Hb). apply Ha.
  rewrite Forall_forall in *. rewrite <- (Hf b a); auto.
Qed.

Lemma count_below l m : 0 <= m -> NoDup l -> Forall (fun z => 0 <= z < m) l ->
  Z.of_nat (length l) <= m.
Proof.
  intros Hm Hd Hl. assert (E : (length (map Z.to_nat l) <= length (seq 0 (Z.to_nat m)))%nat).
  { apply NoDup_incl_length.
    - apply (NoDup_map_on _ (fun z => 0 <= z < m)); [|exact Hl|exact Hd]. intros a b Ha Hb. lia.
    - intros k Hk. apply in_map_iff in Hk as (z & <- & Hz). apply in_seq.
      rewrite Forall_forall in Hl. specialize (Hl z Hz). lia. }
  rewrite length_map, length_seq in E. lia.
Qed.

Lemma count_points l : NoDup l -> Forall on_curve l -> Z.of_nat (length l) <= 2 * p + 1.
Proof.
  intros Hd Hl. rewrite <- (length_map point_code). apply count_below; [unfold p; lia| |].
  - apply (NoDup_map_on _ on_curve); [exact point_code_inj|exact Hl|exact Hd].
  - apply Forall_map. apply (Forall_impl _ (P := on_curve)); [|exact Hl].
    intros P HP. pose proof (point_code_range P HP). lia.
Qed.

(** ** Cosets of the group of G *)

(** The multiples of G by 0, ..., n - 1. *)
Definition G_multiples (n : nat) : list point := map (fun i => smul (Z.of_nat i) G_point) (seq 0 n).

Lemma in_multiples n P : Z.of_nat n = n_order ->
  In P (G_multiples n) <-> exists k, P = smul k G_point.
Proof.
  intros Hn. unfold G_multiples. rewrite in_map_iff. split.
  - intros (i & <- & _). now exists (Z.of_nat i).
  - intros (k & ->). exists (Z.to_nat (k mod n_order)).
    pose proof (Z.mod_pos_bound k n_order eq_refl) as B. rewrite Z2Nat.id by apply B.
    split; [apply smul_mod|]. apply in_seq. lia.
Qed.

Lemma multiples_curve n : Forall on_curve (G_multiples n).
Proof. apply Forall_map, Forall_forall. intros. oc. Qed.

Lemma multiples_NoDup n : Z.of_nat n = n_order -> NoDup (G_multiples n).
Proof.
  intros Hn. apply (NoDup_map_on _ (fun i => (i < n)%nat)); [| |apply seq_NoDup].
  - intros a b Ha Hb E. apply smul_inj in E. apply Nat2Z.inj.
    apply (cong_small n_order); [exact E|lia|lia].
  - apply Forall_forall. intros i Hi. apply in_seq in Hi. lia.
Qed.

Lemma padd_inj_l P Q R : on_curve P -> on_curve Q -> on_curve R -> padd P Q = padd P R -> Q = R.
Proof.
  intros HP HQ HR E. rewrite <- (padd_cancel_l P Q), E, padd_cancel_l by oc. reflexivity.
Qed.

Lemma coset_NoDup n P : Z.of_nat n = n_order -> on_curve P -> NoDup (map (padd P) (G_multiples n)).
Proof.
  intros Hn HP. apply (NoDup_map_on _ on_curve); [|apply multiples_curve|now apply multiples_NoDup].
  intros Q R HQ HR. apply padd_inj_l; assumption.
Qed.

Lemma coset_curve n P : on_curve P -> Forall on_curve (map (padd P) (G_multiples n)).
Proof.
  intros HP. apply Forall_map. apply (Forall_impl _ (P := on_curve)); [|apply multiples_curve].
  intros Q HQ. oc.
Qed.

(** A common element of two cosets. *)
Lemma coset_meet n P Q R : Z.of_nat n = n_order -> on_curve P -> on_curve Q ->
  In R (map (padd P) (G_multiples n)) -> In R (map (padd (padd P Q)) (G_multiples n)) ->
  exists k, Q = smul k G_point.
Proof.
  intros Hn HP HQ H1 H2. apply in_map_iff in H1 as (A & E1 & HA), H2 as (B & E2 & HB).
  apply (in_multiples n _ Hn) in HA as (i & ->). apply (in_multiples n _ Hn) in HB as (j & ->).
  exists (i - j). rewrite <- E1, padd_assoc in E2 by oc. apply padd_inj_l in E2; [|oc..].
  replace (i - j) with (i + - j) by lia. rewrite smul_add, <- E2, smul_opp by oc.
  symmetry. apply padd_cancel; oc.
Qed.

(** If neither P nor 2 P is a multiple of G there are too many points. *)
Lemma too_many P : on_curve P -> ~ (exists k, P = smul k G_point) ->
  ~ (exists k, padd P P = smul k G_point) -> False.
Proof.
  intros HP N1 N2. assert (Hn : exists n, Z.of_nat n = n_order)
    by (exists (Z.to_nat n_order); apply Z2Nat.id; unfold n_order; lia).
  destruct Hn as [n Hn].
  set (L0 := map (padd Inf) (G_multiples n)). set (L1 := map (padd P) (G_multiples n)).
  set (L2 := map (padd (padd P P)) (G_multiples n)).
  assert (C : Z.of_nat (length (L0 ++ L1 ++ L2)) <= 2 * p + 1).
  { apply count_points.
    - apply NoDup_app; [apply coset_NoDup; [exact Hn|exact I]| |].
      + apply NoDup_app; [now apply coset_NoDup|apply coset_NoDup; [exact Hn|oc]|].
        intros R H1 H2. apply N1. exact (coset_meet n P P R Hn HP HP H1 H2).
      + intros R H0 H. apply in_app_or in H as [H|H].
        * apply N1. exact (coset_meet n Inf P R Hn I HP H0 H).
        * apply N2. exact (coset_meet n Inf (padd P P) R Hn I ltac:(oc) H0 H).
    - rewrite !Forall_app. split; [apply coset_curve; exact I|]. split; apply coset_curve; oc. }
  rewrite !length_app in C. unfold L0, L1, L2 in C. rewrite !length_map in C.
  unfold G_multiples in C. rewrite length_map, length_seq in C. unfold n_order, p in *. lia.
Qed.

(** No point has order two. *)
Lemma no_order_two Q : on_curve Q -> padd Q Q = Inf -> Q = Inf.
Proof.
  intros HQ E. apply padd_inf_iff in E; [|oc..]. destruct Q as [|x y]; [reflexivity|exfalso].
  injection E as E. apply (y_nonzero x y HQ). apply cong_0.
  assert (T : 2 * y =[p]= 0).
  { replace (2 * y) with (y + y) by ring. rewrite E at 2. rewrite cong_mod. apply cong_eq. ring. }
  apply (cancel_l 2); [now vm_compute|]. exact T.
Qed.

(** If 2 P is a multiple of G, so is P. *)
Lemma halve P k : on_curve P -> padd P P = smul k G_point -> exists j, P = smul j G_point.
Proof.
  intros HP E. exists ((n_order + 1) / 2 * k). set (h := (n_order + 1) / 2).
  assert (D : smul (2 * (h * k)) G_point = smul k G_point).
  { apply smul_cong. exists k. unfold h. change ((n_order + 1) / 2 * k) with ((n_order + 1) / 2 * k).
    assert (H2 : 2 * ((n_order + 1) / 2) = n_order + 1) by reflexivity. nia. }
  clearbody h. set (R := smul (h * k) G_point) in *. assert (HR : on_curve R) by (unfold R; oc).
  assert (Z0 : padd P (pneg R) = Inf).
  { apply no_order_two; [oc|]. rewrite padd_assoc, (padd_comm (pneg R)), !padd_assoc by oc.
    rewrite <- (padd_assoc P P), <- pneg_padd, E by oc.
    rewrite <- D, smul_double by oc. apply padd_neg. }
  apply padd_inf_iff in Z0; [|oc..]. apply pneg_inj in Z0; [now symmetry|oc..].
Qed.

(** The group of the curve is generated by G. *)
Theorem all_multiples P : on_curve P -> exists k, 0 <= k < n_order /\ P = smul k G_point.
Proof.
  intros HP. assert (H : exists k, P = smul k G_point).
  { assert (Hn : exists n, Z.of_nat n = n_order)
      by (exists (Z.to_nat n_order); apply Z2Nat.id; unfold n_order; lia).
    destruct Hn as [n Hn].
    destruct (in_dec point_eq_dec P (G_multiples n)) as [H|H]; [now apply (in_multiples n)|].
    destruct (in_dec point_eq_dec (padd P P) (G_multiples n)) as [H2|H2].
    - apply (in_multiples n _ Hn) in H2 as [k Hk]. exact (halve P k HP Hk).
    - exfalso. apply (too_many P HP); intros HK; apply (in_multiples n _ Hn) in HK; contradiction. }
  destruct H as [k ->]. exists (k mod n_order).
  split; [apply Z.mod_pos_bound; reflexivity|]. symmetry. apply smul_mod.
Qed.

(** Only the infinite point is a multiple of n. *)
Lemma finite_multiplier k : smul k G_point <> Inf <-> k mod n_order <> 0.
Proof.
  split; intros H E; apply H.
  - apply smul_zero_iff, cong_iff. exact E.
  - apply smul_zero_iff, cong_iff in E. exact E.
Qed.

(** ** No point of the curve has abscissa 0 *)

(** 7 is not a square: its power of exponent (p - 1) / 2 is not 1. *)
Lemma seven_not_square : 7 ^ ((p - 1) / 2) mod p <> 1.
Proof. apply powmod_ne; [discriminate..|vm_compute; reflexivity]. Qed.

Lemma x_nonzero x y : on_curve (Aff x y) -> x <> 0.
Proof.
  intros (_ & Hy & E) ->. apply seven_not_square.
  assert (E7 : y * y =[p]= 7) by (rewrite E; apply cong_eq; ring).
  assert (Hn : y mod p <> 0).
  { intros H0. apply cong_0 in H0. rewrite H0 in E7. apply cong_iff in E7. discriminate E7. }
  rewrite <- (Z.mod_small 1 p) by (split; reflexivity || discriminate).
  apply cong_iff. transitivity (y ^ (p - 1)); [|exact (fermat_p y Hn)].
  rewrite <- E7. apply cong_eq. replace (y * y) with (y ^ 2) by ring.
  rewrite <- Z.pow_mul_r by (vm_compute; discriminate). f_equal.
Qed.
