(* ===== verification/Sha256Spec.v ===== *)
(** * The standards hash_impl.h implements

    SHA-256 as FIPS 180-4 defines it (word functions, constants from the roots
    of the first primes, message schedule, compression, padding), HMAC (RFC
    2104) over it and the deterministic generator of RFC 6979.  Nothing here is
    taken from the C code: the file is what Hash.v is compared with. *)
From S2P Require Import Prelude.

(** ** FIPS 180-4, sections 2.2.2 and 4.1.2 *)

Definition wadd (x y : Z) : Z := (x + y) mod 2 ^ 32.
Definition ROTR (n x : Z) : Z := x / 2 ^ n + (x mod 2 ^ n) * 2 ^ (32 - n).
Definition SHR (n x : Z) : Z := x / 2 ^ n.

Definition fips_ch (x y z : Z) : Z := (x .& y) .^ (not32 x .& z).
Definition fips_maj (x y z : Z) : Z := ((x .& y) .^ (x .& z)) .^ (y .& z).
Definition fips_Sigma0 (x : Z) : Z := (ROTR 2 x .^ ROTR 13 x) .^ ROTR 22 x.
Definition fips_Sigma1 (x : Z) : Z := (ROTR 6 x .^ ROTR 11 x) .^ ROTR 25 x.
Definition fips_sigma0 (x : Z) : Z := (ROTR 7 x .^ ROTR 18 x) .^ SHR 3 x.
Definition fips_sigma1 (x : Z) : Z := (ROTR 17 x .^ ROTR 19 x) .^ SHR 10 x.

(** ** Section 4.2.2 and 5.3.3: the constants

    The first thirty-two bits of the fractional parts of the cube roots of the
    first sixty-four primes, and of the square roots of the first eight. *)

Definition is_small_prime (n : Z) : bool :=
  forallb (fun d => (n <? d * d) || negb (n mod d =? 0)) (map Z.of_nat (seq 2 16)).

Definition small_primes : list Z :=
  filter is_small_prime (map Z.of_nat (seq 2 310)).

(** The integer cube root, bit by bit from the top. *)
Fixpoint icbrt (k : nat) (acc n : Z) : Z :=
  match k with
  | O => acc
  | S k =>
    let c := acc + 2 ^ Z.of_nat k in
    icbrt k (if c * c * c <=? n then c else acc) n
  end.

Definition cube_frac (q : Z) : Z := icbrt 36 0 (q * 2 ^ 96) mod 2 ^ 32.
Definition sqrt_frac (q : Z) : Z := Z.sqrt (q * 2 ^ 64) mod 2 ^ 32.

Definition K256 : list Z := map cube_frac small_primes.
Definition H256 : list Z := map sqrt_frac (firstn 8 small_primes).

(** ** Section 6.2: schedule and compression *)

(** The next word of the message schedule. *)
Definition next_word (ws : list Z) : Z :=
  let t := length ws in
  wadd (wadd (wadd (fips_sigma1 (nth (t - 2) ws 0)) (nth (t - 7) ws 0))
             (fips_sigma0 (nth (t - 15) ws 0)))
       (nth (t - 16) ws 0).

Definition schedule (n : nat) (block : list Z) : list Z :=
  Nat.iter n (fun ws => ws ++ [next_word ws]) block.

Definition state8 : Type := Z * Z * Z * Z * Z * Z * Z * Z.

Definition fips_round (st : state8) (k w : Z) : state8 :=
  let '(a, b, c, d, e, f, g, h) := st in
  let t1 := wadd (wadd (wadd (wadd h (fips_Sigma1 e)) (fips_ch e f g)) k) w in
  let t2 := wadd (fips_Sigma0 a) (fips_maj a b c) in
  (wadd t1 t2, a, b, c, wadd d t1, e, f, g).

(** [n] rounds from round [t]. *)
Fixpoint fips_rounds (n t : nat) (ws : list Z) (st : state8) : state8 :=
  match n with
  | O => st
  | S n => fips_rounds n (S t) ws (fips_round st (nth t K256 0) (nth t ws 0))
  end.

Definition fips_compress (st : state8) (block : list Z) : state8 :=
  let '(a, b, c, d, e, f, g, h) := fips_rounds 64 0 (schedule 48 block) st in
  let '(a0, b0, c0, d0, e0, f0, g0, h0) := st in
  (wadd a0 a, wadd b0 b, wadd c0 c, wadd d0 d,
   wadd e0 e, wadd f0 f, wadd g0 g, wadd h0 h).

(** ** Sections 5.1 and 5.2: padding and parsing *)

(** The sixteen big-endian words of a block. *)
Definition block_words (blk : bytes) : list Z :=
  map (fun i => be_val (slice blk (4 * i) 4)) (seq 0 16).

(** The first [n] blocks of a byte string folded into a state. *)
Fixpoint absorb (n : nat) (st : state8) (l : bytes) : state8 :=
  match n with
  | O => st
  | S n => absorb n (fips_compress st (block_words (firstn 64 l))) (skipn 64 l)
  end.

(** The smallest number of zero bytes after the 0x80 byte. *)
Definition pad_zeros (len : Z) : Z := (55 - len) mod 64.

Definition fips_pad (m : bytes) : bytes :=
  m ++ [0x80] ++ repeat 0 (Z.to_nat (pad_zeros (Z.of_nat (length m))))
    ++ be_bytes 8 (8 * Z.of_nat (length m)).

Definition state_of_list (l : list Z) : state8 :=
  (nth 0 l 0, nth 1 l 0, nth 2 l 0, nth 3 l 0, nth 4 l 0, nth 5 l 0, nth 6 l 0, nth 7 l 0).

Definition state_bytes (st : state8) : bytes :=
  let '(a, b, c, d, e, f, g, h) := st in
  flat_map (be_bytes 4) [a; b; c; d; e; f; g; h].

Definition fips_sha256 (m : bytes) : bytes :=
  let padded := fips_pad m in
  state_bytes (absorb (length padded / 64) (state_of_list H256) padded).

(** ** RFC 2104 *)

Definition hmac_block (key : bytes) : bytes :=
  let k := if Nat.leb (length key) 64 then key else fips_sha256 key in
  k ++ repeat 0 (64 - length k).

Definition rfc_hmac (key text : bytes) : bytes :=
  let k := hmac_block key in
  fips_sha256 (map (fun b => b .^ 0x5c) k
    ++ fips_sha256 (map (fun b => b .^ 0x36) k ++ text)).

(** ** RFC 6979, section 3.2

    Steps b to g build (K, V) from the seed.  A request runs step h.2 until it
    has enough octets ([drbg_fill], which also gives the V it ends with), keeps
    the leftmost ones and then runs the update of step h.3 ([drbg_update]), so
    that the state is ready for the next request. *)

Definition drbg_seed (seed : bytes) : bytes * bytes :=
  let V := repeat 0x01 32 in
  let K := repeat 0x00 32 in
  let K := rfc_hmac K (V ++ [0x00] ++ seed) in
  let V := rfc_hmac K V in
  let K := rfc_hmac K (V ++ [0x01] ++ seed) in
  let V := rfc_hmac K V in
  (K, V).

Fixpoint drbg_fill (blocks : nat) (K V : bytes) : bytes * bytes :=
  match blocks with
  | O => ([], V)
  | S blocks =>
    let V := rfc_hmac K V in
    let '(T, V') := drbg_fill blocks K V in (V ++ T, V')
  end.

Definition drbg_update (K V : bytes) : bytes * bytes :=
  let K := rfc_hmac K (V ++ [0x00]) in
  (K, rfc_hmac K V).

(** One request of [n] octets: the octets and the next state. *)
Definition drbg_request (st : bytes * bytes) (n : Z) : bytes * (bytes * bytes) :=
  let '(K, V) := st in
  let '(T, V) := drbg_fill (Z.to_nat ((n + 31) / 32)) K V in
  (firstn (Z.to_nat n) T, drbg_update K V).

(** The octets of a sequence of requests. *)
Fixpoint drbg_requests (st : bytes * bytes) (ns : list Z) : list bytes :=
  match ns with
  | [] => []
  | n :: ns => let '(T, st) := drbg_request st n in T :: drbg_requests st ns
  end.

(** ** Facts about the specification *)

Lemma K256_eq : K256 = ltac:(let v := eval vm_compute in K256 in exact v).
Proof. vm_compute. reflexivity. Qed.

Lemma H256_eq : H256 = ltac:(let v := eval vm_compute in H256 in exact v).
Proof. vm_compute. reflexivity. Qed.

Lemma schedule_S n blk :
  schedule (S n) blk = schedule n blk ++ [next_word (schedule n blk)].
Proof. reflexivity. Qed.

Lemma length_schedule n blk : length (schedule n blk) = (n + length blk)%nat.
Proof.
  induction n as [|n IH]; [reflexivity|].
  rewrite schedule_S, length_app, IH. cbn; lia.
Qed.

Lemma nth_schedule_mono n m blk t : (t < n + length blk)%nat -> (n <= m)%nat ->
  nth t (schedule m blk) 0 = nth t (schedule n blk) 0.
Proof.
  intros Ht. induction 1 as [|m Hm IH]; [reflexivity|].
  rewrite schedule_S, app_nth1; [exact IH|]. rewrite length_schedule. lia.
Qed.

(** The recurrence of FIPS 180-4, 6.2.2 step 1. *)
Lemma nth_schedule n blk t : length blk = 16%nat -> (16 <= t < n + 16)%nat ->
  nth t (schedule n blk) 0 =
  wadd (wadd (wadd (fips_sigma1 (nth (t - 2) (schedule n blk) 0))
                   (nth (t - 7) (schedule n blk) 0))
             (fips_sigma0 (nth (t - 15) (schedule n blk) 0)))
       (nth (t - 16) (schedule n blk) 0).
Proof.
  intros Hb Ht. set (k := (t - 16)%nat).
  rewrite (nth_schedule_mono (S k) n blk t) by (subst k; lia).
  rewrite schedule_S, app_nth2 by (rewrite length_schedule; lia).
  rewrite length_schedule. replace (t - (k + length blk))%nat with O by lia.
  cbn [nth]. unfold next_word. rewrite length_schedule.
  replace (k + length blk)%nat with t by lia.
  now rewrite !(nth_schedule_mono k n blk) by lia.
Qed.

Lemma nth_schedule_block n blk t : (t < length blk)%nat ->
  nth t (schedule n blk) 0 = nth t blk 0.
Proof. intros. now rewrite (nth_schedule_mono 0) by lia. Qed.

Lemma absorb_app n m st l1 l2 : length l1 = (64 * n)%nat ->
  absorb (n + m) st (l1 ++ l2) = absorb m (absorb n st l1) l2.
Proof.
  revert st l1; induction n as [|n IH]; intros st l1 H.
  { destruct l1; [reflexivity|cbn in H; lia]. }
  cbn [absorb Nat.add]. rewrite firstn_app, skipn_app.
  replace (64 - length l1)%nat with O by lia. rewrite firstn_O, skipn_O, app_nil_r.
  apply IH. rewrite length_skipn. lia.
Qed.

Lemma absorb_prefix n st l1 l2 : length l1 = (64 * n)%nat ->
  absorb n st (l1 ++ l2) = absorb n st l1.
Proof. intros H. rewrite <- (Nat.add_0_r n) at 1. now rewrite absorb_app. Qed.

Lemma length_state_bytes st : length (state_bytes st) = 32%nat.
Proof.
  destruct st as [[[[[[[a b] c] d] e] f] g] h]. unfold state_bytes. cbn [flat_map].
  now rewrite !length_app, !length_be_bytes.
Qed.

Lemma state_bytes_byte st : Forall is_byte (state_bytes st).
Proof.
  destruct st as [[[[[[[a b] c] d] e] f] g] h]. unfold state_bytes. cbn [flat_map].
  rewrite !Forall_app. repeat split; try apply be_bytes_byte; constructor.
Qed.

Lemma length_fips_sha256 m : length (fips_sha256 m) = 32%nat.
Proof. apply length_state_bytes. Qed.

Lemma fips_sha256_byte m : Forall is_byte (fips_sha256 m).
Proof. apply state_bytes_byte. Qed.

Lemma length_rfc_hmac k m : length (rfc_hmac k m) = 32%nat.
Proof. apply length_state_bytes. Qed.

Lemma rfc_hmac_byte k m : Forall is_byte (rfc_hmac k m).
Proof. apply state_bytes_byte. Qed.

Lemma length_hmac_block k : length (hmac_block k) = 64%nat.
Proof.
  unfold hmac_block. destruct (Nat.leb_spec (length k) 64).
  - rewrite length_app, repeat_length. lia.
  - rewrite length_app, repeat_length, length_fips_sha256. lia.
Qed.
