(* ===== verification/Hash.v ===== *)
(** * hash_impl.h: SHA-256, HMAC-SHA256 and the RFC 6979 generator

    Little-endian configuration (WORDS_BIGENDIAN is not defined): a chunk word
    is loaded least significant byte first and swapped by [BE32].  [size_t] is
    64 bits wide. *)
From S2P Require Import Prelude Sha256Spec.

(** ** The compression function *)

Definition Ch (x y z : Z) : Z := z .^ (x .& (y .^ z)).
Definition Maj (x y z : Z) : Z := (x .& y) .| (z .& (x .| y)).
Definition Sigma0 (x : Z) : Z :=
  (((x >> 2) .| u32 (x << 30)) .^ ((x >> 13) .| u32 (x << 19)))
    .^ ((x >> 22) .| u32 (x << 10)).
Definition Sigma1 (x : Z) : Z :=
  (((x >> 6) .| u32 (x << 26)) .^ ((x >> 11) .| u32 (x << 21)))
    .^ ((x >> 25) .| u32 (x << 7)).
Definition sigma0 (x : Z) : Z :=
  (((x >> 7) .| u32 (x << 25)) .^ ((x >> 18) .| u32 (x << 14))) .^ (x >> 3).
Definition sigma1 (x : Z) : Z :=
  (((x >> 17) .| u32 (x << 15)) .^ ((x >> 19) .| u32 (x << 13))) .^ (x >> 10).

(** The new values of [d] and [h]. *)
Definition Round (a b c d e f g h k w : Z) : Z * Z :=
  let t1 := u32 (u32 (u32 (u32 (h + Sigma1 e) + Ch e f g) + k) + w) in
  let t2 := u32 (Sigma0 a + Maj a b c) in
  (u32 (d + t1), u32 (t1 + t2)).

Definition BE32 (p : Z) : Z :=
  ((u32 ((p .& 0xFF) << 24) .| u32 ((p .& 0xFF00) << 8)) .| ((p .& 0xFF0000) >> 8))
    .| ((p .& 0xFF000000) >> 24).

Definition Z8 : Type := Z * Z * Z * Z * Z * Z * Z * Z.
Definition Z16 : Type :=
  Z * Z * Z * Z * Z * Z * Z * Z * Z * Z * Z * Z * Z * Z * Z * Z.

(** The sixty-four rounds in their four blocks of sixteen. *)

Definition sha256_rounds_0 (st : Z8) (chunk : list Z) : Z8 * Z16 :=
  let '(a, b, c, d, e, f, g, h) := st in
  let w0 := BE32 (nth 0 chunk 0) in
  let '(d, h) := Round a b c d e f g h 0x428a2f98 w0 in
  let w1 := BE32 (nth 1 chunk 0) in
  let '(c, g) := Round h a b c d e f g 0x71374491 w1 in
  let w2 := BE32 (nth 2 chunk 0) in
  let '(b, f) := Round g h a b c d e f 0xb5c0fbcf w2 in
  let w3 := BE32 (nth 3 chunk 0) in
  let '(a, e) := Round f g h a b c d e 0xe9b5dba5 w3 in
  let w4 := BE32 (nth 4 chunk 0) in
  let '(h, d) := Round e f g h a b c d 0x3956c25b w4 in
  let w5 := BE32 (nth 5 chunk 0) in
  let '(g, c) := Round d e f g h a b c 0x59f111f1 w5 in
  let w6 := BE32 (nth 6 chunk 0) in
  let '(f, b) := Round c d e f g h a b 0x923f82a4 w6 in
  let w7 := BE32 (nth 7 chunk 0) in
  let '(e, a) := Round b c d e f g h a 0xab1c5ed5 w7 in
  let w8 := BE32 (nth 8 chunk 0) in
  let '(d, h) := Round a b c d e f g h 0xd807aa98 w8 in
  let w9 := BE32 (nth 9 chunk 0) in
  let '(c, g) := Round h a b c d e f g 0x12835b01 w9 in
  let w10 := BE32 (nth 10 chunk 0) in
  let '(b, f) := Round g h a b c d e f 0x243185be w10 in
  let w11 := BE32 (nth 11 chunk 0) in
  let '(a, e) := Round f g h a b c d e 0x550c7dc3 w11 in
  let w12 := BE32 (nth 12 chunk 0) in
  let '(h, d) := Round e f g h a b c d 0x72be5d74 w12 in
  let w13 := BE32 (nth 13 chunk 0) in
  let '(g, c) := Round d e f g h a b c 0x80deb1fe w13 in
  let w14 := BE32 (nth 14 chunk 0) in
  let '(f, b) := Round c d e f g h a b 0x9bdc06a7 w14 in
  let w15 := BE32 (nth 15 chunk 0) in
  let '(e, a) := Round b c d e f g h a 0xc19bf174 w15 in
  ((a, b, c, d, e, f, g, h),
   (w0, w1, w2, w3, w4, w5, w6, w7, w8, w9, w10, w11, w12, w13, w14, w15)).

Definition sha256_rounds_1 (st : Z8) (ws : Z16) : Z8 * Z16 :=
  let '(a, b, c, d, e, f, g, h) := st in
  let '(w0, w1, w2, w3, w4, w5, w6, w7, w8, w9, w10, w11, w12, w13, w14, w15) := ws in
  let w0 := u32 (w0 + u32 (u32 (sigma1 w14 + w9) + sigma0 w1)) in
  let '(d, h) := Round a b c d e f g h 0xe49b69c1 w0 in
  let w1 := u32 (w1 + u32 (u32 (sigma1 w15 + w10) + sigma0 w2)) in
  let '(c, g) := Round h a b c d e f g 0xefbe4786 w1 in
  let w2 := u32 (w2 + u32 (u32 (sigma1 w0 + w11) + sigma0 w3)) in
  let '(b, f) := Round g h a b c d e f 0x0fc19dc6 w2 in
  let w3 := u32 (w3 + u32 (u32 (sigma1 w1 + w12) + sigma0 w4)) in
  let '(a, e) := Round f g h a b c d e 0x240ca1cc w3 in
  let w4 := u32 (w4 + u32 (u32 (sigma1 w2 + w13) + sigma0 w5)) in
  let '(h, d) := Round e f g h a b c d 0x2de92c6f w4 in
  let w5 := u32 (w5 + u32 (u32 (sigma1 w3 + w14) + sigma0 w6)) in
  let '(g, c) := Round d e f g h a b c 0x4a7484aa w5 in
  let w6 := u32 (w6 + u32 (u32 (sigma1 w4 + w15) + sigma0 w7)) in
  let '(f, b) := Round c d e f g h a b 0x5cb0a9dc w6 in
  let w7 := u32 (w7 + u32 (u32 (sigma1 w5 + w0) + sigma0 w8)) in
  let '(e, a) := Round b c d e f g h a 0x76f988da w7 in
  let w8 := u32 (w8 + u32 (u32 (sigma1 w6 + w1) + sigma0 w9)) in
  let '(d, h) := Round a b c d e f g h 0x983e5152 w8 in
  let w9 := u32 (w9 + u32 (u32 (sigma1 w7 + w2) + sigma0 w10)) in
  let '(c, g) := Round h a b c d e f g 0xa831c66d w9 in
  let w10 := u32 (w10 + u32 (u32 (sigma1 w8 + w3) + sigma0 w11)) in
  let '(b, f) := Round g h a b c d e f 0xb00327c8 w10 in
  let w11 := u32 (w11 + u32 (u32 (sigma1 w9 + w4) + sigma0 w12)) in
  let '(a, e) := Round f g h a b c d e 0xbf597fc7 w11 in
  let w12 := u32 (w12 + u32 (u32 (sigma1 w10 + w5) + sigma0 w13)) in
  let '(h, d) := Round e f g h a b c d 0xc6e00bf3 w12 in
  let w13 := u32 (w13 + u32 (u32 (sigma1 w11 + w6) + sigma0 w14)) in
  let '(g, c) := Round d e f g h a b c 0xd5a79147 w13 in
  let w14 := u32 (w14 + u32 (u32 (sigma1 w12 + w7) + sigma0 w15)) in
  let '(f, b) := Round c d e f g h a b 0x06ca6351 w14 in
  let w15 := u32 (w15 + u32 (u32 (sigma1 w13 + w8) + sigma0 w0)) in
  let '(e, a) := Round b c d e f g h a 0x14292967 w15 in
  ((a, b, c, d, e, f, g, h),
   (w0, w1, w2, w3, w4, w5, w6, w7, w8, w9, w10, w11, w12, w13, w14, w15)).

Definition sha256_rounds_2 (st : Z8) (ws : Z16) : Z8 * Z16 :=
  let '(a, b, c, d, e, f, g, h) := st in
  let '(w0, w1, w2, w3, w4, w5, w6, w7, w8, w9, w10, w11, w12, w13, w14, w15) := ws in
  let w0 := u32 (w0 + u32 (u32 (sigma1 w14 + w9) + sigma0 w1)) in
  let '(d, h) := Round a b c d e f g h 0x27b70a85 w0 in
  let w1 := u32 (w1 + u32 (u32 (sigma1 w15 + w10) + sigma0 w2)) in
  let '(c, g) := Round h a b c d e f g 0x2e1b2138 w1 in
  let w2 := u32 (w2 + u32 (u32 (sigma1 w0 + w11) + sigma0 w3)) in
  let '(b, f) := Round g h a b c d e f 0x4d2c6dfc w2 in
  let w3 := u32 (w3 + u32 (u32 (sigma1 w1 + w12) + sigma0 w4)) in
  let '(a, e) := Round f g h a b c d e 0x53380d13 w3 in
  let w4 := u32 (w4 + u32 (u32 (sigma1 w2 + w13) + sigma0 w5)) in
  let '(h, d) := Round e f g h a b c d 0x650a7354 w4 in
  let w5 := u32 (w5 + u32 (u32 (sigma1 w3 + w14) + sigma0 w6)) in
  let '(g, c) := Round d e f g h a b c 0x766a0abb w5 in
  let w6 := u32 (w6 + u32 (u32 (sigma1 w4 + w15) + sigma0 w7)) in
  let '(f, b) := Round c d e f g h a b 0x81c2c92e w6 in
  let w7 := u32 (w7 + u32 (u32 (sigma1 w5 + w0) + sigma0 w8)) in
  let '(e, a) := Round b c d e f g h a 0x92722c85 w7 in
  let w8 := u32 (w8 + u32 (u32 (sigma1 w6 + w1) + sigma0 w9)) in
  let '(d, h) := Round a b c d e f g h 0xa2bfe8a1 w8 in
  let w9 := u32 (w9 + u32 (u32 (sigma1 w7 + w2) + sigma0 w10)) in
  let '(c, g) := Round h a b c d e f g 0xa81a664b w9 in
  let w10 := u32 (w10 + u32 (u32 (sigma1 w8 + w3) + sigma0 w11)) in
  let '(b, f) := Round g h a b c d e f 0xc24b8b70 w10 in
  let w11 := u32 (w11 + u32 (u32 (sigma1 w9 + w4) + sigma0 w12)) in
  let '(a, e) := Round f g h a b c d e 0xc76c51a3 w11 in
  let w12 := u32 (w12 + u32 (u32 (sigma1 w10 + w5) + sigma0 w13)) in
  let '(h, d) := Round e f g h a b c d 0xd192e819 w12 in
  let w13 := u32 (w13 + u32 (u32 (sigma1 w11 + w6) + sigma0 w14)) in
  let '(g, c) := Round d e f g h a b c 0xd6990624 w13 in
  let w14 := u32 (w14 + u32 (u32 (sigma1 w12 + w7) + sigma0 w15)) in
  let '(f, b) := Round c d e f g h a b 0xf40e3585 w14 in
  let w15 := u32 (w15 + u32 (u32 (sigma1 w13 + w8) + sigma0 w0)) in
  let '(e, a) := Round b c d e f g h a 0x106aa070 w15 in
  ((a, b, c, d, e, f, g, h),
   (w0, w1, w2, w3, w4, w5, w6, w7, w8, w9, w10, w11, w12, w13, w14, w15)).

Definition sha256_rounds_3 (st : Z8) (ws : Z16) : Z8 :=
  let '(a, b, c, d, e, f, g, h) := st in
  let '(w0, w1, w2, w3, w4, w5, w6, w7, w8, w9, w10, w11, w12, w13, w14, w15) := ws in
  let w0 := u32 (w0 + u32 (u32 (sigma1 w14 + w9) + sigma0 w1)) in
  let '(d, h) := Round a b c d e f g h 0x19a4c116 w0 in
  let w1 := u32 (w1 + u32 (u32 (sigma1 w15 + w10) + sigma0 w2)) in
  let '(c, g) := Round h a b c d e f g 0x1e376c08 w1 in
  let w2 := u32 (w2 + u32 (u32 (sigma1 w0 + w11) + sigma0 w3)) in
  let '(b, f) := Round g h a b c d e f 0x2748774c w2 in
  let w3 := u32 (w3 + u32 (u32 (sigma1 w1 + w12) + sigma0 w4)) in
  let '(a, e) := Round f g h a b c d e 0x34b0bcb5 w3 in
  let w4 := u32 (w4 + u32 (u32 (sigma1 w2 + w13) + sigma0 w5)) in
  let '(h, d) := Round e f g h a b c d 0x391c0cb3 w4 in
  let w5 := u32 (w5 + u32 (u32 (sigma1 w3 + w14) + sigma0 w6)) in
  let '(g, c) := Round d e f g h a b c 0x4ed8aa4a w5 in
  let w6 := u32 (w6 + u32 (u32 (sigma1 w4 + w15) + sigma0 w7)) in
  let '(f, b) := Round c d e f g h a b 0x5b9cca4f w6 in
  let w7 := u32 (w7 + u32 (u32 (sigma1 w5 + w0) + sigma0 w8)) in
  let '(e, a) := Round b c d e f g h a 0x682e6ff3 w7 in
  let w8 := u32 (w8 + u32 (u32 (sigma1 w6 + w1) + sigma0 w9)) in
  let '(d, h) := Round a b c d e f g h 0x748f82ee w8 in
  let w9 := u32 (w9 + u32 (u32 (sigma1 w7 + w2) + sigma0 w10)) in
  let '(c, g) := Round h a b c d e f g 0x78a5636f w9 in
  let w10 := u32 (w10 + u32 (u32 (sigma1 w8 + w3) + sigma0 w11)) in
  let '(b, f) := Round g h a b c d e f 0x84c87814 w10 in
  let w11 := u32 (w11 + u32 (u32 (sigma1 w9 + w4) + sigma0 w12)) in
  let '(a, e) := Round f g h a b c d e 0x8cc70208 w11 in
  let w12 := u32 (w12 + u32 (u32 (sigma1 w10 + w5) + sigma0 w13)) in
  let '(h, d) := Round e f g h a b c d 0x90befffa w12 in
  let w13 := u32 (w13 + u32 (u32 (sigma1 w11 + w6) + sigma0 w14)) in
  let '(g, c) := Round d e f g h a b c 0xa4506ceb w13 in
  let '(f, b) := Round c d e f g h a b 0xbef9a3f7 (u32 (u32 (u32 (w14 + sigma1 w12) + w7) + sigma0 w15)) in
  let '(e, a) := Round b c d e f g h a 0xc67178f2 (u32 (u32 (u32 (w15 + sigma1 w13) + w8) + sigma0 w0)) in
  (a, b, c, d, e, f, g, h).

Definition secp256k1_sha256_transform (s : Z8) (chunk : list Z) : Z8 :=
  let '(st, w) := sha256_rounds_0 s chunk in
  let '(st, w) := sha256_rounds_1 st w in
  let '(st, w) := sha256_rounds_2 st w in
  let '(a, b, c, d, e, f, g, h) := sha256_rounds_3 st w in
  let '(s0, s1, s2, s3, s4, s5, s6, s7) := s in
  (u32 (s0 + a), u32 (s1 + b), u32 (s2 + c), u32 (s3 + d),
   u32 (s4 + e), u32 (s5 + f), u32 (s6 + g), u32 (s7 + h)).

(** ** The streaming interface *)

(** [secp256k1_sha256_t]; [sha_buf] is the 64-byte buffer as bytes. *)
Record sha256_t := Sha { sha_s : Z8; sha_buf : bytes; sha_bytes : Z }.

(** [memcpy(buf + off, src, length src)]. *)
Definition overwrite (buf : bytes) (off : nat) (src : bytes) : bytes :=
  firstn off buf ++ src ++ skipn (off + length src) buf.

(** A host (little-endian) load of word [i] of the buffer. *)
Definition load32 (buf : bytes) (i : nat) : Z :=
  nth (4 * i) buf 0 + nth (4 * i + 1) buf 0 * 2 ^ 8
  + nth (4 * i + 2) buf 0 * 2 ^ 16 + nth (4 * i + 3) buf 0 * 2 ^ 24.

Definition chunk_of (buf : bytes) : list Z := map (load32 buf) (seq 0 16).

(** A host store of a word. *)
Definition store32 (x : Z) : bytes :=
  [x mod 256; (x / 2 ^ 8) mod 256; (x / 2 ^ 16) mod 256; (x / 2 ^ 24) mod 256].

Definition sha256_init_state : Z8 :=
  (0x6a09e667, 0xbb67ae85, 0x3c6ef372, 0xa54ff53a,
   0x510e527f, 0x9b05688c, 0x1f83d9ab, 0x5be0cd19).

(** Initialisation leaves the buffer as it is. *)
Definition secp256k1_sha256_initialize (hash : sha256_t) : sha256_t :=
  Sha sha256_init_state (sha_buf hash) 0.

(** The [while] loop of [secp256k1_sha256_write]: every turn consumes at least
    one byte of [data]. *)
Fixpoint write_loop (fuel : nat) (hash : sha256_t) (bufsize : nat) (data : bytes)
    : sha256_t * nat * bytes :=
  match fuel with
  | O => (hash, bufsize, data)
  | S fuel =>
    if Nat.leb 64 (bufsize + length data) then
      let buf := overwrite (sha_buf hash) bufsize (firstn (64 - bufsize) data) in
      let data := skipn (64 - bufsize) data in
      let s := secp256k1_sha256_transform (sha_s hash) (chunk_of buf) in
      write_loop fuel (Sha s buf (sha_bytes hash)) 0 data
    else (hash, bufsize, data)
  end.

Definition secp256k1_sha256_write (hash : sha256_t) (data : bytes) : sha256_t :=
  let bufsize := Z.to_nat (sha_bytes hash .& 0x3F) in
  let hash := Sha (sha_s hash) (sha_buf hash)
                  (u64 (sha_bytes hash + Z.of_nat (length data))) in
  let '(hash, bufsize, data) := write_loop (S (length data)) hash bufsize data in
  match data with
  | [] => hash
  | _ => Sha (sha_s hash) (overwrite (sha_buf hash) bufsize data) (sha_bytes hash)
  end.

Definition sha256_pad : bytes := 0x80 :: repeat 0 63.

(** The digest, and the state with the words cleared. *)
Definition secp256k1_sha256_finalize (hash : sha256_t) : sha256_t * bytes :=
  let sizedesc := store32 (BE32 (sha_bytes hash >> 29))
                  ++ store32 (BE32 (u64 (sha_bytes hash << 3))) in
  let hash := secp256k1_sha256_write hash
    (firstn (Z.to_nat (1 + (119 - sha_bytes hash mod 64) mod 64)) sha256_pad) in
  let hash := secp256k1_sha256_write hash sizedesc in
  let '(s0, s1, s2, s3, s4, s5, s6, s7) := sha_s hash in
  (Sha (0, 0, 0, 0, 0, 0, 0, 0) (sha_buf hash) (sha_bytes hash),
   flat_map (fun x => store32 (BE32 x)) [s0; s1; s2; s3; s4; s5; s6; s7]).

(** ** HMAC *)

Record hmac_sha256_t := Hmac { inner : sha256_t; outer : sha256_t }.

Definition secp256k1_hmac_sha256_initialize (hash : hmac_sha256_t) (key : bytes)
    (scratch : sha256_t) : hmac_sha256_t :=
  let rkey :=
    if Nat.leb (length key) 64 then key ++ repeat 0 (64 - length key)
    else
      let sha256 := secp256k1_sha256_initialize scratch in
      let sha256 := secp256k1_sha256_write sha256 key in
      snd (secp256k1_sha256_finalize sha256) ++ repeat 0 32 in
  let outer := secp256k1_sha256_initialize (outer hash) in
  let rkey := map (fun b => b .^ 0x5c) rkey in
  let outer := secp256k1_sha256_write outer rkey in
  let inner := secp256k1_sha256_initialize (inner hash) in
  let rkey := map (fun b => b .^ (0x5c .^ 0x36)) rkey in
  let inner := secp256k1_sha256_write inner rkey in
  Hmac inner outer.

Definition secp256k1_hmac_sha256_write (hash : hmac_sha256_t) (data : bytes) : hmac_sha256_t :=
  Hmac (secp256k1_sha256_write (inner hash) data) (outer hash).

Definition secp256k1_hmac_sha256_finalize (hash : hmac_sha256_t) : hmac_sha256_t * bytes :=
  let '(inner, temp) := secp256k1_sha256_finalize (inner hash) in
  let outer := secp256k1_sha256_write (outer hash) temp in
  let '(outer, out32) := secp256k1_sha256_finalize outer in
  (Hmac inner outer, out32).

(** ** The RFC 6979 generator *)

Record rfc6979_t := Rfc { rng_v : bytes; rng_k : bytes; rng_retry : bool }.

Section Rfc.
(** The uninitialised stack objects of the C functions. *)
Variable hmac0 : hmac_sha256_t.
Variable scratch : sha256_t.

(** One keyed digest of a list of consecutive writes. *)
Definition hmac_call (key : bytes) (writes : list bytes) : bytes :=
  let hmac := secp256k1_hmac_sha256_initialize hmac0 key scratch in
  let hmac := fold_left secp256k1_hmac_sha256_write writes hmac in
  snd (secp256k1_hmac_sha256_finalize hmac).

Definition secp256k1_rfc6979_hmac_sha256_initialize (key : bytes) : rfc6979_t :=
  let v := repeat 1 32 in
  let k := repeat 0 32 in
  let k := hmac_call k [v; [0]; key] in
  let v := hmac_call k [v] in
  let k := hmac_call k [v; [1]; key] in
  let v := hmac_call k [v] in
  Rfc v k false.

(** The [while (outlen > 0)] loop: each turn emits up to 32 bytes.  [outlen] is
    a [size_t] and [now] an [int]: the conversion keeps the value below 2^31,
    the domain of the theorems (every caller asks for 32 bytes); from there on
    the [memcpy] may get a negative length, which C leaves undefined. *)
Fixpoint generate_loop (fuel : nat) (k v : bytes) (outlen : Z) : bytes * bytes :=
  match fuel with
  | O => (v, [])
  | S fuel =>
    if outlen >? 0 then
      let now := s32 outlen in
      let v := hmac_call k [v] in
      let now := if now >? 32 then 32 else now in
      let '(v', out) := generate_loop fuel k v (u64 (outlen - now)) in
      (v', firstn (Z.to_nat now) v ++ out)
    else (v, [])
  end.

Definition secp256k1_rfc6979_hmac_sha256_generate (rng : rfc6979_t) (outlen : Z)
    : rfc6979_t * bytes :=
  let '(k, v) :=
    if rng_retry rng then
      let k := hmac_call (rng_k rng) [rng_v rng; [0]] in
      (k, hmac_call k [rng_v rng])
    else (rng_k rng, rng_v rng) in
  let '(v, out) := generate_loop (S (Z.to_nat outlen)) k v outlen in
  (Rfc v k true, out).

Definition secp256k1_rfc6979_hmac_sha256_finalize (rng : rfc6979_t) : rfc6979_t :=
  Rfc (repeat 0 32) (repeat 0 32) false.
End Rfc.

Definition blank_sha : sha256_t := Sha (0, 0, 0, 0, 0, 0, 0, 0) (repeat 0 64) 0.

Definition sha256 (m : bytes) : bytes :=
  snd (secp256k1_sha256_finalize
         (secp256k1_sha256_write (secp256k1_sha256_initialize blank_sha) m)).

(** * Theorems

    ** The word functions *)

Definition is_word (x : Z) : Prop := 0 <= x < 2 ^ 32.

Lemma u32_word x : is_word (u32 x).
Proof. apply Z.mod_pos_bound. lia. Qed.

Lemma rotr_or n x : 0 <= n <= 32 -> is_word x ->
  (x >> n) .| u32 (x << (32 - n)) = ROTR n x.
Proof.
  intros Hn [H0 H1]. unfold ROTR, u32. change 0x100000000 with (2 ^ 32).
  rewrite shl_trunc by lia. replace (32 - (32 - n)) with n by lia.
  rewrite Z.shiftr_div_pow2 by lia. apply lor_join; [lia|].
  split; [apply Z.div_pos; lia|]. apply Z.div_lt_upper_bound; [lia|].
  rewrite <- Z.pow_add_r by lia. replace (n + (32 - n)) with 32 by lia. exact H1.
Qed.

Ltac rot := match goal with |- context [(?x >> ?n) .| u32 (?x << ?m)] =>
  change m with (32 - n); rewrite (rotr_or n x) by (lia || assumption) end.

Lemma Sigma0_spec x : is_word x -> Sigma0 x = fips_Sigma0 x.
Proof. intros. unfold Sigma0. now do 3 rot. Qed.
Lemma Sigma1_spec x : is_word x -> Sigma1 x = fips_Sigma1 x.
Proof. intros. unfold Sigma1. now do 3 rot. Qed.
Lemma sigma0_spec x : is_word x -> sigma0 x = fips_sigma0 x.
Proof. intros. unfold sigma0. do 2 rot. now rewrite Z.shiftr_div_pow2. Qed.
Lemma sigma1_spec x : is_word x -> sigma1 x = fips_sigma1 x.
Proof. intros. unfold sigma1. do 2 rot. now rewrite Z.shiftr_div_pow2. Qed.

Lemma not32_testbit x i : is_word x -> 0 <= i < 32 ->
  Z.testbit (not32 x) i = negb (Z.testbit x i).
Proof.
  intros [H0 H1] Hi. unfold not32.
  replace (0xFFFFFFFF - x) with ((Z.lnot x) + 1 * 2 ^ 32) by (unfold Z.lnot; lia).
  rewrite <- (Z.mod_pow2_bits_low _ 32) by lia.
  rewrite Z_mod_plus_full, Z.mod_pow2_bits_low by lia. apply Z.lnot_spec; lia.
Qed.

Lemma Ch_spec x y z : is_word x -> is_word y -> is_word z -> Ch x y z = fips_ch x y z.
Proof.
  intros Hx Hy Hz. unfold Ch, fips_ch. apply Z.bits_inj'. intros i Hi.
  rewrite !Z.lxor_spec, !Z.land_spec, Z.lxor_spec.
  destruct (Z.lt_ge_cases i 32).
  - rewrite not32_testbit by (assumption || lia).
    now destruct (Z.testbit x i), (Z.testbit y i), (Z.testbit z i).
  - rewrite (testbit_above x 32), (testbit_above y 32), (testbit_above z 32)
      by (assumption || lia). now destruct (Z.testbit (not32 x) i).
Qed.

Lemma Maj_spec x y z : Maj x y z = fips_maj x y z.
Proof.
  unfold Maj, fips_maj. apply Z.bits_inj'. intros i Hi.
  rewrite !Z.lxor_spec, Z.lor_spec, !Z.land_spec, Z.lor_spec.
  now destruct (Z.testbit x i), (Z.testbit y i), (Z.testbit z i).
Qed.

(** ** The sixty-four rounds *)

Definition words8 (st : Z8) : Prop :=
  let '(a, b, c, d, e, f, g, h) := st in
  is_word a /\ is_word b /\ is_word c /\ is_word d /\
  is_word e /\ is_word f /\ is_word g /\ is_word h.

(** The code's [Round] with the renaming of its arguments made explicit. *)
Definition code_round (st : Z8) (k w : Z) : Z8 :=
  let '(a, b, c, d, e, f, g, h) := st in
  let '(d, h) := Round a b c d e f g h k w in (h, a, b, c, d, e, f, g).

Fixpoint code_rounds (n t : nat) (W : list Z) (st : Z8) : Z8 :=
  match n with
  | O => st
  | S n => code_rounds n (S t) W (code_round st (nth t K256 0) (nth t W 0))
  end.

Lemma code_round_words st k w : words8 st -> words8 (code_round st k w).
Proof.
  destruct st as [[[[[[[a b] c] d] e] f] g] h]. cbn. intros. intuition; apply u32_word.
Qed.

Lemma code_round_spec st k w : words8 st -> code_round st k w = fips_round st k w.
Proof.
  destruct st as [[[[[[[a b] c] d] e] f] g] h].
  intros (Ha & Hb & Hc & Hd & He & Hf & Hg & Hh).
  unfold code_round, fips_round, Round.
  rewrite Sigma1_spec, Ch_spec, Sigma0_spec, Maj_spec by assumption. reflexivity.
Qed.

Lemma code_rounds_spec n t W st : words8 st ->
  code_rounds n t W st = fips_rounds n t W st /\ words8 (code_rounds n t W st).
Proof.
  revert t st; induction n as [|n IH]; intros t st H; [now split|].
  cbn [code_rounds fips_rounds]. rewrite <- code_round_spec by exact H.
  apply IH, code_round_words, H.
Qed.

Lemma code_rounds_add n m t W st :
  code_rounds (n + m) t W st = code_rounds m (t + n) W (code_rounds n t W st).
Proof.
  revert t st; induction n as [|n IH]; intros t st; cbn [code_rounds Nat.add].
  - now rewrite Nat.add_0_r.
  - rewrite IH. f_equal. lia.
Qed.

Definition block16 (W : list Z) (t : nat) : Z16 :=
  (nth t W 0, nth (t + 1) W 0, nth (t + 2) W 0, nth (t + 3) W 0,
   nth (t + 4) W 0, nth (t + 5) W 0, nth (t + 6) W 0, nth (t + 7) W 0,
   nth (t + 8) W 0, nth (t + 9) W 0, nth (t + 10) W 0, nth (t + 11) W 0,
   nth (t + 12) W 0, nth (t + 13) W 0, nth (t + 14) W 0, nth (t + 15) W 0).

(** The recurrence of the schedule, as the code groups the additions. *)
Definition schedule_law (W : list Z) : Prop := forall t, (16 <= t < 64)%nat ->
  nth t W 0 = u32 (nth (t - 16) W 0 + u32 (u32 (sigma1 (nth (t - 2) W 0)
    + nth (t - 7) W 0) + sigma0 (nth (t - 15) W 0))).

Lemma schedule_law_late W t : schedule_law W -> (16 <= t < 64)%nat ->
  nth t W 0 = u32 (u32 (u32 (nth (t - 16) W 0 + sigma1 (nth (t - 2) W 0))
    + nth (t - 7) W 0) + sigma0 (nth (t - 15) W 0)).
Proof.
  intros H Ht. rewrite (H t Ht). unfold u32. apply cong_iff.
  rewrite !cong_mod. apply cong_eq. ring.
Qed.

(** One round of the code against one step of [code_rounds]: the message word
    is the next word of [W], the constant is the next one of [K256]. *)
Lemma code_rounds_step n t W a b c d e f g h k w :
  k = nth t K256 0 -> w = nth t W 0 ->
  code_rounds (S n) t W (a, b, c, d, e, f, g, h)
  = let '(d, h) := Round a b c d e f g h k w in
    code_rounds n (S t) W (h, a, b, c, d, e, f, g).
Proof. intros -> ->. cbn [code_rounds code_round]. now destruct (Round _ _ _ _ _ _ _ _ _ _). Qed.

Lemma let_as {A B} (e v : A) (body : A -> B) r :
  v = e -> body v = r -> (let w := e in body w) = r.
Proof. now intros <-. Qed.

Ltac round_step law :=
  lazymatch goal with
  | |- (let w := ?e in @?body w) = (code_rounds _ ?t ?W _, _) =>
      apply (let_as e (nth t W 0) body); [law t | cbv beta]
  | _ => idtac
  end;
  lazymatch goal with
  | |- match Round ?a ?b ?c ?d ?e ?f ?g ?h ?k ?w with _ => _ end
       = (code_rounds (S ?n) ?t ?W (?a, ?b, ?c, ?d, ?e, ?f, ?g, ?h), _) =>
      rewrite (code_rounds_step n t W a b c d e f g h k w);
      [ destruct (Round a b c d e f g h k w); cbv beta iota
      | rewrite K256_eq; reflexivity
      | try reflexivity; symmetry; law t ]
  end.

Lemma rounds_0_spec st chunk W :
  (forall i, (i < 16)%nat -> nth i W 0 = BE32 (nth i chunk 0)) ->
  sha256_rounds_0 st chunk = (code_rounds 16 0 W st, block16 W 0).
Proof.
  intros HW. destruct st as [[[[[[[a b] c] d] e] f] g] h].
  cbv beta iota delta [sha256_rounds_0].
  do 16 round_step ltac:(fun t => apply (HW t); lia). reflexivity.
Qed.

Lemma rounds_1_spec st W : schedule_law W ->
  sha256_rounds_1 st (block16 W 0) = (code_rounds 16 16 W st, block16 W 16).
Proof.
  intros HW. destruct st as [[[[[[[a b] c] d] e] f] g] h].
  cbv beta iota delta [sha256_rounds_1 block16].
  do 16 round_step ltac:(fun t => apply (HW t); lia). reflexivity.
Qed.

Lemma rounds_2_spec st W : schedule_law W ->
  sha256_rounds_2 st (block16 W 16) = (code_rounds 16 32 W st, block16 W 32).
Proof.
  intros HW. destruct st as [[[[[[[a b] c] d] e] f] g] h].
  cbv beta iota delta [sha256_rounds_2 block16].
  do 16 round_step ltac:(fun t => apply (HW t); lia). reflexivity.
Qed.

Ltac round_step_last law :=
  lazymatch goal with
  | |- match Round ?a ?b ?c ?d ?e ?f ?g ?h ?k ?w with _ => _ end
       = code_rounds (S ?n) ?t ?W (?a, ?b, ?c, ?d, ?e, ?f, ?g, ?h) =>
      rewrite (code_rounds_step n t W a b c d e f g h k w);
      [ destruct (Round a b c d e f g h k w); cbv beta iota
      | rewrite K256_eq; reflexivity
      | try reflexivity; symmetry; law t ]
  end.

Lemma rounds_3_spec st W : schedule_law W ->
  sha256_rounds_3 st (block16 W 32) = code_rounds 16 48 W st.
Proof.
  intros HW. destruct st as [[[[[[[a b] c] d] e] f] g] h].
  cbv beta iota delta [sha256_rounds_3 block16].
  do 14 (lazymatch goal with
    | |- (let w := ?e in @?body w) = code_rounds _ ?t ?W _ =>
      apply (let_as e (nth t W 0) body); [apply (HW t); lia | cbv beta]
    end; round_step_last ltac:(fun t => apply (HW t); lia)).
  do 2 round_step_last ltac:(fun t => apply (schedule_law_late W t); [exact HW | lia]).
  reflexivity.
Qed.

Lemma wadd_u32 x y : wadd x y = u32 (x + y).
Proof. reflexivity. Qed.

Lemma wadd_word x y : is_word (wadd x y).
Proof. apply Z.mod_pos_bound. lia. Qed.

Lemma schedule_is_law blk : length blk = 16%nat -> Forall is_word blk ->
  schedule_law (schedule 48 blk).
Proof.
  intros Hl Hw.
  assert (W : forall t, (t < 64)%nat -> is_word (nth t (schedule 48 blk) 0)).
  { intros t Ht. destruct (Nat.lt_ge_cases t 16).
    - rewrite nth_schedule_block by lia. apply Forall_nth; [exact Hw|lia].
    - rewrite nth_schedule by (assumption || lia). apply wadd_word. }
  intros t Ht. rewrite nth_schedule, sigma1_spec, sigma0_spec
    by (assumption || lia || apply W; lia).
  rewrite !wadd_u32. unfold u32. apply cong_iff. rewrite !cong_mod.
  repeat match goal with |- context [nth ?a ?b 0] => generalize (nth a b 0); intro end.
  apply cong_eq. ring.
Qed.

Lemma transform_spec s chunk blk : words8 s ->
  length blk = 16%nat -> Forall is_word blk ->
  (forall i, (i < 16)%nat -> BE32 (nth i chunk 0) = nth i blk 0) ->
  secp256k1_sha256_transform s chunk = fips_compress s blk.
Proof.
  intros Hs Hl Hw HB. unfold secp256k1_sha256_transform, fips_compress.
  pose proof (schedule_is_law blk Hl Hw) as HW.
  set (W := schedule 48 blk) in *.
  rewrite (rounds_0_spec s chunk W).
  2:{ intros i Hi. rewrite HB by exact Hi. apply nth_schedule_block. lia. }
  rewrite rounds_1_spec, rounds_2_spec, rounds_3_spec by exact HW.
  rewrite <- (proj1 (code_rounds_spec 64 0 W s Hs)).
  change 64%nat with (16 + (16 + (16 + 16)))%nat. rewrite !code_rounds_add.
  destruct (code_rounds _ _ _ _) as [[[[[[[a b] c] d] e] f] g] h].
  now destruct s as [[[[[[[a0 b0] c0] d0] e0] f0] g0] h0].
Qed.

Lemma fips_compress_words s blk : words8 (fips_compress s blk).
Proof.
  unfold fips_compress.
  destruct (fips_rounds _ _ _ _) as [[[[[[[a b] c] d] e] f] g] h].
  destruct s as [[[[[[[a0 b0] c0] d0] e0] f0] g0] h0].
  cbv beta iota delta [words8].
  repeat match goal with |- _ /\ _ => split end; apply wadd_word.
Qed.

Lemma absorb_words n st l : words8 st -> words8 (absorb n st l).
Proof.
  revert st l; induction n as [|n IH]; intros st l H; [exact H|].
  cbn [absorb]. apply IH, fips_compress_words.
Qed.

(** ** Bytes and words *)

Lemma BE32_bytes a b c d : is_byte a -> is_byte b -> is_byte c -> is_byte d ->
  BE32 (a + b * 2 ^ 8 + c * 2 ^ 16 + d * 2 ^ 24)
  = ((a * 256 + b) * 256 + c) * 256 + d.
Proof.
  unfold is_byte. intros Ha Hb Hc Hd. set (q := _ + _ + _ + _).
  assert (E0 : q .& 0xFF = a).
  { change 0xFF with ((2 ^ 8 - 1) * 2 ^ 0). rewrite land_field by lia.
    subst q. dlia. }
  assert (E1 : q .& 0xFF00 = b * 2 ^ 8).
  { change 0xFF00 with ((2 ^ 8 - 1) * 2 ^ 8). rewrite land_field by lia.
    subst q. dlia. }
  assert (E2 : q .& 0xFF0000 = c * 2 ^ 16).
  { change 0xFF0000 with ((2 ^ 8 - 1) * 2 ^ 16). rewrite land_field by lia.
    subst q. dlia. }
  assert (E3 : q .& 0xFF000000 = d * 2 ^ 24).
  { change 0xFF000000 with ((2 ^ 8 - 1) * 2 ^ 24). rewrite land_field by lia.
    subst q. dlia. }
  unfold BE32. rewrite E0, E1, E2, E3. clearbody q. clear E0 E1 E2 E3.
  rewrite !Z.shiftl_mul_pow2, !Z.shiftr_div_pow2 by lia. unfold u32.
  rewrite !Z.mod_small by lia.
  replace (b * 2 ^ 8 * 2 ^ 8) with (b * 2 ^ 16) by ring.
  replace (c * 2 ^ 16 / 2 ^ 8) with (c * 2 ^ 8) by dlia.
  replace (d * 2 ^ 24 / 2 ^ 24) with d by dlia.
  rewrite (lor_disjoint a 24 (b * 2 ^ 16)) by lia.
  replace (a * 2 ^ 24 + b * 2 ^ 16) with ((a * 256 + b) * 2 ^ 16) by ring.
  rewrite (lor_disjoint (a * 256 + b) 16 (c * 2 ^ 8)) by lia.
  replace ((a * 256 + b) * 2 ^ 16 + c * 2 ^ 8) with (((a * 256 + b) * 256 + c) * 2 ^ 8) by ring.
  rewrite lor_disjoint by lia. ring.
Qed.

Lemma BE32_load buf i : Forall is_byte buf -> (4 * i + 4 <= length buf)%nat ->
  BE32 (load32 buf i) = be_val (slice buf (4 * i) 4).
Proof.
  intros Hb Hl. unfold load32, slice.
  assert (Hs : Forall is_byte (skipn (4 * i) buf)) by (apply Forall_skipn, Hb).
  assert (N : forall j, nth (4 * i + j) buf 0 = nth j (skipn (4 * i) buf) 0).
  { intros j. symmetry. apply nth_skipn. }
  assert (Hk : (4 <= length (skipn (4 * i) buf))%nat) by (rewrite length_skipn; lia).
  rewrite <- (Nat.add_0_r (4 * i)) at 1. rewrite !N.
  destruct (skipn (4 * i) buf) as [|a [|b [|c [|d t]]]]; cbn [length] in Hk; try lia.
  repeat match goal with H : Forall _ (_ :: _) |- _ => inversion_clear H end.
  cbn [nth firstn]. rewrite BE32_bytes by assumption. reflexivity.
Qed.

Lemma store32_BE32 x : is_word x -> store32 (BE32 x) = be_bytes 4 x.
Proof.
  intros Hx. unfold is_word in Hx. cbn [be_bytes app].
  set (d := x mod 256). set (c := x / 256 mod 256).
  set (b := x / 256 / 256 mod 256). set (a := x / 256 / 256 / 256 mod 256).
  assert (E : x = d + c * 2 ^ 8 + b * 2 ^ 16 + a * 2 ^ 24) by (subst a b c d; dlia).
  assert (is_byte a /\ is_byte b /\ is_byte c /\ is_byte d) as (Ha & Hb & Hc & Hd).
  { unfold is_byte; subst a b c d; repeat split; apply Z.mod_pos_bound; lia. }
  clearbody a b c d. rewrite E, BE32_bytes by assumption.
  unfold is_byte in *. unfold store32.
  repeat (f_equal; try dlia).
Qed.

(** ** The streaming interface *)

Lemma length_overwrite buf off src : (off + length src <= length buf)%nat ->
  length (overwrite buf off src) = length buf.
Proof.
  intros H. unfold overwrite. rewrite !length_app, length_firstn, length_skipn. lia.
Qed.

Lemma overwrite_byte buf off src : Forall is_byte buf -> Forall is_byte src ->
  Forall is_byte (overwrite buf off src).
Proof.
  intros Hb Hs. unfold overwrite. rewrite !Forall_app.
  auto using Forall_firstn, Forall_skipn.
Qed.

Lemma firstn_overwrite buf off src : (off + length src <= length buf)%nat ->
  firstn (off + length src) (overwrite buf off src) = firstn off buf ++ src.
Proof.
  intros H. unfold overwrite. rewrite app_assoc.
  apply firstn_app_exact. rewrite length_app, length_firstn. lia.
Qed.

(** A full buffer compressed by the code is a block absorbed. *)
Lemma transform_chunk s buf : words8 s -> Forall is_byte buf -> length buf = 64%nat ->
  secp256k1_sha256_transform s (chunk_of buf) = fips_compress s (block_words buf).
Proof.
  intros Hs Hb Hl. apply transform_spec; [exact Hs|reflexivity|..].
  - apply Forall_forall. intros x Hx. apply in_map_iff in Hx as (i & <- & Hi).
    apply in_seq in Hi. unfold is_word, slice.
    assert (Hk : length (firstn 4 (skipn (4 * i) buf)) = 4%nat)
      by (rewrite length_firstn, length_skipn; lia).
    pose proof (be_val_range (firstn 4 (skipn (4 * i) buf))) as R.
    rewrite Hk in R. apply R, Forall_firstn, Forall_skipn, Hb.
  - intros i Hi. unfold chunk_of, block_words.
    rewrite !(nth_indep _ 0 (load32 buf 0)) by (rewrite length_map, length_seq; lia).
    rewrite map_nth, seq_nth, BE32_load by (assumption || lia).
    rewrite (nth_indep _ _ (be_val (slice buf (4 * 0) 4))) by (rewrite length_map, length_seq; lia).
    rewrite (map_nth (fun i => be_val (slice buf (4 * i) 4))), seq_nth by lia.
    reflexivity.
Qed.

(** The buffer with its content so far, and the state it was reached with. *)
Record pending (hash : sha256_t) (P : bytes) : Prop := {
  pend_words : words8 (sha_s hash);
  pend_buf : length (sha_buf hash) = 64%nat;
  pend_bytes : Forall is_byte (sha_buf hash);
  pend_prefix : firstn (length P) (sha_buf hash) = P }.

Lemma write_loop_spec fuel hash P data :
  pending hash P -> (length P < 64)%nat -> Forall is_byte data ->
  (length data < fuel)%nat ->
  let n := ((length P + length data) / 64)%nat in
  let '(hash', bufsize', data') := write_loop fuel hash (length P) data in
  exists P', pending hash' P' /\ length P' = bufsize' /\
    (length P' + length data' < 64)%nat /\
    P' ++ data' = skipn (64 * n) (P ++ data) /\
    sha_s hash' = absorb n (sha_s hash) (P ++ data) /\
    sha_bytes hash' = sha_bytes hash /\ Forall is_byte data'.
Proof.
  revert hash P data. induction fuel as [|fuel IH]; intros hash P data Hp HP Hd Hf; [lia|].
  cbn [write_loop]. destruct (Nat.leb_spec 64 (length P + length data)).
  2:{ rewrite (Nat.div_small (length P + length data) 64) by lia. cbv zeta.
      exists P. cbn [absorb Nat.mul skipn]. auto 8. }
  set (now := firstn (64 - length P) data). set (rest := skipn (64 - length P) data).
  assert (Hn : length now = (64 - length P)%nat) by (subst now; rewrite length_firstn; lia).
  assert (Hr : length rest = (length data - (64 - length P))%nat)
    by (subst rest; apply length_skipn).
  destruct Hp as [Hw Hb HB Hpre].
  set (buf := overwrite (sha_buf hash) (length P) now).
  assert (Ebuf : buf = P ++ now).
  { subst buf. rewrite <- (firstn_all (overwrite _ _ _)), length_overwrite by lia.
    replace (length (sha_buf hash)) with (length P + length now)%nat by lia.
    rewrite firstn_overwrite by lia. now rewrite Hpre. }
  specialize (IH (Sha (secp256k1_sha256_transform (sha_s hash) (chunk_of buf))
    buf (sha_bytes hash)) [] rest).
  assert (HBb : Forall is_byte buf).
  { apply overwrite_byte; [exact HB|apply Forall_firstn, Hd]. }
  assert (Hlb : length buf = 64%nat) by (rewrite Ebuf, length_app; lia).
  rewrite transform_chunk in * by assumption.
  cbn [length app Nat.add sha_s sha_bytes] in IH.
  assert (Hq : ((length P + length data) / 64 = S (length rest / 64))%nat).
  { replace (length P + length data)%nat with (1 * 64 + length rest)%nat by lia.
    now rewrite Nat.div_add_l by lia. }
  cbv zeta in *. rewrite Hq. cbn [absorb].
  destruct (write_loop fuel _ 0 rest) as [[h' b'] d'].
  destruct IH as (P' & H1 & H2 & H3 & H4 & H5 & H6 & H7).
  - split; cbn; auto using fips_compress_words.
  - lia.
  - apply Forall_skipn, Hd.
  - lia.
  - exists P'. rewrite H4, H5. replace (P ++ data) with (buf ++ rest).
    2:{ rewrite Ebuf, <- app_assoc. subst now rest. now rewrite firstn_skipn. }
    rewrite (firstn_app_exact _ _ 64), (skipn_app_exact _ _ 64) by assumption.
    replace (64 * S (length rest / 64))%nat with (64 * (length rest / 64) + 64)%nat by lia.
    rewrite <- skipn_skipn, (skipn_app_exact _ _ 64) by assumption. auto 8.
Qed.

Definition init_state : state8 := state_of_list H256.

Lemma init_state_eq : sha256_init_state = init_state.
Proof. unfold init_state. rewrite H256_eq. reflexivity. Qed.

(** The bytes of [m] that do not fill a block yet. *)
Definition tail_of (m : bytes) : bytes := skipn (64 * (length m / 64)) m.

(** [hash] is the state after the bytes [m] have been written. *)
Record repr (hash : sha256_t) (m : bytes) : Prop := {
  repr_pending : pending hash (tail_of m);
  repr_state : sha_s hash = absorb (length m / 64) init_state m;
  repr_count : sha_bytes hash = u64 (Z.of_nat (length m));
  repr_msg : Forall is_byte m }.

Definition buf_ok (hash : sha256_t) : Prop :=
  length (sha_buf hash) = 64%nat /\ Forall is_byte (sha_buf hash).

Lemma repr_buf hash m : repr hash m -> buf_ok hash.
Proof. intros [[] ? ? ?]. now split. Qed.

Lemma length_tail_of m : length (tail_of m) = (length m mod 64)%nat.
Proof.
  unfold tail_of. rewrite length_skipn.
  pose proof (Nat.div_mod_eq (length m) 64). lia.
Qed.

Lemma init_words : words8 init_state.
Proof.
  rewrite <- init_state_eq. unfold sha256_init_state, words8, is_word. lia.
Qed.

Lemma initialize_repr hash : buf_ok hash -> repr (secp256k1_sha256_initialize hash) [].
Proof.
  intros [Hl Hb]. split; cbn.
  - split; cbn; try assumption; [|reflexivity].
    exact (eq_ind_r words8 init_words init_state_eq).
  - apply init_state_eq.
  - reflexivity.
  - constructor.
Qed.

Lemma bufsize_eq m :
  Z.to_nat (u64 (Z.of_nat (length m)) .& 0x3F) = length (tail_of m).
Proof.
  rewrite length_tail_of. change 0x3F with (2 ^ 6 - 1). rewrite land_mask by lia.
  unfold u64. change 0x10000000000000000 with (2 ^ 6 * 2 ^ 58).
  rewrite Z.rem_mul_r by lia.
  rewrite Z.mul_comm, Z_mod_plus_full, Zmod_mod.
  change (2 ^ 6) with (Z.of_nat 64). rewrite <- Nat2Z.inj_mod. apply Nat2Z.id.
Qed.

(** Splitting a message at its last full block. *)
Lemma absorb_tail m data n : n = ((length (tail_of m) + length data) / 64)%nat ->
  absorb n (absorb (length m / 64) init_state m) (tail_of m ++ data)
  = absorb (length (m ++ data) / 64) init_state (m ++ data) /\
  skipn (64 * n) (tail_of m ++ data) = tail_of (m ++ data).
Proof.
  intros ->. pose proof (Nat.div_mod_eq (length m) 64) as E.
  set (q := (length m / 64)%nat) in *.
  assert (Hl : length (firstn (64 * q) m) = (64 * q)%nat) by (rewrite length_firstn; lia).
  assert (Em : firstn (64 * q) m ++ tail_of m = m) by apply firstn_skipn.
  assert (Hd : (length (m ++ data) / 64 = q + (length (tail_of m) + length data) / 64)%nat).
  { rewrite length_app, length_tail_of.
    replace (length m + length data)%nat
      with (q * 64 + (length m mod 64 + length data))%nat by lia.
    now rewrite Nat.div_add_l by lia. }
  set (A := firstn (64 * q) m) in *. set (T := tail_of m) in *.
  assert (Ed : m ++ data = A ++ (T ++ data)) by (rewrite <- Em at 1; symmetry; apply app_assoc).
  assert (Ea : absorb q init_state m = absorb q init_state A).
  { transitivity (absorb q init_state (A ++ T)); [now rewrite Em|now apply absorb_prefix]. }
  unfold tail_of. rewrite Hd, Ed, Ea. split.
  - symmetry. now apply absorb_app.
  - rewrite Nat.mul_add_distr_l, (Nat.add_comm (64 * q)), <- skipn_skipn.
    now rewrite (skipn_app_exact _ _ (64 * q)) by exact Hl.
Qed.

Lemma write_repr hash m data : repr hash m -> Forall is_byte data ->
  repr (secp256k1_sha256_write hash data) (m ++ data).
Proof.
  intros [Hp Hs Hc Hm] Hd. unfold secp256k1_sha256_write.
  rewrite Hc, bufsize_eq.
  set (h1 := Sha _ _ _).
  assert (Hp1 : pending h1 (tail_of m)) by (destruct Hp; now split).
  assert (HP : (length (tail_of m) < 64)%nat).
  { rewrite length_tail_of. apply Nat.mod_upper_bound. lia. }
  pose proof (write_loop_spec (S (length data)) h1 (tail_of m) data Hp1 HP Hd
    (Nat.lt_succ_diag_r _)) as L.
  cbv zeta in L. destruct (absorb_tail m data _ eq_refl) as [E1 E2].
  destruct (write_loop _ _ _ _) as [[h2 b2] d2].
  destruct L as (P' & [Q1 Q2 Q3 Q4] & <- & H3 & H4 & H5 & H6 & H7).
  cbn [sha_s sha_bytes h1] in H5, H6. rewrite Hs, E1 in H5. rewrite E2 in H4.
  assert (Hcount : sha_bytes h2 = u64 (Z.of_nat (length (m ++ data)))).
  { rewrite H6. unfold h1. cbn [sha_bytes]. rewrite length_app, Nat2Z.inj_add.
    unfold u64. now rewrite Z.add_mod_idemp_l by lia. }
  assert (Hmd : Forall is_byte (m ++ data)) by (now apply Forall_app).
  destruct d2 as [|x d2].
  - rewrite app_nil_r in H4. split; [rewrite <- H4; now split|assumption..].
  - split; cbn [sha_s sha_bytes]; try assumption. split; cbn [sha_s sha_buf].
    + exact Q1.
    + rewrite length_overwrite; lia.
    + now apply overwrite_byte.
    + rewrite <- H4, length_app, firstn_overwrite, Q4 by lia. reflexivity.
Qed.

(** ** Finalisation *)

Lemma BE32_low x : BE32 x = BE32 (x mod 2 ^ 32).
Proof.
  assert (M : forall m, 0 <= m < 2 ^ 32 -> (x mod 2 ^ 32) .& m = x .& m).
  { intros m Hm. apply Z.bits_inj'. intros i Hi.
    rewrite !Z.land_spec. destruct (Z.lt_ge_cases i 32).
    - now rewrite Z.mod_pow2_bits_low by lia.
    - rewrite (testbit_above m 32) by lia. now rewrite !andb_false_r. }
  unfold BE32. now rewrite !M by lia.
Qed.

Lemma sizedesc_spec n : 0 <= n < 2 ^ 61 ->
  store32 (BE32 (n >> 29)) ++ store32 (BE32 (u64 (n << 3))) = be_bytes 8 (8 * n).
Proof.
  intros Hn. rewrite (BE32_low (u64 _)).
  rewrite !store32_BE32.
  3:{ unfold is_word. rewrite Z.shiftr_div_pow2 by lia. dlia. }
  2:{ apply Z.mod_pos_bound. lia. }
  change 8%nat with (4 + 4)%nat. rewrite be_bytes_app. f_equal.
  - rewrite Z.shiftr_div_pow2 by lia. f_equal. change (256 ^ Z.of_nat 4) with (2 ^ 3 * 2 ^ 29).
    rewrite <- Z.div_div by lia. change (2 ^ 3) with 8. now rewrite Z.mul_comm, Z.div_mul.
  - rewrite Z.shiftl_mul_pow2 by lia. unfold u64. rewrite (Z.mod_small (n * 2 ^ 3)) by lia.
    rewrite (be_bytes_mod 4 (8 * n)). do 2 f_equal. lia.
Qed.

Lemma pad_spec n : 0 <= n ->
  firstn (Z.to_nat (1 + (119 - n mod 64) mod 64)) sha256_pad
  = [0x80] ++ repeat 0 (Z.to_nat (pad_zeros n)).
Proof.
  intros Hn. unfold sha256_pad, pad_zeros.
  replace ((119 - n mod 64) mod 64) with ((55 - n) mod 64) by dlia.
  pose proof (Z.mod_pos_bound (55 - n) 64 ltac:(lia)).
  replace (Z.to_nat (1 + (55 - n) mod 64)) with (S (Z.to_nat ((55 - n) mod 64))) by lia.
  set (k := Z.to_nat _). replace 63%nat with (k + (63 - k))%nat by lia.
  rewrite firstn_cons, repeat_app, firstn_app_exact by apply repeat_length. reflexivity.
Qed.

Lemma length_fips_pad m : exists n, length (fips_pad m) = (64 * n)%nat.
Proof.
  unfold fips_pad. rewrite !length_app, repeat_length, length_be_bytes. cbn [length].
  set (k := Z.of_nat (length m)). unfold pad_zeros.
  pose proof (Z.mod_pos_bound (55 - k) 64 ltac:(lia)).
  exists (Z.to_nat ((k + (55 - k) mod 64 + 9) / 64)).
  enough ((k + (55 - k) mod 64 + 9) mod 64 = 0) by dlia. dlia.
Qed.

Lemma finalize_spec hash m : repr hash m -> Z.of_nat (length m) < 2 ^ 61 ->
  snd (secp256k1_sha256_finalize hash) = fips_sha256 m /\
  buf_ok (fst (secp256k1_sha256_finalize hash)).
Proof.
  intros H Hlen. unfold secp256k1_sha256_finalize.
  assert (Hn : sha_bytes hash = Z.of_nat (length m)).
  { rewrite (repr_count _ _ H). apply Z.mod_small. lia. }
  rewrite Hn, sizedesc_spec, pad_spec by lia.
  set (h2 := secp256k1_sha256_write _ (be_bytes _ _)).
  assert (R : repr h2 (fips_pad m)).
  { unfold fips_pad. rewrite !app_assoc. rewrite <- (app_assoc m).
    repeat apply write_repr; [exact H| |apply be_bytes_byte].
    apply Forall_app; split; [repeat constructor; unfold is_byte; lia|].
    apply Forall_forall. intros x Hx. apply repeat_spec in Hx as ->. unfold is_byte; lia. }
  pose proof (repr_state _ _ R) as Hs. pose proof (repr_buf _ _ R) as Hb.
  pose proof (pend_words _ _ (repr_pending _ _ R)) as Hw.
  unfold fips_sha256. fold init_state. rewrite <- Hs.
  destruct (sha_s h2) as [[[[[[[a b] c] d] e] f] g] h].
  split; [|exact Hb]. cbn [snd state_bytes flat_map].
  cbv beta iota delta [words8] in Hw.
  now rewrite !store32_BE32 by tauto.
Qed.

Lemma writes_repr hash m chunks : repr hash m -> Forall (Forall is_byte) chunks ->
  repr (fold_left secp256k1_sha256_write chunks hash) (m ++ concat chunks).
Proof.
  revert hash m; induction chunks as [|c cs IH]; intros hash m H Hc.
  { cbn. now rewrite app_nil_r. }
  inversion_clear Hc. cbn [fold_left concat]. rewrite app_assoc.
  apply IH; [now apply write_repr|assumption].
Qed.

Lemma concat_byte chunks : Forall (Forall is_byte) chunks -> Forall is_byte (concat chunks).
Proof. induction 1; cbn; [constructor|now apply Forall_app]. Qed.

(** ** HMAC *)

Lemma xor_byte a c : is_byte a -> is_byte c -> is_byte (a .^ c).
Proof. unfold is_byte. intros. now apply (lxor_range a c 8). Qed.

Lemma map_xor_byte l c : is_byte c -> Forall is_byte l ->
  Forall is_byte (map (fun b => b .^ c) l).
Proof.
  intros Hc H. apply Forall_map. eapply Forall_impl; [|exact H].
  intros a Ha. now apply xor_byte.
Qed.

Lemma repeat_byte x n : is_byte x -> Forall is_byte (repeat x n).
Proof. intros H. apply Forall_forall. intros y Hy. now apply repeat_spec in Hy as ->. Qed.

Lemma hmac_block_byte k : Forall is_byte k -> Forall is_byte (hmac_block k).
Proof.
  intros Hk. unfold hmac_block. apply Forall_app. split.
  - destruct (Nat.leb _ _); [exact Hk|apply fips_sha256_byte].
  - apply repeat_byte. unfold is_byte; lia.
Qed.

(** The two hashes of an HMAC context after the text [m] under the key [k]. *)
Definition hmac_repr (hash : hmac_sha256_t) (k m : bytes) : Prop :=
  repr (inner hash) (map (fun b => b .^ 0x36) (hmac_block k) ++ m) /\
  repr (outer hash) (map (fun b => b .^ 0x5c) (hmac_block k)).

Lemma hmac_initialize_repr hash key scratch :
  buf_ok (inner hash) -> buf_ok (outer hash) -> buf_ok scratch ->
  Forall is_byte key -> Z.of_nat (length key) < 2 ^ 61 ->
  hmac_repr (secp256k1_hmac_sha256_initialize hash key scratch) key [].
Proof.
  intros Hi Ho Hsc Hk Hl. unfold secp256k1_hmac_sha256_initialize, hmac_repr.
  set (rkey := if Nat.leb _ _ then _ else _).
  assert (E : rkey = hmac_block key).
  { unfold rkey, hmac_block. destruct (Nat.leb_spec (length key) 64); [reflexivity|].
    rewrite length_fips_sha256. f_equal.
    apply finalize_spec; [|exact Hl].
    apply (write_repr _ []); [now apply initialize_repr|exact Hk]. }
  cbn [inner outer]. rewrite E. clear E rkey.
  pose proof (hmac_block_byte key Hk) as HB.
  rewrite map_map, app_nil_r.
  rewrite (map_ext (fun x => (x .^ 0x5c) .^ (0x5c .^ 0x36)) (fun x => x .^ 0x36)).
  2:{ intros a. now rewrite Z.lxor_assoc. }
  split; apply (write_repr _ []); try (now apply initialize_repr);
    apply map_xor_byte; try exact HB; unfold is_byte; lia.
Qed.

Lemma hmac_writes_repr hash k m chunks : hmac_repr hash k m ->
  Forall (Forall is_byte) chunks ->
  hmac_repr (fold_left secp256k1_hmac_sha256_write chunks hash) k (m ++ concat chunks).
Proof.
  revert hash m; induction chunks as [|c cs IH]; intros hash m [Hi Ho] Hc.
  { cbn. rewrite app_nil_r. now split. }
  inversion_clear Hc. cbn [fold_left concat]. rewrite app_assoc.
  apply IH; [|assumption]. split; [|exact Ho].
  cbn [inner secp256k1_hmac_sha256_write]. rewrite app_assoc. now apply write_repr.
Qed.

Lemma hmac_finalize_spec hash k m : hmac_repr hash k m ->
  Z.of_nat (length m) < 2 ^ 60 ->
  snd (secp256k1_hmac_sha256_finalize hash) = rfc_hmac k m.
Proof.
  intros [Hi Ho] Hl. unfold secp256k1_hmac_sha256_finalize, rfc_hmac.
  assert (L : forall c, length (map (fun b => b .^ c) (hmac_block k)) = 64%nat)
    by (intros; rewrite length_map; apply length_hmac_block).
  pose proof (finalize_spec _ _ Hi) as [Ei _]; [rewrite length_app, L; lia|].
  destruct (secp256k1_sha256_finalize (inner hash)) as [hi ti]. cbn [snd] in Ei. subst ti.
  set (digest := fips_sha256 _).
  pose proof (write_repr _ _ digest Ho (fips_sha256_byte _)) as Ro.
  pose proof (finalize_spec _ _ Ro) as [Eo _].
  { rewrite length_app, L. unfold digest. rewrite length_fips_sha256. lia. }
  now destruct (secp256k1_sha256_finalize (secp256k1_sha256_write _ _)).
Qed.

Lemma hmac_call_spec hmac0 scratch key chunks :
  buf_ok (inner hmac0) -> buf_ok (outer hmac0) -> buf_ok scratch ->
  Forall is_byte key -> Z.of_nat (length key) < 2 ^ 60 ->
  Forall (Forall is_byte) chunks -> Z.of_nat (length (concat chunks)) < 2 ^ 60 ->
  hmac_call hmac0 scratch key chunks = rfc_hmac key (concat chunks).
Proof.
  intros. unfold hmac_call. apply hmac_finalize_spec; [|assumption].
  apply (hmac_writes_repr _ key []); [|assumption].
  apply hmac_initialize_repr; try assumption. lia.
Qed.

(** ** The generator *)

Section RfcProofs.
Context (hmac0 : hmac_sha256_t) (scratch : sha256_t).
Context (Hi : buf_ok (inner hmac0)) (Ho : buf_ok (outer hmac0)) (Hs : buf_ok scratch).

Definition key32 (k : bytes) : Prop := length k = 32%nat /\ Forall is_byte k.

Lemma hmac_call32 key chunks : key32 key -> Forall (Forall is_byte) chunks ->
  Z.of_nat (length (concat chunks)) < 2 ^ 60 ->
  hmac_call hmac0 scratch key chunks = rfc_hmac key (concat chunks) /\
  key32 (rfc_hmac key (concat chunks)).
Proof.
  intros [Hk1 Hk2] Hc Hl. split.
  - apply hmac_call_spec; try assumption. lia.
  - split; [apply length_rfc_hmac|apply rfc_hmac_byte].
Qed.

Lemma byte_lit x : (0 <=? x) && (x <? 256) = true -> Forall is_byte [x].
Proof. rewrite andb_true_iff, Z.leb_le, Z.ltb_lt. intros. now repeat constructor. Qed.

Lemma rfc6979_initialize_spec seed : Forall is_byte seed ->
  Z.of_nat (length seed) < 2 ^ 59 ->
  let rng := secp256k1_rfc6979_hmac_sha256_initialize hmac0 scratch seed in
  (rng_k rng, rng_v rng) = drbg_seed seed /\ rng_retry rng = false /\
  key32 (rng_k rng) /\ key32 (rng_v rng).
Proof.
  intros Hb Hl. unfold secp256k1_rfc6979_hmac_sha256_initialize, drbg_seed.
  assert (R : forall x, is_byte x -> key32 (repeat x 32)).
  { intros x Hx. split; [apply repeat_length|now apply repeat_byte]. }
  assert (R1 := R 1 ltac:(unfold is_byte; lia)).
  assert (R0 := R 0 ltac:(unfold is_byte; lia)). clear R.
  assert (S3 : forall k v x, key32 k -> key32 v -> (0 <=? x) && (x <? 256) = true ->
    hmac_call hmac0 scratch k [v; [x]; seed] = rfc_hmac k (v ++ [x] ++ seed) /\
    key32 (rfc_hmac k (v ++ [x] ++ seed))).
  { intros k v x Hk [Hv1 Hv2] Hx.
    pose proof (hmac_call32 k [v; [x]; seed] Hk) as H. cbn [concat] in H.
    rewrite app_nil_r in H. apply H.
    - constructor; [exact Hv2|]. constructor; [now apply byte_lit|]. now constructor.
    - rewrite !length_app. cbn [length]. lia. }
  assert (S1 : forall k v, key32 k -> key32 v ->
    hmac_call hmac0 scratch k [v] = rfc_hmac k v /\ key32 (rfc_hmac k v)).
  { intros k v Hk [Hv1 Hv2].
    pose proof (hmac_call32 k [v] Hk) as H. cbn [concat] in H.
    rewrite app_nil_r in H. apply H; [now repeat constructor|lia]. }
  set (v0 := repeat 1 32) in *. set (k0 := repeat 0 32) in *.
  destruct (S3 k0 v0 0 R0 R1 eq_refl) as [-> K1]. set (k1 := rfc_hmac k0 _) in *.
  destruct (S1 k1 v0 K1 R1) as [-> V1]. set (v1 := rfc_hmac k1 v0) in *.
  destruct (S3 k1 v1 1 K1 V1 eq_refl) as [-> K2]. set (k2 := rfc_hmac k1 (v1 ++ [1] ++ seed)) in *.
  destruct (S1 k2 v1 K2 V1) as [-> V2]. now cbn.
Qed.

Lemma rfc_hmac32 key text : key32 (rfc_hmac key text).
Proof. split; [apply length_rfc_hmac|apply rfc_hmac_byte]. Qed.

Lemma hmac_call1 k v : key32 k -> key32 v -> hmac_call hmac0 scratch k [v] = rfc_hmac k v.
Proof.
  intros Hk [Hv1 Hv2]. pose proof (hmac_call32 k [v] Hk) as H. cbn [concat] in H.
  rewrite app_nil_r in H. apply H; [now repeat constructor|lia].
Qed.

Lemma hmac_call_zero k v : key32 k -> key32 v ->
  hmac_call hmac0 scratch k [v; [0]] = rfc_hmac k (v ++ [0]).
Proof.
  intros Hk [Hv1 Hv2]. apply (hmac_call32 k [v; [0]] Hk).
  - constructor; [exact Hv2|]. constructor; [now apply byte_lit|constructor].
  - cbn [concat]. rewrite !length_app, Hv1. cbn. lia.
Qed.

Lemma drbg_fill_32 blocks K V : key32 V -> key32 (snd (drbg_fill blocks K V)).
Proof.
  revert V. induction blocks as [|blocks IH]; intros V HV; [exact HV|].
  cbn [drbg_fill]. specialize (IH (rfc_hmac K V) (rfc_hmac32 K V)).
  destruct (drbg_fill blocks K (rfc_hmac K V)). exact IH.
Qed.

(** The conversion of [outlen] to an [int] is exact below 2^31, and a turn
    consumes at most what is left. *)
Lemma now_spec n : 0 < n < 2 ^ 31 ->
  let now := if s32 n >? 32 then 32 else s32 n in
  now = Z.min 32 n /\ u64 (n - now) = n - now.
Proof.
  intros Hn. cbv zeta. assert (E : s32 n = n).
  { unfold s32. rewrite Z.mod_small; lia. }
  rewrite E. destruct (Z.gtb_spec n 32).
  - split; [lia|]. apply Z.mod_small. lia.
  - split; [lia|]. apply Z.mod_small. lia.
Qed.

(** The loop emits a prefix of the blocks, in as many 32-byte steps as the
    length needs, and leaves the last block in V. *)
Lemma generate_loop_spec fuel k v n : key32 k -> key32 v -> 0 <= n < 2 ^ 31 ->
  (Z.to_nat n < fuel)%nat ->
  generate_loop hmac0 scratch fuel k v n =
  let '(T, V) := drbg_fill (Z.to_nat ((n + 31) / 32)) k v in (V, firstn (Z.to_nat n) T).
Proof.
  intros Hk. revert v n. induction fuel as [|fuel IH]; intros v n Hv Hn Hf; [lia|].
  cbn [generate_loop]. destruct (Z.gtb_spec n 0) as [Hp|Hz].
  2:{ replace n with 0 by lia. reflexivity. }
  rewrite (hmac_call1 k v Hk Hv). pose proof (rfc_hmac32 k v) as K1.
  set (v1 := rfc_hmac k v) in *.
  destruct (now_spec n ltac:(lia)) as [En Eu]. rewrite Eu, En.
  rewrite IH by (assumption || lia).
  replace (Z.to_nat ((n + 31) / 32)) with (S (Z.to_nat ((n - Z.min 32 n + 31) / 32))).
  2:{ destruct (Z.le_gt_cases n 32).
      - rewrite Z.min_r, Z.sub_diag by lia. change ((0 + 31) / 32) with 0.
        replace ((n + 31) / 32) with 1; [reflexivity|].
        apply (Z.div_unique _ _ _ (n - 1)); lia.
      - rewrite Z.min_l by lia. replace (n + 31) with (n - 32 + 31 + 1 * 32) by lia.
        rewrite Z.div_add by lia. pose proof (Z.div_pos (n - 32 + 31) 32). lia. }
  cbn [drbg_fill]. fold v1. destruct (drbg_fill _ k v1) as [T V']. f_equal.
  rewrite firstn_app, (proj1 K1). destruct (Z.le_gt_cases n 32).
  - rewrite Z.min_r by lia. replace (Z.to_nat n - 32)%nat with O by lia.
    now rewrite Z.sub_diag.
  - rewrite Z.min_l by lia. replace (Z.to_nat (n - 32)) with (Z.to_nat n - 32)%nat by lia.
    now rewrite !(@firstn_all2 _ _ v1) by (rewrite (proj1 K1); lia).
Qed.

(** A request: the update of the previous one, when it is due, and the fill. *)
Lemma rfc6979_generate_spec rng n : key32 (rng_k rng) -> key32 (rng_v rng) ->
  0 <= n < 2 ^ 31 ->
  let '(K, V) := if rng_retry rng then drbg_update (rng_k rng) (rng_v rng)
                 else (rng_k rng, rng_v rng) in
  key32 K /\ key32 V /\
  secp256k1_rfc6979_hmac_sha256_generate hmac0 scratch rng n =
  let '(T, V') := drbg_fill (Z.to_nat ((n + 31) / 32)) K V in
  (Rfc V' K true, firstn (Z.to_nat n) T).
Proof.
  intros Hk Hv Hn. unfold secp256k1_rfc6979_hmac_sha256_generate, drbg_update.
  rewrite (hmac_call_zero _ _ Hk Hv).
  assert (K1 := rfc_hmac32 (rng_k rng) (rng_v rng ++ [0])).
  rewrite (hmac_call1 _ _ K1 Hv).
  assert (V1 := rfc_hmac32 (rfc_hmac (rng_k rng) (rng_v rng ++ [0])) (rng_v rng)).
  revert K1 V1. generalize (rfc_hmac (rng_k rng) (rng_v rng ++ [0])) as k1. intros k1 K1.
  generalize (rfc_hmac k1 (rng_v rng)) as v1. intros v1 V1.
  destruct (rng_retry rng); (split; [assumption|]; split; [assumption|]);
    rewrite generate_loop_spec by (assumption || lia); now destruct (drbg_fill _ _ _).
Qed.

Lemma firstn_32 (v : bytes) : length v = 32%nat -> firstn 32 v = v.
Proof. intros H. rewrite <- H. apply firstn_all. Qed.

Lemma drbg_fill_one K V : drbg_fill (Z.to_nat ((32 + 31) / 32)) K V
  = (rfc_hmac K V, rfc_hmac K V).
Proof.
  change (Z.to_nat ((32 + 31) / 32)) with 1%nat. cbn [drbg_fill]. now rewrite app_nil_r.
Qed.

(** A request of exactly 32 bytes returns the next value of V. *)
Lemma rfc6979_generate32 rng : key32 (rng_k rng) -> key32 (rng_v rng) ->
  let '(K, V) := if rng_retry rng then drbg_update (rng_k rng) (rng_v rng)
                 else (rng_k rng, rng_v rng) in
  secp256k1_rfc6979_hmac_sha256_generate hmac0 scratch rng 32
    = (Rfc (rfc_hmac K V) K true, rfc_hmac K V) /\ key32 K /\ key32 (rfc_hmac K V).
Proof.
  intros Hk Hv. pose proof (rfc6979_generate_spec rng 32 Hk Hv ltac:(lia)) as G. revert G.
  destruct (if rng_retry rng then drbg_update _ _ else _) as [K V].
  rewrite drbg_fill_one. change (Z.to_nat 32) with 32%nat.
  rewrite (firstn_32 _ (length_rfc_hmac K V)). intros (HK & _ & E).
  exact (conj E (conj HK (rfc_hmac32 K V))).
Qed.

(** *** Any sequence of requests *)

(** The state of the specification that the generator stands for: the update
    that the code delays until the next request is applied. *)
Definition rng_state (rng : rfc6979_t) : bytes * bytes :=
  if rng_retry rng then drbg_update (rng_k rng) (rng_v rng) else (rng_k rng, rng_v rng).

(** The bytes the generator gives to a sequence of requests. *)
Fixpoint generate_all (rng : rfc6979_t) (ns : list Z) : list bytes :=
  match ns with
  | [] => []
  | n :: ns =>
    let '(rng, out) := secp256k1_rfc6979_hmac_sha256_generate hmac0 scratch rng n in
    out :: generate_all rng ns
  end.

Lemma generate_all_spec ns rng : key32 (rng_k rng) -> key32 (rng_v rng) ->
  Forall (fun n => 0 <= n < 2 ^ 31) ns ->
  generate_all rng ns = drbg_requests (rng_state rng) ns.
Proof.
  revert rng. induction ns as [|n ns IH]; intros rng Hk Hv Hns; [reflexivity|].
  inversion Hns as [|? ? Hn Hns']; subst. cbn [generate_all drbg_requests].
  pose proof (rfc6979_generate_spec rng n Hk Hv Hn) as G. unfold rng_state.
  destruct (if rng_retry rng then _ else _) as [K V]. destruct G as (HK & HV & ->).
  unfold drbg_request. pose proof (drbg_fill_32 (Z.to_nat ((n + 31) / 32)) K V HV) as HV'.
  destruct (drbg_fill _ K V) as [T V']. f_equal. now apply IH.
Qed.

Lemma length_drbg_fill blocks K V : length (fst (drbg_fill blocks K V)) = (32 * blocks)%nat.
Proof.
  revert V. induction blocks as [|blocks IH]; intros V; [reflexivity|].
  cbn [drbg_fill]. specialize (IH (rfc_hmac K V)).
  destruct (drbg_fill blocks K (rfc_hmac K V)) as [T V']. cbn [fst] in *.
  rewrite length_app, length_rfc_hmac, IH. lia.
Qed.

Lemma drbg_requests_length ns st : Forall (fun n => 0 <= n < 2 ^ 31) ns ->
  map (fun out => Z.of_nat (length out)) (drbg_requests st ns) = ns.
Proof.
  revert st. induction ns as [|n ns IH]; intros [K V] Hns; [reflexivity|].
  inversion Hns as [|? ? Hn Hns']; subst. cbn [drbg_requests drbg_request].
  pose proof (length_drbg_fill (Z.to_nat ((n + 31) / 32)) K V) as L.
  destruct (drbg_fill _ K V) as [T V']. cbn [map fst] in *. f_equal; [|now apply IH].
  rewrite length_firstn, L. pose proof (Z.div_pos (n + 31) 32).
  pose proof (Z.mod_pos_bound (n + 31) 32). pose proof (Z.div_mod (n + 31) 32). lia.
Qed.

(** *** The sequence of 32-byte outputs *)

(** One 32-byte request: the new V is the output. *)
Definition drbg_next (st : bytes * bytes * bool) : bytes * bytes * bool :=
  let '(K, V, retry) := st in
  let '(K, V) := if retry then drbg_update K V else (K, V) in (K, rfc_hmac K V, true).

Definition drbg_state (seed : bytes) (i : nat) : bytes * bytes * bool :=
  Nat.iter i drbg_next (drbg_seed seed, false).

(** Output number [i] for a seed. *)
Definition drbg_block (seed : bytes) (i : nat) : bytes := snd (fst (drbg_state seed (S i))).

(** The generator has made [i] requests of 32 bytes. *)
Definition rng_at (rng : rfc6979_t) (seed : bytes) (i : nat) : Prop :=
  drbg_state seed i = (rng_k rng, rng_v rng, rng_retry rng) /\
  key32 (rng_k rng) /\ key32 (rng_v rng).

Lemma rng_at_init seed : Forall is_byte seed -> Z.of_nat (length seed) < 2 ^ 59 ->
  rng_at (secp256k1_rfc6979_hmac_sha256_initialize hmac0 scratch seed) seed 0.
Proof.
  intros Hb Hl. destruct (rfc6979_initialize_spec seed Hb Hl) as (E & R & HK & HV).
  unfold rng_at, drbg_state. cbn [Nat.iter]. rewrite R, <- E. exact (conj eq_refl (conj HK HV)).
Qed.

Lemma rng_at_generate rng seed i : rng_at rng seed i ->
  exists rng', secp256k1_rfc6979_hmac_sha256_generate hmac0 scratch rng 32
    = (rng', drbg_block seed i) /\ rng_at rng' seed (S i) /\ key32 (drbg_block seed i).
Proof.
  intros (E & HK & HV). pose proof (rfc6979_generate32 rng HK HV) as G.
  assert (N : drbg_state seed (S i) = drbg_next (drbg_state seed i)) by reflexivity.
  unfold rng_at, drbg_block. rewrite N, E. unfold drbg_next.
  destruct (if rng_retry rng then _ else _) as [K V]. destruct G as (E1 & HK' & HV').
  rewrite E1. cbn [fst snd]. exists (Rfc (rfc_hmac K V) K true). cbn [rng_k rng_v rng_retry].
  exact (conj eq_refl (conj (conj eq_refl (conj HK' HV')) HV')).
Qed.
End RfcProofs.

(** * Properties *)

Section Properties.
Context (blank : sha256_t) (Hblank : buf_ok blank).

(** C31: SHA-256. The digest of the initialise/write/finalise interface is that
    of FIPS 180-4, however the message is cut into writes. *)
Theorem sha256_streaming (chunks : list bytes) :
  Forall (Forall is_byte) chunks -> Z.of_nat (length (concat chunks)) < 2 ^ 61 ->
  snd (secp256k1_sha256_finalize
         (fold_left secp256k1_sha256_write chunks
            (secp256k1_sha256_initialize blank)))
  = fips_sha256 (concat chunks).
Proof.
  intros Hc Hl. apply finalize_spec; [|exact Hl].
  apply (writes_repr _ []); [now apply initialize_repr|exact Hc].
Qed.
End Properties.

Lemma sha256_streaming_witness :
  snd (secp256k1_sha256_finalize
         (fold_left secp256k1_sha256_write [[0x61]; []; [0x62; 0x63]]
            (secp256k1_sha256_initialize blank_sha)))
  = fips_sha256 [0x61; 0x62; 0x63].
Proof.
  apply (sha256_streaming blank_sha).
  - split; [reflexivity|]. apply repeat_byte. unfold is_byte; lia.
  - repeat constructor; unfold is_byte; lia.
  - cbn. lia.
Defined.

Section HmacProperties.
Context (hmac0 : hmac_sha256_t) (scratch : sha256_t).
Context (Hi : buf_ok (inner hmac0)) (Ho : buf_ok (outer hmac0)) (Hs : buf_ok scratch).

(** HMAC-SHA256. Initialise, any sequence of writes and finalise compute
    the RFC 2104 code of the concatenated text, for short and long keys. *)
Theorem hmac_sha256_correct key chunks :
  Forall is_byte key -> Z.of_nat (length key) < 2 ^ 60 ->
  Forall (Forall is_byte) chunks -> Z.of_nat (length (concat chunks)) < 2 ^ 60 ->
  snd (secp256k1_hmac_sha256_finalize
         (fold_left secp256k1_hmac_sha256_write chunks
            (secp256k1_hmac_sha256_initialize hmac0 key scratch)))
  = rfc_hmac key (concat chunks).
Proof. intros. now apply (hmac_call_spec hmac0 scratch). Qed.

(** C32: RFC 6979. The generator seeded with any bytes answers any sequence of
    requests (of fewer than 2^31 bytes each, so that [outlen] fits the [int] it
    is converted to) with the octets the section 3.2 machine gives to the same
    sequence, each of the requested length.  The machine's state (K, V) is its
    own: it starts from the seed and is carried from one request to the next,
    with the update of step h.3 after each. *)
Theorem rfc6979_correct seed ns :
  Forall is_byte seed -> Z.of_nat (length seed) < 2 ^ 59 ->
  Forall (fun n => 0 <= n < 2 ^ 31) ns ->
  let outs := generate_all hmac0 scratch
    (secp256k1_rfc6979_hmac_sha256_initialize hmac0 scratch seed) ns in
  outs = drbg_requests (drbg_seed seed) ns /\
  map (fun out => Z.of_nat (length out)) outs = ns.
Proof.
  intros Hb Hl Hns.
  destruct (rfc6979_initialize_spec hmac0 scratch Hi Ho Hs seed Hb Hl) as (E & R & HK & HV).
  cbv zeta. rewrite (generate_all_spec hmac0 scratch Hi Ho Hs ns _ HK HV Hns).
  unfold rng_state. rewrite R, E. split; [reflexivity|now apply drbg_requests_length].
Qed.
End HmacProperties.

Definition blank_hmac : hmac_sha256_t := Hmac blank_sha blank_sha.

Lemma blank_ok : buf_ok blank_sha.
Proof. split; [reflexivity|]. apply repeat_byte. unfold is_byte; lia. Qed.

Lemma hmac_sha256_correct_witness :
  snd (secp256k1_hmac_sha256_finalize
         (fold_left secp256k1_hmac_sha256_write [[1; 2]; [3]]
            (secp256k1_hmac_sha256_initialize blank_hmac (repeat 7 80) blank_sha)))
  = rfc_hmac (repeat 7 80) [1; 2; 3].
Proof.
  apply (hmac_sha256_correct blank_hmac blank_sha blank_ok blank_ok blank_ok).
  - apply repeat_byte. unfold is_byte; lia.
  - rewrite repeat_length. lia.
  - repeat constructor; unfold is_byte; lia.
  - cbn. lia.
Defined.

Lemma rfc6979_correct_witness :
  let outs := generate_all blank_hmac blank_sha
    (secp256k1_rfc6979_hmac_sha256_initialize blank_hmac blank_sha [5]) [40; 0; 32; 7] in
  outs = drbg_requests (drbg_seed [5]) [40; 0; 32; 7] /\
  map (fun out => Z.of_nat (length out)) outs = [40; 0; 32; 7].
Proof.
  apply (rfc6979_correct blank_hmac blank_sha blank_ok blank_ok blank_ok).
  - repeat constructor; unfold is_byte; lia.
  - cbn. lia.
  - repeat constructor; lia.
Defined.
