(* ===== verification/NumsPoint.v ===== *)
(** * The point behind the blinded generator table

    ecmult_gen_impl.h offsets the entries of its table by multiples of a point U
    whose abscissa comes from a string.  Nothing is known about the discrete
    logarithm of U; that no entry of the table is the point at infinity, which
    the packed form of points cannot express, is checked by evaluating all of
    them. *)
From Bignums Require Import BigZ.BigZ.
From S2P Require Import Prelude Primes FieldSpec Field ScalarSpec Scalar CurveSpec CurveGroup CurveOrder.

(** The 32 bytes of "The scalar for this x is unknown", read as a number. *)
Definition nums_x : Z := 0x546865207363616c617220666f722074686973207820697320756e6b6e6f776e.

(** The even ordinate. *)
Definition nums_y : Z := 0x28ebb7e4e1f6a12e1c0faaf47e09c33305d50890856930e67e5299348ff7f20e.

Definition nums_base : point := Aff nums_x nums_y.

Definition U_point : point := padd nums_base G_point.

(** The multiple of U in row [j] of the table. *)
Definition row_offset (j : nat) : Z :=
  if Nat.eqb j 63 then 1 - 2 ^ 63 else 2 ^ Z.of_nat j.

(** Entry [i] of row [j]. *)
Definition gen_entry (j i : nat) : point :=
  padd (smul (row_offset j) U_point) (smul (Z.of_nat i * 16 ^ Z.of_nat j) G_point).

Lemma nums_on_curve : on_curve nums_base.
Proof. apply on_curve_check. vm_compute. reflexivity. Qed.

#[export] Hint Resolve nums_on_curve : curve_point.

Lemma U_on_curve : on_curve U_point.
Proof. unfold U_point. oc. Qed.

#[export] Hint Resolve U_on_curve : curve_point.

Lemma U_point_eq : U_point = padd nums_base G_point.
Proof. reflexivity. Qed.

#[global] Opaque U_point.

(** ** Addition of two evaluated points *)

Definition jadd (a b : jac) : jac :=
  let za := mulm (jacz a) (jacz a) in
  let zb := mulm (jacz b) (jacz b) in
  let u1 := mulm (jacx a) zb in
  let u2 := mulm (jacx b) za in
  let s1 := mulm (jacy a) (mulm (jacz b) zb) in
  let s2 := mulm (jacy b) (mulm (jacz a) za) in
  let h := BigZ.sub u2 u1 in
  let r := BigZ.sub s2 s1 in
  let hh := mulm h h in
  let hhh := mulm h hh in
  let v := mulm u1 hh in
  let x := BigZ.sub (mulm r r) (BigZ.add hhh (BigZ.add v v)) in
  Jac x (BigZ.sub (mulm r (BigZ.sub v x)) (mulm s1 hhh)) (mulm (mulm (jacz a) (jacz b)) h).

Definition jneg (a : jac) : jac := Jac (jacx a) (BigZ.opp (jacy a)) (jacz a).

Lemma jadd_val a b x1 y1 z1 x2 y2 z2 : cz (jacx a) x1 -> cz (jacy a) y1 -> cz (jacz a) z1 ->
  cz (jacx b) x2 -> cz (jacy b) y2 -> cz (jacz b) z2 ->
  let r := jadd a b in
  let u1 := x1 * (z2 * z2) in
  let s1 := y1 * (z2 * (z2 * z2)) in
  let h := x2 * (z1 * z1) - u1 in
  let s := y2 * (z1 * (z1 * z1)) - s1 in
  let x' := s * s - h * h * h - 2 * u1 * (h * h) in
  cz (jacx r) x' /\ cz (jacy r) (s * (u1 * (h * h) - x') - s1 * (h * h * h)) /\
  cz (jacz r) (z1 * z2 * h).
Proof.
  intros X1 Y1 Z1 X2 Y2 Z2. unfold jadd. cbn [jacx jacy jacz].
  split; [|split]; (eapply cz_eq; [cz_tac|apply cong_eq; ring]).
Qed.

Lemma jadd_ok a b P Q : on_curve P -> on_curve Q -> jac_ok a P -> jac_ok b Q ->
  jac_ok (jadd a b) (padd P Q).
Proof.
  intros HP HQ Ha Hb Hz.
  pose proof (jadd_val a b _ _ _ _ _ _ (cz_self _) (cz_self _) (cz_self _) (cz_self _) (cz_self _)
    (cz_self _)) as (_ & _ & K).
  destruct (cz_factor _ _ _ _ _ K (cz_eq _ _ _ (cz_mul _ _ _ _ (cz_self (jacz a)) (cz_self (jacz b)))
    (cong_eq _ _ _ eq_refl)) (cong_eq _ _ _ eq_refl) Hz) as [Hzz Hh]. clear K.
  rewrite mulm_range, Z.mod_mod in Hzz by discriminate.
  destruct (nonzero_factors _ _ _ (cong_eq _ _ _ eq_refl) Hzz) as [Z1 Z2].
  specialize (Ha Z1). specialize (Hb Z2). destruct P as [|x1 y1]; [contradiction|].
  destruct Q as [|x2 y2]; [contradiction|]. destruct Ha as [XA YA], Hb as [XB YB].
  set (za := BigZ.to_Z (jacz a)) in *. set (zb := BigZ.to_Z (jacz b)) in *.
  assert (N : x1 <> x2).
  { intros ->. apply Hh, cong_0. rewrite XA, XB. apply cong_eq. ring. }
  destruct (padd_chord x1 y1 x2 y2 HP HQ N) as (l & L & -> & _). unfold chord. cbv zeta.
  destruct (jadd_val a b _ _ za _ _ zb XA YA (cz_self _) XB YB (cz_self _)) as (KX & KY & KZ).
  assert (S : y2 * zb * zb * zb * (za * (za * za)) - y1 * za * za * za * (zb * (zb * zb))
    =[p]= l * (x2 - x1) * (za * za * za * (zb * zb * zb))).
  { rewrite L. apply cong_eq. ring. }
  apply (jac_rep_intro _ _ _ _ KZ); (eapply cz_eq; [eassumption|]); rewrite !cong_mod, ?S;
    apply cong_eq; ring.
Qed.

Lemma jneg_ok a P : jac_ok a P -> jac_ok (jneg a) (pneg P).
Proof.
  intros H Hz. specialize (H Hz). destruct P as [|x y]; [exact H|]. destruct H as [HX HY].
  split; cbn [jneg jacx jacy jacz]; [exact HX|].
  rewrite BigZ.spec_opp, HY, (cong_mod p (- y)). apply cong_eq. ring.
Qed.

Lemma jaff_ok x y P : P = Aff x y -> jac_ok (Jac (BigZ.of_Z x) (BigZ.of_Z y) BigZ.one) P.
Proof.
  intros -> _. unfold jac_rep. cbn [jacx jacy jacz]. rewrite !BigZ.spec_of_Z, BigZ.spec_1.
  split; apply cong_eq; ring.
Qed.

(** ** All entries are finite *)

Definition jfinite (a : jac) : bool := negb (BigZ.eqb (BigZ.modulo (jacz a) bp) BigZ.zero).

Lemma jfinite_ok a P : jac_ok a P -> jfinite a = true -> P <> Inf.
Proof.
  intros H Hf E. subst P. apply H. unfold jfinite in Hf. apply negb_true_iff in Hf.
  rewrite BigZ.spec_eqb, BigZ.spec_modulo, BigZ.spec_0 in Hf. unfold bp in Hf.
  rewrite BigZ.spec_of_Z in Hf. now apply Z.eqb_neq.
Qed.

Fixpoint row_finite (n : nat) (e gb : jac) : bool :=
  match n with
  | O => true
  | S n => jfinite e && row_finite n (jadd e gb) gb
  end.

(** [n] rows from row [j] on; the next row offset of row 62 is -2^63 U + U. *)
Fixpoint rows_finite (n j : nat) (nb gb u : jac) : bool :=
  match n with
  | O => true
  | S n =>
    row_finite 16 nb gb &&
    (let nb' := jdbl nb in
     rows_finite n (S j) (if Nat.eqb j 62 then jadd (jneg nb') u else nb')
       (jdbl (jdbl (jdbl (jdbl gb)))) u)
  end.

Lemma row_finite_ok n e gb E B : on_curve E -> on_curve B -> jac_ok e E -> jac_ok gb B ->
  row_finite n e gb = true ->
  forall i, (i < n)%nat -> padd E (smul (Z.of_nat i) B) <> Inf.
Proof.
  revert e E. induction n as [|n IH]; intros e E HE HB He Hg H i Hi; [lia|].
  cbn [row_finite] in H. apply andb_true_iff in H as [H1 H2]. destruct i as [|i].
  - change (Z.of_nat 0) with 0. rewrite smul_0, padd_Inf_r. now apply (jfinite_ok e).
  - replace (Z.of_nat (S i)) with (1 + Z.of_nat i) by lia.
    rewrite smul_add, smul_1, <- padd_assoc by oc.
    refine (IH _ _ _ HB (jadd_ok _ _ _ _ HE HB He Hg) Hg H2 i _); [oc|lia].
Qed.

Lemma row_offset_S j : (j < 63)%nat ->
  row_offset (S j) = if Nat.eqb j 62 then - (2 * row_offset j) + 1 else 2 * row_offset j.
Proof.
  intros Hj. unfold row_offset. replace (Nat.eqb j 63) with false by (symmetry; apply Nat.eqb_neq; lia).
  change (Nat.eqb (S j) 63) with (Nat.eqb j 62). destruct (Nat.eqb_spec j 62) as [->|]; [reflexivity|].
  rewrite Nat2Z.inj_succ, Z.pow_succ_r by lia. reflexivity.
Qed.

Lemma rows_finite_ok n : forall j nb gb u, (j + n <= 64)%nat ->
  jac_ok nb (smul (row_offset j) U_point) -> jac_ok gb (smul (16 ^ Z.of_nat j) G_point) ->
  jac_ok u U_point -> rows_finite n j nb gb u = true ->
  forall j' i, (j <= j' < j + n)%nat -> (i < 16)%nat -> gen_entry j' i <> Inf.
Proof.
  induction n as [|n IH]; intros j nb gb u Hn Hb Hg Hu H j' i Hj Hi; [lia|].
  cbn [rows_finite] in H. apply andb_true_iff in H as [H1 H2]. cbv zeta in H2.
  destruct (Nat.eq_dec j' j) as [->|].
  - unfold gen_entry. rewrite <- smul_smul by oc.
    refine (row_finite_ok 16 _ _ _ _ _ _ Hb Hg H1 i Hi); oc.
  - refine (IH (S j) _ _ _ ltac:(lia) _ _ Hu H2 j' i ltac:(lia) Hi).
    + pose proof (jdbl_ok nb (smul (row_offset j) U_point) ltac:(oc) Hb) as D. rewrite <- smul_double in D by oc.
      rewrite row_offset_S by lia. destruct (Nat.eqb j 62); [|exact D].
      rewrite smul_add, smul_1, smul_opp by oc. apply jadd_ok; try oc. now apply jneg_ok.
    + replace (16 ^ Z.of_nat (S j)) with (2 * (2 * (2 * (2 * 16 ^ Z.of_nat j))))
        by (rewrite Nat2Z.inj_succ, Z.pow_succ_r by lia; ring).
      rewrite !smul_double by oc. repeat (apply jdbl_ok; [oc|]). exact Hg.
Qed.

Definition jN : jac := Jac (BigZ.of_Z nums_x) (BigZ.of_Z nums_y) BigZ.one.

Definition jU : jac := jadd jN bG.

Lemma jU_ok : jac_ok jU U_point.
Proof.
  rewrite U_point_eq. apply (jadd_ok jN bG nums_base G_point); [oc|oc|now apply jaff_ok|].
  unfold bG, G_point. apply jaff_ok. reflexivity.
Qed.

Lemma all_finite : rows_finite 64 0 jU bG jU = true.
Proof. vm_compute. reflexivity. Qed.

(** No entry of the table is the point at infinity. *)
Lemma gen_entry_finite j i : (j < 64)%nat -> (i < 16)%nat -> gen_entry j i <> Inf.
Proof.
  intros Hj Hi. refine (rows_finite_ok 64 0 jU bG jU ltac:(lia) _ _ jU_ok all_finite j i ltac:(lia) Hi).
  - change (row_offset 0) with 1. rewrite smul_1. exact jU_ok.
  - change (16 ^ Z.of_nat 0) with 1. rewrite smul_1. unfold bG, G_point. apply jaff_ok. reflexivity.
Qed.

Lemma gen_entry_curve j i : on_curve (gen_entry j i).
Proof. unfold gen_entry. oc. Qed.

#[export] Hint Resolve gen_entry_curve : curve_point.

(** The offsets cancel. *)
Fixpoint offset_sum (n : nat) : Z :=
  match n with O => 0 | S n => offset_sum n + row_offset n end.

Lemma offsets_cancel : offset_sum 64 = 0.
Proof. reflexivity. Qed.
