(* ===== verification/Residue.v ===== *)
(** * Squares modulo the field prime

    p = 3 modulo 4, so exactly one of y and - y is a square for y other than
    0; the product of two non-squares is a square. *)
From S2P Require Import Prelude Primes FieldSpec Field CurveSpec CurveGroup CurveOrder CurveCount.

Definition is_square (a : Z) : Prop := exists s, s * s =[p]= a.

#[export] Instance is_square_cong : Proper (cong p ==> iff) is_square.
Proof. intros a b E. split; intros [s Hs]; exists s; rewrite Hs; [exact E|now symmetry]. Qed.

Lemma is_square_mul a b : is_square a -> is_square b -> is_square (a * b).
Proof.
  intros [s Hs] [t Ht]. exists (s * t). rewrite <- Hs, <- Ht. apply cong_eq. ring.
Qed.

Lemma half_p : p - 1 = 2 * ((p - 1) / 2).
Proof. reflexivity. Qed.

(** A non-zero number to the power (p - 1) / 2 is 1 or - 1. *)
Lemma euler_values a : a mod p <> 0 ->
  a ^ ((p - 1) / 2) =[p]= 1 \/ a ^ ((p - 1) / 2) =[p]= - 1.
Proof.
  intros Ha. set (e := a ^ ((p - 1) / 2)).
  assert (E : (e - 1) * (e + 1) =[p]= 0).
  { transitivity (e * e - 1); [apply cong_eq; ring|].
    assert (EE : e * e =[p]= 1).
    { unfold e. rewrite <- Z.pow_add_r by (vm_compute; discriminate).
      replace ((p - 1) / 2 + (p - 1) / 2) with (p - 1) by reflexivity. now apply fermat_p. }
    rewrite EE. apply cong_eq. ring. }
  apply mul_zero in E. destruct E as [E|E]; [left|right].
  - transitivity (e - 1 + 1); [apply cong_eq; ring|]. rewrite E. apply cong_eq. ring.
  - transitivity (e + 1 + -1); [apply cong_eq; ring|]. rewrite E. apply cong_eq. ring.
Qed.

Lemma euler_square a : a mod p <> 0 -> is_square a <-> a ^ ((p - 1) / 2) =[p]= 1.
Proof.
  intros Ha. split.
  - intros [s Hs]. rewrite <- Hs. replace (s * s) with (s ^ 2) by ring.
    rewrite <- Z.pow_mul_r by (vm_compute; discriminate). rewrite <- half_p. apply fermat_p.
    intros E. apply cong_0 in E. apply Ha, cong_0. rewrite <- Hs, E. reflexivity.
  - intros E. exists (a ^ ((p + 1) / 4)).
    rewrite <- Z.pow_add_r by (vm_compute; discriminate).
    replace ((p + 1) / 4 + (p + 1) / 4) with (1 + (p - 1) / 2) by reflexivity.
    rewrite Z.pow_add_r, Z.pow_1_r by (vm_compute; discriminate). rewrite E. apply cong_eq. ring.
Qed.

Lemma one_not_minus_one : ~ 1 =[p]= - 1.
Proof. intros E. apply cong_iff in E. discriminate E. Qed.

Lemma nonsquare_euler a : a mod p <> 0 -> ~ is_square a <-> a ^ ((p - 1) / 2) =[p]= - 1.
Proof.
  intros Ha. rewrite (euler_square a Ha). destruct (euler_values a Ha) as [E|E]; rewrite E.
  - split; [intros N; now destruct N|]. intros C. now apply one_not_minus_one in C.
  - split; [reflexivity|]. intros _ C. symmetry in C. now apply one_not_minus_one in C.
Qed.

(** The product of two non-squares. *)
Lemma nonsquare_mul a b : a mod p <> 0 -> b mod p <> 0 -> ~ is_square a -> ~ is_square b ->
  is_square (a * b).
Proof.
  intros Ha Hb Na Nb. apply nonsquare_euler in Na; [|exact Ha]. apply nonsquare_euler in Nb; [|exact Hb].
  apply euler_square; [now apply mul_nonzero|].
  rewrite Z.pow_mul_l, Na, Nb. apply cong_eq. reflexivity.
Qed.

Lemma pow_minus_one n : 0 <= n -> Z.odd n = true -> (-1) ^ n = -1.
Proof.
  intros H0 H. apply Z.odd_spec in H. change (-1) with (- (1)).
  rewrite (Z.pow_opp_odd 1 n H), (Z.pow_1_l n H0). reflexivity.
Qed.

Lemma minus_one_not_square : ~ is_square (- 1).
Proof.
  intros H. apply euler_square in H; [|discriminate].
  rewrite (pow_minus_one ((p - 1) / 2)) in H; [|discriminate|reflexivity].
  symmetry in H. now apply one_not_minus_one in H.
Qed.

Lemma opp_nonzero y : y mod p <> 0 -> (- y) mod p <> 0.
Proof.
  intros H E. apply H. apply cong_0 in E. apply cong_0.
  transitivity (- - y); [apply cong_eq; ring|]. rewrite E. reflexivity.
Qed.

Lemma pow_opp_cong m y h : y ^ h =[m]= 1 -> (- y) ^ h =[m]= 1 -> (-1) ^ h =[m]= 1.
Proof.
  intros H1 H2. replace (- y) with (-1 * y) in H2 by ring. rewrite Z.pow_mul_l in H2.
  rewrite <- H2, H1. apply cong_eq. ring.
Qed.

Lemma square_opp y : y mod p <> 0 -> is_square (- y) <-> ~ is_square y.
Proof.
  intros Hy. split.
  - intros H1 H2. apply euler_square in H1; [|now apply opp_nonzero].
    apply euler_square in H2; [|exact Hy]. apply minus_one_not_square.
    apply euler_square; [discriminate|]. exact (pow_opp_cong p y ((p - 1) / 2) H2 H1).
  - intros N. replace (- y) with (- (1) * y) by ring.
    apply nonsquare_mul; [discriminate|exact Hy|exact minus_one_not_square|exact N].
Qed.

(** Cancelling a non-zero square. *)
Lemma square_cancel a b : b mod p <> 0 -> is_square (a * (b * b)) -> is_square a.
Proof.
  intros Hb [s Hs]. pose proof (fp_inv_ok b Hb) as E. revert E. generalize (fp_inv b). intros i E.
  exists (s * i). transitivity (s * s * (i * i)); [apply cong_eq; ring|]. rewrite Hs.
  transitivity (a * (b * i) * (b * i)); [apply cong_eq; ring|]. rewrite E. apply cong_eq. ring.
Qed.

Lemma is_square_0 : is_square 0.
Proof. exists 0. reflexivity. Qed.

(** Whether a is a square, decided by the executable power. *)
Definition squareb (a : Z) : bool :=
  (a mod p =? 0) || (pow_mod p a (Z.to_pos ((p - 1) / 2)) =? 1).

Lemma pow_mod_range a e : 0 <= pow_mod p a e < p.
Proof. destruct e; apply Z.mod_pos_bound; reflexivity. Qed.

Lemma squareb_spec a : squareb a = true <-> is_square a.
Proof.
  unfold squareb. destruct (Z.eqb_spec (a mod p) 0) as [E|N]; cbn [orb].
  - split; [|reflexivity]. intros _. apply cong_0 in E. rewrite E. exact is_square_0.
  - rewrite (euler_square a N), Z.eqb_eq.
    pose proof (pow_mod_spec p a (Z.to_pos ((p - 1) / 2))) as S.
    pose proof (pow_mod_range a (Z.to_pos ((p - 1) / 2))) as R. revert S R.
    change (Zpos (Z.to_pos ((p - 1) / 2))) with ((p - 1) / 2).
    generalize (pow_mod p a (Z.to_pos ((p - 1) / 2))), (a ^ ((p - 1) / 2)).
    intros u v S R. rewrite <- S. split; [intros ->; reflexivity|].
    intros E. apply in_fp_eq; [exact R|split; [lia|reflexivity]|exact E].
Qed.

Lemma squareb_false a : squareb a = false <-> ~ is_square a.
Proof. rewrite <- squareb_spec. destruct (squareb a); split; congruence. Qed.

#[export] Instance squareb_cong : Proper (cong p ==> eq) squareb.
Proof. intros a b E. apply eq_true_iff_eq. rewrite !squareb_spec, E. reflexivity. Qed.

Lemma squareb_opp y : y mod p <> 0 -> squareb (- y) = negb (squareb y).
Proof.
  intros Hy. apply eq_true_iff_eq. rewrite squareb_spec, (square_opp y Hy), negb_true_iff.
  symmetry. apply squareb_false.
Qed.

(** The root of a square that is itself a square. *)
Definition fp_sqrt (a : Z) : Z := pow_mod p a (Z.to_pos ((p + 1) / 4)).

Lemma fp_sqrt_range a : in_fp (fp_sqrt a).
Proof. apply pow_mod_range. Qed.

Lemma fp_sqrt_pow a : fp_sqrt a =[p]= a ^ ((p + 1) / 4).
Proof. exact (pow_mod_spec p a (Z.to_pos ((p + 1) / 4))). Qed.

Lemma fp_sqrt_cong a b : a =[p]= b -> fp_sqrt a = fp_sqrt b.
Proof.
  intros E. apply in_fp_eq; [apply fp_sqrt_range..|]. unfold fp_sqrt.
  generalize (Z.to_pos ((p + 1) / 4)). intros e.
  rewrite (pow_mod_spec p a e), (pow_mod_spec p b e), E. reflexivity.
Qed.

Lemma fp_sqrt_ok a : is_square a -> fp_sqrt a * fp_sqrt a =[p]= a.
Proof. intros [s Hs]. rewrite fp_sqrt_pow. now apply sqrt_p with s. Qed.

Lemma fp_sqrt_square a : is_square (fp_sqrt a).
Proof.
  exists (a ^ ((p + 1) / 8)). rewrite fp_sqrt_pow, <- Z.pow_add_r by (vm_compute; discriminate).
  apply cong_eq. f_equal.
Qed.

(** Of the two roots only one is a square. *)
Lemma square_root_unique r s : r * r =[p]= s * s -> is_square r -> is_square s -> r =[p]= s.
Proof.
  intros E Hr Hs. assert (F : (r - s) * (r + s) =[p]= 0).
  { transitivity (r * r - s * s); [apply cong_eq; ring|]. rewrite E. apply cong_eq. ring. }
  destruct (mul_zero _ _ F) as [H|H]; [destruct H as [k H]; exists k; lia|].
  assert (Er : r =[p]= - s) by (destruct H as [k H]; exists k; lia). rewrite Er in Hr.
  destruct (Z.eq_dec (s mod p) 0) as [Z0|N].
  - apply cong_0 in Z0. rewrite Er, Z0. reflexivity.
  - apply (square_opp s N) in Hr. contradiction.
Qed.
