(* ===== verification/Svdw.v ===== *)
(** * The map of Shallue and van de Woestijne onto the curve

    The integers modulo p to points of the curve, as the paper describes it,
    for the code of modules/generator to be compared with. *)
From S2P Require Import Prelude Primes FieldSpec Field CurveSpec CurveGroup CurveOrder CurveCount.
From S2P Require Import Residue.

(** A square root of - 3, and a primitive cube root of one. *)
Definition root_m3 : Z := 0x0a2d2ba93507f1df233770c2a797962cc61f6d15da14ecd47d8d27ae1cd5f852.
Definition cube_root : Z := 0x851695d49a83f8ef919bb86153cbcb16630fb68aed0a766a3ec693d68e6afa40.

Lemma root_m3_ok : root_m3 * root_m3 =[p]= - (3).
Proof. apply cong_iff. reflexivity. Qed.

Lemma cube_root_double : 2 * cube_root + 1 =[p]= root_m3.
Proof. apply cong_iff. reflexivity. Qed.

Lemma cube_root_ok : cube_root * cube_root + cube_root + 1 =[p]= 0.
Proof. apply cong_iff. reflexivity. Qed.

Definition curve_rhs (x : Z) : Z := x * x * x + 7.

#[export] Instance curve_rhs_cong : Proper (cong p ==> cong p) curve_rhs.
Proof. intros a b E. unfold curve_rhs. now rewrite E. Qed.

Definition svdw_w (t : Z) : Z := root_m3 * t * fp_inv (8 + t * t).
Definition svdw_x1 (t : Z) : Z := cube_root - t * svdw_w t.
Definition svdw_x2 (t : Z) : Z := - (svdw_x1 t + 1).
Definition svdw_x3 (t : Z) : Z := 1 + fp_inv (svdw_w t * svdw_w t).

Definition svdw_x (t : Z) : Z :=
  (if squareb (curve_rhs (svdw_x1 t)) then svdw_x1 t
   else if squareb (curve_rhs (svdw_x2 t)) then svdw_x2 t
   else svdw_x3 t) mod p.

(** The ordinate is a square for even [t] and the negation of one for odd [t]. *)
Definition svdw (t : Z) : point :=
  let y := fp_sqrt (curve_rhs (svdw_x t)) in
  Aff (svdw_x t) (if Z.odd t then (- y) mod p else y).

(** - 8 is not a square, so the denominator does not vanish. *)
Definition root_2 : Z := 0x210c790573632359b1edb4302c117d8a132654692c3feeb7de3a86ac3f3b53f7.

Lemma two_square : is_square 2.
Proof. exists root_2. apply cong_iff. reflexivity. Qed.

Lemma minus8_not_square : ~ is_square (- (8)).
Proof.
  intros H. apply (square_opp 2); [discriminate| |exact two_square].
  apply (square_cancel (- (2)) 2); [discriminate|exact H].
Qed.

Lemma svdw_den t : (8 + t * t) mod p <> 0.
Proof.
  intros H. apply cong_0 in H. apply minus8_not_square. exists t.
  transitivity (8 + t * t - 8); [apply cong_eq; ring|]. rewrite H. apply cong_eq. ring.
Qed.

Lemma svdw_w_den t : svdw_w t * (8 + t * t) =[p]= root_m3 * t.
Proof. apply fp_div_ok, svdw_den. Qed.

Lemma svdw_w_nonzero t : t mod p <> 0 -> svdw_w t mod p <> 0.
Proof.
  intros Ht H. apply cong_0 in H. pose proof (svdw_w_den t) as E. rewrite H in E.
  apply (mul_nonzero root_m3 t); [discriminate|exact Ht|]. apply cong_0. rewrite <- E.
  apply cong_eq. ring.
Qed.

(** 1 + x1 + x1^2 = - 8 w^2. *)
Lemma svdw_x1_quad t : 1 + svdw_x1 t + svdw_x1 t * svdw_x1 t =[p]= - 8 * (svdw_w t * svdw_w t).
Proof.
  pose proof (fp_inv_ok (8 + t * t) (svdw_den t)) as E. unfold svdw_x1, svdw_w. revert E.
  generalize (fp_inv (8 + t * t)), root_m3_ok, cube_root_double, cube_root_ok.
  generalize root_m3, cube_root. intros c d k C D Q E. set (w := c * t * k).
  transitivity ((d * d + d + 1) - t * w * (2 * d + 1) + t * w * (t * w)); [apply cong_eq; ring|].
  rewrite Q, D.
  transitivity (t * w * (t * w - c * 1)); [apply cong_eq; ring|].
  rewrite <- E. apply cong_eq. unfold w. ring.
Qed.

(** The product of the three values is a square: with s = x + x^2,
    (x^3 + 7) ((- 1 - x)^3 + 7) = 42 - 21 s - s^3. *)
Lemma svdw_product x w y : 1 + x + x * x =[p]= - 8 * (w * w) -> w * w * y =[p]= 1 ->
  curve_rhs x * curve_rhs (- (x + 1)) =[p]= curve_rhs (1 + y) * (8 * (w * w * w) * (8 * (w * w * w))).
Proof.
  intros Hs Hy. unfold curve_rhs.
  transitivity (63 - 21 * (1 + x + x * x)
    - (1 + x + x * x - 1) * (1 + x + x * x - 1) * (1 + x + x * x - 1)); [apply cong_eq; ring|].
  rewrite Hs. symmetry.
  transitivity (64 * ((w * w * y) * (w * w * y) * (w * w * y) + 3 * (w * w) * (w * w * y) * (w * w * y)
    + 3 * (w * w) * (w * w) * (w * w * y) + 8 * (w * w) * (w * w) * (w * w))); [apply cong_eq; ring|].
  rewrite Hy. apply cong_eq. ring.
Qed.

Lemma svdw_three t : t mod p <> 0 -> curve_rhs (svdw_x1 t) * curve_rhs (svdw_x2 t) =[p]=
  curve_rhs (svdw_x3 t) * (8 * (svdw_w t * svdw_w t * svdw_w t) * (8 * (svdw_w t * svdw_w t * svdw_w t))).
Proof.
  intros Ht. pose proof (svdw_w_nonzero t Ht) as Hw.
  pose proof (fp_inv_ok _ (mul_nonzero _ _ Hw Hw)) as E. pose proof (svdw_x1_quad t) as Q.
  unfold svdw_x2, svdw_x3. revert E Q. generalize (fp_inv (svdw_w t * svdw_w t)).
  generalize (svdw_w t), (svdw_x1 t). intros w x y E Q. exact (svdw_product x w y Q E).
Qed.

Lemma curve_rhs_nonzero x : ~ is_square (curve_rhs x) -> curve_rhs x mod p <> 0.
Proof. intros N H. apply cong_0 in H. apply N. rewrite H. exact is_square_0. Qed.

Lemma svdw_x_ok t : t mod p <> 0 -> is_square (curve_rhs (svdw_x t)).
Proof.
  intros Ht. unfold svdw_x. rewrite cong_mod.
  destruct (squareb (curve_rhs (svdw_x1 t))) eqn:E1; [now apply squareb_spec|].
  destruct (squareb (curve_rhs (svdw_x2 t))) eqn:E2; [now apply squareb_spec|].
  apply squareb_false in E1, E2. pose proof (svdw_w_nonzero t Ht) as Hw.
  pose proof (svdw_three t Ht) as P.
  apply (square_cancel _ (8 * (svdw_w t * svdw_w t * svdw_w t))).
  - apply (mul_nonzero 8); [discriminate|]. apply mul_nonzero; [now apply mul_nonzero|exact Hw].
  - rewrite <- P. exact (nonsquare_mul _ _ (curve_rhs_nonzero _ E1) (curve_rhs_nonzero _ E2) E1 E2).
Qed.

(** The point of abscissa [x] and square ordinate. *)
Lemma lift_on_curve x : in_fp x -> is_square (curve_rhs x) ->
  on_curve (Aff x (fp_sqrt (curve_rhs x))).
Proof.
  intros Hx H. split; [exact Hx|]. split; [apply fp_sqrt_range|]. exact (fp_sqrt_ok _ H).
Qed.

Theorem svdw_on_curve t : t mod p <> 0 -> on_curve (svdw t).
Proof.
  intros Ht. pose proof (lift_on_curve _ (in_fp_mod _) (svdw_x_ok t Ht) : on_curve (Aff (svdw_x t) _)) as C.
  unfold svdw. destruct (Z.odd t); [exact (pneg_on_curve _ C)|exact C].
Qed.

Lemma svdw_finite t : svdw t <> Inf.
Proof. discriminate. Qed.

(** Checking that the first candidate is the abscissa: an inverse of the
    denominator and a square root are enough. *)
Lemma svdw_x_first t k x s : (8 + t * t) * k =[p]= 1 ->
  in_fp x -> x =[p]= cube_root - t * (root_m3 * t * k) -> s * s =[p]= curve_rhs x -> svdw_x t = x.
Proof.
  intros Hk Hx Ex Hs. pose proof (fp_inv_ok _ (svdw_den t)) as Hk'.
  assert (E : x =[p]= svdw_x1 t).
  { rewrite Ex. unfold svdw_x1, svdw_w. revert Hk'. generalize (fp_inv (8 + t * t)).
    intros k' Hk'. pose proof (inverse_unique _ _ _ Hk Hk') as U. now rewrite U. }
  assert (Q : squareb (curve_rhs (svdw_x1 t)) = true)
    by (apply squareb_spec; exists s; rewrite Hs; now apply curve_rhs_cong).
  unfold svdw_x. rewrite Q. symmetry. exact (cong_mod_small p x _ E Hx).
Qed.

(** ** Negating [t] negates the point *)

Lemma fp_inv_cong a b : a =[p]= b -> fp_inv a =[p]= fp_inv b.
Proof.
  intros E. unfold fp_inv. generalize (Z.to_pos (p - 2)). intros e.
  rewrite (pow_mod_spec p a e), (pow_mod_spec p b e), E. reflexivity.
Qed.

Lemma svdw_w_neg t u : u =[p]= - t -> svdw_w u =[p]= - svdw_w t.
Proof.
  intros E. unfold svdw_w.
  assert (I : fp_inv (8 + u * u) =[p]= fp_inv (8 + t * t)).
  { apply fp_inv_cong. rewrite E. apply cong_eq. ring. }
  revert I. generalize (fp_inv (8 + u * u)), (fp_inv (8 + t * t)). intros i j I.
  rewrite I, E. apply cong_eq. ring.
Qed.

Lemma svdw_x_neg t u : u =[p]= - t -> svdw_x u = svdw_x t.
Proof.
  intros E. pose proof (svdw_w_neg t u E) as W.
  assert (X1 : svdw_x1 u =[p]= svdw_x1 t).
  { unfold svdw_x1. rewrite W, E. apply cong_eq. ring. }
  assert (X2 : svdw_x2 u =[p]= svdw_x2 t) by (unfold svdw_x2; now rewrite X1).
  assert (X3 : svdw_x3 u =[p]= svdw_x3 t).
  { assert (I : fp_inv (svdw_w u * svdw_w u) =[p]= fp_inv (svdw_w t * svdw_w t)).
    { apply fp_inv_cong. rewrite W. apply cong_eq. ring. }
    unfold svdw_x3. revert I. generalize (fp_inv (svdw_w u * svdw_w u)), (fp_inv (svdw_w t * svdw_w t)).
    intros i j ->. reflexivity. }
  unfold svdw_x. rewrite (squareb_cong _ _ (curve_rhs_cong _ _ X1)).
  rewrite (squareb_cong _ _ (curve_rhs_cong _ _ X2)).
  apply cong_iff. destruct (squareb (curve_rhs (svdw_x1 t))); [exact X1|].
  destruct (squareb (curve_rhs (svdw_x2 t))); [exact X2|exact X3].
Qed.

Lemma svdw_neg t : 0 < t < p -> svdw (p - t) = pneg (svdw t).
Proof.
  intros Ht. unfold svdw. rewrite (svdw_x_neg t (p - t)) by (apply (cong_by 1); lia).
  rewrite Z.odd_sub. change (Z.odd p) with true. rewrite Bool.xorb_true_l.
  destruct (Z.odd t); cbn [negb pneg]; f_equal.
  apply in_fp_eq; [apply fp_sqrt_range|apply in_fp_mod|]. rewrite !cong_mod.
  generalize (fp_sqrt (curve_rhs (svdw_x t))). intros y. apply cong_eq. ring.
Qed.
