(* ===== verification/Wnaf.v ===== *)
(** * Signed digit representations of scalars

    [secp256k1_ecmult_wnaf] of ecmult_impl.h.  A C array of digits is a list of
    integers; every digit is proved to be far below the range of [int]. *)
From S2P Require Import Prelude ScalarSpec.

(** The number an array of digits stands for. *)
Fixpoint wsum (l : list Z) : Z :=
  match l with [] => 0 | d :: l => d + 2 * wsum l end.

Section Wnaf.
Context {SI : ScalarImpl}.

(** ** secp256k1_ecmult_wnaf *)

(** The [while (bit < len)] loop; [bit] increases in every iteration. *)
Fixpoint wnaf_loop (fuel : nat) (s : scalar) (sign w len bit carry : Z) (wnaf : list Z)
    (last_set_bit : Z) : list Z * Z :=
  match fuel with
  | O => (wnaf, last_set_bit)
  | S fuel =>
    if negb (bit <? len) then (wnaf, last_set_bit) else
    if s_get_bits s bit 1 =? carry then
      wnaf_loop fuel s sign w len (bit + 1) carry wnaf last_set_bit
    else
    let now := w in
    let now := if len - bit <? now then len - bit else now in
    let word := s_get_bits_var s bit now + carry in
    let carry := (word >> (w - 1)) .& 1 in
    let word := word - (carry << w) in
    let wnaf := upd wnaf (Z.to_nat bit) (sign * word) in
    wnaf_loop fuel s sign w len (bit + now) carry wnaf bit
  end.

(** The digits and the number of digits up to the last non-zero one. *)
Definition secp256k1_ecmult_wnaf (len : Z) (a : scalar) (w : Z) : list Z * Z :=
  let s := a in
  let wnaf := repeat 0 (Z.to_nat len) in
  let '(s, sign) :=
    if s_get_bits s 255 1 =? 0 then (s, 1) else (s_negate s, -1) in
  let '(wnaf, last_set_bit) := wnaf_loop (Z.to_nat len) s sign w len 0 0 wnaf (-1) in
  (wnaf, last_set_bit + 1).

(** ** Facts about digit sums *)

Lemma wsum_zeros n : wsum (repeat 0 n) = 0.
Proof. induction n as [|n IH]; [reflexivity|]. cbn [repeat wsum]. rewrite IH. reflexivity. Qed.

Lemma wsum_upd l i v : (i < length l)%nat -> nth i l 0 = 0 ->
  wsum (upd l i v) = wsum l + v * 2 ^ Z.of_nat i.
Proof.
  revert i. induction l as [|d l IH]; intros i Hi Hz; [cbn in Hi; lia|].
  destruct i as [|i].
  - cbn in Hz |- *. subst d. lia.
  - cbn [nth length] in *. change (upd (d :: l) (S i) v) with (d :: upd l i v).
    cbn [wsum]. rewrite IH by (lia || assumption).
    rewrite Nat2Z.inj_succ, Z.pow_succ_r by lia. ring.
Qed.

(** A digit that a table of odd multiples of window [w] holds. *)
Definition wnaf_digit (w d : Z) : Prop := d = 0 \/ (Z.odd d = true /\ Z.abs d < 2 ^ (w - 1)).

(** The state of the loop: the digits below [bit] stand for the low bits of
    the number, up to the carry; nothing is written from [bit] on. *)
Record wnaf_inv (V sign w len bit carry : Z) (l : list Z) (last : Z) : Prop := {
  wi_bit : 0 <= bit <= len;
  wi_carry : carry = 0 \/ (carry = 1 /\ bit < len);
  wi_len : length l = Z.to_nat len;
  wi_sum : wsum l = sign * (V mod 2 ^ bit - carry * 2 ^ bit);
  wi_digits : Forall (wnaf_digit w) l;
  wi_above : forall i, last < i -> nth (Z.to_nat i) l 0 = 0;
  wi_last : -1 <= last < bit
}.

(** One bit more, or [k] bits more. *)
Lemma mod_pow2_split V bit k : 0 <= bit -> 0 <= k ->
  V mod 2 ^ (bit + k) = V mod 2 ^ bit + ((V / 2 ^ bit) mod 2 ^ k) * 2 ^ bit.
Proof.
  intros Hb Hk. rewrite Z.pow_add_r by lia.
  rewrite Z.rem_mul_r by (try apply Z.pow_nonzero; lia). ring.
Qed.

Lemma high_bits_zero V bit len k : 0 <= V < 2 ^ (len - 1) -> 0 <= bit -> 1 <= k -> bit + k = len ->
  (V / 2 ^ bit) mod 2 ^ k < 2 ^ (k - 1).
Proof.
  intros HV Hb Hk E. assert (H : V / 2 ^ bit < 2 ^ (k - 1)).
  { apply Z.div_lt_upper_bound; [apply Z.pow_pos_nonneg; lia|].
    rewrite <- Z.pow_add_r by lia. replace (bit + (k - 1)) with (len - 1) by lia. lia. }
  assert (0 <= V / 2 ^ bit) by (apply Z.div_pos; [lia|apply Z.pow_pos_nonneg; lia]).
  pose proof (Z.mod_le (V / 2 ^ bit) (2 ^ k) ltac:(lia) ltac:(apply Z.pow_pos_nonneg; lia)). lia.
Qed.

Lemma odd_pow2 k : 1 <= k -> Z.odd (2 ^ k) = false.
Proof.
  intros Hk. replace k with (1 + (k - 1)) by lia. rewrite Z.pow_add_r by lia.
  rewrite Z.odd_mul. reflexivity.
Qed.

(** The word of a window whose lowest bit differs from the carry. *)
Lemma window_word V bit now carry w : 0 <= bit -> 1 <= now <= w -> 2 <= w -> 0 <= V ->
  carry = 0 \/ carry = 1 -> (V / 2 ^ bit) mod 2 ^ 1 <> carry ->
  let word := (V / 2 ^ bit) mod 2 ^ now + carry in
  Z.odd word = true /\ 1 <= word < 2 ^ now /\
  ((word >> (w - 1)) .& 1) = (if 2 ^ (w - 1) <=? word then 1 else 0) /\
  (now < w -> word < 2 ^ (w - 1)).
Proof.
  intros Hb Hn Hw HV Hc Hd. cbv zeta. set (bits := (V / 2 ^ bit) mod 2 ^ now).
  assert (E1 : (V / 2 ^ bit) mod 2 ^ 1 = bits mod 2 ^ 1).
  { unfold bits. rewrite mod_mod_pow2 by lia. reflexivity. }
  rewrite E1 in Hd. change (2 ^ 1) with 2 in Hd. assert (Hr : 0 <= bits < 2 ^ now) by (apply Z.mod_pos_bound, Z.pow_pos_nonneg; lia).
  clearbody bits. clear E1.
  assert (Ho : Z.odd (bits + carry) = true).
  { rewrite Z.odd_add, (Zodd_mod bits).
    pose proof (Z.mod_pos_bound bits 2 eq_refl).
    destruct Hc as [->| ->]; destruct (Z.eq_dec (bits mod 2) 0) as [E|E];
      try (rewrite E in Hd; congruence); [replace (bits mod 2) with 1 by lia|rewrite E|
        exfalso; lia]; reflexivity. }
  assert (Hpar : bits + carry <> 2 ^ now).
  { intros E. rewrite E, odd_pow2 in Ho by lia. discriminate Ho. }
  assert (Hpos : bits + carry <> 0) by (intros E; rewrite E in Ho; discriminate Ho).
  assert (Hle : 2 ^ now <= 2 ^ w) by (apply Z.pow_le_mono_r; lia).
  assert (Hw1 : 2 ^ w = 2 * 2 ^ (w - 1)).
  { replace w with (1 + (w - 1)) at 1 by lia. rewrite Z.pow_add_r by lia. reflexivity. }
  split; [exact Ho|]. split; [lia|]. split.
  - rewrite Z.shiftr_div_pow2 by lia.
    rewrite (land_mask (_ / _) 1 ltac:(lia) : (_ / _) .& 1 = _). change (2 ^ 1) with 2.
    destruct (Z.leb_spec (2 ^ (w - 1)) (bits + carry)).
    + replace ((bits + carry) / 2 ^ (w - 1)) with 1; [reflexivity|].
      apply (Z.div_unique _ _ _ (bits + carry - 2 ^ (w - 1))); lia.
    + rewrite Z.div_small by lia. reflexivity.
  - intros Hlt. assert (2 ^ now <= 2 ^ (w - 1)) by (apply Z.pow_le_mono_r; lia). lia.
Qed.

Lemma digit_range w word : 2 <= w -> Z.odd word = true -> 1 <= word < 2 ^ w ->
  let c := if 2 ^ (w - 1) <=? word then 1 else 0 in
  Z.odd (word - c * 2 ^ w) = true /\ Z.abs (word - c * 2 ^ w) < 2 ^ (w - 1).
Proof.
  intros Hw Ho Hr. cbv zeta.
  assert (Hw1 : 2 ^ w = 2 * 2 ^ (w - 1)).
  { replace w with (1 + (w - 1)) at 1 by lia. rewrite Z.pow_add_r by lia. reflexivity. }
  split.
  - rewrite Z.odd_sub, Z.odd_mul, odd_pow2, andb_false_r, Ho by lia. reflexivity.
  - destruct (Z.leb_spec (2 ^ (w - 1)) word) as [L|L]; [|lia].
    assert (word <> 2 ^ (w - 1)).
    { intros E. rewrite E, odd_pow2 in Ho by lia. discriminate Ho. } lia.
Qed.

Lemma digit_sign w sign d : sign = 1 \/ sign = -1 ->
  Z.odd d = true /\ Z.abs d < 2 ^ (w - 1) -> wnaf_digit w (sign * d).
Proof.
  intros Hs [Ho Hd]. right. destruct Hs as [->| ->].
  - rewrite Z.mul_1_l. auto.
  - replace (-1 * d) with (- d) by lia. rewrite Z.odd_opp, Z.abs_opp. auto.
Qed.

Section Loop.
Variables (s : scalar) (V sign w len : Z).
Hypothesis Hs : sok s.
Hypothesis HV : sval s = V.
Hypothesis Hlen : 1 <= len <= 256.
Hypothesis Hrange : 0 <= V < 2 ^ (len - 1).
Hypothesis Hw : 2 <= w <= 31.
Hypothesis Hsign : sign = 1 \/ sign = -1.

Lemma wnaf_skip bit carry l last : bit < len -> wnaf_inv V sign w len bit carry l last ->
  (V / 2 ^ bit) mod 2 ^ 1 = carry -> wnaf_inv V sign w len (bit + 1) carry l last.
Proof.
  intros Hb [I1 I2 I3 I4 I5 I6 I7] E. constructor; try assumption; try lia.
  - destruct I2 as [I2|[-> _]]; [now left|].
    destruct (Z.eq_dec (bit + 1) len) as [El|]; [exfalso|right; lia].
    pose proof (high_bits_zero V bit len 1 Hrange ltac:(lia) ltac:(lia) El) as H.
    rewrite E in H. cbn in H. lia.
  - rewrite I4, mod_pow2_split, E, Z.pow_add_r by lia. change (2 ^ 1) with 2. ring.
Qed.

Lemma wnaf_word bit carry l last : bit < len -> wnaf_inv V sign w len bit carry l last ->
  (V / 2 ^ bit) mod 2 ^ 1 <> carry ->
  let now := if len - bit <? w then len - bit else w in
  let word := (V / 2 ^ bit) mod 2 ^ now + carry in
  let c := (word >> (w - 1)) .& 1 in
  wnaf_inv V sign w len (bit + now) c
    (upd l (Z.to_nat bit) (sign * (word - (c << w)))) bit.
Proof.
  intros Hb [I1 I2 I3 I4 I5 I6 I7] E now.
  assert (Hn : 1 <= now <= w /\ bit + now <= len /\ (now = w \/ bit + now = len))
    by (unfold now; destruct (Z.ltb_spec (len - bit) w); lia).
  clearbody now. destruct Hn as (Hn & Hl & Hx).
  assert (Hc : carry = 0 \/ carry = 1) by lia.
  destruct (window_word V bit now carry w ltac:(lia) Hn ltac:(lia) ltac:(lia) Hc E)
    as (Ho & Hr & Ec & Hsmall). cbv zeta.
  set (word := (V / 2 ^ bit) mod 2 ^ now + carry) in *. rewrite Ec.
  set (c := if 2 ^ (w - 1) <=? word then 1 else 0) in *.
  assert (Hww : word < 2 ^ w).
  { pose proof (Z.pow_le_mono_r 2 now w ltac:(lia) ltac:(lia)). lia. }
  pose proof (digit_range w word ltac:(lia) Ho ltac:(lia)) as Hd. cbv zeta in Hd. fold c in Hd.
  rewrite Z.shiftl_mul_pow2 by lia. set (d := word - c * 2 ^ w) in *.
  assert (Hi : (Z.to_nat bit < length l)%nat) by (rewrite I3; lia).
  assert (Hz : nth (Z.to_nat bit) l 0 = 0) by (apply I6; lia).
  constructor.
  - lia.
  - destruct (Z.leb_spec (2 ^ (w - 1)) word) as [L|L]; [right|left; reflexivity].
    split; [reflexivity|]. destruct (Z.eq_dec (bit + now) len) as [El|]; [exfalso|lia].
    pose proof (high_bits_zero V bit len now Hrange ltac:(lia) ltac:(lia) El) as H.
    assert (word <= 2 ^ (now - 1)) by (unfold word; lia).
    pose proof (Z.pow_le_mono_r 2 (now - 1) (w - 1) ltac:(lia) ltac:(lia)).
    assert (Ew : word = 2 ^ (w - 1)) by lia. rewrite Ew, odd_pow2 in Ho by lia. discriminate Ho.
  - now rewrite length_upd.
  - rewrite wsum_upd, Z2Nat.id, I4, mod_pow2_split by (lia || assumption).
    assert (Ec' : c * 2 ^ (bit + now) = c * 2 ^ w * 2 ^ bit).
    { rewrite Z.pow_add_r by lia. destruct Hx as [->|Hx]; [ring|].
      unfold c. destruct (Z.leb_spec (2 ^ (w - 1)) word); [|ring].
      destruct (Z.eq_dec now w) as [->|]; [ring|]. lia. }
    rewrite Ec'. unfold d, word. ring.
  - apply Forall_upd; [exact I5|]. now apply digit_sign.
  - intros i Hi'. rewrite nth_upd by exact Hi.
    destruct (Nat.eqb_spec (Z.to_nat bit) (Z.to_nat i)); [lia|]. apply I6. lia.
  - lia.
Qed.

(** The fuel [len - bit] is enough, whatever the number. *)
Lemma wnaf_loop_ok fuel : forall bit carry l last, wnaf_inv V sign w len bit carry l last ->
  len - bit <= Z.of_nat fuel ->
  let '(l', last') := wnaf_loop fuel s sign w len bit carry l last in
  wnaf_inv V sign w len len 0 l' last'.
Proof.
  induction fuel as [|fuel IH]; intros bit carry l last I Hf; cbn [wnaf_loop].
  - pose proof (wi_bit _ _ _ _ _ _ _ _ I). assert (bit = len) as -> by lia.
    destruct (wi_carry _ _ _ _ _ _ _ _ I) as [->|[_ H0]]; [exact I|lia].
  - pose proof (wi_bit _ _ _ _ _ _ _ _ I). destruct (Z.ltb_spec bit len) as [Hb|Hb]; cbn [negb].
    2:{ assert (bit = len) as -> by lia.
        destruct (wi_carry _ _ _ _ _ _ _ _ I) as [->|[_ H0]]; [exact I|lia]. }
    rewrite s_get_bits_ok by (try assumption; try lia; f_equal; lia).
    rewrite HV. destruct (Z.eqb_spec ((V / 2 ^ bit) mod 2 ^ 1) carry) as [E|E].
    + apply IH; [now apply wnaf_skip|lia].
    + cbv zeta. set (now := if len - bit <? w then len - bit else w).
      assert (Hn : 1 <= now <= w /\ bit + now <= len)
        by (unfold now; destruct (Z.ltb_spec (len - bit) w); lia).
      rewrite s_get_bits_var_ok by (try assumption; lia). rewrite HV.
      apply IH; [exact (wnaf_word bit carry l last Hb I E)|lia].
Qed.
End Loop.

(** The signed number a stored scalar stands for in this routine. *)
Definition wnaf_value (a : scalar) : Z :=
  if sval a <? 2 ^ 255 then sval a else sval a - n_order.

(** [V] is represented exactly: by digits that are zero or odd and fit the
    table of window [w], the last non-zero one just below the reported length. *)
Lemma ecmult_wnaf_spec len a w : sok a -> 1 <= len <= 256 -> 2 <= w <= 31 ->
  Z.abs (wnaf_value a) < 2 ^ (len - 1) ->
  let '(l, bits) := secp256k1_ecmult_wnaf len a w in
  wsum l = wnaf_value a /\ length l = Z.to_nat len /\ Forall (wnaf_digit w) l /\
  0 <= bits <= len /\ forall i, bits <= i -> nth (Z.to_nat i) l 0 = 0.
Proof.
  intros Ha Hlen Hw HV. unfold secp256k1_ecmult_wnaf. cbv zeta.
  pose proof (sok_range a Ha) as Hr.
  rewrite s_get_bits_ok by (try assumption; try lia; reflexivity).
  assert (Hn : n_order < 2 ^ 256) by reflexivity.
  assert (H : exists s sign V, (if (sval a / 2 ^ 255) mod 2 ^ 1 =? 0 then (a, 1)
      else (s_negate a, -1)) = (s, sign) /\ sok s /\ sval s = V /\ 0 <= V < 2 ^ (len - 1) /\
      (sign = 1 \/ sign = -1) /\ sign * V = wnaf_value a).
  { unfold wnaf_value in *. destruct (Z.ltb_spec (sval a) (2 ^ 255)) as [L|L].
    - rewrite Z.div_small by lia. exists a, 1, (sval a).
      split; [reflexivity|]. split; [exact Ha|]. split; [reflexivity|]. lia.
    - replace (sval a / 2 ^ 255) with 1 by (apply (Z.div_unique _ _ _ (sval a - 2 ^ 255)); lia).
      destruct (s_negate_ok a Ha) as [On Vn]. rewrite neg_mod in Vn by exact Hr.
      destruct (Z.eqb_spec (sval a) 0); [lia|].
      exists (s_negate a), (-1), (n_order - sval a).
      split; [reflexivity|]. split; [exact On|]. split; [exact Vn|]. lia. }
  destruct H as (s & sign & V & -> & Os & Vs & HV' & Hs & <-).
  assert (I0 : wnaf_inv V sign w len 0 0 (repeat 0 (Z.to_nat len)) (-1)).
  { constructor; try lia.
    - apply repeat_length.
    - rewrite wsum_zeros, Z.pow_0_r, Z.mod_1_r. ring.
    - apply Forall_forall. intros x Hx. apply repeat_spec in Hx. now left.
    - intros i _. apply nth_repeat. }
  pose proof (wnaf_loop_ok s V sign w len Os Vs Hlen HV' Hw Hs (Z.to_nat len) 0 0 _ _ I0 ltac:(lia)) as H.
  destruct (wnaf_loop _ _ _ _ _ _ _ _ _) as [l last]. destruct H as [I1 _ I3 I4 I5 I6 I7].
  split; [|split; [exact I3|split; [exact I5|split; [lia|intros i Hi; apply I6; lia]]]].
  rewrite I4, Z.mod_small; [ring|]. split; [lia|].
  apply Z.lt_le_trans with (2 ^ (len - 1)); [lia|]. apply Z.pow_le_mono_r; lia.
Qed.
End Wnaf.
