(* ===== verification/Group.v ===== *)
(** * group_impl.h: points of the curve in affine and Jacobian coordinates

    Written against the interface of field.h.  A function that fills its
    argument [r] takes the old value of [*r] when it leaves some member of it
    unset on some path; [rzr], the optional output of the z-ratio, is an
    option: [None] when the path does not write it. *)
From S2P Require Import Prelude FieldSpec Field CurveSpec.

Section GroupOps.
Context {F : FieldImpl}.

(** ** Data *)

Record secp256k1_ge := Ge { gx : fe; gy : fe; ginf : bool }.
Record secp256k1_gej := Gej { jx : fe; jy : fe; jz : fe; jinf : bool }.
Record secp256k1_ge_storage := GeStorage { sx : fe_storage; sy : fe_storage }.

Definition CURVE_B : Z := 7.

Definition secp256k1_ge_const_g : secp256k1_ge := Ge
  (fe_const 0x79BE667E 0xF9DCBBAC 0x55A06295 0xCE870B07
            0x029BFCDB 0x2DCE28D9 0x59F2815B 0x16F81798)
  (fe_const 0x483ADA77 0x26A3C465 0x5DA4FBFC 0x0E1108A8
            0xFD17B448 0xA6855419 0x9C47D08F 0xFB10D4B8) false.

(** ** Conversions *)

Definition secp256k1_ge_set_gej_zinv (a : secp256k1_gej) (zi : fe) : secp256k1_ge :=
  let zi2 := fe_sqr zi in
  let zi3 := fe_mul zi2 zi in
  Ge (fe_mul (jx a) zi2) (fe_mul (jy a) zi3) (jinf a).

Definition secp256k1_ge_set_xy (x y : fe) : secp256k1_ge := Ge x y false.

Definition secp256k1_ge_is_infinity (a : secp256k1_ge) : bool := ginf a.

Definition secp256k1_ge_neg (a : secp256k1_ge) : secp256k1_ge :=
  Ge (gx a) (fe_negate (fe_normalize_weak (gy a)) 1) (ginf a).

(** The affine point and the rescaled input. *)
Definition secp256k1_ge_set_gej (a : secp256k1_gej) : secp256k1_ge * secp256k1_gej :=
  let az := secp256k1_fe_inv (jz a) in
  let z2 := fe_sqr az in
  let z3 := fe_mul az z2 in
  let ax := fe_mul (jx a) z2 in
  let ay := fe_mul (jy a) z3 in
  let az := fe_set_int 1 in
  (Ge ax ay (jinf a), Gej ax ay az (jinf a)).

Definition secp256k1_ge_set_gej_var (r : secp256k1_ge) (a : secp256k1_gej)
    : secp256k1_ge * secp256k1_gej :=
  if jinf a then (Ge (gx r) (gy r) true, a) else
  let az := secp256k1_fe_inv_var (jz a) in
  let z2 := fe_sqr az in
  let z3 := fe_mul az z2 in
  let ax := fe_mul (jx a) z2 in
  let ay := fe_mul (jy a) z3 in
  let az := fe_set_int 1 in
  (Ge ax ay (jinf a), Gej ax ay az (jinf a)).

(** The second loop of [secp256k1_ge_set_all_gej_var]; [azi] are the inverses
    not yet used. *)
Fixpoint set_all_loop (r : list secp256k1_ge) (a : list secp256k1_gej) (azi : list fe)
    : list secp256k1_ge :=
  match r, a with
  | r0 :: r, a0 :: a =>
    if jinf a0 then Ge (gx r0) (gy r0) true :: set_all_loop r a azi
    else secp256k1_ge_set_gej_zinv a0 (hd (fe_set_int 0) azi) :: set_all_loop r a (tl azi)
  | r, _ => r
  end.

(** [azi0] is the content of the freshly allocated array [azi]. *)
Definition secp256k1_ge_set_all_gej_var (azi0 : list fe) (r : list secp256k1_ge)
    (a : list secp256k1_gej) : list secp256k1_ge :=
  let az := fold_left (fun az ai => if jinf ai then az else az ++ [jz ai]) a [] in
  let count := length az in
  let azi := secp256k1_fe_inv_all_var azi0 az count in
  set_all_loop r a azi.

(** The loops of the two table functions: from entry [i] downwards. *)
Fixpoint table_loop (i : nat) (r : list secp256k1_ge) (a : list secp256k1_gej)
    (zr : list fe) (zi : fe) : list secp256k1_ge :=
  match i with
  | O => r
  | S i =>
    let zi := fe_mul zi (nth (S i) zr (fe_set_int 0)) in
    let r := upd r i (secp256k1_ge_set_gej_zinv
               (nth i a (Gej zi zi zi true)) zi) in
    table_loop i r a zr zi
  end.

Definition secp256k1_ge_set_table_gej_var (r : list secp256k1_ge) (a : list secp256k1_gej)
    (zr : list fe) (len : nat) : list secp256k1_ge :=
  if Nat.ltb 0 len then
    let i := (len - 1)%nat in
    let ai := nth i a (Gej (fe_set_int 0) (fe_set_int 0) (fe_set_int 0) true) in
    let zi := secp256k1_fe_inv (jz ai) in
    let r := upd r i (secp256k1_ge_set_gej_zinv ai zi) in
    table_loop i r a zr zi
  else r.

Fixpoint globalz_loop (len i : nat) (r : list secp256k1_ge) (a : list secp256k1_gej)
    (zr : list fe) (zs : fe) : list secp256k1_ge :=
  match i with
  | O => r
  | S i =>
    let zs := if Nat.eqb (S i) (len - 1) then zs
              else fe_mul zs (nth (S i) zr (fe_set_int 0)) in
    let r := upd r i (secp256k1_ge_set_gej_zinv
               (nth i a (Gej zs zs zs true)) zs) in
    globalz_loop len i r a zr zs
  end.

Definition secp256k1_ge_globalz_set_table_gej (len : nat) (r : list secp256k1_ge)
    (globalz : fe) (a : list secp256k1_gej) (zr : list fe) : list secp256k1_ge * fe :=
  if Nat.ltb 0 len then
    let i := (len - 1)%nat in
    let ai := nth i a (Gej (fe_set_int 0) (fe_set_int 0) (fe_set_int 0) true) in
    let r := upd r i (Ge (jx ai) (jy ai) false) in
    let globalz := jz ai in
    let zs := nth i zr (fe_set_int 0) in
    (globalz_loop len i r a zr zs, globalz)
  else (r, globalz).

Definition secp256k1_gej_set_infinity (r : secp256k1_gej) : secp256k1_gej :=
  Gej (fe_clear (jx r)) (fe_clear (jy r)) (fe_clear (jz r)) true.

Definition secp256k1_gej_clear (r : secp256k1_gej) : secp256k1_gej :=
  Gej (fe_clear (jx r)) (fe_clear (jy r)) (fe_clear (jz r)) false.

Definition secp256k1_ge_clear (r : secp256k1_ge) : secp256k1_ge :=
  Ge (fe_clear (gx r)) (fe_clear (gy r)) false.

Definition secp256k1_ge_set_xquad (x : fe) : secp256k1_ge * bool :=
  let x2 := fe_sqr x in
  let x3 := fe_mul x x2 in
  let c := fe_set_int CURVE_B in
  let c := fe_add c x3 in
  let '(y, ok) := secp256k1_fe_sqrt c in
  (Ge x y false, ok).

Definition secp256k1_ge_set_xo_var (x : fe) (odd : bool) : secp256k1_ge * bool :=
  let '(r, ok) := secp256k1_ge_set_xquad x in
  if negb ok then (r, false) else
  let y := fe_normalize_var (gy r) in
  let y := if negb (Bool.eqb (fe_is_odd y) odd) then fe_negate y 1 else y in
  (Ge (gx r) y (ginf r), true).

Definition secp256k1_gej_set_ge (a : secp256k1_ge) : secp256k1_gej :=
  Gej (gx a) (gy a) (fe_set_int 1) (ginf a).

Definition secp256k1_gej_eq_x_var (x : fe) (a : secp256k1_gej) : bool :=
  let r := fe_sqr (jz a) in
  let r := fe_mul r x in
  let r2 := fe_normalize_weak (jx a) in
  secp256k1_fe_equal_var r r2.

Definition secp256k1_gej_neg (a : secp256k1_gej) : secp256k1_gej :=
  Gej (jx a) (fe_negate (fe_normalize_weak (jy a)) 1) (jz a) (jinf a).

Definition secp256k1_gej_is_infinity (a : secp256k1_gej) : bool := jinf a.

Definition secp256k1_gej_is_valid_var (a : secp256k1_gej) : bool :=
  if jinf a then false else
  let y2 := fe_sqr (jy a) in
  let x3 := fe_sqr (jx a) in
  let x3 := fe_mul x3 (jx a) in
  let z2 := fe_sqr (jz a) in
  let z6 := fe_sqr z2 in
  let z6 := fe_mul z6 z2 in
  let z6 := fe_mul_int z6 CURVE_B in
  let x3 := fe_add x3 z6 in
  let x3 := fe_normalize_weak x3 in
  secp256k1_fe_equal_var y2 x3.

Definition secp256k1_ge_is_valid_var (a : secp256k1_ge) : bool :=
  if ginf a then false else
  let y2 := fe_sqr (gy a) in
  let x3 := fe_sqr (gx a) in
  let x3 := fe_mul x3 (gx a) in
  let c := fe_set_int CURVE_B in
  let x3 := fe_add x3 c in
  let x3 := fe_normalize_weak x3 in
  secp256k1_fe_equal_var y2 x3.

(** ** The group law *)

Definition secp256k1_gej_double_var (r a : secp256k1_gej) : secp256k1_gej * option fe :=
  if jinf a then (Gej (jx r) (jy r) (jz r) true, Some (fe_set_int 1)) else
  let rzr := fe_mul_int (fe_normalize_weak (jy a)) 2 in
  let rz := fe_mul (jz a) (jy a) in
  let rz := fe_mul_int rz 2 in
  let t1 := fe_sqr (jx a) in
  let t1 := fe_mul_int t1 3 in
  let t2 := fe_sqr t1 in
  let t3 := fe_sqr (jy a) in
  let t3 := fe_mul_int t3 2 in
  let t4 := fe_sqr t3 in
  let t4 := fe_mul_int t4 2 in
  let t3 := fe_mul t3 (jx a) in
  let rx := fe_mul_int t3 4 in
  let rx := fe_negate rx 4 in
  let rx := fe_add rx t2 in
  let t2 := fe_negate t2 1 in
  let t3 := fe_mul_int t3 6 in
  let t3 := fe_add t3 t2 in
  let ry := fe_mul t1 t3 in
  let t2 := fe_negate t4 2 in
  let ry := fe_add ry t2 in
  (Gej rx ry rz false, Some rzr).

Definition secp256k1_gej_double_nonzero (r a : secp256k1_gej) : secp256k1_gej * option fe :=
  secp256k1_gej_double_var r a.

Definition secp256k1_gej_add_var (r a b : secp256k1_gej) : secp256k1_gej * option fe :=
  if jinf a then (b, None) else
  if jinf b then (a, Some (fe_set_int 1)) else
  let z22 := fe_sqr (jz b) in
  let z12 := fe_sqr (jz a) in
  let u1 := fe_mul (jx a) z22 in
  let u2 := fe_mul (jx b) z12 in
  let s1 := fe_mul (jy a) z22 in
  let s1 := fe_mul s1 (jz b) in
  let s2 := fe_mul (jy b) z12 in
  let s2 := fe_mul s2 (jz a) in
  let h := fe_negate u1 1 in
  let h := fe_add h u2 in
  let i := fe_negate s1 1 in
  let i := fe_add i s2 in
  if fe_normalizes_to_zero_var h then
    if fe_normalizes_to_zero_var i then
      secp256k1_gej_double_var (Gej (jx r) (jy r) (jz r) false) a
    else (Gej (jx r) (jy r) (jz r) true, Some (fe_set_int 0))
  else
  let i2 := fe_sqr i in
  let h2 := fe_sqr h in
  let h3 := fe_mul h h2 in
  let h := fe_mul h (jz b) in
  let rzr := h in
  let rz := fe_mul (jz a) h in
  let t := fe_mul u1 h2 in
  let rx := fe_mul_int t 2 in
  let rx := fe_add rx h3 in
  let rx := fe_negate rx 3 in
  let rx := fe_add rx i2 in
  let ry := fe_negate rx 5 in
  let ry := fe_add ry t in
  let ry := fe_mul ry i in
  let h3 := fe_mul h3 s1 in
  let h3 := fe_negate h3 1 in
  let ry := fe_add ry h3 in
  (Gej rx ry rz false, Some rzr).

Definition secp256k1_gej_add_ge_var (r a : secp256k1_gej) (b : secp256k1_ge)
    : secp256k1_gej * option fe :=
  if jinf a then (secp256k1_gej_set_ge b, None) else
  if ginf b then (a, Some (fe_set_int 1)) else
  let z12 := fe_sqr (jz a) in
  let u1 := fe_normalize_weak (jx a) in
  let u2 := fe_mul (gx b) z12 in
  let s1 := fe_normalize_weak (jy a) in
  let s2 := fe_mul (gy b) z12 in
  let s2 := fe_mul s2 (jz a) in
  let h := fe_negate u1 1 in
  let h := fe_add h u2 in
  let i := fe_negate s1 1 in
  let i := fe_add i s2 in
  if fe_normalizes_to_zero_var h then
    if fe_normalizes_to_zero_var i then
      secp256k1_gej_double_var (Gej (jx r) (jy r) (jz r) false) a
    else (Gej (jx r) (jy r) (jz r) true, Some (fe_set_int 0))
  else
  let i2 := fe_sqr i in
  let h2 := fe_sqr h in
  let h3 := fe_mul h h2 in
  let rzr := h in
  let rz := fe_mul (jz a) h in
  let t := fe_mul u1 h2 in
  let rx := fe_mul_int t 2 in
  let rx := fe_add rx h3 in
  let rx := fe_negate rx 3 in
  let rx := fe_add rx i2 in
  let ry := fe_negate rx 5 in
  let ry := fe_add ry t in
  let ry := fe_mul ry i in
  let h3 := fe_mul h3 s1 in
  let h3 := fe_negate h3 1 in
  let ry := fe_add ry h3 in
  (Gej rx ry rz false, Some rzr).

Definition secp256k1_gej_add_zinv_var (r a : secp256k1_gej) (b : secp256k1_ge) (bzinv : fe)
    : secp256k1_gej :=
  if ginf b then a else
  if jinf a then
    let bzinv2 := fe_sqr bzinv in
    let bzinv3 := fe_mul bzinv2 bzinv in
    Gej (fe_mul (gx b) bzinv2) (fe_mul (gy b) bzinv3) (fe_set_int 1) (ginf b)
  else
  let az := fe_mul (jz a) bzinv in
  let z12 := fe_sqr az in
  let u1 := fe_normalize_weak (jx a) in
  let u2 := fe_mul (gx b) z12 in
  let s1 := fe_normalize_weak (jy a) in
  let s2 := fe_mul (gy b) z12 in
  let s2 := fe_mul s2 az in
  let h := fe_negate u1 1 in
  let h := fe_add h u2 in
  let i := fe_negate s1 1 in
  let i := fe_add i s2 in
  if fe_normalizes_to_zero_var h then
    if fe_normalizes_to_zero_var i then
      fst (secp256k1_gej_double_var (Gej (jx r) (jy r) (jz r) false) a)
    else Gej (jx r) (jy r) (jz r) true
  else
  let i2 := fe_sqr i in
  let h2 := fe_sqr h in
  let h3 := fe_mul h h2 in
  let rz := jz a in
  let rz := fe_mul rz h in
  let t := fe_mul u1 h2 in
  let rx := fe_mul_int t 2 in
  let rx := fe_add rx h3 in
  let rx := fe_negate rx 3 in
  let rx := fe_add rx i2 in
  let ry := fe_negate rx 5 in
  let ry := fe_add ry t in
  let ry := fe_mul ry i in
  let h3 := fe_mul h3 s1 in
  let h3 := fe_negate h3 1 in
  let ry := fe_add ry h3 in
  Gej rx ry rz false.

Definition fe_1 : fe := fe_const 0 0 0 0 0 0 0 1.

Definition secp256k1_gej_add_ge (a : secp256k1_gej) (b : secp256k1_ge) : secp256k1_gej :=
  let zz := fe_sqr (jz a) in
  let u1 := fe_normalize_weak (jx a) in
  let u2 := fe_mul (gx b) zz in
  let s1 := fe_normalize_weak (jy a) in
  let s2 := fe_mul (gy b) zz in
  let s2 := fe_mul s2 (jz a) in
  let t := fe_add u1 u2 in
  let m := fe_add s1 s2 in
  let rr := fe_sqr t in
  let m_alt := fe_negate u2 1 in
  let tt := fe_mul u1 m_alt in
  let rr := fe_add rr tt in
  let degenerate := fe_normalizes_to_zero m && fe_normalizes_to_zero rr in
  let rr_alt := fe_mul_int s1 2 in
  let m_alt := fe_add m_alt u1 in
  let rr_alt := fe_cmov rr_alt rr (negb degenerate) in
  let m_alt := fe_cmov m_alt m (negb degenerate) in
  let n := fe_sqr m_alt in
  let q := fe_mul n t in
  let n := fe_sqr n in
  let n := fe_cmov n m degenerate in
  let t := fe_sqr rr_alt in
  let rz := fe_mul (jz a) m_alt in
  let infinity := fe_normalizes_to_zero rz && negb (jinf a) in
  let rz := fe_mul_int rz 2 in
  let q := fe_negate q 1 in
  let t := fe_add t q in
  let t := fe_normalize_weak t in
  let rx := t in
  let t := fe_mul_int t 2 in
  let t := fe_add t q in
  let t := fe_mul t rr_alt in
  let t := fe_add t n in
  let ry := fe_negate t 3 in
  let ry := fe_normalize_weak ry in
  let rx := fe_mul_int rx 4 in
  let ry := fe_mul_int ry 4 in
  let rx := fe_cmov rx (gx b) (jinf a) in
  let ry := fe_cmov ry (gy b) (jinf a) in
  let rz := fe_cmov rz fe_1 (jinf a) in
  Gej rx ry rz infinity.

Definition secp256k1_gej_rescale (r : secp256k1_gej) (s : fe) : secp256k1_gej :=
  let zz := fe_sqr s in
  let rx := fe_mul (jx r) zz in
  let ry := fe_mul (jy r) zz in
  let ry := fe_mul ry s in
  let rz := fe_mul (jz r) s in
  Gej rx ry rz (jinf r).

Definition secp256k1_ge_to_storage (a : secp256k1_ge) : secp256k1_ge_storage :=
  GeStorage (fe_to_storage (fe_normalize (gx a))) (fe_to_storage (fe_normalize (gy a))).

Definition secp256k1_ge_from_storage (a : secp256k1_ge_storage) : secp256k1_ge :=
  Ge (fe_from_storage (sx a)) (fe_from_storage (sy a)) false.

Definition secp256k1_ge_storage_cmov (r a : secp256k1_ge_storage) (flag : bool)
    : secp256k1_ge_storage :=
  GeStorage (fe_storage_cmov (sx r) (sx a) flag) (fe_storage_cmov (sy r) (sy a) flag).

Definition beta : fe := fe_const
  0x7ae96a2b 0x657c0710 0x6e64479e 0xac3434e9 0x9cf04975 0x12f58995 0xc1396c28 0x719501ee.

Definition secp256k1_ge_mul_lambda (a : secp256k1_ge) : secp256k1_ge :=
  Ge (fe_mul (gx a) beta) (gy a) (ginf a).

Definition secp256k1_gej_has_quad_y_var (a : secp256k1_gej) : bool :=
  if jinf a then false else
  let yz := fe_mul (jy a) (jz a) in
  secp256k1_fe_is_quad_var yz.

(** * Theorems

    ** Symbolic execution of field code

    [fev a m e]: the element [a] has magnitude [m] and the value of the
    integer expression [e]. *)

Definition fev (a : fe) (m e : Z) : Prop := fmag a m /\ fval a =[p]= e.

Lemma fev_self a m : fmag a m -> fev a m (fval a).
Proof. now split. Qed.

Lemma fev_mul a b m n e f : fev a m e -> fev b n f -> (m <=? 8) && (n <=? 8) = true ->
  fev (fe_mul a b) 1 (e * f).
Proof.
  rewrite andb_true_iff, !Z.leb_le. intros [Ma Va] [Mb Vb] [Hm Hn].
  destruct (fe_mul_ok a b (fmag_le _ _ _ Ma Hm) (fmag_le _ _ _ Mb Hn)) as [M V].
  split; [exact M|]. now rewrite V, Va, Vb.
Qed.

Lemma fev_sqr a m e : fev a m e -> (m <=? 8) = true -> fev (fe_sqr a) 1 (e * e).
Proof.
  rewrite Z.leb_le. intros [Ma Va] Hm.
  destruct (fe_sqr_ok a (fmag_le _ _ _ Ma Hm)) as [M V].
  split; [exact M|]. now rewrite V, Va.
Qed.

Lemma fev_add a b m n e f : fev a m e -> fev b n f -> (m + n <=? 32) = true ->
  fev (fe_add a b) (m + n) (e + f).
Proof.
  rewrite Z.leb_le. intros [Ma Va] [Mb Vb] Hm.
  destruct (fe_add_ok a b m n Ma Mb Hm) as [M V].
  split; [exact M|]. now rewrite V, Va, Vb.
Qed.

Lemma fev_negate a m n e : fev a m e -> (m <=? n) && (n <=? 31) = true ->
  fev (fe_negate a n) (n + 1) (- e).
Proof.
  rewrite andb_true_iff, !Z.leb_le. intros [Ma Va] [Hm Hn].
  destruct (fe_negate_ok a n (fmag_le _ _ _ Ma Hm) Hn) as [M V].
  split; [exact M|]. now rewrite V, Va.
Qed.

Lemma fev_mul_int a m k e : fev a m e -> (0 <=? k) && (m * k <=? 32) = true ->
  fev (fe_mul_int a k) (m * k) (e * k).
Proof.
  rewrite andb_true_iff, !Z.leb_le. intros [Ma Va] [Hk Hm].
  destruct (fe_mul_int_ok a m k Ma Hk Hm) as [M V].
  split; [exact M|]. now rewrite V, Va.
Qed.

Lemma fev_weak a m e : fev a m e -> (m <=? 31) = true -> fev (fe_normalize_weak a) 1 e.
Proof.
  rewrite Z.leb_le. intros [Ma Va] Hm.
  destruct (fe_normalize_weak_ok a (fmag_le _ _ _ Ma Hm)) as [M V].
  split; [exact M|]. now rewrite V, Va.
Qed.

Lemma fev_set_int n : (0 <=? n) && (n <=? 0x3FFFFFF) = true -> fev (fe_set_int n) 1 n.
Proof.
  rewrite andb_true_iff, !Z.leb_le. intros H. destruct (fe_set_int_ok n H) as [N V].
  split; [now apply fnorm_mag|now rewrite V].
Qed.

Lemma fev_const d7 d6 d5 d4 d3 d2 d1 d0 :
  forallb (fun d => (0 <=? d) && (d <? 2 ^ 32)) [d7; d6; d5; d4; d3; d2; d1; d0] = true ->
  (words_val d7 d6 d5 d4 d3 d2 d1 d0 <? p) = true ->
  fev (fe_const d7 d6 d5 d4 d3 d2 d1 d0) 1 (words_val d7 d6 d5 d4 d3 d2 d1 d0).
Proof.
  rewrite forallb_forall, Z.ltb_lt. intros H Hp.
  destruct (fe_const_ok d7 d6 d5 d4 d3 d2 d1 d0) as [N V]; [|exact Hp|].
  - apply Forall_forall. intros x Hx. specialize (H x Hx).
    rewrite andb_true_iff, Z.leb_le, Z.ltb_lt in H. exact H.
  - split; [exact (fnorm_mag _ N)|]. rewrite V. reflexivity.
Qed.

Lemma fev_eq a m e f : fev a m e -> e =[p]= f -> fev a m f.
Proof. intros [M V] H. split; [exact M|now rewrite V]. Qed.

Lemma fev_le a m n e : fev a m e -> (m <=? n) = true -> fev a n e.
Proof. rewrite Z.leb_le. intros [M V] H. split; [now apply (fmag_le _ m)|exact V]. Qed.

Lemma fev_zero_var a m e : fev a m e -> (m <=? 31) = true ->
  fe_normalizes_to_zero_var a = (e mod p =? 0).
Proof.
  rewrite Z.leb_le. intros [M V] H. rewrite fe_normalizes_to_zero_var_ok.
  - apply cong_iff in V. now rewrite V.
  - now apply (fmag_le _ m).
Qed.

Lemma fev_zero a m e : fev a m e -> (m <=? 31) = true ->
  fe_normalizes_to_zero a = (e mod p =? 0).
Proof.
  rewrite Z.leb_le. intros [M V] H. rewrite fe_normalizes_to_zero_ok.
  - apply cong_iff in V. now rewrite V.
  - now apply (fmag_le _ m).
Qed.

Lemma fev_cmov a b m n e f flag : fev a m e -> fev b n f -> (m <=? 32) && (n <=? 32) = true ->
  fe_cmov a b flag = if flag then b else a.
Proof.
  rewrite andb_true_iff, !Z.leb_le. intros [Ma _] [Mb _] [Hm Hn].
  apply (fe_cmov_ok a b 32); [now apply (fmag_le _ m)|now apply (fmag_le _ n)|lia].
Qed.

(** The fact about a selected element. *)
Lemma fev_select a b m n k e f (flag : bool) : fev a m e -> fev b n f ->
  (m <=? k) && (n <=? k) && (k <=? 32) = true ->
  fev (fe_cmov a b flag) k (if flag then f else e).
Proof.
  rewrite !andb_true_iff, !Z.leb_le. intros Ha Hb [[Hm Hn] Hk].
  rewrite (fev_cmov a b m n e f flag Ha Hb) by (rewrite andb_true_iff, !Z.leb_le; lia).
  destruct flag; [destruct Hb as [M V]|destruct Ha as [M V]];
    (split; [now apply (fmag_le _ _ _ M)|exact V]).
Qed.

End GroupOps.

Ltac fev_of u k := match goal with H : fev u _ _ |- _ => k H end.

(** The fact about the result of one field operation. *)
Ltac fe_fact e k :=
  lazymatch e with
  | fe_mul ?u ?v => fev_of u ltac:(fun Hu => fev_of v ltac:(fun Hv =>
      k constr:(fev_mul u v _ _ _ _ Hu Hv eq_refl)))
  | fe_sqr ?u => fev_of u ltac:(fun Hu => k constr:(fev_sqr u _ _ Hu eq_refl))
  | fe_add ?u ?v => fev_of u ltac:(fun Hu => fev_of v ltac:(fun Hv =>
      k constr:(fev_add u v _ _ _ _ Hu Hv eq_refl)))
  | fe_negate ?u ?n => fev_of u ltac:(fun Hu => k constr:(fev_negate u _ n _ Hu eq_refl))
  | fe_mul_int ?u ?n => fev_of u ltac:(fun Hu => k constr:(fev_mul_int u _ n _ Hu eq_refl))
  | fe_normalize_weak ?u => fev_of u ltac:(fun Hu => k constr:(fev_weak u _ _ Hu eq_refl))
  | fe_set_int ?n => k constr:(fev_set_int n eq_refl)
  | fe_cmov ?u ?v ?f => fev_of u ltac:(fun Hu => fev_of v ltac:(fun Hv =>
      lazymatch type of Hu with fev _ ?m _ => lazymatch type of Hv with fev _ ?n _ =>
        let j := eval vm_compute in (Z.max m n) in
        k constr:(fev_select u v m n j _ _ f Hu Hv eq_refl) end end))
  end.

Ltac fe_step :=
  lazymatch goal with
  | |- wp ?P (let x := ?e in @?b x) =>
    tryif first [is_var e | lazymatch e with jz _ => idtac end] then (change (wp P (b e)); cbv beta) else
    let K := fresh "K" in
    fe_fact e ltac:(fun pf => pose proof pf as K);
    (lazymatch type of K with fev ?u ?m ?v =>
       let m' := eval vm_compute in m in change (fev u m' v) in K end);
    let y := fresh x in let H := fresh "E" in
    apply (wp_let P e b); intros y H; cbv beta; rewrite <- H in K; clear H
  end.

(** ** Representation of points *)

Section GroupLaws.
Context {F : FieldImpl}.

Definition gej_mags (a : secp256k1_gej) : Prop :=
  fmag (jx a) 8 /\ fmag (jy a) 8 /\ fmag (jz a) 8.

Definition ge_mags (a : secp256k1_ge) : Prop := fmag (gx a) 8 /\ fmag (gy a) 8.

(** [a] represents [P] when its z coordinate is taken to be [z]. *)
Definition rep_at (z : Z) (a : secp256k1_gej) (P : point) : Prop :=
  gej_mags a /\ on_curve P /\
  match P with
  | Inf => jinf a = true
  | Aff x y => jinf a = false /\ z mod p <> 0 /\
      fval (jx a) =[p]= x * (z * z) /\ fval (jy a) =[p]= y * (z * z * z)
  end.

Definition gej_rep (a : secp256k1_gej) (P : point) : Prop := rep_at (fval (jz a)) a P.

(** The representation on the isomorphic curve of factor [g]: the true z
    coordinate is [g] times the stored one.  The formulas do not involve the
    constant of the curve, so they hold there as well. *)
Definition gej_srep (g : Z) (a : secp256k1_gej) (P : point) : Prop :=
  rep_at (fval (jz a) * g) a P.

Definition ge_rep (a : secp256k1_ge) (P : point) : Prop :=
  ge_mags a /\ on_curve P /\
  match P with
  | Inf => ginf a = true
  | Aff x y => ginf a = false /\ fval (gx a) =[p]= x /\ fval (gy a) =[p]= y
  end.

Lemma rep_at_ext z z' a P : z =[p]= z' -> rep_at z a P -> rep_at z' a P.
Proof.
  intros E (M & Hc & H). split; [exact M|]. split; [exact Hc|]. destruct P as [|x y]; [exact H|].
  destruct H as (Hi & Hz & Vx & Vy). split; [exact Hi|]. split.
  - rewrite cong_0, <- E, <- cong_0. exact Hz.
  - rewrite <- E. now split.
Qed.

Lemma srep_1 a P : gej_srep 1 a P <-> gej_rep a P.
Proof. split; apply rep_at_ext; apply cong_eq; ring. Qed.

Lemma srep_inf g a : gej_mags a -> jinf a = true -> gej_srep g a Inf.
Proof. intros M H. exact (conj M (conj I H)). Qed.

Lemma rep_inf a : gej_mags a -> jinf a = true -> gej_rep a Inf.
Proof. intros M H. exact (conj M (conj I H)). Qed.

(** A Jacobian triple computed by a formula represents the third point of a line. *)
Lemma chord_rep g rx ry rz m n k l x1 y1 x2 X Y z z0 :
  fev rx m X -> fev ry n Y -> fev rz k z0 -> (m <=? 8) && (n <=? 8) && (k <=? 8) = true ->
  z0 * g = z -> z mod p <> 0 -> on_curve (chord l x1 y1 x2) ->
  X =[p]= (l * l - x1 - x2) * (z * z) ->
  Y =[p]= (l * (x1 - (l * l - x1 - x2)) - y1) * (z * z * z) ->
  gej_srep g (Gej rx ry rz false) (chord l x1 y1 x2).
Proof.
  rewrite !andb_true_iff, !Z.leb_le.
  intros [Mx Vx] [My Vy] [Mz Vz] [[Hm Hn] Hk] Eg Hz Hc EX EY.
  apply (rep_at_ext z); [cbn [jz]; rewrite Vz, <- Eg; reflexivity|].
  split; [|split; [exact Hc|]].
  { repeat split; cbn [jx jy jz]; eapply fmag_le; eassumption. }
  unfold chord. cbn [jx jy jz jinf]. split; [reflexivity|]. split; [exact Hz|]. split.
  - rewrite Vx, EX, (cong_mod p (l * l - x1 - x2)). reflexivity.
  - rewrite Vy, EY, (cong_mod p (l * (x1 - (l * l - x1 - x2) mod p) - y1)),
      (cong_mod p (l * l - x1 - x2)). reflexivity.
Qed.

Lemma double_srep g r a P : gej_mags r -> gej_srep g a P ->
  let d := secp256k1_gej_double_var r a in
  gej_srep g (fst d) (padd P P) /\
  exists z, snd d = Some z /\ fmag z 2 /\
    (jinf a = false -> fval (jz (fst d)) =[p]= fval (jz a) * fval z).
Proof.
  intros Hr [(Mx & My & Mz) [HP H]]. enter @secp256k1_gej_double_var.
  destruct P as [|x y].
  - rewrite H. unfold wp. cbn [fst snd]. split; [apply srep_inf; [exact Hr|reflexivity]|].
    exists (fe_set_int 1). split; [reflexivity|].
    destruct (fev_set_int 1 eq_refl) as [M1 _].
    split; [apply (fmag_le _ 1); [exact M1|lia]|congruence].
  - destruct H as (Hi & Hz & Vx & Vy). rewrite Hi.
    apply fev_self in Mz. remember (fval (jz a) * g) as z eqn:Ez.
    assert (Kx : fev (jx a) 8 (x * (z * z))) by now split.
    assert (Ky : fev (jy a) 8 (y * (z * z * z))) by now split.
    clear Mx My Vx Vy. set (z0 := fval (jz a)) in *. cbv iota.
    wtake rzr Er. repeat fe_step.
    unfold wp. cbn [fst snd jz].
    destruct (padd_tangent x y HP) as (l & L & -> & Hc).
    assert (Hy := y_nonzero x y HP).
    split.
    + eapply (chord_rep g _ _ _ _ _ _ l x y x _ _ (2 * (z * (y * (z * z * z)))) _ K11 K17 K0 eq_refl);
        [rewrite Ez; ring| |exact Hc|..].
      * apply two_nonzero. repeat apply mul_nonzero; assumption.
      * symmetry. transitivity ((l * (2 * y) * (l * (2 * y)) - 8 * x * y * y)
          * (z * z * z * z * z * z * z * z)); [apply cong_eq; ring|].
        rewrite L. apply cong_eq. ring.
      * symmetry. transitivity ((l * (2 * y) * (3 * x * (2 * y) * (2 * y)
          - l * (2 * y) * (l * (2 * y))) - 8 * y * y * y * y)
          * (z * z * z * z * z * z * z * z * z * z * z * z)); [apply cong_eq; ring|].
        rewrite L. apply cong_eq. ring.
    + exists rzr. split; [reflexivity|].
      pose proof (fev_mul_int _ _ 2 _ (fev_weak _ _ _ Ky eq_refl) eq_refl) as [Mr Vr].
      rewrite <- Er in Mr, Vr. split; [exact Mr|]. intros _.
      rewrite (proj2 K0), Vr. apply cong_eq. ring.
Qed.

Lemma double_rep r a P : gej_mags r -> gej_rep a P ->
  let d := secp256k1_gej_double_var r a in
  gej_rep (fst d) (padd P P) /\
  exists z, snd d = Some z /\ fmag z 2 /\
    (jinf a = false -> fval (jz (fst d)) =[p]= fval (jz a) * fval z).
Proof.
  intros Hr Ha. destruct (double_srep 1 r a P Hr (proj2 (srep_1 _ _) Ha)) as [H1 H2].
  split; [apply srep_1; exact H1|exact H2].
Qed.

(** ** Addition *)

(** The common tail of the addition formulas: with [u], [s] the scaled
    coordinates of the first point and [h], [i] the scaled differences. *)
Lemma chord_alg l x1 y1 x2 Z u s h i :
  u =[p]= x1 * (Z * Z) -> s =[p]= y1 * (Z * Z * Z) ->
  h =[p]= (x2 - x1) * (Z * Z) -> i =[p]= l * (x2 - x1) * (Z * Z * Z) ->
  let z3 := Z * h in
  let X := - (u * (h * h) * 2 + h * (h * h)) + i * i in
  X =[p]= (l * l - x1 - x2) * (z3 * z3) /\
  (- X + u * (h * h)) * i + - (h * (h * h) * s)
    =[p]= (l * (x1 - (l * l - x1 - x2)) - y1) * (z3 * z3 * z3).
Proof.
  intros Hu Hs Hh Hi. cbv zeta. rewrite Hu, Hs, Hh, Hi. split; apply cong_eq; ring.
Qed.

Lemma diff_zero e a b c : e =[p]= (b - a) * c -> in_fp a -> in_fp b -> c mod p <> 0 ->
  (e mod p =? 0) = (a =? b).
Proof.
  intros He Ha Hb Hc. apply eq_true_iff_eq. rewrite !Z.eqb_eq, cong_0, He. split.
  - intros H. destruct (mul_zero _ _ H) as [E|E].
    + apply in_fp_eq; try assumption. destruct E as [k E]. exists (- k). lia.
    + now apply cong_0 in E.
  - intros ->. apply cong_eq. ring.
Qed.

(** What the formulas have in common once the scaled values are known: [h] and
    [i] decide the case, and the tail gives the chord. *)
Lemma add_cases x1 y1 x2 y2 Z h i :
  on_curve (Aff x1 y1) -> on_curve (Aff x2 y2) -> Z mod p <> 0 ->
  h =[p]= (x2 - x1) * (Z * Z) -> i =[p]= (y2 - y1) * (Z * Z * Z) ->
  if h mod p =? 0 then
    if i mod p =? 0 then Aff x1 y1 = Aff x2 y2 else padd (Aff x1 y1) (Aff x2 y2) = Inf
  else h mod p <> 0 /\ exists l, i =[p]= l * (x2 - x1) * (Z * Z * Z) /\
    padd (Aff x1 y1) (Aff x2 y2) = chord l x1 y1 x2 /\ on_curve (chord l x1 y1 x2).
Proof.
  intros H1 H2 HZ Hh Hi.
  assert (HZ2 : (Z * Z) mod p <> 0) by now apply mul_nonzero.
  assert (HZ3 : (Z * Z * Z) mod p <> 0) by now apply mul_nonzero.
  rewrite (diff_zero h x1 x2 _ Hh (proj1 H1) (proj1 H2) HZ2).
  rewrite (diff_zero i y1 y2 _ Hi (proj1 (proj2 H1)) (proj1 (proj2 H2)) HZ3).
  destruct (Z.eqb_spec x1 x2) as [->|Hx].
  - destruct (Z.eqb_spec y1 y2) as [->|Hy]; [reflexivity|].
    destruct (same_x x2 y1 y2 H1 H2) as [E|E]; [contradiction|now apply padd_opposite].
  - split.
    + intros E. apply cong_0 in E. rewrite Hh in E. apply cong_0 in E.
      revert E. apply mul_nonzero; [|exact HZ2].
      apply sub_nonzero; [apply H1|apply H2|exact Hx].
    + destruct (padd_chord x1 y1 x2 y2 H1 H2 Hx) as (l & L & E & Hc).
      exists l. split; [now rewrite L|]. now split.
Qed.

(** The z-ratio an addition reports: the z coordinate of the result is the
    product of that of [a] and the ratio, which is 0 for infinity. *)
Definition rzr_ok (a d : secp256k1_gej) (rzr : option fe) : Prop :=
  jinf a = false -> exists z, rzr = Some z /\ fmag z 8 /\
    (if jinf d then fval z =[p]= 0 else fval (jz d) =[p]= fval (jz a) * fval z).

Lemma padd_inf_r P : padd P Inf = P.
Proof. now destruct P. Qed.

Lemma rzr_one a : rzr_ok a a (Some (fe_set_int 1)).
Proof.
  intros H. exists (fe_set_int 1). split; [reflexivity|].
  destruct (fev_set_int 1 eq_refl) as [M V]. split; [apply (fmag_le _ 1); [exact M|lia]|].
  rewrite H, V. apply cong_eq. ring.
Qed.

Lemma rzr_zero a d : jinf d = true -> rzr_ok a d (Some (fe_set_int 0)).
Proof.
  intros H _. exists (fe_set_int 0). split; [reflexivity|].
  destruct (fev_set_int 0 eq_refl) as [M V]. split; [apply (fmag_le _ 1); [exact M|lia]|].
  now rewrite H.
Qed.

Lemma double_rzr r a P : gej_mags r -> gej_rep a P -> jinf a = false ->
  rzr_ok a (fst (secp256k1_gej_double_var r a)) (snd (secp256k1_gej_double_var r a)).
Proof.
  intros Hr Ha Hi _. destruct (double_rep r a P Hr Ha) as (_ & z & E & M & V).
  exists z. split; [exact E|]. split; [apply (fmag_le _ 2); [exact M|lia]|].
  assert (J : jinf (fst (secp256k1_gej_double_var r a)) = false).
  { unfold secp256k1_gej_double_var. now rewrite Hi. }
  rewrite J. now apply V.
Qed.

Lemma mags_flag r b : gej_mags r -> gej_mags (Gej (jx r) (jy r) (jz r) b).
Proof. exact (fun H => H). Qed.

Lemma double_case_s g r a P : gej_mags r -> gej_srep g a P -> jinf a = false ->
  let d := secp256k1_gej_double_var (Gej (jx r) (jy r) (jz r) false) a in
  gej_srep g (fst d) (padd P P) /\ rzr_ok a (fst d) (snd d).
Proof.
  intros Hr Ha Hi.
  destruct (double_srep g (Gej (jx r) (jy r) (jz r) false) a P (mags_flag r false Hr) Ha)
    as (H & z & E & M & V).
  split; [exact H|]. intros _. exists z. split; [exact E|].
  split; [apply (fmag_le _ 2); [exact M|lia]|].
  assert (J : jinf (fst (secp256k1_gej_double_var (Gej (jx r) (jy r) (jz r) false) a)) = false).
  { unfold secp256k1_gej_double_var. now rewrite Hi. }
  rewrite J. now apply V.
Qed.

Lemma double_case r a P : gej_mags r -> gej_rep a P -> jinf a = false ->
  let d := secp256k1_gej_double_var (Gej (jx r) (jy r) (jz r) false) a in
  gej_rep (fst d) (padd P P) /\ rzr_ok a (fst d) (snd d).
Proof.
  intros Hr Ha Hi. split.
  - exact (proj1 (double_rep _ a P (mags_flag r false Hr) Ha)).
  - exact (double_rzr _ a P (mags_flag r false Hr) Ha Hi).
Qed.

(** The facts about a finite operand. *)
Lemma rep_finite a x y : gej_rep a (Aff x y) ->
  on_curve (Aff x y) /\ jinf a = false /\ fval (jz a) mod p <> 0 /\
  fev (jx a) 8 (x * (fval (jz a) * fval (jz a))) /\
  fev (jy a) 8 (y * (fval (jz a) * fval (jz a) * fval (jz a))) /\
  fev (jz a) 8 (fval (jz a)).
Proof.
  intros ((Mx & My & Mz) & Hc & Hi & Hz & Vx & Vy).
  exact (conj Hc (conj Hi (conj Hz (conj (conj Mx Vx) (conj (conj My Vy) (fev_self _ _ Mz)))))).
Qed.

Lemma srep_finite g a x y : gej_srep g a (Aff x y) ->
  let z := fval (jz a) * g in
  on_curve (Aff x y) /\ jinf a = false /\ z mod p <> 0 /\
  fev (jx a) 8 (x * (z * z)) /\ fev (jy a) 8 (y * (z * z * z)) /\ fev (jz a) 8 (fval (jz a)).
Proof.
  intros ((Mx & My & Mz) & Hc & Hi & Hz & Vx & Vy). cbv zeta.
  exact (conj Hc (conj Hi (conj Hz (conj (conj Mx Vx) (conj (conj My Vy) (fev_self _ _ Mz)))))).
Qed.

Ltac zero_test :=
  lazymatch goal with
  | |- wp _ (if fe_normalizes_to_zero_var ?h then _ else _) =>
    fev_of h ltac:(fun H => rewrite (fev_zero_var _ _ _ H eq_refl))
  end.

Ltac on_fev u k :=
  match goal with H : fev u ?m ?e |- _ => k e end.

(** The common end of the additions: the chord computed from the scaled values. *)
Lemma chord_end g l x1 y1 x2 Z u s h i rx ry rz m n k X Y z P :
  P = chord l x1 y1 x2 -> on_curve (chord l x1 y1 x2) -> Z mod p <> 0 -> h mod p <> 0 ->
  u =[p]= x1 * (Z * Z) -> s =[p]= y1 * (Z * Z * Z) ->
  h =[p]= (x2 - x1) * (Z * Z) -> i =[p]= l * (x2 - x1) * (Z * Z * Z) ->
  fev rx m X -> fev ry n Y -> fev rz k z -> (m <=? 8) && (n <=? 8) && (k <=? 8) = true ->
  z * g = Z * h -> X = - (u * (h * h) * 2 + h * (h * h)) + i * i ->
  Y = (- X + u * (h * h)) * i + - (h * (h * h) * s) ->
  gej_srep g (Gej rx ry rz false) P.
Proof.
  intros -> Hc HZ Hz Hu Hs Hh Hi Kx Ky Kz Hm Eg EX EY.
  destruct (chord_alg l x1 y1 x2 Z u s h i Hu Hs Hh Hi) as [A1 A2].
  eapply (chord_rep g _ _ _ _ _ _ l x1 y1 x2 _ _ _ _ Kx Ky Kz Hm Eg);
    [now apply mul_nonzero|exact Hc|subst X; exact A1|subst Y; rewrite EX; exact A2].
Qed.

(** The case analysis of the additions, on the tests of [h] and [i]: [s] is the
    scaled ordinate of the first point and [Z] the common scale. *)
Ltac add_split u1 s Z x1 y1 x2 y2 HZ :=
  lazymatch goal with
  | |- wp _ (if fe_normalizes_to_zero_var ?h then
        (if fe_normalizes_to_zero_var ?i then _ else _) else _) =>
    let zs := fresh "zs" in let EZ := fresh "EZ" in let HZs := fresh "HZ" in
    destruct (ex_intro (fun u => u = Z) Z eq_refl) as [zs EZ];
    assert (HZs : zs mod p <> 0) by (rewrite EZ; exact HZ);
    on_fev h ltac:(fun eh => on_fev i ltac:(fun ei => on_fev u1 ltac:(fun eu =>
      on_fev s ltac:(fun es =>
      assert (Eh : eh =[p]= (x2 - x1) * (zs * zs)) by (rewrite EZ; apply cong_eq; ring);
      assert (Ei : ei =[p]= (y2 - y1) * (zs * zs * zs)) by (rewrite EZ; apply cong_eq; ring);
      assert (Eu : eu =[p]= x1 * (zs * zs)) by (rewrite EZ; apply cong_eq; ring);
      assert (Es : es =[p]= y1 * (zs * zs * zs)) by (rewrite EZ; apply cong_eq; ring);
      rewrite (fev_zero_var h _ _ ltac:(eassumption) eq_refl);
      rewrite (fev_zero_var i _ _ ltac:(eassumption) eq_refl);
      let C := fresh "C" in
      pose proof (add_cases x1 y1 x2 y2 zs eh ei ltac:(assumption) ltac:(assumption)
        HZs Eh Ei) as C;
      let I := fresh "I" in let H := fresh "H" in let U := fresh "U" in let S := fresh "S" in
      let E := fresh "E" in
      remember ei as I eqn:E; clear E; remember eh as H eqn:E; clear E;
      remember es as S eqn:E; clear E; remember eu as U eqn:E; clear E;
      destruct (H mod p =? 0);
        [destruct (I mod p =? 0)|
         let l := fresh "l" in let L := fresh "L" in
         destruct C as (C & l & L & E & Hc)]))))
  end.

Ltac chord_finish :=
  match goal with
  | E : _ = chord ?l ?x1 ?y1 ?x2, Hc : on_curve _,
    L : ?i =[p]= ?l * _ * (?Z * _ * _), Eh : ?h =[p]= (?x2 - ?x1) * (?Z * _),
    C : ?h mod p <> 0, Eu : ?u =[p]= ?x1 * (?Z * _), Es : ?s =[p]= ?y1 * (?Z * _ * _),
    HZ : ?Z mod p <> 0, EZ : ?Z = _ |- gej_srep ?g (Gej ?rx ?ry ?rz _) _ =>
    on_fev rx ltac:(fun X => on_fev ry ltac:(fun Y => on_fev rz ltac:(fun z =>
      apply (chord_end g l x1 y1 x2 Z u s h i rx ry rz _ _ _ X Y z _ E Hc HZ C Eu Es Eh L
        ltac:(eassumption) ltac:(eassumption) ltac:(eassumption) eq_refl); rewrite ?EZ; ring)))
  end.

Lemma add_var_rep r a b P Q : gej_mags r -> gej_rep a P -> gej_rep b Q ->
  let d := secp256k1_gej_add_var r a b in
  gej_rep (fst d) (padd P Q) /\ rzr_ok a (fst d) (snd d).
Proof.
  intros Hr Ha Hb. enter @secp256k1_gej_add_var.
  destruct P as [|x1 y1].
  { destruct Ha as (_ & _ & Hi). rewrite Hi. unfold wp. cbn [fst snd].
    split; [exact Hb|]. unfold rzr_ok. congruence. }
  destruct Q as [|x2 y2].
  { destruct (rep_finite _ _ _ Ha) as (_ & Hi & _). destruct Hb as (_ & _ & Hj).
    rewrite Hi, Hj, padd_inf_r. unfold wp. cbn [fst snd]. split; [exact Ha|apply rzr_one]. }
  destruct (rep_finite _ _ _ Ha) as (H1 & Hi & Hz1 & Kx1 & Ky1 & Kz1).
  destruct (rep_finite _ _ _ Hb) as (H2 & Hj & Hz2 & Kx2 & Ky2 & Kz2).
  rewrite Hi, Hj. cbv iota. set (z1 := fval (jz a)) in *. set (z2 := fval (jz b)) in *.
  do 12 fe_step.
  add_split u1 s0 (z1 * z2) x1 y1 x2 y2 (mul_nonzero _ _ Hz1 Hz2).
  - unfold wp. rewrite <- C. exact (double_case r a _ Hr Ha Hi).
  - unfold wp. cbn [fst snd]. rewrite C.
    split; [apply rep_inf; [exact (mags_flag r true Hr)|reflexivity]|now apply rzr_zero].
  - repeat fe_step. unfold wp. cbn [fst snd]. split.
    + apply srep_1. chord_finish.
    + intros _. exists h1. split; [reflexivity|]. cbn [jinf jz].
      match goal with K : fev h1 _ _ |- _ => destruct K as [M V] end.
      split; [apply (fmag_le _ 1); [exact M|lia]|].
      match goal with K : fev rz _ _ |- _ => rewrite (proj2 K), V end. reflexivity.
Qed.

Lemma ge_finite b x y : ge_rep b (Aff x y) ->
  on_curve (Aff x y) /\ ginf b = false /\ fev (gx b) 8 x /\ fev (gy b) 8 y.
Proof.
  intros ((Mx & My) & Hc & Hi & Vx & Vy).
  exact (conj Hc (conj Hi (conj (conj Mx Vx) (conj My Vy)))).
Qed.

Lemma one_nonzero : 1 mod p <> 0.
Proof. vm_compute. discriminate. Qed.

Lemma one_rep u v w x y : on_curve (Aff x y) -> fev u 8 x -> fev v 8 y -> fev w 8 1 ->
  gej_rep (Gej u v w false) (Aff x y).
Proof.
  intros Hc [Mu Vu] [Mv Vv] [Mw Vw]. split; [exact (conj Mu (conj Mv Mw))|].
  split; [exact Hc|]. cbn [jx jy jz jinf]. split; [reflexivity|]. split.
  - apply cong_iff in Vw. rewrite Vw. exact one_nonzero.
  - rewrite Vw, Vu, Vv. split; apply cong_eq; ring.
Qed.

Lemma set_ge_rep b Q : ge_rep b Q -> gej_rep (secp256k1_gej_set_ge b) Q.
Proof.
  pose proof (fev_le _ 1 8 _ (fev_set_int 1 eq_refl) eq_refl) as K1.
  intros ([Mx My] & Hc & H). destruct Q as [|x y].
  - split; [exact (conj Mx (conj My (proj1 K1)))|exact (conj I H)].
  - destruct H as (Hi & Vx & Vy). unfold secp256k1_gej_set_ge. rewrite Hi.
    apply one_rep; [exact Hc|exact (conj Mx Vx)|exact (conj My Vy)|exact K1].
Qed.

(** An affine point of the isomorphic curve. *)
Definition ge_srep (g : Z) (b : secp256k1_ge) (Q : point) : Prop :=
  ge_mags b /\ on_curve Q /\
  match Q with
  | Inf => ginf b = true
  | Aff x y => ginf b = false /\ fval (gx b) =[p]= x * (g * g) /\
      fval (gy b) =[p]= y * (g * g * g)
  end.

Lemma ge_srep_1 b Q : ge_rep b Q -> ge_srep 1 b Q.
Proof.
  intros (M & Hc & H). split; [exact M|]. split; [exact Hc|]. destruct Q as [|x y]; [exact H|].
  destruct H as (Hi & Vx & Vy). split; [exact Hi|].
  rewrite Vx, Vy. split; apply cong_eq; ring.
Qed.

Lemma ge_sfinite g b x y : ge_srep g b (Aff x y) ->
  on_curve (Aff x y) /\ ginf b = false /\ fev (gx b) 8 (x * (g * g)) /\
  fev (gy b) 8 (y * (g * g * g)).
Proof.
  intros ((Mx & My) & Hc & Hi & Vx & Vy).
  exact (conj Hc (conj Hi (conj (conj Mx Vx) (conj My Vy)))).
Qed.

Lemma one_srep g u v w x y : on_curve (Aff x y) -> g mod p <> 0 -> fev u 8 (x * (g * g)) ->
  fev v 8 (y * (g * g * g)) -> fev w 8 1 -> gej_srep g (Gej u v w false) (Aff x y).
Proof.
  intros Hc Hg [Mu Vu] [Mv Vv] [Mw Vw].
  apply (rep_at_ext g); [cbn [jz]; rewrite Vw; apply cong_eq; ring|].
  split; [exact (conj Mu (conj Mv Mw))|]. split; [exact Hc|].
  exact (conj eq_refl (conj Hg (conj Vu Vv))).
Qed.

Lemma set_ge_srep g b Q : g mod p <> 0 -> ge_srep g b Q ->
  gej_srep g (secp256k1_gej_set_ge b) Q.
Proof.
  pose proof (fev_le _ 1 8 _ (fev_set_int 1 eq_refl) eq_refl) as K1.
  intros Hg ([Mx My] & Hc & H). destruct Q as [|x y].
  - split; [exact (conj Mx (conj My (proj1 K1)))|exact (conj I H)].
  - destruct H as (Hi & Vx & Vy). unfold secp256k1_gej_set_ge. rewrite Hi.
    apply one_srep; [exact Hc|exact Hg|exact (conj Mx Vx)|exact (conj My Vy)|exact K1].
Qed.

Lemma add_ge_var_srep g r a b P Q : g mod p <> 0 -> gej_mags r -> gej_srep g a P ->
  ge_srep g b Q ->
  let d := secp256k1_gej_add_ge_var r a b in
  gej_srep g (fst d) (padd P Q) /\ rzr_ok a (fst d) (snd d).
Proof.
  intros Hg Hr Ha Hb. enter @secp256k1_gej_add_ge_var.
  destruct P as [|x1 y1].
  { destruct Ha as (_ & _ & Hi). rewrite Hi. unfold wp. cbn [fst snd].
    split; [exact (set_ge_srep _ _ _ Hg Hb)|]. unfold rzr_ok. congruence. }
  destruct (srep_finite _ _ _ _ Ha) as (H1 & Hi & Hz1 & Kx1 & Ky1 & Kz1).
  destruct Q as [|x2 y2].
  { destruct Hb as (_ & _ & Hj).
    rewrite Hi, Hj, padd_inf_r. unfold wp. cbn [fst snd]. split; [exact Ha|apply rzr_one]. }
  destruct (ge_sfinite _ _ _ _ Hb) as (H2 & Hj & Kx2 & Ky2).
  rewrite Hi, Hj. cbv iota. set (z1 := fval (jz a)) in *.
  do 10 fe_step.
  add_split u1 s1 (z1 * g) x1 y1 x2 y2 Hz1.
  - unfold wp. rewrite <- C. exact (double_case_s g r a _ Hr Ha Hi).
  - unfold wp. cbn [fst snd]. rewrite C.
    split; [apply srep_inf; [exact (mags_flag r true Hr)|reflexivity]|now apply rzr_zero].
  - repeat fe_step. unfold wp. cbn [fst snd]. split.
    + chord_finish.
    + intros _. exists h0. split; [reflexivity|]. cbn [jinf jz].
      match goal with K : fev h0 _ _ |- _ => destruct K as [M V] end.
      split; [apply (fmag_le _ 3); [exact M|lia]|].
      match goal with K : fev rz _ _ |- _ => rewrite (proj2 K), V end. reflexivity.
Qed.

Lemma add_ge_var_rep r a b P Q : gej_mags r -> gej_rep a P -> ge_rep b Q ->
  let d := secp256k1_gej_add_ge_var r a b in
  gej_rep (fst d) (padd P Q) /\ rzr_ok a (fst d) (snd d).
Proof.
  intros Hr Ha Hb.
  destruct (add_ge_var_srep 1 r a b P Q one_nonzero Hr (proj2 (srep_1 _ _) Ha) (ge_srep_1 _ _ Hb))
    as [H1 H2].
  split; [apply srep_1; exact H1|exact H2].
Qed.

(** Give the value of [u] another form. *)
Ltac fe_as u e tac :=
  match goal with H : fev u _ _ |- _ =>
    let K := fresh "K" in
    pose proof (fev_eq _ _ _ e H ltac:(tac)) as K; clear H; rename K into H end.

(** Name the value of [u]. *)
Ltac fe_name u e E := match goal with H : fev u _ ?f |- _ => remember f as e eqn:E end.

Lemma fev_fe_1 : fev fe_1 1 1.
Proof. exact (fev_const 0 0 0 0 0 0 0 1 eq_refl eq_refl). Qed.

(** [b] and [bzinv] stand for the point whose Jacobian coordinates are
    [(gx b, gy b, 1 / bzinv)]. *)
Definition zinv_rep (b : secp256k1_ge) (bzinv : fe) (Q : point) : Prop :=
  ge_mags b /\ fmag bzinv 8 /\ on_curve Q /\
  match Q with
  | Inf => ginf b = true
  | Aff x y => ginf b = false /\ fval bzinv mod p <> 0 /\
      x =[p]= fval (gx b) * (fval bzinv * fval bzinv) /\
      y =[p]= fval (gy b) * (fval bzinv * fval bzinv * fval bzinv)
  end.

Definition zinv_srep (g : Z) (b : secp256k1_ge) (bzinv : fe) (Q : point) : Prop :=
  ge_mags b /\ fmag bzinv 8 /\ on_curve Q /\
  match Q with
  | Inf => ginf b = true
  | Aff x y => ginf b = false /\
      x * (g * g) =[p]= fval (gx b) * (fval bzinv * fval bzinv) /\
      y * (g * g * g) =[p]= fval (gy b) * (fval bzinv * fval bzinv * fval bzinv)
  end.

Lemma add_zinv_var_srep g r a b bzinv P Q : g mod p <> 0 -> gej_mags r -> gej_srep g a P ->
  zinv_srep g b bzinv Q -> gej_srep g (secp256k1_gej_add_zinv_var r a b bzinv) (padd P Q).
Proof.
  intros Hg Hr Ha ((Mx & My) & Mz & H2 & Hb).
  apply fev_self in Mx, My, Mz.
  enough (let d := secp256k1_gej_add_zinv_var r a b bzinv in gej_srep g d (padd P Q)) by assumption.
  enter @secp256k1_gej_add_zinv_var.
  destruct Q as [|x2 y2].
  { rewrite Hb, padd_inf_r. exact Ha. }
  destruct Hb as (Hj & Vx & Vy). rewrite Hj. cbv iota.
  set (zi := fval bzinv) in *. set (x := fval (gx b)) in *. set (y := fval (gy b)) in *.
  destruct P as [|x1 y1].
  { destruct Ha as (_ & _ & Hi). rewrite Hi. cbv iota. repeat fe_step.
    unfold wp. apply (one_srep g _ _ _ x2 y2 H2 Hg).
    - apply (fev_le _ 1); [|reflexivity].
      apply (fev_eq _ _ _ _ (fev_mul _ _ _ _ _ _ Mx K eq_refl)). now symmetry.
    - apply (fev_le _ 1); [|reflexivity].
      apply (fev_eq _ _ _ _ (fev_mul _ _ _ _ _ _ My K0 eq_refl)). now symmetry.
    - exact (fev_le _ 1 8 _ (fev_set_int 1 eq_refl) eq_refl). }
  destruct (srep_finite _ _ _ _ Ha) as (H1 & Hi & Hz1 & Kx1 & Ky1 & Kz1).
  rewrite Hi. cbv iota. set (z1 := fval (jz a)) in *.
  do 4 fe_step. fe_as u2 (x2 * (g * g) * (z1 * z1)) ltac:(rewrite Vx; apply cong_eq; ring).
  do 3 fe_step. fe_as s0 (y2 * (g * g * g) * (z1 * z1 * z1)) ltac:(rewrite Vy; apply cong_eq; ring).
  do 4 fe_step.
  add_split u1 s1 (z1 * g) x1 y1 x2 y2 Hz1.
  - unfold wp. rewrite <- C. exact (proj1 (double_case_s g r a _ Hr Ha Hi)).
  - unfold wp. rewrite C. apply srep_inf; [exact (mags_flag r true Hr)|reflexivity].
  - repeat fe_step. unfold wp. chord_finish.
Qed.

Lemma add_zinv_var_rep r a b bzinv P Q : gej_mags r -> gej_rep a P -> zinv_rep b bzinv Q ->
  gej_rep (secp256k1_gej_add_zinv_var r a b bzinv) (padd P Q).
Proof.
  intros Hr Ha (M & Mz & Hc & H). apply srep_1.
  apply add_zinv_var_srep; [exact one_nonzero|exact Hr|now apply srep_1|].
  split; [exact M|]. split; [exact Mz|]. split; [exact Hc|]. destruct Q as [|x y]; [exact H|].
  destruct H as (Hi & _ & Vx & Vy). split; [exact Hi|]. rewrite <- Vx, <- Vy.
  split; apply cong_eq; ring.
Qed.

(** The third point computed by the branch-free addition. *)
Lemma unified_alg l x1 y1 x2 y2 Z t s h R M :
  t =[p]= (x1 + x2) * (Z * Z) -> l * (x2 - x1) =[p]= y2 - y1 -> R =[p]= l * (M * Z) ->
  s =[p]= M * (M * M) * ((y1 + y2) * (Z * Z * Z)) ->
  h = M * M * t ->
  let z3 := Z * M * 2 in
  (R * R + - h) * 4 =[p]= (l * l - x1 - x2) * (z3 * z3) /\
  - (((R * R + - h) * 2 + - h) * R + s) * 4
    =[p]= (l * (x1 - (l * l - x1 - x2)) - y1) * (z3 * z3 * z3).
Proof.
  intros Ht Hl HR Hs ->. cbv zeta. rewrite Ht, HR, Hs. split; [apply cong_eq; ring|].
  transitivity ((l * (x1 - (l * l - x1 - x2)) - y1)
     * (Z * M * 2 * (Z * M * 2) * (Z * M * 2))
     + 4 * (M * Z) * (M * Z) * (M * Z) * (l * (x2 - x1) - (y2 - y1))).
  - apply cong_eq. ring.
  - rewrite Hl. apply cong_eq. ring.
Qed.

Lemma scaled_zero z m : z mod p <> 0 -> ((z * m) mod p =? 0) = (m mod p =? 0).
Proof.
  intros Hz. destruct (Z.eqb_spec (m mod p) 0) as [E|E].
  - apply Z.eqb_eq, cong_0. apply cong_0 in E. rewrite E. apply cong_eq. ring.
  - apply Z.eqb_neq. now apply mul_nonzero.
Qed.

Lemma fev_mag a m n e : fev a m e -> (m <=? n) = true -> fmag a n.
Proof. rewrite Z.leb_le. intros [M _]. now apply fmag_le. Qed.

(** The end of the branch-free addition for a finite first operand: [x], [y],
    [z] are its coordinates and [q], [s] the products the code forms. *)
Lemma unified_end g x y z0 z u2 s2 x1 y1 x2 y2 m rr R M q s (deg inf : bool) rx ry rz i j k :
  on_curve (Aff x1 y1) -> on_curve (Aff x2 y2) -> z mod p <> 0 -> z = z0 * g ->
  x =[p]= x1 * (z * z) -> y =[p]= y1 * (z * z * z) ->
  u2 =[p]= x2 * (z * z) -> s2 =[p]= y2 * (z * z * z) ->
  m = y + s2 -> rr = (x + u2) * (x + u2) + x * - u2 ->
  deg = (m mod p =? 0) && (rr mod p =? 0) ->
  R = (if negb deg then rr else y * 2) -> M = (if negb deg then m else - u2 + x) ->
  q = M * M * (x + u2) -> s = (if deg then m else M * M * (M * M)) ->
  inf = ((z0 * M) mod p =? 0) ->
  fev rx i ((R * R + - q) * 4) ->
  fev ry j (- (((R * R + - q) * 2 + - q) * R + s) * 4) -> fev rz k (z0 * M * 2) ->
  (i <=? 8) && (j <=? 8) && (k <=? 8) = true ->
  gej_srep g (Gej rx ry rz inf) (padd (Aff x1 y1) (Aff x2 y2)).
Proof.
  intros H1 H2 Hz Eg Vx Vy Vu Vs Em Er Ed ER EM Eq EN Ei Kx Ky Kz Hm.
  assert (Vm : m =[p]= (y1 + y2) * (z * z * z)) by (rewrite Em, Vy, Vs; apply cong_eq; ring).
  assert (Vr : rr =[p]= (x1 * x1 + x1 * x2 + x2 * x2) * (z * z * z * z))
    by (rewrite Er, Vx, Vu; apply cong_eq; ring).
  assert (VM : M =[p]= if deg then (x1 - x2) * (z * z) else m)
    by (rewrite EM; destruct deg; cbn [negb]; [rewrite Vx, Vu|]; apply cong_eq; ring).
  pose proof (unified_cases x1 y1 x2 y2 z m rr R M deg H1 H2 Hz Vm Vr Ed
    ltac:(rewrite ER; destruct deg; cbn [negb]; [rewrite Vy|]; apply cong_eq; ring) VM) as C.
  assert (Hz0 : z0 mod p <> 0) by exact (proj1 (nonzero_factors _ _ _ (cong_eq _ _ _ Eg) Hz)).
  assert (Zi : inf = (M mod p =? 0)) by (rewrite Ei; now apply scaled_zero).
  rewrite Zi. destruct (Z.eqb_spec (M mod p) 0) as [_|HM].
  - rewrite C. apply srep_inf; [|reflexivity]. rewrite !andb_true_iff in Hm.
    destruct Hm as [[Hi Hj] Hk]. exact (conj (fev_mag _ _ _ _ Kx Hi)
      (conj (fev_mag _ _ _ _ Ky Hj) (fev_mag _ _ _ _ Kz Hk))).
  - destruct C as (l & E & Hc & L & HR). rewrite E.
    assert (Es : s =[p]= M * (M * M) * ((y1 + y2) * (z * z * z))).
    { rewrite EN. destruct deg.
      - symmetry in Ed. apply andb_true_iff in Ed. rewrite !Z.eqb_eq, !cong_0 in Ed.
        destruct Ed as [E0 _]. rewrite <- Vm, E0. apply cong_eq. ring.
      - rewrite <- Vm, <- VM. apply cong_eq. ring. }
    destruct (unified_alg l x1 y1 x2 y2 z (x + u2) s q R M
      ltac:(rewrite Vx, Vu; apply cong_eq; ring) L HR Es Eq) as [A1 A2].
    apply (chord_rep g _ _ _ _ _ _ l x1 y1 x2 _ _ (z * M * 2) _ Kx Ky Kz Hm);
      [rewrite Eg; ring| |exact Hc|exact A1|exact A2].
    rewrite Z.mul_comm. apply two_nonzero. now apply mul_nonzero.
Qed.

Lemma add_ge_srep g a b P Q : g mod p <> 0 -> gej_srep g a P -> ge_srep g b Q -> Q <> Inf ->
  gej_srep g (secp256k1_gej_add_ge a b) (padd P Q).
Proof.
  intros Hg Ha Hb HQ. destruct Q as [|x2 y2]; [contradiction|].
  enough (let d := secp256k1_gej_add_ge a b in gej_srep g d (padd P (Aff x2 y2))) by assumption.
  enter @secp256k1_gej_add_ge.
  destruct (ge_sfinite _ _ _ _ Hb) as (H2 & Hj & Kx2 & Ky2).
  apply (fun H => fev_self _ _ (proj1 H)) in Kx2, Ky2.
  pose proof Ha as [(Mx & My & Mz) _]. apply fev_self in Mx, My, Mz.
  set (z0 := fval (jz a)) in *. set (x := fval (jx a)) in *. set (y := fval (jy a)) in *.
  set (xb := fval (gx b)) in *. set (yb := fval (gy b)) in *.
  assert (Ku : xb * (z0 * z0) =[p]= x2 * (z0 * g * (z0 * g)))
    by (unfold xb; rewrite (proj2 (proj1 (proj2 (proj2 (ge_sfinite _ _ _ _ Hb))))); apply cong_eq; ring).
  assert (Ks : yb * (z0 * z0) * z0 =[p]= y2 * (z0 * g * (z0 * g) * (z0 * g)))
    by (unfold yb; rewrite (proj2 (proj2 (proj2 (proj2 (ge_sfinite _ _ _ _ Hb))))); apply cong_eq; ring).
  repeat fe_step.
  wtake deg Ed. rewrite (fev_zero _ _ _ K6 eq_refl), (fev_zero _ _ _ K10 eq_refl) in Ed.
  do 4 fe_step. fe_name rr_alt0 R ER. fe_name m_alt1 M EM.
  do 2 fe_step. fe_step. fe_step. fe_name n1 s EN. do 2 fe_step.
  wtake inf Ei. rewrite (fev_zero _ _ _ ltac:(eassumption) eq_refl) in Ei.
  pose proof fev_fe_1 as K1f. repeat fe_step. unfold wp. destruct P as [|x1 y1].
  { destruct Ha as (_ & _ & Hi). rewrite Hi in *. rewrite andb_false_r in Ei. subst inf.
    destruct (ge_sfinite _ _ _ _ Hb) as (_ & _ & Hxb & Hyb).
    apply one_srep; [exact H2|exact Hg| | |apply (fev_le _ 2); [assumption|reflexivity]].
    - eapply fev_eq; [eassumption|exact (proj2 Hxb)].
    - eapply fev_eq; [eassumption|exact (proj2 Hyb)]. }
  destruct (srep_finite _ _ _ _ Ha) as (H1 & Hi & Hz & Kx1 & Ky1 & _).
  rewrite Hi in *. rewrite andb_true_r in Ei.
  exact (unified_end g x y z0 _ _ _ x1 y1 x2 y2 _ _ R M _ s deg inf _ _ _ _ _ _ H1 H2 Hz eq_refl
    (proj2 Kx1) (proj2 Ky1) Ku Ks eq_refl eq_refl Ed ER EM eq_refl EN Ei K33 K34 K35 eq_refl).
Qed.

Lemma add_ge_rep a b P Q : gej_rep a P -> ge_rep b Q -> Q <> Inf ->
  gej_rep (secp256k1_gej_add_ge a b) (padd P Q).
Proof.
  intros Ha Hb HQ. apply srep_1. apply add_ge_srep; [exact one_nonzero| | |exact HQ].
  - now apply srep_1.
  - now apply ge_srep_1.
Qed.

(** ** Conversions between the representations *)

Lemma ge_rep_mag1 u v x y : on_curve (Aff x y) -> fev u 8 x -> fev v 8 y ->
  ge_rep (Ge u v false) (Aff x y).
Proof.
  intros Hc [Mu Vu] [Mv Vv].
  exact (conj (conj Mu Mv) (conj Hc (conj eq_refl (conj Vu Vv)))).
Qed.

Lemma fev_up a e : fev a 1 e -> fev a 8 e.
Proof. intros H. now apply (fev_le a 1). Qed.

(** [zi] is the inverse of the z coordinate. *)
Lemma set_gej_zinv_rep a zi P : gej_rep a P -> fmag zi 8 ->
  (jinf a = false -> fval (jz a) * fval zi =[p]= 1) ->
  ge_rep (secp256k1_ge_set_gej_zinv a zi) P.
Proof.
  intros Ha Mi Hzi. apply fev_self in Mi. pose proof Ha as [(Mx & My & Mz) [Hc H]].
  enough (let d := secp256k1_ge_set_gej_zinv a zi in ge_rep d P) by assumption.
  enter @secp256k1_ge_set_gej_zinv. repeat fe_step. unfold wp.
  destruct P as [|x y].
  - apply fev_self in Mx, My.
    split; [|exact (conj I H)]. split; cbn [gx gy].
    + exact (fev_mag _ _ 8 _ (fev_mul _ _ _ _ _ _ Mx K eq_refl) eq_refl).
    + exact (fev_mag _ _ 8 _ (fev_mul _ _ _ _ _ _ My K0 eq_refl) eq_refl).
  - destruct (rep_finite _ _ _ Ha) as (_ & Hi & Hz & Kx & Ky & _). rewrite Hi.
    specialize (Hzi Hi).
    apply ge_rep_mag1; [exact Hc|apply fev_up..].
    + eapply fev_eq; [exact (fev_mul _ _ _ _ _ _ Kx K eq_refl)|].
      transitivity (x * (fval (jz a) * fval zi) * (fval (jz a) * fval zi));
        [apply cong_eq; ring|]. rewrite Hzi. apply cong_eq. ring.
    + eapply fev_eq; [exact (fev_mul _ _ _ _ _ _ Ky K0 eq_refl)|].
      transitivity (y * (fval (jz a) * fval zi) * (fval (jz a) * fval zi)
        * (fval (jz a) * fval zi)); [apply cong_eq; ring|]. rewrite Hzi. apply cong_eq. ring.
Qed.

(** The same with the factors of the cube in the other order. *)
Lemma set_gej_swap a zi P : gej_rep a P -> fmag zi 8 ->
  (jinf a = false -> fval (jz a) * fval zi =[p]= 1) ->
  ge_rep (Ge (fe_mul (jx a) (fe_sqr zi)) (fe_mul (jy a) (fe_mul zi (fe_sqr zi))) (jinf a)) P.
Proof.
  intros Ha Mi Hzi. destruct (set_gej_zinv_rep a zi P Ha Mi Hzi) as ([Mx _] & Hc & H).
  pose proof Ha as [(_ & My & _) _]. apply fev_self in My, Mi.
  pose proof (fev_sqr _ _ _ Mi eq_refl) as K2.
  pose proof (fev_mul _ _ _ _ _ _ My (fev_mul _ _ _ _ _ _ Mi K2 eq_refl) eq_refl) as K.
  pose proof (fev_mul _ _ _ _ _ _ My (fev_mul _ _ _ _ _ _ K2 Mi eq_refl) eq_refl) as K'.
  split; [exact (conj Mx (fev_mag _ _ 8 _ K eq_refl))|]. split; [exact Hc|].
  destruct P as [|x y]; [exact H|]. destruct H as (Hi & Vx & Vy).
  split; [exact Hi|]. split; [exact Vx|]. cbn [gy secp256k1_ge_set_gej_zinv] in *.
  rewrite <- Vy, (proj2 K). symmetry. rewrite (proj2 K'). apply cong_eq. ring.
Qed.

(** [secp256k1_ge_set_gej] computes the affine point, and rescales its
    argument to z = 1. *)
Lemma set_gej_rep a P : gej_rep a P ->
  ge_rep (fst (secp256k1_ge_set_gej a)) P /\ gej_rep (snd (secp256k1_ge_set_gej a)) P.
Proof.
  intros Ha. pose proof Ha as [(Mx & My & Mz) [Hc H]].
  destruct (fe_inv_spec (jz a) Mz) as (Mi & Vi & _).
  set (d := secp256k1_ge_set_gej a).
  assert (D : ge_rep (fst d) P).
  { pose proof (fmag_le _ _ 8 Mi ltac:(lia)) as Mi8.
    apply (set_gej_swap a _ P Ha Mi8). intros Hi. apply Vi.
    destruct P as [|x y]; [congruence|]. apply H. }
  split; [exact D|]. change (gej_rep (secp256k1_gej_set_ge (fst d)) P).
  now apply set_ge_rep.
Qed.

Lemma set_gej_var_rep r a P : ge_mags r -> gej_rep a P ->
  ge_rep (fst (secp256k1_ge_set_gej_var r a)) P /\
  gej_rep (snd (secp256k1_ge_set_gej_var r a)) P.
Proof.
  intros Hr Ha. unfold secp256k1_ge_set_gej_var. destruct (jinf a) eqn:Hi.
  - pose proof Ha as [_ [_ H]]. destruct P as [|x y].
    + split; [exact (conj Hr (conj I eq_refl))|exact Ha].
    + destruct H as [H _]. congruence.
  - pose proof (set_gej_rep a P Ha) as D. unfold secp256k1_ge_set_gej in D.
    rewrite Hi in D. exact D.
Qed.

Lemma fev_neg a m e : fev a m e -> (m <=? 31) = true ->
  fev (fe_negate (fe_normalize_weak a) 1) 2 (- e).
Proof.
  intros H Hm. exact (fev_negate _ 1 1 _ (fev_weak _ _ _ H Hm) eq_refl).
Qed.

Lemma ge_neg_rep a P : ge_rep a P -> ge_rep (secp256k1_ge_neg a) (pneg P).
Proof.
  intros ((Mx & My) & Hc & H). apply fev_self in My.
  pose proof (fev_neg _ _ _ My eq_refl) as K. split; [split; [exact Mx|]|split].
  - exact (fev_mag _ _ 8 _ K eq_refl).
  - now apply pneg_on_curve.
  - destruct P as [|x y]; [exact H|]. destruct H as (Hi & Vx & Vy).
    split; [exact Hi|]. split; [exact Vx|]. cbn [gy secp256k1_ge_neg].
    rewrite (proj2 K), Vy. symmetry. apply cong_mod.
Qed.

Lemma gej_neg_rep a P : gej_rep a P -> gej_rep (secp256k1_gej_neg a) (pneg P).
Proof.
  intros ((Mx & My & Mz) & Hc & H). apply fev_self in My.
  pose proof (fev_neg _ _ _ My eq_refl) as K. split; [split; [exact Mx|split]|split].
  - exact (fev_mag _ _ 8 _ K eq_refl).
  - exact Mz.
  - now apply pneg_on_curve.
  - destruct P as [|x y]; [exact H|]. destruct H as (Hi & Hz & Vx & Vy).
    split; [exact Hi|]. split; [exact Hz|]. split; [exact Vx|].
    cbn [jy jz secp256k1_gej_neg]. rewrite (proj2 K), Vy, (cong_mod p (- y)).
    apply cong_eq. ring.
Qed.

(** ** Validity and comparison *)

Lemma ge_is_valid_spec a : ge_mags a ->
  secp256k1_ge_is_valid_var a
    = negb (ginf a) && ((fval (gy a) * fval (gy a)) mod p =?
        (fval (gx a) * fval (gx a) * fval (gx a) + 7) mod p).
Proof.
  intros [Mx My]. apply fev_self in Mx, My.
  enough (let b := secp256k1_ge_is_valid_var a in b = negb (ginf a) &&
    ((fval (gy a) * fval (gy a)) mod p =?
      (fval (gx a) * fval (gx a) * fval (gx a) + 7) mod p)) by assumption.
  enter @secp256k1_ge_is_valid_var. destruct (ginf a); [reflexivity|]. cbv iota delta [CURVE_B].
  repeat fe_step. unfold wp.
  destruct K as [M1 V1], K4 as [M2 V2].
  rewrite (fe_equal_var_spec _ _ 1 M1 M2 ltac:(lia)). cbn [negb andb].
  apply cong_iff in V1, V2. now rewrite V1, V2.
Qed.

Lemma gej_is_valid_spec a : gej_mags a ->
  secp256k1_gej_is_valid_var a
    = negb (jinf a) && ((fval (jy a) * fval (jy a)) mod p =?
        (fval (jx a) * fval (jx a) * fval (jx a) + fval (jz a) * fval (jz a) *
          (fval (jz a) * fval (jz a)) * (fval (jz a) * fval (jz a)) * 7) mod p).
Proof.
  intros (Mx & My & Mz). apply fev_self in Mx, My, Mz.
  set (x := fval (jx a)) in *. set (y := fval (jy a)) in *. set (z := fval (jz a)) in *.
  enough (let b := secp256k1_gej_is_valid_var a in b = negb (jinf a) &&
    ((y * y) mod p =? (x * x * x + z * z * (z * z) * (z * z) * 7) mod p)) by assumption.
  enter @secp256k1_gej_is_valid_var. destruct (jinf a); [reflexivity|]. cbv iota delta [CURVE_B].
  repeat fe_step. unfold wp.
  destruct K as [M1 V1], K7 as [M2 V2].
  rewrite (fe_equal_var_spec _ _ 1 M1 M2 ltac:(lia)). cbn [negb andb].
  apply cong_iff in V1, V2. now rewrite V1, V2.
Qed.

Lemma eq_x_spec x a : fmag x 8 -> gej_mags a ->
  secp256k1_gej_eq_x_var x a
    = ((fval (jz a) * fval (jz a) * fval x) mod p =? fval (jx a) mod p).
Proof.
  intros M (Mx & My & Mz). apply fev_self in M, Mx, Mz.
  enough (let b := secp256k1_gej_eq_x_var x a in b =
    ((fval (jz a) * fval (jz a) * fval x) mod p =? fval (jx a) mod p)) by assumption.
  enter @secp256k1_gej_eq_x_var. repeat fe_step. unfold wp.
  destruct K0 as [M1 V1], K1 as [M2 V2].
  rewrite (fe_equal_var_spec _ _ 1 M1 M2 ltac:(lia)).
  apply cong_iff in V1, V2. now rewrite V1, V2.
Qed.

(** ** Decompression *)

Lemma set_xquad_spec x : fmag x 8 ->
  let d := secp256k1_ge_set_xquad x in
  gx (fst d) = x /\ ginf (fst d) = false /\ fmag (gy (fst d)) 1 /\
  (snd d = true <-> exists s, s * s =[p]= fval x * fval x * fval x + 7) /\
  (snd d = true -> fval (gy (fst d)) * fval (gy (fst d)) =[p]= fval x * fval x * fval x + 7 /\
     exists s, s * s =[p]= fval (gy (fst d))).
Proof.
  intros M. apply fev_self in M. set (v := fval x) in *.
  enter @secp256k1_ge_set_xquad. cbv delta [CURVE_B]. repeat fe_step.
  destruct K2 as [M2 V2]. destruct (fe_sqrt_spec c0 (fmag_le _ _ 8 M2 ltac:(lia))) as (My & Hok & Hy).
  destruct (secp256k1_fe_sqrt c0) as [y ok]. cbn [fst snd] in *. unfold wp.
  cbn [fst snd gx gy ginf].
  assert (E : fval c0 =[p]= v * v * v + 7) by (rewrite V2; apply cong_eq; ring).
  split; [reflexivity|]. split; [reflexivity|]. split; [exact My|]. split.
  - rewrite Hok. split; intros [s Hs]; exists s; rewrite Hs; [exact E|now symmetry].
  - intros Hk. destruct (Hy Hk) as [H1 H2]. split; [now rewrite H1|exact H2].
Qed.

Lemma odd_neg y : in_fp y -> y <> 0 -> Z.odd ((- y) mod p) = negb (Z.odd y).
Proof.
  intros H Hn. unfold in_fp in H. rewrite Z.mod_opp_l_nz; rewrite ?Z.mod_small; try lia.
  rewrite Z.odd_sub. replace (Z.odd p) with true by reflexivity. apply xorb_true_l.
Qed.

Lemma set_xo_spec x odd : fmag x 8 ->
  let d := secp256k1_ge_set_xo_var x odd in
  (snd d = true <-> exists y, on_curve (Aff (fval x mod p) y)) /\
  (snd d = true -> exists y, ge_rep (fst d) (Aff (fval x mod p) y) /\ Z.odd y = odd).
Proof.
  intros M. cbv zeta. unfold secp256k1_ge_set_xo_var.
  destruct (set_xquad_spec x M) as (Ex & Ei & My & Hok & Hy).
  destruct (secp256k1_ge_set_xquad x) as [r ok]. cbn [fst snd] in *.
  assert (Hc : (exists s, s * s =[p]= fval x * fval x * fval x + 7) <->
    exists y, on_curve (Aff (fval x mod p) y)).
  { split; intros [s Hs].
    - exists (s mod p). split; [apply in_fp_mod|]. split; [apply in_fp_mod|].
      now rewrite !cong_mod.
    - exists s. destruct Hs as (_ & _ & Hs). now rewrite !cong_mod in Hs. }
  destruct ok; cbn [negb fst snd].
  2: { split; [now rewrite <- Hc, <- Hok|discriminate]. }
  split; [now rewrite <- Hc, <- Hok|]. intros _. destruct (Hy eq_refl) as [H2 _].
  pose proof (fmag_le _ _ 31 My ltac:(lia)) as My31.
  rewrite (fe_normalize_var_ok _ My31).
  destruct (fe_normalize_ok _ My31) as [Nn Vn]. set (y := fe_normalize (gy r)) in *.
  assert (Hcy : on_curve (Aff (fval x mod p) (fval y))).
  { split; [apply in_fp_mod|]. split; [now apply fnorm_range|].
    now rewrite Vn, !cong_mod. }
  rewrite (fe_is_odd_ok _ Nn), Ex, Ei.
  pose proof (fnorm_mag _ Nn) as N1. assert (Kx : fev x 8 (fval x mod p)).
  { split; [exact M|]. symmetry. apply cong_mod. }
  destruct (Bool.eqb (Z.odd (fval y)) odd) eqn:Eo; cbn [negb].
  - exists (fval y). split; [|now apply eqb_prop].
    apply ge_rep_mag1; [exact Hcy|exact Kx|]. now apply fev_up, fev_self.
  - exists (- fval y mod p). split.
    + apply ge_rep_mag1; [exact (pneg_on_curve _ Hcy)|exact Kx|].
      apply (fev_le _ 2); [|reflexivity].
      apply (fev_eq _ _ _ _ (fev_negate _ _ 1 _ (fev_self _ _ N1) eq_refl)).
      symmetry. apply cong_mod.
    + rewrite odd_neg; [|now apply fnorm_range|].
      * apply eqb_false_iff in Eo. destruct (Z.odd (fval y)), odd; reflexivity || congruence.
      * intros E0. apply (y_nonzero _ _ Hcy). now rewrite E0.
Qed.

(** ** Rescaling, storage, the endomorphism *)

Lemma rescale_rep r s P : gej_rep r P -> fmag s 8 -> fval s mod p <> 0 ->
  gej_rep (secp256k1_gej_rescale r s) P.
Proof.
  intros Ha Ms Hs. apply fev_self in Ms. pose proof Ha as [(Mx & My & Mz) [Hc H]].
  enough (let d := secp256k1_gej_rescale r s in gej_rep d P) by assumption.
  enter @secp256k1_gej_rescale. set (v := fval s) in *.
  apply fev_self in Mx, My, Mz. repeat fe_step. unfold wp.
  split; [|split; [exact Hc|]].
  { exact (conj (fev_mag _ _ 8 _ K0 eq_refl) (conj (fev_mag _ _ 8 _ K2 eq_refl)
      (fev_mag _ _ 8 _ K3 eq_refl))). }
  destruct P as [|x y]; [exact H|]. destruct H as (Hi & Hz & Vx & Vy). cbn [jx jy jz jinf].
  split; [exact Hi|]. destruct K0 as [_ V0], K2 as [_ V2], K3 as [_ V3]. split.
  { apply cong_iff in V3. rewrite V3. now apply mul_nonzero. }
  rewrite V0, V2, V3, Vx, Vy. split; apply cong_eq; ring.
Qed.

Lemma storage_roundtrip a P : ge_rep a P -> P <> Inf ->
  let b := secp256k1_ge_from_storage (secp256k1_ge_to_storage a) in
  ge_rep b P /\ fnorm (gx b) /\ fnorm (gy b).
Proof.
  intros ((Mx & My) & Hc & H) Hn. destruct P as [|x y]; [contradiction|].
  destruct H as (Hi & Vx & Vy).
  destruct (fe_normalize_ok _ (fmag_le _ _ 31 Mx ltac:(lia))) as [Nx Ex].
  destruct (fe_normalize_ok _ (fmag_le _ _ 31 My ltac:(lia))) as [Ny Ey].
  cbv zeta. unfold secp256k1_ge_from_storage, secp256k1_ge_to_storage. cbn [sx sy gx gy].
  rewrite !fe_from_to_storage by assumption.
  split; [|split; assumption].
  apply ge_rep_mag1; [exact Hc|apply fev_up..]; split; try (now apply fnorm_mag).
  - now rewrite Ex, cong_mod.
  - now rewrite Ey, cong_mod.
Qed.

Lemma fev_beta : fev beta 1 beta_val.
Proof. apply fev_const; vm_compute; reflexivity. Qed.

Lemma mul_lambda_rep a P : ge_rep a P -> ge_rep (secp256k1_ge_mul_lambda a) (pendo P).
Proof.
  intros ((Mx & My) & Hc & H). apply fev_self in Mx.
  pose proof (fev_mul _ _ _ _ _ _ Mx fev_beta eq_refl) as K.
  split; [exact (conj (fev_mag _ _ 8 _ K eq_refl) My)|]. split; [now apply pendo_on_curve|].
  destruct P as [|x y]; [exact H|]. destruct H as (Hi & Vx & Vy).
  split; [exact Hi|]. split; [|exact Vy]. cbn [gx secp256k1_ge_mul_lambda].
  rewrite (proj2 K), Vx. symmetry. apply cong_mod.
Qed.

(** ** Quadratic residuosity of y *)

Lemma square_scale y z : z mod p <> 0 ->
  (exists s, s * s =[p]= y * (z * z * z) * z) <-> (exists s, s * s =[p]= y).
Proof.
  intros Hz. pose proof (fp_inv_ok z Hz) as E. revert E. generalize (fp_inv z). intros i E.
  split; intros [s Hs].
  - exists (s * (i * i)).
    transitivity (s * s * (i * i * (i * i))); [apply cong_eq; ring|]. rewrite Hs.
    transitivity (y * (z * i) * (z * i) * (z * i) * (z * i)); [apply cong_eq; ring|].
    rewrite E. apply cong_eq. ring.
  - exists (s * (z * z)).
    transitivity (s * s * (z * z * (z * z))); [apply cong_eq; ring|]. rewrite Hs.
    apply cong_eq. ring.
Qed.

Lemma has_quad_y_spec a P : gej_rep a P ->
  secp256k1_gej_has_quad_y_var a = true <->
  match P with Inf => False | Aff _ y => exists s, s * s =[p]= y end.
Proof.
  intros Ha. unfold secp256k1_gej_has_quad_y_var, secp256k1_fe_is_quad_var.
  destruct P as [|x y].
  - destruct Ha as (_ & _ & Hi). rewrite Hi. split; [discriminate|contradiction].
  - destruct (rep_finite _ _ _ Ha) as (_ & Hi & Hz & _ & Ky & Kz). rewrite Hi. cbv zeta.
    destruct (fev_mul _ _ _ _ _ _ Ky Kz eq_refl) as [M V].
    destruct (fe_sqrt_spec _ (fmag_le _ _ 8 M ltac:(lia))) as (_ & Hk & _).
    rewrite Hk, <- (square_scale y (fval (jz a)) Hz).
    split; intros [s Hs]; exists s; rewrite Hs; [exact V|now symmetry].
Qed.

(** ** Batch conversion *)

Lemma set_all_fold a acc :
  fold_left (fun az ai => if jinf ai then az else az ++ [jz ai]) a acc
    = acc ++ map jz (filter (fun ai => negb (jinf ai)) a).
Proof.
  revert acc. induction a as [|ai a IH]; intros acc; cbn [fold_left filter map].
  - now rewrite app_nil_r.
  - rewrite IH. destruct (jinf ai); cbn [negb]; [reflexivity|].
    cbn [map]. now rewrite <- app_assoc.
Qed.

Lemma set_all_loop_rep r a azi Ps : Forall2 gej_rep a Ps -> length r = length a ->
  Forall ge_mags r ->
  Forall2 (fun zi z => fmag zi 8 /\ fval zi * fval z =[p]= 1) azi
    (map jz (filter (fun ai => negb (jinf ai)) a)) ->
  Forall2 ge_rep (set_all_loop r a azi) Ps.
Proof.
  intros Ha. revert r azi. induction Ha as [|ai P a Ps Hai Ha IH]; intros r azi Hl Hr Hz.
  { destruct r; [constructor|discriminate]. }
  destruct r as [|ri r]; [discriminate|]. inversion Hr as [|? ? Hri Hr']; subst.
  injection Hl as Hl. cbn [set_all_loop filter] in *.
  destruct (jinf ai) eqn:Hi; cbn [negb map] in Hz.
  - constructor; [|now apply IH]. destruct P as [|x y].
    + exact (conj Hri (conj I eq_refl)).
    + destruct Hai as (_ & _ & E & _). congruence.
  - inversion Hz as [|zi z azi' zs [Mi Vi] Hz']; subst. cbn [hd tl].
    constructor; [|now apply IH]. apply (set_gej_zinv_rep ai zi P Hai Mi).
    intros _. now rewrite Z.mul_comm.
Qed.

Lemma finite_z a Ps : Forall2 gej_rep a Ps ->
  let az := map jz (filter (fun ai => negb (jinf ai)) a) in
  Forall (fun x => fmag x 8) az /\ Forall (fun x => fval x mod p <> 0) az.
Proof.
  cbv zeta. induction 1 as [|ai P a Ps H _ [IH1 IH2]]; cbn [filter]; [split; constructor|].
  destruct (jinf ai) eqn:Hi; cbn [negb map]; [now split|].
  destruct H as ((_ & _ & Mz) & _ & H). destruct P as [|x y]; [congruence|].
  split; constructor; try assumption. apply H.
Qed.

Lemma Forall2_nth_intro {A B} (R : A -> B -> Prop) l m da db : length l = length m ->
  (forall k, (k < length l)%nat -> R (nth k l da) (nth k m db)) -> Forall2 R l m.
Proof.
  revert m. induction l as [|x l IH]; intros [|y m] Hl H; try discriminate; constructor.
  - apply (H O). cbn. lia.
  - apply IH; [now injection Hl|]. intros k Hk. apply (H (S k)). cbn. lia.
Qed.

Lemma Forall2_nth_elim {A B} (R : A -> B -> Prop) l m i da db : Forall2 R l m ->
  (i < length l)%nat -> R (nth i l da) (nth i m db).
Proof.
  intros H. revert i. induction H as [|x y l m Hxy _ IH]; intros [|i] Hi; cbn in *; try lia.
  - exact Hxy.
  - apply IH. lia.
Qed.

Lemma set_all_rep azi0 r a Ps : Forall2 gej_rep a Ps -> length r = length a ->
  Forall ge_mags r -> length azi0 = length (filter (fun ai => negb (jinf ai)) a) ->
  Forall2 ge_rep (secp256k1_ge_set_all_gej_var azi0 r a) Ps.
Proof.
  intros Ha Hl Hr H0. unfold secp256k1_ge_set_all_gej_var. rewrite set_all_fold. cbn [app].
  destruct (finite_z a Ps Ha) as [Hm Hz]. set (az := map jz _) in *.
  apply set_all_loop_rep; try assumption. fold az.
  assert (L : length azi0 = length az) by (unfold az; now rewrite length_map).
  destruct az as [|z az'] eqn:E.
  - destruct azi0; [constructor|discriminate].
  - rewrite <- E in *. assert (1 <= length az)%nat by (rewrite E; cbn; lia).
    destruct (fe_inv_all_spec azi0 az (length az) L eq_refl H Hm Hz) as [L' K].
    apply (Forall2_nth_intro _ _ _ (fe_set_int 0) (fe_set_int 0) L').
    intros k Hk. apply K. now rewrite <- L'.
Qed.

(** ** Tables of points whose z-ratios are known *)

(** [zr[i]] is the quotient of the z coordinates of [a[i]] and [a[i-1]]. *)
Definition zr_chain (a : list secp256k1_gej) (zr : list fe) : Prop :=
  forall i d z, (S i < length a)%nat ->
    fmag (nth (S i) zr z) 8 /\
    fval (jz (nth (S i) a d)) =[p]= fval (jz (nth i a d)) * fval (nth (S i) zr z).

Section Tables.
Context (a : list secp256k1_gej) (zr : list fe) (Ps : list point).
Hypothesis Ha : Forall2 gej_rep a Ps.
Hypothesis Hzr : zr_chain a zr.

Lemma nth_rep i d dP : (i < length a)%nat -> gej_rep (nth i a d) (nth i Ps dP).
Proof. now apply Forall2_nth_elim. Qed.

(** Moving one entry down the table. *)
Lemma zr_step i zi d z g : (S i < length a)%nat -> fmag zi 8 ->
  fval (jz (nth (S i) a d)) * fval zi =[p]= g ->
  let zi' := fe_mul zi (nth (S i) zr z) in
  fmag zi' 8 /\ fval (jz (nth i a d)) * fval zi' =[p]= g.
Proof.
  intros Hi Mi Vi. destruct (Hzr i d z Hi) as [Mr Vr].
  destruct (fe_mul_ok _ _ Mi Mr) as [M V]. split; [exact (fmag_le _ _ 8 M ltac:(lia))|].
  rewrite V, <- Vi, Vr. apply cong_eq. ring.
Qed.

Lemma table_loop_rep i r zi d dP dr : (i < length a)%nat -> length r = length a ->
  fmag zi 8 -> fval (jz (nth i a d)) * fval zi =[p]= 1 ->
  let r' := table_loop i r a zr zi in
  length r' = length a /\
  (forall k, (k < i)%nat -> ge_rep (nth k r' dr) (nth k Ps dP)) /\
  (forall k, (i <= k)%nat -> nth k r' dr = nth k r dr).
Proof.
  revert r zi. induction i as [|i IH]; intros r zi Hi Hl Mi Vi; cbn [table_loop].
  - split; [exact Hl|]. split; [intros; lia|reflexivity].
  - destruct (zr_step i zi d (fe_set_int 0) 1 Hi Mi Vi) as [M V].
    set (zi' := fe_mul zi _) in *.
    rewrite (nth_indep a _ d) by lia.
    pose proof (set_gej_zinv_rep _ zi' _ (nth_rep i d dP ltac:(lia)) M (fun _ => V)) as R.
    destruct (IH (upd r i (secp256k1_ge_set_gej_zinv (nth i a d) zi')) zi' ltac:(lia)
      ltac:(now rewrite length_upd) M V) as (L & Hlo & Hhi).
    split; [exact L|]. split.
    + intros k Hk. destruct (Nat.eq_dec k i) as [->|Hn]; [|apply Hlo; lia].
      rewrite Hhi, nth_upd, Nat.eqb_refl by lia. exact R.
    + intros k Hk. rewrite Hhi, nth_upd by lia.
      destruct (Nat.eqb_spec i k); [lia|reflexivity].
Qed.

Lemma set_table_rep r d dr dP : length r = length a -> (1 <= length a)%nat ->
  jinf (nth (length a - 1) a d) = false ->
  forall k, (k < length a)%nat ->
    ge_rep (nth k (secp256k1_ge_set_table_gej_var r a zr (length a)) dr) (nth k Ps dP).
Proof.
  intros Hl Hn Hf k Hk. unfold secp256k1_ge_set_table_gej_var.
  replace (Nat.ltb 0 (length a)) with true by (symmetry; apply Nat.ltb_lt; lia).
  cbv zeta. set (i := (length a - 1)%nat) in *.
  rewrite (nth_indep a _ d) by lia.
  pose proof (nth_rep i d dP ltac:(lia)) as R.
  pose proof R as [(_ & _ & Mz) [_ H]].
  destruct (fe_inv_spec _ Mz) as (Mi & Vi & _).
  pose proof (fmag_le _ _ 8 Mi ltac:(lia)) as Mi8.
  assert (V : fval (jz (nth i a d)) * fval (secp256k1_fe_inv (jz (nth i a d))) =[p]= 1).
  { apply Vi. destruct (nth i Ps dP); [congruence|apply H]. }
  pose proof (set_gej_zinv_rep _ _ _ R Mi8 (fun _ => V)) as Ri.
  destruct (table_loop_rep i (upd r i (secp256k1_ge_set_gej_zinv (nth i a d)
      (secp256k1_fe_inv (jz (nth i a d))))) _ d dP dr ltac:(lia)
      ltac:(now rewrite length_upd) Mi8 V) as (_ & Hlo & Hhi).
  destruct (Nat.lt_ge_cases k i) as [Hki|Hki]; [now apply Hlo|].
  rewrite Hhi by exact Hki. assert (k = i) as -> by lia.
  rewrite nth_upd, Nat.eqb_refl by lia. exact Ri.
Qed.

(** An affine entry read with the common z coordinate. *)
Definition with_z (b : secp256k1_ge) (g : fe) : secp256k1_gej := Gej (gx b) (gy b) g (ginf b).

Lemma set_gej_zinv_scale c zs g P : gej_rep c P -> fmag zs 8 -> fmag g 8 ->
  fval g mod p <> 0 -> fval (jz c) * fval zs =[p]= fval g ->
  gej_rep (with_z (secp256k1_ge_set_gej_zinv c zs) g) P.
Proof.
  intros Hc Ms Mg Hg V. pose proof Hc as [(Mx & My & Mz) [Hp H]].
  apply fev_self in Mx, My, Ms.
  pose proof (fev_sqr _ _ _ Ms eq_refl) as K2.
  pose proof (fev_mul _ _ _ _ _ _ K2 Ms eq_refl) as K3.
  pose proof (fev_mul _ _ _ _ _ _ Mx K2 eq_refl) as Kx.
  pose proof (fev_mul _ _ _ _ _ _ My K3 eq_refl) as Ky.
  split; [exact (conj (fev_mag _ _ 8 _ Kx eq_refl) (conj (fev_mag _ _ 8 _ Ky eq_refl) Mg))|].
  split; [exact Hp|]. destruct P as [|x y]; [exact H|]. destruct H as (Hi & Hz & Vx & Vy).
  split; [exact Hi|]. cbn [with_z secp256k1_ge_set_gej_zinv gx gy jx jy jz].
  split; [exact Hg|]. split.
  - rewrite (proj2 Kx), Vx, <- V. apply cong_eq. ring.
  - rewrite (proj2 Ky), Vy, <- V. apply cong_eq. ring.
Qed.

Lemma globalz_loop_rep i r zs g d dP dr : (i < length a)%nat -> length r = length a ->
  fmag g 8 -> fval g mod p <> 0 ->
  (if Nat.eqb i (length a - 1) then
     jz (nth i a d) = g /\ (zs = nth i zr (fe_set_int 0))
   else fmag zs 8 /\ fval (jz (nth i a d)) * fval zs =[p]= fval g) ->
  let r' := globalz_loop (length a) i r a zr zs in
  length r' = length a /\
  (forall k, (k < i)%nat -> gej_rep (with_z (nth k r' dr) g) (nth k Ps dP)) /\
  (forall k, (i <= k)%nat -> nth k r' dr = nth k r dr).
Proof.
  revert r zs. induction i as [|i IH]; intros r zs Hi Hl Mg Hg Hz; cbn [globalz_loop].
  - split; [exact Hl|]. split; [intros; lia|reflexivity].
  - set (zs' := if Nat.eqb (S i) (length a - 1) then zs else _).
    assert (K : fmag zs' 8 /\ fval (jz (nth i a d)) * fval zs' =[p]= fval g).
    { unfold zs'. destruct (Nat.eqb (S i) (length a - 1)).
      - destruct Hz as [<- ->]. destruct (Hzr i d (fe_set_int 0) Hi) as [Mr Vr].
        split; [exact Mr|]. now symmetry.
      - destruct Hz as [Ms Vs]. exact (zr_step i zs d (fe_set_int 0) _ Hi Ms Vs). }
    destruct K as [M V]. rewrite (nth_indep a _ d) by lia.
    pose proof (set_gej_zinv_scale _ zs' g _ (nth_rep i d dP ltac:(lia)) M Mg Hg V) as R.
    destruct (IH (upd r i (secp256k1_ge_set_gej_zinv (nth i a d) zs')) zs' ltac:(lia)
      ltac:(now rewrite length_upd) Mg Hg) as (L & Hlo & Hhi).
    { replace (Nat.eqb i (length a - 1)) with false; [exact (conj M V)|].
      symmetry. apply Nat.eqb_neq. lia. }
    split; [exact L|]. split.
    + intros k Hk. destruct (Nat.eq_dec k i) as [->|Hn]; [|apply Hlo; lia].
      rewrite Hhi, nth_upd, Nat.eqb_refl by lia. exact R.
    + intros k Hk. rewrite Hhi, nth_upd by lia.
      destruct (Nat.eqb_spec i k); [lia|reflexivity].
Qed.
Lemma globalz_table_rep r g0 d dr dP : length r = length a -> (1 <= length a)%nat ->
  jinf (nth (length a - 1) a d) = false ->
  let '(r', g) := secp256k1_ge_globalz_set_table_gej (length a) r g0 a zr in
  forall k, (k < length a)%nat -> gej_rep (with_z (nth k r' dr) g) (nth k Ps dP).
Proof.
  intros Hl Hn Hf. unfold secp256k1_ge_globalz_set_table_gej.
  replace (Nat.ltb 0 (length a)) with true by (symmetry; apply Nat.ltb_lt; lia).
  cbv zeta. intros k Hk. set (i := (length a - 1)%nat) in *.
  rewrite (nth_indep a _ d) by lia. set (ai := nth i a d) in *.
  pose proof (nth_rep i d dP ltac:(lia)) as R. fold ai in R.
  assert (Hz : fmag (jz ai) 8 /\ fval (jz ai) mod p <> 0).
  { destruct R as [(_ & _ & Mz) [_ H]]. split; [exact Mz|].
    destruct (nth i Ps dP); [congruence|apply H]. }
  destruct (globalz_loop_rep i (upd r i (Ge (jx ai) (jy ai) false))
    (nth i zr (fe_set_int 0)) (jz ai) d dP dr ltac:(lia) ltac:(now rewrite length_upd)
    (proj1 Hz) (proj2 Hz)) as (_ & Hlo & Hhi).
  { fold ai. unfold i. rewrite Nat.eqb_refl. now split. }
  destruct (Nat.lt_ge_cases k i) as [Hki|Hki]; [now apply Hlo|].
  rewrite Hhi by exact Hki. assert (k = i) as -> by lia.
  rewrite nth_upd, Nat.eqb_refl by lia. unfold with_z. cbn [gx gy ginf].
  rewrite <- Hf. destruct ai. exact R.
Qed.
End Tables.

Lemma set_infinity_mags r : gej_mags (secp256k1_gej_set_infinity r).
Proof.
  assert (H : forall a, fmag (fe_clear a) 8).
  { intros a. apply (fmag_le _ 1); [|lia]. apply fnorm_mag, fe_clear_ok. }
  exact (conj (H _) (conj (H _) (H _))).
Qed.

Lemma const_g_rep : ge_rep secp256k1_ge_const_g G_point.
Proof.
  apply ge_rep_mag1; [apply on_curve_check; vm_compute; reflexivity|apply fev_up..];
    apply fev_const; vm_compute; reflexivity.
Qed.
End GroupLaws.
