(* ===== verification/Ecmult.v ===== *)
(** * ecmult_impl.h: the double multiplication na * A + ng * G

    In the configuration of build.rs (USE_ENDOMORPHISM): Straus' method on four
    128-bit digit strings.  [junk] is the content of uninitialised memory: local
    and freshly allocated arrays are filled with it before the code writes
    them. *)
From S2P Require Import Prelude Primes FieldSpec Field ScalarSpec Scalar Wnaf.
From S2P Require Import CurveSpec CurveGroup CurveOrder CurveCount Group.

Definition WINDOW_A : Z := 5.
Definition WINDOW_G : Z := 15.

Definition ECMULT_TABLE_SIZE (w : Z) : Z := 1 << (w - 2).

Section Ecmult.
Context {F : FieldImpl} {SI : ScalarImpl} (junk : secp256k1_gej).

Definition junk_ge : secp256k1_ge := Ge (jx junk) (jy junk) (jinf junk).

(** ** Tables of odd multiples *)

(** The additions of entries [i], [i + 1], ... of the table. *)
Fixpoint odd_multiples_loop (n i : nat) (prej : list secp256k1_gej) (zr : list fe)
    (d_ge : secp256k1_ge) : list secp256k1_gej * list fe :=
  match n with
  | O => (prej, zr)
  | S n =>
    let '(p, z) := secp256k1_gej_add_ge_var (nth i prej junk) (nth (i - 1) prej junk) d_ge in
    let prej := upd prej i p in
    let zr := match z with Some z => upd zr i z | None => zr end in
    odd_multiples_loop n (i + 1) prej zr d_ge
  end.

Definition secp256k1_ecmult_odd_multiples_table (n : nat) (prej : list secp256k1_gej)
    (zr : list fe) (a : secp256k1_gej) : list secp256k1_gej * list fe :=
  let '(d, _) := secp256k1_gej_double_var junk a in
  let d_ge := Ge (jx d) (jy d) false in
  let a_ge := secp256k1_ge_set_gej_zinv a (jz d) in
  let prej := upd prej 0 (Gej (gx a_ge) (gy a_ge) (jz a) false) in
  let zr := upd zr 0 (jz d) in
  let '(prej, zr) := odd_multiples_loop (n - 1) 1 prej zr d_ge in
  let p := nth (n - 1) prej junk in
  (upd prej (n - 1) (Gej (jx p) (jy p) (fe_mul (jz p) (jz d)) (jinf p)), zr).

Definition secp256k1_ecmult_odd_multiples_table_globalz_windowa (pre : list secp256k1_ge)
    (globalz : fe) (a : secp256k1_gej) : list secp256k1_ge * fe :=
  let n := Z.to_nat (ECMULT_TABLE_SIZE WINDOW_A) in
  let '(prej, zr) :=
    secp256k1_ecmult_odd_multiples_table n (repeat junk n) (repeat (jx junk) n) a in
  secp256k1_ge_globalz_set_table_gej n pre globalz prej zr.

(** The entries of [pre] are all overwritten. *)
Definition secp256k1_ecmult_odd_multiples_table_storage_var (n : nat) (a : secp256k1_gej)
    : list secp256k1_ge_storage :=
  let '(prej, zr) :=
    secp256k1_ecmult_odd_multiples_table n (repeat junk n) (repeat (jx junk) n) a in
  let prea := secp256k1_ge_set_table_gej_var (repeat junk_ge n) prej zr n in
  map secp256k1_ge_to_storage prea.

(** [pre[(n - 1) / 2]], negated for a negative [n]. *)
Definition ECMULT_TABLE_GET_GE (pre : list secp256k1_ge) (n : Z) : secp256k1_ge :=
  if 0 <? n then nth (Z.to_nat ((n - 1) / 2)) pre junk_ge
  else secp256k1_ge_neg (nth (Z.to_nat ((- n - 1) / 2)) pre junk_ge).

Definition ECMULT_TABLE_GET_GE_STORAGE (pre : list secp256k1_ge_storage) (n : Z)
    : secp256k1_ge :=
  let junk_st := secp256k1_ge_to_storage junk_ge in
  if 0 <? n then secp256k1_ge_from_storage (nth (Z.to_nat ((n - 1) / 2)) pre junk_st)
  else
    let r := secp256k1_ge_from_storage (nth (Z.to_nat ((- n - 1) / 2)) pre junk_st) in
    secp256k1_ge_neg r.

(** ** The context *)

(** [None] is the null pointer. *)
Record secp256k1_ecmult_context := EcmultContext {
  pre_g : option (list secp256k1_ge_storage);
  pre_g_128 : option (list secp256k1_ge_storage)
}.

Definition secp256k1_ecmult_context_init : secp256k1_ecmult_context := EcmultContext None None.

Definition secp256k1_ecmult_context_build (ctx : secp256k1_ecmult_context)
    : secp256k1_ecmult_context :=
  match pre_g ctx with
  | Some _ => ctx
  | None =>
    let n := Z.to_nat (ECMULT_TABLE_SIZE WINDOW_G) in
    let gj := secp256k1_gej_set_ge secp256k1_ge_const_g in
    let pre_g := secp256k1_ecmult_odd_multiples_table_storage_var n gj in
    let g_128j := for_loop 128 (fun _ g => fst (secp256k1_gej_double_var g g)) gj in
    let pre_g_128 := secp256k1_ecmult_odd_multiples_table_storage_var n g_128j in
    EcmultContext (Some pre_g) (Some pre_g_128)
  end.

(** The copy has the contents of the original. *)
Definition secp256k1_ecmult_context_clone (src : secp256k1_ecmult_context)
    : secp256k1_ecmult_context :=
  EcmultContext
    (match pre_g src with None => None | Some t => Some t end)
    (match pre_g_128 src with None => None | Some t => Some t end).

Definition secp256k1_ecmult_context_is_built (ctx : secp256k1_ecmult_context) : bool :=
  match pre_g ctx with Some _ => true | None => false end.

Definition secp256k1_ecmult_context_clear (ctx : secp256k1_ecmult_context)
    : secp256k1_ecmult_context := secp256k1_ecmult_context_init.

(** The array behind a pointer. *)
Definition deref {A} (t : option (list A)) : list A := match t with Some l => l | None => [] end.

(** ** The multiplication *)

(** One iteration of the main loop, for index [i]. *)
Definition ecmult_step (pre_a pre_a_lam : list secp256k1_ge) (pre_g pre_g_128 : list secp256k1_ge_storage)
    (Z : fe) (wnaf_na_1 wnaf_na_lam wnaf_ng_1 wnaf_ng_128 : list BinNums.Z)
    (bits_na_1 bits_na_lam bits_ng_1 bits_ng_128 : BinNums.Z)
    (i : nat) (r : secp256k1_gej) : secp256k1_gej :=
  let r := fst (secp256k1_gej_double_var r r) in
  let n := nth i wnaf_na_1 0 in
  let r :=
    if (Z.of_nat i <? bits_na_1) && negb (n =? 0) then
      fst (secp256k1_gej_add_ge_var r r (ECMULT_TABLE_GET_GE pre_a n))
    else r in
  let n := nth i wnaf_na_lam 0 in
  let r :=
    if (Z.of_nat i <? bits_na_lam) && negb (n =? 0) then
      fst (secp256k1_gej_add_ge_var r r (ECMULT_TABLE_GET_GE pre_a_lam n))
    else r in
  let n := nth i wnaf_ng_1 0 in
  let r :=
    if (Z.of_nat i <? bits_ng_1) && negb (n =? 0) then
      secp256k1_gej_add_zinv_var r r (ECMULT_TABLE_GET_GE_STORAGE pre_g n) Z
    else r in
  let n := nth i wnaf_ng_128 0 in
  if (Z.of_nat i <? bits_ng_128) && negb (n =? 0) then
    secp256k1_gej_add_zinv_var r r (ECMULT_TABLE_GET_GE_STORAGE pre_g_128 n) Z
  else r.

(** [for (i = bits - 1; i >= 0; i--)]. *)
Fixpoint down_loop {S : Type} (n : nat) (body : nat -> S -> S) (s : S) : S :=
  match n with O => s | S n => down_loop n body (body n s) end.

Definition secp256k1_ecmult (ctx : secp256k1_ecmult_context) (r a : secp256k1_gej)
    (na ng : scalar) : secp256k1_gej :=
  let '(na_1, na_lam) := secp256k1_scalar_split_lambda na in
  let '(wnaf_na_1, bits_na_1) := secp256k1_ecmult_wnaf 130 na_1 WINDOW_A in
  let '(wnaf_na_lam, bits_na_lam) := secp256k1_ecmult_wnaf 130 na_lam WINDOW_A in
  let bits := bits_na_1 in
  let bits := if bits <? bits_na_lam then bits_na_lam else bits in
  let n := Z.to_nat (ECMULT_TABLE_SIZE WINDOW_A) in
  let '(pre_a, Z) :=
    secp256k1_ecmult_odd_multiples_table_globalz_windowa (repeat junk_ge n) (jx junk) a in
  let pre_a_lam := map secp256k1_ge_mul_lambda pre_a in
  let '(ng_1, ng_128) := s_split_128 ng in
  let '(wnaf_ng_1, bits_ng_1) := secp256k1_ecmult_wnaf 129 ng_1 WINDOW_G in
  let '(wnaf_ng_128, bits_ng_128) := secp256k1_ecmult_wnaf 129 ng_128 WINDOW_G in
  let bits := if bits <? bits_ng_1 then bits_ng_1 else bits in
  let bits := if bits <? bits_ng_128 then bits_ng_128 else bits in
  let r := secp256k1_gej_set_infinity r in
  let r := down_loop (Z.to_nat bits)
    (ecmult_step pre_a pre_a_lam (deref (pre_g ctx)) (deref (pre_g_128 ctx)) Z
       wnaf_na_1 wnaf_na_lam wnaf_ng_1 wnaf_ng_128
       bits_na_1 bits_na_lam bits_ng_1 bits_ng_128) r in
  if negb (jinf r) then Gej (jx r) (jy r) (fe_mul (jz r) Z) (jinf r) else r.

(** * Theorems

    ** The tables hold the odd multiples *)

(** The same points, up to the z coordinates of all entries but the last. *)
Record same_xy (a b : list secp256k1_gej) : Prop := {
  sxy_len : length a = length b;
  sxy_x : forall k d, (k < length a)%nat -> jx (nth k a d) = jx (nth k b d);
  sxy_y : forall k d, (k < length a)%nat -> jy (nth k a d) = jy (nth k b d);
  sxy_inf : forall k d, (k < length a)%nat -> jinf (nth k a d) = jinf (nth k b d);
  sxy_last : forall d, nth (length a - 1) a d = nth (length a - 1) b d
}.

Lemma set_gej_zinv_same a b k d zi : same_xy a b -> (k < length a)%nat ->
  secp256k1_ge_set_gej_zinv (nth k a d) zi = secp256k1_ge_set_gej_zinv (nth k b d) zi.
Proof.
  intros H Hk. unfold secp256k1_ge_set_gej_zinv.
  now rewrite (sxy_x _ _ H), (sxy_y _ _ H), (sxy_inf _ _ H) by exact Hk.
Qed.

Lemma table_loop_same a b zr : same_xy a b -> forall i r zi, (i < length a)%nat ->
  table_loop i r a zr zi = table_loop i r b zr zi.
Proof.
  intros H. induction i as [|i IH]; intros r zi Hi; cbn [table_loop]; [reflexivity|].
  rewrite (set_gej_zinv_same a b) by (assumption || lia). apply IH. lia.
Qed.

Lemma globalz_loop_same a b zr len : same_xy a b -> forall i r zs, (i < length a)%nat ->
  globalz_loop len i r a zr zs = globalz_loop len i r b zr zs.
Proof.
  intros H. induction i as [|i IH]; intros r zs Hi; cbn [globalz_loop]; [reflexivity|].
  rewrite (set_gej_zinv_same a b) by (assumption || lia). apply IH. lia.
Qed.

Lemma set_table_same a b r zr : same_xy a b -> (1 <= length a)%nat ->
  secp256k1_ge_set_table_gej_var r a zr (length a) = secp256k1_ge_set_table_gej_var r b zr (length a).
Proof.
  intros H Hn. unfold secp256k1_ge_set_table_gej_var.
  destruct (Nat.ltb 0 (length a)); [|reflexivity]. cbv zeta.
  rewrite (sxy_last _ _ H). apply table_loop_same; [exact H|lia].
Qed.

Lemma globalz_same a b r g zr : same_xy a b -> (1 <= length a)%nat ->
  secp256k1_ge_globalz_set_table_gej (length a) r g a zr
  = secp256k1_ge_globalz_set_table_gej (length a) r g b zr.
Proof.
  intros H Hn. unfold secp256k1_ge_globalz_set_table_gej.
  destruct (Nat.ltb 0 (length a)); [|reflexivity]. cbv zeta.
  rewrite (sxy_last _ _ H). f_equal. apply globalz_loop_same; [exact H|lia].
Qed.

(** Multiply the z coordinate. *)
Definition scale_z (z : fe) (a : secp256k1_gej) : secp256k1_gej :=
  Gej (jx a) (jy a) (fe_mul (jz a) z) (jinf a).

Lemma scale_z_rep z a P : fmag z 8 -> gej_srep (fval z) a P -> gej_rep (scale_z z a) P.
Proof.
  intros Mz ((Mx & My & Ma) & Hc & H). destruct (fe_mul_ok _ _ Ma Mz) as [M V].
  apply (rep_at_ext (fval (jz a) * fval z)); [symmetry; exact V|].
  split; [exact (conj Mx (conj My (fmag_le _ _ 8 M ltac:(lia))))|]. exact (conj Hc H).
Qed.

Lemma last_same z l : (1 <= length l)%nat ->
  same_xy (upd l (length l - 1) (scale_z z (nth (length l - 1) l junk))) (map (scale_z z) l).
Proof.
  intros Hn. set (m := (length l - 1)%nat).
  assert (E : forall k d, (k < length l)%nat ->
    nth k (map (scale_z z) l) d = scale_z z (nth k l junk)).
  { intros k d Hk. rewrite (nth_indep _ d (scale_z z junk)) by (now rewrite length_map).
    apply map_nth. }
  constructor; rewrite ?length_upd.
  - now rewrite length_map.
  - intros k d Hk. rewrite nth_upd, E by (unfold m; lia).
    destruct (Nat.eqb_spec m k) as [->|]; [reflexivity|]. now rewrite (nth_indep l d junk).
  - intros k d Hk. rewrite nth_upd, E by (unfold m; lia).
    destruct (Nat.eqb_spec m k) as [->|]; [reflexivity|]. now rewrite (nth_indep l d junk).
  - intros k d Hk. rewrite nth_upd, E by (unfold m; lia).
    destruct (Nat.eqb_spec m k) as [->|]; [reflexivity|]. now rewrite (nth_indep l d junk).
  - intros d. fold m. now rewrite nth_upd, Nat.eqb_refl, E by (unfold m; lia).
Qed.

Section OddMultiples.
Variables (a : secp256k1_gej) (P : point) (n : nat).
Hypothesis Hjunk : gej_mags junk.
Hypothesis Ha : gej_rep a P.
Hypothesis HP : P <> Inf.
Hypothesis Hfin : forall k, (k < n)%nat -> pmul (2 * k + 1) P <> Inf.

Let d := fst (secp256k1_gej_double_var junk a).
Let g := fval (jz d).
Let d_ge := Ge (jx d) (jy d) false.

Lemma P_curve : on_curve P.
Proof. apply Ha. Qed.

Lemma P_finite : exists x y, P = Aff x y.
Proof. destruct P as [|x y]; [contradiction|]. now exists x, y. Qed.

Lemma doubled : g mod p <> 0 /\ fmag (jz d) 8 /\ ge_srep g d_ge (padd P P).
Proof.
  destruct (double_rep junk a P Hjunk Ha) as [H _]. fold d in H.
  destruct P_finite as (x & y & EP). pose proof P_curve as HC. rewrite EP in H, HC |- *.
  destruct (padd_tangent x y HC) as (l & _ & E & _). rewrite E in *.
  destruct H as ((Mx & My & Mz) & Hc & Hi & Hz & Vx & Vy).
  split; [exact Hz|]. split; [exact Mz|]. split; [exact (conj Mx My)|]. split; [exact Hc|].
  exact (conj eq_refl (conj Vx Vy)).
Qed.

Lemma first_entry : let a_ge := secp256k1_ge_set_gej_zinv a (jz d) in
  gej_srep g (Gej (gx a_ge) (gy a_ge) (jz a) false) P.
Proof.
  destruct doubled as (Hg & Md & _). cbv zeta.
  destruct P_finite as (x & y & EP). pose proof Ha as Ha'. rewrite EP in Ha' |- *.
  destruct (rep_finite _ _ _ Ha') as (Hc & Hi & Hz & Kx & Ky & Kz).
  pose proof (fev_self _ _ Md) as Kd. fold g in Kd.
  pose proof (fev_sqr _ _ _ Kd eq_refl) as K2.
  pose proof (fev_mul _ _ _ _ _ _ K2 Kd eq_refl) as K3.
  pose proof (fev_mul _ _ _ _ _ _ Kx K2 eq_refl) as K4.
  pose proof (fev_mul _ _ _ _ _ _ Ky K3 eq_refl) as K5.
  unfold secp256k1_ge_set_gej_zinv. cbn [gx gy].
  split; [exact (conj (fev_mag _ _ 8 _ K4 eq_refl) (conj (fev_mag _ _ 8 _ K5 eq_refl) (proj1 Kz)))|].
  split; [exact Hc|]. cbn [jx jy jz jinf]. split; [reflexivity|].
  split; [now apply mul_nonzero|]. rewrite (proj2 K4), (proj2 K5). split; apply cong_eq; ring.
Qed.

(** The first [i] entries are the odd multiples on the isomorphic curve, with
    the ratios of their z coordinates. *)
Record entries (i : nat) (prej : list secp256k1_gej) (zr : list fe) : Prop := {
  en_len : length prej = n;
  en_zr : length zr = n;
  en_mags : Forall gej_mags prej;
  en_rep : forall k, (k < i)%nat -> gej_srep g (nth k prej junk) (pmul (2 * k + 1) P);
  en_chain : forall k z, (S k < i)%nat -> fmag (nth (S k) zr z) 8 /\
    fval (jz (nth (S k) prej junk)) =[p]= fval (jz (nth k prej junk)) * fval (nth (S k) zr z)
}.

Lemma srep_not_inf b Q : gej_srep g b Q -> Q <> Inf -> jinf b = false.
Proof. intros (_ & _ & H) HQ. destruct Q; [contradiction|apply H]. Qed.

Lemma next_multiple k : pmul (2 * S k + 1) P = padd (pmul (2 * k + 1) P) (padd P P).
Proof.
  replace (2 * S k + 1)%nat with ((2 * k + 1) + (1 + 1))%nat by lia.
  pose proof P_curve as HC. rewrite !pmul_add by exact HC.
  assert (E1 : pmul 1 P = P) by (rewrite <- smul_nat; apply smul_1). now rewrite E1.
Qed.

Lemma entries_step i prej zr : (1 <= i < n)%nat -> entries i prej zr ->
  let '(q, z) := secp256k1_gej_add_ge_var (nth i prej junk) (nth (i - 1) prej junk) d_ge in
  entries (i + 1) (upd prej i q) (match z with Some z => upd zr i z | None => zr end).
Proof.
  intros Hi E. pose proof E as [L Lz M R C]. destruct doubled as (Hg & _ & Hd).
  assert (Mi : gej_mags (nth i prej junk)).
  { rewrite Forall_forall in M. apply M, nth_In. lia. }
  pose proof (R (i - 1)%nat ltac:(lia)) as R1.
  destruct (add_ge_var_srep g (nth i prej junk) _ _ _ _ Hg Mi R1 Hd) as [K1 K2].
  destruct (secp256k1_gej_add_ge_var _ _ _) as [q z]. cbn [fst snd] in *.
  rewrite <- next_multiple in K1. replace (S (i - 1)) with i in K1 by lia.
  pose proof (srep_not_inf _ _ R1 (Hfin (i - 1)%nat ltac:(lia))) as J1.
  pose proof (srep_not_inf _ _ K1 (Hfin i ltac:(lia))) as J2.
  destruct (K2 J1) as (z' & -> & Mz & Vz). rewrite J2 in Vz. constructor.
  - now rewrite length_upd.
  - now rewrite length_upd.
  - apply Forall_upd; [exact M|apply K1].
  - intros k Hk. rewrite nth_upd by lia. destruct (Nat.eqb_spec i k) as [<-|]; [exact K1|].
    apply R. lia.
  - intros k z Hk. rewrite !nth_upd by lia.
    destruct (Nat.eqb_spec i (S k)) as [->|].
    + destruct (Nat.eqb_spec (S k) k); [lia|]. split; [exact Mz|].
      replace (S k - 1)%nat with k in Vz by lia. exact Vz.
    + destruct (Nat.eqb_spec i k); [lia|]. apply C. lia.
Qed.

Lemma odd_multiples_loop_ok m : forall i prej zr, (1 <= i)%nat -> (i + m <= n)%nat ->
  entries i prej zr ->
  let '(prej', zr') := odd_multiples_loop m i prej zr d_ge in entries (i + m) prej' zr'.
Proof.
  induction m as [|m IH]; intros i prej zr Hi Hm E; cbn [odd_multiples_loop].
  - now rewrite Nat.add_0_r.
  - pose proof (entries_step i prej zr ltac:(lia) E) as K.
    destruct (secp256k1_gej_add_ge_var _ _ _) as [q z].
    pose proof (IH (i + 1)%nat _ _ ltac:(lia) ltac:(lia) K) as H.
    destruct (odd_multiples_loop _ _ _ _ _) as [prej' zr'].
    replace (i + S m)%nat with (i + 1 + m)%nat by lia. exact H.
Qed.

Definition odd_points : list point := map (fun k => pmul (2 * k + 1) P) (seq 0 n).

Lemma nth_odd_points k : (k < n)%nat -> nth k odd_points Inf = pmul (2 * k + 1) P.
Proof.
  intros Hk. unfold odd_points.
  set (f := fun k => pmul (2 * k + 1) P).
  rewrite (nth_indep _ Inf (f 0%nat)) by (rewrite length_map, length_seq; exact Hk).
  rewrite map_nth, seq_nth by exact Hk. reflexivity.
Qed.

(** Up to the z coordinates of all entries but the last, the table is a list of
    representations of the odd multiples with its chain of z ratios. *)
Lemma odd_multiples_table_ok prej zr : (1 <= n)%nat -> length prej = n -> length zr = n ->
  Forall gej_mags prej ->
  let '(prej', zr') := secp256k1_ecmult_odd_multiples_table n prej zr a in
  exists b, same_xy prej' b /\ length prej' = n /\ Forall2 gej_rep b odd_points /\ zr_chain b zr' /\
    jinf (nth (n - 1) b junk) = false.
Proof.
  intros Hn Lp Lz Mp. unfold secp256k1_ecmult_odd_multiples_table.
  destruct doubled as (Hg & Md & _). pose proof first_entry as F1. cbv zeta in F1.
  rewrite (surjective_pairing (secp256k1_gej_double_var junk a)). fold d. fold d_ge.
  cbv beta iota zeta. set (q := Gej _ _ (jz a) false) in *.
  assert (E1 : entries 1 (upd prej 0 q) (upd zr 0 (jz d))).
  { constructor; rewrite ?length_upd; try assumption.
    - apply Forall_upd; [exact Mp|apply F1].
    - intros k Hk. assert (k = 0%nat) as -> by lia. rewrite nth_upd by lia.
      cbn [Nat.eqb]. assert (E1 : pmul (2 * 0 + 1) P = P) by (rewrite <- smul_nat; apply smul_1).
      rewrite E1. exact F1.
    - intros k z Hk. lia. }
  pose proof (odd_multiples_loop_ok (n - 1) 1 _ _ ltac:(lia) ltac:(lia) E1) as E2.
  destruct (odd_multiples_loop _ _ _ _ _) as [prej' zr'].
  replace (1 + (n - 1))%nat with n in E2 by lia. destruct E2 as [L Lz' M R C].
  fold (scale_z (jz d) (nth (n - 1) prej' junk)).
  exists (map (scale_z (jz d)) prej'). rewrite <- L at 1 2.
  assert (En : forall k e, (k < n)%nat ->
    nth k (map (scale_z (jz d)) prej') e = scale_z (jz d) (nth k prej' junk)).
  { intros k e Hk. rewrite (nth_indep _ e (scale_z (jz d) junk)) by (rewrite length_map; lia).
    apply map_nth. }
  split; [apply last_same; lia|]. split; [now rewrite length_upd|]. split; [|split].
  - apply (Forall2_nth_intro gej_rep _ _ junk Inf).
    + unfold odd_points. rewrite !length_map, length_seq. exact L.
    + intros k Hk. rewrite length_map, L in Hk. rewrite nth_odd_points, En by exact Hk.
      apply scale_z_rep; [exact Md|now apply R].
  - intros k e z Hk. rewrite length_map, L in Hk. rewrite !En by lia.
    destruct (C k z Hk) as [Mk Vk]. split; [exact Mk|]. cbn [scale_z jz].
    assert (Mj : forall j, (j < n)%nat -> fmag (jz (nth j prej' junk)) 8)
      by (intros j Hj; apply (R j Hj)).
    destruct (fe_mul_ok _ _ (Mj (S k) ltac:(lia)) Md) as [_ ->].
    destruct (fe_mul_ok _ _ (Mj k ltac:(lia)) Md) as [_ ->]. rewrite Vk. apply cong_eq. ring.
  - rewrite En by lia. cbn [scale_z jinf].
    apply (srep_not_inf _ _ (R (n - 1)%nat ltac:(lia))), Hfin. lia.
Qed.
End OddMultiples.

Lemma length_globalz_loop len : forall i r a zr zs, length (globalz_loop len i r a zr zs) = length r.
Proof.
  induction i as [|i IH]; intros; cbn [globalz_loop]; [reflexivity|]. now rewrite IH, length_upd.
Qed.

Lemma length_table_loop : forall i r a zr zi, length (table_loop i r a zr zi) = length r.
Proof.
  induction i as [|i IH]; intros; cbn [table_loop]; [reflexivity|]. now rewrite IH, length_upd.
Qed.

(** An entry with the common z coordinate, seen on the isomorphic curve. *)
Lemma with_z_srep b z Q : gej_rep (with_z b z) Q -> ge_srep (fval z) b Q.
Proof.
  intros ((Mx & My & _) & Hc & H). split; [exact (conj Mx My)|]. split; [exact Hc|].
  destruct Q as [|x y]; [exact H|]. destruct H as (Hi & _ & Vx & Vy).
  exact (conj Hi (conj Vx Vy)).
Qed.

Lemma repeat_mags n : gej_mags junk -> Forall gej_mags (repeat junk n).
Proof. intros H. apply Forall_forall. intros x Hx. apply repeat_spec in Hx. now subst. Qed.

(** The table used for A: one common z for all entries. *)
Lemma globalz_windowa_ok pre0 g0 a P : gej_mags junk -> gej_rep a P -> P <> Inf ->
  (forall k, (k < 8)%nat -> pmul (2 * k + 1) P <> Inf) -> length pre0 = 8%nat ->
  let '(pre, Z) := secp256k1_ecmult_odd_multiples_table_globalz_windowa pre0 g0 a in
  length pre = 8%nat /\ fmag Z 8 /\ fval Z mod p <> 0 /\
  forall k, (k < 8)%nat -> ge_srep (fval Z) (nth k pre junk_ge) (pmul (2 * k + 1) P).
Proof.
  intros Hj Ha HP Hfin Hl. unfold secp256k1_ecmult_odd_multiples_table_globalz_windowa.
  change (Z.to_nat (ECMULT_TABLE_SIZE WINDOW_A)) with 8%nat.
  pose proof (odd_multiples_table_ok a P 8 Hj Ha HP Hfin (repeat junk 8) (repeat (jx junk) 8)
    ltac:(lia) eq_refl eq_refl (repeat_mags 8 Hj)) as T.
  destruct (secp256k1_ecmult_odd_multiples_table _ _ _ _) as [prej zr].
  destruct T as (b & Hs & L & HR & HC & Hi). pose proof (sxy_len _ _ Hs) as Lb.
  cbv beta iota.
  assert (ES : secp256k1_ge_globalz_set_table_gej 8 pre0 g0 prej zr
    = secp256k1_ge_globalz_set_table_gej 8 pre0 g0 b zr)
    by (rewrite <- L; apply globalz_same; [exact Hs|lia]).
  rewrite ES. rewrite L in Lb.
  pose proof (globalz_table_rep b zr (odd_points P 8) HR HC pre0 g0 junk junk_ge Inf
    ltac:(lia) ltac:(lia)) as G.
  rewrite <- Lb in G. specialize (G Hi).
  destruct (secp256k1_ge_globalz_set_table_gej 8 pre0 g0 b zr) as [pre Z] eqn:EG.
  assert (Lp : length pre = 8%nat).
  { unfold secp256k1_ge_globalz_set_table_gej in EG.
    change (Nat.ltb 0 8) with true in EG. apply (f_equal fst) in EG. cbv beta iota zeta in EG.
    cbn [fst] in EG. rewrite <- EG. now rewrite length_globalz_loop, length_upd. }
  assert (HK : forall k, (k < 8)%nat -> gej_rep (with_z (nth k pre junk_ge) Z) (pmul (2 * k + 1) P)).
  { intros k Hk. rewrite <- (nth_odd_points P 8) by exact Hk. apply G. lia. }
  split; [exact Lp|]. destruct (HK 0%nat ltac:(lia)) as ((_ & _ & MZ) & _ & H0).
  split; [exact MZ|]. split.
  - pose proof (Hfin 0%nat ltac:(lia)) as N0. destruct (pmul _ P); [contradiction|apply H0].
  - intros k Hk. apply with_z_srep. now apply HK.
Qed.

(** The tables of the context: affine entries in packed form. *)
Lemma storage_var_ok n a P : gej_mags junk -> gej_rep a P -> P <> Inf -> (1 <= n)%nat ->
  (forall k, (k < n)%nat -> pmul (2 * k + 1) P <> Inf) ->
  let pre := secp256k1_ecmult_odd_multiples_table_storage_var n a in
  length pre = n /\
  forall k d, (k < n)%nat -> ge_rep (secp256k1_ge_from_storage (nth k pre d)) (pmul (2 * k + 1) P).
Proof.
  intros Hj Ha HP Hn Hfin. unfold secp256k1_ecmult_odd_multiples_table_storage_var.
  pose proof (odd_multiples_table_ok a P n Hj Ha HP Hfin (repeat junk n) (repeat (jx junk) n)
    Hn (repeat_length _ _) (repeat_length _ _) (repeat_mags n Hj)) as T.
  destruct (secp256k1_ecmult_odd_multiples_table _ _ _ _) as [prej zr].
  destruct T as (b & Hs & L & HR & HC & Hi). pose proof (sxy_len _ _ Hs) as Lb. cbv beta iota zeta.
  assert (ES : secp256k1_ge_set_table_gej_var (repeat junk_ge n) prej zr n
    = secp256k1_ge_set_table_gej_var (repeat junk_ge n) b zr n)
    by (rewrite <- L at 2 4; apply set_table_same; [exact Hs|lia]).
  rewrite ES. rewrite L in Lb.
  pose proof (set_table_rep b zr (odd_points P n) HR HC (repeat junk_ge n) junk junk_ge Inf
    ltac:(rewrite repeat_length; lia) ltac:(lia)) as G.
  rewrite <- Lb in G. specialize (G Hi).
  assert (Lt : length (secp256k1_ge_set_table_gej_var (repeat junk_ge n) b zr n) = n).
  { unfold secp256k1_ge_set_table_gej_var. destruct (Nat.ltb 0 n).
    - now rewrite length_table_loop, length_upd, repeat_length.
    - apply repeat_length. }
  split; [now rewrite length_map|]. intros k d Hk.
  rewrite (nth_indep _ d (secp256k1_ge_to_storage junk_ge)) by (rewrite length_map; lia).
  rewrite map_nth. apply storage_roundtrip; [|now apply Hfin].
  rewrite <- (nth_odd_points P n) by exact Hk. apply G. lia.
Qed.

(** ** Reading a table *)

Lemma digit_index w d : 2 <= w -> wnaf_digit w d -> d <> 0 ->
  exists k, (k < Z.to_nat (ECMULT_TABLE_SIZE w))%nat /\
  if 0 <? d then (d - 1) / 2 = Z.of_nat k /\ d = Z.of_nat (2 * k + 1)
  else (- d - 1) / 2 = Z.of_nat k /\ d = - Z.of_nat (2 * k + 1).
Proof.
  intros Hw [->|[Ho Hd]] Hn; [contradiction|]. unfold ECMULT_TABLE_SIZE.
  rewrite Z.shiftl_1_l. replace (w - 1) with (1 + (w - 2)) in Hd by lia.
  rewrite Z.pow_add_r in Hd by lia. change (2 ^ 1) with 2 in Hd.
  apply Zodd_bool_iff, Zodd_ex in Ho. destruct Ho as [q ->].
  destruct (Z.ltb_spec 0 (2 * q + 1)).
  - exists (Z.to_nat q). split; [lia|]. replace (2 * q + 1 - 1) with (q * 2) by lia.
    rewrite Z.div_mul by lia. lia.
  - exists (Z.to_nat (- q - 1)). split; [lia|].
    replace (- (2 * q + 1) - 1) with ((- q - 1) * 2) by lia. rewrite Z.div_mul by lia. lia.
Qed.

Lemma ge_neg_srep g b P : ge_srep g b P -> ge_srep g (secp256k1_ge_neg b) (pneg P).
Proof.
  intros ((Mx & My) & Hc & H). apply fev_self in My.
  pose proof (fev_neg _ _ _ My eq_refl) as K.
  split; [exact (conj Mx (fev_mag _ _ 8 _ K eq_refl))|]. split; [oc|].
  destruct P as [|x y]; [exact H|]. destruct H as (Hi & Vx & Vy).
  split; [exact Hi|]. split; [exact Vx|]. cbn [gy secp256k1_ge_neg].
  rewrite (proj2 K), Vy, (cong_mod p (- y)). apply cong_eq. ring.
Qed.

Lemma mul_lambda_srep g b P : ge_srep g b P -> ge_srep g (secp256k1_ge_mul_lambda b) (pendo P).
Proof.
  intros ((Mx & My) & Hc & H). apply fev_self in Mx.
  pose proof (fev_mul _ _ _ _ _ _ Mx fev_beta eq_refl) as K.
  split; [exact (conj (fev_mag _ _ 8 _ K eq_refl) My)|]. split; [oc|].
  destruct P as [|x y]; [exact H|]. destruct H as (Hi & Vx & Vy).
  split; [exact Hi|]. split; [|exact Vy]. cbn [gx secp256k1_ge_mul_lambda].
  rewrite (proj2 K), Vx, (cong_mod p (x * beta_val)). apply cong_eq. ring.
Qed.

(** A list of points holds the odd multiples of [P] for window [w]. *)
Definition odd_table (g w : Z) (pre : list secp256k1_ge) (P : point) : Prop :=
  forall k, (k < Z.to_nat (ECMULT_TABLE_SIZE w))%nat ->
    ge_srep g (nth k pre junk_ge) (pmul (2 * k + 1) P).

Definition odd_storage (w : Z) (pre : list secp256k1_ge_storage) (P : point) : Prop :=
  forall k d, (k < Z.to_nat (ECMULT_TABLE_SIZE w))%nat ->
    ge_rep (secp256k1_ge_from_storage (nth k pre d)) (pmul (2 * k + 1) P).

Lemma get_ge_ok g w pre P d : 2 <= w -> on_curve P -> odd_table g w pre P -> wnaf_digit w d ->
  d <> 0 -> ge_srep g (ECMULT_TABLE_GET_GE pre d) (smul d P).
Proof.
  intros Hw HP HT Hd Hn. destruct (digit_index w d Hw Hd Hn) as (k & Hk & H).
  unfold ECMULT_TABLE_GET_GE. destruct (0 <? d); destruct H as [-> ->]; rewrite Nat2Z.id.
  - rewrite smul_nat. now apply HT.
  - rewrite smul_opp, smul_nat by exact HP. apply ge_neg_srep. now apply HT.
Qed.

Lemma get_storage_ok w pre P d : 2 <= w -> on_curve P -> odd_storage w pre P -> wnaf_digit w d ->
  d <> 0 -> ge_rep (ECMULT_TABLE_GET_GE_STORAGE pre d) (smul d P).
Proof.
  intros Hw HP HT Hd Hn. destruct (digit_index w d Hw Hd Hn) as (k & Hk & H).
  unfold ECMULT_TABLE_GET_GE_STORAGE. destruct (0 <? d); destruct H as [-> ->]; rewrite Nat2Z.id.
  - rewrite smul_nat. now apply HT.
  - rewrite smul_opp, smul_nat by exact HP. apply ge_neg_rep. now apply HT.
Qed.

(** A true affine point, added with the common z for its inverse z. *)
Lemma zinv_of_ge b z Q : ge_rep b Q -> fmag z 8 -> zinv_srep (fval z) b z Q.
Proof.
  intros (M & Hc & H) Mz. split; [exact M|]. split; [exact Mz|]. split; [exact Hc|].
  destruct Q as [|x y]; [exact H|]. destruct H as (Hi & Vx & Vy).
  split; [exact Hi|]. rewrite Vx, Vy. split; reflexivity.
Qed.

(** ** The main loop *)

Lemma down_loop_ok {S} (Q : nat -> S -> Prop) body n s :
  (forall i s, (i < n)%nat -> Q (Datatypes.S i) s -> Q i (body i s)) -> Q n s ->
  Q 0%nat (down_loop n body s).
Proof.
  revert s. induction n as [|n IH]; intros s Hb Hn; [exact Hn|]. cbn [down_loop].
  apply IH; [intros; apply Hb; [lia|assumption]|]. apply Hb; [lia|exact Hn].
Qed.

Section MainLoop.
Variables (Z : fe) (k : BinNums.Z).
Variables (pre_a pre_a_lam : list secp256k1_ge) (pg pg128 : list secp256k1_ge_storage).
Let g := fval Z.
Let P := smul k G_point.
Hypothesis Hg : g mod p <> 0.
Hypothesis MZ : fmag Z 8.
Hypothesis Ta : odd_table g WINDOW_A pre_a P.
Hypothesis Tl : odd_table g WINDOW_A pre_a_lam (pendo P).
Hypothesis Tg : odd_storage WINDOW_G pg G_point.
Hypothesis Th : odd_storage WINDOW_G pg128 (smul (2 ^ 128) G_point).

Lemma add_table_ok pre c m (b : bool) d r : odd_table g WINDOW_A pre (smul c G_point) ->
  wnaf_digit WINDOW_A d -> (b = false -> d = 0) -> gej_srep g r (smul m G_point) ->
  gej_srep g (if b && negb (d =? 0) then
      fst (secp256k1_gej_add_ge_var r r (ECMULT_TABLE_GET_GE pre d)) else r)
    (smul (m + d * c) G_point).
Proof.
  intros HT Hd Hb Hr. destruct (Z.eqb_spec d 0) as [->|Hn].
  - rewrite andb_false_r. replace (m + 0 * c) with m by ring. exact Hr.
  - destruct b; [|now specialize (Hb eq_refl)]. cbn [andb negb].
    rewrite smul_add, <- smul_smul by oc.
    apply (add_ge_var_srep g r r _ _ _ Hg (proj1 Hr) Hr).
    apply (get_ge_ok g WINDOW_A); [unfold WINDOW_A; lia|oc|exact HT|exact Hd|exact Hn].
Qed.

Lemma add_storage_ok pre c m (b : bool) d r : odd_storage WINDOW_G pre (smul c G_point) ->
  wnaf_digit WINDOW_G d -> (b = false -> d = 0) -> gej_srep g r (smul m G_point) ->
  gej_srep g (if b && negb (d =? 0) then
      secp256k1_gej_add_zinv_var r r (ECMULT_TABLE_GET_GE_STORAGE pre d) Z else r)
    (smul (m + d * c) G_point).
Proof.
  intros HT Hd Hb Hr. destruct (Z.eqb_spec d 0) as [->|Hn].
  - rewrite andb_false_r. replace (m + 0 * c) with m by ring. exact Hr.
  - destruct b; [|now specialize (Hb eq_refl)]. cbn [andb negb].
    rewrite smul_add, <- smul_smul by oc.
    apply (add_zinv_var_srep g r r _ _ _ _ Hg (proj1 Hr) Hr), zinv_of_ge; [|exact MZ].
    apply (get_storage_ok WINDOW_G); [unfold WINDOW_G; lia|oc|exact HT|exact Hd|exact Hn].
Qed.

(** A digit string with its reported length. *)
Definition digits_ok (w : BinNums.Z) (l : list BinNums.Z) (bits : BinNums.Z) : Prop :=
  Forall (wnaf_digit w) l /\ 0 <= bits /\
  forall i, bits <= i -> nth (Z.to_nat i) l 0 = 0.

Lemma digits_nth w l bits i : digits_ok w l bits ->
  wnaf_digit w (nth i l 0) /\ ((Z.of_nat i <? bits) = false -> nth i l 0 = 0).
Proof.
  intros (H1 & H2 & H3). split.
  - destruct (Nat.lt_ge_cases i (length l)) as [L|L].
    + rewrite Forall_forall in H1. now apply H1, nth_In.
    + rewrite nth_overflow by exact L. now left.
  - intros Hb. apply Z.ltb_ge in Hb. rewrite <- (Nat2Z.id i). now apply H3.
Qed.

Lemma step_ok l1 l2 l3 l4 b1 b2 b3 b4 i m r :
  digits_ok WINDOW_A l1 b1 -> digits_ok WINDOW_A l2 b2 ->
  digits_ok WINDOW_G l3 b3 -> digits_ok WINDOW_G l4 b4 ->
  gej_srep g r (smul m G_point) ->
  gej_srep g (ecmult_step pre_a pre_a_lam pg pg128 Z l1 l2 l3 l4 b1 b2 b3 b4 i r)
    (smul (2 * m + nth i l1 0 * k + nth i l2 0 * (lambda * k) + nth i l3 0 * 1
           + nth i l4 0 * 2 ^ 128) G_point).
Proof.
  intros D1 D2 D3 D4 Hr. unfold ecmult_step. cbv zeta.
  destruct (digits_nth _ _ _ i D1) as [E1 Z1], (digits_nth _ _ _ i D2) as [E2 Z2],
    (digits_nth _ _ _ i D3) as [E3 Z3], (digits_nth _ _ _ i D4) as [E4 Z4].
  apply (add_storage_ok _ (2 ^ 128)); [exact Th|exact E4|exact Z4|].
  apply (add_storage_ok _ 1); [rewrite smul_1; exact Tg|exact E3|exact Z3|].
  apply (add_table_ok _ (lambda * k)); [|exact E2|exact Z2|].
  { rewrite <- smul_smul, <- pendo_lambda by oc. exact Tl. }
  apply (add_table_ok _ k); [exact Ta|exact E1|exact Z1|].
  rewrite smul_double by oc. exact (proj1 (double_srep g r r _ (proj1 Hr) Hr)).
Qed.

Lemma wsum_skipn l i : wsum (skipn i l) = nth i l 0 + 2 * wsum (skipn (S i) l).
Proof.
  revert i. induction l as [|d l IH]; intros i; [now rewrite !skipn_nil; destruct i|].
  destruct i; [reflexivity|]. cbn [skipn nth]. apply IH.
Qed.

Lemma wsum_above l b : (forall i, b <= i -> nth (Z.to_nat i) l 0 = 0) -> 0 <= b ->
  forall i, b <= i -> wsum (skipn (Z.to_nat i) l) = 0.
Proof.
  intros H Hb i Hi. assert (E : forall j, nth j (skipn (Z.to_nat i) l) 0 = 0).
  { intros j. rewrite nth_skipn.
    replace (Z.to_nat i + j)%nat with (Z.to_nat (i + Z.of_nat j)) by lia. apply H. lia. }
  revert E. generalize (skipn (Z.to_nat i) l). clear. intros l E.
  induction l as [|d l IH]; [reflexivity|]. cbn [wsum]. rewrite (E 0%nat : d = 0).
  rewrite IH; [reflexivity|]. intros j. exact (E (S j)).
Qed.

Lemma main_loop_ok l1 l2 l3 l4 b1 b2 b3 b4 bits r :
  digits_ok WINDOW_A l1 b1 -> digits_ok WINDOW_A l2 b2 ->
  digits_ok WINDOW_G l3 b3 -> digits_ok WINDOW_G l4 b4 ->
  b1 <= bits -> b2 <= bits -> b3 <= bits -> b4 <= bits ->
  gej_srep g r Inf ->
  gej_srep g (down_loop (Z.to_nat bits)
      (ecmult_step pre_a pre_a_lam pg pg128 Z l1 l2 l3 l4 b1 b2 b3 b4) r)
    (smul (wsum l1 * k + wsum l2 * (lambda * k) + wsum l3 * 1 + wsum l4 * 2 ^ 128) G_point).
Proof.
  intros D1 D2 D3 D4 B1 B2 B3 B4 Hr.
  set (T := fun i => wsum (skipn i l1) * k + wsum (skipn i l2) * (lambda * k)
    + wsum (skipn i l3) * 1 + wsum (skipn i l4) * 2 ^ 128).
  apply (down_loop_ok (fun i r => gej_srep g r (smul (T i) G_point))).
  - intros i r' Hi H.
    pose proof (step_ok l1 l2 l3 l4 b1 b2 b3 b4 i _ r' D1 D2 D3 D4 H) as K.
    replace (T i) with (2 * T (S i) + nth i l1 0 * k + nth i l2 0 * (lambda * k)
      + nth i l3 0 * 1 + nth i l4 0 * 2 ^ 128); [exact K|].
    unfold T. rewrite (wsum_skipn l1 i), (wsum_skipn l2 i), (wsum_skipn l3 i), (wsum_skipn l4 i).
    ring.
  - unfold T. destruct D1 as (_ & P1 & A1), D2 as (_ & P2 & A2), D3 as (_ & P3 & A3),
      D4 as (_ & P4 & A4).
    rewrite (wsum_above l1 b1), (wsum_above l2 b2), (wsum_above l3 b3), (wsum_above l4 b4)
      by assumption. exact Hr.
Qed.
End MainLoop.

(** ** Contexts *)

(** No small multiple of a multiple of G other than 0 is the point at infinity. *)
Lemma multiple_finite c j : c mod n_order <> 0 -> 0 < Z.of_nat j < n_order ->
  pmul j (smul c G_point) <> Inf.
Proof.
  intros Hc Hj E. rewrite <- smul_nat, smul_smul in E by oc. apply smul_zero_iff in E.
  apply cong_iff in E. change (0 mod n_order) with 0 in E.
  apply Z.mod_divide in E; [|discriminate]. apply Z.divide_prime_mul in E; [|exact prime_n].
  destruct E as [E|E]; apply Z.mod_divide in E; try discriminate; [|contradiction].
  rewrite Z.mod_small in E; lia.
Qed.

Lemma smul_finite c : c mod n_order <> 0 -> smul c G_point <> Inf.
Proof.
  intros Hc E. apply smul_zero_iff, cong_iff in E. contradiction.
Qed.

(** The context holds the odd multiples of G and of 2^128 G. *)
Definition ctx_ok (ctx : secp256k1_ecmult_context) : Prop :=
  secp256k1_ecmult_context_is_built ctx = true /\
  odd_storage WINDOW_G (deref (pre_g ctx)) G_point /\
  odd_storage WINDOW_G (deref (pre_g_128 ctx)) (smul (2 ^ 128) G_point).

Lemma storage_table_ok a c : gej_mags junk -> c mod n_order <> 0 ->
  gej_rep a (smul c G_point) ->
  odd_storage WINDOW_G (secp256k1_ecmult_odd_multiples_table_storage_var
    (Z.to_nat (ECMULT_TABLE_SIZE WINDOW_G)) a) (smul c G_point).
Proof.
  intros Hj Hc Ha. unfold odd_storage.
  assert (Hn : Z.of_nat (Z.to_nat (ECMULT_TABLE_SIZE WINDOW_G)) = 8192) by reflexivity.
  revert Hn. generalize (Z.to_nat (ECMULT_TABLE_SIZE WINDOW_G)). intros n Hn k d Hk.
  apply storage_var_ok; try assumption; [now apply smul_finite|lia|].
  intros j Hj'. apply multiple_finite; [exact Hc|]. unfold n_order. lia.
Qed.

Lemma gej_G : gej_rep (secp256k1_gej_set_ge secp256k1_ge_const_g) (smul 1 G_point).
Proof. rewrite smul_1. apply set_ge_rep, const_g_rep. Qed.

Lemma doublings_ok n a c : gej_rep a (smul c G_point) ->
  gej_rep (for_loop n (fun _ g => fst (secp256k1_gej_double_var g g)) a)
    (smul (2 ^ Z.of_nat n * c) G_point).
Proof.
  intros Ha. apply (for_loop_inv (fun i b => gej_rep b (smul (2 ^ i * c) G_point))).
  - now rewrite Z.pow_0_r, Z.mul_1_l.
  - intros i b Hi Hb. rewrite Z.pow_add_r by lia. change (2 ^ 1) with 2.
    replace (2 ^ i * 2 * c) with (2 * (2 ^ i * c)) by ring. rewrite smul_double by oc.
    exact (proj1 (double_rep b b _ (proj1 Hb) Hb)).
Qed.

Lemma context_build_ok : gej_mags junk ->
  ctx_ok (secp256k1_ecmult_context_build secp256k1_ecmult_context_init).
Proof.
  intros Hj. unfold secp256k1_ecmult_context_build, secp256k1_ecmult_context_init.
  cbn [pre_g]. cbv zeta. split; [reflexivity|]. cbn [deref pre_g pre_g_128]. split.
  - pose proof (storage_table_ok _ 1 Hj ltac:(discriminate) gej_G) as T.
    rewrite (smul_1 G_point) in T. exact T.
  - apply storage_table_ok; [exact Hj|discriminate|].
    replace (2 ^ 128) with (2 ^ Z.of_nat 128 * 1) by reflexivity.
    apply doublings_ok. exact gej_G.
Qed.

(** ** na * A + ng * G *)

Lemma wnaf_value_short a k : sok a -> sval a =[n_order]= k -> Z.abs k < 2 ^ 128 ->
  wnaf_value a = k.
Proof.
  intros Ha E Hk. pose proof (sok_range a Ha) as Hr.
  assert (Ev : sval a = if 0 <=? k then k else k + n_order).
  { apply (cong_small n_order); [|exact Hr|].
    - rewrite E. destruct (0 <=? k); [reflexivity|]. exists (-1). ring.
    - destruct (Z.leb_spec 0 k); unfold n_order; lia. }
  unfold wnaf_value. destruct (Z.leb_spec 0 k), (Z.ltb_spec (sval a) (2 ^ 255));
    unfold n_order in *; lia.
Qed.

Lemma digits_of_wnaf len a w l bits : sok a -> 1 <= len <= 256 -> 2 <= w <= 31 ->
  Z.abs (wnaf_value a) < 2 ^ (len - 1) -> secp256k1_ecmult_wnaf len a w = (l, bits) ->
  digits_ok w l bits /\ wsum l = wnaf_value a.
Proof.
  intros Ha Hl Hw HV E. pose proof (ecmult_wnaf_spec len a w Ha Hl Hw HV) as H. rewrite E in H.
  destruct H as (H1 & _ & H2 & [H3 _] & H4). exact (conj (conj H2 (conj H3 H4)) H1).
Qed.

Lemma nth_map_lambda pre n : length pre = n -> forall k, (k < n)%nat ->
  nth k (map secp256k1_ge_mul_lambda pre) junk_ge = secp256k1_ge_mul_lambda (nth k pre junk_ge).
Proof.
  intros L k Hk. rewrite (nth_indep _ junk_ge (secp256k1_ge_mul_lambda junk_ge))
    by (rewrite length_map; lia). apply map_nth.
Qed.

(** Back from the isomorphic curve. *)
Lemma scale_end z a P : fmag z 8 -> gej_srep (fval z) a P ->
  gej_rep (if negb (jinf a) then Gej (jx a) (jy a) (fe_mul (jz a) z) (jinf a) else a) P.
Proof.
  intros Mz H. destruct (jinf a) eqn:E; cbn [negb].
  - destruct H as (M & Hc & H). destruct P as [|x y]; [|destruct H; congruence].
    split; [exact M|]. exact (conj I E).
  - rewrite <- E. now apply scale_z_rep.
Qed.

(** The four digit strings together give na * k + ng. *)
Lemma straus_sum na ng k :
  split_k1 na * k + split_k2 na * (lambda * k) + ng mod 2 ^ 128 * 1 + ng / 2 ^ 128 * 2 ^ 128
  =[n_order]= na * k + ng.
Proof.
  transitivity ((split_k1 na + split_k2 na * lambda) * k + (2 ^ 128 * (ng / 2 ^ 128) + ng mod 2 ^ 128)).
  - apply cong_eq. ring.
  - rewrite (split_sum na). rewrite <- (Z.div_mod ng (2 ^ 128)) by discriminate. reflexivity.
Qed.

Lemma raise_max x y : x <= (if x <? y then y else x) /\ y <= (if x <? y then y else x).
Proof. destruct (Z.ltb_spec x y); lia. Qed.

Lemma raise_all b1 b2 b3 b4 : let bits := if b1 <? b2 then b2 else b1 in
  let bits := if bits <? b3 then b3 else bits in
  let bits := if bits <? b4 then b4 else bits in
  b1 <= bits /\ b2 <= bits /\ b3 <= bits /\ b4 <= bits.
Proof.
  cbv zeta. set (bits1 := if b1 <? b2 then b2 else b1).
  set (bits2 := if bits1 <? b3 then b3 else bits1).
  pose proof (raise_max b1 b2) as [M1 M1']. pose proof (raise_max bits1 b3) as [M2 M2'].
  pose proof (raise_max bits2 b4) as [M3 M3']. fold bits1 in M1, M1'. fold bits2 in M2, M2'. lia.
Qed.

(** The digits of the two halves of na. *)
Lemma na_digits na na_1 na_lam l1 b1 l2 b2 : sok na ->
  secp256k1_scalar_split_lambda na = (na_1, na_lam) ->
  secp256k1_ecmult_wnaf 130 na_1 WINDOW_A = (l1, b1) ->
  secp256k1_ecmult_wnaf 130 na_lam WINDOW_A = (l2, b2) ->
  (digits_ok WINDOW_A l1 b1 /\ wsum l1 = split_k1 (sval na)) /\
  (digits_ok WINDOW_A l2 b2 /\ wsum l2 = split_k2 (sval na)).
Proof.
  intros Hna E E1 E2. pose proof (split_lambda_spec na Hna) as (O1 & O2 & V1 & V2).
  pose proof (split_small _ (sok_range na Hna)) as [S1 S2].
  rewrite E in *. cbn [fst snd] in *. apply Z.abs_lt in S1, S2.
  pose proof (wnaf_value_short _ _ O1 V1 S1) as W1. pose proof (wnaf_value_short _ _ O2 V2 S2) as W2.
  assert (B128 : 2 ^ 128 < 2 ^ (130 - 1)) by reflexivity. rewrite <- W1, <- W2.
  split; [apply (digits_of_wnaf 130 na_1 5)|apply (digits_of_wnaf 130 na_lam 5)];
    (assumption || lia).
Qed.

(** The digits of the two halves of ng. *)
Lemma ng_digits ng ng_1 ng_128 l1 b1 l2 b2 : sok ng -> s_split_128 ng = (ng_1, ng_128) ->
  secp256k1_ecmult_wnaf 129 ng_1 WINDOW_G = (l1, b1) ->
  secp256k1_ecmult_wnaf 129 ng_128 WINDOW_G = (l2, b2) ->
  (digits_ok WINDOW_G l1 b1 /\ wsum l1 = sval ng mod 2 ^ 128) /\
  (digits_ok WINDOW_G l2 b2 /\ wsum l2 = sval ng / 2 ^ 128).
Proof.
  intros Hng E E1 E2. pose proof (s_split_128_ok ng Hng) as SP. rewrite E in SP.
  destruct SP as (O3 & O4 & V3 & V4). pose proof (sok_range ng Hng) as Rg. rewrite <- V3, <- V4.
  assert (R3 : 0 <= sval ng_1 < 2 ^ 128) by (rewrite V3; apply Z.mod_pos_bound; reflexivity).
  assert (R4 : 0 <= sval ng_128 < 2 ^ 128).
  { rewrite V4. split; [apply Z.div_pos; lia|]. apply Z.div_lt_upper_bound; [lia|].
    unfold n_order in Rg. lia. }
  pose proof (wnaf_value_short _ _ O3 (cong_eq _ _ _ eq_refl) ltac:(lia)) as W3.
  pose proof (wnaf_value_short _ _ O4 (cong_eq _ _ _ eq_refl) ltac:(lia)) as W4.
  assert (A3 : Z.abs (wnaf_value ng_1) < 2 ^ 128) by (rewrite W3, Z.abs_eq by apply R3; apply R3).
  assert (A4 : Z.abs (wnaf_value ng_128) < 2 ^ 128) by (rewrite W4, Z.abs_eq by apply R4; apply R4).
  rewrite <- W3, <- W4.
  split; [apply (digits_of_wnaf 129 ng_1 15)|apply (digits_of_wnaf 129 ng_128 15)];
    (assumption || lia).
Qed.

Lemma ecmult_spec ctx r a na ng k : gej_mags junk -> ctx_ok ctx ->
  sok na -> sok ng -> k mod n_order <> 0 -> gej_rep a (smul k G_point) ->
  gej_rep (secp256k1_ecmult ctx r a na ng) (smul (sval na * k + sval ng) G_point).
Proof.
  intros Hj (_ & Tg & Th) Hna Hng Hk Ha. unfold secp256k1_ecmult.
  destruct (secp256k1_scalar_split_lambda na) as [na_1 na_lam] eqn:E.
  destruct (secp256k1_ecmult_wnaf 130 na_1 WINDOW_A) as [l1 b1] eqn:E1.
  destruct (secp256k1_ecmult_wnaf 130 na_lam WINDOW_A) as [l2 b2] eqn:E2.
  destruct (na_digits _ _ _ _ _ _ _ Hna E E1 E2) as [[D1 W1] [D2 W2]].
  pose proof (globalz_windowa_ok (repeat junk_ge 8) (jx junk) a _ Hj Ha (smul_finite k Hk)
    (fun j (Hj' : (j < 8)%nat) => multiple_finite k (2 * j + 1) Hk ltac:(unfold n_order; lia))
    eq_refl) as T.
  change (Z.to_nat (ECMULT_TABLE_SIZE WINDOW_A)) with 8%nat.
  destruct (secp256k1_ecmult_odd_multiples_table_globalz_windowa _ _ _) as [pre_a Z].
  destruct T as (Lp & MZ & HZ & Ta). destruct (s_split_128 ng) as [ng_1 ng_128] eqn:E'.
  destruct (secp256k1_ecmult_wnaf 129 ng_1 WINDOW_G) as [l3 b3] eqn:E3.
  destruct (secp256k1_ecmult_wnaf 129 ng_128 WINDOW_G) as [l4 b4] eqn:E4.
  destruct (ng_digits _ _ _ _ _ _ _ Hng E' E3 E4) as [[D3 W3] [D4 W4]].
  pose proof (raise_all b1 b2 b3 b4) as B. cbv zeta in B |- *. revert B.
  set (bits := if (if (if b1 <? b2 then b2 else b1) <? b3 then b3 else _) <? b4 then b4 else _).
  intros (B1 & B2 & B3 & B4). set (r0 := secp256k1_gej_set_infinity r).
  assert (Hr0 : gej_srep (fval Z) r0 Inf).
  { split; [apply set_infinity_mags|]. split; [exact I|reflexivity]. }
  assert (Tl : odd_table (fval Z) WINDOW_A (map secp256k1_ge_mul_lambda pre_a)
    (pendo (smul k G_point))).
  { intros j Hj'. change (Z.to_nat (ECMULT_TABLE_SIZE WINDOW_A)) with 8%nat in Hj'.
    rewrite (nth_map_lambda pre_a 8) by assumption.
    rewrite <- smul_nat, <- pendo_smul, smul_nat by oc. apply mul_lambda_srep. now apply Ta. }
  pose proof (main_loop_ok Z k pre_a _ _ _ HZ MZ Ta Tl Tg Th l1 l2 l3 l4 b1 b2 b3 b4 bits r0
    D1 D2 D3 D4 B1 B2 B3 B4 Hr0) as K.
  rewrite W1, W2, W3, W4 in K. rewrite <- (smul_cong _ _ (straus_sum (sval na) (sval ng) k)).
  apply scale_end; [exact MZ|exact K].
Qed.
(** For an arbitrary finite point. *)
Lemma ecmult_point ctx r a na ng P : gej_mags junk -> ctx_ok ctx ->
  sok na -> sok ng -> P <> Inf -> gej_rep a P ->
  gej_rep (secp256k1_ecmult ctx r a na ng) (padd (smul (sval na) P) (smul (sval ng) G_point)).
Proof.
  intros Hj Hc Hna Hng HP Ha. destruct (all_multiples P (proj1 (proj2 Ha))) as (k & _ & ->).
  rewrite smul_smul, <- smul_add by oc. apply ecmult_spec; try assumption.
  now apply finite_multiplier.
Qed.
End Ecmult.
