(* ===== verification/EcmultGen.v ===== *)
(** * ecmult_gen_impl.h: multiplication of the generator

    A table of 64 rows of 16 points, an initial point and a blinding scalar.
    The configuration of build.rs computes the table at run time
    (USE_ECMULT_STATIC_PRECOMPUTATION is not defined).  [junk], [hmac0] and
    [scratch] are uninitialised memory.  The two retry loops of the blinding
    take fuel; [None] is an exhausted loop. *)
From S2P Require Import Prelude Primes FieldSpec Field ScalarSpec Scalar Sha256Spec Hash.
From S2P Require Import CurveSpec CurveGroup CurveOrder NumsPoint Group Ecmult.

Section EcmultGen.
Context {F : FieldImpl} {SI : ScalarImpl} (junk : secp256k1_gej).
Context (hmac0 : hmac_sha256_t) (scratch : sha256_t).

(** In [prec], [None] is the null pointer. *)
Record secp256k1_ecmult_gen_context := EcmultGenContext {
  prec : option (list (list secp256k1_ge_storage));
  blind : scalar;
  initial : secp256k1_gej
}.

Definition secp256k1_ecmult_gen_context_init (ctx : secp256k1_ecmult_gen_context)
    : secp256k1_ecmult_gen_context :=
  EcmultGenContext None (blind ctx) (initial ctx).

Definition secp256k1_ecmult_gen_context_is_built (ctx : secp256k1_ecmult_gen_context) : bool :=
  match prec ctx with Some _ => true | None => false end.

Definition secp256k1_ecmult_gen_context_clone (dst src : secp256k1_ecmult_gen_context)
    : secp256k1_ecmult_gen_context :=
  match prec src with
  | None => EcmultGenContext None (blind dst) (initial dst)
  | Some t => EcmultGenContext (Some t) (blind src) (initial src)
  end.

Definition secp256k1_ecmult_gen_context_clear (ctx : secp256k1_ecmult_gen_context)
    : secp256k1_ecmult_gen_context :=
  EcmultGenContext None (s_clear (blind ctx)) (secp256k1_gej_clear (initial ctx)).

(** ** The multiplication *)

(** All bytes zero: the packed form of the coordinates 0 and 0. *)
Definition storage_zero : secp256k1_ge_storage :=
  GeStorage (fe_to_storage (fe_set_int 0)) (fe_to_storage (fe_set_int 0)).

(** The inner loop: a selection without secret indices. *)
Definition gen_select (row : list secp256k1_ge_storage) (bits : Z) (adds : secp256k1_ge_storage)
    : secp256k1_ge_storage :=
  for_loop 16 (fun i adds =>
    secp256k1_ge_storage_cmov adds (nth (Z.to_nat i) row storage_zero) (i =? bits)) adds.

Definition secp256k1_ecmult_gen (ctx : secp256k1_ecmult_gen_context) (gn : scalar)
    : secp256k1_gej :=
  let adds := storage_zero in
  let r := initial ctx in
  let '(gnb, _) := s_add gn (blind ctx) in
  let '(r, adds) := for_loop 64 (fun j '(r, adds) =>
    let bits := s_get_bits gnb (j * 4) 4 in
    let adds := gen_select (nth (Z.to_nat j) (deref (prec ctx)) []) bits adds in
    let add := secp256k1_ge_from_storage adds in
    (secp256k1_gej_add_ge r add, adds)) (r, adds) in
  r.

(** ** Blinding *)

(** The two [do ... while (retry)] loops. *)
Fixpoint draw_fe (fuel : nat) (rng : rfc6979_t) : option (fe * rfc6979_t) :=
  match fuel with
  | O => None
  | S fuel =>
    let '(rng, nonce32) := secp256k1_rfc6979_hmac_sha256_generate hmac0 scratch rng 32 in
    let '(s, ok) := fe_set_b32 nonce32 in
    let retry := negb ok in
    let retry := retry || fe_is_zero s in
    if retry then draw_fe fuel rng else Some (s, rng)
  end.

Fixpoint draw_scalar (fuel : nat) (rng : rfc6979_t) : option (scalar * rfc6979_t) :=
  match fuel with
  | O => None
  | S fuel =>
    let '(rng, nonce32) := secp256k1_rfc6979_hmac_sha256_generate hmac0 scratch rng 32 in
    let '(b, retry) := s_set_b32 nonce32 in
    let retry := retry || s_is_zero b in
    if retry then draw_scalar fuel rng else Some (b, rng)
  end.

Definition secp256k1_ecmult_gen_blind (fuel : nat) (ctx : secp256k1_ecmult_gen_context)
    (seed32 : option bytes) : option secp256k1_ecmult_gen_context :=
  let ctx :=
    match seed32 with
    | None =>
      let initial := secp256k1_gej_set_ge secp256k1_ge_const_g in
      let initial := secp256k1_gej_neg initial in
      EcmultGenContext (prec ctx) (s_set_int 1) initial
    | Some _ => ctx
    end in
  let nonce32 := s_get_b32 (blind ctx) in
  let keydata := nonce32 ++ match seed32 with Some seed => firstn 32 seed | None => [] end in
  let rng := secp256k1_rfc6979_hmac_sha256_initialize hmac0 scratch keydata in
  match draw_fe fuel rng with
  | None => None
  | Some (s, rng) =>
    let ctx := EcmultGenContext (prec ctx) (blind ctx) (secp256k1_gej_rescale (initial ctx) s) in
    match draw_scalar fuel rng with
    | None => None
    | Some (b, _) =>
      let gb := secp256k1_ecmult_gen ctx b in
      let b := s_negate b in
      Some (EcmultGenContext (prec ctx) b gb)
    end
  end.

(** ** The table *)

(** "The scalar for this x is unknown" *)
Definition nums_b32 : bytes :=
  [0x54; 0x68; 0x65; 0x20; 0x73; 0x63; 0x61; 0x6c; 0x61; 0x72; 0x20; 0x66; 0x6f; 0x72; 0x20; 0x74;
   0x68; 0x69; 0x73; 0x20; 0x78; 0x20; 0x69; 0x73; 0x20; 0x75; 0x6e; 0x6b; 0x6e; 0x6f; 0x77; 0x6e].

(** The point with no known scalar. *)
Definition gen_nums_gej : secp256k1_gej :=
  let '(nums_x, _) := fe_set_b32 nums_b32 in
  let '(nums_ge, _) := secp256k1_ge_set_xo_var nums_x false in
  let nums_gej := secp256k1_gej_set_ge nums_ge in
  fst (secp256k1_gej_add_ge_var nums_gej nums_gej secp256k1_ge_const_g).

(** Row [j] of [precj], and the bases of the next row. *)
Definition gen_row (nums_gej : secp256k1_gej) (j : Z)
    (st : list secp256k1_gej * secp256k1_gej * secp256k1_gej)
    : list secp256k1_gej * secp256k1_gej * secp256k1_gej :=
  let '(precj, gbase, numsbase) := st in
  let precj := upd precj (Z.to_nat (j * 16)) numsbase in
  let precj := for_loop 15 (fun k precj =>
    let i := k + 1 in
    let e := Z.to_nat (j * 16 + i) in
    upd precj e (fst (secp256k1_gej_add_var (nth e precj junk) (nth (e - 1) precj junk) gbase)))
    precj in
  let gbase := for_loop 4 (fun _ g => fst (secp256k1_gej_double_var g g)) gbase in
  let numsbase := fst (secp256k1_gej_double_var numsbase numsbase) in
  let numsbase :=
    if j =? 62 then
      let numsbase := secp256k1_gej_neg numsbase in
      fst (secp256k1_gej_add_var numsbase numsbase nums_gej)
    else numsbase in
  (precj, gbase, numsbase).

(** The array [prec] of the function. *)
Definition gen_points : list secp256k1_ge :=
  let gj := secp256k1_gej_set_ge secp256k1_ge_const_g in
  let nums_gej := gen_nums_gej in
  let '(precj, _, _) :=
    for_loop 64 (gen_row nums_gej) (repeat junk 1024, gj, nums_gej) in
  let count := length (filter (fun a => negb (jinf a)) precj) in
  secp256k1_ge_set_all_gej_var (repeat (jx junk) count) (repeat (junk_ge junk) 1024) precj.

Definition secp256k1_ecmult_gen_context_build (fuel : nat) (ctx : secp256k1_ecmult_gen_context)
    : option secp256k1_ecmult_gen_context :=
  match prec ctx with
  | Some _ => Some ctx
  | None =>
    let prec := gen_points in
    let table := map (fun j => map (fun i =>
      secp256k1_ge_to_storage (nth (j * 16 + i) prec (junk_ge junk))) (seq 0 16)) (seq 0 64) in
    secp256k1_ecmult_gen_blind fuel (EcmultGenContext (Some table) (blind ctx) (initial ctx)) None
  end.

(** * Theorems

    ** The selection and the sum *)

(** The packed form of normalised coordinates. *)
Definition packed (st : secp256k1_ge_storage) : Prop :=
  exists x y, fnorm x /\ fnorm y /\ st = GeStorage (fe_to_storage x) (fe_to_storage y).

Lemma packed_zero : packed storage_zero.
Proof.
  destruct (fe_set_int_ok 0 ltac:(lia)) as [N _]. exists (fe_set_int 0), (fe_set_int 0).
  exact (conj N (conj N eq_refl)).
Qed.

Lemma packed_to_storage a : ge_mags a -> packed (secp256k1_ge_to_storage a).
Proof.
  intros [Mx My]. exists (fe_normalize (gx a)), (fe_normalize (gy a)).
  split; [|split; [|reflexivity]]; apply fe_normalize_ok;
    [apply (fmag_le _ 8 31 Mx); lia|apply (fmag_le _ 8 31 My); lia].
Qed.

Lemma packed_cmov a b flag : packed a -> packed b ->
  secp256k1_ge_storage_cmov a b flag = if flag then b else a.
Proof.
  intros (x & y & Nx & Ny & ->) (x' & y' & Nx' & Ny' & ->).
  unfold secp256k1_ge_storage_cmov. cbn [sx sy]. rewrite !fe_storage_cmov_ok by assumption.
  now destruct flag.
Qed.

Lemma gen_select_ok row bits adds : 0 <= bits < 16 -> packed adds ->
  (forall i, (i < 16)%nat -> packed (nth i row storage_zero)) ->
  gen_select row bits adds = nth (Z.to_nat bits) row storage_zero.
Proof.
  intros Hb Ha Hr. unfold gen_select.
  pose proof (for_loop_inv (fun i s => packed s /\
    (bits < i -> s = nth (Z.to_nat bits) row storage_zero))
    (fun i adds => secp256k1_ge_storage_cmov adds (nth (Z.to_nat i) row storage_zero) (i =? bits))
    16 adds) as K.
  cbv beta in K. refine (proj2 (K _ _) _); [split; [exact Ha|lia]| |lia]. clear K. intros i s Hi [Hs E].
  pose proof (Hr (Z.to_nat i) ltac:(lia)) as Hp. rewrite packed_cmov by assumption.
  destruct (Z.eqb_spec i bits) as [->|]; [now split|]. split; [exact Hs|]. intros. apply E. lia.
Qed.

(** The context invariant: the table, and an initial point that cancels the
    blinding scalar. *)
Record gen_ctx_ok (ctx : secp256k1_ecmult_gen_context) : Prop := {
  gc_built : secp256k1_ecmult_gen_context_is_built ctx = true;
  gc_packed : forall j i, (j < 64)%nat -> (i < 16)%nat ->
    packed (nth i (nth j (deref (prec ctx)) []) storage_zero);
  gc_table : forall j i, (j < 64)%nat -> (i < 16)%nat ->
    ge_rep (secp256k1_ge_from_storage (nth i (nth j (deref (prec ctx)) []) storage_zero))
      (gen_entry j i);
  gc_blind : sok (blind ctx);
  gc_initial : gej_rep (initial ctx) (smul (- sval (blind ctx)) G_point)
}.

Lemma padd_pairs A B C D : on_curve A -> on_curve B -> on_curve C -> on_curve D ->
  padd (padd A B) (padd C D) = padd (padd A C) (padd B D).
Proof.
  intros. rewrite (padd_assoc A B), (padd_assoc A C) by oc. f_equal.
  rewrite <- (padd_assoc B C), <- (padd_assoc C B), (padd_comm B C) by oc. reflexivity.
Qed.

(** Digit [j] of [v] in base 16. *)
Lemma digit16 v j : 0 <= j -> v mod 16 ^ (j + 1) = v mod 16 ^ j + (v / 2 ^ (j * 4)) mod 2 ^ 4 * 16 ^ j.
Proof.
  intros Hj. replace (2 ^ (j * 4)) with (16 ^ j) by (rewrite Z.mul_comm, Z.pow_mul_r by lia; reflexivity).
  change (2 ^ 4) with 16. rewrite Z.pow_add_r, Z.pow_1_r by lia.
  rewrite Z.rem_mul_r by (try apply Z.pow_nonzero; lia). ring.
Qed.

Lemma sum_step a m s d e c : on_curve a ->
  padd (padd (smul s a) (smul m G_point)) (padd (smul d a) (smul (e * c) G_point))
  = padd (smul (s + d) a) (smul (m + e * c) G_point).
Proof. intros H. rewrite padd_pairs, <- !smul_add by oc. reflexivity. Qed.

Lemma gen_step_ok ctx gnb j r adds : gen_ctx_ok ctx -> sok gnb -> 0 <= j < 64 -> packed adds ->
  gej_rep r (padd (smul (offset_sum (Z.to_nat j)) U_point)
    (smul (- sval (blind ctx) + sval gnb mod 16 ^ j) G_point)) ->
  let bits := s_get_bits gnb (j * 4) 4 in
  let adds := gen_select (nth (Z.to_nat j) (deref (prec ctx)) []) bits adds in
  packed adds /\
  gej_rep (secp256k1_gej_add_ge r (secp256k1_ge_from_storage adds))
    (padd (smul (offset_sum (Z.to_nat (j + 1))) U_point)
      (smul (- sval (blind ctx) + sval gnb mod 16 ^ (j + 1)) G_point)).
Proof.
  intros HC Hg Hj Ha Hr bits. subst bits.
  assert (HB : s_get_bits gnb (j * 4) 4 = (sval gnb / 2 ^ (j * 4)) mod 2 ^ 4).
  { apply s_get_bits_ok; try lia; [exact Hg|].
    pose proof (Z.div_mod (j * 4) 32 ltac:(lia)). pose proof (Z.mod_pos_bound (j * 4) 32 ltac:(lia)).
    symmetry. apply (Z.div_unique _ _ _ (j * 4 + 4 - 1 - 32 * (j * 4 / 32))); lia. }
  assert (R : 0 <= s_get_bits gnb (j * 4) 4 < 16) by (rewrite HB; now apply Z.mod_pos_bound).
  rewrite digit16, <- HB by lia. revert R. generalize (s_get_bits gnb (j * 4) 4). intros bits R.
  rewrite gen_select_ok; [|exact R|exact Ha|intros i Hi; apply (gc_packed _ HC); lia].
  split; [apply (gc_packed _ HC); lia|].
  pose proof (gc_table _ HC (Z.to_nat j) (Z.to_nat bits) ltac:(lia) ltac:(lia)) as T.
  pose proof (gen_entry_finite (Z.to_nat j) (Z.to_nat bits) ltac:(lia) ltac:(lia)) as Fin.
  pose proof (add_ge_rep _ _ _ _ Hr T Fin) as K. unfold gen_entry in K.
  rewrite sum_step in K by oc. rewrite !Z2Nat.id in K by lia.
  replace (Z.to_nat (j + 1)) with (S (Z.to_nat j)) by lia. cbn [offset_sum].
  rewrite Z.add_assoc. exact K.
Qed.

(** R = a G, whatever the blinding. *)
Lemma ecmult_gen_spec ctx gn : gen_ctx_ok ctx -> sok gn ->
  gej_rep (secp256k1_ecmult_gen ctx gn) (smul (sval gn) G_point).
Proof.
  intros HC Hg. unfold secp256k1_ecmult_gen.
  pose proof (s_add_ok gn (blind ctx) Hg (gc_blind _ HC)) as A.
  destruct (s_add gn (blind ctx)) as [gnb ov]. destruct A as (Ok & V & _). cbv zeta.
  set (body := fun j _ => _).
  pose proof (for_loop_inv (fun j '(r, adds) => packed adds /\
    gej_rep r (padd (smul (offset_sum (Z.to_nat j)) U_point)
      (smul (- sval (blind ctx) + sval gnb mod 16 ^ j) G_point)))
    body 64 (initial ctx, storage_zero)) as K.
  destruct (for_loop 64 body (initial ctx, storage_zero)) as [r adds].
  destruct K as [_ K].
  - split; [exact packed_zero|]. change (offset_sum (Z.to_nat 0)) with 0.
    rewrite Z.pow_0_r, Z.mod_1_r, Z.add_0_r, smul_0. exact (gc_initial _ HC).
  - intros j [r' a'] Hj [Ha Hr]. exact (gen_step_ok ctx gnb j r' a' HC Ok Hj Ha Hr).
  - rewrite Nat2Z.id, offsets_cancel, smul_0 in K.
    rewrite (smul_cong _ (sval gn)) in K; [exact K|].
    rewrite Z.mod_small, V, (cong_mod n_order); [apply cong_eq; ring|].
    pose proof (sok_range _ Ok) as Rg. unfold n_order in Rg. change (16 ^ Z.of_nat 64) with (2 ^ 256). lia.
Qed.

(** ** Drawing random values *)

(** The first request from number [i] on, of [fuel] many, whose output passes. *)
Fixpoint first_ok (f : bytes -> bool) (seed : bytes) (i fuel : nat) : option nat :=
  match fuel with
  | O => None
  | S fuel => if f (drbg_block seed i) then Some i else first_ok f seed (S i) fuel
  end.

(** A value between 1 and [m] - 1. *)
Definition block_below (m : Z) (b : bytes) : bool := (0 <? be_val b) && (be_val b <? m).

Context (Hi : buf_ok (inner hmac0)) (Ho : buf_ok (outer hmac0)) (Hs : buf_ok scratch).

Lemma draw_fe_spec fuel rng seed i : rng_at rng seed i ->
  match first_ok (block_below p) seed i fuel with
  | None => draw_fe fuel rng = None
  | Some k => exists s rng', draw_fe fuel rng = Some (s, rng') /\ rng_at rng' seed (S k) /\
      fnorm s /\ fval s = be_val (drbg_block seed k) /\ fval s mod p <> 0
  end.
Proof.
  revert rng i. induction fuel as [|fuel IH]; intros rng i H; [reflexivity|].
  cbn [first_ok draw_fe].
  destruct (rng_at_generate hmac0 scratch Hi Ho Hs rng seed i H) as (rng' & -> & H' & [HL HB]).
  destruct (fe_set_b32_ok _ HB HL) as (E1 & E2 & _ & E4). unfold block_below.
  destruct (fe_set_b32 (drbg_block seed i)) as [s ok]. cbn [fst snd] in *. subst ok.
  pose proof (proj1 (be_val_range _ HB)) as Nn.
  destruct (Z.ltb_spec (be_val (drbg_block seed i)) p) as [L|L]; cbn [negb orb].
  - rewrite (fe_is_zero_ok s (E4 L)), E2. destruct (Z.ltb_spec 0 (be_val (drbg_block seed i))).
    + cbn [andb]. replace (_ =? 0) with false by (symmetry; apply Z.eqb_neq; lia).
      exists s, rng'. split; [reflexivity|]. split; [exact H'|]. split; [exact (E4 L)|].
      split; [exact E2|]. rewrite E2, Z.mod_small by lia. lia.
    + cbn [andb]. replace (_ =? 0) with true by (symmetry; apply Z.eqb_eq; lia). now apply IH.
  - rewrite andb_false_r. now apply IH.
Qed.

Lemma draw_scalar_spec fuel rng seed i : rng_at rng seed i ->
  match first_ok (block_below n_order) seed i fuel with
  | None => draw_scalar fuel rng = None
  | Some k => exists b rng', draw_scalar fuel rng = Some (b, rng') /\ rng_at rng' seed (S k) /\
      sok b /\ sval b = be_val (drbg_block seed k) /\ 0 < sval b
  end.
Proof.
  revert rng i. induction fuel as [|fuel IH]; intros rng i H; [reflexivity|].
  cbn [first_ok draw_scalar].
  destruct (rng_at_generate hmac0 scratch Hi Ho Hs rng seed i H) as (rng' & -> & H' & [HL HB]).
  pose proof (s_set_b32_ok _ HB HL) as E. unfold block_below.
  destruct (s_set_b32 (drbg_block seed i)) as [b ov]. destruct E as (Ok & E & ->).
  pose proof (proj1 (be_val_range _ HB)) as Nn. rewrite s_is_zero_ok by exact Ok.
  destruct (Z.leb_spec n_order (be_val (drbg_block seed i))) as [L|L]; cbn [orb].
  - replace (_ <? n_order) with false by (symmetry; apply Z.ltb_ge; lia).
    rewrite andb_false_r. now apply IH.
  - replace (_ <? n_order) with true by (symmetry; apply Z.ltb_lt; lia).
    rewrite Z.mod_small in E by lia. rewrite E.
    destruct (Z.ltb_spec 0 (be_val (drbg_block seed i))); cbn [andb].
    + replace (_ =? 0) with false by (symmetry; apply Z.eqb_neq; lia).
      exists b, rng'. split; [reflexivity|]. split; [exact H'|]. split; [exact Ok|].
      split; [exact E|]. lia.
    + replace (_ =? 0) with true by (symmetry; apply Z.eqb_eq; lia). now apply IH.
Qed.

(** ** Blinding *)

(** The table part of the invariant. *)
Definition gen_table_ok (ctx : secp256k1_ecmult_gen_context) : Prop :=
  exists b i, gen_ctx_ok (EcmultGenContext (prec ctx) b i).

Lemma gen_ctx_with ctx b i : gen_ctx_ok ctx -> sok b -> gej_rep i (smul (- sval b) G_point) ->
  gen_ctx_ok (EcmultGenContext (prec ctx) b i).
Proof. intros [H1 H2 H3 _ _] Hb Hi'. now constructor. Qed.

Lemma gen_reset_ok : gej_rep (secp256k1_gej_neg (secp256k1_gej_set_ge secp256k1_ge_const_g))
  (smul (- sval (s_set_int 1)) G_point).
Proof.
  destruct (s_set_int_ok 1 ltac:(lia)) as [_ ->].
  rewrite smul_opp, smul_1 by oc. apply gej_neg_rep, set_ge_rep, const_g_rep.
Qed.

(** The bytes that seed the generator. *)
Definition blind_key (ctx : secp256k1_ecmult_gen_context) (seed32 : option bytes) : bytes :=
  match seed32 with
  | None => be_bytes 32 1
  | Some seed => be_bytes 32 (sval (blind ctx)) ++ firstn 32 seed
  end.

(** What the reset of a null seed, or the context itself, leaves. *)
Definition blind_base (ctx : secp256k1_ecmult_gen_context) (seed32 : option bytes) :=
  match seed32 with
  | None => EcmultGenContext (prec ctx) (s_set_int 1)
      (secp256k1_gej_neg (secp256k1_gej_set_ge secp256k1_ge_const_g))
  | Some _ => ctx
  end.

Lemma gen_blind_spec fuel ctx seed32 :
  gen_ctx_ok (blind_base ctx seed32) ->
  match seed32 with Some seed => Forall is_byte seed | None => True end ->
  let key := blind_key ctx seed32 in
  match first_ok (block_below p) key 0 fuel with
  | None => secp256k1_ecmult_gen_blind fuel ctx seed32 = None
  | Some k =>
    match first_ok (block_below n_order) key (S k) fuel with
    | None => secp256k1_ecmult_gen_blind fuel ctx seed32 = None
    | Some m => exists ctx', secp256k1_ecmult_gen_blind fuel ctx seed32 = Some ctx' /\
        gen_ctx_ok ctx' /\ prec ctx' = prec ctx /\
        sval (blind ctx') = (- be_val (drbg_block key m)) mod n_order
    end
  end.
Proof.
  intros HC Hseed. cbv zeta. unfold secp256k1_ecmult_gen_blind.
  fold (blind_base ctx seed32). set (c0 := blind_base ctx seed32) in *.
  assert (EK : s_get_b32 (blind c0) ++ match seed32 with Some s => firstn 32 s | None => [] end
    = blind_key ctx seed32).
  { rewrite s_get_b32_ok by apply HC. unfold c0, blind_base, blind_key. destruct seed32; [reflexivity|].
    cbn [blind]. destruct (s_set_int_ok 1 ltac:(lia)) as [_ ->]. apply app_nil_r. }
  assert (HK : Forall is_byte (blind_key ctx seed32) /\
    Z.of_nat (length (blind_key ctx seed32)) < 2 ^ 59).
  { unfold blind_key. destruct seed32 as [seed|].
    - rewrite length_app, length_be_bytes, length_firstn. split; [|lia].
      apply Forall_app. split; [apply be_bytes_byte|now apply Forall_firstn].
    - rewrite length_be_bytes. split; [apply be_bytes_byte|lia]. }
  assert (EP : prec c0 = prec ctx) by (unfold c0, blind_base; now destruct seed32).
  cbv zeta. rewrite EK. clearbody c0. set (key := blind_key ctx seed32) in *. clearbody key.
  destruct HK as [HB HL].
  pose proof (rng_at_init hmac0 scratch Hi Ho Hs key HB HL) as R0.
  pose proof (draw_fe_spec fuel _ _ _ R0) as D. destruct (first_ok _ key 0 fuel) as [k|];
    [|now rewrite D].
  destruct D as (s & rng & -> & R1 & Ns & _ & Nz). 
  pose proof (draw_scalar_spec fuel _ _ _ R1) as D. destruct (first_ok _ key (S k) fuel) as [m|];
    [|now rewrite D].
  destruct D as (b & rng' & -> & _ & Ok & Vb & _). cbn [prec blind initial].
  pose proof (s_negate_ok b Ok) as [On Vn].
  eexists. split; [reflexivity|]. cbn [prec blind]. split; [|split; [exact EP|now rewrite Vn, Vb]].
  apply gen_ctx_with; [exact HC|exact On|].
  rewrite (smul_cong _ (sval b)).
  - apply ecmult_gen_spec; [|exact Ok]. apply gen_ctx_with; [exact HC|apply HC|].
    apply rescale_rep; [apply HC| |exact Nz]. apply (fmag_le _ 1 8); [now apply fnorm_mag|lia].
  - rewrite Vn, (cong_mod n_order). apply cong_eq. ring.
Qed.

(** ** The table *)

Lemma nth_map_seq {A} (f : nat -> A) n k d : (k < n)%nat -> nth k (map f (seq 0 n)) d = f k.
Proof.
  intros Hk. rewrite (nth_indep _ d (f 0%nat)) by (rewrite length_map, length_seq; exact Hk).
  rewrite map_nth, seq_nth by exact Hk. reflexivity.
Qed.

Context (Hjunk : gej_mags junk).

Lemma nums_b32_val : be_val nums_b32 = nums_x.
Proof. vm_compute. reflexivity. Qed.

Lemma gen_nums_ok : gej_rep gen_nums_gej U_point.
Proof.
  unfold gen_nums_gej. rewrite U_point_eq.
  assert (HB : Forall is_byte nums_b32)
    by (unfold nums_b32; repeat (constructor; [unfold is_byte; lia|]); constructor).
  destruct (fe_set_b32_ok nums_b32 HB eq_refl) as (_ & V & M & _).
  destruct (fe_set_b32 nums_b32) as [x ok]. cbn [fst] in V, M. rewrite nums_b32_val in V.
  destruct (set_xo_spec x false (fmag_le _ 1 8 M ltac:(lia))) as [H1 H2].
  destruct (secp256k1_ge_set_xo_var x false) as [g okx]. cbn [fst snd] in H1, H2.
  rewrite V in H1, H2. change (nums_x mod p) with nums_x in H1, H2.
  destruct H2 as (y & Hy & Odd); [apply H1; exists nums_y; exact nums_on_curve|].
  assert (E : y = nums_y).
  { destruct (same_x nums_x nums_y y nums_on_curve (proj1 (proj2 Hy))) as [E|E]; [now symmetry|].
    exfalso. destruct Hy as (_ & (_ & Fy & _) & _). unfold in_fp in Fy.
    assert (Ey : y = p - nums_y).
    { apply Z.mod_divide in E; [|discriminate]. destruct E as [q E]. unfold nums_y, p in *. lia. }
    rewrite Ey in Odd. discriminate Odd. }
  rewrite E in Hy. pose proof (set_ge_rep _ _ Hy) as K. fold nums_base in K.
  exact (proj1 (add_ge_var_rep _ _ _ _ _ (proj1 K) K const_g_rep)).
Qed.

(** Entry number [e] of the flat table. *)
Definition point_at (e : nat) : point := gen_entry (e / 16) (e mod 16).

Lemma point_at_row j i : (i < 16)%nat -> point_at (j * 16 + i) = gen_entry j i.
Proof.
  intros Hi'. unfold point_at. rewrite Nat.div_add_l, Nat.div_small, Nat.add_0_r by lia.
  rewrite Nat.add_comm, Nat.Div0.mod_add, Nat.mod_small by lia. reflexivity.
Qed.

(** The first [m] entries are done. *)
Record upto (m : nat) (precj : list secp256k1_gej) : Prop := {
  up_len : length precj = 1024%nat;
  up_mags : Forall gej_mags precj;
  up_rep : forall e, (e < m)%nat -> gej_rep (nth e precj junk) (point_at e)
}.

Lemma upto_upd m l q : upto m l -> (m < 1024)%nat -> gej_rep q (point_at m) ->
  upto (S m) (upd l m q).
Proof.
  intros [L M R] Hm Hq. constructor.
  - now rewrite length_upd.
  - apply Forall_upd; [exact M|apply Hq].
  - intros e He. rewrite nth_upd by lia. destruct (Nat.eqb_spec m e) as [<-|]; [exact Hq|].
    apply R. lia.
Qed.

Lemma gen_entry_S j i : gen_entry j (S i) = padd (gen_entry j i) (smul (16 ^ Z.of_nat j) G_point).
Proof.
  unfold gen_entry.
  replace (Z.of_nat (S i) * 16 ^ Z.of_nat j) with (Z.of_nat i * 16 ^ Z.of_nat j + 16 ^ Z.of_nat j) by lia.
  rewrite smul_add by oc. symmetry. apply padd_assoc; oc.
Qed.

Lemma row_loop_ok j precj gbase : (j < 64)%nat -> upto (j * 16 + 1) precj ->
  gej_rep gbase (smul (16 ^ Z.of_nat j) G_point) ->
  upto (j * 16 + 16) (for_loop 15 (fun k precj =>
    let i := k + 1 in
    let e := Z.to_nat (Z.of_nat j * 16 + i) in
    upd precj e (fst (secp256k1_gej_add_var (nth e precj junk) (nth (e - 1) precj junk) gbase)))
    precj).
Proof.
  intros Hj H0 Hg.
  replace (j * 16 + 16)%nat with (j * 16 + 1 + Z.to_nat (Z.of_nat 15))%nat by lia.
  apply (for_loop_inv (fun k l => upto (j * 16 + 1 + Z.to_nat k) l)).
  - replace (j * 16 + 1 + Z.to_nat 0)%nat with (j * 16 + 1)%nat by lia. exact H0.
  - intros k l Hk H. cbv zeta.
    replace (Z.to_nat (Z.of_nat j * 16 + (k + 1))) with (j * 16 + 1 + Z.to_nat k)%nat by lia.
    replace (j * 16 + 1 + Z.to_nat (k + 1))%nat with (S (j * 16 + 1 + Z.to_nat k)) by lia.
    apply upto_upd; [exact H|lia|].
    replace (j * 16 + 1 + Z.to_nat k)%nat with (j * 16 + S (Z.to_nat k))%nat in * by lia.
    rewrite point_at_row, gen_entry_S by lia.
    assert (M : gej_mags (nth (j * 16 + S (Z.to_nat k)) l junk)).
    { pose proof (up_mags _ _ H) as M. rewrite Forall_forall in M. apply M, nth_In.
      rewrite (up_len _ _ H). lia. }
    pose proof (up_rep _ _ H (j * 16 + Z.to_nat k) ltac:(lia)) as R.
    rewrite point_at_row in R by lia.
    replace (j * 16 + S (Z.to_nat k) - 1)%nat with (j * 16 + Z.to_nat k)%nat by lia.
    exact (proj1 (add_var_rep _ _ _ _ _ M R Hg)).
Qed.

Lemma double_var_ok g c P : on_curve P -> gej_rep g (smul c P) ->
  gej_rep (fst (secp256k1_gej_double_var g g)) (smul (2 * c) P).
Proof.
  intros HP H. rewrite smul_double by oc. exact (proj1 (double_rep g g _ (proj1 H) H)).
Qed.

Lemma gen_row_ok j precj gbase numsbase : (j < 64)%nat -> upto (j * 16) precj ->
  gej_rep gbase (smul (16 ^ Z.of_nat j) G_point) ->
  gej_rep numsbase (smul (row_offset j) U_point) ->
  let '(precj, gbase, numsbase) := gen_row gen_nums_gej (Z.of_nat j) (precj, gbase, numsbase) in
  upto (S j * 16) precj /\ gej_rep gbase (smul (16 ^ Z.of_nat (S j)) G_point) /\
  ((j < 63)%nat -> gej_rep numsbase (smul (row_offset (S j)) U_point)).
Proof.
  intros Hj Hp Hg Hn. unfold gen_row. cbv beta iota zeta. split; [|split].
  - replace (S j * 16)%nat with (j * 16 + 16)%nat by lia. apply row_loop_ok; [exact Hj| |exact Hg].
    replace (Z.to_nat (Z.of_nat j * 16)) with (j * 16)%nat by lia.
    replace (j * 16 + 1)%nat with (S (j * 16)) by lia. apply upto_upd; [exact Hp|lia|].
    replace (j * 16)%nat with (j * 16 + 0)%nat by lia. rewrite point_at_row by lia.
    unfold gen_entry. change (Z.of_nat 0 * _) with 0. rewrite smul_0, padd_Inf_r. exact Hn.
  - replace (16 ^ Z.of_nat (S j)) with (2 ^ Z.of_nat 4 * 16 ^ Z.of_nat j)
      by (rewrite (Nat2Z.inj_succ j), Z.pow_succ_r by lia; reflexivity).
    apply (for_loop_inv (fun i g => gej_rep g (smul (2 ^ i * 16 ^ Z.of_nat j) G_point))).
    + now rewrite Z.pow_0_r, Z.mul_1_l.
    + intros k g Hk H. apply double_var_ok in H; [|oc].
      rewrite Z.pow_add_r, (Z.mul_comm (2 ^ k)), <- Z.mul_assoc by lia. exact H.
  - intros Hj'. apply double_var_ok in Hn; [|oc]. rewrite row_offset_S by exact Hj'.
    replace (Z.of_nat j =? 62) with (Nat.eqb j 62)
      by (destruct (Nat.eqb_spec j 62), (Z.eqb_spec (Z.of_nat j) 62); lia).
    destruct (Nat.eqb j 62); [|exact Hn]. apply gej_neg_rep in Hn.
    rewrite smul_add, smul_1, smul_opp by oc.
    exact (proj1 (add_var_rep _ _ _ _ _ (proj1 Hn) Hn gen_nums_ok)).
Qed.

Lemma junk_table : upto 0 (repeat junk 1024).
Proof.
  constructor; [apply repeat_length|now apply repeat_mags|intros; lia].
Qed.

Lemma gen_points_ok e d : (e < 1024)%nat -> ge_rep (nth e gen_points d) (point_at e).
Proof.
  intros He. unfold gen_points. cbv zeta.
  pose proof (for_loop_inv (fun j '(precj, gbase, numsbase) =>
    upto (Z.to_nat j * 16) precj /\ gej_rep gbase (smul (16 ^ Z.of_nat (Z.to_nat j)) G_point) /\
    ((Z.to_nat j < 64)%nat -> gej_rep numsbase (smul (row_offset (Z.to_nat j)) U_point)))
    (gen_row gen_nums_gej) 64
    (repeat junk 1024, secp256k1_gej_set_ge secp256k1_ge_const_g, gen_nums_gej)) as K.
  destruct (for_loop 64 _ _) as [[precj gb] nb]. destruct K as (H & _ & _).
  - split; [exact junk_table|]. split; [exact gej_G|]. intros _.
    change (row_offset (Z.to_nat 0)) with 1. rewrite smul_1. exact gen_nums_ok.
  - intros j [[l g] n] Hj (H1 & H2 & H3).
    pose proof (gen_row_ok (Z.to_nat j) l g n ltac:(lia) H1 H2 (H3 ltac:(lia))) as R.
    rewrite Z2Nat.id in R by lia. destruct (gen_row gen_nums_gej j (l, g, n)) as [[l' g'] n'].
    replace (Z.to_nat (j + 1)) with (S (Z.to_nat j)) by lia. destruct R as (R1 & R2 & R3).
    split; [exact R1|]. split; [exact R2|]. intros; apply R3; lia.
  - change (Z.to_nat (Z.of_nat 64) * 16)%nat with 1024%nat in H. destruct H as [L M R].
    pose proof (set_all_rep (repeat (jx junk) (length (filter (fun a => negb (jinf a)) precj)))
      (repeat (junk_ge junk) 1024) precj (map point_at (seq 0 1024))) as SA.
    assert (HF : Forall2 gej_rep precj (map point_at (seq 0 1024))).
    { apply (Forall2_nth_intro _ _ _ junk Inf); [rewrite length_map, length_seq; exact L|].
      intros k Hk. rewrite L in Hk. rewrite nth_map_seq by exact Hk. now apply R. }
    specialize (SA HF). rewrite !repeat_length in SA.
    assert (HJ : Forall ge_mags (repeat (junk_ge junk) 1024)).
    { apply Forall_forall. intros x Hx. apply repeat_spec in Hx. subst x.
      exact (conj (proj1 Hjunk) (proj1 (proj2 Hjunk))). }
    specialize (SA (eq_sym L) HJ eq_refl).
    pose proof (Forall2_length SA) as Ls. rewrite length_map, length_seq in Ls.
    rewrite <- (nth_map_seq point_at 1024 e Inf) by exact He.
    apply Forall2_nth_elim; [exact SA|rewrite Ls; exact He].
Qed.

(** ** Building the context *)

(** With the null seed, the first two outputs of the generator pass. *)
Lemma null_seed_blocks : block_below p (drbg_block (be_bytes 32 1) 0) = true /\
  block_below n_order (drbg_block (be_bytes 32 1) 1) = true.
Proof.
  assert (E : block_below p (drbg_block (be_bytes 32 1) 0) &&
    block_below n_order (drbg_block (be_bytes 32 1) 1) = true) by (vm_compute; reflexivity).
  now apply andb_true_iff.
Qed.

#[local] Opaque drbg_block.

Lemma gen_table_lookup j i : (j < 64)%nat -> (i < 16)%nat ->
  nth i (nth j (map (fun j => map (fun i =>
      secp256k1_ge_to_storage (nth (j * 16 + i) gen_points (junk_ge junk))) (seq 0 16)) (seq 0 64)) [])
    storage_zero
  = secp256k1_ge_to_storage (nth (j * 16 + i) gen_points (junk_ge junk)).
Proof. intros Hj Hi'. rewrite nth_map_seq by exact Hj. now rewrite nth_map_seq by exact Hi'. Qed.

Lemma gen_build_spec fuel ctx : prec ctx = None -> (1 <= fuel)%nat ->
  exists ctx', secp256k1_ecmult_gen_context_build fuel ctx = Some ctx' /\ gen_ctx_ok ctx' /\
    sval (blind ctx') = (- be_val (drbg_block (be_bytes 32 1) 1)) mod n_order.
Proof.
  intros Hp Hf. unfold secp256k1_ecmult_gen_context_build. rewrite Hp. cbv zeta.
  set (table := map _ (seq 0 64)). set (c := EcmultGenContext (Some table) _ _).
  assert (HC : gen_ctx_ok (blind_base c None)).
  { constructor; cbn [prec blind initial blind_base c deref].
    - reflexivity.
    - intros j i Hj Hi'. unfold table. rewrite gen_table_lookup by assumption.
      apply packed_to_storage, (gen_points_ok (j * 16 + i) (junk_ge junk) ltac:(lia)).
    - intros j i Hj Hi'. unfold table. rewrite gen_table_lookup by assumption.
      apply storage_roundtrip; [|now apply gen_entry_finite].
      rewrite <- point_at_row by exact Hi'. apply gen_points_ok. lia.
    - apply s_set_int_ok. lia.
    - exact gen_reset_ok. }
  pose proof (gen_blind_spec fuel c None HC I) as K. cbv zeta in K.
  change (blind_key c None) with (be_bytes 32 1) in K. destruct null_seed_blocks as [B0 B1].
  destruct fuel as [|fuel]; [lia|]. cbn [first_ok] in K. rewrite B0, B1 in K.
  destruct K as (ctx' & E & Ok & _ & V). exists ctx'. exact (conj E (conj Ok V)).
Qed.
End EcmultGen.
