(* ===== verification/EcmultConst.v ===== *)
(** * Constant-time multiplication of an arbitrary point (ecmult_const_impl.h)

    The recoding has no zero digits and reads its tables with conditional moves;
    a skew of 1 or 2 is added to make the number odd and subtracted at the end.
    Uninitialised memory (the digit arrays, the point the table look-up writes
    to) is a parameter. *)
From S2P Require Import Prelude FieldSpec Field ScalarSpec Scalar.
From S2P Require Import CurveSpec CurveGroup CurveOrder CurveCount Wnaf Group Ecmult EcmultGen.

Section EcmultConst.
Context {F : FieldImpl} {SI : ScalarImpl} (junk : secp256k1_gej) (junk_ints : list Z).

Definition WNAF_SIZE (bits w : Z) : Z := (bits + w - 1) ÷ w.

(** The [do ... while] loop: the scalar, the digits, u_last and word it ends with. *)
Fixpoint wnaf_const_loop (fuel : nat) (s : scalar) (w size global_sign u_last : Z)
    (wnaf : list Z) (word : Z) : scalar * list Z * Z * Z :=
  match fuel with
  | O => (s, wnaf, u_last, word)
  | S fuel =>
    let '(s, u) := s_shr_int s w in
    let even := b2z ((u .& 1) =? 0) in
    let sign := 2 * b2z (0 <? u_last) - 1 in
    let u := u + sign * even in
    let u_last := u_last - sign * even * (1 << w) in
    let wnaf := upd wnaf (Z.to_nat word) (u_last * global_sign) in
    let word := word + 1 in
    let u_last := u in
    if word * w <? size then wnaf_const_loop fuel s w size global_sign u_last wnaf word
    else (s, wnaf, u_last, word)
  end.

(** The scalar made odd and short, the sign and the skew. *)
Definition skewed (s : scalar) (maybe_negative : bool) : scalar * Z * Z :=
  if maybe_negative then
    let flip := s_is_high s in
    let bit := b2z (xorb flip (negb (s_is_even s))) in
    let neg_s := s_negate s in
    let not_neg_one := negb (s_is_one neg_s) in
    let s := s_cadd_bit s bit not_neg_one in
    let '(s, global_sign) := s_cond_negate s flip in
    let global_sign := global_sign * (b2z not_neg_one * 2 - 1) in
    (s, global_sign, 1 << bit)
  else
    let bit := b2z (negb (s_is_even s)) in
    let s := s_cadd_bit s bit true in
    (s, 1, 1 << bit).

(** The digits and the skew. *)
Definition secp256k1_wnaf_const (wnaf : list Z) (s : scalar) (w size : Z) (maybe_negative : bool)
    : list Z * Z :=
  let '(s, global_sign, skew) := skewed s maybe_negative in
  let '(s, u_last) := s_shr_int s w in
  let '(s, wnaf, u, word) := wnaf_const_loop (Z.to_nat size + 1) s w size global_sign u_last wnaf 0 in
  (upd wnaf (Z.to_nat word) (u * global_sign), skew).

(** Every entry is read; the one of index n / 2 is kept. *)
Definition ECMULT_CONST_TABLE_GET_GE (r : secp256k1_ge) (pre : list secp256k1_ge) (n w : Z)
    : secp256k1_ge :=
  let abs_n := n * (b2z (0 <? n) * 2 - 1) in
  let idx_n := abs_n ÷ 2 in
  let r := for_loop (Z.to_nat (ECMULT_TABLE_SIZE w)) (fun m r =>
    Ge (fe_cmov (gx r) (gx (nth (Z.to_nat m) pre (junk_ge junk))) (m =? idx_n))
       (fe_cmov (gy r) (gy (nth (Z.to_nat m) pre (junk_ge junk))) (m =? idx_n)) (ginf r)) r in
  let r := Ge (gx r) (gy r) false in
  let neg_y := fe_negate (gy r) 1 in
  Ge (gx r) (fe_cmov (gy r) neg_y (negb (n =? abs_n))) (ginf r).

(** One iteration of the main loop: r and tmpa. *)
Definition const_step (pre_a pre_a_lam : list secp256k1_ge) (wnaf_1 wnaf_lam : list Z) (big : bool)
    (i : nat) (st : secp256k1_gej * secp256k1_ge) : secp256k1_gej * secp256k1_ge :=
  let '(r, tmpa) := st in
  let r := for_loop (Z.to_nat (WINDOW_A - 1)) (fun _ r => fst (secp256k1_gej_double_nonzero r r)) r in
  let n := nth i wnaf_1 0 in
  let tmpa := ECMULT_CONST_TABLE_GET_GE tmpa pre_a n WINDOW_A in
  let r := secp256k1_gej_add_ge r tmpa in
  if big then
    let n := nth i wnaf_lam 0 in
    let tmpa := ECMULT_CONST_TABLE_GET_GE tmpa pre_a_lam n WINDOW_A in
    (secp256k1_gej_add_ge r tmpa, tmpa)
  else (r, tmpa).

(** From the digits to the product: the common z, then the skews. *)
Definition const_finish (big : bool) (Z : fe) (a : secp256k1_ge) (skew_1 skew_lam : BinNums.Z)
    (r : secp256k1_gej) : secp256k1_gej :=
  let r := Gej (jx r) (jy r) (fe_mul (jz r) Z) (jinf r) in
  let tmpj := secp256k1_gej_set_ge a in
  let tmpj := fst (secp256k1_gej_double_var tmpj tmpj) in
  let correction := fst (secp256k1_ge_set_gej tmpj) in
  let a2_stor := secp256k1_ge_to_storage correction in
  let stor skew := secp256k1_ge_storage_cmov (secp256k1_ge_to_storage a) a2_stor (skew =? 2) in
  let r := secp256k1_gej_add_ge r
    (secp256k1_ge_neg (secp256k1_ge_from_storage (stor skew_1))) in
  if big then secp256k1_gej_add_ge r
    (secp256k1_ge_mul_lambda (secp256k1_ge_neg (secp256k1_ge_from_storage (stor skew_lam))))
  else r.

Definition secp256k1_ecmult_const (a : secp256k1_ge) (scalar : scalar) (size : Z) : secp256k1_gej :=
  let big := 128 <? size in
  let rsize := if big then 128 else size in
  let '(wnaf_1, skew_1, wnaf_lam, skew_lam) :=
    if big then
      let '(q_1, q_lam) := secp256k1_scalar_split_lambda scalar in
      let '(wnaf_1, skew_1) := secp256k1_wnaf_const junk_ints q_1 (WINDOW_A - 1) 128 true in
      let '(wnaf_lam, skew_lam) := secp256k1_wnaf_const junk_ints q_lam (WINDOW_A - 1) 128 true in
      (wnaf_1, skew_1, wnaf_lam, skew_lam)
    else
      let '(wnaf_1, skew_1) := secp256k1_wnaf_const junk_ints scalar (WINDOW_A - 1) size (size =? 256) in
      (wnaf_1, skew_1, junk_ints, 0) in
  let n := Z.to_nat (ECMULT_TABLE_SIZE WINDOW_A) in
  let '(pre_a, Z) := secp256k1_ecmult_odd_multiples_table_globalz_windowa junk
    (repeat (junk_ge junk) n) (jx junk) (secp256k1_gej_set_ge a) in
  let pre_a := map (fun g => Ge (gx g) (fe_normalize_weak (gy g)) (ginf g)) pre_a in
  let pre_a_lam := if big then map secp256k1_ge_mul_lambda pre_a else repeat (junk_ge junk) n in
  let top := Z.to_nat (WNAF_SIZE rsize (WINDOW_A - 1)) in
  let tmpa := ECMULT_CONST_TABLE_GET_GE (junk_ge junk) pre_a (nth top wnaf_1 0) WINDOW_A in
  let r := secp256k1_gej_set_ge tmpa in
  let st := if big then
      let tmpa := ECMULT_CONST_TABLE_GET_GE tmpa pre_a_lam (nth top wnaf_lam 0) WINDOW_A in
      (secp256k1_gej_add_ge r tmpa, tmpa)
    else (r, tmpa) in
  const_finish big Z a skew_1 skew_lam
    (fst (down_loop top (const_step pre_a pre_a_lam wnaf_1 wnaf_lam big) st)).

(** * Theorems

    ** The recoding *)

(** The number that digits to the base [b] stand for. *)
Fixpoint dsum (b : Z) (l : list Z) : Z :=
  match l with [] => 0 | d :: l => d + b * dsum b l end.

Lemma dsum_snoc b l d : dsum b (l ++ [d]) = dsum b l + d * b ^ Z.of_nat (length l).
Proof.
  induction l as [|x l IH]; cbn [app dsum length]; [rewrite Z.pow_0_r; ring|].
  rewrite IH, Nat2Z.inj_succ, Z.pow_succ_r by lia. ring.
Qed.

Lemma firstn_upd (l : list Z) i v : (i < length l)%nat ->
  firstn (S i) (upd l i v) = firstn i l ++ [v].
Proof.
  revert i. induction l as [|x l IH]; intros i Hi; [cbn in Hi; lia|].
  destruct i as [|i]; [reflexivity|]. change (upd (x :: l) (S i) v) with (x :: upd l i v).
  cbn [firstn app length] in *. f_equal. apply IH. lia.
Qed.

(** A digit of the recoding: odd and of absolute value below 2^w. *)
Definition const_digit (w d : Z) : Prop := Z.odd d = true /\ Z.abs d < 2 ^ w.

(** The digits written so far, the pending one and the rest stand for gs * V. *)
Record const_inv (V w gs u_last word : Z) (s : scalar) (wnaf : list Z) : Prop := {
  ci_sok : sok s;
  ci_rest : sval s = V / (2 ^ w) ^ (word + 1);
  ci_sum : dsum (2 ^ w) (firstn (Z.to_nat word) wnaf) + gs * (2 ^ w) ^ word * (u_last + 2 ^ w * sval s)
    = gs * V;
  ci_odd : Z.odd u_last = true;
  ci_range : -1 <= u_last < 2 ^ w;
  ci_digits : Forall (const_digit w) (firstn (Z.to_nat word) wnaf)
}.

Lemma odd_by k x : x = 2 * k + 1 -> Z.odd x = true.
Proof. intros ->. now rewrite Z.odd_add, Z.odd_mul. Qed.

(** One step of the recoding on numbers. *)
Lemma const_digit_step w u u_last : 1 <= w -> 0 <= u < 2 ^ w -> Z.odd u_last = true ->
  -1 <= u_last < 2 ^ w ->
  let even := b2z ((u .& 1) =? 0) in
  let sign := 2 * b2z (0 <? u_last) - 1 in
  let u' := u + sign * even in
  let d := u_last - sign * even * (1 << w) in
  Z.odd u' = true /\ -1 <= u' < 2 ^ w /\ const_digit w d /\ d + 2 ^ w * u' = u_last + 2 ^ w * u.
Proof.
  intros Hw Hu Ho Hr. cbv zeta. rewrite Z.shiftl_mul_pow2, Z.mul_1_l by lia.
  assert (Eh : exists h, 2 ^ w = 2 * h /\ 1 <= h).
  { exists (2 ^ (w - 1)). split; [rewrite <- Z.pow_succ_r by lia; f_equal; lia|].
    pose proof (Z.pow_pos_nonneg 2 (w - 1)). lia. }
  destruct Eh as (h & Eh & Ph). rewrite Eh in *.
  assert (Eu : (u .& 1 =? 0) = negb (Z.odd u)).
  { change 1 with (Z.ones 1). rewrite Z.land_ones by lia. change (2 ^ 1) with 2.
    rewrite Zmod_odd. now destruct (Z.odd u). }
  rewrite Eu. unfold const_digit. rewrite Eh.
  pose proof (proj1 (Zodd_bool_iff _) Ho) as Hq. apply Zodd_ex in Hq. destruct Hq as [q Eq].
  destruct (Z.odd u) eqn:Ou; cbn [negb b2z].
  - rewrite !Z.mul_0_r, Z.mul_0_l, Z.add_0_r, Z.sub_0_r.
    split; [exact Ou|]. split; [lia|]. split; [split; [exact Ho|lia]|reflexivity].
  - assert (Ev : exists v, u = 2 * v).
    { exists (u / 2). rewrite (Z.div_mod u 2) at 1 by lia. rewrite Zmod_odd, Ou. lia. }
    destruct Ev as [v ->]. destruct (Z.ltb_spec 0 u_last) as [L|L]; cbn [b2z].
    + split; [apply (odd_by v); lia|]. split; [lia|].
      split; [split; [apply (odd_by (q - h)); lia|lia]|ring].
    + split; [apply (odd_by (v - 1)); lia|]. split; [lia|].
      split; [split; [apply (odd_by (q + h)); lia|lia]|ring].
Qed.

Lemma wnaf_const_loop_ok w size gs V : 1 <= w < 16 -> gs = 1 \/ gs = -1 ->
  forall fuel s u_last wnaf word, const_inv V w gs u_last word s wnaf -> 0 <= word ->
  (1 <= fuel)%nat -> size <= (word + Z.of_nat fuel) * w ->
  (word * w < size \/ word = 0) -> size <= (Z.of_nat (length wnaf) - 1) * w ->
  (1 < length wnaf)%nat ->
  let '(s', wnaf', u, word') := wnaf_const_loop fuel s w size gs u_last wnaf word in
  const_inv V w gs u word' s' wnaf' /\ length wnaf' = length wnaf /\
  1 <= word' /\ size <= word' * w /\ (word' - 1) * w < Z.max size 1.
Proof.
  intros Hw Hgs. induction fuel as [|fuel IH]; intros s u_last wnaf word I Hw0 Hf Hsz Hgo Hl Hl2; [lia|].
  cbn [wnaf_const_loop]. pose proof (s_shr_int_ok s w (ci_sok _ _ _ _ _ _ _ I) ltac:(lia)) as S.
  destruct (s_shr_int s w) as [s' u]. destruct S as (Ok & Vs & ->).
  assert (Hb : 0 < 2 ^ w) by (apply Z.pow_pos_nonneg; lia).
  pose proof (const_digit_step w (sval s mod 2 ^ w) u_last ltac:(lia)
    (Z.mod_pos_bound _ _ Hb) (ci_odd _ _ _ _ _ _ _ I) (ci_range _ _ _ _ _ _ _ I)) as D.
  cbv zeta in D. set (d := u_last - _) in *. set (u' := sval s mod 2 ^ w + _) in *.
  clearbody d u'. destruct D as (Ou & Ru & Hd & E).
  assert (Lw : (Z.to_nat word < length wnaf)%nat) by (destruct Hgo; nia).
  assert (Hd' : const_digit w (d * gs)).
  { destruct Hd as [Od Rd]. destruct Hgs as [-> | ->]; split; try lia;
      rewrite ?Z.mul_1_r; [exact Od|]. rewrite Z.odd_mul, Od. reflexivity. }
  assert (I' : const_inv V w gs u' (word + 1) s' (upd wnaf (Z.to_nat word) (d * gs))).
  { destruct I as [Is Ir Isum Iodd Irange Idig].
    replace (Z.to_nat (word + 1)) with (S (Z.to_nat word)) by lia.
    constructor; try assumption.
    - rewrite Vs, Ir, Z.div_div by (try apply Z.pow_pos_nonneg; lia).
      now rewrite (Z.pow_add_r _ (word + 1) 1), Z.pow_1_r by lia.
    - replace (Z.to_nat (word + 1)) with (S (Z.to_nat word)) by lia.
      rewrite firstn_upd, dsum_snoc by exact Lw.
      rewrite length_firstn, Nat.min_l, Z2Nat.id by lia.
      rewrite Z.pow_add_r, Z.pow_1_r by lia. rewrite <- Isum.
      rewrite Vs. pose proof (Z.div_mod (sval s) (2 ^ w) ltac:(lia)) as DM.
      set (q := sval s / 2 ^ w) in *. set (m := sval s mod 2 ^ w) in *. clearbody q m.
      assert (EU : u_last = d + 2 ^ w * u' - 2 ^ w * m) by (clear - E; lia).
      rewrite DM, EU. ring.
    - replace (Z.to_nat (word + 1)) with (S (Z.to_nat word)) by lia.
      rewrite firstn_upd by exact Lw. apply Forall_app. split; [exact Idig|].
      constructor; [exact Hd'|constructor]. }
  destruct (Z.ltb_spec ((word + 1) * w) size) as [L|L].
  - specialize (IH s' u' (upd wnaf (Z.to_nat word) (d * gs)) (word + 1) I').
    rewrite length_upd in IH. apply IH; try lia.
  - split; [exact I'|]. split; [apply length_upd|]. split; [lia|]. split; [lia|].
    replace (word + 1 - 1) with word by lia. destruct Hgo as [G|G]; [lia|]. subst. lia.
Qed.

(** The value a scalar stands for when the high half is read as negative. *)
Definition signed (s : Z) : Z := if n_order / 2 <? s then s - n_order else s.

(** The negative-capable case on numbers. *)
Lemma skewed_negative s flip bit : 0 <= sval s < n_order ->
  flip = (n_order / 2 <? sval s) -> bit = xorb flip (Z.odd (sval s)) ->
  let not_neg_one := negb (sval s =? n_order - 1) in
  let c := if not_neg_one then sval s + 2 ^ b2z bit else sval s in
  let v := if flip then (- c) mod n_order else c in
  let gs := (if flip then -1 else 1) * (b2z not_neg_one * 2 - 1) in
  (gs = 1 \/ gs = -1) /\ (2 ^ b2z bit = 1 \/ 2 ^ b2z bit = 2) /\ Z.odd v = true /\
  gs * v = (if flip then sval s - n_order else sval s) + 2 ^ b2z bit /\
  0 < v <= Z.abs (if flip then sval s - n_order else sval s) + 2.
Proof.
  intros R Ef Eb. cbv zeta. assert (Hn : n_order = 2 * (n_order / 2) + 1) by reflexivity.
  assert (Ho : Z.odd n_order = true) by reflexivity. set (h := n_order / 2) in *.
  assert (Ph : 5 < h) by reflexivity. clearbody h. generalize dependent n_order. intros N R Hn Ho.
  destruct (Z.eqb_spec (sval s) (N - 1)) as [E|E]; cbn [negb b2z].
  - rewrite E in *. rewrite (proj2 (Z.ltb_lt _ _)) in Ef by lia. subst flip.
    assert (O : Z.odd (N - 1) = false) by (rewrite Z.odd_sub, Ho; reflexivity).
    rewrite O in Eb. subst bit. rewrite <- (Z.mod_add _ 1), Z.mod_small by lia.
    replace (- (N - 1) + 1 * N) with 1 by lia. cbn. repeat split; lia.
  - assert (B2 : 2 ^ b2z bit = if bit then 2 else 1) by (now destruct bit).
    destruct (Z.ltb_spec h (sval s)) as [L|L]; subst flip; cbn [xorb] in Eb.
    + assert (Fit : sval s + 2 ^ b2z bit < N).
      { rewrite B2. destruct (Z.odd (sval s)) eqn:O; subst bit; cbn [negb]; [lia|].
        assert (sval s <> N - 2); [|lia]. intros E2. rewrite E2, Z.odd_sub, Ho in O. discriminate O. }
      rewrite <- (Z.mod_add _ 1), Z.mod_small by (rewrite B2 in *; destruct bit; lia).
      rewrite B2 in *. rewrite (Z.mul_1_l N), Z.odd_add, Z.odd_opp, Z.odd_add, Ho.
      destruct (Z.odd (sval s)); subst bit; cbn [negb]; repeat split; try lia; reflexivity.
    + rewrite B2, Z.odd_add. destruct (Z.odd (sval s)); subst bit; cbn [negb];
        repeat split; try lia; reflexivity.
Qed.

Lemma skewed_ok s neg : sok s -> (neg = false -> sval s <= n_order / 2) ->
  let '(s1, gs, skew) := skewed s neg in
  sok s1 /\ (gs = 1 \/ gs = -1) /\ (skew = 1 \/ skew = 2) /\
  Z.odd (sval s1) = true /\ gs * sval s1 = signed (sval s) + skew /\
  0 < sval s1 <= Z.abs (signed (sval s)) + 2.
Proof.
  intros Hs Hneg. pose proof (sok_range s Hs) as R. pose proof (s_is_even_ok s Hs) as Ev.
  assert (Hn : n_order = 2 * (n_order / 2) + 1) by reflexivity.
  assert (Ho : Z.odd n_order = true) by reflexivity. set (h := n_order / 2) in *.
  assert (Ph : 5 < h) by reflexivity.
  unfold skewed, signed. fold h. rewrite Ev, Z.negb_even. destruct neg.
  - rewrite (s_is_high_ok s Hs). fold h. destruct (s_negate_ok s Hs) as [On Vn].
    rewrite (s_is_one_ok _ On), Vn. cbv zeta.
    set (flip := h <? sval s). set (bit := xorb flip (Z.odd (sval s))).
    assert (Bb : 0 <= b2z bit < 256) by (destruct bit; cbn; lia).
    assert (N1 : ((- sval s) mod n_order =? 1) = (sval s =? n_order - 1)).
    { destruct (Z.eq_dec (sval s) 0) as [E0|E0]; [rewrite E0; reflexivity|].
      rewrite <- (Z.mod_add _ 1), Z.mod_small by lia.
      destruct (Z.eqb_spec (- sval s + 1 * n_order) 1), (Z.eqb_spec (sval s) (n_order - 1)); lia. }
    rewrite N1. clear N1 On Vn Ev.
    assert (Fit : negb (sval s =? n_order - 1) = true -> sval s + 2 ^ b2z bit < n_order).
    { intros H. apply negb_true_iff, Z.eqb_neq in H. unfold bit, flip.
      destruct (Z.ltb_spec h (sval s)); destruct (Z.odd (sval s)) eqn:O; cbn; try lia.
      assert (sval s <> n_order - 2); [|lia]. intros E. rewrite E in O.
      rewrite Z.odd_sub, Ho in O. discriminate O. }
    destruct (s_cadd_bit_ok s (b2z bit) (negb (sval s =? n_order - 1)) Hs Bb Fit) as [Oc Vc].
    set (c := s_cadd_bit _ _ _) in *. clearbody c.
    pose proof (s_cond_negate_ok c flip Oc) as K. destruct (s_cond_negate c flip) as [s1 gs].
    destruct K as (O1 & V1 & ->). split; [exact O1|]. rewrite V1, Vc.
    rewrite Z.shiftl_mul_pow2, Z.mul_1_l by lia.
    exact (skewed_negative s flip bit R eq_refl eq_refl).
  - specialize (Hneg eq_refl). set (bit := Z.odd (sval s)).
    assert (Bb : 0 <= b2z bit < 256) by (destruct bit; cbn; lia).
    assert (B2 : 2 ^ b2z bit = if bit then 2 else 1) by (now destruct bit).
    destruct (s_cadd_bit_ok s (b2z bit) true Hs Bb) as [Oc Vc].
    { intros _. rewrite B2. destruct bit; lia. }
    split; [exact Oc|]. rewrite Vc, Z.shiftl_mul_pow2, Z.mul_1_l, B2 by lia.
    rewrite (proj2 (Z.ltb_ge _ _) Hneg), Z.odd_add. fold bit.
    destruct bit; (split; [lia|]); (split; [lia|]); (split; [reflexivity|]); lia.
Qed.

Lemma wnaf_size_unique size w k : 1 <= w -> 1 <= size -> size <= k * w -> (k - 1) * w < size ->
  WNAF_SIZE size w = k.
Proof.
  intros Hw Hs H1 H2. unfold WNAF_SIZE. rewrite Z.quot_div_nonneg by lia.
  symmetry. apply (Z.div_unique _ _ _ (size + w - 1 - w * k)); nia.
Qed.

(** The digits of the number with its skew: odd, short, as many as announced. *)
Definition const_digits (w size v : Z) (l : list Z) : Prop :=
  dsum (2 ^ w) l = v /\ Forall (const_digit w) l /\ Z.of_nat (length l) = WNAF_SIZE size w + 1.

(** Without a bound on the scalar the digits stand for its lowest bits. *)
Lemma wnaf_const_general wnaf0 s w size neg : sok s -> 1 <= w < 16 -> 1 <= size ->
  (neg = false -> sval s <= n_order / 2) ->
  size <= (Z.of_nat (length wnaf0) - 1) * w -> (1 < length wnaf0)%nat ->
  let '(l, skew) := secp256k1_wnaf_const wnaf0 s w size neg in
  (skew = 1 \/ skew = 2) /\ exists gs V, (gs = 1 \/ gs = -1) /\
  gs * V = signed (sval s) + skew /\ 0 < V <= Z.abs (signed (sval s)) + 2 /\
  const_digits w size (gs * (V mod (2 ^ w) ^ (WNAF_SIZE size w + 1)))
    (firstn (S (Z.to_nat (WNAF_SIZE size w))) l).
Proof.
  intros Hs Hw Hsize Hneg Hl Hl2. unfold secp256k1_wnaf_const.
  pose proof (skewed_ok s neg Hs Hneg) as K. destruct (skewed s neg) as [[s1 gs] skew].
  destruct K as (O1 & Hgs & Hskew & Odd & Ev & RV). set (V := sval s1) in *.
  assert (Hb : 1 < 2 ^ w) by (apply Z.pow_gt_1; lia).
  pose proof (s_shr_int_ok s1 w O1 ltac:(lia)) as Sh. destruct (s_shr_int s1 w) as [s2 u].
  destruct Sh as (O2 & V2 & ->). fold V in V2 |- *.
  assert (I0 : const_inv V w gs (V mod 2 ^ w) 0 s2 wnaf0).
  { constructor; try assumption; cbn [Z.to_nat firstn dsum].
    - now rewrite Z.add_0_l, Z.pow_1_r.
    - rewrite Z.pow_0_r, V2. rewrite (Z.div_mod V (2 ^ w)) at 3 by lia. ring.
    - rewrite <- Odd, <- !Z.bit0_odd, Z.mod_pow2_bits_low by lia. reflexivity.
    - pose proof (Z.mod_pos_bound V (2 ^ w)). lia.
    - constructor. }
  pose proof (wnaf_const_loop_ok w size gs V Hw Hgs (Z.to_nat size + 1) s2 _ wnaf0 0 I0
    ltac:(lia) ltac:(lia) ltac:(nia) ltac:(now right) Hl Hl2) as L.
  destruct (wnaf_const_loop _ _ _ _ _ _ _ _) as [[[s3 l] u] word].
  destruct L as (I & Ll & W1 & W2 & W3). split; [exact Hskew|].
  assert (EW : WNAF_SIZE size w = word) by (apply wnaf_size_unique; lia). rewrite EW.
  assert (Lw : (Z.to_nat word < length l)%nat) by (rewrite Ll; nia).
  exists gs, V. split; [exact Hgs|]. split; [exact Ev|]. split; [exact RV|].
  rewrite firstn_upd by exact Lw. destruct I as [_ Ir Isum Iodd Irange Idig].
  split; [|split].
  - rewrite dsum_snoc, length_firstn, Nat.min_l, Z2Nat.id by lia.
    rewrite Z.mod_eq, <- Ir by (apply Z.pow_nonzero; lia).
    rewrite Z.pow_add_r, Z.pow_1_r by lia.
    replace (gs * (V - (2 ^ w) ^ word * 2 ^ w * sval s3))
      with (gs * V - gs * (2 ^ w) ^ word * (2 ^ w * sval s3)) by ring.
    rewrite <- Isum. ring.
  - apply Forall_app. split; [exact Idig|]. constructor; [|constructor].
    destruct Hgs as [-> | ->]; split; try lia; rewrite ?Z.mul_1_r; [exact Iodd|].
    rewrite Z.odd_mul, Iodd. reflexivity.
  - rewrite length_app, length_firstn, Nat.min_l by lia. cbn [length]. lia.
Qed.

Lemma wnaf_size_covers size w : 1 <= w -> 1 <= size -> size <= WNAF_SIZE size w * w.
Proof.
  intros Hw Hs. unfold WNAF_SIZE. rewrite Z.quot_div_nonneg by lia.
  pose proof (Z.div_mod (size + w - 1) w ltac:(lia)). pose proof (Z.mod_pos_bound (size + w - 1) w ltac:(lia)).
  nia.
Qed.

Lemma wnaf_const_spec wnaf0 s w size neg : sok s -> 1 <= w < 16 -> 1 <= size ->
  (neg = false -> sval s <= n_order / 2) -> Z.abs (signed (sval s)) + 2 < 2 ^ (size + w) ->
  size <= (Z.of_nat (length wnaf0) - 1) * w -> (1 < length wnaf0)%nat ->
  let '(l, skew) := secp256k1_wnaf_const wnaf0 s w size neg in
  (skew = 1 \/ skew = 2) /\
  const_digits w size (signed (sval s) + skew) (firstn (S (Z.to_nat (WNAF_SIZE size w))) l).
Proof.
  intros Hs Hw Hsize Hneg HV Hl Hl2.
  pose proof (wnaf_const_general wnaf0 s w size neg Hs Hw Hsize Hneg Hl Hl2) as G.
  destruct (secp256k1_wnaf_const wnaf0 s w size neg) as [l skew].
  destruct G as (Hskew & gs & V & _ & Ev & RV & D). split; [exact Hskew|].
  rewrite Z.mod_small in D; [now rewrite Ev in D|]. split; [lia|].
  apply Z.lt_le_trans with (2 ^ (size + w)); [lia|]. rewrite <- Z.pow_mul_r.
  - apply Z.pow_le_mono_r; [lia|]. pose proof (wnaf_size_covers size w). nia.
  - lia.
  - unfold WNAF_SIZE. rewrite Z.quot_div_nonneg by lia. pose proof (Z.div_pos (size + w - 1) w). lia.
Qed.

(** ** The table *)

(** Entries with an ordinate of magnitude 1, and not at infinity. *)
Definition const_table (g : Z) (pre : list secp256k1_ge) (P : point) : Prop :=
  forall k, (k < 8)%nat -> let e := nth k pre (junk_ge junk) in
    ge_srep g e (pmul (2 * k + 1) P) /\ ginf e = false /\ fmag (gy e) 1.

Lemma const_index n : const_digit 4 n -> exists k, (k < 8)%nat /\
  (n * (b2z (0 <? n) * 2 - 1)) ÷ 2 = Z.of_nat k /\
  if n =? n * (b2z (0 <? n) * 2 - 1) then n = Z.of_nat (2 * k + 1) else n = - Z.of_nat (2 * k + 1).
Proof.
  intros [Ho Hr]. change (2 ^ 4) with 16 in Hr.
  apply Zodd_bool_iff, Zodd_ex in Ho. destruct Ho as [q ->].
  destruct (Z.ltb_spec 0 (2 * q + 1)) as [L|L]; cbn [b2z].
  - exists (Z.to_nat q). replace ((2 * q + 1) * (1 * 2 - 1)) with (2 * q + 1) by ring.
    rewrite Z.eqb_refl, Z.quot_div_nonneg by lia. split; [lia|]. split; [|lia].
    symmetry. rewrite Z2Nat.id by lia. apply (Z.div_unique _ _ _ 1); lia.
  - exists (Z.to_nat (- q - 1)). replace ((2 * q + 1) * (0 * 2 - 1)) with (- (2 * q + 1)) by ring.
    rewrite (proj2 (Z.eqb_neq _ _)), Z.quot_div_nonneg by lia. split; [lia|]. split; [|lia].
    symmetry. rewrite Z2Nat.id by lia. apply (Z.div_unique _ _ _ 1); lia.
Qed.

Lemma const_scan r (pre : list secp256k1_ge) k : ge_mags r -> (k < 8)%nat ->
  (forall i, (i < 8)%nat -> ge_mags (nth i pre (junk_ge junk))) ->
  let e := nth k pre (junk_ge junk) in
  exists f, for_loop (Z.to_nat (ECMULT_TABLE_SIZE WINDOW_A)) (fun m r =>
    Ge (fe_cmov (gx r) (gx (nth (Z.to_nat m) pre (junk_ge junk))) (m =? Z.of_nat k))
       (fe_cmov (gy r) (gy (nth (Z.to_nat m) pre (junk_ge junk))) (m =? Z.of_nat k)) (ginf r)) r
  = Ge (gx e) (gy e) f.
Proof.
  intros Hr Hk Hp e. change (Z.to_nat (ECMULT_TABLE_SIZE WINDOW_A)) with 8%nat.
  match goal with |- exists f, for_loop 8 ?body r = _ =>
    pose proof (for_loop_inv (fun i s => ge_mags s /\
      (Z.of_nat k < i -> gx s = gx e /\ gy s = gy e)) body 8 r) as K end.
  cbv beta in K. assert (L : forall s f, gx s = gx e /\ gy s = gy e -> f = ginf s -> s = Ge (gx e) (gy e) f)
    by (intros [? ? ?] f [E1 E2] ->; cbn in *; now subst).
  eexists. apply L; [|reflexivity].
  refine (proj2 (K _ _) _); [split; [exact Hr|lia]| |lia]. clear K. intros i s Hi [[Mx My] E].
  destruct (Hp (Z.to_nat i) ltac:(lia)) as [Ex Ey]. cbn [gx gy].
  rewrite (fe_cmov_ok _ _ 8 _ Mx Ex), (fe_cmov_ok _ _ 8 _ My Ey) by lia.
  destruct (Z.eqb_spec i (Z.of_nat k)) as [->|N].
  - split; [exact (conj Ex Ey)|]. intros _. unfold e. rewrite Nat2Z.id. split; reflexivity.
  - split; [exact (conj Mx My)|]. intros L'. apply E. lia.
Qed.

Lemma const_get_ok g r pre P n : on_curve P -> const_table g pre P -> ge_mags r -> const_digit 4 n ->
  smul n P <> Inf ->
  ge_srep g (ECMULT_CONST_TABLE_GET_GE r pre n WINDOW_A) (smul n P).
Proof.
  intros HP HT Hr Hd Fin. destruct (const_index n Hd) as (k & Hk & Ek & En).
  unfold ECMULT_CONST_TABLE_GET_GE. rewrite Ek.
  destruct (const_scan r pre k Hr Hk (fun i Hi => proj1 (proj1 (HT i Hi)))) as [f ->].
  destruct (HT k Hk) as (S & If & M1). set (e := nth k pre (junk_ge junk)) in *. cbv zeta.
  cbn [gx gy ginf]. pose proof (fev_negate _ 1 1 _ (fev_self _ _ M1) eq_refl) as N.
  rewrite (fev_cmov _ _ 1 2 _ _ _ (fev_self _ _ M1) N eq_refl).
  destruct (n =? _); cbn [negb]; rewrite En.
  - rewrite smul_nat. replace (Ge (gx e) (gy e) false) with e by (rewrite <- If; now destruct e).
    exact S.
  - rewrite smul_opp, smul_nat by exact HP.
    destruct S as ((Mx & My) & Hc & S). split; [exact (conj Mx (fev_mag _ _ 8 _ N eq_refl))|].
    split; [oc|]. destruct (pmul (2 * k + 1) P) as [|x y]; [congruence|].
    destruct S as (_ & Vx & Vy). split; [reflexivity|]. split; [exact Vx|].
    cbn [gy]. rewrite (proj2 N), Vy, (cong_mod p (- y)). apply cong_eq. ring.
Qed.

(** ** The main loop *)

Section ConstLoop.
Variables (g k : Z) (pre_a pre_a_lam : list secp256k1_ge) (l1 l2 : list Z) (big : bool).
Hypothesis Hg : g mod p <> 0.
Hypothesis Hk : k mod n_order <> 0.
Hypothesis Ta : const_table g pre_a (smul k G_point).
Hypothesis Tl : big = true -> const_table g pre_a_lam (smul (lambda * k) G_point).

(** What the digits from [i] on contribute. *)
Definition upper (l1 l2 : list Z) (big : bool) (i : nat) : Z :=
  dsum 16 (skipn i l1) * k + (if big then dsum 16 (skipn i l2) * (lambda * k) else 0).

Lemma digit_finite c d : c mod n_order <> 0 -> const_digit 4 d -> smul d (smul c G_point) <> Inf.
Proof.
  intros Hc [Ho Hd]. change (2 ^ 4) with 16 in Hd. rewrite smul_smul by oc. apply finite_multiplier.
  intros E. apply Z.mod_divide in E; [|discriminate]. apply Z.divide_prime_mul in E; [|exact prime_n].
  destruct E as [E|E]; apply Z.mod_divide in E; try discriminate; [|contradiction].
  assert (D0 : d = 0).
  { assert (C : d =[n_order]= 0) by (apply cong_iff; exact E).
    destruct (Z.leb_spec 0 d); [apply (cong_small n_order); [exact C|unfold n_order; lia..]|].
    enough (- d = 0) by lia. apply (cong_small n_order); [|unfold n_order; lia..].
    rewrite C. reflexivity. }
  subst d. discriminate Ho.
Qed.

Lemma lambda_multiplier : (lambda * k) mod n_order <> 0.
Proof.
  intros E. apply Z.mod_divide in E; [|discriminate]. apply Z.divide_prime_mul in E; [|exact prime_n].
  destruct E as [E|E]; apply Z.mod_divide in E; try discriminate; contradiction.
Qed.

Lemma add_digit_ok pre c d m r tmpa : c mod n_order <> 0 -> const_table g pre (smul c G_point) ->
  const_digit 4 d -> ge_mags tmpa -> gej_srep g r (smul m G_point) ->
  let tmpa := ECMULT_CONST_TABLE_GET_GE tmpa pre d WINDOW_A in
  gej_srep g (secp256k1_gej_add_ge r tmpa) (smul (m + d * c) G_point) /\ ge_mags tmpa.
Proof.
  intros Hc HT Hd Ht Hr. cbv zeta. pose proof (digit_finite c d Hc Hd) as Fin.
  pose proof (const_get_ok g tmpa pre (smul c G_point) d ltac:(oc) HT Ht Hd Fin) as S.
  split; [|exact (proj1 S)]. rewrite smul_add, <- smul_smul by oc.
  exact (add_ge_srep g r _ _ _ Hg Hr S Fin).
Qed.

Lemma const_doublings r m : gej_srep g r (smul m G_point) ->
  gej_srep g (for_loop (Z.to_nat (WINDOW_A - 1)) (fun _ r => fst (secp256k1_gej_double_nonzero r r)) r)
    (smul (16 * m) G_point).
Proof.
  intros Hr. change (Z.to_nat (WINDOW_A - 1)) with 4%nat.
  pose proof (for_loop_inv (fun i r => gej_srep g r (smul (2 ^ i * m) G_point))
    (fun _ r => fst (secp256k1_gej_double_nonzero r r)) 4 r) as K. cbv beta in K.
  change (16 * m) with (2 ^ Z.of_nat 4 * m). apply K.
  - now rewrite Z.pow_0_r, Z.mul_1_l.
  - intros i s Hi Hs. rewrite Z.pow_add_r by lia. change (2 ^ 1) with 2.
    replace (2 ^ i * 2 * m) with (2 * (2 ^ i * m)) by ring. rewrite smul_double by oc.
    exact (proj1 (double_srep g s s _ (proj1 Hs) Hs)).
Qed.

Lemma dsum_skipn b l i : (i < length l)%nat ->
  dsum b (skipn i l) = nth i l 0 + b * dsum b (skipn (S i) l).
Proof.
  revert i. induction l as [|d l IH]; intros i Hi; [cbn in Hi; lia|].
  destruct i; [reflexivity|]. cbn [skipn nth length] in *. apply IH. lia.
Qed.

(** The state of the loop when the digits from [i] on have been used. *)
Definition const_state (i : nat) (st : secp256k1_gej * secp256k1_ge) : Prop :=
  gej_srep g (fst st) (smul (upper l1 l2 big i) G_point) /\ ge_mags (snd st).

Lemma const_step_ok i st : Forall (const_digit 4) l1 -> (big = true -> Forall (const_digit 4) l2) ->
  (i < length l1)%nat -> (big = true -> (i < length l2)%nat) -> const_state (S i) st ->
  const_state i (const_step pre_a pre_a_lam l1 l2 big i st).
Proof.
  intros D1 D2 L1 L2 [Hr Ht]. destruct st as [r tmpa]. cbn [fst snd] in *. unfold const_step.
  pose proof (const_doublings r _ Hr) as K1.
  set (r1 := for_loop _ _ _) in *. clearbody r1.
  rewrite Forall_forall in D1. pose proof (D1 _ (nth_In l1 0 L1)) as E1.
  destruct (add_digit_ok pre_a k (nth i l1 0) _ r1 tmpa Hk Ta E1 Ht K1) as [K2 M2].
  cbv zeta. set (t1 := ECMULT_CONST_TABLE_GET_GE tmpa _ _ _) in *. clearbody t1.
  set (r2 := secp256k1_gej_add_ge r1 t1) in *. clearbody r2. unfold const_state, upper in *.
  rewrite (dsum_skipn 16 l1 i L1). destruct big; cbn [fst snd].
  - specialize (D2 eq_refl). rewrite Forall_forall in D2.
    pose proof (D2 _ (nth_In l2 0 (L2 eq_refl))) as E2.
    destruct (add_digit_ok pre_a_lam (lambda * k) (nth i l2 0) _ r2 t1 lambda_multiplier (Tl eq_refl) E2 M2 K2)
      as [K3 M3].
    rewrite (dsum_skipn 16 l2 i (L2 eq_refl)). split; [|exact M3].
    match type of K3 with gej_srep _ _ (smul ?m _) =>
      match goal with |- gej_srep _ _ (smul ?m' _) /\ _ => idtac | |- gej_srep _ _ (smul ?m' _) =>
        replace m' with m by ring end end. exact K3.
  - split; [|exact M2].
    match type of K2 with gej_srep _ _ (smul ?m _) =>
      match goal with |- gej_srep _ _ (smul ?m' _) => replace m' with m by ring end end. exact K2.
Qed.

(** The first digits, then the loop: the whole sum. *)
Lemma const_loop_ok top tmpa : Forall (const_digit 4) l1 -> (big = true -> Forall (const_digit 4) l2) ->
  length l1 = S top -> (big = true -> length l2 = S top) -> ge_mags tmpa ->
  let tmpa1 := ECMULT_CONST_TABLE_GET_GE tmpa pre_a (nth top l1 0) WINDOW_A in
  let r1 := secp256k1_gej_set_ge tmpa1 in
  let st := if big then
      let tmpa2 := ECMULT_CONST_TABLE_GET_GE tmpa1 pre_a_lam (nth top l2 0) WINDOW_A in
      (secp256k1_gej_add_ge r1 tmpa2, tmpa2)
    else (r1, tmpa1) in
  const_state 0 (down_loop top (const_step pre_a pre_a_lam l1 l2 big) st).
Proof.
  intros D1 D2 L1 L2 Ht tmpa1 r1 st. apply (down_loop_ok const_state).
  { intros i s Hi. apply const_step_ok; try assumption; [lia|]. intros B. rewrite (L2 B). lia. }
  rewrite Forall_forall in D1. pose proof (D1 _ (nth_In l1 0 (ltac:(lia) : (top < length l1)%nat))) as E1.
  pose proof (const_get_ok g tmpa pre_a (smul k G_point) _ ltac:(oc) Ta Ht E1 (digit_finite k _ Hk E1)) as S1.
  fold tmpa1 in S1. rewrite smul_smul in S1 by oc. pose proof (set_ge_srep g _ _ Hg S1) as R1. fold r1 in R1.
  assert (U1 : dsum 16 (skipn top l1) = nth top l1 0).
  { rewrite dsum_skipn by lia. rewrite skipn_all2 by lia. cbn [dsum]. ring. }
  unfold const_state, upper, st. rewrite U1. destruct big.
  - specialize (D2 eq_refl). rewrite Forall_forall in D2. specialize (L2 eq_refl).
    pose proof (D2 _ (nth_In l2 0 (ltac:(lia) : (top < length l2)%nat))) as E2.
    destruct (add_digit_ok pre_a_lam (lambda * k) _ _ r1 tmpa1 lambda_multiplier (Tl eq_refl) E2
      (proj1 S1) R1) as [K2 M2].
    assert (U2 : dsum 16 (skipn top l2) = nth top l2 0).
    { rewrite dsum_skipn by lia. rewrite skipn_all2 by lia. cbn [dsum]. ring. }
    rewrite U2. exact (conj K2 M2).
  - rewrite Z.add_0_r. exact (conj R1 (proj1 S1)).
Qed.
End ConstLoop.

(** ** The whole multiplication *)

Lemma signed_short a k : sok a -> sval a =[n_order]= k -> Z.abs k < 2 ^ 128 -> signed (sval a) = k.
Proof.
  intros Ha E Hk. pose proof (sok_range a Ha) as Hr.
  assert (Ev : sval a = if 0 <=? k then k else k + n_order).
  { apply (cong_small n_order); [|exact Hr|].
    - rewrite E. destruct (0 <=? k); [reflexivity|]. exists (-1). ring.
    - destruct (Z.leb_spec 0 k); unfold n_order; lia. }
  unfold signed. change (n_order / 2) with 0x7FFFFFFFFFFFFFFFFFFFFFFFFFFFFFFF5D576E7357A4501DDFE92F46681B20A0.
  destruct (Z.leb_spec 0 k), (Z.ltb_spec 0x7FFFFFFFFFFFFFFFFFFFFFFFFFFFFFFF5D576E7357A4501DDFE92F46681B20A0 (sval a));
    unfold n_order in *; lia.
Qed.

(** The two tables. *)
Lemma weak_table g pre P : length pre = 8%nat ->
  (forall k, (k < 8)%nat -> pmul (2 * k + 1) P <> Inf) ->
  (forall k, (k < 8)%nat -> ge_srep g (nth k pre (junk_ge junk)) (pmul (2 * k + 1) P)) ->
  const_table g (map (fun g => Ge (gx g) (fe_normalize_weak (gy g)) (ginf g)) pre) P.
Proof.
  intros L Fin H k Hk. cbv zeta. set (f := fun g : secp256k1_ge => _).
  rewrite (nth_indep _ (junk_ge junk) (f (junk_ge junk))) by (rewrite length_map; lia).
  rewrite map_nth. specialize (H k Hk). specialize (Fin k Hk). set (e := nth k pre _) in *.
  destruct H as ((Mx & My) & Hc & S). pose proof (fev_weak _ _ _ (fev_self _ _ My) eq_refl) as W.
  destruct (pmul (2 * k + 1) P) as [|x y]; [contradiction|]. destruct S as (Hi & Vx & Vy).
  unfold f. cbn [gy ginf]. split; [|exact (conj Hi (proj1 W))].
  split; [exact (conj Mx (fev_mag _ _ 8 _ W eq_refl))|]. split; [exact Hc|].
  split; [exact Hi|]. split; [exact Vx|]. cbn [gy]. rewrite (proj2 W). exact Vy.
Qed.

Lemma lambda_table g pre c : length pre = 8%nat -> const_table g pre (smul c G_point) ->
  const_table g (map secp256k1_ge_mul_lambda pre) (smul (lambda * c) G_point).
Proof.
  intros L H k Hk. cbv zeta. rewrite (nth_map_lambda junk pre 8) by assumption.
  destruct (H k Hk) as (S & Hi & M). split; [|exact (conj Hi M)].
  rewrite <- smul_nat, <- (smul_smul lambda c), <- pendo_lambda by oc.
  rewrite <- pendo_smul, smul_nat by oc. now apply mul_lambda_srep.
Qed.

(** The point the skew is compensated with. *)
Lemma correction_ok a b c (flag : bool) : c mod n_order <> 0 -> ge_rep a (smul c G_point) ->
  ge_rep b (smul (2 * c) G_point) ->
  let st := secp256k1_ge_storage_cmov (secp256k1_ge_to_storage a) (secp256k1_ge_to_storage b) flag in
  ge_rep (secp256k1_ge_neg (secp256k1_ge_from_storage st))
    (smul (- ((if flag then 2 else 1) * c)) G_point) /\
  smul (- ((if flag then 2 else 1) * c)) G_point <> Inf.
Proof.
  intros Hc Ha Hb. cbv zeta.
  assert (N : ((if flag then 2 else 1) * c) mod n_order <> 0).
  { intros E. apply Z.mod_divide in E; [|discriminate]. apply Z.divide_prime_mul in E; [|exact prime_n].
    destruct E as [E|E]; apply Z.mod_divide in E; try discriminate; [destruct flag; discriminate E|].
    contradiction. }
  rewrite packed_cmov by (apply packed_to_storage; [apply Ha||apply Hb]).
  assert (F1 : smul (- ((if flag then 2 else 1) * c)) G_point <> Inf).
  { apply finite_multiplier. intros E. apply N. apply Z.mod_divide in E; [|discriminate].
    apply Z.mod_divide; [discriminate|]. exact (proj1 (Z.divide_opp_r _ _) E). }
  split; [|exact F1]. rewrite smul_opp by oc. apply ge_neg_rep.
  destruct flag; [|rewrite Z.mul_1_l in N |- *];
    (apply storage_roundtrip; [assumption|exact (proj2 (finite_multiplier _) N)]).
Qed.

Lemma skew_flag skew : skew = 1 \/ skew = 2 -> (if skew =? 2 then 2 else 1) = skew.
Proof. intros [-> | ->]; reflexivity. Qed.

(** The digits of a scalar, or of its two halves. *)
Lemma half_digits a v : sok a -> sval a =[n_order]= v -> Z.abs v < 2 ^ 128 -> length junk_ints = 33%nat ->
  let '(l, skew) := secp256k1_wnaf_const junk_ints a (WINDOW_A - 1) 128 true in
  (skew = 1 \/ skew = 2) /\ const_digits 4 128 (v + skew) (firstn 33 l).
Proof.
  intros Ha E Hv L. change (WINDOW_A - 1) with 4.
  pose proof (signed_short a v Ha E Hv) as S. rewrite <- S.
  assert (B : Z.abs v + 2 < 2 ^ (128 + 4)) by (change (2 ^ (128 + 4)) with (16 * 2 ^ 128); lia).
  exact (wnaf_const_spec junk_ints a 4 128 true Ha ltac:(lia) ltac:(lia)
    ltac:(discriminate) ltac:(rewrite S; exact B) ltac:(rewrite L; lia) ltac:(rewrite L; lia)).
Qed.

Lemma small_digits a size : sok a -> 1 <= size <= 128 -> sval a <= n_order / 2 ->
  length junk_ints = 33%nat ->
  let '(l, skew) := secp256k1_wnaf_const junk_ints a (WINDOW_A - 1) size (size =? 256) in
  (skew = 1 \/ skew = 2) /\
  const_digits 4 size ((sval a + skew) mod 16 ^ (WNAF_SIZE size 4 + 1))
    (firstn (S (Z.to_nat (WNAF_SIZE size 4))) l) /\
  skew = (if Z.even (sval a) then 1 else 2).
Proof.
  intros Ha Hs Low L. change (WINDOW_A - 1) with 4. rewrite (proj2 (Z.eqb_neq size 256)) by lia.
  assert (Sg : signed (sval a) = sval a) by (unfold signed; now rewrite (proj2 (Z.ltb_ge _ _) Low)).
  assert (Sk : snd (secp256k1_wnaf_const junk_ints a 4 size false) = if Z.even (sval a) then 1 else 2).
  { unfold secp256k1_wnaf_const, skewed. rewrite (s_is_even_ok a Ha).
    destruct (s_shr_int _ 4) as [s2 u]. destruct (wnaf_const_loop _ _ _ _ _ _ _ _) as [[[s3 l] u'] wd].
    cbn [snd]. now destruct (Z.even (sval a)). }
  pose proof (wnaf_const_general junk_ints a 4 size false Ha ltac:(lia) ltac:(lia) (fun _ => Low)
    ltac:(rewrite L; lia) ltac:(rewrite L; lia)) as K.
  destruct (secp256k1_wnaf_const junk_ints a 4 size false) as [l skew]. cbn [snd] in Sk.
  destruct K as (Hk & gs & V & Hgs & E & R & D). rewrite Sg in *. pose proof (sok_range a Ha).
  assert (G1 : gs = 1) by (destruct Hgs; [assumption|subst gs; lia]). subst gs.
  rewrite Z.mul_1_l in E. subst V. rewrite Z.mul_1_l in D. exact (conj Hk (conj D Sk)).
Qed.

Lemma ge_srep_one b Q : ge_srep 1 b Q -> ge_rep b Q.
Proof.
  intros (M & Hc & H). split; [exact M|]. split; [exact Hc|]. destruct Q as [|x y]; [exact H|].
  destruct H as (Hi & Vx & Vy). rewrite !Z.mul_1_r in Vx, Vy. exact (conj Hi (conj Vx Vy)).
Qed.

Lemma const_finish_ok (big : bool) Z a c s1 s2 r v1 v2 : fmag Z 8 -> c mod n_order <> 0 ->
  ge_rep a (smul c G_point) -> s1 = 1 \/ s1 = 2 -> (big = true -> s2 = 1 \/ s2 = 2) ->
  gej_srep (fval Z) r
    (smul ((v1 + s1) * c + (if big then (v2 + s2) * (lambda * c) else 0)) G_point) ->
  gej_rep (const_finish big Z a s1 s2 r)
    (smul (v1 * c + (if big then v2 * (lambda * c) else 0)) G_point).
Proof.
  intros MZ Hc Ha H1 H2 Hr. unfold const_finish. cbv zeta.
  pose proof (scale_z_rep Z r _ MZ Hr) as R0. unfold scale_z in R0.
  set (r0 := Gej _ _ _ _) in *. clearbody r0.
  pose proof (set_ge_rep a _ Ha) as Ja. set (t := secp256k1_gej_set_ge a) in *.
  pose proof (proj1 (double_rep t t _ (proj1 Ja) Ja)) as Jd.
  destruct (set_gej_rep _ _ Jd) as [Hb _]. rewrite <- smul_double in Hb by oc.
  set (b := fst (secp256k1_ge_set_gej _)) in *. clearbody b t.
  destruct (correction_ok a b c (s1 =? 2) Hc Ha Hb) as [C1 F1]. rewrite (skew_flag _ H1) in *.
  pose proof (add_ge_rep r0 _ _ _ R0 C1 F1) as R1. rewrite <- smul_add in R1 by oc.
  set (r1 := secp256k1_gej_add_ge r0 _) in *. clearbody r1. destruct big.
  - specialize (H2 eq_refl). destruct (correction_ok a b c (s2 =? 2) Hc Ha Hb) as [C2 F2].
    rewrite (skew_flag _ H2) in *.
    pose proof (mul_lambda_srep 1 _ _ (ge_srep_1 _ _ C2)) as L2. apply ge_srep_one in L2.
    rewrite pendo_lambda, smul_smul in L2 by oc.
    assert (F3 : smul (lambda * - (s2 * c)) G_point <> Inf)
      by (rewrite <- smul_smul, <- pendo_lambda by oc; now apply pendo_finite).
    pose proof (add_ge_rep r1 _ _ _ R1 L2 F3) as R2. rewrite <- smul_add in R2 by oc.
    rewrite (smul_cong _ (v1 * c + v2 * (lambda * c))) in R2; [exact R2|apply cong_eq; ring].
  - rewrite (smul_cong _ (v1 * c + 0)) in R1; [exact R1|apply cong_eq; ring].
Qed.

Lemma down_loop_ext {S} n (f g : nat -> S -> S) s : (forall i s, (i < n)%nat -> f i s = g i s) ->
  down_loop n f s = down_loop n g s.
Proof.
  revert s. induction n as [|n IH]; intros s H; [reflexivity|]. cbn [down_loop].
  rewrite (H n s) by lia. apply IH. intros i t Hi. apply H. lia.
Qed.

Lemma nth_first (l : list Z) top i : (i <= top)%nat -> nth i l 0 = nth i (firstn (S top) l) 0.
Proof. intros H. rewrite nth_firstn. replace (i <? S top)%nat with true by (symmetry; apply Nat.ltb_lt; lia). reflexivity. Qed.

(** The loop on the digit arrays, of which the first [top + 1] entries count. *)
Lemma const_arrays_ok g k pre_a pre_a_lam w1 w2 big top tmpa v1 v2 : g mod p <> 0 ->
  k mod n_order <> 0 -> const_table g pre_a (smul k G_point) ->
  (big = true -> const_table g pre_a_lam (smul (lambda * k) G_point)) ->
  let l1 := firstn (S top) w1 in let l2 := firstn (S top) w2 in
  dsum 16 l1 = v1 /\ Forall (const_digit 4) l1 /\ length l1 = S top ->
  (big = true -> dsum 16 l2 = v2 /\ Forall (const_digit 4) l2 /\ length l2 = S top) ->
  ge_mags tmpa ->
  let tmpa1 := ECMULT_CONST_TABLE_GET_GE tmpa pre_a (nth top w1 0) WINDOW_A in
  let r1 := secp256k1_gej_set_ge tmpa1 in
  let st := if big then
      let tmpa2 := ECMULT_CONST_TABLE_GET_GE tmpa1 pre_a_lam (nth top w2 0) WINDOW_A in
      (secp256k1_gej_add_ge r1 tmpa2, tmpa2)
    else (r1, tmpa1) in
  gej_srep g (fst (down_loop top (const_step pre_a pre_a_lam w1 w2 big) st))
    (smul (v1 * k + (if big then v2 * (lambda * k) else 0)) G_point).
Proof.
  intros Hg Hk Ta Tl l1 l2 (S1 & D1 & N1) H2 Ht tmpa1 r1 st.
  assert (EL : down_loop top (const_step pre_a pre_a_lam w1 w2 big) st
    = down_loop top (const_step pre_a pre_a_lam l1 l2 big) st).
  { apply down_loop_ext. intros i [r t] Hi. unfold const_step, l1, l2.
    now rewrite <- !nth_first by lia. }
  rewrite EL. pose proof (const_loop_ok g k pre_a pre_a_lam l1 l2 big Hg Hk Ta Tl top tmpa D1
    (fun B => proj1 (proj2 (H2 B))) N1 (fun B => proj2 (proj2 (H2 B))) Ht) as [K _].
  cbv zeta in K. assert (T1 : nth top w1 0 = nth top l1 0) by (apply nth_first; lia).
  assert (T2 : nth top w2 0 = nth top l2 0) by (apply nth_first; lia). rewrite <- T1, <- T2 in K.
  unfold upper in K. cbn [skipn] in K. rewrite S1 in K. fold tmpa1 r1 in K.
  destruct big; [rewrite (proj1 (H2 eq_refl)) in K|]; exact K.
Qed.

(** The multiplier in effect: a scalar too long for the size loses its high bits. *)
Definition const_effective (s size : Z) : Z :=
  if 128 <? size then s else
  let skew := if Z.even s then 1 else 2 in
  (s + skew) mod 16 ^ (WNAF_SIZE size 4 + 1) - skew.

Lemma const_effective_small s size : 1 <= size <= 128 -> 0 <= s < 2 ^ size ->
  const_effective s size = s.
Proof.
  intros Hs R. unfold const_effective. rewrite (proj2 (Z.ltb_ge 128 size)) by lia. cbv zeta.
  set (skew := if Z.even s then 1 else 2). assert (1 <= skew <= 2) by (unfold skew; destruct (Z.even s); lia).
  rewrite Z.mod_small; [lia|]. split; [lia|].
  apply Z.lt_le_trans with (2 ^ (size + 4)).
  - rewrite Z.pow_add_r by lia. change (2 ^ 4) with 16.
    pose proof (Z.pow_le_mono_r 2 1 size ltac:(lia) ltac:(lia)). lia.
  - pose proof (wnaf_size_covers size 4 ltac:(lia) ltac:(lia)). change 16 with (2 ^ 4).
    rewrite <- Z.pow_mul_r by lia. apply Z.pow_le_mono_r; lia.
Qed.

Lemma ecmult_const_spec a scalar size k : gej_mags junk -> length junk_ints = 33%nat ->
  ge_rep a (smul k G_point) -> k mod n_order <> 0 -> sok scalar ->
  128 < size \/ (1 <= size <= 128 /\ sval scalar <= n_order / 2) ->
  gej_rep (secp256k1_ecmult_const a scalar size) (smul (const_effective (sval scalar) size * k) G_point).
Proof.
  intros Hj Lj Ha Hk Hs Hsize. unfold secp256k1_ecmult_const. cbv zeta.
  change (Z.to_nat (ECMULT_TABLE_SIZE WINDOW_A)) with 8%nat.
  pose proof (globalz_windowa_ok junk (repeat (junk_ge junk) 8) (jx junk) (secp256k1_gej_set_ge a) _ Hj
    (set_ge_rep a _ Ha) (smul_finite k Hk)
    (fun j (Hj' : (j < 8)%nat) => multiple_finite k (2 * j + 1) Hk ltac:(unfold n_order; lia))
    eq_refl) as T.
  destruct (secp256k1_ecmult_odd_multiples_table_globalz_windowa _ _ _ _) as [pre Z].
  destruct T as (Lp & MZ & HZ & Ta).
  pose proof (weak_table _ pre _ Lp (fun j (Hj' : (j < 8)%nat) =>
    multiple_finite k (2 * j + 1) Hk ltac:(unfold n_order; lia)) Ta) as Tw.
  set (prew := map _ pre) in *. assert (Lw : length prew = 8%nat) by (unfold prew; now rewrite length_map).
  clearbody prew. pose proof (lambda_table _ prew k Lw Tw) as Tl.
  assert (Hm : ge_mags (junk_ge junk)) by exact (conj (proj1 Hj) (proj1 (proj2 Hj))).
  destruct (Z.ltb_spec 128 size) as [B|B].
  - unfold const_effective. rewrite (proj2 (Z.ltb_lt _ _) B).
    pose proof (split_lambda_spec scalar Hs) as (O1 & O2 & V1 & V2).
    pose proof (split_small _ (sok_range scalar Hs)) as [S1 S2].
    destruct (secp256k1_scalar_split_lambda scalar) as [q1 q2]. cbn [fst snd] in *.
    apply Z.abs_lt in S1, S2.
    pose proof (half_digits q1 _ O1 V1 S1 Lj) as H1. pose proof (half_digits q2 _ O2 V2 S2 Lj) as H2.
    destruct (secp256k1_wnaf_const junk_ints q1 _ _ _) as [l1 s1], (secp256k1_wnaf_const junk_ints q2 _ _ _) as [l2 s2].
    destruct H1 as [K1 (E1 & D1 & N1)], H2 as [K2 (E2 & D2 & N2)].
    change (WNAF_SIZE 128 4) with 32 in N1, N2. change (Z.to_nat (WNAF_SIZE 128 (WINDOW_A - 1))) with 32%nat.
    pose proof (const_arrays_ok (fval Z) k prew _ l1 l2 true 32 (junk_ge junk) _ _ HZ Hk Tw (fun _ => Tl)
      (conj E1 (conj D1 (Nat2Z.inj _ 33 N1))) (fun _ => conj E2 (conj D2 (Nat2Z.inj _ 33 N2))) Hm) as R. cbv zeta in R.
    pose proof (const_finish_ok true Z a k s1 s2 _ _ _ MZ Hk Ha K1 (fun _ => K2) R) as Fin. cbv iota in Fin.
    rewrite (smul_cong _ (sval scalar * k)) in Fin; [exact Fin|].
    transitivity ((split_k1 (sval scalar) + split_k2 (sval scalar) * lambda) * k); [apply cong_eq; ring|].
    now rewrite split_sum.
  - destruct Hsize as [|[R1 R2]]; [lia|].
    pose proof (small_digits scalar size Hs R1 R2 Lj) as H1.
    destruct (secp256k1_wnaf_const junk_ints scalar _ _ _) as [l1 s1]. destruct H1 as (K1 & (E1 & D1 & N1) & Sk).
    change (WINDOW_A - 1) with 4. set (top := Z.to_nat (WNAF_SIZE size 4)) in *.
    assert (Nt : length (firstn (S top) l1) = S top).
    { apply Nat2Z.inj. rewrite N1. unfold top. rewrite Nat2Z.inj_succ, Z2Nat.id; [lia|].
      unfold WNAF_SIZE. rewrite Z.quot_div_nonneg by lia. apply Z.div_pos; lia. }
    assert (E1' : dsum 16 (firstn (S top) l1) = const_effective (sval scalar) size + s1).
    { unfold const_effective. rewrite (proj2 (Z.ltb_ge _ _) B), <- Sk. change (dsum 16) with (dsum (2 ^ 4)).
      rewrite E1. ring. }
    pose proof (const_arrays_ok (fval Z) k prew (repeat (junk_ge junk) 8) l1 junk_ints false top (junk_ge junk)
      (const_effective (sval scalar) size + s1) 0 HZ Hk Tw ltac:(discriminate) (conj E1' (conj D1 Nt)) ltac:(discriminate) Hm) as R. cbv zeta in R.
    pose proof (const_finish_ok false Z a k s1 0 _ (const_effective (sval scalar) size) 0 MZ Hk Ha K1 ltac:(discriminate) R) as Fin. cbv iota in Fin.
    rewrite Z.add_0_r in Fin. exact Fin.
Qed.

(** For an arbitrary finite point. *)
Lemma ecmult_const_eff a scalar size P : gej_mags junk -> length junk_ints = 33%nat ->
  ge_rep a P -> P <> Inf -> sok scalar ->
  128 < size \/ (1 <= size <= 128 /\ sval scalar <= n_order / 2) ->
  gej_rep (secp256k1_ecmult_const a scalar size) (smul (const_effective (sval scalar) size) P).
Proof.
  intros Hj Lj Ha HP Hs Hsize. destruct (all_multiples P (proj1 (proj2 Ha))) as (k & _ & ->).
  rewrite smul_smul by oc. apply ecmult_const_spec; try assumption. now apply finite_multiplier.
Qed.

Lemma ecmult_const_point a scalar size P : gej_mags junk -> length junk_ints = 33%nat ->
  ge_rep a P -> P <> Inf -> sok scalar ->
  128 < size \/ (1 <= size <= 128 /\ sval scalar < 2 ^ size) ->
  gej_rep (secp256k1_ecmult_const a scalar size) (smul (sval scalar) P).
Proof.
  intros Hj Lj Ha HP Hs Hsize.
  assert (E : const_effective (sval scalar) size = sval scalar).
  { destruct Hsize as [B|[B1 B2]]; [unfold const_effective; now rewrite (proj2 (Z.ltb_lt _ _) B)|].
    apply const_effective_small; [exact B1|]. pose proof (sok_range scalar Hs). lia. }
  rewrite <- E. apply ecmult_const_eff; try assumption.
  destruct Hsize as [B|[B1 B2]]; [now left|right]. split; [exact B1|].
  assert (B : 2 ^ size <= 2 ^ 128) by (apply Z.pow_le_mono_r; lia).
  change (n_order / 2) with 0x7FFFFFFFFFFFFFFFFFFFFFFFFFFFFFFF5D576E7357A4501DDFE92F46681B20A0. lia.
Qed.
End EcmultConst.
