(* ===== verification/EcmultProperties.v ===== *)
(** * Properties of the point multiplications

    For every implementation of the field and scalar interfaces.  [junk] is
    uninitialised memory; of it only the magnitude of its elements is assumed. *)
From S2P Require Import Prelude Primes FieldSpec Field5x52 Field ScalarSpec Scalar4x64 Scalar.
From S2P Require Import Sha256Spec Hash CurveSpec CurveGroup CurveOrder NumsPoint Wnaf Group.
From S2P Require Import Ecmult EcmultGen.

Section EcmultProperties.
Context {F : FieldImpl} {SI : ScalarImpl} (junk : secp256k1_gej).
Hypothesis Hjunk : gej_mags junk.

(** C25: the double multiplication. For every built context, every pair of
    scalars and every point A of the curve other than infinity, the code's
    interleaved windows, endomorphism split and common-z trick return
    na A + ng G, with the infinite result and colliding intermediate points
    included. *)
Theorem ecmult_correct ctx r a na ng A : ctx_ok ctx -> sok na -> sok ng ->
  A <> Inf -> gej_rep a A ->
  gej_rep (secp256k1_ecmult junk ctx r a na ng) (padd (smul (sval na) A) (smul (sval ng) G_point)).
Proof. intros. now apply ecmult_point. Qed.

(** The life of a context. Building it fills both tables with the odd
    multiples of G and of 2^128 G; building again changes nothing; a clone of a
    built context serves as well; a cleared one is not built. *)
Theorem ecmult_context_lifecycle :
  let ctx := secp256k1_ecmult_context_build junk secp256k1_ecmult_context_init in
  secp256k1_ecmult_context_is_built secp256k1_ecmult_context_init = false /\
  ctx_ok ctx /\ secp256k1_ecmult_context_build junk ctx = ctx /\
  ctx_ok (secp256k1_ecmult_context_clone ctx) /\
  secp256k1_ecmult_context_is_built (secp256k1_ecmult_context_clear ctx) = false.
Proof.
  pose proof (context_build_ok junk Hjunk) as H. cbv zeta.
  split; [reflexivity|]. split; [exact H|]. split; [reflexivity|].
  split; [exact H|reflexivity].
Qed.

(** The signed digits of a scalar. The digits sum up to the scalar, taken
    negative when its top bit is set; each is zero or odd and below half of the
    window; the reported length covers every non-zero digit. *)
Theorem ecmult_wnaf_correct len a w : sok a -> 1 <= len <= 256 -> 2 <= w <= 31 ->
  Z.abs (wnaf_value a) < 2 ^ (len - 1) ->
  let '(l, bits) := secp256k1_ecmult_wnaf len a w in
  wsum l = wnaf_value a /\ length l = Z.to_nat len /\ Forall (wnaf_digit w) l /\
  0 <= bits <= len /\ forall i, bits <= i -> nth (Z.to_nat i) l 0 = 0.
Proof. intros. now apply ecmult_wnaf_spec. Qed.

(** ** The blinded generator multiplication *)

Context (hmac0 : hmac_sha256_t) (scratch : sha256_t).
Hypothesis Hi : buf_ok (inner hmac0).
Hypothesis Ho : buf_ok (outer hmac0).
Hypothesis Hs : buf_ok scratch.

(** The contexts a program can obtain: built, built again, blinded with a seed
    or reset, and copied into another context. *)
Inductive gen_reachable (fuel : nat) : secp256k1_ecmult_gen_context -> Prop :=
| gen_built ctx ctx' :
    prec ctx = None ->
    secp256k1_ecmult_gen_context_build junk hmac0 scratch fuel ctx = Some ctx' ->
    gen_reachable fuel ctx'
| gen_rebuilt ctx ctx' :
    gen_reachable fuel ctx ->
    secp256k1_ecmult_gen_context_build junk hmac0 scratch fuel ctx = Some ctx' ->
    gen_reachable fuel ctx'
| gen_blinded ctx ctx' seed :
    gen_reachable fuel ctx ->
    match seed with Some l => Forall is_byte l | None => True end ->
    secp256k1_ecmult_gen_blind hmac0 scratch fuel ctx seed = Some ctx' ->
    gen_reachable fuel ctx'
| gen_cloned ctx dst :
    gen_reachable fuel ctx ->
    gen_reachable fuel (secp256k1_ecmult_gen_context_clone dst ctx).

Lemma gen_reachable_ok fuel ctx : gen_reachable fuel ctx -> gen_ctx_ok ctx.
Proof.
  induction 1 as [ctx ctx' Hp E|ctx ctx' _ IH E|ctx ctx' seed _ IH Hb E|ctx dst _ IH].
  - destruct fuel as [|fuel].
    { unfold secp256k1_ecmult_gen_context_build in E. rewrite Hp in E. discriminate E. }
    destruct (gen_build_spec junk hmac0 scratch Hi Ho Hs Hjunk (S fuel) ctx Hp ltac:(lia))
      as (c & E' & Ok & _). rewrite E in E'. injection E' as ->. exact Ok.
  - unfold secp256k1_ecmult_gen_context_build in E. pose proof (gc_built _ IH) as B.
    unfold secp256k1_ecmult_gen_context_is_built in B. destruct (prec ctx); [|discriminate B].
    injection E as ->. exact IH.
  - pose proof (gen_blind_spec hmac0 scratch Hi Ho Hs fuel ctx seed) as K.
    assert (HC : gen_ctx_ok (blind_base ctx seed)).
    { destruct seed; [exact IH|]. apply gen_ctx_with; [exact IH| |exact gen_reset_ok].
      apply s_set_int_ok. lia. }
    specialize (K HC Hb). cbv zeta in K.
    destruct (first_ok _ _ 0 fuel) as [k|]; [|congruence].
    destruct (first_ok _ _ (S k) fuel) as [m|]; [|congruence].
    destruct K as (c & E' & Ok & _). rewrite E in E'. injection E' as ->. exact Ok.
  - pose proof (gc_built _ IH) as B. unfold secp256k1_ecmult_gen_context_is_built in B.
    unfold secp256k1_ecmult_gen_context_clone. destruct ctx as [t b i]. cbn [prec blind initial] in *.
    destruct t; [exact IH|discriminate B].
Qed.

(** C26: multiplication of the generator. In every context a program can obtain,
    whatever the sequence of blindings, the result is a G, for every scalar a. *)
Theorem ecmult_gen_correct fuel ctx gn : gen_reachable fuel ctx -> sok gn ->
  gej_rep (secp256k1_ecmult_gen ctx gn) (smul (sval gn) G_point).
Proof. intros HC Hg. apply ecmult_gen_spec; [exact (gen_reachable_ok _ _ HC)|exact Hg]. Qed.

(** C35: the retry loops of the blinding. They end with the first outputs of the
    seeded generator that lie between 1 and p - 1 and between 1 and n - 1; the
    blinding scalar is the negation of the second. Without such outputs within
    the fuel there is no result. With the null seed the first outputs serve, so
    a context is built without a retry. *)
Theorem ecmult_gen_blind_draws fuel ctx seed ctx0 :
  gen_reachable fuel ctx -> Forall is_byte seed -> prec ctx0 = None ->
  let key := blind_key ctx (Some seed) in
  match first_ok (block_below p) key 0 fuel with
  | None => secp256k1_ecmult_gen_blind hmac0 scratch fuel ctx (Some seed) = None
  | Some k =>
    match first_ok (block_below n_order) key (S k) fuel with
    | None => secp256k1_ecmult_gen_blind hmac0 scratch fuel ctx (Some seed) = None
    | Some m => exists ctx',
        secp256k1_ecmult_gen_blind hmac0 scratch fuel ctx (Some seed) = Some ctx' /\
        gen_reachable fuel ctx' /\ prec ctx' = prec ctx /\
        sval (blind ctx') = (- be_val (drbg_block key m)) mod n_order
    end
  end /\
  exists ctx1, secp256k1_ecmult_gen_context_build junk hmac0 scratch 1 ctx0 = Some ctx1 /\
    sval (blind ctx1) = (- be_val (drbg_block (be_bytes 32 1) 1)) mod n_order.
Proof.
  intros HC Hb H0. split.
  - pose proof (gen_blind_spec hmac0 scratch Hi Ho Hs fuel ctx (Some seed)
      (gen_reachable_ok _ _ HC) Hb) as K. cbv zeta in K |- *.
    destruct (first_ok _ _ 0 fuel) as [k|]; [|exact K].
    destruct (first_ok _ _ (S k) fuel) as [m|]; [|exact K].
    destruct K as (c & E & _ & P & V). exists c. split; [exact E|].
    split; [exact (gen_blinded fuel ctx c (Some seed) HC Hb E)|exact (conj P V)].
  - destruct (gen_build_spec junk hmac0 scratch Hi Ho Hs Hjunk 1 ctx0 H0 ltac:(lia))
      as (c & E & _ & V). exists c. exact (conj E V).
Qed.
End EcmultProperties.

(** ** Witnesses *)

#[local] Existing Instance field_5x52.
#[local] Existing Instance scalar_4x64.

Definition zero_gej : secp256k1_gej :=
  Gej (fe_set_int 0) (fe_set_int 0) (fe_set_int 0) false.

Lemma zero_gej_mags : gej_mags zero_gej.
Proof.
  destruct (fev_set_int 0 eq_refl) as [M _].
  pose proof (fmag_le _ 1 8 M ltac:(lia)) as M8. exact (conj M8 (conj M8 M8)).
Qed.

Lemma ecmult_correct_witness :
  let ctx := secp256k1_ecmult_context_build zero_gej secp256k1_ecmult_context_init in
  gej_rep (secp256k1_ecmult zero_gej ctx zero_gej
      (secp256k1_gej_set_ge secp256k1_ge_const_g) (s_set_int 3) (s_set_int 5))
    (padd (smul (sval (s_set_int 3)) G_point) (smul (sval (s_set_int 5)) G_point)).
Proof.
  apply (ecmult_correct zero_gej zero_gej_mags).
  - apply context_build_ok, zero_gej_mags.
  - apply s_set_int_ok. lia.
  - apply s_set_int_ok. lia.
  - discriminate.
  - apply set_ge_rep, const_g_rep.
Defined.

Lemma ecmult_context_lifecycle_witness :
  let ctx := secp256k1_ecmult_context_build zero_gej secp256k1_ecmult_context_init in
  secp256k1_ecmult_context_is_built secp256k1_ecmult_context_init = false /\
  ctx_ok ctx /\ secp256k1_ecmult_context_build zero_gej ctx = ctx /\
  ctx_ok (secp256k1_ecmult_context_clone ctx) /\
  secp256k1_ecmult_context_is_built (secp256k1_ecmult_context_clear ctx) = false.
Proof. exact (ecmult_context_lifecycle zero_gej zero_gej_mags). Defined.

Lemma ecmult_wnaf_correct_witness :
  let '(l, bits) := secp256k1_ecmult_wnaf 130 (s_set_int 77) 5 in
  wsum l = wnaf_value (s_set_int 77) /\ length l = Z.to_nat 130 /\ Forall (wnaf_digit 5) l /\
  0 <= bits <= 130 /\ forall i, bits <= i -> nth (Z.to_nat i) l 0 = 0.
Proof.
  apply (ecmult_wnaf_correct 130 (s_set_int 77) 5); try lia; [apply s_set_int_ok; lia|].
  vm_compute. reflexivity.
Defined.

(** A context as allocated. *)
Definition blank_gen_ctx : secp256k1_ecmult_gen_context :=
  EcmultGenContext None (s_set_int 0) zero_gej.

Lemma blank_gen_built : exists ctx,
  secp256k1_ecmult_gen_context_build zero_gej blank_hmac blank_sha 1 blank_gen_ctx = Some ctx /\
  gen_reachable zero_gej blank_hmac blank_sha 1 ctx.
Proof.
  destruct (gen_build_spec zero_gej blank_hmac blank_sha blank_ok blank_ok blank_ok zero_gej_mags
    1 blank_gen_ctx eq_refl ltac:(lia)) as (c & E & _ & _).
  exists c. split; [exact E|]. exact (gen_built _ _ _ _ blank_gen_ctx c eq_refl E).
Qed.

Lemma ecmult_gen_correct_witness : exists ctx,
  secp256k1_ecmult_gen_context_build zero_gej blank_hmac blank_sha 1 blank_gen_ctx = Some ctx /\
  gej_rep (secp256k1_ecmult_gen ctx (s_set_int 7)) (smul (sval (s_set_int 7)) G_point).
Proof.
  destruct blank_gen_built as (c & E & R). exists c. split; [exact E|].
  apply (ecmult_gen_correct zero_gej zero_gej_mags blank_hmac blank_sha blank_ok blank_ok blank_ok 1);
    [exact R|apply s_set_int_ok; lia].
Defined.

Lemma ecmult_gen_blind_draws_witness : exists ctx,
  let key := blind_key ctx (Some [1; 2; 3]) in
  match first_ok (block_below p) key 0 1 with
  | None => secp256k1_ecmult_gen_blind blank_hmac blank_sha 1 ctx (Some [1; 2; 3]) = None
  | Some k =>
    match first_ok (block_below n_order) key (S k) 1 with
    | None => secp256k1_ecmult_gen_blind blank_hmac blank_sha 1 ctx (Some [1; 2; 3]) = None
    | Some m => exists ctx',
        secp256k1_ecmult_gen_blind blank_hmac blank_sha 1 ctx (Some [1; 2; 3]) = Some ctx' /\
        gen_reachable zero_gej blank_hmac blank_sha 1 ctx' /\ prec ctx' = prec ctx /\
        sval (blind ctx') = (- be_val (drbg_block key m)) mod n_order
    end
  end.
Proof.
  destruct blank_gen_built as (c & E & R). exists c.
  apply (ecmult_gen_blind_draws zero_gej zero_gej_mags blank_hmac blank_sha blank_ok blank_ok blank_ok
    1 c [1; 2; 3] blank_gen_ctx R); [|reflexivity].
  repeat (constructor; [unfold is_byte; lia|]). constructor.
Defined.
