(* ===== verification/Ecdsa.v ===== *)
(** * ecdsa_impl.h: signing and verification *)
From S2P Require Import Prelude Primes FieldSpec Field ScalarSpec Scalar Sha256Spec Hash.
From S2P Require Import CurveSpec CurveGroup CurveOrder CurveCount Group Ecmult EcmultGen.

(** ** ECDSA (SEC 1, 4.1) *)

(** r and s are in range and the abscissa of (m/s) G + (r/s) Q is r modulo n. *)
Definition ecdsa_valid (r s m : Z) (Q : point) : Prop :=
  0 < r < n_order /\ 0 < s < n_order /\
  exists w x y, w * s =[n_order]= 1 /\
    padd (smul (m * w) G_point) (smul (r * w) Q) = Aff x y /\ x mod n_order = r.

Section Ecdsa.
Context {F : FieldImpl} {SI : ScalarImpl} (junk : secp256k1_gej).

Definition secp256k1_ecdsa_const_order_as_fe : fe := fe_const
  0xFFFFFFFF 0xFFFFFFFF 0xFFFFFFFF 0xFFFFFFFE 0xBAAEDCE6 0xAF48A03B 0xBFD25E8C 0xD0364141.

Definition secp256k1_ecdsa_const_p_minus_order : fe := fe_const
  0 0 0 1 0x45512319 0x50B75FC4 0x402DA172 0x2FC9BAEE.

Definition secp256k1_ecdsa_sig_verify (ctx : secp256k1_ecmult_context) (sigr sigs : scalar)
    (pubkey : secp256k1_ge) (message : scalar) : bool :=
  if s_is_zero sigr || s_is_zero sigs then false else
  let sn := secp256k1_scalar_inverse_var sigs in
  let u1 := s_mul sn message in
  let u2 := s_mul sn sigr in
  let pubkeyj := secp256k1_gej_set_ge pubkey in
  let pr := secp256k1_ecmult junk ctx junk pubkeyj u2 u1 in
  if secp256k1_gej_is_infinity pr then false else
  let c := s_get_b32 sigr in
  let '(xr, _) := fe_set_b32 c in
  if secp256k1_gej_eq_x_var xr pr then true else
  if 0 <=? fe_cmp_var xr secp256k1_ecdsa_const_p_minus_order then false else
  let xr := fe_add xr secp256k1_ecdsa_const_order_as_fe in
  if secp256k1_gej_eq_x_var xr pr then true else
  false.

(** sigr, sigs, *recid and the return value. *)
Definition secp256k1_ecdsa_sig_sign (ctx : secp256k1_ecmult_gen_context)
    (seckey message nonce : scalar) : scalar * scalar * Z * bool :=
  let rp := secp256k1_ecmult_gen ctx nonce in
  let '(r, rp) := secp256k1_ge_set_gej rp in
  let rx := fe_normalize (gx r) in
  let ry := fe_normalize (gy r) in
  let b := fe_get_b32 rx in
  let '(sigr, overflow) := s_set_b32 b in
  let recid := (if overflow then 2 else 0) .| (if fe_is_odd ry then 1 else 0) in
  let n := s_mul sigr seckey in
  let '(n, _) := s_add n message in
  let sigs := secp256k1_scalar_inverse nonce in
  let sigs := s_mul sigs n in
  if s_is_zero sigs then (sigr, sigs, recid, false) else
  if s_is_high sigs then (sigr, s_negate sigs, recid .^ 1, true)
  else (sigr, sigs, recid, true).

(** * Theorems

    ** Constants and coordinates *)

Lemma order_as_fe_ok : fnorm secp256k1_ecdsa_const_order_as_fe /\
  fval secp256k1_ecdsa_const_order_as_fe = n_order.
Proof.
  destruct (fe_const_ok 0xFFFFFFFF 0xFFFFFFFF 0xFFFFFFFF 0xFFFFFFFE 0xBAAEDCE6 0xAF48A03B
    0xBFD25E8C 0xD0364141) as [N V].
  - repeat (constructor; [lia|]). constructor.
  - vm_compute. reflexivity.
  - split; [exact N|]. unfold secp256k1_ecdsa_const_order_as_fe. rewrite V. reflexivity.
Qed.

Lemma p_minus_order_ok : fnorm secp256k1_ecdsa_const_p_minus_order /\
  fval secp256k1_ecdsa_const_p_minus_order = p - n_order.
Proof.
  destruct (fe_const_ok 0 0 0 1 0x45512319 0x50B75FC4 0x402DA172 0x2FC9BAEE) as [N V].
  - repeat (constructor; [lia|]). constructor.
  - vm_compute. reflexivity.
  - split; [exact N|]. unfold secp256k1_ecdsa_const_p_minus_order. rewrite V. reflexivity.
Qed.

(** Comparison of an abscissa without inversion. *)
Lemma eq_x_rep x a X Y : fmag x 8 -> gej_rep a (Aff X Y) ->
  secp256k1_gej_eq_x_var x a = (fval x mod p =? X).
Proof.
  intros Mx Ha. rewrite (eq_x_spec x a Mx (proj1 Ha)).
  destruct (rep_finite _ _ _ Ha) as (Hc & _ & Hz & Kx & _ & _). pose proof (proj2 Kx) as Vx.
  assert (Hzz : (fval (jz a) * fval (jz a)) mod p <> 0) by now apply mul_nonzero.
  apply Bool.eq_iff_eq_true. rewrite !Z.eqb_eq, <- cong_iff, Vx. split.
  - intros E. rewrite <- (Z.mod_small X p) by apply Hc. apply cong_iff.
    apply (cancel_l _ _ _ Hzz). rewrite E. apply cong_eq. ring.
  - intros E. rewrite <- E, cong_mod. apply cong_eq. ring.
Qed.

Lemma coord_norm a m x : fev a m x -> (m <=? 31) = true -> in_fp x ->
  fnorm (fe_normalize a) /\ fval (fe_normalize a) = x.
Proof.
  intros [M V] Hm Hx. destruct (fe_normalize_ok a) as [N E].
  { apply (fmag_le _ m); [exact M|now apply Z.leb_le]. }
  split; [exact N|]. rewrite E. apply cong_iff in V. rewrite V. now apply Z.mod_small.
Qed.

(** A scalar read as a field element. *)
Lemma scalar_as_fe a : sok a -> let x := fst (fe_set_b32 (s_get_b32 a)) in
  fnorm x /\ fval x = sval a.
Proof.
  intros Ha. rewrite s_get_b32_ok by exact Ha. pose proof (sok_range a Ha) as R.
  destruct (fe_set_b32_ok (be_bytes 32 (sval a)) (be_bytes_byte _ _) (length_be_bytes _ _))
    as (_ & V & _ & N).
  rewrite be_val_bytes, (Z.mod_small (sval a)) in V, N by (unfold n_order in R; change (256 ^ Z.of_nat 32) with (2 ^ 256); lia).
  split; [apply N; unfold n_order, p in *; lia|exact V].
Qed.

(** A field element read as a scalar. *)
Lemma fe_as_scalar x : fnorm x -> let '(a, overflow) := s_set_b32 (fe_get_b32 x) in
  sok a /\ sval a = fval x mod n_order /\ overflow = (n_order <=? fval x).
Proof.
  intros Hx. rewrite fe_get_b32_ok by exact Hx. pose proof (fnorm_range x Hx) as R.
  pose proof (s_set_b32_ok (be_bytes 32 (fval x)) (be_bytes_byte _ _) (length_be_bytes _ _)) as H.
  rewrite be_val_bytes, (Z.mod_small (fval x)) in H by (unfold p in R; change (256 ^ Z.of_nat 32) with (2 ^ 256); lia).
  exact H.
Qed.

(** An abscissa below p reduces to r modulo n in two cases only. *)
Lemma x_mod_n x r : in_fp x -> 0 <= r < n_order ->
  x mod n_order = r <-> x = r \/ (r < p - n_order /\ x = r + n_order).
Proof.
  unfold in_fp. intros Hx Hr. split.
  - intros E. destruct (Z.lt_ge_cases x n_order) as [L|L].
    + left. now rewrite Z.mod_small in E by lia.
    + right. assert (Hp : p < 2 * n_order) by reflexivity.
      rewrite <- (Z.mod_unique x n_order 1 (x - n_order)) in E by lia. lia.
  - intros [->|[L ->]]; [now apply Z.mod_small|].
    symmetry. apply (Z.mod_unique _ _ 1); lia.
Qed.

(** ** Verification *)

Lemma inverse_mod s : sok s -> sval s <> 0 ->
  let w := secp256k1_scalar_inverse_var s in sok w /\ sval w * sval s =[n_order]= 1.
Proof.
  intros Hs Hn. cbv zeta. destruct (inverse_spec s Hs) as (Ok & E & _).
  split; [exact Ok|]. rewrite Z.mul_comm. exact (E Hn).
Qed.

(** Two inverses of s agree modulo n. *)
Lemma scalar_inverse_unique w w' s : w * s =[n_order]= 1 -> w' * s =[n_order]= 1 -> w =[n_order]= w'.
Proof.
  intros H H'. transitivity (w * (w' * s)).
  - rewrite H'. apply cong_eq. ring.
  - transitivity (w' * (w * s)); [apply cong_eq; ring|]. rewrite H. apply cong_eq. ring.
Qed.

Lemma smul_mod_point k j P : on_curve P -> k =[n_order]= j -> smul k P = smul j P.
Proof.
  intros HP E. destruct (all_multiples P HP) as (c & _ & ->). rewrite !smul_smul by oc.
  apply smul_cong. rewrite E. reflexivity.
Qed.

(** The comparison at the end of the verification. *)
Lemma verify_compare sigr pr X Y : sok sigr -> gej_rep pr (Aff X Y) ->
  (let '(xr, _) := fe_set_b32 (s_get_b32 sigr) in
   if secp256k1_gej_eq_x_var xr pr then true else
   if 0 <=? fe_cmp_var xr secp256k1_ecdsa_const_p_minus_order then false else
   let xr := fe_add xr secp256k1_ecdsa_const_order_as_fe in
   if secp256k1_gej_eq_x_var xr pr then true else false) = (X mod n_order =? sval sigr).
Proof.
  intros Hr Hp. destruct (scalar_as_fe sigr Hr) as [N V].
  destruct (fe_set_b32 (s_get_b32 sigr)) as [xr ok]. cbn [fst] in N, V.
  destruct order_as_fe_ok as [No Vo]. destruct p_minus_order_ok as [Np Vp].
  pose proof (sok_range _ Hr) as R. pose proof (proj1 (proj2 Hp)) as Hc.
  assert (Pn : n_order < p) by reflexivity.
  destruct (fe_add_ok _ _ 1 1 (fnorm_mag _ N) (fnorm_mag _ No) ltac:(lia)) as [Ma Va].
  rewrite !(eq_x_rep _ _ _ _ (fmag_le _ _ 8 (fnorm_mag _ N) ltac:(lia)) Hp).
  cbv zeta. rewrite !(eq_x_rep _ _ _ _ (fmag_le _ _ 8 Ma ltac:(lia)) Hp).
  rewrite (fe_cmp_var_ok _ _ N Np), Vp, Va, Vo, V.
  rewrite (Z.mod_small (sval sigr)) by lia.
  apply Bool.eq_iff_eq_true. rewrite Z.eqb_eq, (x_mod_n X (sval sigr) (proj1 Hc) R).
  destruct (Z.eqb_spec (sval sigr) X) as [->|Hne]; [tauto|].
  destruct (Z.compare_spec (sval sigr) (p - n_order)) as [E|E|E]; cbn [Z.leb Z.compare].
  - split; [discriminate|]. intros [->|[L _]]; [congruence|lia].
  - rewrite Z.mod_small by lia. destruct (Z.eqb_spec (sval sigr + n_order) X) as [<-|Hx].
    + split; [|reflexivity]. intros _. right. split; [exact E|reflexivity].
    + split; [discriminate|]. intros [->|[_ ->]]; congruence.
  - split; [discriminate|]. intros [->|[L _]]; [congruence|lia].
Qed.

Context (Hjunk : gej_mags junk).

Lemma sig_verify_spec ctx sigr sigs pubkey message Q : ctx_ok ctx -> sok sigr -> sok sigs ->
  sok message -> ge_rep pubkey Q -> Q <> Inf ->
  secp256k1_ecdsa_sig_verify ctx sigr sigs pubkey message = true <->
  ecdsa_valid (sval sigr) (sval sigs) (sval message) Q.
Proof.
  intros Hctx Hr Hs Hm HQ Qf. unfold secp256k1_ecdsa_sig_verify.
  rewrite s_is_zero_ok, s_is_zero_ok by assumption.
  pose proof (sok_range _ Hr) as Rr. pose proof (sok_range _ Hs) as Rs.
  destruct (Z.eqb_spec (sval sigr) 0) as [Zr|Zr];
    [split; [discriminate|intros (H & _); lia]|].
  destruct (Z.eqb_spec (sval sigs) 0) as [Zs|Zs];
    [split; [discriminate|intros (_ & H & _); lia]|].
  cbn [orb]. cbv zeta. destruct (inverse_mod sigs Hs Zs) as [Ow Ew].
  set (sn := secp256k1_scalar_inverse_var sigs) in *.
  destruct (s_mul_ok sn message Ow Hm) as [O1 V1]. destruct (s_mul_ok sn sigr Ow Hr) as [O2 V2].
  pose proof (ecmult_point junk ctx junk _ _ _ Q Hjunk Hctx O2 O1 Qf (set_ge_rep _ _ HQ)) as K.
  set (pr := secp256k1_ecmult _ _ _ _ _ _) in *. rewrite V1, V2 in K.
  assert (E : padd (smul ((sval sn * sval sigr) mod n_order) Q)
      (smul ((sval sn * sval message) mod n_order) G_point)
    = padd (smul (sval message * sval sn) G_point) (smul (sval sigr * sval sn) Q)).
  { pose proof (proj1 (proj2 HQ)) as HC. rewrite padd_comm by oc. f_equal.
    - apply smul_cong. rewrite cong_mod. apply cong_eq. ring.
    - apply smul_mod_point; [exact HC|]. rewrite cong_mod. apply cong_eq. ring. }
  rewrite E in K. clear E.
  assert (Hv : ecdsa_valid (sval sigr) (sval sigs) (sval message) Q <-> exists x y,
    padd (smul (sval message * sval sn) G_point) (smul (sval sigr * sval sn) Q) = Aff x y /\
    x mod n_order = sval sigr).
  { split.
    - intros (_ & _ & w & x & y & W & P & X). exists x, y. split; [|exact X]. rewrite <- P.
      pose proof (scalar_inverse_unique _ _ _ W Ew) as U. pose proof (proj1 (proj2 HQ)) as HC.
      f_equal; [apply smul_cong|apply smul_mod_point; [exact HC|]]; now rewrite U.
    - intros (x & y & P & X). split; [lia|]. split; [lia|]. exists (sval sn), x, y. now split. }
  rewrite Hv. clear Hv. unfold secp256k1_gej_is_infinity.
  destruct (padd _ _) as [|X Y].
  - rewrite (proj2 (proj2 K) : jinf pr = true). split; [discriminate|]. intros (x & y & H & _). discriminate H.
  - destruct (rep_finite _ _ _ K) as (_ & -> & _).
    pose proof (verify_compare _ _ _ _ Hr K) as C. cbv zeta in C. rewrite C, Z.eqb_eq.
    split; [intros H; exists X, Y; now split|]. intros (x & y & H & X'). injection H as -> ->. exact X'.
Qed.

(** ** Signing *)

(** The normalised coordinates of an affine result. *)
Lemma set_gej_coords a x y : gej_rep a (Aff x y) -> let g := fst (secp256k1_ge_set_gej a) in
  (fnorm (fe_normalize (gx g)) /\ fval (fe_normalize (gx g)) = x) /\
  (fnorm (fe_normalize (gy g)) /\ fval (fe_normalize (gy g)) = y).
Proof.
  intros Ha. cbv zeta. destruct (set_gej_rep a _ Ha) as [K _].
  destruct (ge_finite _ _ _ K) as (Hc & _ & Kx & Ky).
  split; [apply (coord_norm _ 8); [exact Kx|reflexivity|apply Hc]|].
  apply (coord_norm _ 8); [exact Ky|reflexivity|apply Hc].
Qed.

Definition recid_of (x : Z) (odd : bool) : Z := (if n_order <=? x then 2 else 0) + b2z odd.

Lemma recid_or (o odd : bool) :
  (if o then 2 else 0) .| (if odd then 1 else 0) = (if o then 2 else 0) + b2z odd.
Proof. now destruct o, odd. Qed.

Lemma recid_flip (o odd : bool) :
  ((if o then 2 else 0) + b2z odd) .^ 1 = (if o then 2 else 0) + b2z (negb odd).
Proof. now destruct o, odd. Qed.

(** The s of a signature: the sign is chosen to make it low. *)
Definition sign_eq (s k e : Z) (flip : bool) : Prop :=
  s * k =[n_order]= (if flip then - e else e).

(** With an invertible k, s k = e vanishes together with s. *)
Lemma quotient_zero s k w e : 0 <= s < n_order -> s * k =[n_order]= e -> w * k =[n_order]= 1 ->
  s = 0 <-> e mod n_order = 0.
Proof.
  intros Rs Es Ew. assert (C : e mod n_order = 0 <-> e =[n_order]= 0) by (symmetry; apply cong_iff).
  rewrite C. split; intros E0.
  - rewrite <- Es, E0. apply cong_eq. ring.
  - apply (cong_small n_order); [|exact Rs|unfold n_order; lia].
    transitivity (s * (w * k)); [rewrite Ew; apply cong_eq; ring|].
    transitivity (s * k * w); [apply cong_eq; ring|]. rewrite Es, E0. apply cong_eq. ring.
Qed.

Lemma sig_sign_spec ctx seckey message nonce : gen_ctx_ok ctx -> sok seckey -> sok message ->
  sok nonce -> sval nonce <> 0 ->
  let '(r, s, recid, ret) := secp256k1_ecdsa_sig_sign ctx seckey message nonce in
  let e := sval r * sval seckey + sval message in
  sok r /\ sok s /\
  exists x y, smul (sval nonce) G_point = Aff x y /\ sval r = x mod n_order /\
  if e mod n_order =? 0 then ret = false else
    ret = true /\ 0 < sval s <= n_order / 2 /\ exists flip,
      sign_eq (sval s) (sval nonce) e flip /\ recid = recid_of x (xorb (Z.odd y) flip).
Proof.
  intros HC Hd Hm Hk Nk. unfold secp256k1_ecdsa_sig_sign.
  pose proof (ecmult_gen_spec ctx nonce HC Hk) as K.
  assert (Fin : smul (sval nonce) G_point <> Inf).
  { apply finite_multiplier. pose proof (sok_range _ Hk). rewrite Z.mod_small; assumption. }
  destruct (smul (sval nonce) G_point) as [|x y] eqn:EP; [contradiction|]. clear Fin.
  destruct (set_gej_coords _ _ _ K) as [[Nx Vx] [Ny Vy]].
  destruct (secp256k1_ge_set_gej _) as [g gj]. cbn [fst] in *. cbv zeta.
  pose proof (fe_as_scalar _ Nx) as R. destruct (s_set_b32 _) as [sigr ov].
  destruct R as (Or & Vr & Eov). rewrite Vx in Vr, Eov.
  rewrite (fe_is_odd_ok _ Ny), Vy, recid_or, Eov.
  destruct (s_mul_ok sigr seckey Or Hd) as [O1 V1].
  pose proof (s_add_ok _ _ O1 Hm) as A. destruct (s_add (s_mul sigr seckey) message) as [n o].
  destruct A as (On & Vn & _). destruct (inverse_mod nonce Hk Nk) as [Ow Ew].
  change (secp256k1_scalar_inverse_var nonce) with (secp256k1_scalar_inverse nonce) in Ow, Ew.
  set (w := secp256k1_scalar_inverse nonce) in *. clearbody w.
  destruct (s_mul_ok w n Ow On) as [Os Vs].
  set (e := sval sigr * sval seckey + sval message).
  assert (En : sval n =[n_order]= e) by (rewrite Vn, V1, !cong_mod; reflexivity).
  assert (Es : sval (s_mul w n) * sval nonce =[n_order]= e).
  { rewrite Vs, cong_mod, En. transitivity (sval w * sval nonce * e); [apply cong_eq; ring|].
    rewrite Ew. apply cong_eq. ring. }
  pose proof (sok_range _ Os) as Rs. clear Vs En Vn V1.
  pose proof (quotient_zero _ _ _ e Rs Es Ew) as Z0.
  rewrite (s_is_zero_ok _ Os), (s_is_high_ok _ Os).
  destruct (Z.eqb_spec (sval (s_mul w n)) 0) as [E0|N0].
  - cbv zeta. fold e. split; [exact Or|]. split; [exact Os|]. exists x, y. split; [reflexivity|]. split; [exact Vr|].
    rewrite (proj2 (Z.eqb_eq _ _) (proj1 Z0 E0)). reflexivity.
  - assert (Ne : (e mod n_order =? 0) = false) by (apply Z.eqb_neq; intros E0; apply N0, Z0, E0).
    destruct (Z.ltb_spec (n_order / 2) (sval (s_mul w n))) as [Hh|Hl].
    + destruct (s_negate_ok _ Os) as [Og Vg]. cbv zeta. fold e. split; [exact Or|]. split; [exact Og|].
      exists x, y. split; [reflexivity|]. split; [exact Vr|]. rewrite Ne. split; [reflexivity|].
      assert (Vg' : sval (s_negate (s_mul w n)) = n_order - sval (s_mul w n)).
      { rewrite Vg, neg_mod by exact Rs. now rewrite (proj2 (Z.eqb_neq _ _) N0). }
      assert (Hn2 : n_order = 2 * (n_order / 2) + 1) by reflexivity.
      split; [rewrite Vg'; lia|]. exists true. split.
      * unfold sign_eq. rewrite Vg, cong_mod, <- Es. apply cong_eq. ring.
      * rewrite recid_flip, xorb_true_r. reflexivity.
    + cbv zeta. fold e. split; [exact Or|]. split; [exact Os|]. exists x, y. split; [reflexivity|]. split; [exact Vr|].
      rewrite Ne. split; [reflexivity|]. split; [lia|]. exists false.
      split; [exact Es|]. now rewrite xorb_false_r.
Qed.

(** ** Signatures verify *)

Lemma inv_exists s : s mod n_order <> 0 -> exists w, w * s =[n_order]= 1.
Proof.
  intros H. exists (s ^ (n_order - 2)). replace (s ^ (n_order - 2) * s) with (s ^ (n_order - 1)).
  - apply cong_iff, (ZmodInv.Z.fermat_nz n_order s prime_n H).
  - replace (n_order - 1) with (n_order - 2 + 1) by ring.
    rewrite Z.pow_add_r, Z.pow_1_r by (unfold n_order; lia). reflexivity.
Qed.

(** The nonce point or its opposite. *)
Lemma signed_point k x y (flip : bool) : smul k G_point = Aff x y ->
  smul (if flip then - k else k) G_point = Aff x (if flip then (- y) mod p else y).
Proof. intros E. destruct flip; [rewrite smul_opp, E by oc; reflexivity|exact E]. Qed.

Lemma sign_eq_point s k e w flip : sign_eq s k e flip -> w * s =[n_order]= 1 ->
  w * e =[n_order]= (if flip then - k else k).
Proof.
  unfold sign_eq. intros E W. destruct flip.
  - transitivity (- (w * - e)); [apply cong_eq; ring|]. rewrite <- E.
    transitivity (- (w * s * k)); [apply cong_eq; ring|]. rewrite W. apply cong_eq. ring.
  - rewrite <- E. transitivity (w * s * k); [apply cong_eq; ring|]. rewrite W. apply cong_eq. ring.
Qed.

Lemma signature_valid d k m r s x y flip : smul k G_point = Aff x y -> r = x mod n_order ->
  r <> 0 -> 0 < s < n_order -> sign_eq s k (r * d + m) flip ->
  ecdsa_valid r s m (smul d G_point).
Proof.
  intros EP Er Nr Rs E. pose proof (Z.mod_pos_bound x n_order eq_refl) as Rr.
  split; [lia|]. split; [exact Rs|].
  destruct (inv_exists s) as [w W]; [rewrite Z.mod_small; lia|].
  exists w, x, (if flip then (- y) mod p else y). split; [exact W|]. split; [|now symmetry].
  rewrite smul_smul, <- smul_add by oc. rewrite <- (signed_point _ _ _ flip EP). apply smul_cong.
  rewrite <- (sign_eq_point _ _ _ _ _ E W). apply cong_eq. ring.
Qed.

(** r = 0 needs a nonce point whose abscissa is 0 or n. *)
Lemma sig_sign_verify gctx ctx seckey message nonce pubkey : gen_ctx_ok gctx -> ctx_ok ctx ->
  sok seckey -> sok message -> sok nonce -> sval nonce <> 0 -> sval seckey <> 0 ->
  ge_rep pubkey (smul (sval seckey) G_point) ->
  let '(r, s, recid, ret) := secp256k1_ecdsa_sig_sign gctx seckey message nonce in
  ret = true -> sval r <> 0 ->
  secp256k1_ecdsa_sig_verify ctx r s pubkey message = true /\ s_is_high s = false.
Proof.
  intros HG HC Hd Hm Hk Nk Nd HQ.
  pose proof (sig_sign_spec gctx seckey message nonce HG Hd Hm Hk Nk) as S.
  destruct (secp256k1_ecdsa_sig_sign _ _ _ _) as [[[r s] recid] ret].
  destruct S as (Or & Os & x & y & EP & Er & S). intros -> Nr.
  destruct (_ =? 0); [discriminate|]. destruct S as (_ & Rs & flip & E & _).
  assert (Hn2 : n_order = 2 * (n_order / 2) + 1) by reflexivity.
  assert (Rs' : 0 < sval s < n_order) by lia. split.
  - apply (sig_verify_spec ctx r s pubkey message _ HC Or Os Hm HQ).
    + apply finite_multiplier. pose proof (sok_range _ Hd). rewrite Z.mod_small; assumption.
    + apply (signature_valid _ _ _ _ _ _ _ _ EP Er Nr Rs' E).
  - rewrite s_is_high_ok by exact Os. apply Z.ltb_ge. lia.
Qed.
End Ecdsa.
