(* ===== verification/Eckey.v ===== *)
(** * eckey_impl.h: public key encodings and key tweaks *)
From S2P Require Import Prelude Primes FieldSpec Field ScalarSpec Scalar.
From S2P Require Import CurveSpec CurveGroup CurveOrder CurveCount Group Ecmult Ecdsa.

(** ** Encodings of points (SEC 1, 2.3.3, and the hybrid form) *)

Definition compressed (x y : Z) : bytes := (2 + b2z (Z.odd y)) :: be_bytes 32 x.

Definition uncompressed (x y : Z) : bytes := 4 :: be_bytes 32 x ++ be_bytes 32 y.

Definition hybrid (x y : Z) : bytes := (6 + b2z (Z.odd y)) :: be_bytes 32 x ++ be_bytes 32 y.

(** The octets [pub] encode the point [P]. *)
Definition pubkey_encodes (pub : bytes) (P : point) : Prop :=
  match P with
  | Inf => False
  | Aff x y => on_curve P /\ (pub = compressed x y \/ pub = uncompressed x y \/ pub = hybrid x y)
  end.

Section Eckey.
Context {F : FieldImpl} {SI : ScalarImpl} (junk : secp256k1_gej).

(** *elem and the return value; [elem] is the content of *elem before the
    call, and the size is the length of [pub]. *)
Definition secp256k1_eckey_pubkey_parse (elem : secp256k1_ge) (pub : bytes)
    : secp256k1_ge * bool :=
  let size := length pub in
  let pub0 := nth 0 pub 0 in
  if Nat.eqb size 33 && ((pub0 =? 0x02) || (pub0 =? 0x03)) then
    let '(x, ok) := fe_set_b32 (slice pub 1 32) in
    if ok then secp256k1_ge_set_xo_var x (pub0 =? 0x03) else (elem, false)
  else if Nat.eqb size 65 && ((pub0 =? 0x04) || (pub0 =? 0x06) || (pub0 =? 0x07)) then
    let '(x, okx) := fe_set_b32 (slice pub 1 32) in
    if negb okx then (elem, false) else
    let '(y, oky) := fe_set_b32 (slice pub 33 32) in
    if negb oky then (elem, false) else
    let elem := secp256k1_ge_set_xy x y in
    if ((pub0 =? 0x06) || (pub0 =? 0x07)) && negb (Bool.eqb (fe_is_odd y) (pub0 =? 0x07))
    then (elem, false) else
    (elem, secp256k1_ge_is_valid_var elem)
  else (elem, false).

(** *elem, and the octets written when the call succeeds. *)
Definition secp256k1_eckey_pubkey_serialize (elem : secp256k1_ge) (compressed : bool)
    : secp256k1_ge * option bytes :=
  if secp256k1_ge_is_infinity elem then (elem, None) else
  let x := fe_normalize_var (gx elem) in
  let y := fe_normalize_var (gy elem) in
  let elem := Ge x y (ginf elem) in
  let pub1 := fe_get_b32 x in
  if compressed then (elem, Some ((0x02 .| (if fe_is_odd y then 0x01 else 0x00)) :: pub1))
  else (elem, Some (0x04 :: pub1 ++ fe_get_b32 y)).

Definition secp256k1_eckey_privkey_tweak_add (key tweak : scalar) : scalar * bool :=
  let '(key, _) := s_add key tweak in
  if s_is_zero key then (key, false) else (key, true).

Definition secp256k1_eckey_pubkey_tweak_add (ctx : secp256k1_ecmult_context)
    (key : secp256k1_ge) (tweak : scalar) : secp256k1_ge * bool :=
  let pt := secp256k1_gej_set_ge key in
  let one := s_set_int 1 in
  let pt := secp256k1_ecmult junk ctx pt pt one tweak in
  if secp256k1_gej_is_infinity pt then (key, false) else
  let '(key, _) := secp256k1_ge_set_gej pt in
  (key, true).

Definition secp256k1_eckey_privkey_tweak_mul (key tweak : scalar) : scalar * bool :=
  if s_is_zero tweak then (key, false) else (s_mul key tweak, true).

Definition secp256k1_eckey_pubkey_tweak_mul (ctx : secp256k1_ecmult_context)
    (key : secp256k1_ge) (tweak : scalar) : secp256k1_ge * bool :=
  if s_is_zero tweak then (key, false) else
  let zero := s_set_int 0 in
  let pt := secp256k1_gej_set_ge key in
  let pt := secp256k1_ecmult junk ctx pt pt tweak zero in
  let '(key, _) := secp256k1_ge_set_gej pt in
  (key, true).

(** * Theorems

    ** Parsing *)

Lemma slice_byte (l : bytes) off len : Forall is_byte l -> Forall is_byte (slice l off len).
Proof. intros H. now apply Forall_firstn, Forall_skipn. Qed.

Lemma length_slice (l : bytes) off len : (off + len <= length l)%nat -> length (slice l off len) = len.
Proof. intros H. unfold slice. rewrite length_firstn, length_skipn. lia. Qed.

(** A 32-byte field is the encoding of its value. *)
Lemma be_bytes_be_val (l : bytes) : Forall is_byte l -> length l = 32%nat -> be_bytes 32 (be_val l) = l.
Proof. intros H L. rewrite <- L. now apply be_bytes_val. Qed.

Lemma set_b32_32 l : Forall is_byte l -> length l = 32%nat ->
  let '(x, ok) := fe_set_b32 l in
  ok = (be_val l <? p) /\ fmag x 1 /\ fval x = be_val l /\ (ok = true -> fnorm x /\ in_fp (be_val l)).
Proof.
  intros HB HL. destruct (fe_set_b32_ok l HB HL) as (E & V & M & N).
  destruct (fe_set_b32 l) as [x ok]. cbn [fst snd] in *. split; [exact E|]. split; [exact M|].
  split; [exact V|]. intros H. rewrite H in E. symmetry in E. apply Z.ltb_lt in E.
  split; [now apply N|]. split; [apply be_val_range, HB|exact E].
Qed.

Lemma split_pub33 (pub : bytes) : length pub = 33%nat -> pub = nth 0 pub 0 :: slice pub 1 32.
Proof.
  intros H. destruct pub as [|b l]; [discriminate|]. cbn [nth]. f_equal. unfold slice. cbn [skipn].
  injection H as H. symmetry. rewrite <- H. apply firstn_all.
Qed.

Lemma split_pub65 (pub : bytes) : length pub = 65%nat ->
  pub = nth 0 pub 0 :: slice pub 1 32 ++ slice pub 33 32.
Proof.
  intros H. destruct pub as [|b l]; [discriminate|]. cbn [nth]. f_equal. injection H as H.
  unfold slice. change (skipn 1 (b :: l)) with l. change (skipn 33 (b :: l)) with (skipn 32 l).
  rewrite (firstn_all2 (skipn 32 l)) by (rewrite length_skipn; lia).
  symmetry. apply firstn_skipn.
Qed.

Lemma odd_point_unique x y1 y2 : on_curve (Aff x y1) -> on_curve (Aff x y2) ->
  Z.odd y1 = Z.odd y2 -> y1 = y2.
Proof.
  intros H1 H2 E. destruct (same_x x y1 y2 H1 H2) as [H|H]; [exact H|].
  pose proof (opposite_odd y1 y2 (proj1 (proj2 H1)) (proj1 (proj2 H2)) (y_nonzero _ _ H1) H) as N.
  rewrite E in N. destruct (Z.odd y2); discriminate N.
Qed.

Lemma raw_ge_rep x y X Y : on_curve (Aff X Y) -> fmag x 1 -> fval x = X -> fmag y 1 -> fval y = Y ->
  ge_rep (secp256k1_ge_set_xy x y) (Aff X Y).
Proof.
  intros HC Mx Vx My Vy. split; [exact (conj (fmag_le _ 1 8 Mx ltac:(lia)) (fmag_le _ 1 8 My ltac:(lia)))|].
  split; [exact HC|]. cbn [secp256k1_ge_set_xy gx gy ginf]. rewrite Vx, Vy.
  split; [reflexivity|]. split; reflexivity.
Qed.

Lemma parse_sound elem pub : Forall is_byte pub ->
  let r := secp256k1_eckey_pubkey_parse elem pub in
  snd r = true -> exists P, pubkey_encodes pub P /\ ge_rep (fst r) P.
Proof.
  intros HB. cbv zeta. unfold secp256k1_eckey_pubkey_parse.
  destruct (Nat.eqb_spec (length pub) 33) as [L|L]; cbn [andb].
  - destruct ((nth 0 pub 0 =? 2) || (nth 0 pub 0 =? 3)) eqn:E0.
    2: { replace (Nat.eqb (length pub) 65) with false by (rewrite L; reflexivity). discriminate. }
    pose proof (set_b32_32 (slice pub 1 32) (slice_byte _ _ _ HB) (length_slice pub 1 32 ltac:(lia))) as X.
    destruct (fe_set_b32 (slice pub 1 32)) as [x ok]. destruct X as (_ & Mx & Vx & Nx).
    destruct ok; [|discriminate]. specialize (Nx eq_refl). destruct Nx as [_ Fx].
    destruct (set_xo_spec x (nth 0 pub 0 =? 3) (fmag_le _ 1 8 Mx ltac:(lia))) as [_ S].
    intros Hok. destruct (S Hok) as (y & Ry & Oy). rewrite Vx, Z.mod_small in Ry by exact Fx.
    exists (Aff (be_val (slice pub 1 32)) y). split; [|exact Ry]. split; [apply Ry|left].
    rewrite (split_pub33 pub L) at 1. unfold compressed.
    rewrite be_bytes_be_val by (now apply slice_byte || now apply length_slice; lia). f_equal. rewrite Oy.
    apply orb_true_iff in E0 as [E0|E0]; apply Z.eqb_eq in E0; rewrite E0; reflexivity.
  - destruct (Nat.eqb_spec (length pub) 65) as [L'|L']; [|discriminate]. cbn [andb].
    destruct ((nth 0 pub 0 =? 4) || (nth 0 pub 0 =? 6) || (nth 0 pub 0 =? 7)) eqn:E0; [|discriminate].
    pose proof (set_b32_32 (slice pub 1 32) (slice_byte _ _ _ HB) (length_slice pub 1 32 ltac:(lia))) as X.
    destruct (fe_set_b32 (slice pub 1 32)) as [x okx]. destruct X as (_ & Mx & Vx & Nx).
    destruct okx; [|discriminate]. specialize (Nx eq_refl). destruct Nx as [_ Fx].
    pose proof (set_b32_32 (slice pub 33 32) (slice_byte _ _ _ HB) (length_slice pub 33 32 ltac:(lia))) as Y.
    destruct (fe_set_b32 (slice pub 33 32)) as [y oky]. destruct Y as (_ & My & Vy & Ny).
    destruct oky; [|discriminate]. specialize (Ny eq_refl). destruct Ny as [Ny Fy]. cbn [negb].
    rewrite (fe_is_odd_ok y Ny), Vy.
    destruct (((nth 0 pub 0 =? 6) || (nth 0 pub 0 =? 7)) && _) eqn:E1; [discriminate|].
    cbn [fst snd]. rewrite ge_is_valid_spec by exact (conj (fmag_le _ 1 8 Mx ltac:(lia)) (fmag_le _ 1 8 My ltac:(lia))).
    cbn [secp256k1_ge_set_xy gx gy ginf negb andb]. intros Hc. apply Z.eqb_eq, cong_iff in Hc.
    rewrite Vx, Vy in Hc. set (X := be_val (slice pub 1 32)) in *. set (Y := be_val (slice pub 33 32)) in *.
    assert (HC : on_curve (Aff X Y)) by (split; [exact Fx|split; [exact Fy|exact Hc]]).
    exists (Aff X Y). split; [|exact (raw_ge_rep x y X Y HC Mx Vx My Vy)]. split; [exact HC|right].
    rewrite (split_pub65 pub L'). unfold uncompressed, hybrid, X, Y.
    rewrite !be_bytes_be_val by (now apply slice_byte || now apply length_slice; lia). fold Y.
    cbn [nth]. destruct (Z.eqb_spec (nth 0 pub 0) 4) as [->|N4]; [now left|right]. f_equal.
    destruct (Z.eqb_spec (nth 0 pub 0) 6) as [->|N6].
    + cbn [Z.eqb Pos.eqb orb andb] in E1. apply negb_false_iff, eqb_prop in E1. rewrite E1. reflexivity.
    + destruct (Z.eqb_spec (nth 0 pub 0) 7) as [->|N7]; [|discriminate E0].
      cbn [Z.eqb Pos.eqb orb andb] in E1. apply negb_false_iff, eqb_prop in E1. rewrite E1. reflexivity.
Qed.

Lemma slice_first b x l : slice (b :: be_bytes 32 x ++ l) 1 32 = be_bytes 32 x.
Proof.
  unfold slice. cbn [skipn]. rewrite firstn_app, length_be_bytes, Nat.sub_diag, firstn_O, app_nil_r.
  apply firstn_all2. rewrite length_be_bytes. lia.
Qed.

Lemma slice_second b x y : slice (b :: be_bytes 32 x ++ be_bytes 32 y) 33 32 = be_bytes 32 y.
Proof.
  unfold slice. change (skipn 33 (b :: ?l)) with (skipn 32 l).
  rewrite skipn_app, length_be_bytes, Nat.sub_diag, skipn_all2 by (rewrite length_be_bytes; lia).
  apply firstn_all2. rewrite length_be_bytes. lia.
Qed.

Lemma set_b32_coord x : in_fp x -> exists a, fe_set_b32 (be_bytes 32 x) = (a, true) /\
  fmag a 1 /\ fnorm a /\ fval a = x.
Proof.
  intros Hx. pose proof (set_b32_32 (be_bytes 32 x) (be_bytes_byte _ _) (length_be_bytes _ _)) as H.
  assert (V : be_val (be_bytes 32 x) = x).
  { rewrite be_val_bytes. apply Z.mod_small. unfold in_fp, p in Hx. change (256 ^ Z.of_nat 32) with (2 ^ 256). lia. }
  rewrite V in H. destruct (fe_set_b32 (be_bytes 32 x)) as [a ok]. destruct H as (E & M & Va & N).
  exists a. rewrite (proj2 (Z.ltb_lt x p)) in E by apply Hx. subst ok.
  split; [reflexivity|]. split; [exact M|]. split; [apply N; reflexivity|exact Va].
Qed.

Lemma parse_full elem b x y : on_curve (Aff x y) -> b = 4 \/ b = 6 + b2z (Z.odd y) ->
  snd (secp256k1_eckey_pubkey_parse elem (b :: be_bytes 32 x ++ be_bytes 32 y)) = true.
Proof.
  intros HC Hb. unfold secp256k1_eckey_pubkey_parse. cbn [nth].
  assert (L : length (b :: be_bytes 32 x ++ be_bytes 32 y) = 65%nat)
    by (cbn [length]; rewrite length_app, !length_be_bytes; reflexivity).
  rewrite L, slice_first, slice_second. change (Nat.eqb 65 33) with false. change (Nat.eqb 65 65) with true.
  cbn [andb]. replace ((b =? 4) || (b =? 6) || (b =? 7)) with true
    by (destruct Hb as [->| ->]; destruct (Z.odd y); reflexivity).
  destruct (set_b32_coord x (proj1 HC)) as (a & -> & Ma & Na & Va).
  destruct (set_b32_coord y (proj1 (proj2 HC))) as (c & -> & Mc & Nc & Vc). cbn [negb].
  rewrite (fe_is_odd_ok c Nc), Vc.
  replace (((b =? 6) || (b =? 7)) && negb (Bool.eqb (Z.odd y) (b =? 7))) with false
    by (destruct Hb as [->| ->]; destruct (Z.odd y); reflexivity).
  cbn [snd]. rewrite ge_is_valid_spec by exact (conj (fmag_le _ 1 8 Ma ltac:(lia)) (fmag_le _ 1 8 Mc ltac:(lia))).
  cbn [secp256k1_ge_set_xy gx gy ginf negb andb]. rewrite Va, Vc. apply Z.eqb_eq, cong_iff, HC.
Qed.

Lemma parse_complete elem pub P : pubkey_encodes pub P ->
  snd (secp256k1_eckey_pubkey_parse elem pub) = true.
Proof.
  destruct P as [|x y]; [contradiction|]. intros [HC [->|[->| ->]]].
  - unfold secp256k1_eckey_pubkey_parse, compressed. cbn [nth].
    assert (L : length ((2 + b2z (Z.odd y)) :: be_bytes 32 x) = 33%nat)
      by (cbn [length]; rewrite length_be_bytes; reflexivity).
    rewrite L. change (Nat.eqb 33 33) with true.
    replace (((2 + b2z (Z.odd y)) =? 2) || ((2 + b2z (Z.odd y)) =? 3)) with true
      by (destruct (Z.odd y); reflexivity). cbn [andb].
    rewrite <- (app_nil_r (be_bytes 32 x)), slice_first.
    destruct (set_b32_coord x (proj1 HC)) as (a & -> & Ma & Na & Va).
    apply (set_xo_spec a _ (fmag_le _ 1 8 Ma ltac:(lia))). exists y.
    rewrite Va, Z.mod_small by apply HC. exact HC.
  - apply parse_full; [exact HC|now left].
  - apply parse_full; [exact HC|now right].
Qed.

Lemma be_bytes_32_inj x y : in_fp x -> in_fp y -> be_bytes 32 x = be_bytes 32 y -> x = y.
Proof.
  intros Hx Hy E. apply (f_equal be_val) in E. rewrite !be_val_bytes in E.
  unfold in_fp, p in *. change (256 ^ Z.of_nat 32) with (2 ^ 256) in E.
  rewrite !Z.mod_small in E by lia. exact E.
Qed.

Lemma app_inj_length {A} (a b c d : list A) : length a = length b -> a ++ c = b ++ d ->
  a = b /\ c = d.
Proof.
  revert b. induction a as [|x a IH]; intros [|y b] L E; try discriminate L; [now split|].
  injection E as -> E. injection L as L. destruct (IH b L E) as [-> ->]. now split.
Qed.

Lemma app_32_inj x y x' y' : in_fp x -> in_fp y -> in_fp x' -> in_fp y' ->
  be_bytes 32 x ++ be_bytes 32 y = be_bytes 32 x' ++ be_bytes 32 y' -> x = x' /\ y = y'.
Proof.
  intros. assert (E : be_bytes 32 x = be_bytes 32 x' /\ be_bytes 32 y = be_bytes 32 y').
  { apply app_inj_length; [now rewrite !length_be_bytes|assumption]. }
  destruct E. split; now apply be_bytes_32_inj.
Qed.

Lemma encodes_unique pub P Q : pubkey_encodes pub P -> pubkey_encodes pub Q -> P = Q.
Proof.
  destruct P as [|x y]; [contradiction|]. destruct Q as [|x' y']; [contradiction|].
  intros [HC HP] [HC' HQ].
  assert (S : forall b c, b :: be_bytes 32 x ++ be_bytes 32 y = c :: be_bytes 32 x' ++ be_bytes 32 y' ->
    Aff x y = Aff x' y').
  { intros b c E. apply (f_equal (@tl Z)) in E. cbn [tl] in E. destruct (app_32_inj x y x' y') as [-> ->];
      try assumption; try apply HC; try apply HC'; reflexivity. }
  assert (N : forall b c u v w, b :: be_bytes 32 u <> c :: be_bytes 32 v ++ be_bytes 32 w).
  { intros b c u v w E. apply (f_equal (@length Z)) in E. cbn [length] in E.
    rewrite length_app, !length_be_bytes in E. discriminate E. }
  assert (L : forall u v, pub = uncompressed u v \/ pub = hybrid u v ->
    exists b, pub = b :: be_bytes 32 u ++ be_bytes 32 v)
    by (intros u v [E|E]; eexists; exact E).
  destruct HP as [E1|HP].
  2: { destruct (L x y HP) as [b Eb]. destruct HQ as [E|HQ].
       - exfalso. rewrite Eb in E. symmetry in E. exact (N _ _ _ _ _ E).
       - destruct (L x' y' HQ) as [c Ec]. rewrite Eb in Ec. exact (S b c Ec). }
  destruct HQ as [E|HQ].
  2: { destruct (L x' y' HQ) as [c Ec]. exfalso. rewrite E1 in Ec. exact (N _ _ _ _ _ Ec). }
  rewrite E1 in E.
  pose proof (f_equal (@tl Z) E) as Et. apply (f_equal (hd 0)) in E. unfold compressed in E, Et.
  cbn [tl hd] in E, Et. apply be_bytes_32_inj in Et; [|apply HC|apply HC']. subst x'.
  f_equal. apply (odd_point_unique x); [exact HC|exact HC'|].
  destruct (Z.odd y), (Z.odd y'); cbn [b2z] in E; lia || reflexivity.
Qed.

Lemma parse_spec elem pub : Forall is_byte pub ->
  let '(e, ok) := secp256k1_eckey_pubkey_parse elem pub in
  (ok = true <-> exists P, pubkey_encodes pub P) /\ (forall P, pubkey_encodes pub P -> ge_rep e P).
Proof.
  intros HB. pose proof (parse_sound elem pub HB) as S.
  pose proof (fun P => parse_complete elem pub P) as C. cbv zeta in S.
  destruct (secp256k1_eckey_pubkey_parse elem pub) as [e ok]. cbn [fst snd] in *.
  split.
  - split; [intros H; destruct (S H) as (P & HP & _); now exists P|intros (P & HP); exact (C P HP)].
  - intros P HP. destruct (S (C P HP)) as (Q & HQ & R). now rewrite (encodes_unique _ _ _ HP HQ).
Qed.

(** ** Serialising *)

Lemma key_serialize_spec elem c x y : ge_rep elem (Aff x y) ->
  let '(e, out) := secp256k1_eckey_pubkey_serialize elem c in
  out = Some (if c then compressed x y else uncompressed x y) /\ ge_rep e (Aff x y).
Proof.
  intros H. destruct (ge_finite _ _ _ H) as (Hc & Hi & Kx & Ky).
  unfold secp256k1_eckey_pubkey_serialize, secp256k1_ge_is_infinity. rewrite Hi. cbv zeta.
  rewrite (fe_normalize_var_ok _ (fmag_le _ 8 31 (proj1 Kx) ltac:(lia))).
  rewrite (fe_normalize_var_ok _ (fmag_le _ 8 31 (proj1 Ky) ltac:(lia))).
  destruct (coord_norm _ 8 x Kx eq_refl (proj1 Hc)) as [Nx Vx].
  destruct (coord_norm _ 8 y Ky eq_refl (proj1 (proj2 Hc))) as [Ny Vy].
  rewrite !fe_get_b32_ok, fe_is_odd_ok, Vx, Vy by assumption.
  pose proof (raw_ge_rep _ _ x y Hc (fnorm_mag _ Nx) Vx (fnorm_mag _ Ny) Vy) as R.
  destruct c; (split; [|exact R]); [|reflexivity]. unfold compressed. f_equal. f_equal.
  now destruct (Z.odd y).
Qed.

Lemma serialize_infinity elem c : ginf elem = true ->
  secp256k1_eckey_pubkey_serialize elem c = (elem, None).
Proof. intros H. unfold secp256k1_eckey_pubkey_serialize, secp256k1_ge_is_infinity. now rewrite H. Qed.

(** ** Tweaks *)

Context (Hjunk : gej_mags junk).

(** The secret and the public key [key] and [P] belong together. *)
Definition key_pair (d : Z) (P : point) : Prop := P = smul d G_point /\ P <> Inf.

Lemma tweak_add_spec ctx key tweak elem : ctx_ok ctx -> sok key -> sok tweak ->
  sval key <> 0 -> ge_rep elem (smul (sval key) G_point) ->
  let '(key', ok) := secp256k1_eckey_privkey_tweak_add key tweak in
  let '(elem', ok') := secp256k1_eckey_pubkey_tweak_add ctx elem tweak in
  sok key' /\ sval key' = (sval key + sval tweak) mod n_order /\
  ok = negb (sval key' =? 0) /\ ok' = ok /\
  ge_rep elem' (smul (if ok then sval key' else sval key) G_point).
Proof.
  intros HC Hk Ht Nk He. unfold secp256k1_eckey_privkey_tweak_add, secp256k1_eckey_pubkey_tweak_add.
  pose proof (s_add_ok key tweak Hk Ht) as A. destruct (s_add key tweak) as [key' o].
  destruct A as (Ok & V & _). rewrite (s_is_zero_ok _ Ok). cbv zeta.
  destruct (s_set_int_ok 1 ltac:(lia)) as [O1 V1].
  assert (Fin : smul (sval key) G_point <> Inf).
  { apply finite_multiplier. pose proof (sok_range _ Hk). rewrite Z.mod_small; assumption. }
  pose proof (ecmult_point junk ctx (secp256k1_gej_set_ge elem) _ _ _ _ Hjunk HC O1 Ht Fin
    (set_ge_rep _ _ He)) as K.
  rewrite V1, smul_1, <- smul_add in K by oc.
  assert (E : smul (sval key + sval tweak) G_point = smul (sval key') G_point)
    by (rewrite V; symmetry; apply smul_mod).
  rewrite E in K. set (pt := secp256k1_ecmult _ _ _ _ _ _) in *. clearbody pt. unfold secp256k1_gej_is_infinity.
  destruct (Z.eqb_spec (sval key') 0) as [Z0|N0].
  - rewrite Z0, smul_0 in K. rewrite (proj2 (proj2 K) : jinf pt = true).
    split; [exact Ok|]. split; [exact V|]. rewrite Z0. exact (conj eq_refl (conj eq_refl He)).
  - assert (F' : smul (sval key') G_point <> Inf).
    { apply finite_multiplier. pose proof (sok_range _ Ok). rewrite Z.mod_small; assumption. }
    destruct (smul (sval key') G_point) as [|x y] eqn:EP; [contradiction|].
    destruct (rep_finite _ _ _ K) as (_ & -> & _). destruct (set_gej_rep _ _ K) as [R _].
    destruct (secp256k1_ge_set_gej pt) as [e ej]. cbn [fst] in R.
    split; [exact Ok|]. split; [exact V|]. rewrite (proj2 (Z.eqb_neq _ _) N0).
    exact (conj eq_refl (conj eq_refl R)).
Qed.

Lemma tweak_mul_spec ctx key tweak elem : ctx_ok ctx -> sok key -> sok tweak ->
  sval key <> 0 -> ge_rep elem (smul (sval key) G_point) ->
  let '(key', ok) := secp256k1_eckey_privkey_tweak_mul key tweak in
  let '(elem', ok') := secp256k1_eckey_pubkey_tweak_mul ctx elem tweak in
  sok key' /\ ok = negb (sval tweak =? 0) /\ ok' = ok /\
  (ok = true -> sval key' = (sval key * sval tweak) mod n_order /\ sval key' <> 0) /\
  ge_rep elem' (smul (sval key') G_point).
Proof.
  intros HC Hk Ht Nk He. unfold secp256k1_eckey_privkey_tweak_mul, secp256k1_eckey_pubkey_tweak_mul.
  rewrite (s_is_zero_ok _ Ht). destruct (Z.eqb_spec (sval tweak) 0) as [Z0|N0].
  { split; [exact Hk|]. split; [reflexivity|]. split; [reflexivity|]. split; [discriminate|exact He]. }
  destruct (s_mul_ok key tweak Hk Ht) as [Om Vm]. cbv zeta.
  destruct (s_set_int_ok 0 ltac:(lia)) as [O0 V0].
  pose proof (sok_range _ Hk) as Rk. pose proof (sok_range _ Ht) as Rt.
  assert (Fin : smul (sval key) G_point <> Inf)
    by (apply finite_multiplier; rewrite Z.mod_small; assumption).
  pose proof (ecmult_point junk ctx (secp256k1_gej_set_ge elem) _ _ _ _ Hjunk HC Ht O0 Fin
    (set_ge_rep _ _ He)) as K.
  rewrite V0, smul_0, padd_Inf_r, smul_smul in K by oc.
  destruct (set_gej_rep _ _ K) as [R _].
  destruct (secp256k1_ge_set_gej _) as [e ej]. cbn [fst] in R.
  split; [exact Om|]. split; [reflexivity|]. split; [reflexivity|]. split.
  - intros _. split; [exact Vm|]. rewrite Vm. intros E. apply Z.mod_divide in E; [|discriminate].
    apply Z.divide_prime_mul in E; [|exact prime_n].
    destruct E as [E|E]; apply Z.mod_divide in E; try discriminate; rewrite Z.mod_small in E by assumption; contradiction.
  - rewrite Vm, smul_mod, Z.mul_comm. exact R.
Qed.
End Eckey.
