(* ===== verification/Recovery.v ===== *)
(** * Public key recovery: secp256k1_ecdsa_sig_recover of modules/recovery *)
From S2P Require Import Prelude Primes FieldSpec Field ScalarSpec Scalar.
From S2P Require Import CurveSpec CurveGroup CurveOrder CurveCount Group Ecmult EcmultGen Ecdsa.

(** The abscissa a signature claims: r, or r + n when bit 1 of the id is set. *)
Definition recid_x (r recid : Z) : Z := r + (if Z.testbit recid 1 then n_order else 0).

(** Q is the key that r, s and the id determine (SEC 1, 4.1.6). *)
Definition recovers (r s m recid : Z) (Q : point) : Prop :=
  0 < r < n_order /\ 0 < s < n_order /\ Q <> Inf /\
  exists w y, w * r =[n_order]= 1 /\ on_curve (Aff (recid_x r recid) y) /\
    Z.odd y = Z.testbit recid 0 /\
    Q = padd (smul (s * w) (Aff (recid_x r recid) y)) (smul (- (m * w)) G_point).

Section Recovery.
Context {F : FieldImpl} {SI : ScalarImpl} (junk : secp256k1_gej).

(** *pubkey and the return value. *)
Definition secp256k1_ecdsa_sig_recover (ctx : secp256k1_ecmult_context) (sigr sigs : scalar)
    (pubkey : secp256k1_ge) (message : scalar) (recid : Z) : secp256k1_ge * bool :=
  if s_is_zero sigr || s_is_zero sigs then (pubkey, false) else
  let brx := s_get_b32 sigr in
  let '(fx, _) := fe_set_b32 brx in
  let hi := negb ((recid .& 2) =? 0) in
  if hi && (0 <=? fe_cmp_var fx secp256k1_ecdsa_const_p_minus_order) then (pubkey, false) else
  let fx := if hi then fe_add fx secp256k1_ecdsa_const_order_as_fe else fx in
  let '(x, ok) := secp256k1_ge_set_xo_var fx (negb ((recid .& 1) =? 0)) in
  if negb ok then (pubkey, false) else
  let xj := secp256k1_gej_set_ge x in
  let rn := secp256k1_scalar_inverse_var sigr in
  let u1 := s_mul rn message in
  let u1 := s_negate u1 in
  let u2 := s_mul rn sigs in
  let qj := secp256k1_ecmult junk ctx junk xj u2 u1 in
  let '(pubkey, qj) := secp256k1_ge_set_gej_var pubkey qj in
  (pubkey, negb (secp256k1_gej_is_infinity qj)).

(** ** Theorems *)

Lemma recid_bits recid : 0 <= recid < 4 ->
  negb ((recid .& 2) =? 0) = Z.testbit recid 1 /\ negb ((recid .& 1) =? 0) = Z.testbit recid 0.
Proof.
  intros H. assert (E : recid = 0 \/ recid = 1 \/ recid = 2 \/ recid = 3) by lia.
  destruct E as [->|[->|[->| ->]]]; split; reflexivity.
Qed.

(** The candidate field element, when r (+ n) is below p. *)
Lemma candidate_x sigr (hi : bool) : sok sigr ->
  let '(fx, _) := fe_set_b32 (s_get_b32 sigr) in
  let x := sval sigr + (if hi then n_order else 0) in
  hi && (0 <=? fe_cmp_var fx secp256k1_ecdsa_const_p_minus_order) = negb (x <? p) /\
  (x < p -> fmag (if hi then fe_add fx secp256k1_ecdsa_const_order_as_fe else fx) 2 /\
    fval (if hi then fe_add fx secp256k1_ecdsa_const_order_as_fe else fx) = x).
Proof.
  intros Hr. destruct (scalar_as_fe sigr Hr) as [N V].
  destruct (fe_set_b32 (s_get_b32 sigr)) as [fx ok]. cbn [fst] in N, V.
  destruct order_as_fe_ok as [No Vo]. destruct p_minus_order_ok as [Np Vp].
  pose proof (sok_range _ Hr) as R. assert (Pn : n_order < p) by reflexivity.
  destruct (fe_add_ok _ _ 1 1 (fnorm_mag _ N) (fnorm_mag _ No) ltac:(lia)) as [Ma Va].
  destruct hi; cbn [andb].
  - rewrite (fe_cmp_var_ok _ _ N Np), Vp, V. rewrite V, Vo in Va. split; [|intros _; now split].
    destruct (Z.compare_spec (sval sigr) (p - n_order)), (Z.ltb_spec (sval sigr + n_order) p);
      reflexivity || lia.
  - rewrite (proj2 (Z.ltb_lt _ _)) by lia. split; [reflexivity|]. intros _.
    split; [exact (fmag_le _ 1 2 (fnorm_mag _ N) ltac:(lia))|lia].
Qed.

Context (Hjunk : gej_mags junk).

(** The last part: r^-1 (s R - m G). *)
Lemma recover_tail ctx sigr sigs message x R r0 : ctx_ok ctx -> sok sigr -> sok sigs -> sok message ->
  sval sigr <> 0 -> ge_rep x R -> R <> Inf -> ge_mags r0 ->
  let rn := secp256k1_scalar_inverse_var sigr in
  let qj := secp256k1_ecmult junk ctx junk (secp256k1_gej_set_ge x) (s_mul rn sigs)
    (s_negate (s_mul rn message)) in
  let '(pubkey, qj) := secp256k1_ge_set_gej_var r0 qj in
  exists w, w * sval sigr =[n_order]= 1 /\
  let Q := padd (smul (sval sigs * w) R) (smul (- (sval message * w)) G_point) in
  ge_rep pubkey Q /\ (negb (secp256k1_gej_is_infinity qj) = true <-> Q <> Inf).
Proof.
  intros HC Hr Hs Hm Nr HR Rf M0. cbv zeta. destruct (inverse_mod sigr Hr Nr) as [Ow Ew].
  set (w := secp256k1_scalar_inverse_var sigr) in *. clearbody w.
  destruct (s_mul_ok w message Ow Hm) as [O1 V1]. destruct (s_mul_ok w sigs Ow Hs) as [O2 V2].
  destruct (s_negate_ok _ O1) as [O3 V3].
  pose proof (ecmult_point junk ctx junk _ _ _ R Hjunk HC O2 O3 Rf (set_ge_rep _ _ HR)) as K.
  set (qj := secp256k1_ecmult _ _ _ _ _ _) in *. clearbody qj. pose proof (proj1 (proj2 HR)) as HRc.
  assert (E : padd (smul (sval (s_mul w sigs)) R) (smul (sval (s_negate (s_mul w message))) G_point)
    = padd (smul (sval sigs * sval w) R) (smul (- (sval message * sval w)) G_point)).
  { f_equal; [apply smul_mod_point; [exact HRc|]|apply smul_cong].
    - rewrite V2, cong_mod. apply cong_eq. ring.
    - rewrite V3, V1, !cong_mod. apply cong_eq. ring. }
  rewrite E in K. clear E. destruct (set_gej_var_rep r0 qj _ M0 K) as [K1 K2].
  destruct (secp256k1_ge_set_gej_var r0 qj) as [pub qj']. cbn [fst snd] in *.
  exists (sval w). split; [exact Ew|]. split; [exact K1|]. unfold secp256k1_gej_is_infinity.
  destruct (padd _ _) as [|X Y].
  - rewrite (proj2 (proj2 K2) : jinf qj' = true). split; [discriminate|congruence].
  - destruct (rep_finite _ _ _ K2) as (_ & -> & _). split; [discriminate|reflexivity].
Qed.

(** The inverse and the ordinate are determined, hence the key. *)
Lemma recovers_value r s m recid Q w y : recovers r s m recid Q -> w * r =[n_order]= 1 ->
  on_curve (Aff (recid_x r recid) y) -> Z.odd y = Z.testbit recid 0 ->
  Q = padd (smul (s * w) (Aff (recid_x r recid) y)) (smul (- (m * w)) G_point).
Proof.
  intros (_ & _ & _ & w' & y' & Ew' & HC' & Oy' & ->) Ew HC Oy.
  assert (Ey : y' = y).
  { destruct (same_x _ _ _ HC' HC) as [E|E]; [exact E|].
    pose proof (opposite_odd _ _ (proj1 (proj2 HC')) (proj1 (proj2 HC)) (y_nonzero _ _ HC') E) as N.
    rewrite Oy, Oy' in N. destruct (Z.testbit recid 0); discriminate N. }
  subst y'. pose proof (scalar_inverse_unique _ _ _ Ew' Ew) as U.
  f_equal; [apply smul_mod_point; [exact HC|]|apply smul_cong]; now rewrite U.
Qed.

Lemma sig_recover_spec ctx sigr sigs pubkey message recid : ctx_ok ctx -> sok sigr -> sok sigs ->
  sok message -> 0 <= recid < 4 -> ge_mags pubkey ->
  let '(q, ok) := secp256k1_ecdsa_sig_recover ctx sigr sigs pubkey message recid in
  (ok = true <-> exists Q, recovers (sval sigr) (sval sigs) (sval message) recid Q) /\
  (ok = true -> exists Q, recovers (sval sigr) (sval sigs) (sval message) recid Q /\ ge_rep q Q).
Proof.
  intros HC Hr Hs Hm Hid M0.
  enough (H : let '(q, ok) := secp256k1_ecdsa_sig_recover ctx sigr sigs pubkey message recid in
    if ok then exists Q, recovers (sval sigr) (sval sigs) (sval message) recid Q /\ ge_rep q Q
    else forall Q, ~ recovers (sval sigr) (sval sigs) (sval message) recid Q).
  { destruct (secp256k1_ecdsa_sig_recover _ _ _ _ _ _) as [q [|]].
    - split; [split; [intros _; destruct H as (Q & H & _); now exists Q|reflexivity]|intros _; exact H].
    - split; [split; [discriminate|intros (Q & HQ); now apply H in HQ]|discriminate]. }
  unfold secp256k1_ecdsa_sig_recover. destruct (recid_bits recid Hid) as [-> ->].
  rewrite (s_is_zero_ok _ Hr), (s_is_zero_ok _ Hs).
  pose proof (sok_range _ Hr) as Rr. pose proof (sok_range _ Hs) as Rs.
  destruct (Z.eqb_spec (sval sigr) 0) as [Zr|Zr]; cbn [orb]; [intros Q (H & _); lia|].
  destruct (Z.eqb_spec (sval sigs) 0) as [Zs|Zs]; [intros Q (_ & H & _); lia|]. cbv zeta.
  pose proof (candidate_x sigr (Z.testbit recid 1) Hr) as C.
  destruct (fe_set_b32 (s_get_b32 sigr)) as [fx o]. cbv zeta in C. destruct C as [-> C].
  fold (recid_x (sval sigr) recid) in C |- *.
  destruct (Z.ltb_spec (recid_x (sval sigr) recid) p) as [L|L]; cbn [negb].
  2: { intros Q (_ & _ & _ & w & y & _ & ((_ & H) & _) & _). lia. }
  destruct (C L) as [Mf Vf]. clear C. set (f := if Z.testbit recid 1 then _ else _) in *. clearbody f.
  destruct (set_xo_spec f (Z.testbit recid 0) (fmag_le _ 2 8 Mf ltac:(lia))) as [X1 X2].
  destruct (secp256k1_ge_set_xo_var f (Z.testbit recid 0)) as [x ok]. cbn [fst snd] in X1, X2.
  assert (P0 : 0 <= recid_x (sval sigr) recid)
    by (unfold recid_x; destruct (Z.testbit recid 1); unfold n_order; lia).
  rewrite Vf, Z.mod_small in X1, X2 by lia.
  destruct ok; cbn [negb].
  2: { intros Q (_ & _ & _ & w & y & _ & H & _). discriminate (proj2 X1 (ex_intro _ y H)). }
  destruct (X2 eq_refl) as (y & Ry & Oy). clear X1 X2.
  pose proof (recover_tail ctx sigr sigs message x _ pubkey HC Hr Hs Hm Zr Ry ltac:(discriminate) M0) as T.
  cbv zeta in T. destruct (secp256k1_ge_set_gej_var _ _) as [q qj].
  destruct T as (w & Ew & T1 & T2). pose proof (proj1 (proj2 Ry)) as HRc.
  destruct (negb (secp256k1_gej_is_infinity qj)).
  - eexists. split; [|exact T1]. split; [lia|]. split; [lia|]. split; [now apply T2|].
    exists w, y. exact (conj Ew (conj HRc (conj Oy eq_refl))).
  - intros Q HQ. rewrite <- (recovers_value _ _ _ _ _ _ _ HQ Ew HRc Oy) in T2.
    destruct T2 as [_ T2]. discriminate (T2 (proj1 (proj2 (proj2 HQ)))).
Qed.

(** ** Recovered keys and signatures *)

(** A signature verifies under the key it determines. *)
Lemma recovers_valid r s m recid Q : 0 <= recid < 4 -> recovers r s m recid Q -> ecdsa_valid r s m Q.
Proof.
  intros Hid (Rr & Rs & _ & w & y & W & HC & _ & ->). split; [exact Rr|]. split; [exact Rs|].
  destruct (inv_exists s) as [v V]; [rewrite Z.mod_small; lia|].
  exists v, (recid_x r recid), y. split; [exact V|]. split.
  - set (R := Aff (recid_x r recid) y) in *.
    rewrite smul_padd, !smul_smul by oc.
    rewrite (smul_mod_point (r * v * (s * w)) 1 R HC).
    + rewrite smul_1, (padd_comm R), <- padd_assoc, <- smul_add by oc.
      rewrite (smul_cong _ 0); [rewrite smul_0; reflexivity|].
      transitivity (m * v * (1 - w * r)); [apply cong_eq; ring|]. rewrite W. apply cong_eq. ring.
    + transitivity (w * r * (v * s)); [apply cong_eq; ring|]. rewrite W, V. apply cong_eq. ring.
  - unfold recid_x. destruct (Z.testbit recid 1).
    + rewrite Zplus_mod, Z_mod_same_full, Z.add_0_r, Z.mod_mod by lia. apply Z.mod_small. lia.
    + rewrite Z.add_0_r. apply Z.mod_small. lia.
Qed.

(** The id a signature was made with leads back to the key. *)
Lemma signature_recovers d k m r s x y flip : smul k G_point = Aff x y -> r = x mod n_order ->
  r <> 0 -> 0 < s < n_order -> d mod n_order <> 0 -> sign_eq s k (r * d + m) flip ->
  recovers r s m (recid_of x (xorb (Z.odd y) flip)) (smul d G_point).
Proof.
  intros EP Er Nr Rs Nd E. pose proof (Z.mod_pos_bound x n_order eq_refl) as Rr.
  assert (HP : on_curve (Aff x y)) by (rewrite <- EP; oc).
  assert (X : recid_x r (recid_of x (xorb (Z.odd y) flip)) = x /\
    Z.testbit (recid_of x (xorb (Z.odd y) flip)) 0 = xorb (Z.odd y) flip).
  { unfold recid_of, recid_x. rewrite Er. assert (Pn : p < 2 * n_order) by reflexivity.
    pose proof (proj1 HP) as Fx. unfold in_fp in Fx.
    destruct (Z.leb_spec n_order x) as [L|L].
    - rewrite <- (Z.mod_unique x n_order 1 (x - n_order)) by lia.
      destruct (xorb (Z.odd y) flip); cbn [b2z]; (split; [change (Z.testbit _ 1) with true; cbv iota; lia|reflexivity]).
    - rewrite Z.mod_small by lia.
      destruct (xorb (Z.odd y) flip); cbn [b2z]; (split; [change (Z.testbit _ 1) with false; cbv iota; lia|reflexivity]). }
  destruct X as [X Bit]. split; [lia|]. split; [exact Rs|]. split; [now apply finite_multiplier|].
  destruct (inv_exists r) as [w W]; [rewrite Z.mod_small; lia|].
  set (y' := if flip then (- y) mod p else y).
  pose proof (signed_point k x y flip EP) as SP. fold y' in SP.
  exists w, y'. rewrite X, Bit. split; [exact W|]. split; [rewrite <- SP; oc|]. split.
  - unfold y'. destruct flip; [|now rewrite xorb_false_r]. rewrite xorb_true_r.
    pose proof (y_nonzero _ _ HP) as Ny. destruct HP as (_ & Hy & _).
    apply odd_neg; [exact Hy|]. intros ->. now apply Ny.
  - rewrite <- SP, smul_smul, <- smul_add by oc. apply smul_cong. unfold sign_eq in E.
    assert (E' : s * (if flip then - k else k) =[n_order]= r * d + m).
    { destruct flip; [|exact E]. transitivity (- (s * k)); [apply cong_eq; ring|].
      rewrite E. apply cong_eq. ring. }
    symmetry. transitivity (w * (s * (if flip then - k else k)) - m * w); [apply cong_eq; ring|].
    rewrite E'. transitivity (w * r * d); [apply cong_eq; ring|]. rewrite W. apply cong_eq. ring.
Qed.
End Recovery.
