(* ===== verification/EcdsaProperties.v ===== *)
(** * Properties of ECDSA, key encodings, tweaks and recovery

    For every implementation of the field and scalar interfaces, all built
    contexts and all keys, messages and nonces. *)
From S2P Require Import Prelude Primes FieldSpec Field5x52 Field ScalarSpec Scalar4x64 Scalar.
From S2P Require Import Sha256Spec Hash CurveSpec CurveGroup CurveOrder CurveCount Group.
From S2P Require Import Ecmult EcmultGen EcmultProperties Ecdsa Eckey Recovery.

Section EcdsaProperties.
Context {F : FieldImpl} {SI : ScalarImpl} (junk : secp256k1_gej).
Hypothesis Hjunk : gej_mags junk.

(** C3: verification decides the ECDSA equation. For a public key Q other than
    infinity the answer is 1 exactly when r and s are in 1 .. n - 1 and the
    abscissa of (m/s) G + (r/s) Q is r modulo n; the two comparisons without an
    inversion lose no case, not even an abscissa between n and p. *)
Theorem ecdsa_verify_decides ctx sigr sigs pubkey message Q : ctx_ok ctx ->
  sok sigr -> sok sigs -> sok message -> ge_rep pubkey Q -> Q <> Inf ->
  secp256k1_ecdsa_sig_verify junk ctx sigr sigs pubkey message = true <->
  ecdsa_valid (sval sigr) (sval sigs) (sval message) Q.
Proof. intros. now apply sig_verify_spec. Qed.

(** Signing. With the nonce point (x, y) = k G, r is x modulo n and
    s k = (r d + m) up to sign; the sign makes s low, and the recovery id
    records the parity of y after that choice and whether x exceeds n. The call
    fails exactly when r d + m vanishes. *)
Theorem ecdsa_sign_correct ctx seckey message nonce : gen_ctx_ok ctx -> sok seckey ->
  sok message -> sok nonce -> sval nonce <> 0 ->
  let '(r, s, recid, ret) := secp256k1_ecdsa_sig_sign ctx seckey message nonce in
  let e := sval r * sval seckey + sval message in
  sok r /\ sok s /\
  exists x y, smul (sval nonce) G_point = Aff x y /\ sval r = x mod n_order /\
  if e mod n_order =? 0 then ret = false else
    ret = true /\ 0 < sval s <= n_order / 2 /\ exists flip,
      sign_eq (sval s) (sval nonce) e flip /\ recid = recid_of x (xorb (Z.odd y) flip).
Proof. intros. now apply sig_sign_spec. Qed.

(** Signing, verifying and recovering fit together. A signature made with a
    non-zero r is low, verifies under the public key of the signer, and with
    its recovery id gives that key back. *)
Theorem ecdsa_sign_verify_recover gctx ctx seckey message nonce pubkey elem :
  gen_ctx_ok gctx -> ctx_ok ctx -> sok seckey -> sok message -> sok nonce ->
  sval nonce <> 0 -> sval seckey <> 0 -> ge_rep pubkey (smul (sval seckey) G_point) ->
  ge_mags elem ->
  let '(r, s, recid, ret) := secp256k1_ecdsa_sig_sign gctx seckey message nonce in
  ret = true -> sval r <> 0 ->
  secp256k1_ecdsa_sig_verify junk ctx r s pubkey message = true /\ s_is_high s = false /\
  let '(q, ok) := secp256k1_ecdsa_sig_recover junk ctx r s elem message recid in
  ok = true /\ ge_rep q (smul (sval seckey) G_point).
Proof.
  intros HG HC Hd Hm Hk Nk Nd HQ He.
  pose proof (sig_sign_verify junk Hjunk gctx ctx seckey message nonce pubkey HG HC Hd Hm Hk Nk Nd HQ) as V.
  pose proof (sig_sign_spec gctx seckey message nonce HG Hd Hm Hk Nk) as S.
  destruct (secp256k1_ecdsa_sig_sign _ _ _ _) as [[[r s] recid] ret].
  destruct S as (Or & Os & x & y & EP & Er & S). intros Hret Nr.
  destruct (V Hret Nr) as [V1 V2]. split; [exact V1|]. split; [exact V2|].
  destruct (_ =? 0) in S; [congruence|]. destruct S as (_ & Rs & flip & E & ->).
  assert (Hn2 : n_order = 2 * (n_order / 2) + 1) by reflexivity.
  assert (Rs' : 0 < sval s < n_order) by lia. pose proof (sok_range _ Hd) as Rd.
  assert (Nd' : sval seckey mod n_order <> 0) by (rewrite Z.mod_small; assumption).
  pose proof (signature_recovers _ _ _ _ _ _ _ _ EP Er Nr Rs' Nd' E) as R.
  set (recid := recid_of x _) in *.
  assert (Hid : 0 <= recid < 4)
    by (unfold recid, recid_of; destruct (n_order <=? x), (xorb (Z.odd y) flip); cbn [b2z]; lia).
  pose proof (sig_recover_spec junk Hjunk ctx r s elem message recid HC Or Os Hm Hid He) as T.
  destruct (secp256k1_ecdsa_sig_recover _ _ _ _ _ _ _) as [q ok]. destruct T as [T1 T2].
  assert (Hok : ok = true) by (apply T1; eexists; exact R). split; [exact Hok|].
  destruct (T2 Hok) as (Q & HQ' & RQ). destruct HQ' as (_ & _ & _ & w & y' & Ew & HC' & Oy & EQ).
  rewrite (recovers_value _ _ _ _ _ _ _ R Ew HC' Oy), <- EQ. exact RQ.
Qed.

(** C24: recovery. It succeeds exactly when a key is determined by r, s and the
    id (r + n below p when bit 1 is set, the abscissa on the curve, and the
    resulting key not infinite), and returns that key, under which the
    signature verifies. *)
Theorem ecdsa_recover_correct ctx sigr sigs pubkey message recid : ctx_ok ctx ->
  sok sigr -> sok sigs -> sok message -> 0 <= recid < 4 -> ge_mags pubkey ->
  let '(q, ok) := secp256k1_ecdsa_sig_recover junk ctx sigr sigs pubkey message recid in
  (ok = true <-> exists Q, recovers (sval sigr) (sval sigs) (sval message) recid Q) /\
  (ok = true -> exists Q, recovers (sval sigr) (sval sigs) (sval message) recid Q /\ ge_rep q Q /\
     secp256k1_ecdsa_sig_verify junk ctx sigr sigs q message = true).
Proof.
  intros HC Hr Hs Hm Hid He.
  pose proof (sig_recover_spec junk Hjunk ctx sigr sigs pubkey message recid HC Hr Hs Hm Hid He) as T.
  destruct (secp256k1_ecdsa_sig_recover _ _ _ _ _ _ _) as [q ok]. destruct T as [T1 T2].
  split; [exact T1|]. intros Hok. destruct (T2 Hok) as (Q & HQ & RQ). exists Q.
  split; [exact HQ|]. split; [exact RQ|].
  apply (sig_verify_spec junk Hjunk ctx sigr sigs q message Q HC Hr Hs Hm RQ).
  - exact (proj1 (proj2 (proj2 HQ))).
  - exact (recovers_valid _ _ _ _ _ Hid HQ).
Qed.

(** An abscissa equal to the group order. *)
Definition order_point : point :=
  Aff n_order 0x98f66641cb0ae1776b463ebdee3d77fe2658f021db48e2c8ac7ab4c92f83621e.

Lemma order_point_on_curve : on_curve order_point.
Proof. apply on_curve_check. vm_compute. reflexivity. Qed.

(** C40: the missing check of r. The curve has a point of abscissa n, so there is
    a nonce for which signing reports success although r is 0, whatever the key;
    such a signature never verifies. (Debug builds assert r <> 0, and no caller
    establishes it.) *)
Theorem ecdsa_sign_zero_r : exists k, 0 < k < n_order /\
  forall gctx ctx seckey message nonce pubkey,
  gen_ctx_ok gctx -> sok seckey -> sok message -> sok nonce ->
  sval nonce = k -> sval message <> 0 ->
  let '(r, s, recid, ret) := secp256k1_ecdsa_sig_sign gctx seckey message nonce in
  ret = true /\ sval r = 0 /\ secp256k1_ecdsa_sig_verify junk ctx r s pubkey message = false.
Proof.
  destruct (all_multiples order_point order_point_on_curve) as (k & Rk & EP). exists k.
  assert (Nk : k <> 0) by (intros ->; discriminate EP). split; [lia|].
  intros gctx ctx seckey message nonce pubkey HG Hd Hm Hk Ek Nm.
  pose proof (sig_sign_spec gctx seckey message nonce HG Hd Hm Hk ltac:(congruence)) as S.
  rewrite Ek, <- EP in S. destruct (secp256k1_ecdsa_sig_sign _ _ _ _) as [[[r s] recid] ret].
  destruct S as (Or & Os & x & y & E & Er & S). injection E as <- <-.
  rewrite Z_mod_same_full in Er. rewrite Er, Z.mul_0_l, Z.add_0_l in S.
  rewrite Z.mod_small in S by apply (sok_range _ Hm).
  rewrite (proj2 (Z.eqb_neq _ _) Nm) in S. split; [apply S|]. split; [exact Er|].
  unfold secp256k1_ecdsa_sig_verify. rewrite (s_is_zero_ok _ Or), Er. reflexivity.
Qed.

(** Public key octets. Parsing accepts exactly the compressed, uncompressed
    and hybrid encodings of points of the curve (lengths, prefix octets, range
    of the coordinates, parity of the hybrid form) and returns the encoded
    point; serialising gives the encoding of the asked form, which parses back. *)
Theorem pubkey_codec elem pub : Forall is_byte pub ->
  (let '(e, ok) := secp256k1_eckey_pubkey_parse elem pub in
   (ok = true <-> exists P, pubkey_encodes pub P) /\
   (forall P, pubkey_encodes pub P -> ge_rep e P)) /\
  (forall x y c e0, ge_rep e0 (Aff x y) ->
   let '(e, out) := secp256k1_eckey_pubkey_serialize e0 c in
   out = Some (if c then compressed x y else uncompressed x y) /\ ge_rep e (Aff x y) /\
   forall octets, out = Some octets ->
     let '(q, ok) := secp256k1_eckey_pubkey_parse elem octets in
     ok = true /\ ge_rep q (Aff x y)).
Proof.
  intros HB. split; [exact (parse_spec elem pub HB)|]. intros x y c e0 He.
  pose proof (key_serialize_spec e0 c x y He) as S.
  destruct (secp256k1_eckey_pubkey_serialize e0 c) as [e out]. destruct S as [Eo Re].
  split; [exact Eo|]. split; [exact Re|]. intros octets E. rewrite Eo in E. injection E as <-.
  assert (HE : pubkey_encodes (if c then compressed x y else uncompressed x y) (Aff x y)).
  { split; [apply He|]. destruct c; [now left|right; now left]. }
  assert (HB' : Forall is_byte (if c then compressed x y else uncompressed x y)).
  { destruct c; constructor; try (unfold is_byte; destruct (Z.odd y); cbn [b2z]; lia);
      [apply be_bytes_byte|apply Forall_app; split; apply be_bytes_byte]. }
  pose proof (parse_spec elem _ HB') as T.
  destruct (secp256k1_eckey_pubkey_parse elem _) as [q ok]. destruct T as [T1 T2].
  split; [apply T1; now exists (Aff x y)|exact (T2 _ HE)].
Qed.

(** Tweaking commutes with taking the public key. Adding or multiplying a
    tweak on the secret key and on the public key succeeds in the same cases
    and leaves a matching pair. *)
Theorem tweaks_commute ctx key tweak elem : ctx_ok ctx -> sok key -> sok tweak ->
  sval key <> 0 -> ge_rep elem (smul (sval key) G_point) ->
  (let '(key', ok) := secp256k1_eckey_privkey_tweak_add key tweak in
   let '(elem', ok') := secp256k1_eckey_pubkey_tweak_add junk ctx elem tweak in
   sok key' /\ sval key' = (sval key + sval tweak) mod n_order /\
   ok = negb (sval key' =? 0) /\ ok' = ok /\
   ge_rep elem' (smul (if ok then sval key' else sval key) G_point)) /\
  (let '(key', ok) := secp256k1_eckey_privkey_tweak_mul key tweak in
   let '(elem', ok') := secp256k1_eckey_pubkey_tweak_mul junk ctx elem tweak in
   sok key' /\ ok = negb (sval tweak =? 0) /\ ok' = ok /\
   (ok = true -> sval key' = (sval key * sval tweak) mod n_order /\ sval key' <> 0) /\
   ge_rep elem' (smul (sval key') G_point)).
Proof.
  intros HC Hk Ht Nk He.
  exact (conj (tweak_add_spec junk Hjunk ctx key tweak elem HC Hk Ht Nk He)
              (tweak_mul_spec junk Hjunk ctx key tweak elem HC Hk Ht Nk He)).
Qed.
End EcdsaProperties.

(** ** Witnesses *)

#[local] Existing Instance field_5x52.
#[local] Existing Instance scalar_4x64.

Definition verify_ctx : secp256k1_ecmult_context :=
  secp256k1_ecmult_context_build zero_gej secp256k1_ecmult_context_init.

Lemma verify_ctx_ok : ctx_ok verify_ctx.
Proof. apply context_build_ok, zero_gej_mags. Qed.

Lemma small_scalar v : (0 <=? v) && (v <? 2 ^ 32) = true ->
  sok (s_set_int v) /\ sval (s_set_int v) = v.
Proof. rewrite andb_true_iff, Z.leb_le, Z.ltb_lt. apply s_set_int_ok. Qed.

Lemma built_gen_ctx : exists ctx, gen_ctx_ok ctx.
Proof.
  destruct blank_gen_built as (c & _ & R). exists c.
  exact (gen_reachable_ok zero_gej zero_gej_mags blank_hmac blank_sha blank_ok blank_ok blank_ok 1 c R).
Qed.

Lemma G_key d : sval d = 1 -> ge_rep secp256k1_ge_const_g (smul (sval d) G_point).
Proof. intros ->. rewrite smul_1. exact const_g_rep. Qed.

Lemma ecdsa_verify_decides_witness :
  secp256k1_ecdsa_sig_verify zero_gej verify_ctx (s_set_int 5) (s_set_int 6)
    secp256k1_ge_const_g (s_set_int 7) = true <->
  ecdsa_valid (sval (s_set_int 5)) (sval (s_set_int 6)) (sval (s_set_int 7)) G_point.
Proof.
  apply (ecdsa_verify_decides zero_gej zero_gej_mags);
    [exact verify_ctx_ok|now apply small_scalar..|exact const_g_rep|discriminate].
Defined.

Lemma ecdsa_sign_correct_witness : exists ctx,
  let '(r, s, recid, ret) := secp256k1_ecdsa_sig_sign ctx (s_set_int 1) (s_set_int 2) (s_set_int 3) in
  let e := sval r * sval (s_set_int 1) + sval (s_set_int 2) in
  sok r /\ sok s /\
  exists x y, smul (sval (s_set_int 3)) G_point = Aff x y /\ sval r = x mod n_order /\
  if e mod n_order =? 0 then ret = false else
    ret = true /\ 0 < sval s <= n_order / 2 /\ exists flip,
      sign_eq (sval s) (sval (s_set_int 3)) e flip /\ recid = recid_of x (xorb (Z.odd y) flip).
Proof.
  destruct built_gen_ctx as (c & R). exists c. apply ecdsa_sign_correct;
    [exact R|now apply small_scalar..|].
  destruct (small_scalar 3 eq_refl) as [_ ->]. discriminate.
Defined.

Lemma ecdsa_sign_verify_recover_witness : exists gctx,
  let '(r, s, recid, ret) :=
    secp256k1_ecdsa_sig_sign gctx (s_set_int 1) (s_set_int 2) (s_set_int 3) in
  ret = true -> sval r <> 0 ->
  secp256k1_ecdsa_sig_verify zero_gej verify_ctx r s secp256k1_ge_const_g (s_set_int 2) = true /\
  s_is_high s = false /\
  let '(q, ok) := secp256k1_ecdsa_sig_recover zero_gej verify_ctx r s secp256k1_ge_const_g
    (s_set_int 2) recid in
  ok = true /\ ge_rep q (smul (sval (s_set_int 1)) G_point).
Proof.
  destruct built_gen_ctx as (c & R). exists c.
  apply (ecdsa_sign_verify_recover zero_gej zero_gej_mags);
    [exact R|exact verify_ctx_ok
    |now apply small_scalar..| | | |exact (proj1 const_g_rep)].
  - destruct (small_scalar 3 eq_refl) as [_ ->]. discriminate.
  - destruct (small_scalar 1 eq_refl) as [_ ->]. discriminate.
  - apply G_key. now apply small_scalar.
Defined.

Lemma ecdsa_recover_correct_witness :
  let '(q, ok) := secp256k1_ecdsa_sig_recover zero_gej verify_ctx (s_set_int 5) (s_set_int 6)
    secp256k1_ge_const_g (s_set_int 7) 3 in
  (ok = true <-> exists Q,
     recovers (sval (s_set_int 5)) (sval (s_set_int 6)) (sval (s_set_int 7)) 3 Q) /\
  (ok = true -> exists Q,
     recovers (sval (s_set_int 5)) (sval (s_set_int 6)) (sval (s_set_int 7)) 3 Q /\ ge_rep q Q /\
     secp256k1_ecdsa_sig_verify zero_gej verify_ctx (s_set_int 5) (s_set_int 6) q (s_set_int 7) = true).
Proof.
  apply (ecdsa_recover_correct zero_gej zero_gej_mags verify_ctx (s_set_int 5) (s_set_int 6)
    secp256k1_ge_const_g (s_set_int 7) 3);
    [exact verify_ctx_ok|now apply small_scalar..|lia|exact (proj1 const_g_rep)].
Defined.

Lemma ecdsa_sign_zero_r_witness : exists k gctx, 0 < k < n_order /\ forall nonce, sok nonce -> sval nonce = k ->
  let '(r, s, recid, ret) := secp256k1_ecdsa_sig_sign gctx (s_set_int 1) (s_set_int 2) nonce in
  ret = true /\ sval r = 0 /\
  secp256k1_ecdsa_sig_verify zero_gej verify_ctx r s secp256k1_ge_const_g (s_set_int 2) = false.
Proof.
  destruct built_gen_ctx as (c & R). destruct (ecdsa_sign_zero_r zero_gej) as (k & Rk & H).
  exists k, c. split; [exact Rk|]. intros nonce Hn En. apply H;
    [exact R
    |now apply small_scalar..|exact Hn|exact En|].
  destruct (small_scalar 2 eq_refl) as [_ ->]. discriminate.
Defined.

Lemma pubkey_codec_witness :
  (let '(e, ok) := secp256k1_eckey_pubkey_parse secp256k1_ge_const_g [2; 1; 0] in
   (ok = true <-> exists P, pubkey_encodes [2; 1; 0] P) /\
   (forall P, pubkey_encodes [2; 1; 0] P -> ge_rep e P)) /\
  (let '(e, out) := secp256k1_eckey_pubkey_serialize secp256k1_ge_const_g true in
   exists octets, out = Some octets /\
   let '(q, ok) := secp256k1_eckey_pubkey_parse secp256k1_ge_const_g octets in
   ok = true /\ ge_rep q G_point).
Proof.
  destruct (pubkey_codec secp256k1_ge_const_g [2; 1; 0]) as [H1 H2].
  { repeat (constructor; [unfold is_byte; lia|]). constructor. }
  split; [exact H1|].
  pose proof (H2 _ _ true secp256k1_ge_const_g const_g_rep) as S.
  destruct (secp256k1_eckey_pubkey_serialize secp256k1_ge_const_g true) as [e out].
  destruct S as (Eo & _ & S). eexists. split; [exact Eo|]. exact (S _ Eo).
Defined.

Lemma tweaks_commute_witness :
  (let '(key', ok) := secp256k1_eckey_privkey_tweak_add (s_set_int 1) (s_set_int 9) in
   let '(elem', ok') := secp256k1_eckey_pubkey_tweak_add zero_gej verify_ctx secp256k1_ge_const_g
     (s_set_int 9) in
   sok key' /\ sval key' = (sval (s_set_int 1) + sval (s_set_int 9)) mod n_order /\
   ok = negb (sval key' =? 0) /\ ok' = ok /\
   ge_rep elem' (smul (if ok then sval key' else sval (s_set_int 1)) G_point)) /\
  (let '(key', ok) := secp256k1_eckey_privkey_tweak_mul (s_set_int 1) (s_set_int 9) in
   let '(elem', ok') := secp256k1_eckey_pubkey_tweak_mul zero_gej verify_ctx secp256k1_ge_const_g
     (s_set_int 9) in
   sok key' /\ ok = negb (sval (s_set_int 9) =? 0) /\ ok' = ok /\
   (ok = true -> sval key' = (sval (s_set_int 1) * sval (s_set_int 9)) mod n_order /\ sval key' <> 0) /\
   ge_rep elem' (smul (sval key') G_point)).
Proof.
  apply (tweaks_commute zero_gej zero_gej_mags); [exact verify_ctx_ok|now apply small_scalar..| |].
  - destruct (small_scalar 1 eq_refl) as [_ ->]. discriminate.
  - apply G_key. now apply small_scalar.
Defined.
