(* ===== verification/Der.v ===== *)
(** * ecdsa_impl.h: the DER encoding of signatures

    A pointer into the input is the list of the bytes from there to [sigend];
    its dereference is the head of the list, and [sigend - p] its length.  A
    parser that advances a pointer returns the rest of the list.  [size_t] has
    64 bits and [int] 32. *)
From S2P Require Import Prelude ScalarSpec.

Section Der.
Context {SI : ScalarImpl}.

(** The loop over the octets of a long-form length. *)
Fixpoint read_len_loop (lenleft : nat) (ret : Z) (sig : bytes) : Z * bytes :=
  match lenleft with
  | O => if ret <? 128 then (-1, sig) else (s32 ret, sig)
  | S n =>
    let ret := u64 (ret << 8) .| hd 0 sig in
    if Z.of_nat (length sig) <? u64 (ret + Z.of_nat lenleft) then (-1, sig)
    else read_len_loop n ret (tl sig)
  end.

Definition secp256k1_der_read_len (sig : bytes) : Z * bytes :=
  match sig with
  | [] => (-1, sig)
  | b1 :: sig =>
    if b1 =? 0xFF then (-1, sig) else
    if (b1 .& 0x80) =? 0 then (b1, sig) else
    if b1 =? 0x80 then (-1, sig) else
    let lenleft := b1 .& 0x7F in
    if Z.of_nat (length sig) <? lenleft then (-1, sig) else
    if hd 0 sig =? 0 then (-1, sig) else
    if 8 <? lenleft then (-1, sig) else
    read_len_loop (Z.to_nat lenleft) 0 sig
  end.

(** Skip leading zero bytes, at most [rlen] of them. *)
Fixpoint skip_zeros (rlen : nat) (sig : bytes) : nat * bytes :=
  match rlen with
  | O => (O, sig)
  | S n => if hd 0 sig =? 0 then skip_zeros n (tl sig) else (rlen, sig)
  end.

(** [None] is the return value 0; the scalar is the content of [*r]. *)
Definition secp256k1_der_parse_integer (sig : bytes) : option (scalar * bytes) :=
  match sig with
  | [] => None
  | tag :: sig =>
    if negb (tag =? 0x02) then None else
    let '(rlen, sig) := secp256k1_der_read_len sig in
    if (rlen <=? 0) || (Z.of_nat (length sig) <? rlen) then None else
    let b0 := nth 0 sig 0 in
    let b1 := nth 1 sig 0 in
    if (b0 =? 0x00) && (1 <? rlen) && ((b1 .& 0x80) =? 0x00) then None else
    if (b0 =? 0xFF) && (1 <? rlen) && ((b1 .& 0x80) =? 0x80) then None else
    let overflow := (b0 .& 0x80) =? 0x80 in
    let '(rlen, sig) := skip_zeros (Z.to_nat rlen) sig in
    let overflow := overflow || (Nat.ltb 32 rlen) in
    let '(r, overflow) :=
      if overflow then (s_set_int 0, true)
      else s_set_b32 (repeat 0 (32 - rlen) ++ firstn rlen sig) in
    let r := if overflow then s_set_int 0 else r in
    Some (r, skipn rlen sig)
  end.

Definition secp256k1_ecdsa_sig_parse (sig : bytes) : option (scalar * scalar) :=
  match sig with
  | [] => None
  | tag :: sig =>
    if negb (tag =? 0x30) then None else
    let '(rlen, sig) := secp256k1_der_read_len sig in
    if (rlen <? 0) || (Z.of_nat (length sig) <? rlen) then None else
    if negb (rlen =? Z.of_nat (length sig)) then None else
    match secp256k1_der_parse_integer sig with
    | None => None
    | Some (rr, sig) =>
      match secp256k1_der_parse_integer sig with
      | None => None
      | Some (rs, sig) => match sig with [] => Some (rr, rs) | _ => None end
      end
    end
  end.

(** Drop superfluous leading zeros; the length is that of the list. *)
Fixpoint strip_zeros (rp : bytes) : bytes :=
  match rp with
  | a :: ((b :: _) as rp') => if (a =? 0) && (b <? 0x80) then strip_zeros rp' else rp
  | _ => rp
  end.

(** The bytes written, if the buffer of [size] bytes is large enough, and the
    new value of [*size]. *)
Definition secp256k1_ecdsa_sig_serialize (size : Z) (ar as_ : scalar) : option bytes * Z :=
  let r := [0] ++ s_get_b32 ar in
  let s := [0] ++ s_get_b32 as_ in
  let rp := strip_zeros r in
  let sp := strip_zeros s in
  let lenR := Z.of_nat (length rp) in
  let lenS := Z.of_nat (length sp) in
  if size <? 6 + lenS + lenR then (None, 6 + lenS + lenR) else
  (Some ([0x30; u8 (4 + lenS + lenR); 0x02; u8 lenR] ++ rp ++ [0x02; u8 lenS] ++ sp),
   6 + lenS + lenR).

(** ** The encoding of an integer *)

(** What [strip_zeros] leaves of 33 bytes whose first is 0: the shortest
    encoding of the number as a non-negative DER integer. *)
Definition der_int (rp : bytes) : Prop :=
  Forall is_byte rp /\ (1 <= length rp <= 33)%nat /\ hd 0 rp < 0x80 /\
  (hd 0 rp = 0 -> (1 < length rp)%nat -> 0x80 <= nth 1 rp 0).

Lemma strip_zeros_spec l : Forall is_byte l -> (1 <= length l <= 33)%nat -> hd 0 l < 0x80 ->
  der_int (strip_zeros l) /\ be_val (strip_zeros l) = be_val l.
Proof.
  induction l as [|a l IH]; intros Hb Hl Hh; [cbn in Hl; lia|].
  destruct l as [|b l].
  { split; [|reflexivity]. split; [exact Hb|]. cbn in *. split; [lia|]. split; [lia|lia]. }
  change (strip_zeros (a :: b :: l))
    with (if (a =? 0) && (b <? 0x80) then strip_zeros (b :: l) else a :: b :: l).
  inversion Hb as [|? ? Ha Hb']; subst.
  destruct (Z.eqb_spec a 0) as [->|Hne]; cbn [andb].
  - destruct (Z.ltb_spec b 0x80) as [Hlt|Hge].
    + destruct (IH Hb' ltac:(cbn in *; lia) Hlt) as [H1 H2]. split; [exact H1|].
      rewrite H2, (be_val_cons 0), Z.mul_0_l. reflexivity.
    + split; [|reflexivity]. split; [exact Hb|]. split; [exact Hl|]. split; [exact Hh|].
      intros _ _. exact Hge.
  - split; [|reflexivity]. split; [exact Hb|]. split; [exact Hl|]. split; [exact Hh|].
    cbn. congruence.
Qed.

(** Skipping the zeros of an integer keeps its value. *)
Lemma skip_zeros_spec c rest : exists c',
  skip_zeros (length c) (c ++ rest) = (length c', c' ++ rest) /\
  be_val c' = be_val c /\ (forall P, Forall P c -> Forall P c') /\
  (c' = [] \/ hd 0 c' <> 0) /\ exists k, c = repeat 0 k ++ c'.
Proof.
  induction c as [|a c IH].
  - exists []. repeat split; auto. exists 0%nat. reflexivity.
  - cbn [length skip_zeros app hd tl]. destruct (Z.eqb_spec a 0) as [->|Ha].
    + destruct IH as (c' & H1 & H2 & H3 & H4 & k & H5). exists c'.
      split; [exact H1|]. split; [rewrite be_val_cons, Z.mul_0_l; exact H2|].
      split; [intros P HP; inversion HP; auto|]. split; [exact H4|].
      exists (S k). cbn. now rewrite H5.
    + exists (a :: c). repeat split; auto. exists 0%nat. reflexivity.
Qed.

(** A number with more than 32 significant bytes is above the order. *)
Lemma long_above_order c : Forall is_byte c -> hd 0 c <> 0 -> (32 < length c)%nat ->
  n_order <= be_val c.
Proof.
  intros Hb Hh Hl. destruct c as [|a c]; [cbn in Hl; lia|]. cbn [hd length] in *.
  inversion Hb as [|? ? Ha Hc]; subst. rewrite be_val_cons.
  pose proof (be_val_range _ Hc).
  assert (256 ^ 32 <= 256 ^ Z.of_nat (length c)) by (apply Z.pow_le_mono_r; lia).
  unfold is_byte in Ha. change (256 ^ 32) with (2 ^ 256) in *. unfold n_order. nia.
Qed.

(** ** The grammar: X.690 as the strict parser reads it *)

(** Length octets (8.1.3): the short form below 128, otherwise the long form
    with as few octets as possible. *)
Inductive der_length : bytes -> Z -> Prop :=
| der_short n : 0 <= n < 0x80 -> der_length [n] n
| der_long L : (1 <= length L <= 126)%nat -> hd 0 L <> 0 -> 0x80 <= be_val L ->
    der_length (0x80 + Z.of_nat (length L) :: L) (be_val L).

(** Content octets of an integer (8.3): at least one, and the first nine bits
    are neither all zero nor all one. *)
Definition der_content (c : bytes) : Prop :=
  c <> [] /\
  ((1 < length c)%nat -> ~ (hd 0 c = 0 /\ nth 1 c 0 < 0x80)
                      /\ ~ (hd 0 c = 0xFF /\ 0x80 <= nth 1 c 0)).

Definition der_integer (i c : bytes) : Prop :=
  exists lb, i = 0x02 :: lb ++ c /\ der_length lb (Z.of_nat (length c)) /\ der_content c.

(** A sequence of two integers that fill it, and nothing after it. *)
Definition der_signature (sig c1 c2 : bytes) : Prop :=
  exists lb i1 i2, sig = 0x30 :: lb ++ i1 ++ i2 /\
  der_length lb (Z.of_nat (length (i1 ++ i2))) /\ der_integer i1 c1 /\ der_integer i2 c2.

(** The number the parser takes content octets for: 0 when they denote a
    negative number or one that is not below the order. *)
Definition der_number (c : bytes) : Z :=
  if (0x80 <=? hd 0 c) || (n_order <=? be_val c) then 0 else be_val c.

Definition int_value (c : bytes) (r : scalar) : Prop := sok r /\ sval r = der_number c.

Lemma int_value_inj c r s : int_value c r -> int_value c s -> r = s.
Proof. intros [O1 V1] [O2 V2]. apply sok_inj; congruence. Qed.

Lemma be_val_zeros k l : be_val (repeat 0 k ++ l) = be_val l.
Proof.
  induction k as [|k IH]; [reflexivity|]. cbn [repeat app].
  rewrite be_val_cons, Z.mul_0_l. exact IH.
Qed.

Lemma parse_value c (overflow : bool) : Forall is_byte c -> (c = [] \/ hd 0 c <> 0) ->
  exists r, (let '(r, overflow) :=
      if overflow || Nat.ltb 32 (length c) then (s_set_int 0, true)
      else s_set_b32 (repeat 0 (32 - length c) ++ c) in
    if overflow then s_set_int 0 else r) = r /\
  sok r /\ sval r = if overflow || (n_order <=? be_val c) then 0 else be_val c.
Proof.
  intros Hb Hc. destruct (s_set_int_ok 0 ltac:(lia)) as [Hok Hv].
  destruct overflow; cbn [orb]; [eexists; eauto|].
  destruct (Nat.ltb_spec 32 (length c)) as [Hl|Hl].
  - exists (s_set_int 0). split; [reflexivity|]. split; [exact Hok|].
    destruct Hc as [->|Hc]; [cbn in Hl; lia|].
    rewrite (proj2 (Z.leb_le _ _) (long_above_order c Hb Hc Hl)). exact Hv.
  - pose proof (s_set_b32_ok (repeat 0 (32 - length c) ++ c)) as H.
    destruct (s_set_b32 _) as [a o]. rewrite be_val_zeros in H.
    destruct H as (Ha & Hva & Ho).
    + apply Forall_app. split; [|exact Hb]. apply Forall_forall. intros x Hx.
      apply repeat_spec in Hx. subst. unfold is_byte. lia.
    + rewrite length_app, repeat_length. lia.
    + subst o. destruct (Z.leb_spec n_order (be_val c)); [exists (s_set_int 0); auto|].
      exists a. split; [reflexivity|]. split; [exact Ha|]. rewrite Hva.
      apply Z.mod_small. pose proof (be_val_range _ Hb). lia.
Qed.

(** ** One integer *)

Lemma top_bit b : is_byte b -> b .& 0x80 = if b <? 0x80 then 0 else 0x80.
Proof.
  intros Hb. assert (forallb (fun k => (Z.of_nat k .& 0x80) =?
    (if Z.of_nat k <? 0x80 then 0 else 0x80)) (seq 0 256) = true) as H by reflexivity.
  rewrite forallb_forall in H. specialize (H (Z.to_nat b)). unfold is_byte in Hb.
  rewrite Z2Nat.id in H by lia. apply Z.eqb_eq, H, in_seq. lia.
Qed.

Lemma top_bit_clear b : is_byte b -> ((b .& 0x80) =? 0) = (b <? 0x80).
Proof. intros Hb. rewrite (top_bit b Hb). destruct (b <? 0x80); reflexivity. Qed.

Lemma top_bit_set b : is_byte b -> ((b .& 0x80) =? 0x80) = (0x80 <=? b).
Proof.
  intros Hb. rewrite (top_bit b Hb).
  destruct (Z.ltb_spec b 0x80), (Z.leb_spec 0x80 b); (reflexivity || lia).
Qed.

Lemma low_seven b : is_byte b -> 0x80 <= b -> b .& 0x7F = b - 0x80.
Proof.
  intros Hb H. change 0x7F with (Z.ones 7). rewrite Z.land_ones by lia. unfold is_byte in Hb.
  change (2 ^ 7) with 128. symmetry. apply (Z.mod_unique _ _ 1); lia.
Qed.

(** The loop over the octets [L] of a long form: a length that does not fit in
    what follows is rejected at the latest with the last octet. *)
Lemma read_len_loop_spec L rest : forall ret, 0 <= ret <= Z.of_nat (length rest) ->
  Forall is_byte L -> Z.of_nat (length (L ++ rest)) < 2 ^ 31 ->
  let n := ret * 256 ^ Z.of_nat (length L) + be_val L in
  if n <=? Z.of_nat (length rest)
  then read_len_loop (length L) ret (L ++ rest) = (if n <? 128 then -1 else n, rest)
  else fst (read_len_loop (length L) ret (L ++ rest)) = -1.
Proof.
  induction L as [|b L IH]; intros ret Hr Hb Hl; cbn zeta.
  - cbn [length app] in *. rewrite (Z.mul_1_r ret : ret * 256 ^ Z.of_nat 0 = ret).
    change (be_val []) with 0. rewrite Z.add_0_r, (proj2 (Z.leb_le _ _)) by lia.
    cbn [read_len_loop]. destruct (Z.ltb_spec ret 128); [reflexivity|].
    unfold s32. rewrite Z.mod_small by lia. f_equal. lia.
  - inversion Hb as [|? ? Hb0 Hb']; subst. unfold is_byte in Hb0.
    cbn [app length] in *. cbn [read_len_loop hd tl]. rewrite length_app in *.
    rewrite shl_mul by reflexivity. change (2 ^ 8) with 256. rewrite (u64_id (ret * 256)) by lia.
    replace ((ret * 256) .| b) with (b + ret * 256)
      by (rewrite Z.lor_comm; symmetry; apply (lor_join b ret 8); lia).
    rewrite u64_id by lia. cbn [length]. rewrite length_app, be_val_cons.
    replace (ret * 256 ^ Z.of_nat (S (length L)) + (b * 256 ^ Z.of_nat (length L) + be_val L))
      with ((b + ret * 256) * 256 ^ Z.of_nat (length L) + be_val L)
      by (rewrite Nat2Z.inj_succ, Z.pow_succ_r by lia; ring).
    destruct (Z.ltb_spec (Z.of_nat (S (length L + length rest)))
      (b + ret * 256 + Z.of_nat (S (length L)))) as [Hbig|Hfit].
    + pose proof (be_val_range L Hb'). pose proof (Z.pow_pos_nonneg 256 (Z.of_nat (length L))).
      rewrite (proj2 (Z.leb_gt _ _)) by nia. reflexivity.
    + apply IH; [lia|exact Hb'|lia].
Qed.

(** The parser reads exactly the length octets of the grammar. *)
Lemma read_len_sound sig k rest : secp256k1_der_read_len sig = (k, rest) ->
  Forall is_byte sig -> Z.of_nat (length sig) < 2 ^ 31 -> 0 <= k ->
  exists lb, der_length lb k /\ sig = lb ++ rest.
Proof.
  destruct sig as [|b sig]; cbn [secp256k1_der_read_len]; intros H Hb Hl Hk;
    [injection H as <- <-; lia|].
  inversion Hb as [|? ? Hb0 Hb']; subst. rewrite top_bit_clear in H by exact Hb0.
  destruct (Z.eqb_spec b 0xFF) as [|Nff]; [injection H as <- <-; lia|].
  destruct (Z.ltb_spec b 0x80) as [|Hge].
  { injection H as <- <-. exists [b]. split; [constructor; unfold is_byte in Hb0; lia|reflexivity]. }
  destruct (Z.eqb_spec b 0x80) as [|N80]; [injection H as <- <-; lia|].
  rewrite (low_seven b Hb0 Hge) in H. unfold is_byte in Hb0. set (n := Z.to_nat (b - 0x80)) in *.
  destruct (Z.ltb_spec (Z.of_nat (length sig)) (b - 0x80)) as [|Hn]; [injection H as <- <-; lia|].
  destruct (Z.eqb_spec (hd 0 sig) 0) as [|H0]; [injection H as <- <-; lia|].
  destruct (8 <? b - 0x80); [injection H as <- <-; lia|].
  assert (EL : length (firstn n sig) = n) by (rewrite length_firstn; lia).
  rewrite <- (firstn_skipn n sig) in H, Hb', Hl, H0 |- *.
  set (L := firstn n sig) in *. set (tail := skipn n sig) in *. clearbody L tail.
  apply Forall_app in Hb' as [HbL _]. cbn [length] in Hl.
  pose proof (read_len_loop_spec L tail 0 ltac:(lia) HbL ltac:(lia)) as S. cbn zeta in S.
  rewrite EL, Z.mul_0_l, Z.add_0_l in S. destruct (be_val L <=? _).
  2:{ rewrite H in S. cbn [fst] in S. lia. }
  rewrite S in H. injection H as <- <-. destruct (Z.ltb_spec (be_val L) 128); [lia|].
  exists (b :: L). split; [|reflexivity].
  replace b with (0x80 + Z.of_nat (length L)) by lia.
  constructor; [lia| |assumption]. destruct L; [cbn [length] in EL; lia|exact H0].
Qed.

Lemma read_len_complete lb n rest : der_length lb n -> Forall is_byte lb ->
  n <= Z.of_nat (length rest) -> Z.of_nat (length (lb ++ rest)) < 2 ^ 31 ->
  secp256k1_der_read_len (lb ++ rest) = (n, rest).
Proof.
  intros H Hb Hn Hl. destruct H as [n Hs|L HL H0 HV].
  { cbn [app secp256k1_der_read_len]. rewrite top_bit_clear by (unfold is_byte; lia).
    destruct (Z.eqb_spec n 0xFF); [lia|]. destruct (Z.ltb_spec n 0x80); [reflexivity|lia]. }
  remember (0x80 + Z.of_nat (length L)) as b eqn:Eb. cbn [app secp256k1_der_read_len].
  inversion Hb as [|? ? Hb0 HbL]; subst x l. rewrite (top_bit_clear b Hb0), (low_seven b Hb0) by lia.
  destruct (Z.eqb_spec b 0xFF); [lia|]. destruct (Z.ltb_spec b 0x80); [lia|].
  destruct (Z.eqb_spec b 0x80); [lia|].
  replace (b - 0x80) with (Z.of_nat (length L)) by lia.
  cbn [app length] in Hl. rewrite length_app in Hl |- *.
  rewrite (proj2 (Z.ltb_ge _ _)) by lia.
  replace (hd 0 (L ++ rest)) with (hd 0 L) by (destruct L; [cbn in HL; lia|reflexivity]).
  rewrite (proj2 (Z.eqb_neq _ _) H0).
  assert (Z.of_nat (length L) <= 8).
  { destruct L as [|a L]; [cbn in HL; lia|]. cbn [hd length] in *.
    inversion HbL as [|? ? Ha HbL']; subst. unfold is_byte in Ha.
    destruct (Z.le_gt_cases (Z.of_nat (S (length L))) 8) as [|Hbig]; [assumption|exfalso].
    rewrite be_val_cons in Hn. pose proof (be_val_range L HbL').
    assert (256 ^ 8 <= 256 ^ Z.of_nat (length L)) by (apply Z.pow_le_mono_r; lia). nia. }
  rewrite (proj2 (Z.ltb_ge _ _)), Nat2Z.id by lia.
  pose proof (read_len_loop_spec L rest 0 ltac:(lia) HbL) as S. rewrite length_app in S.
  specialize (S ltac:(lia)). cbn zeta in S.
  rewrite Z.mul_0_l, Z.add_0_l, (proj2 (Z.leb_le _ _) Hn) in S.
  now rewrite S, (proj2 (Z.ltb_ge _ _) HV).
Qed.

(** The content octets [c] are read as the number they denote, 0 when it is
    negative or not below the order. *)
Lemma parse_content c rest : Forall is_byte c ->
  exists r,
  (let '(rlen, sig) := skip_zeros (length c) (c ++ rest) in
   let overflow := (0x80 <=? hd 0 c) || (Nat.ltb 32 rlen) in
   let '(r, overflow) :=
     if overflow then (s_set_int 0, true)
     else s_set_b32 (repeat 0 (32 - rlen) ++ firstn rlen sig) in
   let r := if overflow then s_set_int 0 else r in
   Some (r, skipn rlen sig)) = Some (r, rest) /\ int_value c r.
Proof.
  intros Hb. destruct (skip_zeros_spec c rest) as (c' & -> & Hv & HP & Hc' & _).
  rewrite firstn_app_exact, skipn_app_exact by reflexivity.
  destruct (parse_value c' (0x80 <=? hd 0 c) (HP _ Hb) Hc') as (r & Hr & Hok & Hval).
  exists r. split; [|split; [exact Hok|rewrite Hval, Hv; reflexivity]].
  rewrite <- Hr. cbv zeta.
  destruct (if (0x80 <=? hd 0 c) || Nat.ltb 32 (length c') then _ else _) as [x o].
  reflexivity.
Qed.

(** The padding tests of the parser. *)
Definition padded (c : bytes) : bool :=
  ((hd 0 c =? 0) && Nat.ltb 1 (length c) && (nth 1 c 0 <? 0x80))
  || ((hd 0 c =? 0xFF) && Nat.ltb 1 (length c) && (0x80 <=? nth 1 c 0)).

Lemma padded_spec c : c <> [] -> padded c = false <-> der_content c.
Proof.
  intros Hc. unfold padded, der_content. rewrite orb_false_iff, !andb_false_iff.
  rewrite !Z.eqb_neq, Nat.ltb_ge, Z.ltb_ge, Z.leb_gt. split.
  - intros [H1 H2]. split; [exact Hc|]. lia.
  - intros [_ H]. lia.
Qed.

(** An integer whose length octets announce the content octets [c]. *)
Lemma parse_integer_after sig c rest : Forall is_byte c -> c <> [] ->
  secp256k1_der_read_len sig = (Z.of_nat (length c), c ++ rest) ->
  exists r, int_value c r /\
  secp256k1_der_parse_integer (0x02 :: sig) = if padded c then None else Some (r, rest).
Proof.
  intros Hb Hc EL. destruct (parse_content c rest Hb) as (r & Hr & Hval).
  exists r. split; [exact Hval|]. cbn [secp256k1_der_parse_integer].
  change (negb (0x02 =? 0x02)) with false. cbv iota. rewrite EL, Nat2Z.id.
  destruct c as [|a c]; [contradiction|]. cbn [length].
  rewrite (proj2 (Z.leb_gt _ _)), (proj2 (Z.ltb_ge _ _)) by (rewrite ?length_app; cbn [length]; lia).
  inversion Hb as [|? ? Ha Hb']; subst. cbn [orb].
  change (nth 0 ((a :: c) ++ rest) 0) with a. change (hd 0 (a :: c)) with a in Hr.
  rewrite !(top_bit_set a) by exact Ha. cbn [length] in Hr. rewrite Hr.
  unfold padded. cbn [hd length].
  destruct c as [|b c].
  - change (1 <? Z.of_nat 1) with false. change (Nat.ltb 1 1) with false.
    now rewrite !andb_false_r.
  - inversion Hb' as [|? ? Hb1 _]; subst. cbn [app nth length].
    rewrite (top_bit_clear b Hb1), (top_bit_set b Hb1).
    rewrite (proj2 (Z.ltb_lt 1 _)) by lia.
    replace (Nat.ltb 1 (S (S (length c)))) with true by reflexivity.
    destruct ((a =? 0) && true && (b <? 128)); [reflexivity|].
    now destruct ((a =? 0xFF) && true && (0x80 <=? b)).
Qed.

(** The parser of one integer decides the grammar. *)
Lemma parse_integer_sound sig r rest : Forall is_byte sig ->
  Z.of_nat (length sig) < 2 ^ 31 -> secp256k1_der_parse_integer sig = Some (r, rest) ->
  exists i c, der_integer i c /\ sig = i ++ rest /\ int_value c r.
Proof.
  intros Hb Hl H. destruct sig as [|tag sig]; [discriminate H|].
  destruct (Z.eqb_spec tag 0x02) as [->|Ht].
  2:{ cbn [secp256k1_der_parse_integer] in H.
      rewrite (proj2 (Z.eqb_neq _ _) Ht) in H. discriminate H. }
  inversion Hb as [|? ? _ Hb']; subst. cbn [length] in Hl.
  destruct (secp256k1_der_read_len sig) as [k sig'] eqn:EL.
  assert (K : 0 < k <= Z.of_nat (length sig')).
  { cbn [secp256k1_der_parse_integer] in H. rewrite EL in H.
    change (negb (0x02 =? 0x02)) with false in H. cbv iota in H.
    destruct (Z.leb_spec k 0); [discriminate H|].
    destruct (Z.ltb_spec (Z.of_nat (length sig')) k); [discriminate H|lia]. }
  destruct (read_len_sound sig k sig' EL Hb' ltac:(lia) ltac:(lia)) as (lb & Hlb & Es).
  rewrite <- (firstn_skipn (Z.to_nat k) sig') in EL, Es.
  assert (Hc : Z.of_nat (length (firstn (Z.to_nat k) sig')) = k) by (rewrite length_firstn; lia).
  set (c := firstn (Z.to_nat k) sig') in *. set (rest' := skipn (Z.to_nat k) sig') in *.
  clearbody c rest'. subst k sig.
  assert (Hcb : Forall is_byte c) by (rewrite !Forall_app in Hb'; tauto).
  assert (Hne : c <> []) by (intros ->; cbn in K; lia).
  destruct (parse_integer_after _ c rest' Hcb Hne EL) as (x & Hx & E). rewrite E in H.
  destruct (padded c) eqn:P; [discriminate H|]. injection H as -> ->.
  exists (0x02 :: lb ++ c), c. split; [|split; [cbn [app]; now rewrite <- app_assoc|exact Hx]].
  exists lb. split; [reflexivity|]. split; [exact Hlb|]. now apply padded_spec.
Qed.

Lemma parse_integer_complete i c rest : Forall is_byte (i ++ rest) ->
  Z.of_nat (length (i ++ rest)) < 2 ^ 31 -> der_integer i c ->
  exists r, secp256k1_der_parse_integer (i ++ rest) = Some (r, rest) /\ int_value c r.
Proof.
  intros Hb Hl (lb & -> & Hlb & Hc). cbn [app length] in *. rewrite <- app_assoc in *.
  inversion Hb as [|? ? _ Hb']; subst. rewrite !Forall_app in Hb'.
  assert (EL : secp256k1_der_read_len (lb ++ c ++ rest) = (Z.of_nat (length c), c ++ rest)).
  { apply read_len_complete; [exact Hlb|tauto| |]; rewrite ?length_app in *; lia. }
  destruct (parse_integer_after _ c rest (proj1 (proj2 Hb')) (proj1 Hc) EL) as (r & Hr & E).
  exists r. rewrite E, (proj2 (padded_spec c (proj1 Hc)) Hc). auto.
Qed.

(** ** The whole signature *)

Lemma sig_parse_after sig c : secp256k1_der_read_len sig = (Z.of_nat (length c), c) ->
  secp256k1_ecdsa_sig_parse (0x30 :: sig) =
  match secp256k1_der_parse_integer c with
  | None => None
  | Some (rr, c) =>
    match secp256k1_der_parse_integer c with
    | None => None
    | Some (rs, c) => match c with [] => Some (rr, rs) | _ => None end
    end
  end.
Proof.
  intros E. cbn [secp256k1_ecdsa_sig_parse]. change (negb (0x30 =? 0x30)) with false. cbv iota.
  rewrite E, Z.ltb_irrefl, Z.eqb_refl, (proj2 (Z.ltb_ge _ _)) by lia. reflexivity.
Qed.

Lemma sig_parse_sound sig r s : Forall is_byte sig -> Z.of_nat (length sig) < 2 ^ 31 ->
  secp256k1_ecdsa_sig_parse sig = Some (r, s) ->
  exists c1 c2, der_signature sig c1 c2 /\ int_value c1 r /\ int_value c2 s.
Proof.
  intros Hb Hl H. destruct sig as [|tag sig]; [discriminate H|].
  destruct (Z.eqb_spec tag 0x30) as [->|Ht].
  2:{ cbn [secp256k1_ecdsa_sig_parse] in H.
      rewrite (proj2 (Z.eqb_neq _ _) Ht) in H. discriminate H. }
  inversion Hb as [|? ? _ Hb']; subst. cbn [length] in Hl.
  destruct (secp256k1_der_read_len sig) as [k body] eqn:EL.
  assert (K : k = Z.of_nat (length body)).
  { cbn [secp256k1_ecdsa_sig_parse] in H. rewrite EL in H.
    change (negb (0x30 =? 0x30)) with false in H. cbv iota in H.
    destruct (_ || _); [discriminate H|].
    destruct (Z.eqb_spec k (Z.of_nat (length body))); [assumption|discriminate H]. }
  subst k. rewrite (sig_parse_after sig body EL) in H.
  destruct (read_len_sound sig _ body EL Hb' ltac:(lia) ltac:(lia)) as (lb & Hlb & ->).
  apply Forall_app in Hb' as [_ Hbb]. rewrite length_app in Hl.
  destruct (secp256k1_der_parse_integer body) as [[rr b1]|] eqn:E1; [|discriminate H].
  destruct (secp256k1_der_parse_integer b1) as [[rs b2]|] eqn:E2; [|discriminate H].
  destruct b2; [|discriminate H]. injection H as -> ->.
  destruct (parse_integer_sound _ _ _ Hbb ltac:(lia) E1) as (i1 & c1 & G1 & -> & V1).
  apply Forall_app in Hbb as [_ Hb1]. rewrite length_app in Hl.
  destruct (parse_integer_sound _ _ _ Hb1 ltac:(lia) E2) as (i2 & c2 & G2 & -> & V2).
  rewrite app_nil_r in *. exists c1, c2. split; [|now split]. exists lb, i1, i2. auto.
Qed.

Lemma sig_parse_complete sig c1 c2 : Forall is_byte sig -> Z.of_nat (length sig) < 2 ^ 31 ->
  der_signature sig c1 c2 -> exists r s,
  secp256k1_ecdsa_sig_parse sig = Some (r, s) /\ int_value c1 r /\ int_value c2 s.
Proof.
  intros Hb Hl (lb & i1 & i2 & -> & Hlb & G1 & G2). inversion Hb as [|? ? _ Hb']; subst.
  cbn [length] in Hl. rewrite length_app in Hl. apply Forall_app in Hb' as [Hbl Hbb].
  rewrite (sig_parse_after _ (i1 ++ i2)) by (apply read_len_complete; [exact Hlb|exact Hbl|lia|rewrite length_app; lia]).
  destruct (parse_integer_complete i1 c1 i2 Hbb ltac:(lia) G1) as (r & -> & V1).
  apply Forall_app in Hbb as [_ Hb2]. rewrite length_app in Hl.
  destruct (parse_integer_complete i2 c2 [] ltac:(now rewrite app_nil_r)
    ltac:(rewrite app_nil_r; lia) G2) as (s & E & V2).
  rewrite app_nil_r in E. rewrite E. exists r, s. auto.
Qed.

(** ** The canonical encoding of a pair of scalars *)

(** Without excess padding, more than 33 octets denote a number above the order. *)
Lemma long_unpadded c : Forall is_byte c -> (33 < length c)%nat ->
  (hd 0 c = 0 -> 0x80 <= nth 1 c 0) -> n_order <= be_val c.
Proof.
  intros Hb Hl Hp. destruct c as [|a c]; [cbn in Hl; lia|]. cbn [hd] in Hp.
  inversion Hb as [|? ? _ Hb']; subst. cbn [length] in Hl.
  destruct (Z.eq_dec a 0) as [->|Ha].
  - rewrite be_val_cons, Z.mul_0_l. apply long_above_order; [exact Hb'| |lia].
    specialize (Hp eq_refl). destruct c; [cbn in Hl; lia|]. cbn in *. lia.
  - apply long_above_order; [exact Hb|exact Ha|cbn [length]; lia].
Qed.

(** Content octets read as a non-zero number are its shortest encoding. *)
Lemma content_nonzero c : Forall is_byte c -> der_content c -> der_number c <> 0 ->
  der_int c /\ der_number c = be_val c.
Proof.
  unfold der_number, der_int. intros Hb [Hne Hp].
  destruct (Z.leb_spec 0x80 (hd 0 c)); cbn [orb]; [congruence|].
  destruct (Z.leb_spec n_order (be_val c)); [congruence|]. intros _.
  assert (L1 : (1 <= length c)%nat) by (destruct c; [congruence|cbn; lia]).
  assert (P : hd 0 c = 0 -> (1 < length c)%nat -> 0x80 <= nth 1 c 0).
  { intros Z0 Z1. destruct (Hp Z1) as [N _]. lia. }
  split; [|reflexivity]. split; [exact Hb|]. split; [split; [exact L1|]|now split].
  destruct (Nat.le_gt_cases (length c) 33) as [|HL]; [assumption|].
  pose proof (long_unpadded c Hb HL (fun E => P E ltac:(lia))). lia.
Qed.

Lemma der_length_short lb n : der_length lb n -> n < 0x80 -> lb = [n].
Proof. intros [m Hm|L H1 H2 H3] Hn; [reflexivity|lia]. Qed.

(** The unique DER encoding of a pair of scalars. *)
Definition der_sig (c1 c2 sig : bytes) : Prop :=
  der_int c1 /\ der_int c2 /\
  sig = 0x30 :: Z.of_nat (4 + length c2 + length c1) ::
    (0x02 :: Z.of_nat (length c1) :: c1 ++ (0x02 :: Z.of_nat (length c2) :: c2)).

Definition der_scalar (a : scalar) : bytes := strip_zeros ([0] ++ s_get_b32 a).

Lemma der_scalar_spec a : sok a -> der_int (der_scalar a) /\ be_val (der_scalar a) = sval a.
Proof.
  intros Ha. unfold der_scalar. rewrite s_get_b32_ok by exact Ha.
  pose proof (sok_range a Ha) as Hr.
  destruct (strip_zeros_spec ([0] ++ be_bytes 32 (sval a))) as [H1 H2].
  - constructor; [unfold is_byte; lia|apply be_bytes_byte].
  - cbn [app length]. rewrite length_be_bytes. lia.
  - cbn. lia.
  - split; [exact H1|]. rewrite H2. cbn [app]. rewrite be_val_cons, be_val_bytes.
    rewrite Z.mod_small; [lia|]. unfold n_order in Hr. change (256 ^ Z.of_nat 32) with (2 ^ 256). lia.
Qed.

(** The content octets are determined by the number. *)
Lemma der_int_nz c : der_int c -> hd 0 c <> 0 ->
  256 ^ (Z.of_nat (length c) - 1) <= be_val c < 0x80 * 256 ^ (Z.of_nat (length c) - 1).
Proof.
  intros (Hb & Hl & Hh & _) Hz. destruct c as [|a c]; [cbn in Hl; lia|]. cbn [hd] in *.
  inversion Hb as [|? ? Ha Hb']; subst. unfold is_byte in Ha. rewrite be_val_cons.
  pose proof (be_val_range _ Hb'). cbn [length].
  replace (Z.of_nat (S (length c)) - 1) with (Z.of_nat (length c)) by lia. nia.
Qed.

Lemma der_int_length c d : der_int c -> der_int d -> be_val c = be_val d ->
  (length c <= length d)%nat.
Proof.
  intros Hc Hd E. pose proof (proj1 (proj2 Hd)) as Hdl.
  destruct (Nat.le_gt_cases (length c) (length d)) as [|HL]; [assumption|exfalso].
  assert (be_val d < 0x80 * 256 ^ (Z.of_nat (length c) - 2)).
  { destruct d as [|b d]; [cbn in Hdl; lia|]. destruct Hd as (Hb & _ & Hh & _). cbn [hd] in Hh.
    inversion Hb as [|? ? Ha Hb']; subst. rewrite be_val_cons. pose proof (be_val_range _ Hb').
    cbn [length] in HL. unfold is_byte in Ha.
    assert (256 ^ Z.of_nat (length d) <= 256 ^ (Z.of_nat (length c) - 2))
      by (apply Z.pow_le_mono_r; lia). nia. }
  assert (0x80 * 256 ^ (Z.of_nat (length c) - 2) <= be_val c); [|lia].
  destruct (Z.eq_dec (hd 0 c) 0) as [Hz|Hz].
  - destruct Hc as (Hb & _ & _ & Hp). specialize (Hp Hz ltac:(lia)).
    destruct c as [|a [|b c]]; cbn [length] in HL; try lia. cbn [hd nth] in *. subst a.
    rewrite be_val_cons, Z.mul_0_l, be_val_cons. cbn [length].
    replace (Z.of_nat (S (S (length c))) - 2) with (Z.of_nat (length c)) by lia.
    inversion Hb as [|? ? _ Hb2]; inversion Hb2 as [|? ? _ Hb3]; subst.
    pose proof (be_val_range _ Hb3). nia.
  - pose proof (der_int_nz c Hc Hz).
    replace (Z.of_nat (length c) - 1) with (1 + (Z.of_nat (length c) - 2)) in * by lia.
    rewrite Z.pow_add_r in * by lia. change (256 ^ 1) with 256 in *. lia.
Qed.

Lemma der_int_unique c d : der_int c -> der_int d -> be_val c = be_val d -> c = d.
Proof.
  intros Hc Hd E. apply be_val_inj; [apply Hc|apply Hd| |exact E].
  apply Nat.le_antisymm; apply der_int_length; auto.
Qed.

(** Serialising gives the encoding, when the buffer is large enough. *)
Lemma serialize_spec size a b : sok a -> sok b ->
  let len := 6 + Z.of_nat (length (der_scalar b)) + Z.of_nat (length (der_scalar a)) in
  secp256k1_ecdsa_sig_serialize size a b =
    ((if size <? len then None else Some (0x30 :: Z.of_nat (4 + length (der_scalar b) + length (der_scalar a)) ::
    (0x02 :: Z.of_nat (length (der_scalar a)) :: der_scalar a ++
    (0x02 :: Z.of_nat (length (der_scalar b)) :: der_scalar b)))), len).
Proof.
  intros Ha Hb. destruct (der_scalar_spec a Ha) as [(_ & Hla & _) _].
  destruct (der_scalar_spec b Hb) as [(_ & Hlb & _) _].
  unfold secp256k1_ecdsa_sig_serialize. fold (der_scalar a). fold (der_scalar b). cbv zeta.
  unfold u8. rewrite !Z.mod_small by lia.
  replace (4 + Z.of_nat (length (der_scalar b)) + Z.of_nat (length (der_scalar a)))
    with (Z.of_nat (4 + length (der_scalar b) + length (der_scalar a))) by lia.
  destruct (_ <? _); reflexivity.
Qed.

Lemma der_int_content c : der_int c -> der_content c.
Proof.
  intros (_ & Hl & Hh & Hp). split; [intros ->; cbn in Hl; lia|]. intros L. split; intros [H0 H1].
  - specialize (Hp H0 L). lia.
  - lia.
Qed.

Lemma der_sig_signature c1 c2 sig : der_sig c1 c2 sig -> der_signature sig c1 c2.
Proof.
  intros (H1 & H2 & ->). pose proof (proj1 (proj2 H1)). pose proof (proj1 (proj2 H2)).
  exists [Z.of_nat (4 + length c2 + length c1)], (0x02 :: Z.of_nat (length c1) :: c1),
    (0x02 :: Z.of_nat (length c2) :: c2).
  split; [reflexivity|]. split; [|split].
  - replace (Z.of_nat (length _)) with (Z.of_nat (4 + length c2 + length c1)).
    + constructor. lia.
    + rewrite length_app. cbn [length]. lia.
  - exists [Z.of_nat (length c1)]. split; [reflexivity|]. split; [constructor; lia|now apply der_int_content].
  - exists [Z.of_nat (length c2)]. split; [reflexivity|]. split; [constructor; lia|now apply der_int_content].
Qed.

Lemma der_sig_byte c1 c2 sig : der_sig c1 c2 sig ->
  Forall is_byte sig /\ Z.of_nat (length sig) = 6 + Z.of_nat (length c1) + Z.of_nat (length c2).
Proof.
  intros ((B1 & L1 & _) & (B2 & L2 & _) & ->). split.
  - repeat (apply Forall_cons; [unfold is_byte; lia|]). apply Forall_app. split; [exact B1|].
    repeat (apply Forall_cons; [unfold is_byte; lia|]). exact B2.
  - cbn [length]. rewrite length_app. cbn [length]. lia.
Qed.

Lemma parse_der_sig c1 c2 sig : der_sig c1 c2 sig -> exists r s,
  secp256k1_ecdsa_sig_parse sig = Some (r, s) /\ int_value c1 r /\ int_value c2 s.
Proof.
  intros D. destruct (der_sig_byte c1 c2 sig D) as [Hb Hl].
  destruct D as (D1 & D2 & E). pose proof (proj1 (proj2 D1)). pose proof (proj1 (proj2 D2)).
  apply sig_parse_complete; [exact Hb|lia|]. now apply der_sig_signature.
Qed.

Lemma sig_parse_inv sig r s : secp256k1_ecdsa_sig_parse sig = Some (r, s) ->
  Forall is_byte sig -> Z.of_nat (length sig) < 2 ^ 31 -> sval r <> 0 -> sval s <> 0 ->
  exists c1 c2, der_sig c1 c2 sig /\ sok r /\ sok s /\ sval r = be_val c1 /\ sval s = be_val c2.
Proof.
  intros H Hb Hl Hr Hs.
  destruct (sig_parse_sound sig r s Hb Hl H) as (c1 & c2 & G & (O1 & V1) & (O2 & V2)).
  destruct G as (lb & i1 & i2 & -> & Hlb & (l1 & -> & Hl1 & G1) & (l2 & -> & Hl2 & G2)).
  inversion Hb as [|? ? _ Hb']; subst. apply Forall_app in Hb' as [_ Hb']. cbn [app] in Hb'.
  inversion Hb' as [|? ? _ Hb1]; subst. rewrite Forall_app, Forall_app in Hb1.
  destruct Hb1 as [[_ B1] Hb2]. inversion Hb2 as [|? ? _ Hb3]; subst. apply Forall_app in Hb3 as [_ B2].
  rewrite V1 in Hr. rewrite V2 in Hs.
  destruct (content_nonzero c1 B1 G1 Hr) as [D1 N1]. destruct (content_nonzero c2 B2 G2 Hs) as [D2 N2].
  pose proof (proj1 (proj2 D1)). pose proof (proj1 (proj2 D2)).
  rewrite (der_length_short _ _ Hl1) in * by lia. rewrite (der_length_short _ _ Hl2) in * by lia.
  exists c1, c2. rewrite V1, V2. split; [|auto]. split; [exact D1|]. split; [exact D2|].
  assert (Le : length ((0x02 :: [Z.of_nat (length c1)] ++ c1) ++ 0x02 :: [Z.of_nat (length c2)] ++ c2)
    = (4 + length c2 + length c1)%nat) by (cbn [app length]; rewrite length_app; cbn [length]; lia).
  rewrite Le in Hlb. now rewrite (der_length_short _ _ Hlb) by lia.
Qed.

(** What is written is read back. *)
Lemma der_codec r s size : sok r -> sok s ->
  exists sig len, len = Z.of_nat (length sig) /\ 8 <= len <= 72 /\
  secp256k1_ecdsa_sig_serialize size r s = (if size <? len then None else Some sig, len) /\
  secp256k1_ecdsa_sig_parse sig = Some (r, s).
Proof.
  intros Hr Hs. destruct (der_scalar_spec r Hr) as [Dr Vr]. destruct (der_scalar_spec s Hs) as [Ds Vs].
  pose proof (sok_range r Hr). pose proof (sok_range s Hs).
  pose proof (proj1 (proj2 Dr)). pose proof (proj1 (proj2 Ds)).
  rewrite serialize_spec by assumption. eexists _, _.
  split; [|split; [|split; [reflexivity|]]].
  2: lia.
  { cbn [length]. rewrite length_app. cbn [length]. lia. }
  edestruct parse_der_sig as (r' & s' & E & (Or & Er) & (Os & Es)); [exact (conj Dr (conj Ds eq_refl))|].
  rewrite E. unfold der_number in Er, Es. rewrite Vr in Er. rewrite Vs in Es.
  rewrite (proj2 (Z.leb_gt _ _)), (proj2 (Z.leb_gt _ _)) in Er by (apply Dr || lia).
  rewrite (proj2 (Z.leb_gt _ _)), (proj2 (Z.leb_gt _ _)) in Es by (apply Ds || lia).
  now rewrite (sok_inj r' r), (sok_inj s' s).
Qed.
(** Bytes read as a pair of non-zero scalars are what is written for it. *)
Lemma serialize_parsed sig r s : Forall is_byte sig -> Z.of_nat (length sig) < 2 ^ 31 ->
  secp256k1_ecdsa_sig_parse sig = Some (r, s) -> sval r <> 0 -> sval s <> 0 ->
  secp256k1_ecdsa_sig_serialize 72 r s = (Some sig, Z.of_nat (length sig)).
Proof.
  intros Hb Hl H Hr Hs.
  destruct (sig_parse_inv sig r s H Hb Hl Hr Hs) as (c1 & c2 & (D1 & D2 & ->) & Or & Os & V1 & V2).
  destruct (der_scalar_spec r Or) as [Dr Wr]. destruct (der_scalar_spec s Os) as [Ds Ws].
  rewrite serialize_spec by assumption.
  rewrite (der_int_unique _ c1 Dr D1), (der_int_unique _ c2 Ds D2) by congruence.
  pose proof (proj1 (proj2 D1)). pose proof (proj1 (proj2 D2)).
  rewrite (proj2 (Z.ltb_ge _ _)) by lia. f_equal.
  cbn [length]. rewrite length_app. cbn [length]. lia.
Qed.
End Der.
