(* ===== verification/DerProperties.v ===== *)
(** * Properties of the DER encoding of signatures

    Stated for any implementation of the scalars. *)
From S2P Require Import Prelude ScalarSpec Scalar4x64 Der.

Section DerProperties.
Context {SI : ScalarImpl}.

(** Every pair of scalars is serialised to an encoding of at most 72
    bytes, of the announced length, which the strict parser reads back as the
    same pair; a smaller buffer is rejected, nothing is written, and the
    needed size is reported. *)
Theorem der_roundtrip r s size : sok r -> sok s ->
  exists sig len, len = Z.of_nat (length sig) /\ 8 <= len <= 72 /\
  secp256k1_ecdsa_sig_serialize size r s = (if size <? len then None else Some sig, len) /\
  secp256k1_ecdsa_sig_parse sig = Some (r, s).
Proof. apply der_codec. Qed.

(** C33: the strict parser decides the DER grammar of signatures.  On any bytes
    it gives the pair (r, s) exactly when they are a sequence of two integers
    of the grammar whose numbers are r and s, a negative number or one that is
    not below the order counting as 0; it fails exactly on the bytes that are
    not in the grammar.  What the serialiser writes for a pair of scalars is
    read back as that pair, and bytes read as a pair of non-zero scalars are the
    ones the serialiser writes for it: such a pair has one accepted encoding. *)
Theorem der_decides_grammar sig : Forall is_byte sig -> Z.of_nat (length sig) < 2 ^ 31 ->
  (forall r s, secp256k1_ecdsa_sig_parse sig = Some (r, s) <->
     exists c1 c2, der_signature sig c1 c2 /\
       (sok r /\ sval r = der_number c1) /\ (sok s /\ sval s = der_number c2)) /\
  (secp256k1_ecdsa_sig_parse sig = None <-> ~ exists c1 c2, der_signature sig c1 c2) /\
  (forall r s, sok r -> sok s ->
     let written := secp256k1_ecdsa_sig_serialize 72 r s = (Some sig, Z.of_nat (length sig)) in
     (written -> secp256k1_ecdsa_sig_parse sig = Some (r, s)) /\
     (secp256k1_ecdsa_sig_parse sig = Some (r, s) -> sval r <> 0 -> sval s <> 0 -> written)).
Proof.
  intros Hb Hl. split; [|split].
  - intros r s. split; [exact (sig_parse_sound sig r s Hb Hl)|].
    intros (c1 & c2 & G & V1 & V2).
    destruct (sig_parse_complete sig c1 c2 Hb Hl G) as (r' & s' & E & V1' & V2').
    now rewrite E, (int_value_inj c1 r' r V1' V1), (int_value_inj c2 s' s V2' V2).
  - split.
    + intros E (c1 & c2 & G). destruct (sig_parse_complete sig c1 c2 Hb Hl G) as (r & s & E' & _).
      congruence.
    + intros N. destruct (secp256k1_ecdsa_sig_parse sig) as [[r s]|] eqn:E; [|reflexivity].
      destruct (sig_parse_sound sig r s Hb Hl E) as (c1 & c2 & G & _). destruct N. eauto.
  - intros r s Hr Hs. split.
    + intros W. destruct (der_codec r s 72 Hr Hs) as (enc & len & _ & L & S & P).
      rewrite (proj2 (Z.ltb_ge _ _)) in S by lia. rewrite S in W. injection W as -> _. exact P.
    + intros P Nr Ns. now apply serialize_parsed.
Qed.
End DerProperties.

(** A literal scalar is reduced. *)
Ltac canon_lit :=
  split; [split; (split; vm_compute; congruence)|vm_compute; reflexivity].

Lemma der_roundtrip_witness :
  let r := Scalar 0x80 0 0 0 in
  let s := Scalar 0xBFD25E8CD0364140 0xBAAEDCE6AF48A03B 0xFFFFFFFFFFFFFFFE 0xFFFFFFFFFFFFFFFF in
  exists sig len, len = Z.of_nat (length sig) /\ 8 <= len <= 72 /\
  secp256k1_ecdsa_sig_serialize (SI := scalar_4x64) 72 r s
    = (if 72 <? len then None else Some sig, len) /\
  secp256k1_ecdsa_sig_parse (SI := scalar_4x64) sig = Some (r, s).
Proof. intros r s. apply (der_roundtrip (SI := scalar_4x64) r s 72); canon_lit. Defined.

(** 30 06 02 01 81 02 01 01: the first integer is negative and read as 0. *)
Lemma der_decides_grammar_witness :
  let sig := [0x30; 6; 0x02; 1; 0x81; 0x02; 1; 1] in
  secp256k1_ecdsa_sig_parse (SI := scalar_4x64) sig = Some (Scalar 0 0 0 0, Scalar 1 0 0 0) /\
  exists c1 c2, der_signature sig c1 c2 /\
    (sok (Scalar 0 0 0 0) /\ 0 = der_number c1) /\ (sok (Scalar 1 0 0 0) /\ 1 = der_number c2).
Proof.
  intros sig.
  assert (P : secp256k1_ecdsa_sig_parse (SI := scalar_4x64) sig
    = Some (Scalar 0 0 0 0, Scalar 1 0 0 0)) by (vm_compute; reflexivity).
  split; [exact P|]. refine (proj1 (proj1 (der_decides_grammar (SI := scalar_4x64) sig _ _) _ _) P).
  - repeat constructor; unfold is_byte; lia.
  - vm_compute. reflexivity.
Defined.
