(* ===== verification/Api.v ===== *)
(** * secp256k1.c: the public interface

    A pointer argument is an [option], [None] being NULL; what a pointer points
    to is passed in and the new content is part of the result.  The opaque
    structures [secp256k1_pubkey] and [secp256k1_ecdsa_signature] hold the
    bytes of a [secp256k1_ge_storage] and of two [secp256k1_scalar] (both have
    exactly the size of the structure, so the code copies them); the model
    keeps the structure those bytes are.  A failed ARG_CHECK calls the illegal
    argument callback of the context and, when the callback returns, gives 0:
    every result carries the list of those calls. *)
From Stdlib Require Import String.
From S2P Require Import Prelude Primes FieldSpec Field ScalarSpec Scalar Sha256Spec Hash.
From S2P Require Import CurveSpec CurveGroup CurveOrder CurveCount Group Ecmult EcmultGen.
From S2P Require Import Ecdsa Eckey Der.

(** The functions a callback pointer can hold: the two defaults of the library,
    which print and abort, or one of the caller's. *)
Inductive callback_fn :=
| default_illegal_callback_fn
| default_error_callback_fn
| user_callback_fn (id : nat).

Record secp256k1_callback := Callback { cb_fn : callback_fn; cb_data : Z }.

Definition default_illegal_callback : secp256k1_callback :=
  Callback default_illegal_callback_fn 0.

Definition default_error_callback : secp256k1_callback :=
  Callback default_error_callback_fn 0.

Definition calls := list (secp256k1_callback * string).

(** Return value, contents behind the output pointers, callback calls. *)
Record api (A : Type) := Api { ret : bool; out : A; illegal : calls }.

Arguments Api {A} _ _ _.
Arguments ret {A} _.
Arguments out {A} _.
Arguments illegal {A} _.

Definition SECP256K1_FLAGS_TYPE_MASK : Z := (1 << 8) - 1.
Definition SECP256K1_FLAGS_TYPE_CONTEXT : Z := 1 << 0.
Definition SECP256K1_FLAGS_TYPE_COMPRESSION : Z := 1 << 1.
Definition SECP256K1_FLAGS_BIT_CONTEXT_VERIFY : Z := 1 << 8.
Definition SECP256K1_FLAGS_BIT_CONTEXT_SIGN : Z := 1 << 9.
Definition SECP256K1_FLAGS_BIT_COMPRESSION : Z := 1 << 8.
Definition SECP256K1_CONTEXT_VERIFY : Z :=
  SECP256K1_FLAGS_TYPE_CONTEXT .| SECP256K1_FLAGS_BIT_CONTEXT_VERIFY.
Definition SECP256K1_CONTEXT_SIGN : Z :=
  SECP256K1_FLAGS_TYPE_CONTEXT .| SECP256K1_FLAGS_BIT_CONTEXT_SIGN.
Definition SECP256K1_CONTEXT_NONE : Z := SECP256K1_FLAGS_TYPE_CONTEXT.
Definition SECP256K1_EC_COMPRESSED : Z :=
  SECP256K1_FLAGS_TYPE_COMPRESSION .| SECP256K1_FLAGS_BIT_COMPRESSION.
Definition SECP256K1_EC_UNCOMPRESSED : Z := SECP256K1_FLAGS_TYPE_COMPRESSION.

(** A nonce function gets msg32, key32, algo16, data and the attempt number;
    [None] is a return value of 0. *)
Definition secp256k1_nonce_function : Type :=
  bytes -> bytes -> option bytes -> option bytes -> Z -> option bytes.

Section Api.
Context {F : FieldImpl} {SI : ScalarImpl} (junk : secp256k1_gej).
Context (hmac0 : hmac_sha256_t) (scratch : sha256_t).

Record secp256k1_context := Ctx {
  ecmult_ctx : secp256k1_ecmult_context;
  ecmult_gen_ctx : secp256k1_ecmult_gen_context;
  ecmult_gen_switch_ctx : secp256k1_ecmult_gen_context;
  illegal_callback : secp256k1_callback;
  error_callback : secp256k1_callback
}.

(** A failed ARG_CHECK; [o] is what the outputs hold then. *)
Definition arg_fail {A} (ctx : secp256k1_context) (what : string) (o : A) : api A :=
  Api false o [(illegal_callback ctx, what)].

Definition ARG_CHECK {A} (ctx : secp256k1_context) (cond : bool) (what : string) (o : A)
    (k : api A) : api A :=
  if cond then k else arg_fail ctx what o.

Definition not_null {A} (ptr : option A) : bool := match ptr with Some _ => true | None => false end.

(** ** Contexts *)

(** [blank] is the content of the allocated memory. *)
Definition secp256k1_context_create (fuel : nat) (blank : secp256k1_ecmult_gen_context)
    (flags : Z) : option (option secp256k1_context * calls) :=
  if negb ((flags .& SECP256K1_FLAGS_TYPE_MASK) =? SECP256K1_FLAGS_TYPE_CONTEXT) then
    Some (None, [(default_illegal_callback, "Invalid flags"%string)])
  else
  let ec := secp256k1_ecmult_context_init in
  let gen := secp256k1_ecmult_gen_context_init blank in
  let switch := secp256k1_ecmult_gen_context_init blank in
  match
    (if negb ((flags .& SECP256K1_FLAGS_BIT_CONTEXT_SIGN) =? 0) then
       match secp256k1_ecmult_gen_context_build junk hmac0 scratch fuel gen,
             secp256k1_ecmult_gen_context_build junk hmac0 scratch fuel switch with
       | Some gen, Some switch => Some (gen, switch)
       | _, _ => None
       end
     else Some (gen, switch)) with
  | None => None
  | Some (gen, switch) =>
    let ec :=
      if negb ((flags .& SECP256K1_FLAGS_BIT_CONTEXT_VERIFY) =? 0) then
        secp256k1_ecmult_context_build junk ec
      else ec in
    Some (Some (Ctx ec gen switch default_illegal_callback default_error_callback), [])
  end.

Definition secp256k1_context_clone (blank : secp256k1_ecmult_gen_context)
    (ctx : secp256k1_context) : secp256k1_context :=
  Ctx (secp256k1_ecmult_context_clone (ecmult_ctx ctx))
    (secp256k1_ecmult_gen_context_clone blank (ecmult_gen_ctx ctx))
    (secp256k1_ecmult_gen_context_clone blank (ecmult_gen_switch_ctx ctx))
    (illegal_callback ctx) (error_callback ctx).

(** What the freed memory held last. *)
Definition secp256k1_context_destroy (ctx : option secp256k1_context) : option secp256k1_context :=
  match ctx with
  | None => None
  | Some ctx =>
    Some (Ctx (secp256k1_ecmult_context_clear (ecmult_ctx ctx))
      (secp256k1_ecmult_gen_context_clear (ecmult_gen_ctx ctx))
      (secp256k1_ecmult_gen_context_clear (ecmult_gen_switch_ctx ctx))
      (illegal_callback ctx) (error_callback ctx))
  end.

Definition secp256k1_context_set_illegal_callback (ctx : secp256k1_context)
    (fn : option callback_fn) (data : Z) : secp256k1_context :=
  let fn := match fn with None => default_illegal_callback_fn | Some fn => fn end in
  Ctx (ecmult_ctx ctx) (ecmult_gen_ctx ctx) (ecmult_gen_switch_ctx ctx)
    (Callback fn data) (error_callback ctx).

Definition secp256k1_context_set_error_callback (ctx : secp256k1_context)
    (fn : option callback_fn) (data : Z) : secp256k1_context :=
  let fn := match fn with None => default_error_callback_fn | Some fn => fn end in
  Ctx (ecmult_ctx ctx) (ecmult_gen_ctx ctx) (ecmult_gen_switch_ctx ctx)
    (illegal_callback ctx) (Callback fn data).

(** [None] is an exhausted retry loop. *)
Definition secp256k1_context_randomize (fuel : nat) (ctx : secp256k1_context)
    (seed32 : option bytes) : option (api secp256k1_context) :=
  if secp256k1_ecmult_gen_context_is_built (ecmult_gen_ctx ctx) then
    match secp256k1_ecmult_gen_blind hmac0 scratch fuel (ecmult_gen_ctx ctx) seed32 with
    | None => None
    | Some gen =>
      Some (Api true (Ctx (ecmult_ctx ctx) gen (ecmult_gen_switch_ctx ctx)
        (illegal_callback ctx) (error_callback ctx)) [])
    end
  else
    Some (Api false ctx [(illegal_callback ctx,
      "secp256k1_ecmult_gen_context_is_built(&ctx->ecmult_gen_ctx)"%string)]).

(** ** Public keys *)

Definition secp256k1_pubkey : Type := secp256k1_ge_storage.

(** [memset(pubkey, 0, sizeof(pubkey))] *)
Definition pubkey_zero : secp256k1_pubkey := storage_zero.

Definition secp256k1_pubkey_load (ctx : secp256k1_context) (pubkey : secp256k1_pubkey)
    : api secp256k1_ge :=
  let ge := secp256k1_ge_from_storage pubkey in
  ARG_CHECK ctx (negb (fe_is_zero (gx ge))) "!secp256k1_fe_is_zero(&ge->x)" ge
    (Api true ge []).

Definition secp256k1_pubkey_save (ge : secp256k1_ge) : secp256k1_pubkey :=
  secp256k1_ge_to_storage ge.

Definition secp256k1_ec_pubkey_parse (ctx : secp256k1_context) (pubkey : option secp256k1_pubkey)
    (input : option bytes) : api (option secp256k1_pubkey) :=
  ARG_CHECK ctx (not_null pubkey) "pubkey != NULL" pubkey (
  match input with
  | None => arg_fail ctx "input != NULL" (Some pubkey_zero)
  | Some input =>
    let '(Q, ok) := secp256k1_eckey_pubkey_parse (junk_ge junk) input in
    if negb ok then Api false (Some pubkey_zero) [] else
    Api true (Some (secp256k1_pubkey_save Q)) []
  end).

(** [output] has [*outputlen] bytes. *)
Definition secp256k1_ec_pubkey_serialize (ctx : secp256k1_context) (output : option bytes)
    (outputlen : option Z) (pubkey : option secp256k1_pubkey) (flags : Z)
    : api (option bytes * option Z) :=
  match outputlen with
  | None => arg_fail ctx "outputlen != NULL" (output, outputlen)
  | Some len =>
    let compressed := negb ((flags .& SECP256K1_FLAGS_BIT_COMPRESSION) =? 0) in
    ARG_CHECK ctx ((if compressed then 33 else 65) <=? len)
      "*outputlen >= ((flags & SECP256K1_FLAGS_BIT_COMPRESSION) ? 33 : 65)" (output, outputlen) (
    ARG_CHECK ctx (not_null output) "output != NULL" (output, Some 0) (
    let zeros := repeat 0 (Z.to_nat len) in
    match pubkey with
    | None => arg_fail ctx "pubkey != NULL" (Some zeros, Some 0)
    | Some pubkey =>
      ARG_CHECK ctx ((flags .& SECP256K1_FLAGS_TYPE_MASK) =? SECP256K1_FLAGS_TYPE_COMPRESSION)
        "(flags & SECP256K1_FLAGS_TYPE_MASK) == SECP256K1_FLAGS_TYPE_COMPRESSION" (Some zeros, Some 0) (
      let load := secp256k1_pubkey_load ctx pubkey in
      if negb (ret load) then Api false (Some zeros, Some 0) (illegal load) else
      match snd (secp256k1_eckey_pubkey_serialize (out load) compressed) with
      | None => Api false (Some zeros, Some 0) (illegal load)
      | Some octets =>
        Api true (Some (overwrite zeros 0 octets), Some (Z.of_nat (length octets))) (illegal load)
      end)
    end))
  end.

Definition secp256k1_ec_pubkey_negate (ctx : secp256k1_context) (pubkey : option secp256k1_pubkey)
    : api (option secp256k1_pubkey) :=
  match pubkey with
  | None => arg_fail ctx "pubkey != NULL" None
  | Some pubkey =>
    let load := secp256k1_pubkey_load ctx pubkey in
    if ret load then
      Api true (Some (secp256k1_pubkey_save (secp256k1_ge_neg (out load)))) (illegal load)
    else Api false (Some pubkey_zero) (illegal load)
  end.

(** The loop of [secp256k1_ec_pubkey_combine]. *)
Fixpoint combine_loop (ctx : secp256k1_context) (pubnonces : list secp256k1_pubkey)
    (Qj : secp256k1_gej) (log : calls) : secp256k1_gej * calls :=
  match pubnonces with
  | [] => (Qj, log)
  | pk :: pubnonces =>
    let load := secp256k1_pubkey_load ctx pk in
    combine_loop ctx pubnonces (secp256k1_gej_add_ge Qj (out load)) (log ++ illegal load)
  end.

(** The array has [n] pointers, none of them NULL. *)
Definition secp256k1_ec_pubkey_combine (ctx : secp256k1_context) (pubnonce : option secp256k1_pubkey)
    (pubnonces : option (list secp256k1_pubkey)) (n : nat) : api (option secp256k1_pubkey) :=
  ARG_CHECK ctx (not_null pubnonce) "pubnonce != NULL" pubnonce (
  ARG_CHECK ctx (Nat.leb 1 n) "n >= 1" (Some pubkey_zero) (
  match pubnonces with
  | None => arg_fail ctx "pubnonces != NULL" (Some pubkey_zero)
  | Some pubnonces =>
    let '(Qj, log) :=
      combine_loop ctx (firstn n pubnonces) (secp256k1_gej_set_infinity junk) [] in
    if secp256k1_gej_is_infinity Qj then Api false (Some pubkey_zero) log else
    let '(Q, _) := secp256k1_ge_set_gej Qj in
    Api true (Some (secp256k1_pubkey_save Q)) log
  end)).

(** ** Signatures *)

Definition secp256k1_ecdsa_signature : Type := scalar * scalar.

(** [memset(sig, 0, sizeof(sig))] *)
Definition signature_zero : secp256k1_ecdsa_signature := (s_set_int 0, s_set_int 0).

Definition secp256k1_ecdsa_signature_load (sig : secp256k1_ecdsa_signature) : scalar * scalar := sig.

Definition secp256k1_ecdsa_signature_save (r s : scalar) : secp256k1_ecdsa_signature := (r, s).

Definition secp256k1_ecdsa_signature_parse_der (ctx : secp256k1_context)
    (sig : option secp256k1_ecdsa_signature) (input : option bytes)
    : api (option secp256k1_ecdsa_signature) :=
  ARG_CHECK ctx (not_null sig) "sig != NULL" sig (
  match input with
  | None => arg_fail ctx "input != NULL" sig
  | Some input =>
    match secp256k1_ecdsa_sig_parse input with
    | Some (r, s) => Api true (Some (secp256k1_ecdsa_signature_save r s)) []
    | None => Api false (Some signature_zero) []
    end
  end).

Definition secp256k1_ecdsa_signature_parse_compact (ctx : secp256k1_context)
    (sig : option secp256k1_ecdsa_signature) (input64 : option bytes)
    : api (option secp256k1_ecdsa_signature) :=
  ARG_CHECK ctx (not_null sig) "sig != NULL" sig (
  match input64 with
  | None => arg_fail ctx "input64 != NULL" sig
  | Some input64 =>
    let ret := true in
    let '(r, overflow) := s_set_b32 (slice input64 0 32) in
    let ret := ret && negb overflow in
    let '(s, overflow) := s_set_b32 (slice input64 32 32) in
    let ret := ret && negb overflow in
    if ret then Api true (Some (secp256k1_ecdsa_signature_save r s)) []
    else Api false (Some signature_zero) []
  end).

(** [output] has [*outputlen] bytes. *)
Definition secp256k1_ecdsa_signature_serialize_der (ctx : secp256k1_context)
    (output : option bytes) (outputlen : option Z) (sig : option secp256k1_ecdsa_signature)
    : api (option bytes * option Z) :=
  match output, outputlen, sig with
  | None, _, _ => arg_fail ctx "output != NULL" (output, outputlen)
  | _, None, _ => arg_fail ctx "outputlen != NULL" (output, outputlen)
  | _, _, None => arg_fail ctx "sig != NULL" (output, outputlen)
  | Some buf, Some len, Some sig =>
    let '(r, s) := secp256k1_ecdsa_signature_load sig in
    match secp256k1_ecdsa_sig_serialize len r s with
    | (None, size) => Api false (Some buf, Some size) []
    | (Some octets, size) => Api true (Some (overwrite buf 0 octets), Some size) []
    end
  end.

Definition secp256k1_ecdsa_signature_serialize_compact (ctx : secp256k1_context)
    (output64 : option bytes) (sig : option secp256k1_ecdsa_signature) : api (option bytes) :=
  match output64, sig with
  | None, _ => arg_fail ctx "output64 != NULL" output64
  | _, None => arg_fail ctx "sig != NULL" output64
  | Some buf, Some sig =>
    let '(r, s) := secp256k1_ecdsa_signature_load sig in
    let buf := overwrite buf 0 (s_get_b32 r) in
    let buf := overwrite buf 32 (s_get_b32 s) in
    Api true (Some buf) []
  end.

Definition secp256k1_ecdsa_signature_normalize (ctx : secp256k1_context)
    (sigout sigin : option secp256k1_ecdsa_signature) : api (option secp256k1_ecdsa_signature) :=
  match sigin with
  | None => arg_fail ctx "sigin != NULL" sigout
  | Some sigin =>
    let '(r, s) := secp256k1_ecdsa_signature_load sigin in
    let ret := s_is_high s in
    let sigout :=
      match sigout with
      | None => None
      | Some _ =>
        let s := if ret then s_negate s else s in
        Some (secp256k1_ecdsa_signature_save r s)
      end in
    Api ret sigout []
  end.

(** No output but the answer. *)
Definition secp256k1_ecdsa_verify (ctx : secp256k1_context)
    (sig : option secp256k1_ecdsa_signature) (msg32 : option bytes)
    (pubkey : option secp256k1_pubkey) : api unit :=
  ARG_CHECK ctx (secp256k1_ecmult_context_is_built (ecmult_ctx ctx))
    "secp256k1_ecmult_context_is_built(&ctx->ecmult_ctx)" tt (
  match msg32, sig, pubkey with
  | None, _, _ => arg_fail ctx "msg32 != NULL" tt
  | _, None, _ => arg_fail ctx "sig != NULL" tt
  | _, _, None => arg_fail ctx "pubkey != NULL" tt
  | Some msg32, Some sig, Some pubkey =>
    let '(m, _) := s_set_b32 msg32 in
    let '(r, s) := secp256k1_ecdsa_signature_load sig in
    if negb (negb (s_is_high s)) then Api false tt [] else
    let load := secp256k1_pubkey_load ctx pubkey in
    if negb (ret load) then Api false tt (illegal load) else
    Api (secp256k1_ecdsa_sig_verify junk (ecmult_ctx ctx) r s (out load) m) tt (illegal load)
  end).

(** ** Signing *)

(** The outputs of the [for (i = 0; i <= counter; i++)] loop; the last one
    stays in nonce32.  (For the largest counter that loop never ends; the
    callers stop long before.) *)
Fixpoint nonce_loop (n : nat) (rng : rfc6979_t) (nonce32 : bytes) : bytes :=
  match n with
  | O => nonce32
  | S n =>
    let '(rng, nonce32) := secp256k1_rfc6979_hmac_sha256_generate hmac0 scratch rng 32 in
    nonce_loop n rng nonce32
  end.

Definition nonce_function_rfc6979 : secp256k1_nonce_function :=
  fun msg32 key32 algo16 data counter =>
  let keydata := key32 ++ msg32 in
  let keydata := keydata ++ match data with Some data => firstn 32 data | None => [] end in
  let keydata := keydata ++ match algo16 with Some algo16 => firstn 16 algo16 | None => [] end in
  let rng := secp256k1_rfc6979_hmac_sha256_initialize hmac0 scratch keydata in
  Some (nonce_loop (S (Z.to_nat counter)) rng []).

Definition secp256k1_nonce_function_default : secp256k1_nonce_function := nonce_function_rfc6979.

(** The [while (1)] loop: [None] when the fuel is used up, otherwise r, s and
    the recovery id, or [Some None] if the nonce function gives up. *)
Fixpoint sign_loop (fuel : nat) (ctx : secp256k1_context) (sec msg : scalar)
    (msg32 seckey : bytes) (noncefp : secp256k1_nonce_function) (noncedata : option bytes)
    (count : Z) : option (option (scalar * scalar * Z)) :=
  match fuel with
  | O => None
  | S fuel =>
    match noncefp msg32 seckey None noncedata count with
    | None => Some None
    | Some nonce32 =>
      let '(non, overflow) := s_set_b32 nonce32 in
      if negb overflow && negb (s_is_zero non) then
        let '(r, s, recid, ok) := secp256k1_ecdsa_sig_sign (ecmult_gen_ctx ctx) sec msg non in
        if ok then Some (Some (r, s, recid))
        else sign_loop fuel ctx sec msg msg32 seckey noncefp noncedata (u32 (count + 1))
      else sign_loop fuel ctx sec msg msg32 seckey noncefp noncedata (u32 (count + 1))
    end
  end.

Definition secp256k1_ecdsa_sign (fuel : nat) (ctx : secp256k1_context)
    (signature : option secp256k1_ecdsa_signature) (msg32 seckey : option bytes)
    (noncefp : option secp256k1_nonce_function) (noncedata : option bytes)
    : option (api (option secp256k1_ecdsa_signature)) :=
  if negb (secp256k1_ecmult_gen_context_is_built (ecmult_gen_ctx ctx)) then
    Some (arg_fail ctx "secp256k1_ecmult_gen_context_is_built(&ctx->ecmult_gen_ctx)" signature)
  else
  match msg32, signature, seckey with
  | None, _, _ => Some (arg_fail ctx "msg32 != NULL" signature)
  | _, None, _ => Some (arg_fail ctx "signature != NULL" signature)
  | _, _, None => Some (arg_fail ctx "seckey != NULL" signature)
  | Some msg32, Some _, Some seckey =>
    let noncefp := match noncefp with None => secp256k1_nonce_function_default | Some f => f end in
    let '(sec, overflow) := s_set_b32 seckey in
    if negb overflow && negb (s_is_zero sec) then
      let '(msg, _) := s_set_b32 msg32 in
      match sign_loop fuel ctx sec msg msg32 seckey noncefp noncedata 0 with
      | None => None
      | Some (Some (r, s, _)) => Some (Api true (Some (secp256k1_ecdsa_signature_save r s)) [])
      | Some None => Some (Api false (Some signature_zero) [])
      end
    else Some (Api false (Some signature_zero) [])
  end.

(** ** Secret keys *)

Definition secp256k1_ec_seckey_verify (ctx : secp256k1_context) (seckey : option bytes) : api unit :=
  match seckey with
  | None => arg_fail ctx "seckey != NULL" tt
  | Some seckey =>
    let '(sec, overflow) := s_set_b32 seckey in
    Api (negb overflow && negb (s_is_zero sec)) tt []
  end.

Definition secp256k1_ec_pubkey_create (ctx : secp256k1_context) (pubkey : option secp256k1_pubkey)
    (seckey : option bytes) : api (option secp256k1_pubkey) :=
  ARG_CHECK ctx (not_null pubkey) "pubkey != NULL" pubkey (
  ARG_CHECK ctx (secp256k1_ecmult_gen_context_is_built (ecmult_gen_ctx ctx))
    "secp256k1_ecmult_gen_context_is_built(&ctx->ecmult_gen_ctx)" (Some pubkey_zero) (
  match seckey with
  | None => arg_fail ctx "seckey != NULL" (Some pubkey_zero)
  | Some seckey =>
    let '(sec, overflow) := s_set_b32 seckey in
    if negb overflow && negb (s_is_zero sec) then
      let pj := secp256k1_ecmult_gen (ecmult_gen_ctx ctx) sec in
      let '(p, _) := secp256k1_ge_set_gej pj in
      Api true (Some (secp256k1_pubkey_save p)) []
    else Api false (Some pubkey_zero) []
  end)).

Definition secp256k1_ec_privkey_negate (ctx : secp256k1_context) (seckey : option bytes)
    : api (option bytes) :=
  match seckey with
  | None => arg_fail ctx "seckey != NULL" None
  | Some seckey =>
    let '(sec, _) := s_set_b32 seckey in
    let sec := s_negate sec in
    Api true (Some (s_get_b32 sec)) []
  end.

(** The two functions that tweak a secret key, with the operation a parameter. *)
Definition privkey_tweak (op : scalar -> scalar -> scalar * bool) (ctx : secp256k1_context)
    (seckey tweak : option bytes) : api (option bytes) :=
  match seckey, tweak with
  | None, _ => arg_fail ctx "seckey != NULL" seckey
  | _, None => arg_fail ctx "tweak != NULL" seckey
  | Some seckey, Some tweak =>
    let '(term, overflow) := s_set_b32 tweak in
    let '(sec, _) := s_set_b32 seckey in
    let '(sec, ret) := if negb overflow then op sec term else (sec, false) in
    if ret then Api true (Some (s_get_b32 sec)) []
    else Api false (Some (repeat 0 32)) []
  end.

Definition secp256k1_ec_privkey_tweak_add := privkey_tweak secp256k1_eckey_privkey_tweak_add.

Definition secp256k1_ec_privkey_tweak_mul := privkey_tweak secp256k1_eckey_privkey_tweak_mul.

(** The same for public keys. *)
Definition pubkey_tweak (op : secp256k1_ecmult_context -> secp256k1_ge -> scalar -> secp256k1_ge * bool)
    (ctx : secp256k1_context) (pubkey : option secp256k1_pubkey) (tweak : option bytes)
    : api (option secp256k1_pubkey) :=
  ARG_CHECK ctx (secp256k1_ecmult_context_is_built (ecmult_ctx ctx))
    "secp256k1_ecmult_context_is_built(&ctx->ecmult_ctx)" pubkey (
  match pubkey, tweak with
  | None, _ => arg_fail ctx "pubkey != NULL" pubkey
  | _, None => arg_fail ctx "tweak != NULL" pubkey
  | Some pubkey, Some tweak =>
    let '(term, overflow) := s_set_b32 tweak in
    if overflow then Api false (Some pubkey_zero) [] else
    let load := secp256k1_pubkey_load ctx pubkey in
    if negb (ret load) then Api false (Some pubkey_zero) (illegal load) else
    let '(p, ok) := op (ecmult_ctx ctx) (out load) term in
    if ok then Api true (Some (secp256k1_pubkey_save p)) (illegal load)
    else Api false (Some pubkey_zero) (illegal load)
  end).

Definition secp256k1_ec_pubkey_tweak_add := pubkey_tweak (secp256k1_eckey_pubkey_tweak_add junk).

Definition secp256k1_ec_pubkey_tweak_mul := pubkey_tweak (secp256k1_eckey_pubkey_tweak_mul junk).

(** * Theorems

    ** Public keys in memory *)

(** The structure holds the finite point P. *)
Definition pk_rep (pk : secp256k1_pubkey) (P : point) : Prop :=
  P <> Inf /\ exists g, ge_rep g P /\ pk = secp256k1_pubkey_save g.

Lemma pk_save g P : ge_rep g P -> P <> Inf -> pk_rep (secp256k1_pubkey_save g) P.
Proof. intros H HP. split; [exact HP|]. now exists g. Qed.

Lemma pk_load ctx pk P : pk_rep pk P -> exists g,
  secp256k1_pubkey_load ctx pk = Api true g [] /\ ge_rep g P.
Proof.
  intros (HP & g & Hg & ->). unfold secp256k1_pubkey_load, secp256k1_pubkey_save.
  pose proof (storage_roundtrip g P Hg HP) as R. eexists. split; [|exact (proj1 R)].
  destruct P as [|x y]; [contradiction|]. destruct (ge_finite _ _ _ Hg) as (Hc & _ & Kx & _).
  destruct (coord_norm _ 8 x Kx eq_refl (proj1 Hc)) as [Nx Vx].
  cbn [secp256k1_ge_to_storage secp256k1_ge_from_storage sx sy gx].
  rewrite (fe_from_to_storage _ Nx), (fe_is_zero_ok _ Nx), Vx.
  rewrite (proj2 (Z.eqb_neq _ _) (x_nonzero x y Hc)). reflexivity.
Qed.

(** The zero bytes a failed call leaves are not a key: loading them is reported. *)
Lemma pk_zero_load ctx : exists g, secp256k1_pubkey_load ctx pubkey_zero
  = Api false g [(illegal_callback ctx, "!secp256k1_fe_is_zero(&ge->x)"%string)].
Proof.
  unfold secp256k1_pubkey_load, pubkey_zero, storage_zero, secp256k1_ge_from_storage.
  destruct (fe_set_int_ok 0 ltac:(lia)) as [N V]. cbn [sx sy gx].
  rewrite (fe_from_to_storage _ N), (fe_is_zero_ok _ N), V. eexists. reflexivity.
Qed.

(** ** Keys *)

(** Octets that are a valid secret key or tweak. *)
Definition seckey_ok (b : bytes) : Prop := Forall is_byte b /\ length b = 32%nat.

Definition seckey_valid (b : bytes) : bool := (0 <? be_val b) && (be_val b <? n_order).

Lemma seckey_read b : seckey_ok b ->
  let '(sec, overflow) := s_set_b32 b in
  sok sec /\ sval sec = be_val b mod n_order /\ overflow = (n_order <=? be_val b) /\
  negb overflow && negb (s_is_zero sec) = seckey_valid b /\
  (seckey_valid b = true -> sval sec = be_val b /\ 0 < sval sec < n_order).
Proof.
  intros [HB HL]. pose proof (s_set_b32_ok b HB HL) as H. destruct (s_set_b32 b) as [sec o].
  destruct H as (Ok & V & ->). pose proof (proj1 (be_val_range b HB)) as Nn.
  unfold seckey_valid. rewrite (s_is_zero_ok _ Ok).
  destruct (Z.leb_spec n_order (be_val b)) as [L|L]; cbn [negb andb].
  - rewrite (proj2 (Z.ltb_ge _ _) L), andb_false_r.
    split; [exact Ok|]. split; [exact V|]. split; [reflexivity|]. split; [reflexivity|discriminate].
  - rewrite (proj2 (Z.ltb_lt _ _) L), andb_true_r.
    assert (V' : sval sec = be_val b) by (rewrite V; apply Z.mod_small; lia).
    split; [exact Ok|]. split; [exact V|]. split; [reflexivity|]. rewrite V'.
    split; [|intros H; apply Z.ltb_lt in H; lia].
    destruct (Z.eqb_spec (be_val b) 0) as [E|E], (Z.ltb_spec 0 (be_val b)); cbn [negb]; lia || reflexivity.
Qed.

Lemma scalar_key_finite d : sok d -> sval d <> 0 -> smul (sval d) G_point <> Inf.
Proof.
  intros Hd N. apply finite_multiplier. pose proof (sok_range _ Hd). now rewrite Z.mod_small.
Qed.

Lemma pubkey_create_spec ctx pk0 b : gen_ctx_ok (ecmult_gen_ctx ctx) -> seckey_ok b ->
  if seckey_valid b then exists pk,
    secp256k1_ec_pubkey_create ctx (Some pk0) (Some b) = Api true (Some pk) [] /\
    pk_rep pk (smul (be_val b) G_point)
  else secp256k1_ec_pubkey_create ctx (Some pk0) (Some b) = Api false (Some pubkey_zero) [].
Proof.
  intros HG Hb. unfold secp256k1_ec_pubkey_create. cbn [ARG_CHECK not_null]. unfold ARG_CHECK.
  rewrite (gc_built _ HG). pose proof (seckey_read b Hb) as H.
  destruct (s_set_b32 b) as [sec o]. destruct H as (Ok & _ & _ & -> & V).
  destruct (seckey_valid b); [|reflexivity]. destruct (V eq_refl) as [E R].
  pose proof (ecmult_gen_spec _ sec HG Ok) as K. destruct (set_gej_rep _ _ K) as [R' _].
  destruct (secp256k1_ge_set_gej _) as [p0 pj]. cbn [fst] in R'. eexists. split; [reflexivity|].
  apply pk_save; rewrite <- E; [exact R'|]. apply scalar_key_finite; [exact Ok|lia].
Qed.

(** ** Verification *)

Context (Hjunk : gej_mags junk).

Definition sig_ok (sig : secp256k1_ecdsa_signature) : Prop := sok (fst sig) /\ sok (snd sig).

Lemma api_verify_spec ctx sig msg pk Q : ctx_ok (ecmult_ctx ctx) -> sig_ok sig -> seckey_ok msg ->
  pk_rep pk Q ->
  exists b, secp256k1_ecdsa_verify ctx (Some sig) (Some msg) (Some pk) = Api b tt [] /\
  (b = true <-> sval (snd sig) <= n_order / 2 /\
    ecdsa_valid (sval (fst sig)) (sval (snd sig)) (be_val msg mod n_order) Q).
Proof.
  intros HC [Hr Hs] Hm Hpk. unfold secp256k1_ecdsa_verify, ARG_CHECK. rewrite (proj1 HC).
  pose proof (seckey_read msg Hm) as H. destruct (s_set_b32 msg) as [m o]. destruct H as (Om & Vm & _).
  unfold secp256k1_ecdsa_signature_load. destruct sig as [r s]. cbn [fst snd] in *.
  rewrite (s_is_high_ok _ Hs). destruct (pk_load ctx pk Q Hpk) as (g & E & Rg).
  destruct (Z.ltb_spec (n_order / 2) (sval s)) as [L|L]; cbn [negb].
  - exists false. split; [reflexivity|]. split; [discriminate|lia].
  - rewrite E. cbn [ret out illegal negb]. eexists. split; [reflexivity|].
    rewrite <- Vm, (sig_verify_spec junk Hjunk (ecmult_ctx ctx) r s g m Q HC Hr Hs Om Rg (proj1 Hpk)).
    split; [intros H; split; [lia|exact H]|intros [_ H]; exact H].
Qed.

(** ** Signing *)

Context (Hi : buf_ok (inner hmac0)) (Ho : buf_ok (outer hmac0)) (Hs : buf_ok scratch).

Lemma nonce_loop_S n rng nonce : nonce_loop (S n) rng nonce =
  let '(rng, nonce32) := secp256k1_rfc6979_hmac_sha256_generate hmac0 scratch rng 32 in
  nonce_loop n rng nonce32.
Proof. reflexivity. Qed.

Lemma nonce_loop_spec n rng seed i nonce : rng_at rng seed i ->
  nonce_loop (S n) rng nonce = drbg_block seed (i + n).
Proof.
  revert rng i nonce. induction n as [|n IH]; intros rng i nonce H; rewrite nonce_loop_S;
    destruct (rng_at_generate hmac0 scratch Hi Ho Hs rng seed i H) as (rng' & -> & H' & _).
  - now rewrite Nat.add_0_r.
  - rewrite (IH rng' (S i) (drbg_block seed i) H'). f_equal. lia.
Qed.

(** The seed: key, message, and the optional arguments. *)
Definition nonce_seed (msg32 key32 : bytes) (algo16 data : option bytes) : bytes :=
  key32 ++ msg32 ++ match data with Some d => firstn 32 d | None => [] end
    ++ match algo16 with Some a => firstn 16 a | None => [] end.

Definition opt_bytes (o : option bytes) : Prop :=
  match o with Some l => Forall is_byte l | None => True end.

Lemma nonce_seed_ok msg key algo data : seckey_ok msg -> seckey_ok key ->
  opt_bytes algo -> opt_bytes data ->
  Forall is_byte (nonce_seed msg key algo data) /\ (length (nonce_seed msg key algo data) <= 112)%nat.
Proof.
  intros [Mb Ml] [Kb Kl] Ha Hd. unfold nonce_seed. split.
  - rewrite !Forall_app. split; [exact Kb|]. split; [exact Mb|].
    split; [destruct data|destruct algo]; try constructor; now apply Forall_firstn.
  - rewrite !length_app, Ml, Kl.
    assert (L : forall n (o : option bytes),
      (length match o with Some l => firstn n l | None => [] end <= n)%nat).
    { intros n [l|]; [rewrite length_firstn; lia|cbn; lia]. }
    pose proof (L 32%nat data). pose proof (L 16%nat algo). lia.
Qed.

Lemma nonce_function_spec msg key algo data counter : seckey_ok msg -> seckey_ok key ->
  opt_bytes algo -> opt_bytes data ->
  nonce_function_rfc6979 msg key algo data counter
    = Some (drbg_block (nonce_seed msg key algo data) (Z.to_nat counter)).
Proof.
  intros Hm Hk Ha Hd. destruct (nonce_seed_ok msg key algo data Hm Hk Ha Hd) as [SB SL].
  unfold nonce_function_rfc6979. cbv zeta. rewrite <- !app_assoc.
  fold (nonce_seed msg key algo data). f_equal.
  rewrite (nonce_loop_spec (Z.to_nat counter) _ (nonce_seed msg key algo data) 0); [reflexivity|].
  apply rng_at_init; try assumption. lia.
Qed.

(** ** Deterministic signatures *)

Lemma drbg_block_ok seed i : Forall is_byte seed -> (length seed <= 112)%nat ->
  seckey_ok (drbg_block seed i).
Proof.
  intros HB HL.
  assert (R : exists rng, rng_at rng seed i).
  { induction i as [|i [rng IH]].
    - eexists. apply (rng_at_init hmac0 scratch Hi Ho Hs seed HB). lia.
    - destruct (rng_at_generate hmac0 scratch Hi Ho Hs rng seed i IH) as (rng' & _ & H & _).
      now exists rng'. }
  destruct R as [rng R].
  destruct (rng_at_generate hmac0 scratch Hi Ho Hs rng seed i R) as (_ & _ & _ & [KL KB]).
  exact (conj KB KL).
Qed.

(** A nonce the loop accepts: in range, and the s it gives is not zero. *)
Definition attempt_ok (d m : Z) (b : bytes) : bool :=
  seckey_valid b &&
  match smul (be_val b) G_point with
  | Inf => false
  | Aff x _ => negb ((x mod n_order * d + m) mod n_order =? 0)
  end.

(** The signature of [m] under [d] with the nonce [k], s made low. *)
Definition is_signature (d m k : Z) (r s : scalar) (recid : Z) : Prop :=
  sok r /\ sok s /\ exists x y flip, smul k G_point = Aff x y /\ sval r = x mod n_order /\
  0 < sval s <= n_order / 2 /\ sign_eq (sval s) k (sval r * d + m) flip /\
  recid = recid_of x (xorb (Z.odd y) flip).

(** What the loop returns is a signature, whatever the nonce function. *)
Lemma sign_loop_sound fuel ctx sec msg msg32 seckey noncefp ndata count r s recid :
  gen_ctx_ok (ecmult_gen_ctx ctx) -> sok sec -> sok msg ->
  (forall c b, noncefp msg32 seckey None ndata c = Some b -> seckey_ok b) ->
  sign_loop fuel ctx sec msg msg32 seckey noncefp ndata count = Some (Some (r, s, recid)) ->
  exists k, 0 < k < n_order /\ is_signature (sval sec) (sval msg) k r s recid.
Proof.
  intros HG Hsec Hm Hf. revert count. induction fuel as [|fuel IH]; intros count; [discriminate|].
  cbn [sign_loop]. destruct (noncefp msg32 seckey None ndata count) as [b|] eqn:EN; [|discriminate].
  pose proof (seckey_read b (Hf _ _ EN)) as H. destruct (s_set_b32 b) as [non o].
  destruct H as (Ok & _ & _ & E & V). rewrite E. destruct (seckey_valid b); [|apply IH].
  destruct (V eq_refl) as [_ Rn].
  pose proof (sig_sign_spec _ sec msg non HG Hsec Hm Ok ltac:(lia)) as S.
  destruct (secp256k1_ecdsa_sig_sign _ sec msg non) as [[[r' s'] recid'] ok].
  destruct S as (Or & Os & x & y & EP & Er & S). destruct ok; [|apply IH].
  intros H. injection H as -> -> ->. exists (sval non). split; [exact Rn|].
  destruct (_ =? 0); [discriminate S|]. destruct S as (_ & Rs & flip & ES & Erec).
  split; [exact Or|]. split; [exact Os|]. now exists x, y, flip.
Qed.

Lemma sign_loop_spec fuel ctx sec msg msg32 key ndata i : gen_ctx_ok (ecmult_gen_ctx ctx) ->
  sok sec -> sok msg -> seckey_ok msg32 -> seckey_ok key -> opt_bytes ndata ->
  Z.of_nat (i + fuel) < 2 ^ 32 ->
  let seed := nonce_seed msg32 key None ndata in
  let run := sign_loop fuel ctx sec msg msg32 key secp256k1_nonce_function_default ndata (Z.of_nat i) in
  match first_ok (attempt_ok (sval sec) (sval msg)) seed i fuel with
  | None => run = None
  | Some k => exists r s recid, run = Some (Some (r, s, recid)) /\
      is_signature (sval sec) (sval msg) (be_val (drbg_block seed k)) r s recid
  end.
Proof.
  intros HG Hsec Hm Bm Bk Bd. cbv zeta.
  destruct (nonce_seed_ok msg32 key None ndata Bm Bk I Bd) as [SB SL].
  assert (NF : forall c, secp256k1_nonce_function_default msg32 key None ndata c
      = Some (drbg_block (nonce_seed msg32 key None ndata) (Z.to_nat c)))
    by (intros c; exact (nonce_function_spec msg32 key None ndata c Bm Bk I Bd)).
  set (seed := nonce_seed msg32 key None ndata) in *. clearbody seed.
  revert i. induction fuel as [|fuel IH]; intros i Hi'; [reflexivity|].
  cbn [first_ok sign_loop]. rewrite NF, Nat2Z.id.
  pose proof (drbg_block_ok seed i SB SL) as Kb. set (b := drbg_block seed i) in *.
  assert (EC : u32 (Z.of_nat i + 1) = Z.of_nat (S i)) by (unfold u32; rewrite Z.mod_small; lia).
  rewrite EC. pose proof (seckey_read b Kb) as R. destruct (s_set_b32 b) as [non o].
  destruct R as (Ok & _ & _ & -> & V). unfold attempt_ok at 1.
  destruct (seckey_valid b); [|apply IH; lia]. destruct (V eq_refl) as [Vn Rn]. cbn [andb].
  pose proof (sig_sign_spec _ sec msg non HG Hsec Hm Ok ltac:(lia)) as S.
  destruct (secp256k1_ecdsa_sig_sign _ sec msg non) as [[[r s] recid] ret].
  destruct S as (Or & Os & x & y & EP & Er & S). rewrite Vn in EP, S. rewrite EP, <- Er.
  destruct (_ =? 0); cbn [negb].
  - rewrite S. apply IH. lia.
  - destruct S as (-> & Rs & flip & E & Erec). exists r, s, recid. split; [reflexivity|].
    split; [exact Or|]. split; [exact Os|]. now exists x, y, flip.
Qed.

Lemma api_sign_spec fuel ctx sig0 msg32 key ndata : gen_ctx_ok (ecmult_gen_ctx ctx) ->
  seckey_ok msg32 -> seckey_ok key -> opt_bytes ndata -> Z.of_nat fuel < 2 ^ 32 ->
  let m := be_val msg32 mod n_order in
  let seed := nonce_seed msg32 key None ndata in
  let run := secp256k1_ecdsa_sign fuel ctx (Some sig0) (Some msg32) (Some key) None ndata in
  if seckey_valid key then
    match first_ok (attempt_ok (be_val key) m) seed 0 fuel with
    | None => run = None
    | Some k => exists r s recid, run = Some (Api true (Some (r, s)) []) /\
        is_signature (be_val key) m (be_val (drbg_block seed k)) r s recid
    end
  else run = Some (Api false (Some signature_zero) []).
Proof.
  intros HG Bm Bk Bd Hf. cbv zeta. unfold secp256k1_ecdsa_sign. rewrite (gc_built _ HG). cbn [negb].
  pose proof (seckey_read key Bk) as H. destruct (s_set_b32 key) as [sec o].
  destruct H as (Ok & _ & _ & -> & V). destruct (seckey_valid key); [|reflexivity].
  destruct (V eq_refl) as [Vk _]. pose proof (seckey_read msg32 Bm) as H.
  destruct (s_set_b32 msg32) as [msg o']. destruct H as (Om & Vm & _).
  pose proof (sign_loop_spec fuel ctx sec msg msg32 key ndata 0 HG Ok Om Bm Bk Bd Hf) as S.
  cbv zeta in S. rewrite <- Vk, <- Vm. destruct (first_ok _ _ 0 fuel) as [k|].
  - destruct S as (r & s & recid & E & HS). exists r, s, recid. split; [|exact HS].
    change (Z.of_nat 0) with 0 in E. now rewrite E.
  - change (Z.of_nat 0) with 0 in S. now rewrite S.
Qed.

(** ** Operations on public keys *)

(** One structure for every point. *)
Lemma pk_rep_unique pk pk' P : pk_rep pk P -> pk_rep pk' P -> pk = pk'.
Proof.
  intros (HP & g & Hg & ->) (_ & g' & Hg' & ->). destruct P as [|x y]; [contradiction|].
  destruct (ge_finite _ _ _ Hg) as (Hc & _ & Kx & Ky), (ge_finite _ _ _ Hg') as (_ & _ & Kx' & Ky').
  destruct (coord_norm _ 8 x Kx eq_refl (proj1 Hc)) as [Nx Vx].
  destruct (coord_norm _ 8 y Ky eq_refl (proj1 (proj2 Hc))) as [Ny Vy].
  destruct (coord_norm _ 8 x Kx' eq_refl (proj1 Hc)) as [Nx' Vx'].
  destruct (coord_norm _ 8 y Ky' eq_refl (proj1 (proj2 Hc))) as [Ny' Vy'].
  unfold secp256k1_pubkey_save, secp256k1_ge_to_storage.
  rewrite (fnorm_inj _ _ Nx Nx'), (fnorm_inj _ _ Ny Ny') by congruence. reflexivity.
Qed.

Lemma api_parse_spec ctx pk0 input : Forall is_byte input ->
  let r := secp256k1_ec_pubkey_parse ctx (Some pk0) (Some input) in
  illegal r = [] /\
  (ret r = true <-> exists P, pubkey_encodes input P) /\
  (ret r = false -> out r = Some pubkey_zero) /\
  (forall P, pubkey_encodes input P -> exists pk, out r = Some pk /\ pk_rep pk P).
Proof.
  intros HB. unfold secp256k1_ec_pubkey_parse, ARG_CHECK. cbn [not_null].
  pose proof (parse_spec (junk_ge junk) input HB) as S.
  destruct (secp256k1_eckey_pubkey_parse _ input) as [Q ok]. destruct S as [S1 S2].
  destruct ok; cbn [negb ret out illegal]; cbv zeta.
  - split; [reflexivity|]. split; [exact S1|]. split; [discriminate|]. intros P HP. eexists.
    split; [reflexivity|]. apply pk_save; [exact (S2 P HP)|]. intros ->. apply HP.
  - split; [reflexivity|]. split; [exact S1|]. split; [reflexivity|].
    intros P HP. assert (false = true) by (apply S1; now exists P). discriminate.
Qed.

Lemma api_serialize_spec ctx buf len pk x y flags : pk_rep pk (Aff x y) ->
  let c := negb ((flags .& SECP256K1_FLAGS_BIT_COMPRESSION) =? 0) in
  let octets := if c then compressed x y else uncompressed x y in
  (if c then 33 else 65) <= len ->
  (flags .& SECP256K1_FLAGS_TYPE_MASK) = SECP256K1_FLAGS_TYPE_COMPRESSION ->
  secp256k1_ec_pubkey_serialize ctx (Some buf) (Some len) (Some pk) flags =
  Api true (Some (overwrite (repeat 0 (Z.to_nat len)) 0 octets),
            Some (Z.of_nat (length octets))) [].
Proof.
  intros Hpk c octets HL HF. unfold secp256k1_ec_pubkey_serialize, ARG_CHECK. fold c.
  rewrite (proj2 (Z.leb_le _ _) HL), HF, Z.eqb_refl. cbn [not_null].
  destruct (pk_load ctx pk _ Hpk) as (g & -> & Rg). cbn [ret out illegal negb].
  pose proof (key_serialize_spec g c x y Rg) as S.
  destruct (secp256k1_eckey_pubkey_serialize g c) as [e o]. destruct S as [-> _]. reflexivity.
Qed.

Lemma api_negate_spec ctx pk P : pk_rep pk P -> exists pk',
  secp256k1_ec_pubkey_negate ctx (Some pk) = Api true (Some pk') [] /\ pk_rep pk' (pneg P).
Proof.
  intros H. unfold secp256k1_ec_pubkey_negate. destruct (pk_load ctx pk P H) as (g & -> & Rg).
  eexists. split; [reflexivity|]. apply pk_save; [now apply ge_neg_rep|].
  destruct P; [now destruct H|discriminate].
Qed.

Definition psum (Ps : list point) : point := fold_left padd Ps Inf.

Lemma combine_loop_spec ctx pks Ps : Forall2 pk_rep pks Ps -> forall Qj Q log, gej_rep Qj Q ->
  exists Qj', combine_loop ctx pks Qj log = (Qj', log) /\ gej_rep Qj' (fold_left padd Ps Q).
Proof.
  induction 1 as [|pk P pks Ps H _ IH]; intros Qj Q log HQ; cbn [combine_loop fold_left].
  - exists Qj. split; [reflexivity|exact HQ].
  - destruct (pk_load ctx pk P H) as (g & -> & Rg). cbn [out illegal]. rewrite app_nil_r.
    apply IH. apply add_ge_rep; [exact HQ|exact Rg|exact (proj1 H)].
Qed.

Lemma api_combine_spec ctx pk0 pks Ps : Forall2 pk_rep pks Ps -> pks <> [] ->
  match psum Ps with
  | Inf => secp256k1_ec_pubkey_combine ctx (Some pk0) (Some pks) (length pks)
      = Api false (Some pubkey_zero) []
  | _ => exists pk, secp256k1_ec_pubkey_combine ctx (Some pk0) (Some pks) (length pks)
      = Api true (Some pk) [] /\ pk_rep pk (psum Ps)
  end.
Proof.
  intros H Hn. unfold secp256k1_ec_pubkey_combine, ARG_CHECK. cbn [not_null].
  replace (Nat.leb 1 (length pks)) with true by (now destruct pks). rewrite firstn_all.
  destruct (combine_loop_spec ctx pks Ps H _ Inf [] (conj (set_infinity_mags junk) (conj I eq_refl))) as (Qj & -> & R).
  fold (psum Ps) in R. unfold secp256k1_gej_is_infinity. destruct (psum Ps) as [|x y] eqn:E.
  - now rewrite (proj2 (proj2 R) : jinf Qj = true).
  - destruct (rep_finite _ _ _ R) as (_ & -> & _). destruct (set_gej_rep _ _ R) as [R' _].
    destruct (secp256k1_ge_set_gej Qj) as [q qj]. cbn [fst] in R'. eexists. split; [reflexivity|].
    apply pk_save; [exact R'|discriminate].
Qed.

(** A tweak that is below the order and a result that is not zero. *)
Definition tweak_add_valid (key tweak : bytes) : bool :=
  (be_val tweak <? n_order) && negb ((be_val key + be_val tweak) mod n_order =? 0).

(** What the two sides of a tweak give: the new key pair, or zeros. *)
Definition tweaked (ok : bool) (d : Z) (priv : api (option bytes))
    (pub : api (option secp256k1_pubkey)) : Prop :=
  if ok then
    priv = Api true (Some (be_bytes 32 d)) [] /\
    exists pk, pub = Api true (Some pk) [] /\ pk_rep pk (smul d G_point)
  else
    priv = Api false (Some (repeat 0 32)) [] /\ pub = Api false (Some pubkey_zero) [].

Lemma api_tweak_add_spec ctx key tweak pk : ctx_ok (ecmult_ctx ctx) -> seckey_ok key ->
  seckey_valid key = true -> seckey_ok tweak -> pk_rep pk (smul (be_val key) G_point) ->
  tweaked (tweak_add_valid key tweak) ((be_val key + be_val tweak) mod n_order)
    (secp256k1_ec_privkey_tweak_add ctx (Some key) (Some tweak))
    (secp256k1_ec_pubkey_tweak_add ctx (Some pk) (Some tweak)).
Proof.
  intros HC Hk Vk Ht Hpk. unfold secp256k1_ec_privkey_tweak_add, secp256k1_ec_pubkey_tweak_add.
  unfold privkey_tweak, pubkey_tweak, ARG_CHECK. rewrite (proj1 HC).
  pose proof (seckey_read tweak Ht) as T. destruct (s_set_b32 tweak) as [t o].
  destruct T as (Ot & Vt & -> & _). pose proof (seckey_read key Hk) as K.
  destruct (s_set_b32 key) as [sec o']. destruct K as (Os & _ & _ & _ & V). destruct (V Vk) as [Es Rs].
  unfold tweak_add_valid, tweaked. destruct (pk_load ctx pk _ Hpk) as (g & -> & Rg).
  destruct (Z.leb_spec n_order (be_val tweak)) as [L|L]; cbn [negb ret out illegal].
  { rewrite (proj2 (Z.ltb_ge _ _) L). exact (conj eq_refl eq_refl). }
  rewrite (proj2 (Z.ltb_lt _ _) L), andb_true_l. rewrite <- Es in Rg |- *.
  pose proof (be_val_range tweak (proj1 Ht)) as Nt. rewrite Z.mod_small in Vt by lia.
  pose proof (tweak_add_spec junk Hjunk (ecmult_ctx ctx) sec t g HC Os Ot ltac:(lia) Rg) as S.
  destruct (secp256k1_eckey_privkey_tweak_add sec t) as [key' ok].
  destruct (secp256k1_eckey_pubkey_tweak_add junk (ecmult_ctx ctx) g t) as [g' ok'].
  destruct S as (O' & V' & -> & -> & R'). rewrite Vt in V'. rewrite <- V'.
  destruct (Z.eqb_spec (sval key') 0) as [Z0|N0]; cbn [negb] in *; [exact (conj eq_refl eq_refl)|].
  rewrite (s_get_b32_ok _ O'). split; [reflexivity|]. eexists. split; [reflexivity|].
  apply pk_save; [exact R'|]. now apply scalar_key_finite.
Qed.

Lemma api_tweak_mul_spec ctx key tweak pk : ctx_ok (ecmult_ctx ctx) -> seckey_ok key ->
  seckey_valid key = true -> seckey_ok tweak -> pk_rep pk (smul (be_val key) G_point) ->
  tweaked (seckey_valid tweak) ((be_val key * be_val tweak) mod n_order)
    (secp256k1_ec_privkey_tweak_mul ctx (Some key) (Some tweak))
    (secp256k1_ec_pubkey_tweak_mul ctx (Some pk) (Some tweak)).
Proof.
  intros HC Hk Vk Ht Hpk. unfold secp256k1_ec_privkey_tweak_mul, secp256k1_ec_pubkey_tweak_mul.
  unfold privkey_tweak, pubkey_tweak, ARG_CHECK. rewrite (proj1 HC).
  pose proof (seckey_read tweak Ht) as T. destruct (s_set_b32 tweak) as [t o].
  destruct T as (Ot & Vt & -> & _). pose proof (seckey_read key Hk) as K.
  destruct (s_set_b32 key) as [sec o']. destruct K as (Os & _ & _ & _ & V). destruct (V Vk) as [Es Rs].
  unfold seckey_valid, tweaked. destruct (pk_load ctx pk _ Hpk) as (g & -> & Rg).
  destruct (Z.leb_spec n_order (be_val tweak)) as [L|L]; cbn [negb ret out illegal].
  { rewrite (proj2 (Z.ltb_ge _ _) L), andb_false_r. exact (conj eq_refl eq_refl). }
  rewrite (proj2 (Z.ltb_lt _ _) L), andb_true_r. rewrite <- Es in Rg |- *.
  pose proof (be_val_range tweak (proj1 Ht)) as Nt. rewrite Z.mod_small in Vt by lia.
  pose proof (tweak_mul_spec junk Hjunk (ecmult_ctx ctx) sec t g HC Os Ot ltac:(lia) Rg) as S.
  destruct (secp256k1_eckey_privkey_tweak_mul sec t) as [key' ok].
  destruct (secp256k1_eckey_pubkey_tweak_mul junk (ecmult_ctx ctx) g t) as [g' ok'].
  destruct S as (O' & -> & -> & V' & R'). rewrite Vt in V' |- *.
  destruct (Z.eqb_spec (be_val tweak) 0) as [Z0|N0]; cbn [negb] in *.
  { rewrite (proj2 (Z.ltb_ge _ _)) by lia. exact (conj eq_refl eq_refl). }
  rewrite (proj2 (Z.ltb_lt _ _)) by lia. destruct (V' eq_refl) as [E N].
  rewrite (s_get_b32_ok _ O'), <- E. split; [reflexivity|]. eexists. split; [reflexivity|].
  apply pk_save; [exact R'|]. now apply scalar_key_finite.
Qed.

(** ** Secret keys and compact signatures *)

Lemma api_privkey_negate_spec ctx key : seckey_ok key -> seckey_valid key = true ->
  secp256k1_ec_privkey_negate ctx (Some key) = Api true (Some (be_bytes 32 (n_order - be_val key))) [].
Proof.
  intros Hk Vk. unfold secp256k1_ec_privkey_negate. pose proof (seckey_read key Hk) as K.
  destruct (s_set_b32 key) as [sec o]. destruct K as (Os & _ & _ & _ & V). destruct (V Vk) as [Es Rs].
  destruct (s_negate_ok sec Os) as [On Vn]. rewrite (s_get_b32_ok _ On), Vn, Es.
  rewrite <- (Z.mod_small (n_order - be_val key) n_order) by lia. do 3 f_equal.
  apply cong_iff, (cong_by (-1)). lia.
Qed.
End Api.
