(* ===== verification/Properties.v ===== *)
(** * The properties of the development

    Each theorem states what a part of the library promises to its callers;
    the lemmas that carry the proofs are in the file of the component. *)
From S2P Require Import Prelude FieldSpec Field5x52 Field Sha256Spec Hash.

(** ** Field arithmetic (field_5x52_impl.h, field_5x52_int128_impl.h) *)

(** C27: multiplication and squaring. With inputs of magnitude at most 8 no
    128-bit or 64-bit accumulator of the two unrolled routines overflows, the
    result has magnitude 1 and its value is the product modulo p. *)
Theorem fe_mul_sqr_exact a b : fe_mag a 8 -> fe_mag b 8 ->
  (fe_mag (secp256k1_fe_mul_inner a b) 1 /\
   fe_val (secp256k1_fe_mul_inner a b) =[p]= fe_val a * fe_val b) /\
  (fe_mag (secp256k1_fe_sqr_inner a) 1 /\
   fe_val (secp256k1_fe_sqr_inner a) =[p]= fe_val a * fe_val a).
Proof.
  intros Ha Hb. split; [now apply fe_mul_inner_correct|now apply fe_sqr_inner_correct].
Qed.

Lemma fe_mul_sqr_exact_witness :
  let a := Fe (0xFFFFFFFFFFFFF * 16) 1 2 3 (0x0FFFFFFFFFFFF * 16) in
  let b := Fe 7 (0xFFFFFFFFFFFFF * 16) 5 4 9 in
  (fe_mag (secp256k1_fe_mul_inner a b) 1 /\
   fe_val (secp256k1_fe_mul_inner a b) =[p]= fe_val a * fe_val b) /\
  (fe_mag (secp256k1_fe_sqr_inner a) 1 /\
   fe_val (secp256k1_fe_sqr_inner a) =[p]= fe_val a * fe_val a).
Proof. intros a b. apply (fe_mul_sqr_exact a b); split; cbn; lia. Defined.

(** Normalisation. The constant-time and the variable-time routine give the
    one canonical representation of the value, and the two zero tests answer
    whether the value is 0 modulo p, for every magnitude up to 2047. *)
Theorem fe_normalize_canonical a : fe_mag a 2047 ->
  fe_norm (secp256k1_fe_normalize a) /\
  fe_val (secp256k1_fe_normalize a) = fe_val a mod p /\
  secp256k1_fe_normalize_var a = secp256k1_fe_normalize a /\
  secp256k1_fe_normalizes_to_zero a = (fe_val a mod p =? 0) /\
  secp256k1_fe_normalizes_to_zero_var a = (fe_val a mod p =? 0).
Proof.
  intros Ha. destruct (fe_normalize_correct a Ha). split; [assumption|].
  split; [assumption|]. rewrite fe_normalizes_to_zero_var_correct.
  rewrite fe_normalize_var_correct, fe_normalizes_to_zero_correct by exact Ha. auto.
Qed.

Lemma fe_normalize_canonical_witness :
  let a := Fe (0xFFFFFFFFFFFFF * 4094) 1 2 3 (0x0FFFFFFFFFFFF * 4094) in
  fe_norm (secp256k1_fe_normalize a) /\
  fe_val (secp256k1_fe_normalize a) = fe_val a mod p /\
  secp256k1_fe_normalize_var a = secp256k1_fe_normalize a /\
  secp256k1_fe_normalizes_to_zero a = (fe_val a mod p =? 0) /\
  secp256k1_fe_normalizes_to_zero_var a = (fe_val a mod p =? 0).
Proof. intros a. apply (fe_normalize_canonical a). split; cbn; lia. Defined.

(** Parsing and serialising. [secp256k1_fe_set_b32] reads 32 bytes as a
    big-endian number, reports exactly the values not below p, and what it
    accepted is given back unchanged by [secp256k1_fe_get_b32]. *)
Theorem fe_b32_roundtrip l : Forall is_byte l -> length l = 32%nat ->
  let '(a, ok) := secp256k1_fe_set_b32 l in
  fe_val a = be_val l /\ ok = (be_val l <? p) /\
  (ok = true -> fe_norm a /\ secp256k1_fe_get_b32 a = l).
Proof.
  intros Hl Hlen. rewrite fe_set_b32_correct by assumption.
  pose proof (be_val_32 l Hl Hlen) as HV.
  split; [now apply fe_val_of_Z|]. split; [reflexivity|].
  rewrite Z.ltb_lt. intros Hp.
  assert (N : fe_norm (fe_of_Z (be_val l))) by (apply fe_norm_of_Z; lia).
  split; [exact N|]. rewrite fe_get_b32_correct, fe_val_of_Z by assumption.
  rewrite <- Hlen. now apply be_bytes_val.
Qed.

Lemma fe_b32_roundtrip_witness :
  let l := be_bytes 32 (p - 1) in
  let '(a, ok) := secp256k1_fe_set_b32 l in
  fe_val a = be_val l /\ ok = (be_val l <? p) /\
  (ok = true -> fe_norm a /\ secp256k1_fe_get_b32 a = l).
Proof.
  intros l. apply (fe_b32_roundtrip l).
  - apply be_bytes_byte.
  - apply length_be_bytes.
Defined.

(** Comparison and storage. On normalised elements the comparison orders
    the values, and the packed four-word form gives the element back. *)
Theorem fe_cmp_storage a b : fe_norm a -> fe_norm b ->
  secp256k1_fe_cmp_var a b
    = match fe_val a ?= fe_val b with Lt => -1 | Eq => 0 | Gt => 1 end /\
  secp256k1_fe_from_storage (secp256k1_fe_to_storage a) = a.
Proof.
  intros Ha Hb. split; [now apply fe_cmp_var_correct|now apply fe_storage_roundtrip].
Qed.

Lemma fe_cmp_storage_witness :
  let a := Fe 5 0xFFFFFFFFFFFFF 3 0 0x0FFFFFFFFFFFE in let b := Fe 6 1 2 0 9 in
  secp256k1_fe_cmp_var a b
    = match fe_val a ?= fe_val b with Lt => -1 | Eq => 0 | Gt => 1 end /\
  secp256k1_fe_from_storage (secp256k1_fe_to_storage a) = a.
Proof.
  intros a b. apply (fe_cmp_storage a b); split; (unfold Bounded; cbn; lia) || reflexivity.
Defined.

(** [secp256k1_fe_verify] accepts elements of magnitude 2048, but the first
    carry of [secp256k1_fe_normalize] is lost on one of them. *)
Theorem fe_normalize_2048_wraps :
  exists a, secp256k1_fe_verify false 2048 a = true /\
  fe_val (secp256k1_fe_normalize a) <> fe_val a mod p.
Proof. exists fe_2048. exact fe_normalize_2048. Qed.

(** ** Inversion and square roots (field_impl.h), for any representation *)

Section FieldProperties.
Context {F : FieldImpl}.

(** Inversion. The addition chain computes the power p - 2: the result is
    the inverse of a non-zero element, and 0 for 0. *)
Theorem fe_inv_inverts a : fmag a 8 ->
  let r := secp256k1_fe_inv_var a in
  fmag r 1 /\ (fval a mod p <> 0 -> fval a * fval r =[p]= 1) /\
  (fval a mod p = 0 -> fval r =[p]= 0).
Proof. intros Ha. exact (fe_inv_spec a Ha). Qed.

(** Square roots. The routine succeeds exactly on the squares modulo p,
    and its result is then a square root which is itself a square. *)
Theorem fe_sqrt_decides a : fmag a 8 ->
  let '(r, ok) := secp256k1_fe_sqrt a in
  fmag r 1 /\ (ok = true <-> exists s, s * s =[p]= fval a) /\
  (ok = true -> fval r * fval r =[p]= fval a /\ exists s, s * s =[p]= fval r).
Proof.
  intros Ha. pose proof (fe_sqrt_spec a Ha) as H.
  now destruct (secp256k1_fe_sqrt a).
Qed.

(** Batched inversion. One inversion and 3 (len - 1) multiplications give
    the inverse of every element of an array of non-zero elements. *)
Theorem fe_inv_all_inverts r0 a len :
  length r0 = len -> length a = len -> (1 <= len)%nat ->
  Forall (fun x => fmag x 8) a -> Forall (fun x => fval x mod p <> 0) a ->
  let r := secp256k1_fe_inv_all_var r0 a len in
  length r = len /\
  forall k, (k < len)%nat ->
    fmag (nth k r (fe_set_int 0)) 8 /\
    fval (nth k r (fe_set_int 0)) * fval (nth k a (fe_set_int 0)) =[p]= 1.
Proof. intros. now apply fe_inv_all_spec. Qed.
End FieldProperties.

Lemma fe_inv_inverts_witness :
  let a : FieldSpec.fe (FieldImpl := field_5x52) := fe_set_int 3 in
  let r := secp256k1_fe_inv_var a in
  fmag r 1 /\ (fval a mod p <> 0 -> fval a * fval r =[p]= 1) /\
  (fval a mod p = 0 -> fval r =[p]= 0).
Proof. intros a. apply (fe_inv_inverts a). split; cbn; lia. Defined.

Lemma fe_sqrt_decides_witness :
  let a : FieldSpec.fe (FieldImpl := field_5x52) := fe_set_int 4 in
  let '(r, ok) := secp256k1_fe_sqrt a in
  fmag r 1 /\ (ok = true <-> exists s, s * s =[p]= fval a) /\
  (ok = true -> fval r * fval r =[p]= fval a /\ exists s, s * s =[p]= fval r).
Proof. intros a. apply (fe_sqrt_decides a). split; cbn; lia. Defined.

Lemma fe_inv_all_inverts_witness :
  let a : list (FieldSpec.fe (FieldImpl := field_5x52)) := [fe_set_int 2; fe_set_int 5; fe_set_int 7] in
  let z := fe_set_int 0 in
  let r := secp256k1_fe_inv_all_var [z; z; z] a 3 in
  length r = 3%nat /\
  forall k, (k < 3)%nat -> fmag (nth k r z) 8 /\ fval (nth k r z) * fval (nth k a z) =[p]= 1.
Proof.
  intros a z. apply (fe_inv_all_inverts [z; z; z] a 3); try reflexivity.
  - lia.
  - repeat constructor; cbn; lia.
  - repeat constructor; cbn; discriminate.
Defined.
