(* ===== verification/ScalarProperties.v ===== *)
(** * Properties of the scalar arithmetic

    The 4x64 representation is compared with integers modulo the group order;
    the routines of scalar_impl.h are treated for any representation. *)
From S2P Require Import Prelude ScalarSpec Scalar4x64 Scalar.

(** A literal scalar is reduced. *)
Ltac canon_lit :=
  split; [split; (split; vm_compute; congruence)|vm_compute; reflexivity].

(** C29: arithmetic. On reduced scalars addition, negation, multiplication and
    squaring give the reduced result, addition reports whether the sum reached
    the order, and no column of the 512-bit product or of its reduction
    overflows the 160-bit accumulator. *)
Theorem scalar_arith_exact a b : canon a -> canon b ->
  let '(s, overflow) := secp256k1_scalar_add a b in
  (canon s /\ val s = (val a + val b) mod n_order /\
   overflow = b2z (n_order <=? val a + val b)) /\
  (canon (secp256k1_scalar_negate a) /\
   val (secp256k1_scalar_negate a) = (- val a) mod n_order) /\
  (canon (secp256k1_scalar_mul a b) /\
   val (secp256k1_scalar_mul a b) = (val a * val b) mod n_order) /\
  (canon (secp256k1_scalar_sqr a) /\
   val (secp256k1_scalar_sqr a) = (val a * val a) mod n_order).
Proof.
  intros Ha Hb. pose proof (add_spec a b Ha Hb) as A.
  destruct (secp256k1_scalar_add a b) as [s overflow].
  split; [exact A|]. split; [exact (negate_spec a Ha)|].
  split; [exact (mul_spec a b Ha Hb)|exact (sqr_spec a Ha)].
Qed.

Lemma scalar_arith_exact_witness :
  let a := Scalar 0xBFD25E8CD0364140 0xBAAEDCE6AF48A03B 0xFFFFFFFFFFFFFFFE 0xFFFFFFFFFFFFFFFF in
  let b := Scalar 5 0 0xFFFFFFFFFFFFFFFF 3 in
  let '(s, overflow) := secp256k1_scalar_add a b in
  (canon s /\ val s = (val a + val b) mod n_order /\
   overflow = b2z (n_order <=? val a + val b)) /\
  (canon (secp256k1_scalar_negate a) /\
   val (secp256k1_scalar_negate a) = (- val a) mod n_order) /\
  (canon (secp256k1_scalar_mul a b) /\
   val (secp256k1_scalar_mul a b) = (val a * val b) mod n_order) /\
  (canon (secp256k1_scalar_sqr a) /\
   val (secp256k1_scalar_sqr a) = (val a * val a) mod n_order).
Proof.
  intros a b. apply (scalar_arith_exact a b); canon_lit.
Defined.

(** Bytes. [secp256k1_scalar_set_b32] reduces the big-endian number it
    reads and reports whether it had to; what needed no reduction is given
    back unchanged by [secp256k1_scalar_get_b32]. *)
Theorem scalar_b32_roundtrip l : Forall is_byte l -> length l = 32%nat ->
  let '(a, overflow) := secp256k1_scalar_set_b32 l in
  canon a /\ val a = be_val l mod n_order /\ overflow = b2z (n_order <=? be_val l) /\
  (overflow = 0 -> secp256k1_scalar_get_b32 a = l).
Proof.
  intros Hl Hlen. pose proof (set_b32_spec l Hl Hlen) as (C & V & O).
  destruct (secp256k1_scalar_set_b32 l) as [a overflow]. cbn [fst snd] in *.
  split; [exact C|]. split; [exact V|]. split; [exact O|]. intros E.
  rewrite get_b32_spec by apply C. rewrite V.
  pose proof (be_val_range l Hl) as B.
  rewrite E in O. destruct (Z.leb_spec n_order (be_val l)) as [H|H]; [discriminate|].
  rewrite Z.mod_small by lia. rewrite <- Hlen. now apply be_bytes_val.
Qed.

Lemma scalar_b32_roundtrip_witness :
  let l := be_bytes 32 (n_order - 1) in
  let '(a, overflow) := secp256k1_scalar_set_b32 l in
  canon a /\ val a = be_val l mod n_order /\ overflow = b2z (n_order <=? be_val l) /\
  (overflow = 0 -> secp256k1_scalar_get_b32 a = l).
Proof.
  intros l. apply (scalar_b32_roundtrip l).
  - apply be_bytes_byte.
  - apply length_be_bytes.
Defined.

(** Bit windows and shifts. Windows of fewer than 32 bits are read
    correctly even across a word boundary, a right shift gives quotient and
    remainder, and the product shifted by 256 to 512 bits is rounded to the
    nearest integer. *)
Theorem scalar_bits_and_shifts a b off cnt sh n : canon a -> canon b ->
  0 <= off -> 0 < cnt < 32 -> off + cnt <= 256 -> 256 <= sh <= 512 -> 0 < n < 16 ->
  secp256k1_scalar_get_bits_var a off cnt = (val a / 2 ^ off) mod 2 ^ cnt /\
  (let '(r, low) := secp256k1_scalar_shr_int a n in
   val r = val a / 2 ^ n /\ low = val a mod 2 ^ n) /\
  val (secp256k1_scalar_mul_shift_var a b sh) = (val a * val b + 2 ^ (sh - 1)) / 2 ^ sh.
Proof.
  intros Ha Hb Ho Hc Hs Hsh Hn.
  split; [now apply get_bits_var_spec|]. split; [|now apply mul_shift_var_spec].
  pose proof (shr_int_spec a n Ha Hn) as (_ & V & L).
  now destruct (secp256k1_scalar_shr_int a n).
Qed.

Lemma scalar_bits_and_shifts_witness :
  let a := Scalar 0xBFD25E8CD0364140 0xBAAEDCE6AF48A03B 0xFFFFFFFFFFFFFFFE 0xFFFFFFFFFFFFFFFF in
  let b := Scalar 5 0 0xFFFFFFFFFFFFFFFF 3 in
  secp256k1_scalar_get_bits_var a 60 10 = (val a / 2 ^ 60) mod 2 ^ 10 /\
  (let '(r, low) := secp256k1_scalar_shr_int a 4 in
   val r = val a / 2 ^ 4 /\ low = val a mod 2 ^ 4) /\
  val (secp256k1_scalar_mul_shift_var a b 272) = (val a * val b + 2 ^ (272 - 1)) / 2 ^ 272.
Proof.
  intros a b. apply (scalar_bits_and_shifts a b 60 10 272 4); try lia; canon_lit.
Defined.

(** Conditional operations. The branch-free forms agree with the choice
    they encode: adding a bit, negating, and the test for the upper half. *)
Theorem scalar_conditionals a bit flag : canon a -> 0 <= bit < 256 ->
  (flag = true -> val a + 2 ^ bit < n_order) ->
  val (secp256k1_scalar_cadd_bit a bit flag) = (if flag then val a + 2 ^ bit else val a) /\
  (let '(r, sign) := secp256k1_scalar_cond_negate a flag in
   canon r /\ val r = (if flag then (- val a) mod n_order else val a) /\
   sign = if flag then -1 else 1) /\
  secp256k1_scalar_is_high a = b2z (n_order / 2 <? val a).
Proof.
  intros Ha Hb Hf. split; [|split].
  - apply cadd_bit_spec; [apply Ha|exact Hb|]. intros E. specialize (Hf E).
    unfold n_order in Hf. lia.
  - pose proof (cond_negate_spec a flag Ha) as H.
    now destruct (secp256k1_scalar_cond_negate a flag).
  - apply is_high_spec, Ha.
Qed.

Lemma scalar_conditionals_witness :
  let a := Scalar 7 1 0xFFFFFFFFFFFFFFFF 3 in
  val (secp256k1_scalar_cadd_bit a 129 true) = (if true then val a + 2 ^ 129 else val a) /\
  (let '(r, sign) := secp256k1_scalar_cond_negate a true in
   canon r /\ val r = (if true then (- val a) mod n_order else val a) /\
   sign = if true then -1 else 1) /\
  secp256k1_scalar_is_high a = b2z (n_order / 2 <? val a).
Proof.
  intros a. apply (scalar_conditionals a 129 true); [|lia|].
  - canon_lit.
  - intros _. vm_compute. reflexivity.
Defined.

Section Generic.
Context {S : ScalarImpl}.

(** Inversion. The addition chain computes the power n - 2, the inverse
    modulo the order of a non-zero scalar. *)
Theorem scalar_inverse_inverts x : sok x ->
  let r := secp256k1_scalar_inverse_var x in
  sok r /\ (sval x <> 0 -> sval x * sval r =[n_order]= 1) /\ (sval x = 0 -> sval r = 0).
Proof. intros Hx. exact (inverse_spec x Hx). Qed.

(** C34: the endomorphism split. Modulo the order [r1 + r2 * lambda] is the
    scalar, and both halves are, up to sign, shorter than 128 bits. *)
Theorem split_lambda_short a : sok a ->
  let '(r1, r2) := secp256k1_scalar_split_lambda a in
  sok r1 /\ sok r2 /\ sval r1 + sval r2 * lambda =[n_order]= sval a /\
  exists k1 k2, sval r1 =[n_order]= k1 /\ sval r2 =[n_order]= k2 /\
    Z.abs k1 < 2 ^ 128 /\ Z.abs k2 < 2 ^ 128.
Proof.
  intros Ha. pose proof (split_lambda_spec a Ha) as (O1 & O2 & V1 & V2).
  destruct (secp256k1_scalar_split_lambda a) as [r1 r2]. cbn [fst snd] in *.
  split; [exact O1|]. split; [exact O2|]. split.
  - rewrite V1, V2. apply split_sum.
  - exists (split_k1 (sval a)), (split_k2 (sval a)).
    destruct (split_small (sval a) (sok_range a Ha)) as [H1 H2].
    split; [exact V1|]. split; [exact V2|]. split; apply Z.abs_lt; assumption.
Qed.

(** The second half itself need not be shorter than 128 bits: for the
    scalar 2^128 it is negative, hence stored close to the order. *)
Theorem split_lambda_not_128_bits :
  2 ^ 128 <= sval (snd (secp256k1_scalar_split_lambda (s_const 0 0 0 1 0 0 0 0))).
Proof.
  destruct (s_const_ok 0 0 0 1 0 0 0 0) as [Ha Va];
    [repeat constructor; vm_compute; congruence|reflexivity|].
  destruct (split_lambda_spec _ Ha) as (_ & O2 & _ & V2).
  apply cong_mod_small in V2; [|now apply sok_range].
  rewrite V2, Va. vm_compute. discriminate.
Qed.
End Generic.

Lemma scalar_inverse_inverts_witness :
  let x : ScalarSpec.scalar (ScalarImpl := scalar_4x64) := s_set_int 5 in
  let r := secp256k1_scalar_inverse_var x in
  sok r /\ (sval x <> 0 -> sval x * sval r =[n_order]= 1) /\ (sval x = 0 -> sval r = 0).
Proof. intros x. apply (scalar_inverse_inverts x). apply s_set_int_ok. lia. Defined.

Lemma split_lambda_short_witness :
  let a : ScalarSpec.scalar (ScalarImpl := scalar_4x64) := s_set_int 5 in
  let '(r1, r2) := secp256k1_scalar_split_lambda a in
  sok r1 /\ sok r2 /\ sval r1 + sval r2 * lambda =[n_order]= sval a /\
  exists k1 k2, sval r1 =[n_order]= k1 /\ sval r2 =[n_order]= k2 /\
    Z.abs k1 < 2 ^ 128 /\ Z.abs k2 < 2 ^ 128.
Proof. intros a. apply (split_lambda_short a). apply s_set_int_ok. lia. Defined.
