(* ===== verification/Field10x26Properties.v ===== *)
(** * Properties of the 10x26 field arithmetic

    The representation the Rust crate is built with.  The names of the 5x52
    representation are qualified here. *)
From S2P Require Import Prelude FieldSpec Field5x52.
From S2P Require Import Field10x26.

(** C28: multiplication and squaring in 32-bit words. With inputs of magnitude
    at most 8 none of the nineteen columns overflows the two 64-bit
    accumulators, nor does a doubled limb of the square overflow 32 bits; the
    result has magnitude 1 and its value is the product modulo p. *)
Theorem fe32_mul_sqr_exact a b : fe_mag a 8 -> fe_mag b 8 ->
  (fe_mag (secp256k1_fe_mul_inner a b) 1 /\
   fe_val (secp256k1_fe_mul_inner a b) =[p]= fe_val a * fe_val b) /\
  (fe_mag (secp256k1_fe_sqr_inner a) 1 /\
   fe_val (secp256k1_fe_sqr_inner a) =[p]= fe_val a * fe_val a).
Proof.
  intros Ha Hb. split; [now apply fe32_mul_inner_correct|now apply fe32_sqr_inner_correct].
Qed.

Lemma fe32_mul_sqr_exact_witness :
  let l := 0x3FFFFFF * 16 in
  let a := Fe l 1 l 3 l 5 l 7 l (0x03FFFFF * 16) in
  let b := Fe l l l l l l l l l (0x03FFFFF * 16) in
  (fe_mag (secp256k1_fe_mul_inner a b) 1 /\
   fe_val (secp256k1_fe_mul_inner a b) =[p]= fe_val a * fe_val b) /\
  (fe_mag (secp256k1_fe_sqr_inner a) 1 /\
   fe_val (secp256k1_fe_sqr_inner a) =[p]= fe_val a * fe_val a).
Proof. intros l a b. apply (fe32_mul_sqr_exact a b); split; cbn; lia. Defined.

(** C36: how far normalisation can be trusted. In both representations
    [secp256k1_fe_verify] admits one magnitude too many: up to 2047 (five limbs)
    and 31 (ten limbs) the normal form is canonical, the variable-time routine
    gives the same, and the zero tests decide whether the value is 0 modulo p;
    at 2048 and 32 there is an element that is admitted and whose first carry
    wraps around, so that the value is lost. *)
Theorem fe_normalize_limits (a : Field5x52.fe) (b : fe) :
  Field5x52.fe_mag a 2047 -> fe_mag b 31 ->
  (Field5x52.fe_norm (Field5x52.secp256k1_fe_normalize a) /\
   Field5x52.fe_val (Field5x52.secp256k1_fe_normalize a) = Field5x52.fe_val a mod p /\
   Field5x52.secp256k1_fe_normalize_var a = Field5x52.secp256k1_fe_normalize a /\
   Field5x52.secp256k1_fe_normalizes_to_zero a = (Field5x52.fe_val a mod p =? 0) /\
   Field5x52.secp256k1_fe_normalizes_to_zero_var a = (Field5x52.fe_val a mod p =? 0)) /\
  (fe_norm (secp256k1_fe_normalize b) /\
   fe_val (secp256k1_fe_normalize b) = fe_val b mod p /\
   secp256k1_fe_normalize_var b = secp256k1_fe_normalize b /\
   secp256k1_fe_normalizes_to_zero b = (fe_val b mod p =? 0) /\
   secp256k1_fe_normalizes_to_zero_var b = (fe_val b mod p =? 0)) /\
  (exists c, Field5x52.secp256k1_fe_verify false 2048 c = true /\
   Field5x52.fe_val (Field5x52.secp256k1_fe_normalize c) <> Field5x52.fe_val c mod p) /\
  (exists c, secp256k1_fe_verify false 32 c = true /\
   fe_val (secp256k1_fe_normalize c) <> fe_val c mod p).
Proof.
  intros Ha Hb. split; [|split; [|split]].
  - destruct (Field5x52.fe_normalize_correct a Ha).
    rewrite Field5x52.fe_normalizes_to_zero_var_correct, Field5x52.fe_normalize_var_correct,
      Field5x52.fe_normalizes_to_zero_correct by exact Ha. auto.
  - destruct (fe32_normalize_correct b Hb).
    rewrite fe32_normalizes_to_zero_var_correct, fe32_normalize_var_correct,
      fe32_normalizes_to_zero_correct by exact Hb. auto.
  - exists Field5x52.fe_2048. exact Field5x52.fe_normalize_2048.
  - exists fe_32. split; [reflexivity|vm_compute; discriminate].
Qed.

Lemma fe_normalize_limits_witness :
  let l := 0x3FFFFFF * 62 in
  let a := Field5x52.Fe (0xFFFFFFFFFFFFF * 4094) 1 2 3 (0x0FFFFFFFFFFFF * 4094) in
  let b := Fe l l l l l l l l l (0x03FFFFF * 62) in
  Field5x52.fe_val (Field5x52.secp256k1_fe_normalize a) = Field5x52.fe_val a mod p /\
  fe_val (secp256k1_fe_normalize b) = fe_val b mod p.
Proof.
  intros l a b. destruct (fe_normalize_limits a b) as (A & B & _).
  - split; cbn; lia.
  - split; cbn; lia.
  - split; [apply A|apply B].
Defined.

(** Parsing and serialising. [secp256k1_fe_set_b32] reads 32 bytes as a
    big-endian number, reports exactly the values not below p, and what it
    accepted is given back unchanged by [secp256k1_fe_get_b32]; packing into
    storage and back changes nothing. *)
Theorem fe32_bytes_roundtrip l : Forall is_byte l -> length l = 32%nat ->
  let '(a, ok) := secp256k1_fe_set_b32 l in
  fe_val a = be_val l /\ ok = (be_val l <? p) /\
  (ok = true -> fe_norm a /\ secp256k1_fe_get_b32 a = l /\
   secp256k1_fe_from_storage (secp256k1_fe_to_storage a) = a).
Proof.
  intros Hl Hlen. rewrite fe32_set_b32_correct by assumption.
  pose proof (be_val_32_w26 l Hl Hlen) as HV.
  split; [now apply fe32_val_of_Z|]. split; [reflexivity|].
  rewrite Z.ltb_lt. intros Hp.
  assert (N : fe_norm (fe_of_Z (be_val l))) by (apply fe32_norm_of_Z; lia).
  split; [exact N|]. split; [|now apply fe32_storage_roundtrip].
  rewrite fe32_get_b32_correct, fe32_val_of_Z by assumption.
  rewrite <- Hlen. now apply be_bytes_val.
Qed.

Lemma fe32_bytes_roundtrip_witness :
  let l := be_bytes 32 (p - 1) in
  let '(a, ok) := secp256k1_fe_set_b32 l in
  fe_val a = be_val l /\ ok = (be_val l <? p) /\
  (ok = true -> fe_norm a /\ secp256k1_fe_get_b32 a = l /\
   secp256k1_fe_from_storage (secp256k1_fe_to_storage a) = a).
Proof. intros l. apply (fe32_bytes_roundtrip l); [apply be_bytes_byte|reflexivity]. Defined.
