(* ===== verification/Scalar8x32Properties.v ===== *)
(** * Properties of the 8x32 scalar arithmetic

    The representation the Rust crate is built with. *)
From S2P Require Import Prelude ScalarSpec Scalar8x32.

(** A literal scalar is reduced. *)
Ltac canon_lit :=
  split; [split; (split; vm_compute; congruence)|vm_compute; reflexivity].

(** C37: arithmetic in 32-bit words. Addition, negation, multiplication and
    squaring are exact modulo the order; no column of the 16-word product or
    of its two-step reduction overflows the 96-bit accumulator. *)
Theorem scalar32_arith_exact a b : canon a -> canon b ->
  let '(s, overflow) := secp256k1_scalar_add a b in
  (canon s /\ val s = (val a + val b) mod n_order /\
   overflow = b2z (n_order <=? val a + val b)) /\
  (canon (secp256k1_scalar_negate a) /\
   val (secp256k1_scalar_negate a) = (- val a) mod n_order) /\
  (canon (secp256k1_scalar_mul a b) /\
   val (secp256k1_scalar_mul a b) = (val a * val b) mod n_order) /\
  (canon (secp256k1_scalar_sqr a) /\
   val (secp256k1_scalar_sqr a) = (val a * val a) mod n_order).
Proof.
  intros Ha Hb. pose proof (w32_add_spec a b Ha Hb) as A.
  destruct (secp256k1_scalar_add a b) as [s overflow].
  split; [exact A|]. split; [exact (w32_negate_spec a Ha)|].
  split; [exact (w32_mul_spec a b Ha Hb)|exact (w32_sqr_spec a Ha)].
Qed.

Lemma scalar32_arith_exact_witness :
  let a := Scalar 0xD0364140 0xBFD25E8C 0xAF48A03B 0xBAAEDCE6
                  0xFFFFFFFE 0xFFFFFFFF 0xFFFFFFFF 0xFFFFFFFF in
  let b := Scalar 5 0 0xFFFFFFFF 3 0 1 2 0xFFFFFFFE in
  let '(s, overflow) := secp256k1_scalar_add a b in
  (canon s /\ val s = (val a + val b) mod n_order /\
   overflow = b2z (n_order <=? val a + val b)) /\
  (canon (secp256k1_scalar_negate a) /\
   val (secp256k1_scalar_negate a) = (- val a) mod n_order) /\
  (canon (secp256k1_scalar_mul a b) /\
   val (secp256k1_scalar_mul a b) = (val a * val b) mod n_order) /\
  (canon (secp256k1_scalar_sqr a) /\
   val (secp256k1_scalar_sqr a) = (val a * val a) mod n_order).
Proof. intros a b. apply (scalar32_arith_exact a b); canon_lit. Defined.

(** The tests and conditional operations in 32-bit words, and the rounded
    shift of a product, agree with the integers they stand for. *)
Theorem scalar32_tests_and_shifts a b bit flag sh : canon a -> canon b ->
  0 <= bit < 256 -> (flag = true -> val a + 2 ^ bit < n_order) -> 256 <= sh <= 512 ->
  secp256k1_scalar_is_high a = b2z (n_order / 2 <? val a) /\
  secp256k1_scalar_is_zero a = (val a =? 0) /\
  secp256k1_scalar_eq a b = (val a =? val b) /\
  val (secp256k1_scalar_cadd_bit a bit flag) = (if flag then val a + 2 ^ bit else val a) /\
  (let '(r, sign) := secp256k1_scalar_cond_negate a flag in
   canon r /\ val r = (if flag then (- val a) mod n_order else val a) /\
   sign = if flag then -1 else 1) /\
  val (secp256k1_scalar_mul_shift_var a b sh) = (val a * val b + 2 ^ (sh - 1)) / 2 ^ sh.
Proof.
  intros Ha Hb Hbit Hf Hsh. split; [apply w32_is_high_spec, Ha|].
  split; [apply w32_zero_spec, Ha|]. split; [apply w32_eq_spec; [apply Ha|apply Hb]|].
  split; [|split].
  - apply w32_cadd_bit_spec; [apply Ha|exact Hbit|]. intros E. specialize (Hf E).
    unfold n_order in Hf. lia.
  - pose proof (w32_cond_negate_spec a flag Ha) as H.
    now destruct (secp256k1_scalar_cond_negate a flag).
  - now apply w32_mul_shift_var_spec.
Qed.

Lemma scalar32_tests_and_shifts_witness :
  let a := Scalar 7 1 0xFFFFFFFF 3 0 0 0 0x7FFFFFFF in
  let b := Scalar 5 0 0xFFFFFFFF 3 0 1 2 0xFFFFFFFE in
  secp256k1_scalar_is_high a = b2z (n_order / 2 <? val a) /\
  secp256k1_scalar_is_zero a = (val a =? 0) /\
  secp256k1_scalar_eq a b = (val a =? val b) /\
  val (secp256k1_scalar_cadd_bit a 130 true) = (if true then val a + 2 ^ 130 else val a) /\
  (let '(r, sign) := secp256k1_scalar_cond_negate a true in
   canon r /\ val r = (if true then (- val a) mod n_order else val a) /\
   sign = if true then -1 else 1) /\
  val (secp256k1_scalar_mul_shift_var a b 272) = (val a * val b + 2 ^ (272 - 1)) / 2 ^ 272.
Proof.
  intros a b. apply (scalar32_tests_and_shifts a b 130 true 272); try canon_lit; try lia.
  intros _. vm_compute. reflexivity.
Defined.
