(* ===== verification/GroupProperties.v ===== *)
(** * Properties of the group operations

    [gej_rep a P] and [ge_rep a P] say that the Jacobian or affine structure
    [a] stores the point [P] of the curve; the theorems hold for every
    implementation of the field interface. *)
From S2P Require Import Prelude Primes FieldSpec Field5x52 Field CurveSpec Group.

Section GroupProperties.
Context {F : FieldImpl}.

(** C30: the variable-time additions and the doubling. For all points, the
    infinite ones and P = Q and P = -Q included, they compute the affine chord
    and tangent sum; the z-ratio they report relates the z coordinates. *)
Theorem addition_correct r a b c P Q :
  gej_mags r -> gej_rep a P -> gej_rep b Q -> ge_rep c Q ->
  let d1 := secp256k1_gej_add_var r a b in
  let d2 := secp256k1_gej_add_ge_var r a c in
  let d3 := secp256k1_gej_double_var r a in
  (gej_rep (fst d1) (padd P Q) /\ rzr_ok a (fst d1) (snd d1)) /\
  (gej_rep (fst d2) (padd P Q) /\ rzr_ok a (fst d2) (snd d2)) /\
  gej_rep (fst d3) (padd P P).
Proof.
  intros Hr Ha Hb Hc. split; [exact (add_var_rep r a b P Q Hr Ha Hb)|].
  split; [exact (add_ge_var_rep r a c P Q Hr Ha Hc)|exact (proj1 (double_rep r a P Hr Ha))].
Qed.

(** The branch-free addition. One formula serves every case, the
    degenerate slope included; the only excluded input is an infinite [b],
    which the code excludes too. *)
Theorem unified_addition_correct a b P Q : gej_rep a P -> ge_rep b Q -> Q <> Inf ->
  gej_rep (secp256k1_gej_add_ge a b) (padd P Q).
Proof. intros. now apply add_ge_rep. Qed.

(** Addition of a point given by x, y and the inverse of its z. *)
Theorem zinv_addition_correct r a b bzinv P Q :
  gej_mags r -> gej_rep a P -> zinv_rep b bzinv Q ->
  gej_rep (secp256k1_gej_add_zinv_var r a b bzinv) (padd P Q).
Proof. intros. now apply add_zinv_var_rep. Qed.

(** Batch conversion to affine coordinates. One field inversion serves all
    finite entries; infinite entries are skipped in step. *)
Theorem batch_to_affine azi r a Ps : Forall2 gej_rep a Ps -> length r = length a ->
  Forall ge_mags r -> length azi = length (filter (fun ai => negb (jinf ai)) a) ->
  Forall2 ge_rep (secp256k1_ge_set_all_gej_var azi r a) Ps.
Proof. intros. now apply set_all_rep. Qed.

(** Tables. From the z-ratios of consecutive entries, one routine makes
    every entry affine with a single inversion, the other brings every entry
    to one common z without any. *)
Theorem table_conversion a zr Ps r g0 dj dr dP :
  Forall2 gej_rep a Ps -> zr_chain a zr -> length r = length a -> (1 <= length a)%nat ->
  jinf (nth (length a - 1) a dj) = false ->
  (forall k, (k < length a)%nat ->
     ge_rep (nth k (secp256k1_ge_set_table_gej_var r a zr (length a)) dr) (nth k Ps dP)) /\
  let '(r', g) := secp256k1_ge_globalz_set_table_gej (length a) r g0 a zr in
  forall k, (k < length a)%nat ->
    gej_rep (Gej (gx (nth k r' dr)) (gy (nth k r' dr)) g (ginf (nth k r' dr))) (nth k Ps dP).
Proof.
  intros Ha Hz Hl Hn Hf. split; [exact (set_table_rep a zr Ps Ha Hz r dj dr dP Hl Hn Hf)|].
  exact (globalz_table_rep a zr Ps Ha Hz r g0 dj dr dP Hl Hn Hf).
Qed.

(** Decompression. It succeeds exactly when some point of the curve has
    the abscissa, and then gives the one with the wanted parity. *)
Theorem decompression_complete x odd : fmag x 8 ->
  let '(r, ok) := secp256k1_ge_set_xo_var x odd in
  (ok = true <-> exists y, on_curve (Aff (fval x mod p) y)) /\
  (ok = true -> exists y, ge_rep r (Aff (fval x mod p) y) /\ Z.odd y = odd).
Proof.
  intros Hx. pose proof (set_xo_spec x odd Hx) as H.
  now destruct (secp256k1_ge_set_xo_var x odd).
Qed.

(** Conversions that keep the point: to affine coordinates, to another z,
    to the packed form and back, and the negation. *)
Theorem conversions_keep_point a b s P Q : gej_rep a P -> ge_rep b Q -> Q <> Inf ->
  fmag s 8 -> fval s mod p <> 0 ->
  (ge_rep (fst (secp256k1_ge_set_gej a)) P /\ gej_rep (snd (secp256k1_ge_set_gej a)) P) /\
  gej_rep (secp256k1_gej_rescale a s) P /\
  ge_rep (secp256k1_ge_from_storage (secp256k1_ge_to_storage b)) Q /\
  gej_rep (secp256k1_gej_neg a) (pneg P) /\
  gej_rep (secp256k1_gej_set_ge b) Q.
Proof.
  intros Ha Hb HQ Ms Hs. split; [now apply set_gej_rep|]. split; [now apply rescale_rep|].
  split; [now apply storage_roundtrip|]. split; [now apply gej_neg_rep|now apply set_ge_rep].
Qed.

(** Tests. The quadratic residuosity of y is decided from the Jacobian
    coordinates, and the comparison of an abscissa needs no inversion. *)
Theorem jacobian_tests a x P : gej_rep a P -> fmag x 8 ->
  (secp256k1_gej_has_quad_y_var a = true <->
     match P with Inf => False | Aff _ y => exists s, s * s =[p]= y end) /\
  (secp256k1_gej_eq_x_var x a =
     ((fval (jz a) * fval (jz a) * fval x) mod p =? fval (jx a) mod p)).
Proof.
  intros Ha Hx. split; [now apply has_quad_y_spec|]. apply eq_x_spec; [exact Hx|apply Ha].
Qed.
End GroupProperties.

(** ** Witnesses: the generator in the 5x52 representation *)

#[local] Existing Instance field_5x52.

Definition G_ge : secp256k1_ge := secp256k1_ge_const_g.
Definition G_gej : secp256k1_gej := secp256k1_gej_set_ge G_ge.
Definition G_dbl : secp256k1_gej := fst (secp256k1_gej_double_var G_gej G_gej).

Lemma G_ge_rep : ge_rep G_ge G_point.
Proof. exact const_g_rep. Qed.
Lemma G_gej_rep : gej_rep G_gej G_point.
Proof. exact (set_ge_rep _ _ G_ge_rep). Qed.
Lemma G_dbl_rep : gej_rep G_dbl (padd G_point G_point).
Proof. exact (proj1 (double_rep _ _ _ (proj1 G_gej_rep) G_gej_rep)). Qed.

Lemma addition_correct_witness :
  let d1 := secp256k1_gej_add_var G_gej G_dbl G_gej in
  let d2 := secp256k1_gej_add_ge_var G_gej G_dbl G_ge in
  let d3 := secp256k1_gej_double_var G_gej G_dbl in
  let P := padd G_point G_point in
  (gej_rep (fst d1) (padd P G_point) /\ rzr_ok G_dbl (fst d1) (snd d1)) /\
  (gej_rep (fst d2) (padd P G_point) /\ rzr_ok G_dbl (fst d2) (snd d2)) /\
  gej_rep (fst d3) (padd P P).
Proof.
  exact (addition_correct G_gej G_dbl G_gej G_ge _ _
    (proj1 G_gej_rep) G_dbl_rep G_gej_rep G_ge_rep).
Defined.

Lemma unified_addition_correct_witness :
  gej_rep (secp256k1_gej_add_ge G_dbl G_ge) (padd (padd G_point G_point) G_point).
Proof. apply (unified_addition_correct _ _ _ _ G_dbl_rep G_ge_rep). discriminate. Defined.

Lemma zinv_addition_correct_witness :
  gej_rep (secp256k1_gej_add_zinv_var G_gej G_dbl G_ge (fe_set_int 1))
    (padd (padd G_point G_point) G_point).
Proof.
  apply (zinv_addition_correct _ _ _ _ _ _ (proj1 G_gej_rep) G_dbl_rep).
  destruct G_ge_rep as (M & Hc & Hi & Vx & Vy).
  destruct (fev_set_int 1 eq_refl) as [M1 V1].
  split; [exact M|]. split; [exact (fmag_le _ 1 8 M1 ltac:(lia))|]. split; [exact Hc|].
  split; [exact Hi|]. split; [apply cong_iff in V1; rewrite V1; exact one_nonzero|].
  rewrite V1, Vx, Vy. split; apply cong_eq; ring.
Defined.

Lemma batch_to_affine_witness :
  Forall2 ge_rep
    (secp256k1_ge_set_all_gej_var [fe_set_int 0; fe_set_int 0] [G_ge; G_ge; G_ge]
       [G_dbl; secp256k1_gej_set_infinity G_gej; G_gej])
    [padd G_point G_point; Inf; G_point].
Proof.
  apply batch_to_affine; try reflexivity.
  - constructor; [exact G_dbl_rep|]. constructor; [|constructor; [exact G_gej_rep|constructor]].
    apply rep_inf; [|reflexivity].
    exact (set_infinity_mags G_gej).
  - repeat (apply Forall_cons; [exact (proj1 G_ge_rep)|]). constructor.
Defined.

Lemma table_conversion_witness :
  let a := [G_gej] in
  (forall k, (k < 1)%nat ->
     ge_rep (nth k (secp256k1_ge_set_table_gej_var [G_ge] a [] 1) G_ge) (nth k [G_point] Inf)) /\
  let '(r', g) := secp256k1_ge_globalz_set_table_gej 1 [G_ge] (fe_set_int 0) a [] in
  forall k, (k < 1)%nat ->
    gej_rep (Gej (gx (nth k r' G_ge)) (gy (nth k r' G_ge)) g (ginf (nth k r' G_ge)))
      (nth k [G_point] Inf).
Proof.
  apply (table_conversion [G_gej] [] [G_point] [G_ge] (fe_set_int 0) G_gej G_ge Inf);
    try reflexivity.
  - constructor; [exact G_gej_rep|constructor].
  - intros i d z Hi. cbn in Hi. lia.
Defined.

Lemma decompression_complete_witness :
  let x := fe_set_int 1 in
  let '(r, ok) := secp256k1_ge_set_xo_var x true in
  (ok = true <-> exists y, on_curve (Aff (fval x mod p) y)) /\
  (ok = true -> exists y, ge_rep r (Aff (fval x mod p) y) /\ Z.odd y = true).
Proof.
  apply (decompression_complete (fe_set_int 1) true).
  destruct (fev_set_int 1 eq_refl) as [M _]. exact (fmag_le _ 1 8 M ltac:(lia)).
Defined.

Lemma conversions_keep_point_witness :
  let P := padd G_point G_point in
  (ge_rep (fst (secp256k1_ge_set_gej G_dbl)) P /\ gej_rep (snd (secp256k1_ge_set_gej G_dbl)) P) /\
  gej_rep (secp256k1_gej_rescale G_dbl (fe_set_int 7)) P /\
  ge_rep (secp256k1_ge_from_storage (secp256k1_ge_to_storage G_ge)) G_point /\
  gej_rep (secp256k1_gej_neg G_dbl) (pneg P) /\
  gej_rep (secp256k1_gej_set_ge G_ge) G_point.
Proof.
  destruct (fev_set_int 7 eq_refl) as [M V].
  apply (conversions_keep_point G_dbl G_ge (fe_set_int 7) _ _ G_dbl_rep G_ge_rep).
  - discriminate.
  - exact (fmag_le _ 1 8 M ltac:(lia)).
  - apply cong_iff in V. rewrite V. vm_compute. discriminate.
Defined.

Lemma jacobian_tests_witness :
  (secp256k1_gej_has_quad_y_var G_gej = true <->
     match G_point with Inf => False | Aff _ y => exists s, s * s =[p]= y end) /\
  (secp256k1_gej_eq_x_var (fe_set_int 3) G_gej =
     ((fval (jz G_gej) * fval (jz G_gej) * fval (fe_set_int 3)) mod p =? fval (jx G_gej) mod p)).
Proof.
  apply (jacobian_tests G_gej (fe_set_int 3) _ G_gej_rep).
  destruct (fev_set_int 3 eq_refl) as [M _]. exact (fmag_le _ 1 8 M ltac:(lia)).
Defined.
