(* ===== verification/ApiProperties.v ===== *)
(** * The public interface: contexts, keys and signatures together

    The life of a context object, and what a caller of secp256k1.c can rely on:
    a key created, tweaked, combined or written out and read back is the key it
    should be, a signature made with one context verifies with another, and of
    wrong arguments the first one is reported and the result is 0. *)
From Stdlib Require Import String.
From S2P Require Import Prelude Primes FieldSpec Field ScalarSpec Scalar Sha256Spec Hash.
From S2P Require Import CurveSpec CurveGroup CurveOrder CurveCount Group Ecmult EcmultGen.
From S2P Require Import EcmultProperties Ecdsa Eckey Der Api EcdsaProperties.
From S2P Require Import Field5x52 Scalar4x64.

Section ApiProperties.
Context {F : FieldImpl} {SI : ScalarImpl} (junk : secp256k1_gej) (Hjunk : gej_mags junk).
Context (hmac0 : hmac_sha256_t) (scratch : sha256_t).
Hypothesis Hi : buf_ok (inner hmac0).
Hypothesis Ho : buf_ok (outer hmac0).
Hypothesis Hs : buf_ok scratch.

(** ** Contexts *)

Definition sign_flag (flags : Z) : bool :=
  negb ((flags .& SECP256K1_FLAGS_BIT_CONTEXT_SIGN) =? 0).
Definition verify_flag (flags : Z) : bool :=
  negb ((flags .& SECP256K1_FLAGS_BIT_CONTEXT_VERIFY) =? 0).

(** The context objects a program can hold, with what they were created for. *)
Inductive ctx_reachable (fuel : nat) : bool -> bool -> secp256k1_context -> Prop :=
| ctx_created blank flags ctx log :
    secp256k1_context_create junk hmac0 scratch fuel blank flags = Some (Some ctx, log) ->
    ctx_reachable fuel (sign_flag flags) (verify_flag flags) ctx
| ctx_cloned s v blank ctx :
    ctx_reachable fuel s v ctx -> ctx_reachable fuel s v (secp256k1_context_clone blank ctx)
| ctx_randomized s v ctx seed r :
    ctx_reachable fuel s v ctx -> opt_bytes seed ->
    secp256k1_context_randomize hmac0 scratch fuel ctx seed = Some r ->
    ctx_reachable fuel s v (out r)
| ctx_illegal_callback s v ctx fn data :
    ctx_reachable fuel s v ctx ->
    ctx_reachable fuel s v (secp256k1_context_set_illegal_callback ctx fn data)
| ctx_error_callback s v ctx fn data :
    ctx_reachable fuel s v ctx ->
    ctx_reachable fuel s v (secp256k1_context_set_error_callback ctx fn data).

(** The invariant of the objects. *)
Definition gen_part_ok (fuel : nat) (s : bool) (g : secp256k1_ecmult_gen_context) : Prop :=
  if s then gen_reachable junk hmac0 scratch fuel g else prec g = None.

Definition verify_part_ok (v : bool) (c : secp256k1_ecmult_context) : Prop :=
  if v then ctx_ok c else secp256k1_ecmult_context_is_built c = false.

Definition context_ok (fuel : nat) (s v : bool) (ctx : secp256k1_context) : Prop :=
  gen_part_ok fuel s (ecmult_gen_ctx ctx) /\ gen_part_ok fuel s (ecmult_gen_switch_ctx ctx) /\
  verify_part_ok v (ecmult_ctx ctx).

Lemma gen_part_clone fuel s blank g : gen_part_ok fuel s g ->
  gen_part_ok fuel s (secp256k1_ecmult_gen_context_clone blank g).
Proof.
  destruct s; cbn [gen_part_ok]; intros H; [now apply gen_cloned|].
  unfold secp256k1_ecmult_gen_context_clone. now rewrite H.
Qed.

Lemma verify_part_clone v c : verify_part_ok v c ->
  verify_part_ok v (secp256k1_ecmult_context_clone c).
Proof.
  intros H. replace (secp256k1_ecmult_context_clone c) with c; [exact H|].
  destruct c as [[t|] [u|]]; reflexivity.
Qed.

Lemma create_ok fuel blank flags ctx log :
  secp256k1_context_create junk hmac0 scratch fuel blank flags = Some (Some ctx, log) ->
  context_ok fuel (sign_flag flags) (verify_flag flags) ctx.
Proof.
  unfold secp256k1_context_create. destruct (negb _); [discriminate|].
  fold (sign_flag flags) (verify_flag flags). set (g0 := secp256k1_ecmult_gen_context_init blank).
  assert (V : verify_part_ok (verify_flag flags)
    (if verify_flag flags then secp256k1_ecmult_context_build junk secp256k1_ecmult_context_init
     else secp256k1_ecmult_context_init)).
  { destruct (verify_flag flags); [now apply context_build_ok|reflexivity]. }
  destruct (sign_flag flags).
  - destruct (secp256k1_ecmult_gen_context_build junk hmac0 scratch fuel g0) as [g|] eqn:E; [|discriminate].
    intros H. apply (f_equal (fun o => match o with Some (Some c, _) => Some c | _ => None end)) in H.
    injection H as <-. split; [|split; [|exact V]]; exact (gen_built _ _ _ _ g0 g eq_refl E).
  - intros H. apply (f_equal (fun o => match o with Some (Some c, _) => Some c | _ => None end)) in H.
    injection H as <-. split; [reflexivity|]. split; [reflexivity|exact V].
Qed.

Lemma randomize_ok fuel s v ctx seed r : context_ok fuel s v ctx -> opt_bytes seed ->
  secp256k1_context_randomize hmac0 scratch fuel ctx seed = Some r -> context_ok fuel s v (out r).
Proof.
  intros (H1 & H2 & H3) Hb. unfold secp256k1_context_randomize.
  destruct (secp256k1_ecmult_gen_context_is_built _) eqn:B.
  - destruct (secp256k1_ecmult_gen_blind _ _ _ _ _) as [g|] eqn:E; [|discriminate].
    intros H. injection H as <-. split; [|split; [exact H2|exact H3]]. destruct s.
    + exact (gen_blinded _ _ _ _ _ _ seed H1 Hb E).
    + unfold secp256k1_ecmult_gen_context_is_built in B. cbn [gen_part_ok] in H1.
      rewrite H1 in B. discriminate B.
  - intros H. injection H as <-. split; [exact H1|]. split; [exact H2|exact H3].
Qed.

Lemma ctx_reachable_ok fuel s v ctx : ctx_reachable fuel s v ctx -> context_ok fuel s v ctx.
Proof.
  induction 1 as [? ? ? ? E|s v blank ctx _ (H1 & H2 & H3)|s v ctx seed r _ IH Hb E| |];
    [exact (create_ok _ _ _ _ _ E)| |exact (randomize_ok _ _ _ _ _ _ IH Hb E)|assumption..].
  split; [now apply gen_part_clone|]. split; [now apply gen_part_clone|now apply verify_part_clone].
Qed.

(** ** Keys *)

Lemma create_rep ctx key pk0 : gen_ctx_ok (ecmult_gen_ctx ctx) -> seckey_ok key ->
  seckey_valid key = true -> exists pk,
  secp256k1_ec_pubkey_create ctx (Some pk0) (Some key) = Api true (Some pk) [] /\
  pk_rep pk (smul (be_val key) G_point).
Proof.
  intros HG Hk V. pose proof (pubkey_create_spec ctx pk0 key HG Hk) as S. now rewrite V in S.
Qed.

Lemma scalar_bytes d : 0 <= d < n_order ->
  seckey_ok (be_bytes 32 d) /\ be_val (be_bytes 32 d) = d.
Proof.
  intros H. split; [split; [apply be_bytes_byte|apply length_be_bytes]|].
  rewrite be_val_bytes. apply Z.mod_small. unfold n_order in H. lia.
Qed.

(** A structure that holds d * G is what creating the key d gives. *)
Lemma create_unique ctx pk0 pk d : gen_ctx_ok (ecmult_gen_ctx ctx) -> 0 <= d < n_order ->
  pk_rep pk (smul d G_point) ->
  secp256k1_ec_pubkey_create ctx (Some pk0) (Some (be_bytes 32 d)) = Api true (Some pk) [].
Proof.
  intros HG Rd H. destruct (scalar_bytes d Rd) as [Hb Ev].
  assert (V : seckey_valid (be_bytes 32 d) = true).
  { unfold seckey_valid. rewrite Ev. assert (d <> 0) by (intros ->; now destruct H).
    rewrite (proj2 (Z.ltb_lt 0 d)), (proj2 (Z.ltb_lt d _)) by lia. reflexivity. }
  destruct (create_rep ctx _ pk0 HG Hb V) as (pk' & -> & R). rewrite Ev in R.
  now rewrite (pk_rep_unique pk' pk _ R H).
Qed.

Lemma create_zero ctx pk0 : gen_ctx_ok (ecmult_gen_ctx ctx) ->
  secp256k1_ec_pubkey_create ctx (Some pk0) (Some (be_bytes 32 0)) = Api false (Some pubkey_zero) [].
Proof.
  intros HG. destruct (scalar_bytes 0 ltac:(now split)) as [Hb Ev].
  pose proof (pubkey_create_spec ctx pk0 _ HG Hb) as S.
  unfold seckey_valid in S. now rewrite Ev in S.
Qed.

Lemma tweaked_create ctx pk0 ok d priv pub : gen_ctx_ok (ecmult_gen_ctx ctx) ->
  tweaked ok (d mod n_order) priv pub -> pub = secp256k1_ec_pubkey_create ctx (Some pk0) (out priv).
Proof.
  intros HG. unfold tweaked. destruct ok; intros [-> H]; cbn [out].
  - destruct H as (pk & -> & R). symmetry. apply create_unique; [exact HG| |exact R].
    now apply Z.mod_pos_bound.
  - rewrite H. symmetry. exact (create_zero ctx pk0 HG).
Qed.

Lemma created_reps ctx pk0 keys pks : gen_ctx_ok (ecmult_gen_ctx ctx) ->
  Forall (fun key => seckey_ok key /\ seckey_valid key = true) keys ->
  Forall2 (fun key pk =>
    secp256k1_ec_pubkey_create ctx (Some pk0) (Some key) = Api true (Some pk) []) keys pks ->
  Forall2 pk_rep pks (map (fun key => smul (be_val key) G_point) keys).
Proof.
  intros HG HK. induction 1 as [|key pk keys pks E _ IH]; [constructor|].
  inversion HK as [|? ? [Hk V] HK']; subst. cbn [map]. constructor; [|now apply IH].
  destruct (create_rep ctx key pk0 HG Hk V) as (pk' & E' & R). rewrite E in E'.
  apply (f_equal (@out _)) in E'. cbn [out] in E'. now injection E' as <-.
Qed.

Lemma psum_keys keys : psum (map (fun key => smul (be_val key) G_point) keys)
  = smul (fold_right Z.add 0 (map be_val keys)) G_point.
Proof.
  unfold psum.
  assert (H : forall a, fold_left padd (map (fun key => smul (be_val key) G_point) keys) (smul a G_point)
    = smul (a + fold_right Z.add 0 (map be_val keys)) G_point).
  { induction keys as [|key keys IH]; intros a; cbn [map fold_left fold_right]; [now rewrite Z.add_0_r|].
    rewrite <- smul_add by oc. rewrite IH. f_equal. lia. }
  exact (H 0).
Qed.

(** C6: taking the public key commutes with every operation on keys. Negating or
    tweaking the public key of [key] gives exactly what creating the public key
    of the negated or tweaked secret key gives: the same structure on success,
    and the same failure and zeros when the tweak is out of range or leads to
    the zero key. *)
Theorem api_keys_commute ctx pk0 key tweak pk : gen_ctx_ok (ecmult_gen_ctx ctx) ->
  ctx_ok (ecmult_ctx ctx) -> seckey_ok key -> seckey_valid key = true -> seckey_ok tweak ->
  let create b := secp256k1_ec_pubkey_create ctx (Some pk0) b in
  create (Some key) = Api true (Some pk) [] ->
  secp256k1_ec_pubkey_negate ctx (Some pk) = create (out (secp256k1_ec_privkey_negate ctx (Some key))) /\
  secp256k1_ec_pubkey_tweak_add junk ctx (Some pk) (Some tweak)
    = create (out (secp256k1_ec_privkey_tweak_add ctx (Some key) (Some tweak))) /\
  secp256k1_ec_pubkey_tweak_mul junk ctx (Some pk) (Some tweak)
    = create (out (secp256k1_ec_privkey_tweak_mul ctx (Some key) (Some tweak))).
Proof.
  intros HG HC Hk V Ht create E. destruct (create_rep ctx key pk0 HG Hk V) as (pk' & E' & R).
  unfold create in E. rewrite E in E'. apply (f_equal (@out _)) in E'. cbn [out] in E'. injection E' as <-.
  assert (Rk : 0 < be_val key < n_order)
    by (unfold seckey_valid in V; apply andb_true_iff in V; rewrite !Z.ltb_lt in V; lia).
  split; [|split].
  - rewrite (api_privkey_negate_spec ctx key Hk V). cbn [out].
    destruct (api_negate_spec ctx pk _ R) as (pk' & -> & R'). symmetry.
    apply (create_unique ctx pk0 pk' (n_order - be_val key) HG); [lia|].
    rewrite <- smul_opp in R' by oc. rewrite (smul_cong _ (- be_val key)); [exact R'|].
    apply (cong_by 1). lia.
  - exact (tweaked_create _ _ _ _ _ _ HG (api_tweak_add_spec junk Hjunk ctx key tweak pk HC Hk V Ht R)).
  - exact (tweaked_create _ _ _ _ _ _ HG (api_tweak_mul_spec junk Hjunk ctx key tweak pk HC Hk V Ht R)).
Qed.

(** Combining the public keys of some secret keys gives what creating the
    public key of the sum of the secret keys gives, the failure for a sum that
    is zero modulo the order included. *)
Theorem api_combine_sum ctx pk0 keys pks : gen_ctx_ok (ecmult_gen_ctx ctx) -> keys <> [] ->
  Forall (fun key => seckey_ok key /\ seckey_valid key = true) keys ->
  Forall2 (fun key pk =>
    secp256k1_ec_pubkey_create ctx (Some pk0) (Some key) = Api true (Some pk) []) keys pks ->
  secp256k1_ec_pubkey_combine junk ctx (Some pk0) (Some pks) (length pks)
  = secp256k1_ec_pubkey_create ctx (Some pk0)
      (Some (be_bytes 32 (fold_right Z.add 0 (map be_val keys) mod n_order))).
Proof.
  intros HG Hn HK HE. pose proof (created_reps ctx pk0 keys pks HG HK HE) as HR.
  assert (Hn' : pks <> []) by (intros ->; inversion HE; congruence).
  pose proof (api_combine_spec junk ctx pk0 pks _ HR Hn') as S.
  rewrite psum_keys in S. set (d := fold_right Z.add 0 (map be_val keys)) in *.
  pose proof (Z.mod_pos_bound d n_order eq_refl) as Rd. rewrite <- smul_mod in S.
  destruct (Z.eqb_spec (d mod n_order) 0) as [E|N].
  - rewrite E in *. rewrite smul_0 in S. now rewrite S, create_zero.
  - assert (Fin : smul (d mod n_order) G_point <> Inf)
      by (apply finite_multiplier; now rewrite Z.mod_mod).
    destruct (smul (d mod n_order) G_point) eqn:EP; [contradiction|].
    destruct S as (pk & -> & R). symmetry. apply create_unique; [exact HG|exact Rd|]. now rewrite EP.
Qed.

(** ** Signatures *)

(** A nonce function that fills the 32 bytes it is given. *)
Definition nonce_fn_ok (noncefp : option secp256k1_nonce_function) (msg32 key : bytes)
    (ndata : option bytes) : Prop :=
  match noncefp with
  | None => opt_bytes ndata
  | Some f => forall c b, f msg32 key None ndata c = Some b -> seckey_ok b
  end.

Lemma nonce_fn_bytes noncefp msg32 key ndata : seckey_ok msg32 -> seckey_ok key ->
  nonce_fn_ok noncefp msg32 key ndata ->
  forall c b, (match noncefp with
               | None => secp256k1_nonce_function_default hmac0 scratch
               | Some f => f end) msg32 key None ndata c = Some b -> seckey_ok b.
Proof.
  intros Hm Hk H c b. destruct noncefp as [f|]; [apply H|].
  unfold secp256k1_nonce_function_default.
  rewrite (nonce_function_spec hmac0 scratch Hi Ho Hs msg32 key None ndata c Hm Hk I H).
  intros E. injection E as <-.
  destruct (nonce_seed_ok msg32 key None ndata Hm Hk I H) as [SB SL].
  now apply (drbg_block_ok hmac0 scratch Hi Ho Hs).
Qed.

(** Whatever the nonce function, a signature handed out belongs to the key. *)
Lemma api_sign_sound fuel ctx sig0 msg32 key noncefp ndata res :
  gen_ctx_ok (ecmult_gen_ctx ctx) -> seckey_ok msg32 -> seckey_ok key ->
  nonce_fn_ok noncefp msg32 key ndata ->
  secp256k1_ecdsa_sign hmac0 scratch fuel ctx (Some sig0) (Some msg32) (Some key) noncefp ndata
    = Some res ->
  illegal res = [] /\ (ret res = false -> out res = Some signature_zero) /\
  (ret res = true -> seckey_valid key = true /\ exists r s recid k, out res = Some (r, s) /\
    0 < k < n_order /\
    is_signature (be_val key) (be_val msg32 mod n_order) k r s recid).
Proof.
  intros HG Hm Hk Hf. unfold secp256k1_ecdsa_sign. rewrite (gc_built _ HG). cbn [negb].
  pose proof (nonce_fn_bytes noncefp msg32 key ndata Hm Hk Hf) as NB.
  set (f := match noncefp with None => _ | Some f => f end) in *. clearbody f.
  pose proof (seckey_read key Hk) as K. destruct (s_set_b32 key) as [sec o].
  destruct K as (Ok & _ & _ & -> & V). pose proof (seckey_read msg32 Hm) as M.
  destruct (seckey_valid key).
  2:{ intros E. injection E as <-. split; [reflexivity|]. split; [reflexivity|discriminate]. }
  destruct (V eq_refl) as [Vk _]. destruct (s_set_b32 msg32) as [msg o']. destruct M as (Om & Vm & _).
  destruct (sign_loop _ _ _ _ _ _ _ _ _) as [[[[r s] recid]|]|] eqn:E; [| |discriminate];
    intros R; injection R as <-; (split; [reflexivity|]); split; try discriminate; try reflexivity.
  intros _. split; [reflexivity|].
  destruct (sign_loop_sound fuel ctx sec msg msg32 key f ndata 0 r s recid HG Ok Om NB E)
    as (k & Rk & S). rewrite Vk, Vm in S. exists r, s, recid, k. exact (conj eq_refl (conj Rk S)).
Qed.

Lemma is_signature_valid d m k r s recid : is_signature d m k r s recid -> sval r <> 0 ->
  ecdsa_valid (sval r) (sval s) m (smul d G_point).
Proof.
  intros (Or & Os & x & y & flip & EP & Er & Rs & E & _) N.
  exact (signature_valid d k m _ _ x y flip EP Er N (conj (proj1 Rs) (proj2 (sok_range _ Os))) E).
Qed.

(** Two 32-byte halves written into, and read out of, a 64-byte buffer. *)
Lemma write_halves (buf a b : bytes) : length buf = 64%nat -> length a = 32%nat -> length b = 32%nat ->
  overwrite (overwrite buf 0 a) 32 b = a ++ b.
Proof.
  intros L La Lb. unfold overwrite. rewrite La, Lb, firstn_O. cbn [app].
  rewrite firstn_app, La, Nat.sub_diag, firstn_O, app_nil_r, firstn_all2 by lia.
  rewrite (skipn_all2 (n := 32 + 32)) by (rewrite length_app, length_skipn; lia). now rewrite app_nil_r.
Qed.

Lemma read_halves (a b : bytes) : length a = 32%nat -> length b = 32%nat ->
  slice (a ++ b) 0 32 = a /\ slice (a ++ b) 32 32 = b.
Proof.
  intros La Lb. unfold slice. rewrite skipn_O, firstn_app, skipn_app, La, Nat.sub_diag, firstn_O, skipn_O.
  rewrite (skipn_all2 a) by lia. cbn [app]. rewrite app_nil_r, (firstn_all2 a), (firstn_all2 b) by lia.
  split; reflexivity.
Qed.

(** A scalar read back from its 32 bytes. *)
Lemma scalar_codec a : sok a -> s_set_b32 (be_bytes 32 (sval a)) = (a, false).
Proof.
  intros Ha. pose proof (sok_range _ Ha) as R. destruct (scalar_bytes (sval a) R) as [[HB HL] V].
  pose proof (s_set_b32_ok _ HB HL) as S. destruct (s_set_b32 (be_bytes 32 (sval a))) as [b o].
  destruct S as (Ob & E & ->). rewrite V in E |- *. rewrite Z.mod_small in E by exact R.
  rewrite (sok_inj b a Ob Ha E). f_equal. now apply Z.leb_gt.
Qed.

(** Both wire formats give the signature back. *)
Lemma compact_roundtrip ctx r s buf sig0 : sok r -> sok s -> length buf = 64%nat ->
  exists b64, secp256k1_ecdsa_signature_serialize_compact ctx (Some buf) (Some (r, s)) = Api true (Some b64) [] /\
  length b64 = 64%nat /\
  secp256k1_ecdsa_signature_parse_compact ctx (Some sig0) (Some b64) = Api true (Some (r, s)) [].
Proof.
  intros Hr Hs' L. exists (be_bytes 32 (sval r) ++ be_bytes 32 (sval s)).
  unfold secp256k1_ecdsa_signature_serialize_compact, secp256k1_ecdsa_signature_load.
  unfold secp256k1_ecdsa_signature_parse_compact, ARG_CHECK, not_null.
  rewrite (s_get_b32_ok r Hr), (s_get_b32_ok s Hs').
  rewrite write_halves by (exact L || apply length_be_bytes). split; [reflexivity|].
  split; [now rewrite length_app, !length_be_bytes|].
  destruct (read_halves _ _ (length_be_bytes 32 (sval r)) (length_be_bytes 32 (sval s))) as [-> ->].
  now rewrite (scalar_codec r Hr), (scalar_codec s Hs').
Qed.

Lemma is_signature_low d m k r s recid : is_signature d m k r s recid ->
  sok r /\ sok s /\ sval s <= n_order / 2.
Proof. intros (Or & Os & x & y & flip & _ & _ & Rs & _). exact (conj Or (conj Os (proj2 Rs))). Qed.

Lemma normalize_low ctx sig0 r s : sok s -> sval s <= n_order / 2 ->
  secp256k1_ecdsa_signature_normalize ctx (Some sig0) (Some (r, s)) = Api false (Some (r, s)) [].
Proof.
  intros Os L. unfold secp256k1_ecdsa_signature_normalize, secp256k1_ecdsa_signature_load.
  rewrite (s_is_high_ok _ Os), (proj2 (Z.ltb_ge _ _) L). reflexivity.
Qed.

Lemma der_roundtrip_api ctx r s sig0 : sok r -> sok s -> exists der, Z.of_nat (length der) <= 72 /\
  (forall buf, secp256k1_ecdsa_signature_serialize_der ctx (Some buf) (Some 72) (Some (r, s))
    = Api true (Some (overwrite buf 0 der), Some (Z.of_nat (length der))) []) /\
  secp256k1_ecdsa_signature_parse_der ctx (Some sig0) (Some der) = Api true (Some (r, s)) [].
Proof.
  intros Or Os. destruct (der_codec r s 72 Or Os) as (der & len & -> & L & E & P).
  exists der. split; [lia|]. split.
  - intros buf. unfold secp256k1_ecdsa_signature_serialize_der, secp256k1_ecdsa_signature_load.
    rewrite E. now rewrite (proj2 (Z.ltb_ge _ _)) by lia.
  - unfold secp256k1_ecdsa_signature_parse_der, ARG_CHECK, not_null. now rewrite P.
Qed.

Lemma reachable_gen_ok fuel g : gen_part_ok fuel true g -> gen_ctx_ok g.
Proof. apply (gen_reachable_ok junk Hjunk hmac0 scratch Hi Ho Hs fuel). Qed.

(** What deterministic signing with the default nonce function gives. *)
Definition rfc6979_result (n : nat) (msg32 key : bytes) (ndata : option bytes)
    (run : option (api (option secp256k1_ecdsa_signature))) : Prop :=
  let m := be_val msg32 mod n_order in
  let seed := nonce_seed msg32 key None ndata in
  if seckey_valid key then
    match first_ok (attempt_ok (be_val key) m) seed 0 n with
    | None => run = None
    | Some k => exists r s recid, run = Some (Api true (Some (r, s)) []) /\
        is_signature (be_val key) m (be_val (drbg_block seed k)) r s recid
    end
  else run = Some (Api false (Some signature_zero) []).

(** C5: signing is deterministic ECDSA with the nonces of RFC 6979. With the
    default nonce function the key and the message seed the generator; the first
    of its blocks that is a non-zero scalar below the order and gives a non-zero
    s is the nonce, and the result is the low-s signature for it. Without such a
    block among the first [fuel] there is no result; an invalid key fails and
    zeros the signature. Every context created for signing gives the same. *)
Theorem api_sign_rfc6979 fuel n v ctx sig0 msg32 key ndata :
  ctx_reachable fuel true v ctx -> seckey_ok msg32 -> seckey_ok key -> opt_bytes ndata ->
  Z.of_nat n < 2 ^ 32 ->
  rfc6979_result n msg32 key ndata
    (secp256k1_ecdsa_sign hmac0 scratch n ctx (Some sig0) (Some msg32) (Some key) None ndata).
Proof.
  intros R Hm Hk Hd Hn. apply (api_sign_spec hmac0 scratch Hi Ho Hs); try assumption.
  destruct (ctx_reachable_ok _ _ _ _ R) as [H _]. exact (reachable_gen_ok fuel _ H).
Qed.

(** C4: what one context signs another verifies. For any nonce function that fills
    its 32 bytes: if signing reports success, the key was valid, the signature
    is the one of the key that pubkey_create returns, unless r is 0 it verifies
    under every context created for verification, it is already normalised, and
    it comes back unchanged from the compact and from the DER encoding. If it
    reports failure, the signature is zeroed. *)
Theorem api_sign_verify fuel n v1 s2 c1 c2 sig0 pk0 msg32 key noncefp ndata res :
  ctx_reachable fuel true v1 c1 -> ctx_reachable fuel s2 true c2 ->
  seckey_ok msg32 -> seckey_ok key -> nonce_fn_ok noncefp msg32 key ndata ->
  secp256k1_ecdsa_sign hmac0 scratch n c1 (Some sig0) (Some msg32) (Some key) noncefp ndata = Some res ->
  illegal res = [] /\
  if ret res then exists pk sig, out res = Some sig /\
    secp256k1_ec_pubkey_create c1 (Some pk0) (Some key) = Api true (Some pk) [] /\
    (sval (fst sig) <> 0 ->
      secp256k1_ecdsa_verify junk c2 (Some sig) (Some msg32) (Some pk) = Api true tt []) /\
    secp256k1_ecdsa_signature_normalize c2 (Some sig0) (Some sig) = Api false (Some sig) [] /\
    (forall buf, length buf = 64%nat -> exists b64,
      secp256k1_ecdsa_signature_serialize_compact c2 (Some buf) (Some sig) = Api true (Some b64) [] /\
      secp256k1_ecdsa_signature_parse_compact c2 (Some sig0) (Some b64) = Api true (Some sig) []) /\
    exists der, Z.of_nat (length der) <= 72 /\
      (forall buf, secp256k1_ecdsa_signature_serialize_der c2 (Some buf) (Some 72) (Some sig)
        = Api true (Some (overwrite buf 0 der), Some (Z.of_nat (length der))) []) /\
      secp256k1_ecdsa_signature_parse_der c2 (Some sig0) (Some der) = Api true (Some sig) []
  else out res = Some signature_zero.
Proof.
  intros R1 R2 Hm Hk Hf E.
  pose proof (reachable_gen_ok fuel _ (proj1 (ctx_reachable_ok _ _ _ _ R1))) as G1.
  pose proof (proj2 (proj2 (ctx_reachable_ok _ _ _ _ R2)) : ctx_ok _) as C2.
  destruct (api_sign_sound n c1 sig0 msg32 key noncefp ndata res G1 Hm Hk Hf E) as (L & F0 & F1).
  split; [exact L|]. destruct (ret res); [|now apply F0].
  destruct (F1 eq_refl) as (V & r & s & recid & k & Eo & Rk & S).
  destruct (create_rep c1 key pk0 G1 Hk V) as (pk & Ep & Rp).
  exists pk, (r, s). split; [exact Eo|]. split; [exact Ep|].
  destruct (is_signature_low _ _ _ _ _ _ S) as (Or & Os & Low). split; [|split; [|split]].
  - intros N. destruct (api_verify_spec junk Hjunk c2 (r, s) msg32 pk _ C2 (conj Or Os) Hm Rp)
      as (b & -> & B). f_equal. apply B. split; [exact Low|].
    exact (is_signature_valid _ _ _ _ _ _ S N).
  - exact (normalize_low c2 sig0 r s Os Low).
  - intros buf Lb. destruct (compact_roundtrip c2 r s buf sig0 Or Os Lb) as (b64 & H1 & _ & H2).
    now exists b64.
  - exact (der_roundtrip_api c2 r s sig0 Or Os).
Qed.

(** ** The life of a context *)

Definition flags_ok (flags : Z) : bool :=
  (flags .& SECP256K1_FLAGS_TYPE_MASK) =? SECP256K1_FLAGS_TYPE_CONTEXT.

Lemma create_total fuel blank flags : (1 <= fuel)%nat ->
  exists o log, secp256k1_context_create junk hmac0 scratch fuel blank flags = Some (o, log) /\
  if flags_ok flags then log = [] /\ exists ctx, o = Some ctx /\
    illegal_callback ctx = default_illegal_callback /\ error_callback ctx = default_error_callback
  else o = None /\ log = [(default_illegal_callback, "Invalid flags"%string)].
Proof.
  intros Hf. unfold secp256k1_context_create. fold (flags_ok flags). destruct (flags_ok flags); cbn [negb].
  2: { do 2 eexists. split; [reflexivity|]. exact (conj eq_refl eq_refl). }
  set (g0 := secp256k1_ecmult_gen_context_init blank).
  destruct (gen_build_spec junk hmac0 scratch Hi Ho Hs Hjunk fuel g0 eq_refl Hf) as (g & -> & _ & _).
  destruct (negb _); do 2 eexists; (split; [reflexivity|]); (split; [reflexivity|]); eexists;
    (split; [reflexivity|]); exact (conj eq_refl eq_refl).
Qed.

(** C7: the life of a context object. Creating one with wrong flags reports them
    and gives nothing; otherwise it gives a context, with the default
    callbacks. However a context was obtained (created, cloned, randomized any
    number of times, callbacks set), it is built for exactly what its flags
    asked for, and the tables and blinding values it holds are correct. A
    context that cannot sign is not randomized but reported; a destroyed one is
    built for nothing. *)
Theorem api_context_lifecycle fuel : (1 <= fuel)%nat ->
  (forall blank flags, exists o log,
    secp256k1_context_create junk hmac0 scratch fuel blank flags = Some (o, log) /\
    if flags_ok flags then log = [] /\ exists ctx, o = Some ctx /\
      ctx_reachable fuel (sign_flag flags) (verify_flag flags) ctx /\
      illegal_callback ctx = default_illegal_callback /\ error_callback ctx = default_error_callback
    else o = None /\ log = [(default_illegal_callback, "Invalid flags"%string)]) /\
  (forall s v ctx, ctx_reachable fuel s v ctx ->
    secp256k1_ecmult_gen_context_is_built (ecmult_gen_ctx ctx) = s /\
    secp256k1_ecmult_context_is_built (ecmult_ctx ctx) = v /\
    (s = true -> gen_ctx_ok (ecmult_gen_ctx ctx)) /\ (v = true -> ctx_ok (ecmult_ctx ctx)) /\
    (s = false -> forall seed, secp256k1_context_randomize hmac0 scratch fuel ctx seed =
      Some (Api false ctx [(illegal_callback ctx,
        "secp256k1_ecmult_gen_context_is_built(&ctx->ecmult_gen_ctx)"%string)])) /\
    exists d, secp256k1_context_destroy (Some ctx) = Some d /\
      secp256k1_ecmult_gen_context_is_built (ecmult_gen_ctx d) = false /\
      secp256k1_ecmult_context_is_built (ecmult_ctx d) = false).
Proof.
  intros Hf. split.
  - intros blank flags. destruct (create_total fuel blank flags Hf) as (o & log & E & H).
    exists o, log. split; [exact E|]. destruct (flags_ok flags); [|exact H].
    destruct H as (-> & ctx & -> & H). split; [reflexivity|]. exists ctx. split; [reflexivity|].
    split; [exact (ctx_created _ _ _ _ _ E)|exact H].
  - intros s v ctx R. destruct (ctx_reachable_ok _ _ _ _ R) as (G & _ & V).
    assert (B : secp256k1_ecmult_gen_context_is_built (ecmult_gen_ctx ctx) = s).
    { destruct s; [exact (gc_built _ (reachable_gen_ok _ _ G))|].
      unfold secp256k1_ecmult_gen_context_is_built. now rewrite (G : prec _ = None). }
    split; [exact B|]. split; [destruct v; [exact (proj1 V)|exact V]|].
    split; [intros ->; exact (reachable_gen_ok _ _ G)|]. split; [intros ->; exact V|]. split.
    + intros -> seed. unfold secp256k1_context_randomize. now rewrite B.
    + eexists. split; [reflexivity|]. exact (conj eq_refl eq_refl).
Qed.

(** ** Misuse *)

(** The argument checks of a function, in the order of the code: the text of the
    condition, whether it holds, and what the outputs hold when it fails. *)
Fixpoint first_failure {A} (table : list (string * bool * A)) : option (string * A) :=
  match table with
  | [] => None
  | (what, ok, o) :: table => if ok then first_failure table else Some (what, o)
  end.

(** What the table prescribes: the first condition that fails is reported, with
    one call of the context's callback, and the function returns 0 and leaves
    the outputs as said; when all hold, no callback is called. *)
Definition checked {A} (ctx : secp256k1_context) (r : option (api A))
    (table : list (string * bool * A)) : Prop :=
  match first_failure table with
  | Some (what, o) => r = Some (Api false o [(illegal_callback ctx, what)])
  | None => forall x, r = Some x -> illegal x = []
  end.

(** A condition on what a pointer points to; it is not looked at when the
    pointer is NULL. *)
Definition given {A} (ptr : option A) (cond : A -> bool) : bool :=
  match ptr with Some x => cond x | None => true end.

(** The abscissa kept in a key is not 0: it is not the key of zeros. *)
Definition usable (pk : secp256k1_pubkey) : bool :=
  negb (fe_is_zero (gx (secp256k1_ge_from_storage pk))).

Definition load_check : string := "!secp256k1_fe_is_zero(&ge->x)".

Lemma load_checked ctx pk : secp256k1_pubkey_load ctx pk =
  let ge := secp256k1_ge_from_storage pk in
  if usable pk then Api true ge [] else Api false ge [(illegal_callback ctx, load_check)].
Proof. reflexivity. Qed.

(** Every case of the arguments, on both sides. *)
Ltac tabulate :=
  unfold checked, ARG_CHECK, arg_fail, secp256k1_ecdsa_signature_load;
  repeat (rewrite ?load_checked; cbn [first_failure given not_null negb orb andb ret out illegal snd];
    match goal with
    | |- [] = [] => reflexivity
    | |- Some _ = Some _ => reflexivity
    | |- forall x, Some _ = Some x -> _ =>
        let E := fresh "E" in intros ? E; injection E as <-; try reflexivity
    | |- forall x, None = Some x -> _ => discriminate
    | p : option _ |- _ => destruct p
    | sig : secp256k1_ecdsa_signature |- _ => destruct sig
    | |- context [usable ?pk] => destruct (usable pk)
    | |- context [s_set_b32 ?b] => destruct (s_set_b32 b)
    | |- context [if ?b || _ then _ else _] => destruct b
    | |- context [if ?b then _ else _] => destruct b
    | |- context [match ?b with _ => _ end] => destruct b
    end).

Lemma combine_loop_calls ctx l : forall Qj log, snd (combine_loop ctx l Qj log) =
  log ++ repeat (illegal_callback ctx, load_check) (length (filter (fun pk => negb (usable pk)) l)).
Proof.
  induction l as [|pk l IH]; intros Qj log; cbn [combine_loop filter].
  - cbn. now rewrite app_nil_r.
  - rewrite IH, load_checked. cbv zeta. destruct (usable pk); cbn [negb illegal length repeat].
    + now rewrite app_nil_r.
    + now rewrite <- app_assoc.
Qed.

Definition built_gen : string := "secp256k1_ecmult_gen_context_is_built(&ctx->ecmult_gen_ctx)".
Definition built_mult : string := "secp256k1_ecmult_context_is_built(&ctx->ecmult_ctx)".

(** C8: wrong arguments. For every function of the interface that checks its
    arguments the table of its checks is given, in the order of the code: NULL
    pointers, buffer lengths, flags, a context that was not built for the work
    and keys that cannot be loaded.  The first check that fails is reported to
    the illegal-argument callback of the context, with its text, in a single
    call; the function returns 0 and its outputs hold what the table says,
    whatever the other arguments are.  When all checks hold, no callback is
    called.  (Combining keys ignores that a key cannot be loaded and goes on:
    one call per such key.) *)
Theorem api_misuse_reported ctx :
  (forall pk input, checked ctx (Some (secp256k1_ec_pubkey_parse junk ctx pk input))
    [("pubkey != NULL"%string, not_null pk, pk);
     ("input != NULL"%string, not_null input, Some pubkey_zero)]) /\
  (forall o len pk flags,
    let compressed := negb ((flags .& SECP256K1_FLAGS_BIT_COMPRESSION) =? 0) in
    let zeros := option_map (fun l => repeat 0 (Z.to_nat l)) len in
    checked ctx (Some (secp256k1_ec_pubkey_serialize ctx o len pk flags))
    [("outputlen != NULL"%string, not_null len, (o, len));
     ("*outputlen >= ((flags & SECP256K1_FLAGS_BIT_COMPRESSION) ? 33 : 65)"%string,
       given len (fun l => (if compressed then 33 else 65) <=? l), (o, len));
     ("output != NULL"%string, not_null o, (o, Some 0));
     ("pubkey != NULL"%string, not_null pk, (zeros, Some 0));
     ("(flags & SECP256K1_FLAGS_TYPE_MASK) == SECP256K1_FLAGS_TYPE_COMPRESSION"%string,
       (flags .& SECP256K1_FLAGS_TYPE_MASK) =? SECP256K1_FLAGS_TYPE_COMPRESSION, (zeros, Some 0));
     (load_check, given pk usable, (zeros, Some 0))]) /\
  (forall pk, checked ctx (Some (secp256k1_ec_pubkey_negate ctx pk))
    [("pubkey != NULL"%string, not_null pk, None);
     (load_check, given pk usable, Some pubkey_zero)]) /\
  (forall sig input, checked ctx (Some (secp256k1_ecdsa_signature_parse_der ctx sig input))
    [("sig != NULL"%string, not_null sig, sig); ("input != NULL"%string, not_null input, sig)]) /\
  (forall sig input, checked ctx (Some (secp256k1_ecdsa_signature_parse_compact ctx sig input))
    [("sig != NULL"%string, not_null sig, sig); ("input64 != NULL"%string, not_null input, sig)]) /\
  (forall o len sig, checked ctx (Some (secp256k1_ecdsa_signature_serialize_der ctx o len sig))
    [("output != NULL"%string, not_null o, (o, len));
     ("outputlen != NULL"%string, not_null len, (o, len));
     ("sig != NULL"%string, not_null sig, (o, len))]) /\
  (forall o sig, checked ctx (Some (secp256k1_ecdsa_signature_serialize_compact ctx o sig))
    [("output64 != NULL"%string, not_null o, o); ("sig != NULL"%string, not_null sig, o)]) /\
  (forall o sig, checked ctx (Some (secp256k1_ecdsa_signature_normalize ctx o sig))
    [("sigin != NULL"%string, not_null sig, o)]) /\
  (forall sig msg pk, checked ctx (Some (secp256k1_ecdsa_verify junk ctx sig msg pk))
    [(built_mult, secp256k1_ecmult_context_is_built (ecmult_ctx ctx), tt);
     ("msg32 != NULL"%string, not_null msg, tt);
     ("sig != NULL"%string, not_null sig, tt);
     ("pubkey != NULL"%string, not_null pk, tt);
     (load_check, match sig with Some (_, s) => s_is_high s | None => false end
       || given pk usable, tt)]) /\
  (forall n sig msg key f data,
    checked ctx (secp256k1_ecdsa_sign hmac0 scratch n ctx sig msg key f data)
    [(built_gen, secp256k1_ecmult_gen_context_is_built (ecmult_gen_ctx ctx), sig);
     ("msg32 != NULL"%string, not_null msg, sig);
     ("signature != NULL"%string, not_null sig, sig);
     ("seckey != NULL"%string, not_null key, sig)]) /\
  (forall key, checked ctx (Some (secp256k1_ec_seckey_verify ctx key))
    [("seckey != NULL"%string, not_null key, tt)]) /\
  (forall pk key, checked ctx (Some (secp256k1_ec_pubkey_create ctx pk key))
    [("pubkey != NULL"%string, not_null pk, pk);
     (built_gen, secp256k1_ecmult_gen_context_is_built (ecmult_gen_ctx ctx), Some pubkey_zero);
     ("seckey != NULL"%string, not_null key, Some pubkey_zero)]) /\
  (forall key, checked ctx (Some (secp256k1_ec_privkey_negate ctx key))
    [("seckey != NULL"%string, not_null key, None)]) /\
  (forall tweak_fn, In tweak_fn [secp256k1_ec_privkey_tweak_add; secp256k1_ec_privkey_tweak_mul] ->
    forall key tweak, checked ctx (Some (tweak_fn ctx key tweak))
    [("seckey != NULL"%string, not_null key, key); ("tweak != NULL"%string, not_null tweak, key)]) /\
  (forall tweak_fn, In tweak_fn [secp256k1_ec_pubkey_tweak_add junk; secp256k1_ec_pubkey_tweak_mul junk] ->
    forall pk tweak, checked ctx (Some (tweak_fn ctx pk tweak))
    [(built_mult, secp256k1_ecmult_context_is_built (ecmult_ctx ctx), pk);
     ("pubkey != NULL"%string, not_null pk, pk);
     ("tweak != NULL"%string, not_null tweak, pk);
     (load_check, match tweak with Some t => snd (s_set_b32 t) | None => false end
       || given pk usable, Some pubkey_zero)]) /\
  (forall n seed, checked ctx (secp256k1_context_randomize hmac0 scratch n ctx seed)
    [(built_gen, secp256k1_ecmult_gen_context_is_built (ecmult_gen_ctx ctx), ctx)]) /\
  (forall pk keys n, let r := secp256k1_ec_pubkey_combine junk ctx pk keys n in
    match first_failure
      [("pubnonce != NULL"%string, not_null pk, pk); ("n >= 1"%string, Nat.leb 1 n, Some pubkey_zero);
       ("pubnonces != NULL"%string, not_null keys, Some pubkey_zero)], keys with
    | Some (what, o), _ => r = Api false o [(illegal_callback ctx, what)]
    | None, Some keys => illegal r = repeat (illegal_callback ctx, load_check)
        (length (filter (fun pk => negb (usable pk)) (firstn n keys)))
    | None, None => False
    end).
Proof.
  repeat match goal with |- _ /\ _ => split end;
    intros; repeat match goal with x := _ |- _ => subst x end;
    try match goal with H : In _ [_; _] |- _ => destruct H as [<-|[<-|[]]] end.
  1: unfold secp256k1_ec_pubkey_parse; tabulate.
  1: unfold secp256k1_ec_pubkey_serialize; tabulate.
  1: unfold secp256k1_ec_pubkey_negate; tabulate.
  1: unfold secp256k1_ecdsa_signature_parse_der; tabulate.
  1: unfold secp256k1_ecdsa_signature_parse_compact; tabulate.
  1: unfold secp256k1_ecdsa_signature_serialize_der; tabulate.
  1: unfold secp256k1_ecdsa_signature_serialize_compact; tabulate.
  1: unfold secp256k1_ecdsa_signature_normalize; tabulate.
  1: unfold secp256k1_ecdsa_verify; tabulate.
  1: unfold secp256k1_ecdsa_sign; tabulate.
  1: unfold secp256k1_ec_seckey_verify; tabulate.
  1: unfold secp256k1_ec_pubkey_create; tabulate.
  1: unfold secp256k1_ec_privkey_negate; tabulate.
  1,2: unfold secp256k1_ec_privkey_tweak_add, secp256k1_ec_privkey_tweak_mul, privkey_tweak; tabulate.
  1,2: unfold secp256k1_ec_pubkey_tweak_add, secp256k1_ec_pubkey_tweak_mul, pubkey_tweak; tabulate.
  1: unfold secp256k1_context_randomize; tabulate.
  unfold secp256k1_ec_pubkey_combine, ARG_CHECK, arg_fail.
  destruct pk; [|reflexivity]. cbn [first_failure not_null].
  destruct (Nat.leb 1 n); [|reflexivity]. destruct keys as [l|]; [|reflexivity]. cbn [not_null].
  pose proof (combine_loop_calls ctx (firstn n l) (secp256k1_gej_set_infinity junk) []) as C.
  destruct (combine_loop ctx (firstn n l) (secp256k1_gej_set_infinity junk) []) as [Qj log].
  destruct (secp256k1_gej_is_infinity Qj); [exact C|]. now destruct (secp256k1_ge_set_gej Qj).
Qed.

Lemma compressed_byte x y : Forall is_byte (compressed x y).
Proof.
  constructor; [unfold is_byte; destruct (Z.odd y); cbn [b2z]; lia|apply be_bytes_byte].
Qed.

Lemma uncompressed_byte x y : Forall is_byte (uncompressed x y).
Proof.
  constructor; [unfold is_byte; lia|]. apply Forall_app. split; apply be_bytes_byte.
Qed.

Lemma overwrite_all buf l : length buf = length l -> overwrite buf 0 l = l.
Proof.
  intros L. unfold overwrite. rewrite firstn_O. cbn [app Nat.add].
  rewrite skipn_all2 by lia. apply app_nil_r.
Qed.

(** C9: public keys on the wire. Parsing accepts exactly the encodings of points of
    the curve and stores the encoded point, otherwise it zeros the structure and
    returns 0 without a report; serialising into a buffer of the right size
    gives octets from which parsing restores the very same structure. *)
Theorem api_pubkey_wire ctx pk0 input : Forall is_byte input ->
  (let r := secp256k1_ec_pubkey_parse junk ctx (Some pk0) (Some input) in
   illegal r = [] /\ (ret r = true <-> exists P, pubkey_encodes input P) /\
   (ret r = false -> out r = Some pubkey_zero) /\
   (forall P, pubkey_encodes input P -> exists pk, out r = Some pk /\ pk_rep pk P)) /\
  (forall (c : bool) pk P buf, pk_rep pk P ->
   let len := if c then 33 else 65 in
   let flags := if c then SECP256K1_EC_COMPRESSED else SECP256K1_EC_UNCOMPRESSED in
   exists octets,
   secp256k1_ec_pubkey_serialize ctx (Some buf) (Some len) (Some pk) flags
     = Api true (Some octets, Some len) [] /\ pubkey_encodes octets P /\
   secp256k1_ec_pubkey_parse junk ctx (Some pk0) (Some octets) = Api true (Some pk) []).
Proof.
  intros HB. split; [exact (api_parse_spec junk ctx pk0 input HB)|]. intros c pk P buf H len flags.
  destruct P as [|x y]; [now destruct H|]. destruct (pk_load ctx pk _ H) as (g & _ & Rg).
  set (octets := if c then compressed x y else uncompressed x y). exists octets.
  assert (L : Z.of_nat (length octets) = len) by (destruct c; reflexivity).
  assert (HE : pubkey_encodes octets (Aff x y)).
  { split; [exact (proj1 (ge_finite _ _ _ Rg))|]. destruct c; [now left|right; now left]. }
  assert (HB' : Forall is_byte octets) by (destruct c; [apply compressed_byte|apply uncompressed_byte]).
  split; [|split; [exact HE|]].
  - pose proof (api_serialize_spec ctx buf len pk x y flags H) as S.
    replace (negb (flags .& SECP256K1_FLAGS_BIT_COMPRESSION =? 0)) with c in S by (now destruct c).
    cbv zeta in S. fold octets in S. rewrite S by (destruct c; (lia || reflexivity)).
    rewrite overwrite_all; [now rewrite L|]. rewrite repeat_length. lia.
  - destruct (api_parse_spec junk ctx pk0 octets HB') as (Li & Rt & _ & Rs).
    destruct (Rs _ HE) as (pk' & Eo & Rp). pose proof (proj2 Rt (ex_intro _ _ HE)) as Er.
    destruct (secp256k1_ec_pubkey_parse _ _ _ _) as [b o l]. cbn [illegal ret out] in *. subst.
    now rewrite (pk_rep_unique pk' pk _ Rp H).
Qed.
End ApiProperties.

#[local] Existing Instance field_5x52.
#[local] Existing Instance scalar_4x64.

(** A key that cannot be loaded is reported, but its content is added all the same
    and the sum is returned as valid. *)
Lemma api_combine_bad_key (ctx : secp256k1_context) :
  let r := secp256k1_ec_pubkey_combine zero_gej ctx (Some pubkey_zero) (Some [pubkey_zero]) 1 in
  ret r = true /\ illegal r = [(illegal_callback ctx, "!secp256k1_fe_is_zero(&ge->x)"%string)].
Proof. split; reflexivity. Qed.

(** ** Witnesses *)

Lemma full_context : exists ctx, ctx_reachable zero_gej blank_hmac blank_sha 1 true true ctx /\
  gen_ctx_ok (ecmult_gen_ctx ctx) /\ ctx_ok (ecmult_ctx ctx).
Proof.
  destruct (create_total zero_gej zero_gej_mags blank_hmac blank_sha blank_ok blank_ok blank_ok
    1 blank_gen_ctx (SECP256K1_CONTEXT_SIGN .| SECP256K1_CONTEXT_VERIFY) (le_n 1)) as (o & log & E & H).
  destruct H as (-> & ctx & -> & _). exists ctx.
  assert (R : ctx_reachable zero_gej blank_hmac blank_sha 1 true true ctx)
    by exact (ctx_created _ _ _ _ _ _ _ _ E). split; [exact R|].
  destruct (ctx_reachable_ok zero_gej zero_gej_mags _ _ _ _ _ _ R) as (G & _ & C). split; [|exact C].
  exact (reachable_gen_ok zero_gej zero_gej_mags blank_hmac blank_sha blank_ok blank_ok blank_ok _ _ G).
Qed.

Lemma small_key d : (0 <? d) && (d <? 256) = true ->
  seckey_ok (be_bytes 32 d) /\ seckey_valid (be_bytes 32 d) = true /\ be_val (be_bytes 32 d) = d.
Proof.
  intros H. apply andb_true_iff in H. rewrite !Z.ltb_lt in H.
  destruct (scalar_bytes d) as [K V]; [unfold n_order; lia|]. split; [exact K|]. split; [|exact V].
  unfold seckey_valid. rewrite V, (proj2 (Z.ltb_lt _ _)) by lia. apply Z.ltb_lt. unfold n_order. lia.
Qed.

Lemma api_keys_commute_witness : exists ctx pk,
  let create b := secp256k1_ec_pubkey_create ctx (Some pubkey_zero) b in
  create (Some (be_bytes 32 3)) = Api true (Some pk) [] /\
  secp256k1_ec_pubkey_negate ctx (Some pk)
    = create (out (secp256k1_ec_privkey_negate ctx (Some (be_bytes 32 3)))) /\
  secp256k1_ec_pubkey_tweak_add zero_gej ctx (Some pk) (Some (be_bytes 32 4))
    = create (out (secp256k1_ec_privkey_tweak_add ctx (Some (be_bytes 32 3)) (Some (be_bytes 32 4)))) /\
  secp256k1_ec_pubkey_tweak_mul zero_gej ctx (Some pk) (Some (be_bytes 32 4))
    = create (out (secp256k1_ec_privkey_tweak_mul ctx (Some (be_bytes 32 3)) (Some (be_bytes 32 4)))).
Proof.
  destruct full_context as (ctx & _ & G & C).
  destruct (small_key 3 eq_refl) as (K & V & _). destruct (small_key 4 eq_refl) as (T & _).
  destruct (create_rep ctx (be_bytes 32 3) pubkey_zero G K V) as (pk & E & _).
  exists ctx, pk. split; [exact E|].
  exact (api_keys_commute zero_gej zero_gej_mags ctx pubkey_zero _ _ pk G C K V T E).
Defined.

Lemma api_combine_sum_witness : exists ctx pk,
  secp256k1_ec_pubkey_combine zero_gej ctx (Some pubkey_zero) (Some [pk; pk]) 2
  = secp256k1_ec_pubkey_create ctx (Some pubkey_zero) (Some (be_bytes 32
      (fold_right Z.add 0 (map be_val [be_bytes 32 3; be_bytes 32 3]) mod n_order))).
Proof.
  destruct full_context as (ctx & _ & G & _).
  destruct (small_key 3 eq_refl) as (K & V & _).
  destruct (create_rep ctx (be_bytes 32 3) pubkey_zero G K V) as (pk & E & _).
  exists ctx, pk.
  exact (api_combine_sum zero_gej ctx pubkey_zero [be_bytes 32 3; be_bytes 32 3] [pk; pk] G
    ltac:(discriminate) (Forall_cons _ (conj K V) (Forall_cons _ (conj K V) (Forall_nil _)))
    (Forall2_cons _ _ E (Forall2_cons _ _ E (Forall2_nil _)))).
Defined.

Lemma api_sign_rfc6979_witness : exists ctx,
  rfc6979_result 9 (be_bytes 32 5) (be_bytes 32 3) None
    (secp256k1_ecdsa_sign blank_hmac blank_sha 9 ctx (Some signature_zero)
      (Some (be_bytes 32 5)) (Some (be_bytes 32 3)) None None).
Proof.
  destruct full_context as (ctx & R & _). exists ctx.
  exact (api_sign_rfc6979 zero_gej zero_gej_mags blank_hmac blank_sha blank_ok blank_ok blank_ok 1 9 true ctx
    signature_zero (be_bytes 32 5) (be_bytes 32 3) None R (proj1 (small_key 5 eq_refl))
    (proj1 (small_key 3 eq_refl)) I ltac:(lia)).
Defined.

Definition nonce_one : secp256k1_nonce_function := fun _ _ _ _ _ => Some (be_bytes 32 1).

(** Signing 5 under the key 3 with the nonce 1 succeeds. *)
Lemma sign_one ctx : gen_ctx_ok (ecmult_gen_ctx ctx) -> exists res,
  secp256k1_ecdsa_sign blank_hmac blank_sha 1 ctx (Some signature_zero) (Some (be_bytes 32 5))
    (Some (be_bytes 32 3)) (Some nonce_one) None = Some res /\ ret res = true.
Proof.
  intros HG. unfold secp256k1_ecdsa_sign. rewrite (gc_built _ HG). cbn [negb].
  destruct (small_key 3 eq_refl) as (K3 & V3 & E3), (small_key 5 eq_refl) as (K5 & _ & E5).
  destruct (small_key 1 eq_refl) as (K1 & V1 & E1).
  pose proof (seckey_read _ K3) as H. destruct (s_set_b32 (be_bytes 32 3)) as [sec o].
  destruct H as (Ok & _ & _ & -> & V). rewrite V3 in *. destruct (V eq_refl) as [Es _].
  pose proof (seckey_read _ K5) as M. destruct (s_set_b32 (be_bytes 32 5)) as [msg o'].
  destruct M as (Om & Em & _). cbn [sign_loop]. unfold nonce_one.
  pose proof (seckey_read _ K1) as H. destruct (s_set_b32 (be_bytes 32 1)) as [non o''].
  destruct H as (On & _ & _ & -> & V'). rewrite V1 in *. destruct (V' eq_refl) as [En _].
  rewrite E1 in En. rewrite E3 in Es. rewrite E5 in Em.
  pose proof (sig_sign_spec _ sec msg non HG Ok Om On ltac:(lia)) as S. rewrite En, smul_1 in S.
  destruct (secp256k1_ecdsa_sig_sign _ sec msg non) as [[[r s] recid] ret].
  destruct S as (Or & Os & x & y & EP & Er & S). injection EP as <- <-. rewrite Er, Es, Em in S.
  match type of S with if ?b then _ else _ => replace b with false in S by reflexivity end.
  destruct S as (-> & _). eexists. split; reflexivity.
Qed.

Lemma api_sign_verify_witness : exists ctx res pk sig,
  secp256k1_ecdsa_sign blank_hmac blank_sha 1 ctx (Some signature_zero) (Some (be_bytes 32 5))
    (Some (be_bytes 32 3)) (Some nonce_one) None = Some res /\ out res = Some sig /\
  secp256k1_ec_pubkey_create ctx (Some pubkey_zero) (Some (be_bytes 32 3)) = Api true (Some pk) [] /\
  (sval (fst sig) <> 0 ->
    secp256k1_ecdsa_verify zero_gej ctx (Some sig) (Some (be_bytes 32 5)) (Some pk) = Api true tt []).
Proof.
  destruct full_context as (ctx & R & G & _). destruct (sign_one ctx G) as (res & E & Er).
  destruct (small_key 3 eq_refl) as (K3 & _), (small_key 5 eq_refl) as (K5 & _).
  pose proof (api_sign_verify zero_gej zero_gej_mags blank_hmac blank_sha blank_ok blank_ok blank_ok
    1 1 true true ctx ctx signature_zero pubkey_zero (be_bytes 32 5) (be_bytes 32 3) (Some nonce_one)
    None res R R K5 K3
    ltac:(intros c b H; injection H as <-; exact (proj1 (small_key 1 eq_refl))) E) as [_ S].
  rewrite Er in S. destruct S as (pk & sig & Eo & Ep & Ev & _).
  exists ctx, res, pk, sig. exact (conj E (conj Eo (conj Ep Ev))).
Defined.

Lemma api_context_lifecycle_witness : exists ctx,
  secp256k1_context_create zero_gej blank_hmac blank_sha 1 blank_gen_ctx SECP256K1_CONTEXT_SIGN
    = Some (Some ctx, []) /\
  secp256k1_ecmult_gen_context_is_built (ecmult_gen_ctx ctx) = true /\
  secp256k1_ecmult_context_is_built (ecmult_ctx ctx) = false.
Proof.
  destruct (api_context_lifecycle zero_gej zero_gej_mags blank_hmac blank_sha blank_ok blank_ok blank_ok
    1 (le_n 1)) as [C R].
  destruct (C blank_gen_ctx SECP256K1_CONTEXT_SIGN) as (o & log & E & H).
  destruct H as (-> & ctx & -> & Rc & _). destruct (R _ _ ctx Rc) as (B & V & _).
  exists ctx. exact (conj E (conj B V)).
Defined.

Lemma api_pubkey_wire_witness : exists ctx,
  (let r := secp256k1_ec_pubkey_parse zero_gej ctx (Some pubkey_zero) (Some [2; 1; 0]) in
   illegal r = [] /\ (ret r = true <-> exists P, pubkey_encodes [2; 1; 0] P)) /\
  (exists octets,
   secp256k1_ec_pubkey_serialize ctx (Some []) (Some 33) (Some (secp256k1_pubkey_save secp256k1_ge_const_g))
     SECP256K1_EC_COMPRESSED = Api true (Some octets, Some 33) [] /\ pubkey_encodes octets G_point).
Proof.
  destruct full_context as (ctx & _). exists ctx.
  assert (HB : Forall is_byte [2; 1; 0]) by (repeat (constructor; [unfold is_byte; lia|]); constructor).
  destruct (api_pubkey_wire zero_gej ctx pubkey_zero [2; 1; 0] HB) as [(L & P & _) W].
  split; [exact (conj L P)|].
  destruct (W true (secp256k1_pubkey_save secp256k1_ge_const_g) G_point []) as (octets & S & E & _).
  { apply pk_save; [exact const_g_rep|discriminate]. }
  exists octets. exact (conj S E).
Defined.

(** A key that cannot be loaded, and a buffer that is too short as well: the
    length is reported first. *)
Lemma api_misuse_reported_witness : exists ctx,
  Some (secp256k1_ec_pubkey_serialize ctx (Some []) (Some 32) (Some pubkey_zero) SECP256K1_EC_COMPRESSED)
    = Some (Api false (Some [], Some 32) [(illegal_callback ctx,
        "*outputlen >= ((flags & SECP256K1_FLAGS_BIT_COMPRESSION) ? 33 : 65)"%string)]) /\
  Some (secp256k1_ec_pubkey_serialize ctx (Some []) (Some 33) (Some pubkey_zero) SECP256K1_EC_COMPRESSED)
    = Some (Api false (Some (repeat 0 33), Some 0) [(illegal_callback ctx, load_check)]).
Proof.
  destruct (create_total zero_gej zero_gej_mags blank_hmac blank_sha blank_ok blank_ok blank_ok
    1 blank_gen_ctx SECP256K1_CONTEXT_NONE (le_n 1)) as (o & log & E & H).
  destruct H as (-> & ctx & -> & _). exists ctx.
  destruct (api_misuse_reported zero_gej blank_hmac blank_sha ctx) as (_ & M & _).
  pose proof (M (Some []) (Some 32) (Some pubkey_zero) SECP256K1_EC_COMPRESSED) as M1.
  pose proof (M (Some []) (Some 33) (Some pubkey_zero) SECP256K1_EC_COMPRESSED) as M2.
  split; [exact M1|exact M2].
Defined.
