(* ===== verification/RecoveryApi.v ===== *)
(** * modules/recovery: signatures from which the key can be recovered

    The rest of the module: the structure of 65 bytes (two scalars and the
    recovery id), its compact encoding, signing and recovery through contexts. *)
From Stdlib Require Import String.
From S2P Require Import Field5x52 Scalar4x64.
From S2P Require Import Prelude Primes FieldSpec Field ScalarSpec Scalar Sha256Spec Hash.
From S2P Require Import CurveSpec CurveGroup CurveOrder CurveCount Group Ecmult EcmultGen.
From S2P Require Import EcmultProperties Ecdsa Eckey Recovery Der Api EcdsaProperties ApiProperties.

Section RecoveryApi.
Context {F : FieldImpl} {SI : ScalarImpl} (junk : secp256k1_gej).
Context (hmac0 : hmac_sha256_t) (scratch : sha256_t).

(** r, s and the octet with the recovery id *)
Definition secp256k1_ecdsa_recoverable_signature : Type := scalar * scalar * Z.

(** [memset(sig, 0, sizeof(sig))] *)
Definition recoverable_zero : secp256k1_ecdsa_recoverable_signature := (s_set_int 0, s_set_int 0, 0).

Definition secp256k1_ecdsa_recoverable_signature_load (sig : secp256k1_ecdsa_recoverable_signature)
    : scalar * scalar * Z := sig.

Definition secp256k1_ecdsa_recoverable_signature_save (r s : scalar) (recid : Z)
    : secp256k1_ecdsa_recoverable_signature := (r, s, recid .& 0xFF).

Definition secp256k1_ecdsa_recoverable_signature_parse_compact (ctx : secp256k1_context)
    (sig : option secp256k1_ecdsa_recoverable_signature) (input64 : option bytes) (recid : Z)
    : api (option secp256k1_ecdsa_recoverable_signature) :=
  ARG_CHECK ctx (not_null sig) "sig != NULL" sig (
  match input64 with
  | None => arg_fail ctx "input64 != NULL" sig
  | Some input64 =>
    ARG_CHECK ctx ((0 <=? recid) && (recid <=? 3)) "recid >= 0 && recid <= 3" sig (
    let ret := true in
    let '(r, overflow) := s_set_b32 (slice input64 0 32) in
    let ret := ret && negb overflow in
    let '(s, overflow) := s_set_b32 (slice input64 32 32) in
    let ret := ret && negb overflow in
    if ret then Api true (Some (secp256k1_ecdsa_recoverable_signature_save r s recid)) []
    else Api false (Some recoverable_zero) [])
  end).

(** The octets and the recovery id. *)
Definition secp256k1_ecdsa_recoverable_signature_serialize_compact (ctx : secp256k1_context)
    (output64 : option bytes) (recid : option Z)
    (sig : option secp256k1_ecdsa_recoverable_signature) : api (option bytes * option Z) :=
  match output64, sig, recid with
  | None, _, _ => arg_fail ctx "output64 != NULL" (output64, recid)
  | _, None, _ => arg_fail ctx "sig != NULL" (output64, recid)
  | _, _, None => arg_fail ctx "recid != NULL" (output64, recid)
  | Some buf, Some sig, Some _ =>
    let '(r, s, id) := secp256k1_ecdsa_recoverable_signature_load sig in
    let buf := overwrite buf 0 (s_get_b32 r) in
    let buf := overwrite buf 32 (s_get_b32 s) in
    Api true (Some buf, Some id) []
  end.

Definition secp256k1_ecdsa_recoverable_signature_convert (ctx : secp256k1_context)
    (sig : option secp256k1_ecdsa_signature) (sigin : option secp256k1_ecdsa_recoverable_signature)
    : api (option secp256k1_ecdsa_signature) :=
  ARG_CHECK ctx (not_null sig) "sig != NULL" sig (
  match sigin with
  | None => arg_fail ctx "sigin != NULL" sig
  | Some sigin =>
    let '(r, s, _) := secp256k1_ecdsa_recoverable_signature_load sigin in
    Api true (Some (secp256k1_ecdsa_signature_save r s)) []
  end).

(** The loop is that of [secp256k1_ecdsa_sign], which drops the recovery id. *)
Definition secp256k1_ecdsa_sign_recoverable (fuel : nat) (ctx : secp256k1_context)
    (signature : option secp256k1_ecdsa_recoverable_signature) (msg32 seckey : option bytes)
    (noncefp : option secp256k1_nonce_function) (noncedata : option bytes)
    : option (api (option secp256k1_ecdsa_recoverable_signature)) :=
  if negb (secp256k1_ecmult_gen_context_is_built (ecmult_gen_ctx ctx)) then
    Some (arg_fail ctx "secp256k1_ecmult_gen_context_is_built(&ctx->ecmult_gen_ctx)" signature)
  else
  match msg32, signature, seckey with
  | None, _, _ => Some (arg_fail ctx "msg32 != NULL" signature)
  | _, None, _ => Some (arg_fail ctx "signature != NULL" signature)
  | _, _, None => Some (arg_fail ctx "seckey != NULL" signature)
  | Some msg32, Some _, Some seckey =>
    let noncefp :=
      match noncefp with None => secp256k1_nonce_function_default hmac0 scratch | Some f => f end in
    let '(sec, overflow) := s_set_b32 seckey in
    if negb overflow && negb (s_is_zero sec) then
      let '(msg, _) := s_set_b32 msg32 in
      match sign_loop fuel ctx sec msg msg32 seckey noncefp noncedata 0 with
      | None => None
      | Some (Some (r, s, recid)) =>
        Some (Api true (Some (secp256k1_ecdsa_recoverable_signature_save r s recid)) [])
      | Some None => Some (Api false (Some recoverable_zero) [])
      end
    else Some (Api false (Some recoverable_zero) [])
  end.

(** [q] starts as uninitialised memory. *)
Definition secp256k1_ecdsa_recover (ctx : secp256k1_context) (pubkey : option secp256k1_pubkey)
    (signature : option secp256k1_ecdsa_recoverable_signature) (msg32 : option bytes)
    : api (option secp256k1_pubkey) :=
  ARG_CHECK ctx (secp256k1_ecmult_context_is_built (ecmult_ctx ctx))
    "secp256k1_ecmult_context_is_built(&ctx->ecmult_ctx)" pubkey (
  match msg32, signature, pubkey with
  | None, _, _ => arg_fail ctx "msg32 != NULL" pubkey
  | _, None, _ => arg_fail ctx "signature != NULL" pubkey
  | _, _, None => arg_fail ctx "pubkey != NULL" pubkey
  | Some msg32, Some signature, Some _ =>
    let '(r, s, recid) := secp256k1_ecdsa_recoverable_signature_load signature in
    let '(m, _) := s_set_b32 msg32 in
    let '(q, ok) :=
      secp256k1_ecdsa_sig_recover junk (ecmult_ctx ctx) r s (junk_ge junk) m recid in
    if ok then Api true (Some (secp256k1_pubkey_save q)) []
    else Api false (Some pubkey_zero) []
  end).

(** * Theorems *)

Context (Hjunk : gej_mags junk).
Context (Hi : buf_ok (inner hmac0)) (Ho : buf_ok (outer hmac0)) (Hs : buf_ok scratch).

(** The plain and the recoverable signature of the same call are the same. *)
Definition drop_recid (sig : secp256k1_ecdsa_recoverable_signature) : secp256k1_ecdsa_signature :=
  (fst (fst sig), snd (fst sig)).

Lemma sign_recoverable_sign fuel ctx sig0 msg32 key noncefp ndata :
  secp256k1_ecdsa_sign hmac0 scratch fuel ctx (option_map drop_recid sig0) msg32 key noncefp ndata =
  option_map (fun r => Api (ret r) (option_map drop_recid (out r)) (illegal r))
    (secp256k1_ecdsa_sign_recoverable fuel ctx sig0 msg32 key noncefp ndata).
Proof.
  unfold secp256k1_ecdsa_sign, secp256k1_ecdsa_sign_recoverable.
  destruct (negb _); [reflexivity|]. destruct msg32 as [msg32|], sig0 as [sig0|], key as [key|];
    try reflexivity. cbn [option_map]. destruct (s_set_b32 key) as [sec o].
  destruct (_ && _); [|reflexivity]. destruct (s_set_b32 msg32) as [msg o'].
  destruct (sign_loop _ _ _ _ _ _ _ _ _) as [[[[r s] recid]|]|]; reflexivity.
Qed.

Lemma recid_byte x odd : 0 <= recid_of x odd < 4 /\ recid_of x odd .& 0xFF = recid_of x odd.
Proof. unfold recid_of. destruct (n_order <=? x), odd; cbn; now split. Qed.

Lemma api_recover_spec ctx r s recid msg pk0 : ctx_ok (ecmult_ctx ctx) -> sok r -> sok s ->
  0 <= recid < 4 -> seckey_ok msg ->
  let run := secp256k1_ecdsa_recover ctx (Some pk0) (Some (r, s, recid)) (Some msg) in
  let m := be_val msg mod n_order in
  (run = Api false (Some pubkey_zero) [] /\ forall Q, ~ recovers (sval r) (sval s) m recid Q) \/
  (exists pk Q, run = Api true (Some pk) [] /\ pk_rep pk Q /\ recovers (sval r) (sval s) m recid Q).
Proof.
  intros HC Or Os Hid Hm. unfold secp256k1_ecdsa_recover, ARG_CHECK. rewrite (proj1 HC).
  unfold secp256k1_ecdsa_recoverable_signature_load. pose proof (seckey_read msg Hm) as M.
  destruct (s_set_b32 msg) as [m o]. destruct M as (Om & Vm & _). rewrite <- Vm.
  pose proof (sig_recover_spec junk Hjunk (ecmult_ctx ctx) r s (junk_ge junk) m recid HC Or Os Om Hid
    (conj (proj1 Hjunk) (proj1 (proj2 Hjunk)))) as S.
  destruct (secp256k1_ecdsa_sig_recover _ _ _ _ _ _ _) as [q [|]]; destruct S as [S1 S2].
  - right. destruct (S2 eq_refl) as (Q & R & Rq). eexists _, Q. split; [reflexivity|].
    split; [|exact R]. apply pk_save; [exact Rq|]. apply R.
  - left. split; [reflexivity|]. intros Q HQ. assert (false = true) by (apply S1; now exists Q). discriminate.
Qed.

Lemma recoverable_sound fuel ctx sig0 msg32 key noncefp ndata res :
  gen_ctx_ok (ecmult_gen_ctx ctx) -> seckey_ok msg32 -> seckey_ok key ->
  nonce_fn_ok noncefp msg32 key ndata ->
  secp256k1_ecdsa_sign_recoverable fuel ctx (Some sig0) (Some msg32) (Some key) noncefp ndata
    = Some res ->
  (ret res = false -> out res = Some recoverable_zero) /\
  (ret res = true -> seckey_valid key = true /\ exists r s recid k, out res = Some (r, s, recid) /\
    0 <= recid < 4 /\ is_signature (be_val key) (be_val msg32 mod n_order) k r s recid).
Proof.
  intros HG Hm Hk Hf. unfold secp256k1_ecdsa_sign_recoverable. rewrite (gc_built _ HG). cbn [negb].
  pose proof (nonce_fn_bytes hmac0 scratch Hi Ho Hs noncefp msg32 key ndata Hm Hk Hf) as NB.
  set (f := match noncefp with None => _ | Some f => f end) in *. clearbody f.
  pose proof (seckey_read key Hk) as K. destruct (s_set_b32 key) as [sec o].
  destruct K as (Ok & _ & _ & -> & V). pose proof (seckey_read msg32 Hm) as M.
  destruct (seckey_valid key).
  2:{ intros E. injection E as <-. split; [reflexivity|discriminate]. }
  destruct (V eq_refl) as [Vk _]. destruct (s_set_b32 msg32) as [msg o']. destruct M as (Om & Vm & _).
  destruct (sign_loop _ _ _ _ _ _ _ _ _) as [[[[r s] recid]|]|] eqn:E; [| |discriminate];
    intros R; injection R as <-; split; try discriminate; try reflexivity.
  intros _. split; [reflexivity|].
  destruct (sign_loop_sound fuel ctx sec msg msg32 key f ndata 0 r s recid HG Ok Om NB E)
    as (k & Rk & S). rewrite Vk, Vm in S. exists r, s, recid, k.
  assert (Hid : 0 <= recid < 4 /\ recid .& 0xFF = recid)
    by (destruct S as (_ & _ & x & y & flip & _ & _ & _ & _ & ->); apply recid_byte).
  cbn [out]. unfold secp256k1_ecdsa_recoverable_signature_save. rewrite (proj2 Hid).
  exact (conj eq_refl (conj (proj1 Hid) S)).
Qed.

Lemma recoverable_compact ctx r s recid buf sig0 : sok r -> sok s -> 0 <= recid < 4 ->
  length buf = 64%nat -> exists b64 id,
  secp256k1_ecdsa_recoverable_signature_serialize_compact ctx (Some buf) (Some 0) (Some (r, s, recid))
    = Api true (Some b64, Some id) [] /\
  secp256k1_ecdsa_recoverable_signature_parse_compact ctx (Some sig0) (Some b64) id
    = Api true (Some (r, s, recid)) [].
Proof.
  intros Or Os Hid L. exists (be_bytes 32 (sval r) ++ be_bytes 32 (sval s)), recid.
  unfold secp256k1_ecdsa_recoverable_signature_serialize_compact,
    secp256k1_ecdsa_recoverable_signature_load.
  unfold secp256k1_ecdsa_recoverable_signature_parse_compact, ARG_CHECK, not_null.
  rewrite (s_get_b32_ok r Or), (s_get_b32_ok s Os).
  rewrite write_halves by (exact L || apply length_be_bytes). split; [reflexivity|].
  rewrite (proj2 (Z.leb_le 0 recid)), (proj2 (Z.leb_le recid 3)) by lia. cbn [andb].
  destruct (read_halves _ _ (length_be_bytes 32 (sval r)) (length_be_bytes 32 (sval s))) as [-> ->].
  rewrite (scalar_codec r Or), (scalar_codec s Os). cbn [negb andb].
  unfold secp256k1_ecdsa_recoverable_signature_save. do 3 f_equal.
  assert (C : recid = 0 \/ recid = 1 \/ recid = 2 \/ recid = 3) by lia.
  destruct C as [-> | [-> | [-> | ->]]]; reflexivity.
Qed.

Lemma is_signature_recovers d m k r s recid : is_signature d m k r s recid -> sval r <> 0 ->
  d mod n_order <> 0 -> recovers (sval r) (sval s) m recid (smul d G_point).
Proof.
  intros (Or & Os & x & y & flip & EP & Er & Rs & E & ->) N Nd.
  exact (signature_recovers d k m _ _ x y flip EP Er N (conj (proj1 Rs) (proj2 (sok_range _ Os))) Nd E).
Qed.

Lemma recovers_unique r s m recid Q Q' : recovers r s m recid Q -> recovers r s m recid Q' -> Q = Q'.
Proof.
  intros H H'. pose proof H' as (_ & _ & _ & w & y & Ew & HC & Oy & ->).
  exact (recovers_value _ _ _ _ _ _ _ H Ew HC Oy).
Qed.

(** C23: recoverable signatures. Signing gives the signature that the plain function
    gives with the same arguments (or fails with it), with the recovery id; the
    compact form with its id gives it back; converting drops the id; and unless
    r is 0, any context created for verification recovers from it, and from the
    message, exactly the public key of the signer. *)
Theorem api_sign_recover fuel n v1 s2 c1 c2 sig0 pk0 msg32 key noncefp ndata res :
  ctx_reachable junk hmac0 scratch fuel true v1 c1 ->
  ctx_reachable junk hmac0 scratch fuel s2 true c2 ->
  seckey_ok msg32 -> seckey_ok key -> nonce_fn_ok noncefp msg32 key ndata ->
  secp256k1_ecdsa_sign_recoverable n c1 (Some sig0) (Some msg32) (Some key) noncefp ndata = Some res ->
  secp256k1_ecdsa_sign hmac0 scratch n c1 (Some (drop_recid sig0)) (Some msg32) (Some key) noncefp ndata
    = Some (Api (ret res) (option_map drop_recid (out res)) (illegal res)) /\
  if ret res then exists sig, out res = Some sig /\
    secp256k1_ecdsa_recoverable_signature_convert c2 (Some signature_zero) (Some sig)
      = Api true (Some (drop_recid sig)) [] /\
    (forall buf, length buf = 64%nat -> exists b64 id,
      secp256k1_ecdsa_recoverable_signature_serialize_compact c2 (Some buf) (Some 0) (Some sig)
        = Api true (Some b64, Some id) [] /\
      secp256k1_ecdsa_recoverable_signature_parse_compact c2 (Some sig0) (Some b64) id
        = Api true (Some sig) []) /\
    (sval (fst (drop_recid sig)) <> 0 ->
      secp256k1_ecdsa_recover c2 (Some pk0) (Some sig) (Some msg32)
        = secp256k1_ec_pubkey_create c1 (Some pk0) (Some key))
  else out res = Some recoverable_zero.
Proof.
  intros R1 R2 Hm Hk Hf E.
  pose proof (reachable_gen_ok junk Hjunk hmac0 scratch Hi Ho Hs fuel _
    (proj1 (ctx_reachable_ok junk Hjunk _ _ _ _ _ _ R1))) as G1.
  pose proof (proj2 (proj2 (ctx_reachable_ok junk Hjunk _ _ _ _ _ _ R2)) : ctx_ok _) as C2.
  split.
  { pose proof (sign_recoverable_sign n c1 (Some sig0) (Some msg32) (Some key) noncefp ndata) as S.
    rewrite E in S. exact S. }
  destruct (recoverable_sound n c1 sig0 msg32 key noncefp ndata res G1 Hm Hk Hf E) as (F0 & F1).
  destruct (ret res); [|now apply F0].
  destruct (F1 eq_refl) as (V & r & s & recid & k & Eo & Hid & S). exists (r, s, recid).
  split; [exact Eo|]. split; [reflexivity|].
  destruct (is_signature_low _ _ _ _ _ _ S) as (Or & Os & _). split.
  - intros buf Lb. exact (recoverable_compact c2 r s recid buf sig0 Or Os Hid Lb).
  - intros N. destruct (create_rep c1 key pk0 G1 Hk V) as (pk & -> & Rp).
    assert (Rk : 0 < be_val key < n_order)
      by (unfold seckey_valid in V; apply andb_true_iff in V; rewrite !Z.ltb_lt in V; lia).
    pose proof (is_signature_recovers _ _ _ _ _ _ S N ltac:(rewrite Z.mod_small; lia)) as HQ.
    destruct (api_recover_spec c2 r s recid msg32 pk0 C2 Or Os Hid Hm) as [[_ F']|(pk' & Q & ER & Rq & HQ')].
    + now apply F' in HQ.
    + refine (eq_trans ER _). rewrite <- (recovers_unique _ _ _ _ _ _ HQ HQ') in Rq. now rewrite (pk_rep_unique pk' pk _ Rq Rp).
Qed.
End RecoveryApi.

(** ** Witness *)

#[local] Existing Instance field_5x52.
#[local] Existing Instance scalar_4x64.

Lemma sign_recoverable_one ctx : gen_ctx_ok (ecmult_gen_ctx ctx) -> exists res,
  secp256k1_ecdsa_sign_recoverable blank_hmac blank_sha 1 ctx (Some recoverable_zero)
    (Some (be_bytes 32 5)) (Some (be_bytes 32 3)) (Some nonce_one) None = Some res /\ ret res = true.
Proof.
  intros HG. destruct (sign_one ctx HG) as (res & E & Er).
  pose proof (sign_recoverable_sign blank_hmac blank_sha 1 ctx (Some recoverable_zero)
    (Some (be_bytes 32 5)) (Some (be_bytes 32 3)) (Some nonce_one) None) as S.
  change (option_map drop_recid (Some recoverable_zero)) with (Some signature_zero) in S. rewrite E in S.
  destruct (secp256k1_ecdsa_sign_recoverable _ _ _ _ _ _ _ _ _) as [r|]; [|discriminate S].
  exists r. split; [reflexivity|]. apply (f_equal (option_map (@ret _))) in S. cbn [option_map ret] in S.
  rewrite Er in S. now injection S as <-.
Qed.

Lemma api_sign_recover_witness : exists ctx res sig,
  secp256k1_ecdsa_sign_recoverable blank_hmac blank_sha 1 ctx (Some recoverable_zero)
    (Some (be_bytes 32 5)) (Some (be_bytes 32 3)) (Some nonce_one) None = Some res /\
  out res = Some sig /\
  (sval (fst (drop_recid sig)) <> 0 ->
    secp256k1_ecdsa_recover zero_gej ctx (Some pubkey_zero) (Some sig) (Some (be_bytes 32 5))
      = secp256k1_ec_pubkey_create ctx (Some pubkey_zero) (Some (be_bytes 32 3))).
Proof.
  destruct full_context as (ctx & R & G & _). destruct (sign_recoverable_one ctx G) as (res & E & Er).
  destruct (small_key 3 eq_refl) as (K3 & _), (small_key 5 eq_refl) as (K5 & _).
  pose proof (api_sign_recover zero_gej blank_hmac blank_sha zero_gej_mags blank_ok blank_ok blank_ok
    1 1 true true ctx ctx recoverable_zero pubkey_zero (be_bytes 32 5) (be_bytes 32 3) (Some nonce_one)
    None res R R K5 K3
    ltac:(intros c b H; injection H as <-; exact (proj1 (small_key 1 eq_refl))) E) as [_ S].
  rewrite Er in S. destruct S as (sig & Eo & _ & _ & S).
  exists ctx, res, sig. exact (conj E (conj Eo S)).
Defined.
