(* ===== verification/Ecdh.v ===== *)
(** * modules/ecdh: the shared secret

    [secp256k1_ecdh] and the constant-time multiplication it uses, with the
    agreement of the two parties. *)
From Stdlib Require Import String.
From S2P Require Import Field5x52 Scalar4x64.
From S2P Require Import Prelude Primes FieldSpec Field ScalarSpec Scalar Sha256Spec Hash.
From S2P Require Import CurveSpec CurveGroup CurveOrder CurveCount Group Ecmult EcmultGen EcmultConst.
From S2P Require Import EcmultProperties Ecdsa Eckey Der Api EcdsaProperties ApiProperties.

Section Ecdh.
Context {F : FieldImpl} {SI : ScalarImpl} (junk : secp256k1_gej) (junk_ints : list Z).
Context (sha0 : sha256_t).

(** The result of [secp256k1_pubkey_load] is not looked at. *)
Definition secp256k1_ecdh (ctx : secp256k1_context) (result : option bytes)
    (point : option secp256k1_pubkey) (scalar : option bytes) : api (option bytes) :=
  match result, point, scalar with
  | None, _, _ => arg_fail ctx "result != NULL" result
  | _, None, _ => arg_fail ctx "point != NULL" result
  | _, _, None => arg_fail ctx "scalar != NULL" result
  | Some buf, Some point, Some scalar =>
    let load := secp256k1_pubkey_load ctx point in
    let pt := out load in
    let '(s, overflow) := s_set_b32 scalar in
    if overflow || s_is_zero s then Api false (Some buf) (illegal load) else
    let res := secp256k1_ecmult_const junk junk_ints pt s 256 in
    let '(pt, _) := secp256k1_ge_set_gej res in
    let x := fe_normalize (gx pt) in
    let y := fe_normalize (gy pt) in
    let x32 := fe_get_b32 x in
    let y0 := 0x02 .| b2z (fe_is_odd y) in
    let sha := secp256k1_sha256_initialize sha0 in
    let sha := secp256k1_sha256_write sha [y0] in
    let sha := secp256k1_sha256_write sha x32 in
    let '(_, result) := secp256k1_sha256_finalize sha in
    Api true (Some result) (illegal load)
  end.

(** * Theorems *)

Context (Hjunk : gej_mags junk) (Hints : length junk_ints = 33%nat) (Hsha : buf_ok sha0).

Definition point_hash (P : point) : bytes :=
  match P with Inf => [] | Aff x y => fips_sha256 (compressed x y) end.

Lemma ecdh_spec ctx buf pk P key : pk_rep pk P -> seckey_ok key ->
  secp256k1_ecdh ctx (Some buf) (Some pk) (Some key) =
  if seckey_valid key then Api true (Some (point_hash (smul (be_val key) P))) []
  else Api false (Some buf) [].
Proof.
  intros Hpk Hk. unfold secp256k1_ecdh. destruct (pk_load ctx pk P Hpk) as (g & -> & Rg).
  cbn [out illegal]. pose proof (seckey_read key Hk) as K. destruct (s_set_b32 key) as [s o].
  destruct K as (Ok & _ & _ & E & V). rewrite <- negb_orb in E.
  destruct (seckey_valid key); apply (f_equal negb) in E; rewrite negb_involutive in E; rewrite E;
    cbn [negb]; [|reflexivity].
  destruct (V eq_refl) as [Vk Rk]. rewrite <- Vk.
  pose proof (ecmult_const_point junk junk_ints g s 256 P Hjunk Hints Rg (proj1 Hpk) Ok (or_introl eq_refl)) as M.
  assert (Fin : smul (sval s) P <> Inf).
  { destruct (all_multiples P (proj1 (proj2 Rg))) as (k & _ & EP). destruct Hpk as [HP _].
    rewrite EP in HP |- *. apply finite_multiplier in HP. rewrite smul_smul by oc.
    apply finite_multiplier. intros D. apply Z.mod_divide in D; [|discriminate].
    apply Z.divide_prime_mul in D; [|exact prime_n].
    destruct D as [D|D]; apply Z.mod_divide in D; try discriminate; [|contradiction].
    rewrite Z.mod_small in D; lia. }
  destruct (set_gej_rep _ _ M) as [R _]. destruct (secp256k1_ge_set_gej _) as [q qj]. cbn [fst] in R.
  destruct (smul (sval s) P) as [|x y]; [contradiction|]. destruct (ge_finite _ _ _ R) as (Hc & _ & Kx & Ky).
  destruct (coord_norm _ 8 x Kx eq_refl (proj1 Hc)) as [Nx Vx].
  destruct (coord_norm _ 8 y Ky eq_refl (proj1 (proj2 Hc))) as [Ny Vy].
  rewrite (fe_get_b32_ok _ Nx), (fe_is_odd_ok _ Ny), Vx, Vy.
  replace (0x02 .| b2z (Z.odd y)) with (2 + b2z (Z.odd y)) by (now destruct (Z.odd y)).
  pose proof (initialize_repr sha0 Hsha) as S0.
  assert (B0 : Forall is_byte [2 + b2z (Z.odd y)])
    by (constructor; [unfold is_byte; destruct (Z.odd y); cbn; lia|constructor]).
  pose proof (writes_repr _ [] [[2 + b2z (Z.odd y)]; be_bytes 32 x] S0
    (Forall_cons _ B0 (Forall_cons _ (be_bytes_byte 32 x) (Forall_nil _)))) as S2.
  cbn [fold_left concat app] in S2. rewrite app_nil_r in S2.
  assert (Len : Z.of_nat (length ((2 + b2z (Z.odd y)) :: be_bytes 32 x)) < 2 ^ 61)
    by (cbn [length]; rewrite length_be_bytes; reflexivity).
  destruct (finalize_spec _ _ S2 Len) as [D _].
  destruct (secp256k1_sha256_finalize _) as [h res]. cbn [snd] in D. rewrite D.
  unfold point_hash, compressed. reflexivity.
Qed.

Lemma created_valid ctx pk0 key pk : gen_ctx_ok (ecmult_gen_ctx ctx) -> seckey_ok key ->
  secp256k1_ec_pubkey_create ctx (Some pk0) (Some key) = Api true (Some pk) [] ->
  seckey_valid key = true /\ pk_rep pk (smul (be_val key) G_point).
Proof.
  intros HG Hk E. pose proof (pubkey_create_spec ctx pk0 key HG Hk) as S.
  destruct (seckey_valid key); [|rewrite E in S; discriminate S].
  destruct S as (pk' & E' & R). rewrite E in E'. apply (f_equal (@out _)) in E'. cbn [out] in E'.
  injection E' as <-. exact (conj eq_refl R).
Qed.

(** C11: the constant-time multiplication. For every finite point of the curve and
    every scalar, with the 256-bit size of ECDH or with a shorter one that the
    scalar fits, the result is the multiple, although the recoding changes the
    scalar by its skew and has no zero digit. *)
Theorem ecmult_const_correct a s size P : ge_rep a P -> P <> Inf -> sok s ->
  128 < size \/ (1 <= size <= 128 /\ sval s < 2 ^ size) ->
  gej_rep (secp256k1_ecmult_const junk junk_ints a s size) (smul (sval s) P).
Proof. intros. now apply ecmult_const_point. Qed.

(** The recoding. Every digit is odd, hence not zero, and within the table; with
    the skew added the number is represented exactly, the high half of the range
    standing for negative numbers when that is asked for. *)
Theorem wnaf_const_correct wnaf0 s w size neg : sok s -> 1 <= w < 16 -> 1 <= size ->
  (neg = false -> sval s <= n_order / 2) -> Z.abs (signed (sval s)) + 2 < 2 ^ (size + w) ->
  size <= (Z.of_nat (length wnaf0) - 1) * w -> (1 < length wnaf0)%nat ->
  let '(l, skew) := secp256k1_wnaf_const wnaf0 s w size neg in
  let digits := firstn (S (Z.to_nat (WNAF_SIZE size w))) l in
  (skew = 1 \/ skew = 2) /\ dsum (2 ^ w) digits = signed (sval s) + skew /\
  Forall (fun d => Z.odd d = true /\ Z.abs d < 2 ^ w) digits /\
  Z.of_nat (length digits) = WNAF_SIZE size w + 1.
Proof. intros. now apply wnaf_const_spec. Qed.

(** C10: the key agreement. For valid secret keys the secret is the SHA-256 of the
    compressed product, the same whichever party computes it and with whatever
    contexts; an invalid secret key gives 0 and leaves the output alone. *)
Theorem ecdh_agree ctx1 ctx2 buf1 buf2 pk0 key1 key2 pk1 pk2 :
  gen_ctx_ok (ecmult_gen_ctx ctx1) -> gen_ctx_ok (ecmult_gen_ctx ctx2) ->
  seckey_ok key1 -> seckey_ok key2 ->
  secp256k1_ec_pubkey_create ctx1 (Some pk0) (Some key1) = Api true (Some pk1) [] ->
  secp256k1_ec_pubkey_create ctx2 (Some pk0) (Some key2) = Api true (Some pk2) [] ->
  secp256k1_ecdh ctx1 (Some buf1) (Some pk2) (Some key1)
    = Api true (Some (point_hash (smul (be_val key1 * be_val key2) G_point))) [] /\
  secp256k1_ecdh ctx2 (Some buf2) (Some pk1) (Some key2)
    = Api true (Some (point_hash (smul (be_val key1 * be_val key2) G_point))) [] /\
  forall key, seckey_ok key -> seckey_valid key = false ->
    secp256k1_ecdh ctx1 (Some buf1) (Some pk1) (Some key) = Api false (Some buf1) [].
Proof.
  intros G1 G2 K1 K2 E1 E2.
  destruct (created_valid ctx1 pk0 key1 pk1 G1 K1 E1) as [V1 R1].
  destruct (created_valid ctx2 pk0 key2 pk2 G2 K2 E2) as [V2 R2].
  rewrite (ecdh_spec ctx1 buf1 pk2 _ key1 R2 K1), (ecdh_spec ctx2 buf2 pk1 _ key2 R1 K2), V1, V2.
  rewrite !smul_smul by oc. rewrite (Z.mul_comm (be_val key2)).
  split; [reflexivity|]. split; [reflexivity|]. intros key Hk V.
  now rewrite (ecdh_spec ctx1 buf1 pk1 _ key R1 Hk), V.
Qed.
End Ecdh.

(** ** Witnesses *)

#[local] Existing Instance field_5x52.
#[local] Existing Instance scalar_4x64.

Lemma ecmult_const_correct_witness :
  gej_rep (secp256k1_ecmult_const zero_gej (repeat 0 33) secp256k1_ge_const_g (s_set_int 77) 256)
    (smul (sval (s_set_int 77)) G_point).
Proof.
  apply (ecmult_const_correct zero_gej (repeat 0 33) zero_gej_mags eq_refl secp256k1_ge_const_g);
    [exact const_g_rep|discriminate|now apply small_scalar|left; lia].
Defined.

Lemma wnaf_const_correct_witness :
  let '(l, skew) := secp256k1_wnaf_const (repeat 0 33) (s_set_int 77) 4 128 true in
  let digits := firstn (S (Z.to_nat (WNAF_SIZE 128 4))) l in
  (skew = 1 \/ skew = 2) /\ dsum (2 ^ 4) digits = signed (sval (s_set_int 77)) + skew /\
  Forall (fun d => Z.odd d = true /\ Z.abs d < 2 ^ 4) digits /\
  Z.of_nat (length digits) = WNAF_SIZE 128 4 + 1.
Proof.
  apply (wnaf_const_correct (repeat 0 33) (s_set_int 77) 4 128 true); try lia; try discriminate.
  - now apply small_scalar.
  - destruct (small_scalar 77 eq_refl) as [_ ->]. reflexivity.
  - rewrite repeat_length. lia.
Defined.

Lemma ecdh_agree_witness : exists ctx pk1 pk2,
  secp256k1_ecdh zero_gej (repeat 0 33) blank_sha ctx (Some []) (Some pk2) (Some (be_bytes 32 3))
    = Api true (Some (point_hash (smul (be_val (be_bytes 32 3) * be_val (be_bytes 32 5)) G_point))) [] /\
  secp256k1_ecdh zero_gej (repeat 0 33) blank_sha ctx (Some []) (Some pk1) (Some (be_bytes 32 5))
    = Api true (Some (point_hash (smul (be_val (be_bytes 32 3) * be_val (be_bytes 32 5)) G_point))) [].
Proof.
  destruct full_context as (ctx & _ & G & _).
  destruct (small_key 3 eq_refl) as (K3 & V3 & _), (small_key 5 eq_refl) as (K5 & V5 & _).
  destruct (create_rep ctx (be_bytes 32 3) pubkey_zero G K3 V3) as (pk1 & E1 & _).
  destruct (create_rep ctx (be_bytes 32 5) pubkey_zero G K5 V5) as (pk2 & E2 & _).
  exists ctx, pk1, pk2.
  destruct (ecdh_agree zero_gej (repeat 0 33) blank_sha zero_gej_mags eq_refl blank_ok ctx ctx [] []
    pubkey_zero _ _ pk1 pk2 G G K3 K5 E1 E2) as (A & B & _).
  exact (conj A B).
Defined.
