(* ===== verification/Generator.v ===== *)
(** * modules/generator: hashing to the curve

    A generator is the 33 bytes of its serialisation: a tag byte whose low bit
    says that the ordinate is not a square, and the abscissa.  The same layout
    with another tag is used for commitments (Pedersen.v). *)
From Stdlib Require Import String.
From S2P Require Import Field5x52 Scalar4x64.
From S2P Require Import Prelude Primes FieldSpec Field ScalarSpec Scalar Sha256Spec Hash.
From S2P Require Import CurveSpec CurveGroup CurveOrder CurveCount Residue Svdw Group.
From S2P Require Import Ecmult EcmultGen.
From S2P Require Import EcmultProperties Ecdsa Eckey Der Api EcdsaProperties ApiProperties.

Definition secp256k1_generator : Type := bytes.

(** The 16 characters of a string literal that exactly fills its array. *)
Definition chars (s : string) : bytes := map (fun c => Z.of_nat (Ascii.nat_of_ascii c)) (list_ascii_of_string s).

Definition prefix1 : bytes := chars "1st generation: ".
Definition prefix2 : bytes := chars "2nd generation: ".

Section Generator.
Context {F : FieldImpl} {SI : ScalarImpl} (junk : secp256k1_gej) (sha0 : sha256_t).

(** The results of [fe_set_b32] and of [ge_set_xquad] are not looked at. *)
Definition secp256k1_generator_load (gen : secp256k1_generator) : secp256k1_ge :=
  let '(fe, _) := fe_set_b32 (slice gen 1 32) in
  let '(ge, _) := secp256k1_ge_set_xquad fe in
  if negb ((at_ gen 0 .& 1) =? 0) then secp256k1_ge_neg ge else ge.

Definition secp256k1_generator_save (ge : secp256k1_ge) : secp256k1_generator :=
  let x := fe_normalize (gx ge) in
  u8 (11 .^ b2z (secp256k1_fe_is_quad_var (gy ge))) :: fe_get_b32 x.

Definition secp256k1_generator_parse (ctx : secp256k1_context) (gen : option secp256k1_generator)
    (input : option bytes) : api (option secp256k1_generator) :=
  match gen, input with
  | None, _ => arg_fail ctx "gen != NULL" gen
  | _, None => arg_fail ctx "input != NULL" gen
  | Some gen, Some input =>
    if negb ((at_ input 0 .& 0xFE) =? 10) then Api false (Some gen) [] else
    Api true (Some (slice input 0 33)) []
  end.

Definition secp256k1_generator_serialize (ctx : secp256k1_context) (output : option bytes)
    (gen : option secp256k1_generator) : api (option bytes) :=
  match output, gen with
  | None, _ => arg_fail ctx "output != NULL" output
  | _, None => arg_fail ctx "gen != NULL" output
  | Some output, Some gen => Api true (Some (overwrite output 0 (slice gen 0 33))) []
  end.

Definition svdw_c : fe := fe_const 0x0a2d2ba9 0x3507f1df 0x233770c2 0xa797962c
  0xc61f6d15 0xda14ecd4 0x7d8d27ae 0x1cd5f852.
Definition svdw_d : fe := fe_const 0x851695d4 0x9a83f8ef 0x919bb861 0x53cbcb16
  0x630fb68a 0xed0a766a 0x3ec693d6 0x8e6afa40.
Definition svdw_b : fe := fe_const 0 0 0 0 0 0 0 7.
Definition svdw_b_plus_one : fe := fe_const 0 0 0 0 0 0 0 8.

(** The coordinates before the choice: the three abscissas. *)
Definition svdw_candidates (t : fe) : fe * fe * fe :=
  let wn := fe_mul svdw_c t in
  let wd := fe_sqr t in
  let wd := fe_add wd svdw_b_plus_one in
  let tmp := fe_mul t wn in
  let tmp := fe_negate tmp 1 in
  let x1n := fe_mul svdw_d wd in
  let x1n := fe_add x1n tmp in
  let x2n := x1n in
  let x2n := fe_add x2n wd in
  let x2n := fe_negate x2n 5 in
  let x3d := fe_mul svdw_c t in
  let x3d := fe_sqr x3d in
  let x3n := fe_sqr wd in
  let x3n := fe_add x3n x3d in
  let jinv := fe_mul x3d wd in
  let jinv := secp256k1_fe_inv jinv in
  let x1 := fe_mul x1n x3d in
  let x1 := fe_mul x1 jinv in
  let x2 := fe_mul x2n x3d in
  let x2 := fe_mul x2 jinv in
  let x3 := fe_mul x3n wd in
  let x3 := fe_mul x3 jinv in
  (x1, x2, x3).

Definition svdw_cube (x : fe) : fe :=
  let alphain := fe_sqr x in
  let alphain := fe_mul alphain x in
  fe_add alphain svdw_b.

Definition shallue_van_de_woestijne (t : fe) : secp256k1_ge :=
  let '(x1, x2, x3) := svdw_candidates t in
  let '(y1, alphaquad) := secp256k1_fe_sqrt (svdw_cube x1) in
  let '(y2, betaquad) := secp256k1_fe_sqrt (svdw_cube x2) in
  let '(y3, _) := secp256k1_fe_sqrt (svdw_cube x3) in
  let x1 := fe_cmov x1 x2 (negb alphaquad && betaquad) in
  let y1 := fe_cmov y1 y2 (negb alphaquad && betaquad) in
  let x1 := fe_cmov x1 x3 (negb alphaquad && negb betaquad) in
  let y1 := fe_cmov y1 y3 (negb alphaquad && negb betaquad) in
  let ge := secp256k1_ge_set_xy x1 y1 in
  let tmp := fe_negate (gy ge) 1 in
  Ge (gx ge) (fe_cmov (gy ge) tmp (fe_is_odd t)) (ginf ge).

(** The part of [secp256k1_generator_generate_internal] after the blinding factor;
    [None] is a failed CHECK, which ends the program. *)
Definition hash_to_accum (accum : option secp256k1_gej) (key32 : bytes) : option secp256k1_generator :=
  let sha256 := secp256k1_sha256_initialize sha0 in
  let sha256 := secp256k1_sha256_write sha256 prefix1 in
  let sha256 := secp256k1_sha256_write sha256 (slice key32 0 32) in
  let '(sha256, b32) := secp256k1_sha256_finalize sha256 in
  let '(t, ok) := fe_set_b32 b32 in
  if negb ok then None else
  let add := shallue_van_de_woestijne t in
  let accum :=
    match accum with
    | Some accum => secp256k1_gej_add_ge accum add
    | None => secp256k1_gej_set_ge add
    end in
  let sha256 := secp256k1_sha256_initialize sha256 in
  let sha256 := secp256k1_sha256_write sha256 prefix2 in
  let sha256 := secp256k1_sha256_write sha256 (slice key32 0 32) in
  let '(sha256, b32) := secp256k1_sha256_finalize sha256 in
  let '(t, ok) := fe_set_b32 b32 in
  if negb ok then None else
  let add := shallue_van_de_woestijne t in
  let accum := secp256k1_gej_add_ge accum add in
  let '(add, _) := secp256k1_ge_set_gej accum in
  Some (secp256k1_generator_save add).

Definition secp256k1_generator_generate_internal (ctx : secp256k1_context) (key32 : bytes)
    (blind32 : option bytes) : option secp256k1_generator :=
  match blind32 with
  | None => hash_to_accum None key32
  | Some blind32 =>
    let '(blind, overflow) := s_set_b32 blind32 in
    if overflow then None else
    hash_to_accum (Some (secp256k1_ecmult_gen (ecmult_gen_ctx ctx) blind)) key32
  end.

Definition secp256k1_generator_generate (ctx : secp256k1_context)
    (gen : option secp256k1_generator) (key32 : option bytes)
    : option (api (option secp256k1_generator)) :=
  match gen, key32 with
  | None, _ => Some (arg_fail ctx "gen != NULL" gen)
  | _, None => Some (arg_fail ctx "key32 != NULL" gen)
  | Some gen, Some key32 =>
    match secp256k1_generator_generate_internal ctx key32 None with
    | None => None
    | Some gen => Some (Api true (Some gen) [])
    end
  end.

Definition secp256k1_generator_generate_blinded (ctx : secp256k1_context)
    (gen : option secp256k1_generator) (key32 blind32 : option bytes)
    : option (api (option secp256k1_generator)) :=
  match gen, key32, blind32 with
  | None, _, _ => Some (arg_fail ctx "gen != NULL" gen)
  | _, None, _ => Some (arg_fail ctx "key32 != NULL" gen)
  | _, _, None => Some (arg_fail ctx "blind32 != NULL" gen)
  | Some gen, Some key32, Some blind32 =>
    if negb (secp256k1_ecmult_gen_context_is_built (ecmult_gen_ctx ctx)) then
      Some (arg_fail ctx "secp256k1_ecmult_gen_context_is_built(&ctx->ecmult_gen_ctx)" (Some gen))
    else
    match secp256k1_generator_generate_internal ctx key32 (Some blind32) with
    | None => None
    | Some gen => Some (Api true (Some gen) [])
    end
  end.

(** * Theorems

    ** Serialised points *)

(** The bytes of a point under a tag with its low bit set. *)
Definition quad_bytes (tag : Z) (P : point) : bytes :=
  match P with Inf => [] | Aff x y => (tag .^ b2z (squareb y)) :: be_bytes 32 x end.

Lemma is_quad_spec a y : fev a 8 y -> secp256k1_fe_is_quad_var a = squareb y.
Proof.
  intros [M V]. apply eq_true_iff_eq. unfold secp256k1_fe_is_quad_var.
  destruct (fe_sqrt_spec a M) as (_ & H & _). rewrite H, <- V. symmetry. apply squareb_spec.
Qed.

Lemma b32_norm x : in_fp x -> let '(r, ok) := fe_set_b32 (be_bytes 32 x) in
  ok = true /\ fnorm r /\ fval r = x.
Proof.
  intros Hx. destruct (fe_set_b32_ok (be_bytes 32 x) (be_bytes_byte 32 x) (length_be_bytes 32 x))
    as (E & V & _ & N). rewrite be_val_bytes, Z.mod_small in E, V, N
    by (unfold in_fp, p in Hx; change (256 ^ Z.of_nat 32) with (2 ^ 256); lia).
  destruct (fe_set_b32 (be_bytes 32 x)) as [r ok]. cbn [fst snd] in *.
  split; [rewrite E; apply Z.ltb_lt, Hx|]. split; [apply N, Hx|exact V].
Qed.

(** Loading gives the point with the recorded kind of ordinate. *)
Lemma load_ok data x y : on_curve (Aff x y) -> slice data 1 32 = be_bytes 32 x ->
  ((at_ data 0 .& 1) =? 0) = squareb y -> ge_rep (secp256k1_generator_load data) (Aff x y).
Proof.
  intros Hc Ex Et. unfold secp256k1_generator_load. rewrite Ex, Et.
  pose proof (b32_norm x (proj1 Hc)) as K. destruct (fe_set_b32 (be_bytes 32 x)) as [fx ok].
  destruct K as (_ & N & V). pose proof (fmag_le _ _ 8 (fnorm_mag _ N) ltac:(lia)) as M.
  destruct (set_xquad_spec fx M) as (Gx & Gi & My & Hok & Hy).
  destruct (secp256k1_ge_set_xquad fx) as [g okq]. cbn [fst snd] in *. rewrite V in *.
  destruct Hc as (Hx & Hyr & Ey).
  assert (Ok : okq = true) by (apply Hok; now exists y). destruct (Hy Ok) as [Sq Qy].
  set (s := fval (gy g)) in *.
  assert (R : ge_rep g (Aff x (s mod p))).
  { destruct g as [ggx ggy gi]. cbn [gx gy ginf] in *. subst ggx gi. apply ge_rep_mag1.
    - split; [exact Hx|]. split; [apply in_fp_mod|]. now rewrite !cong_mod.
    - split; [exact M|]. rewrite V. reflexivity.
    - split; [apply (fmag_le _ 1); [exact My|lia]|]. symmetry. apply cong_mod. }
  assert (Sy : s * s =[p]= y * y) by (now rewrite Sq, Ey).
  destruct (squareb y) eqn:Q; cbn [negb].
  - apply squareb_spec in Q. pose proof (square_root_unique s y Sy Qy Q) as E.
    rewrite (cong_mod_small p y s (symmetry E) Hyr). exact R.
  - apply squareb_false in Q. pose proof (y_nonzero x y (conj Hx (conj Hyr Ey))) as Ny.
    apply (square_opp y Ny) in Q.
    assert (E : s =[p]= - y)
      by (apply square_root_unique; [rewrite Sy; apply cong_eq; ring|exact Qy|exact Q]).
    pose proof (ge_neg_rep _ _ R) as R'. cbn [pneg] in R'.
    replace y with (- (s mod p) mod p); [exact R'|].
    apply in_fp_eq; [apply in_fp_mod|exact Hyr|]. rewrite !cong_mod, E. apply cong_eq. ring.
Qed.

Lemma tag_bit tag b : Z.odd tag = true -> (((tag .^ b2z b) .& 1) =? 0) = b.
Proof.
  intros H. change 1 with (Z.ones 1). rewrite Z.land_ones, Z.pow_1_r, Zmod_odd by lia.
  rewrite <- !Z.bit0_odd in *. rewrite Z.lxor_spec, H. now destruct b.
Qed.

(** Loading what has been saved. *)
Lemma load_quad_bytes tag P : Z.odd tag = true -> on_curve P -> P <> Inf ->
  ge_rep (secp256k1_generator_load (quad_bytes tag P)) P.
Proof.
  intros Ht Hc HP. destruct P as [|x y]; [contradiction|]. apply load_ok; [exact Hc| |].
  - unfold quad_bytes, slice. cbn [skipn]. apply firstn_all2. now rewrite length_be_bytes.
  - apply (tag_bit tag (squareb y) Ht).
Qed.

(** The point of an abscissa whose ordinate is a square, or its negative. *)
Definition quad_point (sign : bool) (xb : bytes) : option point :=
  let x := be_val xb mod p in
  let c := x * x * x + 7 in
  if squareb c then
    let y := fp_sqrt c in Some (Aff x (if sign then (- y) mod p else y))
  else None.

Lemma quad_point_curve sign xb P : quad_point sign xb = Some P -> on_curve P /\ P <> Inf.
Proof.
  unfold quad_point. set (x := be_val xb mod p). assert (Hx : in_fp x) by apply in_fp_mod. cbv zeta.
  destruct (squareb _) eqn:Q; [|discriminate]. apply squareb_spec in Q. pose proof (fp_sqrt_ok _ Q) as E. pose proof (fp_sqrt_range (x * x * x + 7)) as R.
  set (y := fp_sqrt _) in *. clearbody y x. intros [= <-]. split; [|discriminate].
  assert (C : on_curve (Aff x y)) by exact (conj Hx (conj R E)).
  destruct sign; [|exact C]. exact (pneg_on_curve _ C).
Qed.

(** The representation of a point from its abscissa, for a square ordinate. *)
Lemma xquad_rep fx x y : fmag fx 8 -> fval fx =[p]= x -> on_curve (Aff x y) -> is_square y ->
  ge_rep (fst (secp256k1_ge_set_xquad fx)) (Aff x y).
Proof.
  intros M V Hc Q. destruct (set_xquad_spec fx M) as (Gx & Gi & My & Hok & Hy).
  destruct (secp256k1_ge_set_xquad fx) as [g okq]. cbn [fst snd] in *. destruct Hc as (Hx & Hyr & Ey).
  assert (Ev : fval fx * fval fx * fval fx + 7 =[p]= y * y) by (rewrite V; now symmetry).
  assert (Ok : okq = true) by (apply Hok; exists y; now symmetry). destruct (Hy Ok) as [Sq Qy].
  destruct g as [ggx ggy gi]. cbn [gx gy ginf] in *. subst ggx gi. apply ge_rep_mag1.
  - exact (conj Hx (conj Hyr Ey)).
  - exact (conj M V).
  - split; [apply (fmag_le _ 1); [exact My|lia]|]. apply square_root_unique; [|exact Qy|exact Q].
    now rewrite Sq.
Qed.

Lemma load_digit sign xb P : Forall is_byte xb -> length xb = 32%nat -> quad_point sign xb = Some P ->
  let '(fe, _) := fe_set_b32 xb in
  let '(c, _) := secp256k1_ge_set_xquad fe in
  ge_rep (if sign then secp256k1_ge_neg c else c) P.
Proof.
  intros B L. destruct (fe_set_b32_ok xb B L) as (_ & V & M & _). destruct (fe_set_b32 xb) as [fx ok].
  cbn [fst] in V, M. unfold quad_point. set (x := be_val xb mod p). cbv zeta.
  assert (Vx : fval fx =[p]= x) by (rewrite V; symmetry; apply cong_mod).
  assert (Hx : in_fp x) by apply in_fp_mod. clearbody x.
  destruct (squareb (x * x * x + 7)) eqn:Q; [|discriminate]. apply squareb_spec in Q.
  pose proof (fp_sqrt_ok _ Q) as E. pose proof (fp_sqrt_range (x * x * x + 7)) as R.
  pose proof (fp_sqrt_square (x * x * x + 7)) as S. set (y := fp_sqrt _) in *. clearbody y. intros [= <-].
  assert (C : on_curve (Aff x y)) by exact (conj Hx (conj R E)).
  pose proof (xquad_rep fx x y (fmag_le _ _ 8 M ltac:(lia)) Vx C S) as G.
  destruct (secp256k1_ge_set_xquad fx) as [c okq]. cbn [fst] in G. destruct sign; [|exact G].
  exact (ge_neg_rep _ _ G).
Qed.

Lemma ge_rep_unique a P Q : ge_rep a P -> ge_rep a Q -> P = Q.
Proof.
  intros (_ & CP & HP) (_ & CQ & HQ). destruct P as [|x y], Q as [|x' y']; try reflexivity.
  - destruct HQ; congruence.
  - destruct HP; congruence.
  - destruct HP as (_ & Vx & Vy), HQ as (_ & Vx' & Vy').
    destruct CP as (X & Y & _), CQ as (X' & Y' & _).
    rewrite (in_fp_eq x x'), (in_fp_eq y y'); try assumption; [reflexivity| |].
    + now rewrite <- Vy, <- Vy'.
    + now rewrite <- Vx, <- Vx'.
Qed.

(** What is loaded from 33 bytes is a point exactly when the abscissa has one,
    and then it is that point. *)
Lemma generator_load_decides data P : Forall is_byte data -> (33 <= length data)%nat ->
  ge_rep (secp256k1_generator_load data) P <->
  quad_point (Z.odd (at_ data 0)) (slice data 1 32) = Some P.
Proof.
  intros B L. assert (Bx : Forall is_byte (slice data 1 32)) by now apply Forall_firstn, Forall_skipn.
  assert (Lx : length (slice data 1 32) = 32%nat) by (unfold slice; rewrite length_firstn, length_skipn; lia).
  assert (Es : negb ((at_ data 0 .& 1) =? 0) = Z.odd (at_ data 0)).
  { change 1 with (Z.ones 1). rewrite Z.land_ones, Z.pow_1_r, Zmod_odd by lia. now destruct (Z.odd _). }
  unfold secp256k1_generator_load. rewrite Es. generalize (Z.odd (at_ data 0)) as sign. intros sign.
  pose proof (load_digit sign (slice data 1 32)) as S. destruct (quad_point sign _) as [Q|] eqn:EQ.
  - specialize (S Q Bx Lx eq_refl). destruct (fe_set_b32 _) as [fx ok].
    destruct (secp256k1_ge_set_xquad fx) as [c okq]. split.
    + intros R. now rewrite (ge_rep_unique _ _ _ S R).
    + intros [= <-]. exact S.
  - clear S. split; [|discriminate]. intros R. exfalso. revert R EQ.
    destruct (fe_set_b32_ok _ Bx Lx) as (_ & V & M & _). destruct (fe_set_b32 _) as [fx ok].
    cbn [fst] in V, M. destruct (set_xquad_spec fx (fmag_le _ _ 8 M ltac:(lia))) as (Gx & Gi & _).
    destruct (secp256k1_ge_set_xquad fx) as [c okq]. cbn [fst] in Gx, Gi. intros R.
    assert (K : gx (if sign then secp256k1_ge_neg c else c) = fx /\
      ginf (if sign then secp256k1_ge_neg c else c) = false) by (now destruct sign).
    destruct K as [Kx Ki], R as (_ & (C & D)). destruct P as [|x y]; [congruence|].
    destruct C as (X & _ & Ec), D as (_ & Vx & _). rewrite Kx, V in Vx. unfold quad_point.
    rewrite <- (cong_mod_small p x (be_val (slice data 1 32)) (symmetry Vx) X). cbv zeta.
    rewrite (proj2 (squareb_spec _)); [discriminate|]. now exists y.
Qed.

Lemma save_ok a P : ge_rep a P -> P <> Inf -> secp256k1_generator_save a = quad_bytes 11 P.
Proof.
  intros Ha HP. destruct P as [|x y]; [contradiction|].
  destruct (ge_finite _ _ _ Ha) as (Hc & _ & Kx & Ky).
  destruct (coord_norm _ 8 x Kx eq_refl (proj1 Hc)) as [Nx Vx].
  unfold secp256k1_generator_save, quad_bytes.
  rewrite (is_quad_spec _ y Ky), (fe_get_b32_ok _ Nx), Vx. now destruct (squareb y).
Qed.

(** ** The map onto the curve *)

Lemma svdw_consts : fev svdw_c 1 root_m3 /\ fev svdw_d 1 cube_root /\ fev svdw_b 1 7 /\
  fev svdw_b_plus_one 1 8.
Proof.
  unfold svdw_c, svdw_d, svdw_b, svdw_b_plus_one.
  split; [|split; [|split]];
    (eapply fev_eq; [apply fev_const; reflexivity|apply cong_eq; reflexivity]).
Qed.

(** The fractions of the code are those of the paper. *)
Lemma svdw_fractions t c a k i : let d := t * t + 8 in
  d * k =[p]= 1 -> c * t * (c * t) * d * i =[p]= 1 ->
  (a * d + - (t * (c * t))) * (c * t * (c * t)) * i =[p]= a - t * (c * t * k) /\
  - (a * d + - (t * (c * t)) + d) * (c * t * (c * t)) * i =[p]= - (a - t * (c * t * k) + 1) /\
  (d * d + c * t * (c * t)) * d * i =[p]= 1 + d * d * d * i /\
  (c * t * k) * (c * t * k) * (d * d * d * i) =[p]= 1.
Proof.
  intros d E I.
  assert (K : c * t * (c * t) * i =[p]= k).
  { transitivity (c * t * (c * t) * i * (d * k)); [rewrite E; apply cong_eq; ring|].
    transitivity (c * t * (c * t) * d * i * k); [apply cong_eq; ring|]. rewrite I. apply cong_eq. ring. }
  split; [|split; [|split]].
  - transitivity ((a * d + - (t * (c * t))) * (c * t * (c * t) * i)); [apply cong_eq; ring|]. rewrite K.
    transitivity (a * (d * k) - t * (c * t * k)); [apply cong_eq; ring|]. rewrite E. apply cong_eq. ring.
  - transitivity (- (a * d + - (t * (c * t)) + d) * (c * t * (c * t) * i)); [apply cong_eq; ring|].
    rewrite K. transitivity (- (a * (d * k) - t * (c * t * k) + d * k)); [apply cong_eq; ring|].
    rewrite E. apply cong_eq. ring.
  - transitivity (c * t * (c * t) * d * i + d * d * d * i); [apply cong_eq; ring|]. now rewrite I.
  - transitivity ((c * t * (c * t) * d * i) * (d * k) * (d * k)); [apply cong_eq; ring|].
    rewrite I, E. reflexivity.
Qed.

Lemma svdw_fractions_ok e i : e mod p <> 0 ->
  root_m3 * e * (root_m3 * e) * (e * e + 8) * i =[p]= 1 -> let d := e * e + 8 in
  (cube_root * d + - (e * (root_m3 * e))) * (root_m3 * e * (root_m3 * e)) * i =[p]= svdw_x1 e /\
  - (cube_root * d + - (e * (root_m3 * e)) + d) * (root_m3 * e * (root_m3 * e)) * i =[p]= svdw_x2 e /\
  (d * d + root_m3 * e * (root_m3 * e)) * d * i =[p]= svdw_x3 e.
Proof.
  intros He I d.
  assert (E : d * fp_inv (8 + e * e) =[p]= 1).
  { unfold d. rewrite (Z.add_comm (e * e)). exact (fp_inv_ok _ (svdw_den e)). }
  destruct (svdw_fractions e root_m3 cube_root _ i E I) as (X1 & X2 & X3 & Y).
  pose proof (svdw_w_nonzero e He) as Hw.
  pose proof (fp_inv_ok _ (mul_nonzero _ _ Hw Hw)) as Y'.
  split; [exact X1|]. split; [exact X2|]. apply (Equivalence_Transitive _ _ _ X3). unfold svdw_x3.
  pose proof (inverse_unique _ _ _ Y Y') as [q U]. exists q. lia.
Qed.

Lemma fev_inv a m e : fev a m e -> (m <=? 8) = true -> e mod p <> 0 ->
  exists i, fev (secp256k1_fe_inv a) 1 i /\ e * i =[p]= 1.
Proof.
  intros [M V] Hm He. apply Z.leb_le in Hm. exists (fval (secp256k1_fe_inv a)).
  destruct (fe_inv_spec a (fmag_le _ _ 8 M Hm)) as (Mi & Hi & _).
  split; [now split|]. rewrite <- V. apply Hi. intros H. apply He, cong_0. apply cong_0 in H.
  now rewrite <- V.
Qed.

Lemma svdw_candidates_spec t e : fev t 1 e -> e mod p <> 0 ->
  let r := svdw_candidates t in
  fev (fst (fst r)) 1 (svdw_x1 e) /\ fev (snd (fst r)) 1 (svdw_x2 e) /\ fev (snd r) 1 (svdw_x3 e).
Proof.
  intros Kt He. destruct svdw_consts as (Kc & Kd & _ & Kb).
  enter @svdw_candidates. do 15 fe_step.
  assert (Hj : (root_m3 * e * (root_m3 * e) * (e * e + 8)) mod p <> 0).
  { pose proof (svdw_den e) as D. rewrite Z.add_comm in D.
    assert (C : (root_m3 * e) mod p <> 0) by (apply mul_nonzero; [discriminate|exact He]).
    apply mul_nonzero; [now apply mul_nonzero|exact D]. }
  destruct (fev_inv jinv _ _ K12 eq_refl Hj) as (i & Ki & I). cbv zeta.
  destruct (svdw_fractions_ok e i He I) as (X1 & X2 & X3). unfold wp. cbn [fst snd].
  split; [|split].
  - exact (fev_eq _ _ _ _ (fev_mul _ _ _ _ _ _ (fev_mul _ _ _ _ _ _ K5 K9 eq_refl) Ki eq_refl) X1).
  - exact (fev_eq _ _ _ _ (fev_mul _ _ _ _ _ _ (fev_mul _ _ _ _ _ _ K7 K9 eq_refl) Ki eq_refl) X2).
  - exact (fev_eq _ _ _ _ (fev_mul _ _ _ _ _ _ (fev_mul _ _ _ _ _ _ K11 K1 eq_refl) Ki eq_refl) X3).
Qed.

Lemma svdw_cube_spec x e : fev x 1 e -> fev (svdw_cube x) 2 (curve_rhs e).
Proof.
  intros K. destruct svdw_consts as (_ & _ & Kb & _). unfold svdw_cube.
  exact (fev_add _ _ _ _ _ _ (fev_mul _ _ _ _ _ _ (fev_sqr _ _ _ K eq_refl) K eq_refl) Kb eq_refl).
Qed.

(** The root the code computes is the square one. *)
Lemma svdw_root x e : fev x 1 e ->
  let r := secp256k1_fe_sqrt (svdw_cube x) in
  fmag (fst r) 1 /\ snd r = squareb (curve_rhs e) /\
  (is_square (curve_rhs e) -> fev (fst r) 1 (fp_sqrt (curve_rhs e))).
Proof.
  intros K. destruct (svdw_cube_spec x e K) as [M V].
  destruct (fe_sqrt_spec _ (fmag_le _ _ 8 M ltac:(lia))) as (My & Hok & Hy). cbv zeta.
  split; [exact My|]. split.
  - apply eq_true_iff_eq. rewrite Hok, squareb_spec. apply (is_square_cong _ _ V).
  - intros Q. split; [exact My|].
    assert (Ok : snd (secp256k1_fe_sqrt (svdw_cube x)) = true) by (apply Hok, (is_square_cong _ _ V), Q).
    destruct (Hy Ok) as [E S]. apply square_root_unique; [|exact S|apply fp_sqrt_square].
    rewrite E, V. symmetry. now apply fp_sqrt_ok.
Qed.

(** The choice among the three candidates, without the conditional moves. *)
Definition choose {A} (a b : bool) (u v w : A) : A := if a then u else if b then v else w.

Lemma choose_cmov a b m u v w : m <= 32 -> fmag u m -> fmag v m -> fmag w m ->
  fe_cmov (fe_cmov u v (negb a && b)) w (negb a && negb b) = choose a b u v w.
Proof.
  intros Hm Mu Mv Mw. rewrite (fe_cmov_ok u v m _ Mu Mv Hm).
  destruct a, b; cbn [negb andb choose]; rewrite (fe_cmov_ok _ _ m) by assumption; reflexivity.
Qed.

(** What is chosen: the first candidate whose right-hand side is a square. *)
Lemma svdw_chosen e x1 x2 x3 y1 y2 y3 : e mod p <> 0 ->
  let root x y r := fev x 1 r /\ (is_square (curve_rhs r) -> fev y 1 (fp_sqrt (curve_rhs r))) in
  root x1 y1 (svdw_x1 e) -> root x2 y2 (svdw_x2 e) -> root x3 y3 (svdw_x3 e) ->
  let a := squareb (curve_rhs (svdw_x1 e)) in let b := squareb (curve_rhs (svdw_x2 e)) in
  fev (choose a b x1 x2 x3) 1 (svdw_x e) /\
  fev (choose a b y1 y2 y3) 1 (fp_sqrt (curve_rhs (svdw_x e))).
Proof.
  intros He root R1 R2 R3. cbv zeta. pose proof (svdw_x_ok e He) as S. unfold svdw_x in *.
  assert (Pick : forall x y r, root x y r -> is_square (curve_rhs (r mod p)) ->
    fev x 1 (r mod p) /\ fev y 1 (fp_sqrt (curve_rhs (r mod p)))).
  { intros x y r [Kx Ky] Q. pose proof (curve_rhs_cong _ _ (cong_mod p r)) as E.
    split; [exact (fev_eq _ _ _ _ Kx (symmetry (cong_mod p r)))|].
    rewrite (fp_sqrt_cong _ _ E). apply Ky, (is_square_cong _ _ E), Q. }
  destruct (squareb (curve_rhs (svdw_x1 e))); [exact (Pick _ _ _ R1 S)|].
  destruct (squareb (curve_rhs (svdw_x2 e))); [exact (Pick _ _ _ R2 S)|exact (Pick _ _ _ R3 S)].
Qed.

(** The code computes the map. *)
Lemma shallue_rep t : fnorm t -> fval t <> 0 ->
  ge_rep (shallue_van_de_woestijne t) (svdw (fval t)).
Proof.
  intros N Ht. pose proof (fnorm_range _ N) as R.
  assert (Hn : fval t mod p <> 0) by (now rewrite Z.mod_small).
  pose proof (fev_self t 1 (fnorm_mag _ N)) as Kt.
  destruct (svdw_candidates_spec t _ Kt Hn) as (K1 & K2 & K3).
  unfold shallue_van_de_woestijne. destruct (svdw_candidates t) as [[x1 x2] x3]. cbn [fst snd] in *.
  destruct (svdw_root x1 _ K1) as (M1 & Q1 & R1), (svdw_root x2 _ K2) as (M2 & Q2 & R2),
    (svdw_root x3 _ K3) as (M3 & _ & R3).
  destruct (secp256k1_fe_sqrt (svdw_cube x1)) as [y1 a], (secp256k1_fe_sqrt (svdw_cube x2)) as [y2 b],
    (secp256k1_fe_sqrt (svdw_cube x3)) as [y3 c]. cbn [fst snd] in *. subst a b.
  rewrite !(choose_cmov _ _ 1) by (lia || apply K1 || apply K2 || apply K3 || assumption).
  destruct (svdw_chosen (fval t) x1 x2 x3 y1 y2 y3 Hn (conj K1 R1) (conj K2 R2) (conj K3 R3)) as [Kx Ky].
  revert Kx Ky. generalize (choose (squareb (curve_rhs (svdw_x1 (fval t))))
    (squareb (curve_rhs (svdw_x2 (fval t)))) x1 x2 x3).
  generalize (choose (squareb (curve_rhs (svdw_x1 (fval t))))
    (squareb (curve_rhs (svdw_x2 (fval t)))) y1 y2 y3). intros y x Kx Ky.
  pose proof (svdw_on_curve (fval t) Hn) as C. unfold secp256k1_ge_set_xy. cbn [gx gy ginf].
  rewrite (fe_is_odd_ok _ N). unfold svdw in *.
  pose proof (fev_negate y 1 1 _ Ky eq_refl) as Ky'.
  rewrite (fe_cmov_ok y _ 2) by (lia || apply Ky' || (apply (fmag_le _ 1); [apply Ky|lia])).
  destruct (Z.odd (fval t)); apply (ge_rep_mag1 _ _ _ _ C (fev_up _ _ Kx)).
  - apply (fev_eq _ _ _ _ (fev_le _ _ 8 _ Ky' eq_refl)). symmetry. apply cong_mod.
  - exact (fev_up _ _ Ky).
Qed.

(** ** Generating *)

Context (Hsha : buf_ok sha0).

Lemma sha_run sha chunks : buf_ok sha -> Forall (Forall is_byte) chunks ->
  Z.of_nat (length (concat chunks)) < 2 ^ 61 ->
  let r := secp256k1_sha256_finalize
    (fold_left secp256k1_sha256_write chunks (secp256k1_sha256_initialize sha)) in
  snd r = fips_sha256 (concat chunks) /\ buf_ok (fst r).
Proof.
  intros Hs Hc Hl. exact (finalize_spec _ _ (writes_repr _ [] chunks (initialize_repr sha Hs) Hc) Hl).
Qed.

(** The two field elements hashed to the curve. *)
Definition t1_of (key32 : bytes) : Z := be_val (fips_sha256 (prefix1 ++ key32)).
Definition t2_of (key32 : bytes) : Z := be_val (fips_sha256 (prefix2 ++ key32)).

(** The point of a key: a sum of two points, so that every point is possible. *)
Definition key_point (key32 : bytes) : point := padd (svdw (t1_of key32)) (svdw (t2_of key32)).

(** Neither hash is 0, which would take a preimage of 0 under SHA-256. *)
Definition hashes_nonzero (key32 : bytes) : Prop := t1_of key32 <> 0 /\ t2_of key32 <> 0.

Definition blind_overflow (blind32 : option bytes) : bool :=
  match blind32 with Some b => n_order <=? be_val b | None => false end.

(** What the generation aborts on. *)
Definition generate_aborts (key32 : bytes) (blind32 : option bytes) : bool :=
  blind_overflow blind32 || (p <=? t1_of key32) || (p <=? t2_of key32).

Definition blinded_point (key32 : bytes) (blind32 : option bytes) : point :=
  match blind32 with
  | None => key_point key32
  | Some b => padd (smul (be_val b) G_point) (key_point key32)
  end.

Definition is_b32 (l : bytes) : Prop := length l = 32%nat /\ Forall is_byte l.

(** One hash of the code, and the point made of it. *)
Lemma hash_step sha prefix key32 : buf_ok sha -> is_b32 key32 -> Forall is_byte prefix ->
  length prefix = 16%nat ->
  let r := secp256k1_sha256_finalize (secp256k1_sha256_write (secp256k1_sha256_write
    (secp256k1_sha256_initialize sha) prefix) (slice key32 0 32)) in
  let t := be_val (fips_sha256 (prefix ++ key32)) in
  buf_ok (fst r) /\ snd (fe_set_b32 (snd r)) = (t <? p) /\
  (0 < t < p -> ge_rep (shallue_van_de_woestijne (fst (fe_set_b32 (snd r)))) (svdw t)).
Proof.
  intros Hs [Lk Bk] Bp Lp. rewrite (slice_all key32 32 Lk).
  destruct (sha_run sha [prefix; key32] Hs (Forall_cons _ Bp (Forall_cons _ Bk (Forall_nil _)))) as [E B].
  { cbn [concat]. rewrite !length_app, Lp, Lk. reflexivity. }
  cbn [fold_left concat] in E, B. rewrite app_nil_r in E. cbv zeta. rewrite E.
  split; [exact B|].
  destruct (fe_set_b32_ok _ (fips_sha256_byte (prefix ++ key32)) (length_fips_sha256 _))
    as (Ok & V & _ & N). split; [exact Ok|]. intros Ht.
  rewrite <- V. apply shallue_rep; [apply N; lia|rewrite V; lia].
Qed.

Definition blind_ok (ctx : secp256k1_context) (blind32 : option bytes) : Prop :=
  match blind32 with None => True | Some b => gen_ctx_ok (ecmult_gen_ctx ctx) /\ is_b32 b end.

(** The accumulator before the hashes: the blinding multiple, when there is one. *)
Lemma generate_start ctx blind32 : blind_ok ctx blind32 ->
  match blind32 with
  | None => True
  | Some b => exists s, s_set_b32 b = (s, blind_overflow blind32) /\
      gej_rep (secp256k1_ecmult_gen (ecmult_gen_ctx ctx) s) (smul (be_val b) G_point)
  end.
Proof.
  destruct blind32 as [b|]; [|trivial]. intros [HG [Lb Bb]].
  pose proof (s_set_b32_ok b Bb Lb) as K. destruct (s_set_b32 b) as [s o].
  destruct K as (Ok & V & ->). exists s. split; [reflexivity|].
  pose proof (ecmult_gen_spec _ s HG Ok) as R. now rewrite V, smul_mod in R.
Qed.

Lemma t_bounds prefix key32 : 0 <= be_val (fips_sha256 (prefix ++ key32)).
Proof. apply be_val_range, fips_sha256_byte. Qed.

Lemma prefix_ok : Forall is_byte prefix1 /\ Forall is_byte prefix2.
Proof. split; repeat constructor; unfold is_byte; cbn; lia. Qed.

Lemma hash_to_accum_ok accum B key32 : is_b32 key32 -> hashes_nonzero key32 ->
  match accum with Some a => gej_rep a B | None => B = Inf end -> padd B (key_point key32) <> Inf ->
  hash_to_accum accum key32 =
  if (p <=? t1_of key32) || (p <=? t2_of key32) then None
  else Some (quad_bytes 11 (padd B (key_point key32))).
Proof.
  intros Hk [N1 N2] Ha HP. unfold hash_to_accum. cbv zeta.
  pose proof (t_bounds prefix1 key32) as P1. pose proof (t_bounds prefix2 key32) as P2.
  fold (t1_of key32) in P1. fold (t2_of key32) in P2.
  destruct (hash_step sha0 prefix1 key32 Hsha Hk (proj1 prefix_ok) eq_refl) as (B1 & O1 & S1).
  fold (t1_of key32) in O1, S1. revert B1 O1 S1.
  destruct (secp256k1_sha256_finalize (secp256k1_sha256_write (secp256k1_sha256_write
    (secp256k1_sha256_initialize sha0) prefix1) (slice key32 0 32))) as [sha b32].
  intros B1 O1 S1. cbn [fst snd] in B1, O1, S1.
  destruct (fe_set_b32 b32) as [t ok]. cbn [fst snd] in O1, S1. rewrite O1, <- Z.leb_antisym.
  destruct (Z.leb_spec p (t1_of key32)) as [|L1]; [reflexivity|]. cbn [orb].
  specialize (S1 ltac:(lia)). clear ok O1.
  destruct (hash_step sha prefix2 key32 B1 Hk (proj2 prefix_ok) eq_refl) as (B2 & O2 & S2).
  fold (t2_of key32) in O2, S2. revert B2 O2 S2.
  destruct (secp256k1_sha256_finalize (secp256k1_sha256_write (secp256k1_sha256_write
    (secp256k1_sha256_initialize sha) prefix2) (slice key32 0 32))) as [sha' b32'].
  intros B2 O2 S2. cbn [fst snd] in B2, O2, S2.
  destruct (fe_set_b32 b32') as [t' ok]. cbn [fst snd] in O2, S2. rewrite O2, <- Z.leb_antisym.
  destruct (Z.leb_spec p (t2_of key32)) as [|L2]; [reflexivity|].
  specialize (S2 ltac:(lia)).
  pose proof (proj1 (proj2 S1)) as C1. pose proof (proj1 (proj2 S2)) as C2.
  assert (R1 : on_curve B /\ gej_rep (match accum with
      | Some accum => secp256k1_gej_add_ge accum (shallue_van_de_woestijne t)
      | None => secp256k1_gej_set_ge (shallue_van_de_woestijne t) end) (padd B (svdw (t1_of key32)))).
  { destruct accum as [a|].
    - split; [exact (proj1 (proj2 Ha))|]. exact (add_ge_rep a _ B _ Ha S1 (svdw_finite _)).
    - subst B. split; [exact I|]. exact (set_ge_rep _ _ S1). }
  destruct R1 as [CB R1].
  pose proof (add_ge_rep _ _ _ _ R1 S2 (svdw_finite _)) as R2.
  rewrite padd_assoc in R2 by assumption. fold (key_point key32) in R2.
  destruct (set_gej_rep _ _ R2) as [R3 _]. destruct (secp256k1_ge_set_gej _) as [q qj].
  f_equal. exact (save_ok q _ R3 HP).
Qed.

Lemma generate_spec ctx key32 blind32 : is_b32 key32 -> hashes_nonzero key32 -> blind_ok ctx blind32 ->
  blinded_point key32 blind32 <> Inf ->
  secp256k1_generator_generate_internal ctx key32 blind32 =
  if generate_aborts key32 blind32 then None else Some (quad_bytes 11 (blinded_point key32 blind32)).
Proof.
  intros Hk Hn Hb HP. pose proof (generate_start ctx blind32 Hb) as A. unfold generate_aborts.
  destruct blind32 as [b|].
  - destruct A as (s & E & R). unfold secp256k1_generator_generate_internal. rewrite E.
    destruct (blind_overflow (Some b)); [reflexivity|]. cbn [orb]. unfold blinded_point in *.
    exact (hash_to_accum_ok (Some _) _ key32 Hk Hn R HP).
  - exact (hash_to_accum_ok None Inf key32 Hk Hn eq_refl HP).
Qed.

Lemma key_point_on_curve key32 blind32 : hashes_nonzero key32 ->
  generate_aborts key32 blind32 = false -> on_curve (key_point key32).
Proof.
  intros [N1 N2] A. unfold generate_aborts in A. rewrite !orb_false_iff, !Z.leb_gt in A.
  pose proof (t_bounds prefix1 key32). pose proof (t_bounds prefix2 key32).
  fold (t1_of key32) (t2_of key32) in *.
  apply padd_on_curve; apply svdw_on_curve;
    [rewrite (Z.mod_small (t1_of key32)) by lia; exact N1|rewrite (Z.mod_small (t2_of key32)) by lia; exact N2].
Qed.

(** ** Properties *)

(** C12: the map onto the curve. For every field element but 0 the code computes the
    point of the paper's map, which is on the curve; the opposite element gives
    the opposite point. *)
Theorem svdw_maps_to_curve t u : fnorm t -> fnorm u -> fval t <> 0 -> fval u = p - fval t ->
  on_curve (svdw (fval t)) /\
  ge_rep (shallue_van_de_woestijne t) (svdw (fval t)) /\
  ge_rep (shallue_van_de_woestijne u) (pneg (svdw (fval t))).
Proof.
  intros Nt Nu Ht Eu. pose proof (fnorm_range _ Nt) as R. pose proof (fnorm_range _ Nu) as Ru.
  pose proof (shallue_rep t Nt Ht) as S. split; [exact (proj1 (proj2 S))|]. split; [exact S|].
  rewrite <- svdw_neg, <- Eu by lia. apply shallue_rep; [exact Nu|lia].
Qed.

(** C13: generating. The generator of a key is the serialised sum of the points its two
    hashes map to, with the multiple of G by the blinding factor when there is
    one; loading it gives that point.  The call ends the program exactly when a
    hash is not a field element or the factor not a scalar. *)
Theorem generator_generate_correct ctx gen key32 : gen_ctx_ok (ecmult_gen_ctx ctx) ->
  is_b32 key32 -> hashes_nonzero key32 -> key_point key32 <> Inf ->
  let result P := Some (Api true (Some (quad_bytes 11 P)) []) in
  secp256k1_generator_generate ctx (Some gen) (Some key32)
    = (if generate_aborts key32 None then None else result (key_point key32)) /\
  forall b, is_b32 b -> blinded_point key32 (Some b) <> Inf ->
    secp256k1_generator_generate_blinded ctx (Some gen) (Some key32) (Some b)
      = (if generate_aborts key32 (Some b) then None else result (blinded_point key32 (Some b))) /\
    (generate_aborts key32 (Some b) = false ->
     ge_rep (secp256k1_generator_load (quad_bytes 11 (blinded_point key32 (Some b))))
       (padd (smul (be_val b) G_point) (key_point key32))).
Proof.
  intros HG Hk Hn HP. cbv zeta. split.
  - unfold secp256k1_generator_generate.
    rewrite (generate_spec ctx key32 None Hk Hn I HP). now destruct (generate_aborts key32 None).
  - intros b Hb HPb. split.
    + unfold secp256k1_generator_generate_blinded. rewrite (gc_built _ HG). cbn [negb].
      rewrite (generate_spec ctx key32 (Some b) Hk Hn (conj HG Hb) HPb).
      now destruct (generate_aborts key32 (Some b)).
    + intros A. apply load_quad_bytes; [reflexivity| |exact HPb].
      apply padd_on_curve; [apply smul_on_curve; exact (proj1 (proj2 const_g_rep))|].
      now apply key_point_on_curve with (Some b).
Qed.

(** The tag test of the parsers. *)
Lemma tag_match b t : is_byte b -> Z.even t = true ->
  ((b .& 0xFE) =? t) = (b =? t) || (b =? t + 1).
Proof.
  intros Hb Ht. apply Z.even_spec in Ht as [u ->].
  change 0xFE with ((2 ^ 7 - 1) * 2 ^ 1). rewrite land_field by lia.
  unfold is_byte in Hb. change (2 ^ 7) with 128. change (2 ^ 1) with 2.
  apply eq_true_iff_eq. rewrite orb_true_iff, !Z.eqb_eq. dlia.
Qed.

(** The serialised form of a finite point. *)
Lemma quad_bytes_ok P : P <> Inf -> length (quad_bytes 11 P) = 33%nat /\
  Forall is_byte (quad_bytes 11 P) /\ (at_ (quad_bytes 11 P) 0 .& 0xFE) = 10.
Proof.
  destruct P as [|x y]; [contradiction|]. intros _. unfold quad_bytes.
  split; [cbn [length]; now rewrite length_be_bytes|]. split.
  - constructor; [destruct (squareb y); unfold is_byte; cbn; lia|apply be_bytes_byte].
  - unfold at_. change (Z.to_nat 0) with 0%nat. cbn [nth]. now destruct (squareb y).
Qed.

(** The wire format of generators. Of 33 bytes exactly those whose first byte is
    10 or 11 are accepted, and they are kept and written out as they are; what
    is saved for a point is accepted, and loads as the point. *)
Theorem generator_wire ctx gen input P : length input = 33%nat -> Forall is_byte input ->
  on_curve P -> P <> Inf ->
  let parse b := secp256k1_generator_parse ctx (Some gen) (Some b) in
  (ret (parse input) = true <-> at_ input 0 = 10 \/ at_ input 0 = 11) /\
  out (parse input) = Some (if ret (parse input) then input else gen) /\
  (forall output, length output = 33%nat ->
    secp256k1_generator_serialize ctx (Some output) (Some input) = Api true (Some input) []) /\
  parse (quad_bytes 11 P) = Api true (Some (quad_bytes 11 P)) [] /\
  ge_rep (secp256k1_generator_load (quad_bytes 11 P)) P /\
  forall a, ge_rep a P -> secp256k1_generator_save a = quad_bytes 11 P.
Proof.
  intros L B Hc HP. cbv zeta.
  destruct (quad_bytes_ok P HP) as (Lq & Bq & Tq).
  assert (B0 : is_byte (at_ input 0)) by exact (at_byte input 0 B).
  refine (conj _ (conj _ (conj _ (conj _ (conj _ _))))).
  - unfold secp256k1_generator_parse. rewrite (tag_match _ 10 B0 eq_refl).
    rewrite <- !Z.eqb_eq, <- orb_true_iff. change (10 + 1) with 11.
    destruct ((at_ input 0 =? 10) || (at_ input 0 =? 11)); cbn [negb ret]; split; congruence.
  - unfold secp256k1_generator_parse. rewrite (slice_all input 33 L).
    now destruct (_ =? 10).
  - intros output Lo. unfold secp256k1_generator_serialize, overwrite. rewrite (slice_all input 33 L), L.
    cbn [firstn app]. rewrite skipn_all2 by (cbn; lia). now rewrite app_nil_r.
  - unfold secp256k1_generator_parse. rewrite Tq, (slice_all _ 33 Lq). reflexivity.
  - now apply load_quad_bytes.
  - intros a Ha. now apply save_ok.
Qed.
End Generator.

(** ** Witnesses *)

#[local] Existing Instance field_5x52.
#[local] Existing Instance scalar_4x64.

Lemma key3_hashes : t1_of (be_bytes 32 3) = 0x9ddb3f36e0fce958af632bfa2a34da9eb39b341c3b8572b087d8caa5b7a0cdd5 /\
  t2_of (be_bytes 32 3) = 0x771026a248aa7714f96ec70500060a12d9fb35ab1f039822f3aea8a55325ed70.
Proof. split; vm_compute; reflexivity. Qed.

Lemma key3_first : svdw_x (t1_of (be_bytes 32 3)) =
  0x15bd3ecda22e6917b6453717e77d94f3ecbce94894277314674786a9ec79f16e.
Proof.
  rewrite (proj1 key3_hashes).
  apply (svdw_x_first _ 0xc7a3a4dd4ffca53e9772d36ab0a51ab02e930e1d453fb46cbf8183a2cf98b584 _
    0x3f036871d537719c7edf97390fc35a3df990ba7d201c909ca9e36b77fab2b4c7);
    try (apply cong_iff; reflexivity). split; [discriminate|reflexivity].
Qed.

Lemma key3_second : svdw_x (t2_of (be_bytes 32 3)) =
  0x27069e058eb3c28c0e822c23bb66d43a8ecd72e6c3d3f960af494fec373e8824.
Proof.
  rewrite (proj2 key3_hashes).
  apply (svdw_x_first _ 0xf30ba4451d77f3f160fac8cd7f61140a1713ad14cbc25eb226f782a77cb062f _
    0x8e492457f53403718e1ef24d9052db55caeab3e705b98b556a96bd72f786f19e);
    try (apply cong_iff; reflexivity). split; [discriminate|reflexivity].
Qed.

(** Points of different abscissas do not cancel. *)
Lemma padd_finite x1 y1 x2 y2 : x1 <> x2 -> padd (Aff x1 y1) (Aff x2 y2) <> Inf.
Proof. intros H. cbn [padd]. destruct (Z.eqb_spec x1 x2); [contradiction|discriminate]. Qed.

Lemma key3_ok : is_b32 (be_bytes 32 3) /\ hashes_nonzero (be_bytes 32 3) /\
  key_point (be_bytes 32 3) <> Inf /\ generate_aborts (be_bytes 32 3) None = false.
Proof.
  split; [split; [apply length_be_bytes|apply be_bytes_byte]|]. split; [|split].
  - unfold hashes_nonzero. rewrite (proj1 key3_hashes), (proj2 key3_hashes). split; discriminate.
  - unfold key_point, svdw. apply padd_finite. rewrite key3_first, key3_second. discriminate.
  - unfold generate_aborts. rewrite (proj1 key3_hashes), (proj2 key3_hashes). reflexivity.
Qed.

Lemma svdw_maps_to_curve_witness : exists u,
  ge_rep (shallue_van_de_woestijne u) (pneg (svdw (fval (fe_set_int 1)))).
Proof.
  assert (R : in_fp (p - 1)) by (split; [discriminate|reflexivity]).
  pose proof (b32_norm (p - 1) R) as B.
  destruct (fe_set_b32 (be_bytes 32 (p - 1))) as [u ok]. destruct B as (_ & N & V). exists u.
  destruct (fe_set_int_ok 1 ltac:(lia)) as [N1 V1].
  apply (svdw_maps_to_curve (fe_set_int 1) u N1 N); rewrite V1; [discriminate|exact V].
Defined.

Lemma generator_generate_correct_witness : exists ctx,
  secp256k1_generator_generate blank_sha ctx (Some []) (Some (be_bytes 32 3))
    = Some (Api true (Some (quad_bytes 11 (key_point (be_bytes 32 3)))) []).
Proof.
  destruct full_context as (ctx & _ & G & _). exists ctx. destruct key3_ok as (K & N & P & A).
  destruct (generator_generate_correct blank_sha blank_ok ctx [] (be_bytes 32 3) G K N P) as [E _].
  rewrite A in E. exact E.
Defined.

Lemma generator_wire_witness : exists ctx,
  secp256k1_generator_parse ctx (Some []) (Some (quad_bytes 11 G_point))
    = Api true (Some (quad_bytes 11 G_point)) [].
Proof.
  destruct full_context as (ctx & _). exists ctx.
  assert (HG : G_point <> Inf) by discriminate. destruct (quad_bytes_ok G_point HG) as (L & B & _).
  exact (proj1 (proj2 (proj2 (proj2 (generator_wire ctx [] (quad_bytes 11 G_point) G_point L B
    (proj1 (proj2 const_g_rep)) HG))))).
Defined.
