(* ===== verification/Pedersen.v ===== *)
(** * modules/rangeproof: Pedersen and switch commitments

    pedersen_impl.h, switch_impl.h and the commitment functions of main_impl.h.
    A commitment is the 33 bytes of its serialisation, like a generator with
    another tag. *)
From Stdlib Require Import String.
From S2P Require Import Field5x52 Scalar4x64.
From S2P Require Import Prelude Primes FieldSpec Field ScalarSpec Scalar Sha256Spec Hash.
From S2P Require Import CurveSpec CurveGroup CurveOrder CurveCount Residue Svdw Group.
From S2P Require Import Ecmult EcmultGen EcmultConst EcmultProperties Ecdsa Eckey Der Api.
From S2P Require Import EcdsaProperties ApiProperties Generator.

Definition secp256k1_pedersen_commitment : Type := bytes.

Definition secp256k1_generator_h_internal : secp256k1_generator := [
  0x11;
  0x50; 0x92; 0x9b; 0x74; 0xc1; 0xa0; 0x49; 0x54; 0xb7; 0x8b; 0x4b; 0x60; 0x35; 0xe9; 0x7a; 0x5e;
  0x07; 0x8a; 0x5a; 0x0f; 0x28; 0xec; 0x96; 0xd5; 0x47; 0xbf; 0xee; 0x9a; 0xce; 0x80; 0x3a; 0xc0].

Definition secp256k1_generator_j_internal : secp256k1_generator := [
  0x11;
  0xb8; 0x60; 0xf5; 0x67; 0x95; 0xfc; 0x03; 0xf3; 0xc2; 0x16; 0x85; 0x38; 0x3d; 0x1b; 0x5a; 0x2f;
  0x29; 0x54; 0xf4; 0x9b; 0x7e; 0x39; 0x8b; 0x8d; 0x2a; 0x01; 0x93; 0x93; 0x36; 0x21; 0x15; 0x5f].

Section Pedersen.
Context {F : FieldImpl} {SI : ScalarImpl} (junk : secp256k1_gej) (junk_ints : list Z).

(** ** pedersen_impl.h and switch_impl.h *)

Definition secp256k1_pedersen_scalar_set_u64 (value : Z) : scalar :=
  let data := repeat 0 24 in
  let '(data, _) := for_loop 8 (fun _ '(data, value) =>
    (data ++ [u8 (value >> 56)], u64 (value << 8))) (data, value) in
  fst (s_set_b32 data).

Definition secp256k1_pedersen_ecmult_small (gn : Z) (genp : secp256k1_ge) : secp256k1_gej :=
  let s := secp256k1_pedersen_scalar_set_u64 gn in
  secp256k1_ecmult_const junk junk_ints genp s 64.

Definition secp256k1_pedersen_ecmult (ecmult_gen_ctx : secp256k1_ecmult_gen_context) (sec : scalar)
    (value : Z) (genp : secp256k1_ge) : secp256k1_gej :=
  let rj := secp256k1_ecmult_gen ecmult_gen_ctx sec in
  let vj := secp256k1_pedersen_ecmult_small value genp in
  fst (secp256k1_gej_add_var rj rj vj).

Definition secp256k1_switch_ecmult (sec : scalar) (genp : secp256k1_ge) : secp256k1_gej :=
  secp256k1_ecmult_const junk junk_ints genp sec 64.

(** ** main_impl.h *)

Definition secp256k1_pedersen_commitment_load (commit : secp256k1_pedersen_commitment) : secp256k1_ge :=
  let '(fe, _) := fe_set_b32 (slice commit 1 32) in
  let '(ge, _) := secp256k1_ge_set_xquad fe in
  if negb ((at_ commit 0 .& 1) =? 0) then secp256k1_ge_neg ge else ge.

Definition secp256k1_pedersen_commitment_save (ge : secp256k1_ge) : secp256k1_pedersen_commitment :=
  let x := fe_normalize (gx ge) in
  u8 (9 .^ b2z (secp256k1_fe_is_quad_var (gy ge))) :: fe_get_b32 x.

Definition secp256k1_pedersen_commitment_parse (ctx : secp256k1_context)
    (commit : option secp256k1_pedersen_commitment) (input : option bytes)
    : api (option secp256k1_pedersen_commitment) :=
  match commit, input with
  | None, _ => arg_fail ctx "commit != NULL" commit
  | _, None => arg_fail ctx "input != NULL" commit
  | Some commit, Some input =>
    if negb ((at_ input 0 .& 0xFE) =? 8) then Api false (Some commit) [] else
    Api true (Some (slice input 0 33)) []
  end.

Definition secp256k1_pedersen_commitment_serialize (ctx : secp256k1_context) (output : option bytes)
    (commit : option secp256k1_pedersen_commitment) : api (option bytes) :=
  match output, commit with
  | None, _ => arg_fail ctx "output != NULL" output
  | _, None => arg_fail ctx "commit != NULL" output
  | Some output, Some commit => Api true (Some (overwrite output 0 (slice commit 0 33))) []
  end.

Definition secp256k1_pedersen_commit (ctx : secp256k1_context)
    (commit : option secp256k1_pedersen_commitment) (blind : option bytes) (value : Z)
    (gen : option secp256k1_generator) : api (option secp256k1_pedersen_commitment) :=
  ARG_CHECK ctx (secp256k1_ecmult_gen_context_is_built (ecmult_gen_ctx ctx))
    "secp256k1_ecmult_gen_context_is_built(&ctx->ecmult_gen_ctx)" commit (
  match commit, blind, gen with
  | None, _, _ => arg_fail ctx "commit != NULL" commit
  | _, None, _ => arg_fail ctx "blind != NULL" commit
  | _, _, None => arg_fail ctx "gen != NULL" commit
  | Some commit, Some blind, Some gen =>
    let genp := secp256k1_generator_load gen in
    let '(sec, overflow) := s_set_b32 blind in
    if overflow then Api false (Some commit) [] else
    let rj := secp256k1_pedersen_ecmult (ecmult_gen_ctx ctx) sec value genp in
    if secp256k1_gej_is_infinity rj then Api false (Some commit) [] else
    let '(r, _) := secp256k1_ge_set_gej rj in
    Api true (Some (secp256k1_pedersen_commitment_save r)) []
  end).

(** The loop of [secp256k1_pedersen_blind_sum]; [None] is an early return. *)
Fixpoint blind_sum_loop (blinds : list bytes) (i npositive : Z) (acc : scalar) : option scalar :=
  match blinds with
  | [] => Some acc
  | blind :: blinds =>
    let '(x, overflow) := s_set_b32 blind in
    if overflow then None else
    let x := if npositive <=? i then s_negate x else x in
    let '(acc, _) := s_add acc x in
    blind_sum_loop blinds (i + 1) npositive acc
  end.

(** The array has [n] pointers, none of them NULL. *)
Definition secp256k1_pedersen_blind_sum (ctx : secp256k1_context) (blind_out : option bytes)
    (blinds : option (list bytes)) (n : nat) (npositive : Z) : api (option bytes) :=
  match blind_out, blinds with
  | None, _ => arg_fail ctx "blind_out != NULL" blind_out
  | _, None => arg_fail ctx "blinds != NULL" blind_out
  | Some buf, Some blinds =>
    ARG_CHECK ctx (npositive <=? Z.of_nat n) "npositive <= n" blind_out (
    match blind_sum_loop (firstn n blinds) 0 npositive (s_set_int 0) with
    | None => Api false (Some buf) []
    | Some acc => Api true (Some (s_get_b32 acc)) []
    end)
  end.

Definition commit_add_loop (accj : secp256k1_gej) (commits : list secp256k1_pedersen_commitment)
    : secp256k1_gej :=
  fold_left (fun accj commit =>
    let add := secp256k1_pedersen_commitment_load commit in
    fst (secp256k1_gej_add_ge_var accj accj add)) commits accj.

(** The sum both functions below compute. *)
Definition commit_diff (commits : list secp256k1_pedersen_commitment) (pcnt : nat)
    (ncommits : list secp256k1_pedersen_commitment) (ncnt : nat) : secp256k1_gej :=
  let accj := secp256k1_gej_set_infinity junk in
  let accj := commit_add_loop accj (firstn ncnt ncommits) in
  let accj := secp256k1_gej_neg accj in
  commit_add_loop accj (firstn pcnt commits).

(** [!cnt || ptr != NULL] *)
Definition counted {A} (cnt : nat) (ptr : option (list A)) : bool := Nat.eqb cnt 0 || not_null ptr.

Definition array {A} (ptr : option (list A)) : list A := match ptr with Some l => l | None => [] end.

Definition secp256k1_pedersen_commit_sum (ctx : secp256k1_context)
    (commit_out : option secp256k1_pedersen_commitment)
    (commits : option (list secp256k1_pedersen_commitment)) (pcnt : nat)
    (ncommits : option (list secp256k1_pedersen_commitment)) (ncnt : nat)
    : api (option secp256k1_pedersen_commitment) :=
  ARG_CHECK ctx (counted pcnt commits) "!pcnt || (commits != NULL)" commit_out (
  ARG_CHECK ctx (counted ncnt ncommits) "!ncnt || (ncommits != NULL)" commit_out (
  ARG_CHECK ctx (not_null commit_out) "commit_out != NULL" commit_out (
    let accj := commit_diff (array commits) pcnt (array ncommits) ncnt in
    if secp256k1_gej_is_infinity accj then Api false commit_out [] else
    let '(acc, _) := secp256k1_ge_set_gej accj in
    Api true (Some (secp256k1_pedersen_commitment_save acc)) []))).

Definition secp256k1_pedersen_verify_tally (ctx : secp256k1_context)
    (commits : option (list secp256k1_pedersen_commitment)) (pcnt : nat)
    (ncommits : option (list secp256k1_pedersen_commitment)) (ncnt : nat) : api unit :=
  ARG_CHECK ctx (counted pcnt commits) "!pcnt || (commits != NULL)" tt (
  ARG_CHECK ctx (counted ncnt ncommits) "!ncnt || (ncommits != NULL)" tt (
    Api (secp256k1_gej_is_infinity (commit_diff (array commits) pcnt (array ncommits) ncnt)) tt [])).

(** The loop of [secp256k1_pedersen_blind_generator_blind_sum] over the [n_total]
    entries: the sum and [tmp], the last blinding factor. *)
Fixpoint generator_blind_loop (value : list Z) (generator_blind blinding_factor : list bytes)
    (n i n_inputs : nat) (sum tmp : scalar) : option (scalar * scalar) :=
  match n with
  | O => Some (sum, tmp)
  | S n =>
    let addend := s_set_u64 (nth i value 0) in
    let '(tmp, overflow) := s_set_b32 (nth i generator_blind []) in
    if overflow then None else
    let addend := s_mul addend tmp in
    let '(tmp, overflow) := s_set_b32 (nth i blinding_factor []) in
    if overflow then None else
    let '(addend, _) := s_add addend tmp in
    let '(addend, _) := s_cond_negate addend (Nat.ltb i n_inputs) in
    let '(sum, _) := s_add sum addend in
    generator_blind_loop value generator_blind blinding_factor n (S i) n_inputs sum tmp
  end.

(** [tmp0] is uninitialised.  The result has the new blinding factors; the last
    factor is written last, so the buffers may share memory. *)
Definition secp256k1_pedersen_blind_generator_blind_sum (tmp0 : scalar) (ctx : secp256k1_context)
    (value : option (list Z)) (generator_blind blinding_factor : option (list bytes))
    (n_total n_inputs : nat) : api (option (list bytes)) :=
  ARG_CHECK ctx (Nat.eqb n_total 0 || not_null value) "n_total == 0 || value != NULL" blinding_factor (
  ARG_CHECK ctx (Nat.eqb n_total 0 || not_null generator_blind)
    "n_total == 0 || generator_blind != NULL" blinding_factor (
  ARG_CHECK ctx (Nat.eqb n_total 0 || not_null blinding_factor)
    "n_total == 0 || blinding_factor != NULL" blinding_factor (
  ARG_CHECK ctx (Nat.ltb n_inputs n_total) "n_total > n_inputs" blinding_factor (
  if Nat.eqb n_total 0 then Api true blinding_factor [] else
  match generator_blind_loop (array value) (array generator_blind) (array blinding_factor)
          n_total 0 n_inputs (s_set_int 0) tmp0 with
  | None => Api false blinding_factor []
  | Some (sum, tmp) =>
    let sum := s_negate sum in
    let '(tmp, _) := s_add tmp sum in
    Api true (Some (upd (array blinding_factor) (n_total - 1) (s_get_b32 tmp))) []
  end)))).

Definition secp256k1_switch_commit (ctx : secp256k1_context)
    (commit : option secp256k1_pedersen_commitment) (blind : option bytes)
    (gen : option secp256k1_generator) : api (option secp256k1_pedersen_commitment) :=
  ARG_CHECK ctx (secp256k1_ecmult_gen_context_is_built (ecmult_gen_switch_ctx ctx))
    "secp256k1_ecmult_gen_context_is_built(&ctx->ecmult_gen_switch_ctx)" commit (
  match commit, blind, gen with
  | None, _, _ => arg_fail ctx "commit != NULL" commit
  | _, None, _ => arg_fail ctx "blind != NULL" commit
  | _, _, None => arg_fail ctx "gen != NULL" commit
  | Some commit, Some blind, Some gen =>
    let genp := secp256k1_generator_load gen in
    let '(sec, overflow) := s_set_b32 blind in
    if overflow then Api false (Some commit) [] else
    let rj := secp256k1_switch_ecmult sec genp in
    if secp256k1_gej_is_infinity rj then Api false (Some commit) [] else
    let '(r, _) := secp256k1_ge_set_gej rj in
    Api true (Some (secp256k1_pedersen_commitment_save r)) []
  end).

(** * Theorems *)

Context (Hjunk : gej_mags junk) (Hints : length junk_ints = 33%nat).

(** ** Small multiples *)

(** One byte moved from the top of the word to the end of the buffer. *)
Lemma u64_byte_step data x v k : Forall is_byte data -> 0 <= x < 2 ^ 64 -> 0 <= k ->
  be_val data * 2 ^ 64 + x = v * 2 ^ (8 * k) ->
  Forall is_byte (data ++ [u8 (x >> 56)]) /\ 0 <= u64 (x << 8) < 2 ^ 64 /\
  be_val (data ++ [u8 (x >> 56)]) * 2 ^ 64 + u64 (x << 8) = v * 2 ^ (8 * (k + 1)).
Proof.
  intros Bd Hx Hk E. rewrite shr_div, shl_mul by reflexivity.
  assert (Q : 0 <= x / 2 ^ 56 < 256) by dlia.
  assert (E8 : u8 (x / 2 ^ 56) = x / 2 ^ 56) by (apply Z.mod_small; exact Q).
  assert (EM : u64 (x * 2 ^ 8) = x * 2 ^ 8 - x / 2 ^ 56 * 2 ^ 64) by (unfold u64; dlia).
  rewrite E8, EM, be_val_snoc. split; [|split].
  - apply Forall_app. split; [exact Bd|]. constructor; [exact Q|constructor].
  - dlia.
  - replace (8 * (k + 1)) with (8 * k + 8) by lia. rewrite Z.pow_add_r by lia. lia.
Qed.

Lemma scalar_set_u64_ok v : 0 <= v < 2 ^ 64 ->
  sok (secp256k1_pedersen_scalar_set_u64 v) /\ sval (secp256k1_pedersen_scalar_set_u64 v) = v.
Proof.
  intros Hv. unfold secp256k1_pedersen_scalar_set_u64. cbv zeta. set (body := fun _ _ => _).
  pose proof (for_loop_inv (fun k '(data, x) => length data = (24 + Z.to_nat k)%nat /\
    Forall is_byte data /\ 0 <= x < 2 ^ 64 /\ be_val data * 2 ^ 64 + x = v * 2 ^ (8 * k))
    body 8 (repeat 0 24, v)) as K.
  destruct (for_loop 8 body (repeat 0 24, v)) as [data x]. destruct K as (L & B & R & E).
  - split; [reflexivity|]. split; [repeat constructor; unfold is_byte; lia|]. split; [exact Hv|].
    change (be_val (repeat 0 24)) with 0. lia.
  - intros k [d y] Hk (L & B & R & E). destruct (u64_byte_step d y v k B R ltac:(lia) E) as (B' & R' & E').
    split; [rewrite length_app, L; cbn [length]; lia|]. auto.
  - change (Z.of_nat 8) with 8 in *. change (8 * 8) with 64 in E.
    assert (V : be_val data = v) by lia.
    pose proof (s_set_b32_ok data B L) as S. destruct (s_set_b32 data) as [s o]. cbn [fst].
    destruct S as (Ok & Vs & _). split; [exact Ok|]. rewrite Vs, V. apply Z.mod_small.
    unfold n_order. lia.
Qed.

Lemma ecmult_small_rep v g P : 0 <= v < 2 ^ 64 -> ge_rep g P -> P <> Inf ->
  gej_rep (secp256k1_pedersen_ecmult_small v g) (smul v P).
Proof.
  intros Hv Hg HP. destruct (scalar_set_u64_ok v Hv) as [Ok V].
  rewrite <- V at 2. apply (ecmult_const_point junk junk_ints g _ 64 P Hjunk Hints Hg HP Ok).
  right. rewrite V. lia.
Qed.

Lemma pedersen_ecmult_rep c s v g P : gen_ctx_ok c -> sok s -> 0 <= v < 2 ^ 64 -> ge_rep g P ->
  P <> Inf -> gej_rep (secp256k1_pedersen_ecmult c s v g) (padd (smul (sval s) G_point) (smul v P)).
Proof.
  intros HG Hs Hv Hg HP. unfold secp256k1_pedersen_ecmult.
  pose proof (ecmult_gen_spec c s HG Hs) as R.
  exact (proj1 (add_var_rep _ _ _ _ _ (proj1 R) R (ecmult_small_rep v g P Hv Hg HP))).
Qed.

(** ** Commitments *)

Definition is_inf (P : point) : bool := match P with Inf => true | Aff _ _ => false end.

Lemma is_infinity_spec a P : gej_rep a P -> secp256k1_gej_is_infinity a = is_inf P.
Proof.
  intros H. unfold secp256k1_gej_is_infinity. destruct P as [|x y]; [exact (proj2 (proj2 H))|].
  now destruct (rep_finite _ _ _ H) as (_ & -> & _).
Qed.

Lemma is_inf_true P : is_inf P = true <-> P = Inf.
Proof. destruct P; cbn [is_inf]; split; congruence. Qed.

Lemma commitment_save_ok a P : ge_rep a P -> P <> Inf ->
  secp256k1_pedersen_commitment_save a = quad_bytes 9 P.
Proof.
  intros Ha HP. destruct P as [|x y]; [contradiction|].
  destruct (ge_finite _ _ _ Ha) as (Hc & _ & Kx & Ky).
  destruct (coord_norm _ 8 x Kx eq_refl (proj1 Hc)) as [Nx Vx].
  unfold secp256k1_pedersen_commitment_save, quad_bytes.
  rewrite (is_quad_spec _ y Ky), (fe_get_b32_ok _ Nx), Vx. now destruct (squareb y).
Qed.

(** Saving the finite sum of a computation, which the three callers end with. *)
Lemma save_result rj P : gej_rep rj P -> P <> Inf ->
  (let '(r, _) := secp256k1_ge_set_gej rj in
   Api true (Some (secp256k1_pedersen_commitment_save r)) []) = Api true (Some (quad_bytes 9 P)) [].
Proof.
  intros R HP. destruct (set_gej_rep _ _ R) as [R' _]. destruct (secp256k1_ge_set_gej rj) as [q qj].
  now rewrite (commitment_save_ok q P R' HP).
Qed.

Definition commit_point (blind : bytes) (value : Z) (H : point) : point :=
  padd (smul (be_val blind) G_point) (smul value H).

Lemma commit_spec ctx c0 blind value gen H : gen_ctx_ok (ecmult_gen_ctx ctx) -> is_b32 blind ->
  0 <= value < 2 ^ 64 -> ge_rep (secp256k1_generator_load gen) H -> H <> Inf ->
  secp256k1_pedersen_commit ctx (Some c0) (Some blind) value (Some gen) =
  if (n_order <=? be_val blind) || is_inf (commit_point blind value H) then Api false (Some c0) []
  else Api true (Some (quad_bytes 9 (commit_point blind value H))) [].
Proof.
  intros HG [Lb Bb] Hv Hg HH. unfold secp256k1_pedersen_commit. rewrite (gc_built _ HG).
  cbn [ARG_CHECK]. unfold ARG_CHECK. pose proof (s_set_b32_ok blind Bb Lb) as S.
  destruct (s_set_b32 blind) as [s o]. destruct S as (Ok & V & ->).
  destruct (n_order <=? be_val blind); [reflexivity|]. cbn [orb].
  pose proof (pedersen_ecmult_rep _ s value _ H HG Ok Hv Hg HH) as R. rewrite V, smul_mod in R.
  fold (commit_point blind value H) in R. rewrite (is_infinity_spec _ _ R).
  destruct (is_inf (commit_point blind value H)) eqn:I; [reflexivity|].
  apply save_result; [exact R|]. intros E. rewrite E in I. discriminate I.
Qed.

(** A commitment stands for a point: it is the serialisation of one. *)
Definition commits_to (c : secp256k1_pedersen_commitment) (P : point) : Prop :=
  P <> Inf /\ ge_rep (secp256k1_pedersen_commitment_load c) P.

Lemma commits_quad P : on_curve P -> P <> Inf -> commits_to (quad_bytes 9 P) P.
Proof. intros Hc HP. split; [exact HP|]. exact (load_quad_bytes 9 P eq_refl Hc HP). Qed.

(** ** Sums *)

Lemma commit_add_loop_rep cs Ps : Forall2 commits_to cs Ps -> forall a Q, gej_rep a Q ->
  gej_rep (commit_add_loop a cs) (fold_left padd Ps Q).
Proof.
  induction 1 as [|c P cs Ps [_ H] _ IH]; intros a Q Ha; [exact Ha|].
  apply IH. exact (proj1 (add_ge_var_rep a a _ _ _ (proj1 Ha) Ha H)).
Qed.

Lemma fold_padd Ps : Forall on_curve Ps -> forall Q, on_curve Q ->
  fold_left padd Ps Q = padd Q (psum Ps) /\ on_curve (psum Ps).
Proof.
  unfold psum. induction 1 as [|P Ps HP _ IH]; intros Q HQ; cbn [fold_left].
  - split; [now rewrite padd_inf_r|exact I].
  - destruct (IH (padd Q P) ltac:(oc)) as [E1 C1]. destruct (IH (padd Inf P) ltac:(oc)) as [E2 _].
    rewrite E1, E2. cbn [padd] in *. split; [apply padd_assoc; assumption|oc].
Qed.

Lemma psum_cons P Ps : on_curve P -> Forall on_curve Ps -> psum (P :: Ps) = padd P (psum Ps).
Proof. intros HP H. exact (proj1 (fold_padd Ps H P HP)). Qed.

Lemma commits_curve cs Ps : Forall2 commits_to cs Ps -> Forall on_curve Ps.
Proof. induction 1 as [|c P cs Ps [_ H] _ IH]; constructor; [exact (proj1 (proj2 H))|exact IH]. Qed.

Lemma psum_curve Ps : Forall on_curve Ps -> on_curve (psum Ps).
Proof. intros H. exact (proj2 (fold_padd Ps H Inf I)). Qed.

Lemma commit_diff_rep cs ns Ps Ns : Forall2 commits_to cs Ps -> Forall2 commits_to ns Ns ->
  gej_rep (commit_diff cs (length cs) ns (length ns)) (padd (pneg (psum Ns)) (psum Ps)).
Proof.
  intros HP HN. unfold commit_diff. rewrite !firstn_all.
  pose proof (commit_add_loop_rep ns Ns HN _ Inf (conj (set_infinity_mags junk) (conj I eq_refl))) as R.
  apply gej_neg_rep in R. pose proof (commit_add_loop_rep cs Ps HP _ _ R) as R'.
  pose proof (psum_curve Ns (commits_curve _ _ HN)) as CN.
  fold (psum Ns) in R'.
  rewrite (proj1 (fold_padd Ps (commits_curve _ _ HP) _ (pneg_on_curve _ CN))) in R'. exact R'.
Qed.

Lemma pneg_add_inf N P : on_curve N -> on_curve P -> padd (pneg N) P = Inf <-> P = N.
Proof.
  intros HN HP. split; [|intros ->; rewrite padd_comm by oc; apply padd_neg].
  intros E. assert (A : padd N (padd (pneg N) P) = N) by (rewrite E; apply padd_inf_r).
  rewrite <- padd_assoc, padd_neg in A by oc. exact A.
Qed.

Lemma counted_some {A} (l : list A) : counted (length l) (Some l) = true.
Proof. apply orb_true_r. Qed.

Lemma verify_tally_spec ctx cs ns Ps Ns : Forall2 commits_to cs Ps -> Forall2 commits_to ns Ns ->
  let r := secp256k1_pedersen_verify_tally ctx (Some cs) (length cs) (Some ns) (length ns) in
  illegal r = [] /\ (ret r = true <-> psum Ps = psum Ns).
Proof.
  intros HP HN. unfold secp256k1_pedersen_verify_tally, ARG_CHECK. rewrite !counted_some.
  cbn [ret illegal array]. split; [reflexivity|].
  rewrite (is_infinity_spec _ _ (commit_diff_rep cs ns Ps Ns HP HN)), is_inf_true.
  apply pneg_add_inf; apply psum_curve; eapply commits_curve; eassumption.
Qed.

Lemma commit_sum_spec ctx c0 cs ns Ps Ns : Forall2 commits_to cs Ps -> Forall2 commits_to ns Ns ->
  let S := padd (pneg (psum Ns)) (psum Ps) in
  secp256k1_pedersen_commit_sum ctx (Some c0) (Some cs) (length cs) (Some ns) (length ns)
  = if is_inf S then Api false (Some c0) [] else Api true (Some (quad_bytes 9 S)) [].
Proof.
  intros HP HN S. unfold secp256k1_pedersen_commit_sum, ARG_CHECK. rewrite !counted_some.
  cbn [not_null array]. pose proof (commit_diff_rep cs ns Ps Ns HP HN) as R. fold S in R.
  rewrite (is_infinity_spec _ _ R). destruct (is_inf S) eqn:I; [reflexivity|].
  apply save_result; [exact R|]. intros E. rewrite E in I. discriminate I.
Qed.

(** ** Openings *)

(** The commitments to the openings of a list, each a blinding factor and a
    value, with the generator that stands for [H]. *)
Definition sum_blinds (l : list (bytes * Z)) : Z := fold_right Z.add 0 (map (fun o => be_val (fst o)) l).
Definition sum_values (l : list (bytes * Z)) : Z := fold_right Z.add 0 (map snd l).

Definition opening_points (H : point) (l : list (bytes * Z)) : list point :=
  map (fun '(b, v) => commit_point b v H) l.

Lemma openings_curve H l : on_curve H -> Forall on_curve (opening_points H l).
Proof.
  intros HH. induction l as [|[b v] l IH]; constructor; [unfold commit_point; oc|exact IH].
Qed.

Lemma psum_openings H l : on_curve H -> psum (opening_points H l)
  = padd (smul (sum_blinds l) G_point) (smul (sum_values l) H).
Proof.
  intros HH. induction l as [|[b v] l IH]; [reflexivity|]. unfold opening_points. cbn [map].
  rewrite psum_cons by (apply openings_curve || unfold commit_point; oc || exact HH).
  fold (opening_points H l). rewrite IH. unfold commit_point, sum_blinds, sum_values.
  cbn [map fold_right fst snd]. rewrite !smul_add by oc. apply padd_pairs; oc.
Qed.

(** Commitment [c] was made for the opening [o] under the generator. *)
Definition committed (ctx : secp256k1_context) (gen : secp256k1_generator) (o : bytes * Z)
    (c : secp256k1_pedersen_commitment) : Prop :=
  is_b32 (fst o) /\ 0 <= snd o < 2 ^ 64 /\
  exists c0, secp256k1_pedersen_commit ctx (Some c0) (Some (fst o)) (snd o) (Some gen)
    = Api true (Some c) [].

Section Openings.
Context (ctx : secp256k1_context) (gen : secp256k1_generator) (H : point).
Context (HG : gen_ctx_ok (ecmult_gen_ctx ctx)).
Context (Hgen : ge_rep (secp256k1_generator_load gen) H) (HH : H <> Inf).

Lemma committed_point o c : committed ctx gen o c -> commits_to c (commit_point (fst o) (snd o) H).
Proof.
  intros (Hb & Hv & c0 & E). rewrite (commit_spec ctx c0 _ _ gen H HG Hb Hv Hgen HH) in E.
  destruct (_ || _) eqn:B; [discriminate E|]. apply orb_false_iff in B. destruct B as [_ I].
  apply (f_equal out) in E. cbn [out] in E. injection E as <-.
  apply commits_quad.
  - pose proof (proj1 (proj2 Hgen)). unfold commit_point. oc.
  - intros E. rewrite E in I. discriminate I.
Qed.

Lemma committed_points l cs : Forall2 (committed ctx gen) l cs ->
  Forall2 commits_to cs (opening_points H l).
Proof.
  induction 1 as [|[b v] c l cs Hc _ IH]; constructor; [exact (committed_point _ _ Hc)|exact IH].
Qed.

End Openings.

End Pedersen.

(** ** Blinding factors *)

Section Blinds.
Context {F : FieldImpl} {SI : ScalarImpl}.

Definition zsum {A} (f : A -> Z) (l : list A) : Z := fold_right Z.add 0 (map f l).

Lemma zsum_app {A} (f : A -> Z) l m : zsum f (l ++ m) = zsum f l + zsum f m.
Proof.
  unfold zsum. induction l as [|x l IH]; [reflexivity|]. cbn [app map fold_right].
  rewrite IH. apply Z.add_assoc.
Qed.

Lemma zsum_cons {A} (f : A -> Z) x l : zsum f (x :: l) = f x + zsum f l.
Proof. reflexivity. Qed.

Lemma zsum_ext {A} (f g : A -> Z) l : (forall x, In x l -> f x = g x) -> zsum f l = zsum g l.
Proof. intros E. unfold zsum. now rewrite (map_ext_in f g l E). Qed.

Lemma b32_read l : is_b32 l -> let '(s, o) := s_set_b32 l in
  o = (n_order <=? be_val l) /\ (o = false -> sok s /\ sval s = be_val l).
Proof.
  intros [L B]. pose proof (s_set_b32_ok l B L) as S. destruct (s_set_b32 l) as [s o].
  destruct S as (Ok & V & ->). split; [reflexivity|]. intros E. apply Z.leb_gt in E.
  split; [exact Ok|]. rewrite V. apply Z.mod_small. split; [now apply be_val_range|exact E].
Qed.

Lemma sum_values_range junk junk_ints ctx gen l cs :
  Forall2 (committed junk junk_ints ctx gen) l cs ->
  0 <= sum_values l <= Z.of_nat (length l) * 2 ^ 64.
Proof.
  unfold sum_values. induction 1 as [|[b v] c l cs (_ & Hv & _) _ IH]; cbn [map fold_right length snd] in *; lia.
Qed.

(** Two sums of commitments are one point exactly when this holds. *)
Lemma sums_equal H b v b' v' : on_curve H ->
  padd (smul b G_point) (smul v H) = padd (smul b' G_point) (smul v' H) <->
  smul (b - b') G_point = smul (v' - v) H.
Proof.
  intros HC. destruct (all_multiples H HC) as (h & _ & ->).
  rewrite !smul_smul, <- !smul_add by oc.
  split; intros E; apply smul_inj in E; apply smul_cong; destruct E as [q E]; exists q; lia.
Qed.

Lemma values_cancel H v v' : on_curve H -> H <> Inf -> smul (v' - v) H = Inf <-> v =[n_order]= v'.
Proof.
  intros HC HH. destruct (all_multiples H HC) as (h & Rh & E). rewrite E in *.
  rewrite smul_smul by oc. apply finite_multiplier in HH.
  rewrite smul_zero_iff. split.
  - intros D. assert (D' : (n_order | (v' - v) * h)) by (destruct D as [q D]; exists q; lia).
    apply Z.divide_prime_mul in D'; [|exact prime_n]. destruct D' as [[q D']|D'].
    + exists (- q). lia.
    + apply Z.mod_divide in D'; [contradiction|discriminate].
  - intros [q D]. exists (- q * h). nia.
Qed.
(** The sum the loop adds, the first [npositive - i] of the list with a plus. *)
Fixpoint signed_sum (blinds : list bytes) (i npositive : Z) : Z :=
  match blinds with
  | [] => 0
  | b :: blinds => (if npositive <=? i then - be_val b else be_val b) + signed_sum blinds (i + 1) npositive
  end.

Lemma signed_sum_split blinds i np : 0 <= i ->
  signed_sum blinds i np = zsum be_val (firstn (Z.to_nat (np - i)) blinds)
    - zsum be_val (skipn (Z.to_nat (np - i)) blinds).
Proof.
  revert i. induction blinds as [|b blinds IH]; intros i Hi; cbn [signed_sum].
  - now rewrite firstn_nil, skipn_nil.
  - rewrite (IH (i + 1)) by lia. destruct (Z.leb_spec np i).
    + replace (Z.to_nat (np - (i + 1))) with 0%nat by lia. replace (Z.to_nat (np - i)) with 0%nat by lia. cbn [firstn skipn]. rewrite !zsum_cons. unfold zsum at 1 3. cbn. lia.
    + replace (Z.to_nat (np - i)) with (S (Z.to_nat (np - (i + 1)))) by lia.
      cbn [firstn skipn]. rewrite zsum_cons. lia.
Qed.

Definition too_big (b : bytes) : bool := n_order <=? be_val b.

Lemma blind_sum_loop_spec blinds np : Forall is_b32 blinds -> forall i acc, sok acc ->
  match blind_sum_loop blinds i np acc with
  | None => existsb too_big blinds = true
  | Some r => existsb too_big blinds = false /\ sok r /\
      sval r =[n_order]= sval acc + signed_sum blinds i np
  end.
Proof.
  induction 1 as [|b blinds Hb _ IH]; intros i acc Ha; cbn [blind_sum_loop existsb signed_sum].
  - split; [reflexivity|]. split; [exact Ha|]. apply cong_eq. ring.
  - pose proof (b32_read b Hb) as R. destruct (s_set_b32 b) as [x o]. destruct R as [-> R].
    fold (too_big b) in *. destruct (too_big b); [reflexivity|]. destruct (R eq_refl) as [Ox Vx].
    set (x' := if np <=? i then s_negate x else x).
    assert (X : sok x' /\ sval x' =[n_order]= if np <=? i then - be_val b else be_val b).
    { unfold x'. destruct (np <=? i); [|rewrite Vx; split; [exact Ox|reflexivity]].
      destruct (s_negate_ok x Ox) as [On Vn]. split; [exact On|]. rewrite Vn, Vx. apply cong_mod. }
    destruct X as [Ox' Vx']. pose proof (s_add_ok acc x' Ha Ox') as A.
    destruct (s_add acc x') as [acc' ov]. destruct A as (Oa & Va & _).
    pose proof (IH (i + 1) acc' Oa) as L. destruct (blind_sum_loop blinds (i + 1) np acc'); [|exact L].
    destruct L as (E & Or & Vr). split; [exact E|]. split; [exact Or|].
    rewrite Vr, Va, cong_mod, Vx'. apply cong_eq. ring.
Qed.

Lemma blind_sum_spec ctx buf blinds np : Forall is_b32 blinds -> 0 <= np <= Z.of_nat (length blinds) ->
  secp256k1_pedersen_blind_sum ctx (Some buf) (Some blinds) (length blinds) np =
  if existsb too_big blinds then Api false (Some buf) []
  else Api true (Some (be_bytes 32 ((zsum be_val (firstn (Z.to_nat np) blinds)
    - zsum be_val (skipn (Z.to_nat np) blinds)) mod n_order))) [].
Proof.
  intros Hb Hnp. unfold secp256k1_pedersen_blind_sum, ARG_CHECK.
  rewrite (proj2 (Z.leb_le _ _) (proj2 Hnp)), firstn_all.
  destruct (s_set_int_ok 0 ltac:(lia)) as [O0 V0].
  pose proof (blind_sum_loop_spec blinds np Hb 0 _ O0) as L.
  destruct (blind_sum_loop blinds 0 np (s_set_int 0)) as [r|]; [|now rewrite L].
  destruct L as (-> & Or & Vr). rewrite (s_get_b32_ok r Or). do 3 f_equal.
  rewrite V0, signed_sum_split, Z.add_0_l, Z.sub_0_r in Vr by lia.
  f_equal. exact (cong_mod_small _ _ _ Vr (sok_range r Or)).
Qed.

(** Entry [i]: the value times the blinding of its generator, plus its own
    blinding factor. *)
Definition entry (value : list Z) (gb bf : list bytes) (i : nat) : Z :=
  nth i value 0 * be_val (nth i gb []) + be_val (nth i bf []).

Definition entry_big (gb bf : list bytes) (i : nat) : bool :=
  too_big (nth i gb []) || too_big (nth i bf []).

Definition entry_ok (value : list Z) (gb bf : list bytes) (i : nat) : Prop :=
  0 <= nth i value 0 < 2 ^ 64 /\ is_b32 (nth i gb []) /\ is_b32 (nth i bf []).

Definition signed_entry (value : list Z) (gb bf : list bytes) (n_inputs i : nat) : Z :=
  if Nat.ltb i n_inputs then - entry value gb bf i else entry value gb bf i.

Lemma generator_blind_loop_spec value gb bf n_inputs n : forall i sum tmp,
  (forall k, In k (seq i n) -> entry_ok value gb bf k) -> sok sum ->
  match generator_blind_loop value gb bf n i n_inputs sum tmp with
  | None => existsb (entry_big gb bf) (seq i n) = true
  | Some (sum', tmp') => existsb (entry_big gb bf) (seq i n) = false /\ sok sum' /\
      sval sum' =[n_order]= sval sum + zsum (signed_entry value gb bf n_inputs) (seq i n) /\
      match n with O => tmp' = tmp | S m => sok tmp' /\ sval tmp' = be_val (nth (i + m) bf []) end
  end.
Proof.
  induction n as [|n IH]; intros i sum tmp Hk Hs; cbn [generator_blind_loop seq existsb].
  { split; [reflexivity|]. split; [exact Hs|]. split; [|reflexivity].
    unfold zsum. cbn [map fold_right]. now rewrite Z.add_0_r. }
  destruct (Hk i (or_introl eq_refl)) as (Hv & Hg & Hf). change (entry_big gb bf i) with (too_big (nth i gb []) || too_big (nth i bf [])).
  pose proof (b32_read _ Hg) as R. destruct (s_set_b32 (nth i gb [])) as [r o]. destruct R as [-> R].
  fold (too_big (nth i gb [])) in *. destruct (too_big (nth i gb [])); [reflexivity|].
  destruct (R eq_refl) as [Or Vr]. clear R.
  pose proof (b32_read _ Hf) as R. destruct (s_set_b32 (nth i bf [])) as [f o]. destruct R as [-> R].
  fold (too_big (nth i bf [])) in *. destruct (too_big (nth i bf [])); [reflexivity|].
  destruct (R eq_refl) as [Of Vf]. clear R. cbn [orb].
  destruct (s_set_u64_ok _ Hv) as [Ov Vv]. destruct (s_mul_ok _ _ Ov Or) as [Om Vm].
  pose proof (s_add_ok _ f Om Of) as A. destruct (s_add _ f) as [a oa]. destruct A as (Oa & Va & _).
  pose proof (s_cond_negate_ok a (Nat.ltb i n_inputs) Oa) as C.
  destruct (s_cond_negate a _) as [c oc']. destruct C as (Oc & Vc & _).
  pose proof (s_add_ok sum c Hs Oc) as A. destruct (s_add sum c) as [s' os]. destruct A as (Os' & Vs' & _).
  assert (E : sval c =[n_order]= signed_entry value gb bf n_inputs i).
  { assert (Ea : sval a =[n_order]= entry value gb bf i)
      by (rewrite Va, cong_mod, Vm, cong_mod, Vv, Vr, Vf; reflexivity).
    rewrite Vc. unfold signed_entry. destruct (Nat.ltb i n_inputs); [|exact Ea].
    now rewrite cong_mod, Ea. }
  pose proof (IH (S i) s' f (fun k Hin => Hk k (or_intror Hin)) Os') as L.
  destruct (generator_blind_loop value gb bf n (S i) n_inputs s' f) as [[sum' tmp']|]; [|exact L].
  destruct L as (Ex & O1 & V1 & V2). refine (conj Ex (conj O1 (conj _ _))).
  - rewrite V1, Vs', cong_mod, E, zsum_cons. apply cong_eq. ring.
  - destruct n as [|n]; [subst tmp'; rewrite Nat.add_0_r; exact (conj Of Vf)|].
    replace (i + S n)%nat with (S i + n)%nat by lia. exact V2.
Qed.

(** The new last factor. *)
Definition last_factor (value : list Z) (gb bf : list bytes) (n_total n_inputs : nat) : bytes :=
  be_bytes 32 ((be_val (nth (n_total - 1) bf [])
    - zsum (signed_entry value gb bf n_inputs) (seq 0 n_total)) mod n_order).

Lemma generator_blind_spec tmp0 ctx value gb bf n_total n_inputs :
  (forall k, (k < n_total)%nat -> entry_ok value gb bf k) -> (n_inputs < n_total)%nat ->
  secp256k1_pedersen_blind_generator_blind_sum tmp0 ctx (Some value) (Some gb) (Some bf) n_total n_inputs
  = if existsb (entry_big gb bf) (seq 0 n_total) then Api false (Some bf) []
    else Api true (Some (upd bf (n_total - 1) (last_factor value gb bf n_total n_inputs))) [].
Proof.
  intros Hk Hn. unfold secp256k1_pedersen_blind_generator_blind_sum, ARG_CHECK.
  cbn [not_null array]. rewrite !orb_true_r, (proj2 (Nat.ltb_lt _ _) Hn).
  replace (Nat.eqb n_total 0) with false by (symmetry; apply Nat.eqb_neq; lia).
  destruct (s_set_int_ok 0 ltac:(lia)) as [O0 V0].
  pose proof (generator_blind_loop_spec value gb bf n_inputs n_total 0 (s_set_int 0) tmp0
    (fun k Hin => Hk k (proj2 (proj1 (in_seq n_total 0 k) Hin))) O0) as L.
  destruct (generator_blind_loop _ _ _ _ _ _ _ _) as [[sum tmp]|]; [|now rewrite L].
  destruct L as (-> & Os & Vs & Vt). destruct n_total as [|m]; [lia|]. destruct Vt as [Ot Vt].
  rewrite Nat.add_0_l in Vt.
  destruct (s_negate_ok sum Os) as [On Vn]. pose proof (s_add_ok tmp _ Ot On) as A.
  destruct (s_add tmp _) as [r o]. destruct A as (Or & Vr & _).
  rewrite (s_get_b32_ok r Or). unfold last_factor. replace (S m - 1)%nat with m by lia.
  do 4 f_equal. apply (cong_mod_small n_order); [|exact (sok_range r Or)].
  rewrite Vr, cong_mod, Vn, cong_mod, Vs, V0, Vt. apply cong_eq. ring.
Qed.

(** ** What the last factor is for *)

Lemma entries_input value gb bf n k : (k <= n)%nat ->
  zsum (signed_entry value gb bf n) (seq 0 k) = - zsum (entry value gb bf) (seq 0 k).
Proof.
  induction k as [|k IH]; intros Hk; [reflexivity|].
  rewrite seq_S, !zsum_app, IH by lia. cbn [Nat.add]. rewrite !zsum_cons.
  change (zsum (signed_entry value gb bf n) []) with 0. change (zsum (entry value gb bf) []) with 0.
  unfold signed_entry. rewrite (proj2 (Nat.ltb_lt k n)) by lia. lia.
Qed.

Lemma entries_output value gb bf n m :
  zsum (signed_entry value gb bf n) (seq n m) = zsum (entry value gb bf) (seq n m).
Proof.
  apply zsum_ext. intros x Hx. apply in_seq in Hx. unfold signed_entry.
  now rewrite (proj2 (Nat.ltb_ge x n)) by lia.
Qed.

(** Replacing the last factor changes the last entry only. *)
Lemma entries_upd value gb bf n m b : (n + m < length bf)%nat ->
  zsum (entry value gb (upd bf (n + m) b)) (seq 0 n) = zsum (entry value gb bf) (seq 0 n) /\
  zsum (entry value gb (upd bf (n + m) b)) (seq n (S m)) =
    zsum (entry value gb bf) (seq n (S m)) - be_val (nth (n + m) bf []) + be_val b.
Proof.
  intros L. assert (E : forall k, (k < n + m)%nat -> entry value gb (upd bf (n + m) b) k = entry value gb bf k).
  { intros k Hk. unfold entry. rewrite nth_upd by lia.
    now rewrite (proj2 (Nat.eqb_neq (n + m) k)) by lia. }
  split.
  - apply zsum_ext. intros k Hk. apply in_seq in Hk. apply E. lia.
  - rewrite seq_S, !zsum_app, !zsum_cons. rewrite (zsum_ext _ (entry value gb bf)).
    2: { intros k Hk. apply in_seq in Hk. apply E. lia. }
    assert (N : entry value gb (upd bf (n + m) b) (n + m)
      = entry value gb bf (n + m) - be_val (nth (n + m) bf []) + be_val b)
      by (unfold entry; rewrite nth_upd, Nat.eqb_refl by lia; lia).
    rewrite N. change (zsum (entry value gb (upd bf (n + m) b)) []) with 0.
    change (zsum (entry value gb bf) []) with 0. lia.
Qed.

Lemma generator_blind_balance value gb bf n m : (n + m < length bf)%nat ->
  let bf' := upd bf (n + m) (last_factor value gb bf (n + S m) n) in
  zsum (entry value gb bf') (seq 0 n) =[n_order]= zsum (entry value gb bf') (seq n (S m)).
Proof.
  intros L bf'. unfold bf'.
  destruct (entries_upd value gb bf n m (last_factor value gb bf (n + S m) n) L) as [-> ->].
  unfold last_factor. rewrite seq_app, zsum_app, entries_input, Nat.add_0_l, entries_output by lia.
  replace (n + S m - 1)%nat with (n + m)%nat by lia.
  rewrite be_val_bytes, (Z.mod_small (_ mod n_order)).
  2: { pose proof (Z.mod_pos_bound (be_val (nth (n + m) bf []) - (- zsum (entry value gb bf) (seq 0 n)
      + zsum (entry value gb bf) (seq n (S m)))) n_order eq_refl). unfold n_order in *.
    change (256 ^ Z.of_nat 32) with (2 ^ 256). lia. }
  rewrite cong_mod. apply cong_eq. ring.
Qed.

(** The commitments of the entries, each to a generator that is the asset's point
    blinded with a multiple of G. *)
Definition asset_points (A : point) (value : list Z) (gb bf : list bytes) (l : list nat) : list point :=
  map (fun i => commit_point (nth i bf []) (nth i value 0)
    (padd A (smul (be_val (nth i gb [])) G_point))) l.

Lemma asset_commit A b v r : on_curve A ->
  commit_point b v (padd A (smul r G_point)) = padd (smul (v * r + be_val b) G_point) (smul v A).
Proof.
  intros HA. unfold commit_point. rewrite smul_padd, smul_smul, smul_add by oc.
  rewrite (padd_comm (smul v A)), <- padd_assoc by oc.
  now rewrite (padd_comm (smul (be_val b) G_point)) by oc.
Qed.

Lemma psum_assets A value gb bf l : on_curve A -> psum (asset_points A value gb bf l)
  = padd (smul (zsum (entry value gb bf) l) G_point) (smul (zsum (fun i => nth i value 0) l) A).
Proof.
  intros HA. induction l as [|i l IH]; [reflexivity|]. unfold asset_points. cbn [map].
  rewrite psum_cons.
  2: { unfold commit_point. oc. }
  2: { apply Forall_forall. intros P HP. apply in_map_iff in HP. destruct HP as (k & <- & _).
       unfold commit_point. oc. }
  fold (asset_points A value gb bf l). rewrite IH, !zsum_cons, asset_commit by exact HA.
  fold (entry value gb bf i). rewrite !smul_add by oc. apply padd_pairs; oc.
Qed.

End Blinds.
