(* ===== verification/PedersenProperties.v ===== *)
(** * What commitments are good for

    The properties of Pedersen.v, with concrete instances. *)
From Stdlib Require Import String.
From S2P Require Import Field5x52 Scalar4x64.
From S2P Require Import Prelude Primes FieldSpec Field ScalarSpec Scalar Sha256Spec Hash.
From S2P Require Import CurveSpec CurveGroup CurveOrder CurveCount Residue Svdw Group.
From S2P Require Import Ecmult EcmultGen EcmultConst EcmultProperties Ecdsa Eckey Der Api.
From S2P Require Import EcdsaProperties ApiProperties Generator Pedersen.

Section Facts.
Context {F : FieldImpl} {SI : ScalarImpl}.

Lemma quad_bytes_9 P : P <> Inf -> length (quad_bytes 9 P) = 33%nat /\
  (at_ (quad_bytes 9 P) 0 .& 0xFE) = 8.
Proof.
  destruct P as [|x y]; [contradiction|]. intros _. unfold quad_bytes.
  split; [cbn [length]; now rewrite length_be_bytes|].
  unfold at_. change (Z.to_nat 0) with 0%nat. cbn [nth]. now destruct (squareb y).
Qed.

Lemma effective_period s : const_effective (s + 2 ^ 68) 64 = const_effective s 64.
Proof.
  unfold const_effective. change (128 <? 64) with false. cbv zeta.
  change (16 ^ (WNAF_SIZE 64 4 + 1)) with (2 ^ 68).
  replace (Z.even (s + 2 ^ 68)) with (Z.even s) by (rewrite Z.even_add; now destruct (Z.even s)).
  f_equal. set (k := if Z.even s then 1 else 2). replace (s + 2 ^ 68 + k) with (s + k + 1 * 2 ^ 68) by ring.
  apply Z.mod_add. discriminate.
Qed.

Lemma effective_id s : 0 <= s -> s + 2 < 2 ^ 68 -> const_effective s 64 = s.
Proof.
  intros H0 H. unfold const_effective. change (128 <? 64) with false. cbv zeta.
  change (16 ^ (WNAF_SIZE 64 4 + 1)) with (2 ^ 68).
  rewrite Z.mod_small by (destruct (Z.even s); lia). lia.
Qed.

(** Adding commitments. The result is the commitment to the first sum less the
    second, 0 being returned when that is the infinite point; with the result
    on the other side the tally accepts. *)
Theorem pedersen_commit_sum_balances junk ctx c0 cs ns Ps Ns :
  Forall2 commits_to cs Ps -> Forall2 commits_to ns Ns ->
  let S := padd (pneg (psum Ns)) (psum Ps) in
  secp256k1_pedersen_commit_sum junk ctx (Some c0) (Some cs) (length cs) (Some ns) (length ns)
    = (if is_inf S then Api false (Some c0) [] else Api true (Some (quad_bytes 9 S)) []) /\
  (S <> Inf -> ret (secp256k1_pedersen_verify_tally junk ctx (Some cs) (length cs)
     (Some (quad_bytes 9 S :: ns)) (length (quad_bytes 9 S :: ns))) = true).
Proof.
  intros HP HN S. split; [exact (commit_sum_spec junk ctx c0 cs ns Ps Ns HP HN)|]. intros HS.
  pose proof (psum_curve Ps (commits_curve _ _ HP)) as CP.
  pose proof (psum_curve Ns (commits_curve _ _ HN)) as CN.
  assert (CS : on_curve S) by (unfold S; oc).
  destruct (verify_tally_spec junk ctx cs (quad_bytes 9 S :: ns) Ps (S :: Ns) HP
    (Forall2_cons _ _ (commits_quad S CS HS) HN)) as [_ E].
  apply E. rewrite psum_cons by (exact CS || exact (commits_curve _ _ HN)). unfold S.
  rewrite (padd_comm (pneg _)), padd_assoc, (padd_comm (pneg _)), padd_neg by oc. symmetry. apply padd_inf_r.
Qed.

(** C20: the balancing factor. The result is a scalar that, counted with the second part
    of the list, makes both parts equal modulo the group order; a factor that is
    not below the order gives 0 and no output. *)
Theorem pedersen_blind_sum_balances ctx buf blinds np : Forall is_b32 blinds ->
  (np <= length blinds)%nat ->
  let r := secp256k1_pedersen_blind_sum ctx (Some buf) (Some blinds) (length blinds) (Z.of_nat np) in
  (existsb too_big blinds = true -> r = Api false (Some buf) []) /\
  (existsb too_big blinds = false -> exists x, r = Api true (Some x) [] /\ is_b32 x /\
     be_val x < n_order /\
     zsum be_val (firstn np blinds) =[n_order]= zsum be_val (skipn np blinds) + be_val x).
Proof.
  intros Hb Hn. cbv zeta. rewrite (blind_sum_spec ctx buf blinds (Z.of_nat np) Hb) by lia.
  rewrite Nat2Z.id. split; intros ->; [reflexivity|]. eexists. split; [reflexivity|].
  set (d := zsum be_val (firstn np blinds) - zsum be_val (skipn np blinds)).
  pose proof (Z.mod_pos_bound d n_order eq_refl) as R.
  assert (V : be_val (be_bytes 32 (d mod n_order)) = d mod n_order).
  { rewrite be_val_bytes. apply Z.mod_small. unfold n_order in *.
    change (256 ^ Z.of_nat 32) with (2 ^ 256). lia. }
  split; [split; [apply length_be_bytes|apply be_bytes_byte]|]. rewrite V. split; [lia|].
  rewrite cong_mod. apply cong_eq. unfold d. ring.
Qed.

(** Blinded generators. After the call the sum of (value times generator blinding plus
    blinding factor) is the same modulo the group order for the inputs and for
    the outputs; so the points of the commitments differ only by the difference
    of the values, whatever the asset. A factor that is not below the order
    gives 0 and changes nothing. *)
Theorem pedersen_generator_blind_balances tmp0 ctx value gb bf n m :
  (forall k, (k < n + S m)%nat -> entry_ok value gb bf k) -> (n + m < length bf)%nat ->
  let r := secp256k1_pedersen_blind_generator_blind_sum tmp0 ctx (Some value) (Some gb) (Some bf)
    (n + S m) n in
  (existsb (entry_big gb bf) (seq 0 (n + S m)) = true -> r = Api false (Some bf) []) /\
  (existsb (entry_big gb bf) (seq 0 (n + S m)) = false -> exists bf',
     r = Api true (Some bf') [] /\ length bf' = length bf /\
     (forall k, k <> (n + m)%nat -> nth k bf' [] = nth k bf []) /\
     zsum (entry value gb bf') (seq 0 n) =[n_order]= zsum (entry value gb bf') (seq n (S m)) /\
     forall A, on_curve A ->
       psum (asset_points A value gb bf' (seq n (S m)))
       = padd (psum (asset_points A value gb bf' (seq 0 n)))
           (smul (zsum (fun i => nth i value 0%Z) (seq n (S m))
                  - zsum (fun i => nth i value 0%Z) (seq 0 n)) A)).
Proof.
  intros Hk L. cbv zeta. rewrite (generator_blind_spec tmp0 ctx value gb bf (n + S m) n Hk) by lia.
  split; intros ->; [reflexivity|]. eexists. split; [reflexivity|].
  replace (n + S m - 1)%nat with (n + m)%nat by lia.
  pose proof (generator_blind_balance value gb bf n m L) as B. cbv zeta in B. revert B.
  generalize (last_factor value gb bf (n + S m) n). intros b B.
  split; [apply length_upd|]. split.
  - intros k Hn. rewrite nth_upd by exact L. now rewrite (proj2 (Nat.eqb_neq (n + m) k)) by lia.
  - split; [exact B|]. intros A HA. rewrite !psum_assets by exact HA.
    rewrite padd_assoc, <- smul_add by oc. rewrite (smul_cong _ _ B). do 2 f_equal. lia.
Qed.

(** The points of the two constant generators. *)
Definition H_point : point := Aff
  0x50929b74c1a04954b78b4b6035e97a5e078a5a0f28ec96d547bfee9ace803ac0
  0x31d3c6863973926e049e637cb1b5f40a36dac28af1766968c30c2313f3a38904.

Definition J_point : point := Aff
  0xb860f56795fc03f3c21685383d1b5a2f2954f49b7e398b8d2a0193933621155f
  0xa43f09d32caa8f53423f427403a56a3165a5a69a74cf56fc5901a2dca6c5c43a.

(** A root of minus the ordinate shows that it is not a square. *)
Lemma not_square_by y s : negb (y mod p =? 0) && ((s * s + y) mod p =? 0) = true -> squareb y = false.
Proof.
  rewrite andb_true_iff, negb_true_iff, Z.eqb_neq, Z.eqb_eq. intros [Hy E].
  apply squareb_false. apply (square_opp y Hy). exists s. apply cong_0 in E.
  destruct E as [q E]. exists q. lia.
Qed.

Lemma HJ_loads : ge_rep (secp256k1_generator_load secp256k1_generator_h_internal) H_point /\
  ge_rep (secp256k1_generator_load secp256k1_generator_j_internal) J_point.
Proof.
  split; apply load_ok.
  - split; [split; [discriminate|reflexivity]|]. split; [split; [discriminate|reflexivity]|].
    apply cong_iff. reflexivity.
  - reflexivity.
  - symmetry. exact (not_square_by 0x31d3c6863973926e049e637cb1b5f40a36dac28af1766968c30c2313f3a38904
      0x5bbcceaf98d765ec4a9383f4084d575f646f85c959be24fdb5c0b8a33b8105a8 eq_refl).
  - split; [split; [discriminate|reflexivity]|]. split; [split; [discriminate|reflexivity]|].
    apply cong_iff. reflexivity.
  - reflexivity.
  - symmetry. exact (not_square_by 0xa43f09d32caa8f53423f427403a56a3165a5a69a74cf56fc5901a2dca6c5c43a
      0x26d2894a698d9e52a6f416e7576426fa376c83d8aa16c1288ed411a9abb3cf7 eq_refl).
Qed.

(** The constant generators. The abscissa of the second generator is the SHA-256 of the
    serialised G, that of the third the SHA-256 of the second's; both load as
    points of the curve.  But their first byte is 0x11 and not 11, so the parser
    does not accept them. *)
Theorem generators_from_hash ctx gen :
  skipn 1 secp256k1_generator_h_internal = fips_sha256 (match G_point with Aff x y => uncompressed x y | Inf => [] end) /\
  skipn 1 secp256k1_generator_j_internal = fips_sha256 (skipn 1 secp256k1_generator_h_internal) /\
  ge_rep (secp256k1_generator_load secp256k1_generator_h_internal) H_point /\
  ge_rep (secp256k1_generator_load secp256k1_generator_j_internal) J_point /\
  secp256k1_generator_parse ctx (Some gen) (Some secp256k1_generator_h_internal) = Api false (Some gen) [] /\
  secp256k1_generator_parse ctx (Some gen) (Some secp256k1_generator_j_internal) = Api false (Some gen) [].
Proof.
  split; [vm_compute; reflexivity|]. split; [vm_compute; reflexivity|].
  split; [exact (proj1 HJ_loads)|]. split; [exact (proj2 HJ_loads)|]. split; reflexivity.
Qed.

(** An abscissa of 0 loads as no point. *)
Lemma load_zero data P : slice data 1 32 = be_bytes 32 0 -> ~ ge_rep (secp256k1_generator_load data) P.
Proof.
  intros E. unfold secp256k1_generator_load. rewrite E.
  pose proof (b32_norm 0 ltac:(split; [lia|reflexivity])) as K.
  destruct (fe_set_b32 (be_bytes 32 0)) as [fx ok]. destruct K as (_ & N & V).
  destruct (set_xquad_spec fx (fmag_le _ _ 8 (fnorm_mag _ N) ltac:(lia))) as (Gx & Gi & _).
  destruct (secp256k1_ge_set_xquad fx) as [g okq]. cbn [fst] in Gx, Gi.
  assert (C : forall g', gx g' = fx -> ginf g' = false -> ~ ge_rep g' P).
  { intros g' E1 E2 (_ & C & Q). destruct P as [|x y]; [congruence|]. destruct Q as (_ & Vx & _).
    apply (x_nonzero x y C). rewrite E1, V in Vx. symmetry. apply in_fp_eq; [split; [lia|reflexivity]|apply C|exact Vx]. }
  destruct (negb _); [|now apply C]. apply C; [exact Gx|exact Gi].
Qed.

Lemma no_point_zero tag : is_byte tag -> quad_point (Z.odd tag) (be_bytes 32 0) = None.
Proof.
  intros Ht. pose (data := tag :: be_bytes 32 0).
  assert (B : Forall is_byte data) by (constructor; [exact Ht|apply be_bytes_byte]).
  assert (L : (33 <= length data)%nat) by (unfold data; cbn [length]; rewrite length_be_bytes; lia).
  assert (E : slice data 1 32 = be_bytes 32 0) by reflexivity.
  destruct (quad_point _ _) as [P|] eqn:Q; [exfalso|reflexivity].
  apply (load_zero data P E), (generator_load_decides data P B L). rewrite E. exact Q.
Qed.

Lemma object_bytes (input : bytes) : Forall is_byte input -> (33 <= length input)%nat ->
  let object := slice input 0 33 in
  Forall is_byte object /\ length object = 33%nat /\ at_ object 0 = at_ input 0 /\
  slice object 1 32 = slice input 1 32.
Proof.
  intros B L. cbv zeta. unfold slice. rewrite skipn_O.
  split; [now apply Forall_firstn|]. split; [rewrite length_firstn; lia|].
  destruct input as [|b input]; [cbn in L; lia|]. rewrite firstn_cons. split; [reflexivity|].
  cbn [skipn]. now rewrite firstn_firstn.
Qed.

(** C22: the wire format of commitments and generators. From any 33 bytes (and
    more) the parsers accept those whose first byte is 8 or 9, and 10 or 11,
    and keep the 33 bytes as they are; other input is refused and the object is
    not touched; NULL pointers are reported.  An object is written out as it
    was read.  What the code loads from the object is a point exactly when the
    abscissa, reduced modulo the field prime, has a point: the one with a
    square ordinate for an even first byte and its opposite for an odd one.
    That is not looked at by the parsers: the abscissa 0, for which there is no
    point, is accepted. *)
Theorem wire_parsers_decide ctx old (input : bytes) : Forall is_byte input ->
  (33 <= length input)%nat ->
  let tag := at_ input 0 in
  let object := slice input 0 33 in
  let point := quad_point (Z.odd tag) (slice input 1 32) in
  secp256k1_pedersen_commitment_parse ctx (Some old) (Some input) =
    (if (tag =? 8) || (tag =? 9) then Api true (Some object) [] else Api false (Some old) []) /\
  secp256k1_generator_parse ctx (Some old) (Some input) =
    (if (tag =? 10) || (tag =? 11) then Api true (Some object) [] else Api false (Some old) []) /\
  (forall P, ge_rep (secp256k1_pedersen_commitment_load object) P <-> point = Some P) /\
  (forall P, ge_rep (secp256k1_generator_load object) P <-> point = Some P) /\
  (forall output, length output = 33%nat ->
    secp256k1_pedersen_commitment_serialize ctx (Some output) (Some object) = Api true (Some object) [] /\
    secp256k1_generator_serialize ctx (Some output) (Some object) = Api true (Some object) []) /\
  (forall c i, checked ctx (Some (secp256k1_pedersen_commitment_parse ctx c i))
    [("commit != NULL"%string, not_null c, c); ("input != NULL"%string, not_null i, c)]) /\
  (forall g i, checked ctx (Some (secp256k1_generator_parse ctx g i))
    [("gen != NULL"%string, not_null g, g); ("input != NULL"%string, not_null i, g)]) /\
  (forall t, t = 8 \/ t = 10 -> quad_point (Z.odd t) (slice (t :: be_bytes 32 0) 1 32) = None).
Proof.
  intros B L. cbv zeta. destruct (object_bytes input B L) as (Bo & Lo & Et & Ex).
  assert (B0 : is_byte (at_ input 0)) by exact (at_byte input 0 B).
  refine (conj _ (conj _ (conj _ (conj _ (conj _ (conj _ (conj _ _))))))).
  - unfold secp256k1_pedersen_commitment_parse. rewrite (tag_match _ 8 B0 eq_refl).
    change (8 + 1) with 9. now destruct ((at_ input 0 =? 8) || _).
  - unfold secp256k1_generator_parse. rewrite (tag_match _ 10 B0 eq_refl).
    change (10 + 1) with 11. now destruct ((at_ input 0 =? 10) || _).
  - intros P. rewrite <- Et, <- Ex. apply generator_load_decides; [exact Bo|rewrite Lo; lia].
  - intros P. rewrite <- Et, <- Ex. apply generator_load_decides; [exact Bo|rewrite Lo; lia].
  - intros output Lu. unfold secp256k1_pedersen_commitment_serialize, secp256k1_generator_serialize, overwrite.
    rewrite (slice_all _ 33 Lo), Lo, firstn_O, skipn_all2 by lia.
    cbn [app]. rewrite app_nil_r. split; reflexivity.
  - intros [c|] [i|]; unfold checked, secp256k1_pedersen_commitment_parse; cbn [first_failure not_null];
      try reflexivity. intros x E. injection E as <-. now destruct (negb _).
  - intros [g|] [i|]; unfold checked, secp256k1_generator_parse; cbn [first_failure not_null];
      try reflexivity. intros x E. injection E as <-. now destruct (negb _).
  - intros t Ht. apply no_point_zero. unfold is_byte. lia.
Qed.
End Facts.

Section Commitments.
Context {F : FieldImpl} {SI : ScalarImpl} (junk : secp256k1_gej) (junk_ints : list Z).
Context (Hjunk : gej_mags junk) (Hints : length junk_ints = 33%nat).

(** C19: committing. The commitment is blind G + value H, written as 33 bytes that the
    parser accepts unchanged and that load as that point; the call returns 0
    and leaves the output alone exactly when the blinding factor is not below
    the group order or the sum is the infinite point. *)
Theorem pedersen_commit_correct ctx c0 blind value gen H : gen_ctx_ok (ecmult_gen_ctx ctx) ->
  is_b32 blind -> 0 <= value < 2 ^ 64 -> ge_rep (secp256k1_generator_load gen) H -> H <> Inf ->
  let P := padd (smul (be_val blind) G_point) (smul value H) in
  secp256k1_pedersen_commit junk junk_ints ctx (Some c0) (Some blind) value (Some gen) =
    (if (n_order <=? be_val blind) || is_inf P then Api false (Some c0) []
     else Api true (Some (quad_bytes 9 P)) []) /\
  (P <> Inf ->
   secp256k1_pedersen_commitment_parse ctx (Some c0) (Some (quad_bytes 9 P))
     = Api true (Some (quad_bytes 9 P)) [] /\
   secp256k1_pedersen_commitment_serialize ctx (Some (repeat 0 33)) (Some (quad_bytes 9 P))
     = Api true (Some (quad_bytes 9 P)) [] /\
   ge_rep (secp256k1_pedersen_commitment_load (quad_bytes 9 P)) P).
Proof.
  intros HG Hb Hv Hg HH P. split; [exact (commit_spec junk junk_ints Hjunk Hints ctx c0 blind value gen H HG Hb Hv Hg HH)|].
  intros HP. destruct (quad_bytes_9 P HP) as [L T].
  pose proof (proj1 (proj2 Hg)) as CH.
  assert (C : on_curve P) by (unfold P; oc).
  split; [|split; [|exact (proj2 (commits_quad P C HP))]].
  - unfold secp256k1_pedersen_commitment_parse. rewrite T, (slice_all _ 33 L). reflexivity.
  - unfold secp256k1_pedersen_commitment_serialize, overwrite. rewrite (slice_all _ 33 L), L.
    cbn [firstn app]. rewrite skipn_all2 by (rewrite repeat_length; lia). now rewrite app_nil_r.
Qed.

(** C18: the tally. For commitments made under one generator the tally accepts exactly
    when the difference of the blinding factors times G is the opposite
    difference of the values times the generator; with blinding factors that
    balance modulo the group order it accepts exactly when the values balance,
    as integers. *)
Theorem pedersen_tally ctx gen H ins outs cs ns : gen_ctx_ok (ecmult_gen_ctx ctx) ->
  ge_rep (secp256k1_generator_load gen) H -> H <> Inf ->
  Forall2 (committed junk junk_ints ctx gen) ins cs ->
  Forall2 (committed junk junk_ints ctx gen) outs ns ->
  Z.of_nat (length ins) < 2 ^ 64 -> Z.of_nat (length outs) < 2 ^ 64 ->
  let r := secp256k1_pedersen_verify_tally junk ctx (Some cs) (length cs) (Some ns) (length ns) in
  illegal r = [] /\
  (ret r = true <-> smul (sum_blinds ins - sum_blinds outs) G_point
     = smul (sum_values outs - sum_values ins) H) /\
  (sum_blinds ins =[n_order]= sum_blinds outs ->
   (ret r = true <-> sum_values ins = sum_values outs)).
Proof.
  intros HG Hg HH Hi Ho Li Lo.
  pose proof (committed_points junk junk_ints Hjunk Hints ctx gen H HG Hg HH ins cs Hi) as Pi.
  pose proof (committed_points junk junk_ints Hjunk Hints ctx gen H HG Hg HH outs ns Ho) as Po.
  destruct (verify_tally_spec junk ctx cs ns _ _ Pi Po) as [E1 E2]. cbv zeta.
  pose proof (proj1 (proj2 Hg)) as CH. rewrite !psum_openings, (sums_equal H _ _ _ _ CH) in E2 by exact CH.
  split; [exact E1|]. split; [exact E2|]. intros B. rewrite E2.
  rewrite (smul_cong _ 0) by (rewrite B; apply cong_eq; ring).
  rewrite smul_0. pose proof (values_cancel H (sum_values ins) (sum_values outs) CH HH) as V.
  pose proof (sum_values_range junk junk_ints ctx gen ins cs Hi) as R1.
  pose proof (sum_values_range junk junk_ints ctx gen outs ns Ho) as R2.
  split.
  - intros E. apply (cong_small n_order); [apply V; now symmetry|unfold n_order; lia|unfold n_order; lia].
  - intros E. symmetry. apply V. now rewrite E.
Qed.

Lemma switch_commit_spec ctx c0 blind gen J :
  secp256k1_ecmult_gen_context_is_built (ecmult_gen_switch_ctx ctx) = true ->
  is_b32 blind -> be_val blind <= n_order / 2 -> ge_rep (secp256k1_generator_load gen) J -> J <> Inf ->
  let P := smul (const_effective (be_val blind) 64) J in
  secp256k1_switch_commit junk junk_ints ctx (Some c0) (Some blind) (Some gen) =
    if is_inf P then Api false (Some c0) [] else Api true (Some (quad_bytes 9 P)) [].
Proof.
  intros Hb [L B] Hs Hg HJ P. unfold secp256k1_switch_commit, ARG_CHECK. rewrite Hb.
  pose proof (s_set_b32_ok blind B L) as S. destruct (s_set_b32 blind) as [s o]. destruct S as (Ok & V & ->).
  pose proof (be_val_range blind B) as [R _].
  assert (Hlt : be_val blind < n_order) by (apply (Z.le_lt_trans _ _ _ Hs); reflexivity).
  rewrite (proj2 (Z.leb_gt _ _) Hlt). rewrite Z.mod_small in V by lia.
  unfold secp256k1_switch_ecmult.
  pose proof (ecmult_const_eff junk junk_ints _ s 64 J Hjunk Hints Hg HJ Ok) as R1. rewrite V in R1.
  assert (H64 : 1 <= 64 <= 128) by lia. specialize (R1 (or_intror (conj H64 Hs))). fold P in R1.
  rewrite (is_infinity_spec _ _ R1). destruct (is_inf P) eqn:I; [reflexivity|].
  apply save_result; [exact R1|]. intros E. rewrite E in I. discriminate I.
Qed.

(** C21: switch commitments. The multiplication is asked for with a size of 64 bits, so of a
    256-bit factor only the low 68 bits count: factors that differ by 2^68 have
    the same commitment, and 2^68 itself, a valid secret key, is refused like 0. *)
Theorem switch_commit_truncates ctx c0 blind blind' gen J :
  secp256k1_ecmult_gen_context_is_built (ecmult_gen_switch_ctx ctx) = true ->
  is_b32 blind -> is_b32 blind' -> be_val blind' = be_val blind + 2 ^ 68 -> be_val blind' <= n_order / 2 ->
  ge_rep (secp256k1_generator_load gen) J -> J <> Inf ->
  let commit b := secp256k1_switch_commit junk junk_ints ctx (Some c0) (Some b) (Some gen) in
  commit blind' = commit blind /\
  (0 < be_val blind -> be_val blind + 2 < 2 ^ 68 ->
     commit blind = Api true (Some (quad_bytes 9 (smul (be_val blind) J))) []) /\
  (forall b, is_b32 b -> be_val b = 2 ^ 68 -> commit b = Api false (Some c0) []).
Proof.
  intros Hc Hb Hb' E R Hg HJ. cbv zeta beta.
  rewrite (switch_commit_spec ctx c0 blind' gen J Hc Hb' R Hg HJ).
  rewrite (switch_commit_spec ctx c0 blind gen J Hc Hb ltac:(lia) Hg HJ).
  pose proof (proj1 (proj2 Hg)) as HC.
  rewrite E, effective_period. split; [reflexivity|]. split.
  2: { intros b Hb68 V. assert (L : be_val b <= n_order / 2) by (rewrite V; apply Z.leb_le; reflexivity).
       rewrite (switch_commit_spec ctx c0 b gen J Hc Hb68 L Hg HJ), V. reflexivity. }
  intros R0 R1. rewrite effective_id by lia. destruct (is_inf (smul (be_val blind) J)) eqn:I; [|reflexivity].
  exfalso. apply is_inf_true in I. clear Hg. revert HJ I.
  destruct (all_multiples J HC) as (j & _ & ->).
  rewrite smul_smul by oc. intros HJ I. apply finite_multiplier in HJ. apply smul_zero_iff in I.
  assert (D : (n_order | be_val blind * j)) by (destruct I as [q I]; exists q; lia).
  apply Z.divide_prime_mul in D; [|exact prime_n]. destruct D as [D|D].
  - apply Z.divide_pos_le in D; [unfold n_order in D; lia|lia].
  - apply Z.mod_divide in D; [contradiction|discriminate].
Qed.

End Commitments.

(** ** Witnesses *)

#[local] Existing Instance field_5x52.
#[local] Existing Instance scalar_4x64.

Lemma b32_ok v : is_b32 (be_bytes 32 v).
Proof. split; [apply length_be_bytes|apply be_bytes_byte]. Qed.

Lemma b32_val v : 0 <= v < 2 ^ 256 -> be_val (be_bytes 32 v) = v.
Proof. intros H. rewrite be_val_bytes. apply Z.mod_small. exact H. Qed.

Lemma pedersen_commit_correct_witness : exists ctx,
  secp256k1_pedersen_commit zero_gej (repeat 0 33) ctx (Some []) (Some (be_bytes 32 0)) 1
    (Some secp256k1_generator_h_internal) = Api true (Some (quad_bytes 9 H_point)) [].
Proof.
  destruct full_context as (ctx & _ & G & _). exists ctx.
  destruct (pedersen_commit_correct zero_gej (repeat 0 33) zero_gej_mags eq_refl ctx [] (be_bytes 32 0) 1
    secp256k1_generator_h_internal H_point G (b32_ok 0) ltac:(lia) (proj1 HJ_loads) ltac:(discriminate)) as [E _].
  rewrite (b32_val 0) in E by lia. rewrite smul_0, smul_1 in E. exact E.
Defined.

(** The value 1 under the second generator, with the factor 0. *)
Lemma commit_one : exists ctx, gen_ctx_ok (ecmult_gen_ctx ctx) /\
  secp256k1_ecmult_gen_context_is_built (ecmult_gen_switch_ctx ctx) = true /\
  committed zero_gej (repeat 0 33) ctx secp256k1_generator_h_internal (be_bytes 32 0, 1)
    (quad_bytes 9 H_point).
Proof.
  destruct full_context as (ctx & R & G & _). exists ctx. split; [exact G|]. split.
  - destruct (ctx_reachable_ok zero_gej zero_gej_mags _ _ _ _ _ _ R) as (_ & S & _).
    exact (gc_built _ (reachable_gen_ok zero_gej zero_gej_mags blank_hmac blank_sha blank_ok blank_ok blank_ok _ _ S)).
  - split; [apply b32_ok|]. split; [cbn [snd]; lia|]. exists []. cbn [fst snd].
    rewrite (commit_spec zero_gej (repeat 0 33) zero_gej_mags eq_refl ctx [] (be_bytes 32 0) 1
      secp256k1_generator_h_internal H_point G (b32_ok 0) ltac:(lia) (proj1 HJ_loads) ltac:(discriminate)).
    unfold commit_point. rewrite (b32_val 0), smul_0, smul_1 by lia. reflexivity.
Qed.

Lemma pedersen_tally_witness : exists ctx,
  ret (secp256k1_pedersen_verify_tally zero_gej ctx (Some [quad_bytes 9 H_point]) 1
    (Some [quad_bytes 9 H_point]) 1) = true.
Proof.
  destruct commit_one as (ctx & G & _ & C). exists ctx.
  pose proof (Forall2_cons _ _ C (Forall2_nil (committed zero_gej (repeat 0 33) ctx
    secp256k1_generator_h_internal))) as L.
  destruct (pedersen_tally zero_gej (repeat 0 33) zero_gej_mags eq_refl ctx secp256k1_generator_h_internal
    H_point _ _ _ _ G (proj1 HJ_loads) ltac:(discriminate) L L eq_refl eq_refl) as (_ & _ & T).
  apply T; reflexivity.
Defined.

Lemma G_committed : commits_to (quad_bytes 9 G_point) G_point.
Proof. exact (commits_quad G_point (proj1 (proj2 const_g_rep)) ltac:(discriminate)). Qed.

Lemma pedersen_commit_sum_balances_witness : exists ctx,
  secp256k1_pedersen_commit_sum zero_gej ctx (Some []) (Some [quad_bytes 9 G_point]) 1 (Some []) 0
    = Api true (Some (quad_bytes 9 G_point)) [].
Proof.
  destruct full_context as (ctx & _). exists ctx.
  exact (proj1 (pedersen_commit_sum_balances zero_gej ctx [] [quad_bytes 9 G_point] [] [G_point] []
    (Forall2_cons _ _ G_committed (Forall2_nil _)) (Forall2_nil _))).
Defined.

Lemma pedersen_blind_sum_balances_witness : exists ctx x,
  secp256k1_pedersen_blind_sum ctx (Some []) (Some [be_bytes 32 9; be_bytes 32 5]) 2 1
    = Api true (Some x) [] /\ be_val (be_bytes 32 9) + 0 =[n_order]= be_val (be_bytes 32 5) + 0 + be_val x.
Proof.
  destruct full_context as (ctx & _). exists ctx.
  destruct (pedersen_blind_sum_balances ctx [] [be_bytes 32 9; be_bytes 32 5] 1
    (Forall_cons _ (b32_ok 9) (Forall_cons _ (b32_ok 5) (Forall_nil _))) ltac:(cbn; lia)) as [_ B].
  destruct B as (x & E & _ & _ & V).
  { cbn [existsb]. unfold too_big. rewrite !b32_val by lia. reflexivity. }
  exists x. exact (conj E V).
Defined.

Lemma pedersen_generator_blind_balances_witness : exists ctx bf',
  secp256k1_pedersen_blind_generator_blind_sum (s_set_int 0) ctx (Some [7; 7])
    (Some [be_bytes 32 1; be_bytes 32 2]) (Some [be_bytes 32 3; be_bytes 32 4]) 2 1
    = Api true (Some bf') [].
Proof.
  destruct full_context as (ctx & _). exists ctx.
  destruct (pedersen_generator_blind_balances (s_set_int 0) ctx [7; 7] [be_bytes 32 1; be_bytes 32 2]
    [be_bytes 32 3; be_bytes 32 4] 1 0) as [_ B].
  - intros [|[|k]] Hk; [| |lia]; (split; [cbn [nth]; lia|]); split; apply b32_ok.
  - cbn; lia.
  - destruct B as (bf' & E & _); [|now exists bf'].
    cbn [Nat.add seq existsb]. unfold entry_big, too_big. cbn [nth]. rewrite !b32_val by lia. reflexivity.
Defined.

Lemma switch_commit_truncates_witness : exists ctx,
  secp256k1_switch_commit zero_gej (repeat 0 33) ctx (Some []) (Some (be_bytes 32 (1 + 2 ^ 68)))
    (Some secp256k1_generator_j_internal)
  = secp256k1_switch_commit zero_gej (repeat 0 33) ctx (Some []) (Some (be_bytes 32 1))
    (Some secp256k1_generator_j_internal).
Proof.
  destruct commit_one as (ctx & _ & S & _). exists ctx.
  pose proof (b32_val (1 + 2 ^ 68) ltac:(lia)) as V'. pose proof (b32_val 1 ltac:(lia)) as V.
  exact (proj1 (switch_commit_truncates zero_gej (repeat 0 33) zero_gej_mags eq_refl ctx []
    (be_bytes 32 1) (be_bytes 32 (1 + 2 ^ 68)) secp256k1_generator_j_internal J_point S (b32_ok 1)
    (b32_ok (1 + 2 ^ 68)) ltac:(rewrite V, V'; reflexivity)
    ltac:(rewrite V'; apply Z.leb_le; reflexivity) (proj2 HJ_loads) ltac:(discriminate))).
Defined.

(** 33 bytes that are accepted as a commitment, refused as a generator, and load
    as no point. *)
Lemma wire_parsers_decide_witness : exists ctx,
  let input := 8 :: be_bytes 32 0 in
  secp256k1_pedersen_commitment_parse ctx (Some []) (Some input) = Api true (Some (slice input 0 33)) [] /\
  secp256k1_generator_parse ctx (Some []) (Some input) = Api false (Some []) [] /\
  forall P, ~ ge_rep (secp256k1_pedersen_commitment_load (slice input 0 33)) P.
Proof.
  destruct full_context as (ctx & _). exists ctx.
  assert (B : Forall is_byte (8 :: be_bytes 32 0))
    by (constructor; [unfold is_byte; lia|apply be_bytes_byte]).
  assert (L : (33 <= length (8%Z :: be_bytes 32 0))%nat)
    by (cbn [length]; rewrite length_be_bytes; lia).
  destruct (wire_parsers_decide ctx [] (8 :: be_bytes 32 0) B L) as (C & G & R & _ & _ & _ & _ & N).
  split; [exact C|]. split; [exact G|]. intros P H. apply R in H.
  specialize (N 8 (or_introl eq_refl)). change (at_ (8 :: be_bytes 32 0) 0) with 8 in H.
  rewrite N in H. discriminate H.
Defined.
