(* ===== verification/LaxDer.v ===== *)
(** * contrib: lax DER

    The signature parser of lax_der_parsing.c, which accepts what OpenSSL
    accepted, and the private key container of lax_der_privatekey_parsing.c.
    Every read of the input names its position, and reading past the end is a
    result of its own, so that its absence is a theorem. *)
From Stdlib Require Import String.
From S2P Require Import Field5x52 Scalar4x64.
From S2P Require Import Prelude Primes FieldSpec Field ScalarSpec Scalar Sha256Spec Hash.
From S2P Require Import CurveSpec CurveGroup CurveOrder CurveCount Group Ecmult EcmultGen.
From S2P Require Import EcmultProperties Ecdsa Eckey Der Api EcdsaProperties ApiProperties.

Inductive lax (A : Type) := Got (a : A) | Return0 | OutOfBounds.

Arguments Got {A} _.
Arguments Return0 {A}.
Arguments OutOfBounds {A}.

Definition lax_bind {A B} (e : lax A) (k : A -> lax B) : lax B :=
  match e with Got a => k a | Return0 => Return0 | OutOfBounds => OutOfBounds end.

Declare Scope lax_scope.
Delimit Scope lax_scope with lax.
Notation "'get' x <- e ; k" := (lax_bind e (fun x => k))
  (at level 10, x pattern, e at level 100, k at level 200) : lax_scope.
#[local] Open Scope lax_scope.

(** [input[pos]] *)
Definition byte_at (input : bytes) (pos : Z) : lax Z :=
  match nth_error input (Z.to_nat pos) with Some b => Got b | None => OutOfBounds end.

(** The [n] bytes a memcpy reads from [input + pos]. *)
Definition bytes_at (input : bytes) (pos : Z) (n : Z) : lax bytes :=
  if pos + n <=? Z.of_nat (length input) then Got (slice input (Z.to_nat pos) (Z.to_nat n))
  else OutOfBounds.

(** [while (n > 0 && input[pos] == 0) { pos++; n--; }] *)
Fixpoint lax_skip (input : bytes) (n : nat) (pos : Z) : lax (nat * Z) :=
  match n with
  | O => Got (O, pos)
  | S m => get b <- byte_at input pos; if b =? 0 then lax_skip input m (pos + 1) else Got (n, pos)
  end.

(** [while (n > 0) { len = (len << 8) + input[pos]; pos++; n--; }] *)
Fixpoint lax_value (input : bytes) (n : nat) (pos len : Z) : lax (Z * Z) :=
  match n with
  | O => Got (len, pos)
  | S m => get b <- byte_at input pos; lax_value input m (pos + 1) (u64 (u64 (len << 8) + b))
  end.

(** The length of an integer. *)
Definition lax_length (input : bytes) (pos : Z) : lax (Z * Z) :=
  let inputlen := Z.of_nat (length input) in
  if pos =? inputlen then Return0 else
  get lenbyte <- byte_at input pos;
  let pos := pos + 1 in
  get (rlen, pos) <-
    (if negb ((lenbyte .& 0x80) =? 0) then
       let lenbyte := lenbyte - 0x80 in
       if inputlen <? u64 (pos + lenbyte) then Return0 else
       get (lenbyte, pos) <- lax_skip input (Z.to_nat lenbyte) pos;
       if Nat.leb 8 lenbyte then Return0 else
       lax_value input lenbyte pos 0
     else Got (lenbyte, pos));
  if u64 (inputlen - pos) <? rlen then Return0 else Got (rlen, pos).

(** Tag, length and place of an integer, and the position after it. *)
Definition lax_integer (input : bytes) (pos : Z) : lax (Z * Z * Z) :=
  if pos =? Z.of_nat (length input) then Return0 else
  get tag <- byte_at input pos;
  if negb (tag =? 0x02) then Return0 else
  get (rlen, rpos) <- lax_length input (pos + 1);
  Got (rpos, rlen, rpos + rlen).

(** The sequence header. *)
Definition lax_sequence (input : bytes) : lax Z :=
  let inputlen := Z.of_nat (length input) in
  let pos := 0 in
  if pos =? inputlen then Return0 else
  get tag <- byte_at input pos;
  if negb (tag =? 0x30) then Return0 else
  let pos := pos + 1 in
  if pos =? inputlen then Return0 else
  get lenbyte <- byte_at input pos;
  let pos := pos + 1 in
  if negb ((lenbyte .& 0x80) =? 0) then
    let lenbyte := lenbyte - 0x80 in
    if inputlen <? u64 (pos + lenbyte) then Return0 else Got (pos + lenbyte)
  else Got pos.

(** Copying a number without its leading zeros, right aligned to [tmpsig + last]. *)
Definition lax_copy (input : bytes) (pos len : Z) (last : nat) (tmpsig : bytes) (overflow : bool)
    : lax (bytes * bool) :=
  get (rlen, rpos) <- lax_skip input (Z.to_nat len) pos;
  if Nat.ltb 32 rlen then Got (tmpsig, true) else
  get data <- bytes_at input rpos (Z.of_nat rlen);
  Got (overwrite tmpsig (last - rlen) data, overflow).

(** * The grammar

    The same format on the remaining bytes, without positions. *)

(** A length below 128, or a count with the top bit and that many bytes. *)
Inductive ber_length : bytes -> Z -> Prop :=
| ber_short n : 0 <= n < 128 -> ber_length [n] n
| ber_long l : Z.of_nat (length l) < 128 -> be_val l < 2 ^ 56 ->
    ber_length ((0x80 + Z.of_nat (length l)) :: l) (be_val l).

(** The length of the sequence, of which only the extent matters. *)
Inductive ber_skip : bytes -> Prop :=
| skip_short n : 0 <= n < 128 -> ber_skip [n]
| skip_long l : Z.of_nat (length l) < 128 -> ber_skip ((0x80 + Z.of_nat (length l)) :: l).

(** An integer with the content [c]. *)
Definition ber_int (i c : bytes) : Prop :=
  exists lb, ber_length lb (Z.of_nat (length c)) /\ i = 0x02 :: lb ++ c.

(** What follows the second integer does not matter. *)
Definition lax_form (input c1 c2 : bytes) : Prop :=
  exists h i1 i2 rest, input = 0x30 :: h ++ i1 ++ i2 ++ rest /\
    ber_skip h /\ ber_int i1 c1 /\ ber_int i2 c2.

(** ** A parser of the grammar *)

Definition ref_length (suf : bytes) : option (Z * bytes) :=
  match suf with
  | [] => None
  | b :: suf =>
    if b <? 128 then if b <=? Z.of_nat (length suf) then Some (b, suf) else None
    else
      let k := Z.to_nat (b - 128) in
      if Nat.ltb (length suf) k then None else
      let n := be_val (firstn k suf) in
      if (n <? 2 ^ 56) && (n <=? Z.of_nat (length (skipn k suf))) then Some (n, skipn k suf) else None
  end.

Definition ref_int (suf : bytes) : option (bytes * bytes) :=
  match suf with
  | 0x02 :: suf =>
    match ref_length suf with
    | Some (n, suf) => Some (firstn (Z.to_nat n) suf, skipn (Z.to_nat n) suf)
    | None => None
    end
  | _ => None
  end.

Definition ref_skip (suf : bytes) : option bytes :=
  match suf with
  | [] => None
  | b :: suf =>
    if b <? 128 then Some suf
    else
      let k := Z.to_nat (b - 128) in
      if Nat.ltb (length suf) k then None else Some (skipn k suf)
  end.

Definition ref_form (input : bytes) : option (bytes * bytes) :=
  match input with
  | 0x30 :: suf =>
    match ref_skip suf with
    | None => None
    | Some suf =>
      match ref_int suf with
      | None => None
      | Some (c1, suf) =>
        match ref_int suf with
        | None => None
        | Some (c2, _) => Some (c1, c2)
        end
      end
    end
  | _ => None
  end.

Lemma be_val_cons_byte b l : is_byte b -> Forall is_byte l -> Forall is_byte (b :: l).
Proof. now constructor. Qed.

Lemma ref_length_complete lb n rest : ber_length lb n -> Forall is_byte lb -> 0 <= n ->
  n <= Z.of_nat (length rest) -> ref_length (lb ++ rest) = Some (n, rest).
Proof.
  intros H B Hn Hr. destruct H as [n R|l L V]; cbn [app ref_length].
  - rewrite (proj2 (Z.ltb_lt _ _)) by lia. now rewrite (proj2 (Z.leb_le _ _) Hr).
  - rewrite (proj2 (Z.ltb_ge _ _)) by lia.
    replace (Z.to_nat (0x80 + Z.of_nat (length l) - 128)) with (length l) by lia.
    rewrite (proj2 (Nat.ltb_ge _ _)) by (rewrite length_app; lia).
    rewrite firstn_app_exact, skipn_app_exact by reflexivity.
    rewrite (proj2 (Z.ltb_lt _ _) V), (proj2 (Z.leb_le _ _) Hr). reflexivity.
Qed.

Lemma ref_length_sound suf n rest : Forall is_byte suf -> ref_length suf = Some (n, rest) ->
  exists lb, suf = lb ++ rest /\ ber_length lb n /\ 0 <= n <= Z.of_nat (length rest).
Proof.
  intros B H. destruct suf as [|b suf]; [discriminate H|]. cbn [ref_length] in H.
  inversion B as [|? ? Bb Bs]; subst. unfold is_byte in Bb.
  destruct (Z.ltb_spec b 128).
  - destruct (Z.leb_spec b (Z.of_nat (length suf))); [|discriminate H]. injection H as <- <-.
    exists [b]. split; [reflexivity|]. split; [constructor; lia|lia].
  - destruct (Nat.ltb_spec (length suf) (Z.to_nat (b - 128))); [discriminate H|].
    destruct (_ && _) eqn:E; [|discriminate H]. apply andb_true_iff in E.
    rewrite Z.ltb_lt, Z.leb_le in E. injection H as <- <-.
    set (k := Z.to_nat (b - 128)) in *. pose proof (length_firstn k suf) as Lk.
    exists (b :: firstn k suf). split; [cbn [app]; now rewrite firstn_skipn|].
    pose proof (be_val_range _ (Forall_firstn _ k _ Bs)) as [R _]. split; [|lia].
    replace b with (0x80 + Z.of_nat (length (firstn k suf))) at 1 by lia. constructor; lia.
Qed.

Lemma ref_int_complete i c rest : ber_int i c -> Forall is_byte i -> ref_int (i ++ rest) = Some (c, rest).
Proof.
  intros (lb & L & ->) B. inversion B as [|? ? _ B']; subst. apply Forall_app in B'.
  cbn [app ref_int]. rewrite <- app_assoc.
  rewrite (ref_length_complete lb _ (c ++ rest) L (proj1 B')) by (rewrite ?length_app; lia).
  rewrite Nat2Z.id, firstn_app_exact, skipn_app_exact by reflexivity. reflexivity.
Qed.

Lemma ref_int_sound suf c rest : Forall is_byte suf -> ref_int suf = Some (c, rest) ->
  exists i, suf = i ++ rest /\ ber_int i c.
Proof.
  intros B H. unfold ref_int in H. destruct suf as [|t suf]; [discriminate H|].
  destruct (Z.eq_dec t 2) as [->|Ht].
  2: { destruct t as [|[[t|t|]|[t|t|]|]|t]; congruence. }
  inversion B as [|? ? _ Bs]; subst.
  destruct (ref_length suf) as [[n suf']|] eqn:L; [|discriminate H]. injection H as <- <-.
  destruct (ref_length_sound suf n suf' Bs L) as (lb & -> & Hl & R).
  exists (0x02 :: lb ++ firstn (Z.to_nat n) suf'). split.
  - cbn [app]. rewrite <- app_assoc. now rewrite firstn_skipn.
  - exists lb. split; [|reflexivity]. rewrite length_firstn. replace (Z.of_nat _) with n by lia. exact Hl.
Qed.

Lemma ref_skip_complete h rest : ber_skip h -> ref_skip (h ++ rest) = Some rest.
Proof.
  intros [n R|l L]; cbn [app ref_skip].
  - now rewrite (proj2 (Z.ltb_lt _ _)) by lia.
  - rewrite (proj2 (Z.ltb_ge _ _)) by lia.
    replace (Z.to_nat (0x80 + Z.of_nat (length l) - 128)) with (length l) by lia.
    rewrite (proj2 (Nat.ltb_ge _ _)) by (rewrite length_app; lia). now rewrite skipn_app_exact.
Qed.

Lemma ref_skip_sound suf rest : Forall is_byte suf -> ref_skip suf = Some rest ->
  exists h, suf = h ++ rest /\ ber_skip h.
Proof.
  intros B H. destruct suf as [|b suf]; [discriminate H|]. cbn [ref_skip] in H.
  inversion B as [|? ? Bb _]; subst. unfold is_byte in Bb.
  destruct (Z.ltb_spec b 128).
  - injection H as <-. exists [b]. split; [reflexivity|constructor; lia].
  - destruct (Nat.ltb_spec (length suf) (Z.to_nat (b - 128))); [discriminate H|]. injection H as <-.
    set (k := Z.to_nat (b - 128)) in *. pose proof (length_firstn k suf) as Lk.
    exists (b :: firstn k suf). split; [cbn [app]; now rewrite firstn_skipn|].
    replace b with (0x80 + Z.of_nat (length (firstn k suf))) at 1 by lia. constructor. lia.
Qed.

(** The parser decides the grammar. *)
Lemma ref_form_iff input c1 c2 : Forall is_byte input ->
  ref_form input = Some (c1, c2) <-> lax_form input c1 c2.
Proof.
  intros B. split.
  - intros H. unfold ref_form in H. destruct input as [|t suf]; [discriminate H|].
    destruct (Z.eq_dec t 0x30) as [->|Ht].
    2: { destruct t as [|t|t]; try discriminate H.
         do 6 (destruct t as [t|t|]; try discriminate H). now destruct Ht. }
    inversion B as [|? ? _ Bs]; subst.
    destruct (ref_skip suf) as [s1|] eqn:E1; [|discriminate H].
    destruct (ref_skip_sound suf s1 Bs E1) as (h & -> & Hh). apply Forall_app in Bs. destruct Bs as [_ Bs].
    destruct (ref_int s1) as [[d1 s2]|] eqn:E2; [|discriminate H].
    destruct (ref_int_sound s1 d1 s2 Bs E2) as (i1 & -> & H1). apply Forall_app in Bs. destruct Bs as [_ Bs].
    destruct (ref_int s2) as [[d2 s3]|] eqn:E3; [|discriminate H].
    destruct (ref_int_sound s2 d2 s3 Bs E3) as (i2 & -> & H2).
    injection H as <- <-. exists h, i1, i2, s3. auto.
  - intros (h & i1 & i2 & rest & -> & Hh & H1 & H2). inversion B as [|? ? _ Bs]; subst.
    rewrite !Forall_app in Bs. unfold ref_form.
    rewrite (ref_skip_complete h _ Hh), (ref_int_complete i1 c1 _ H1) by tauto.
    now rewrite (ref_int_complete i2 c2 _ H2) by tauto.
Qed.

(** ** The code follows the grammar *)

Lemma byte_at_app pre b suf pos : pos = Z.of_nat (length pre) ->
  byte_at (pre ++ b :: suf) pos = Got b.
Proof.
  intros ->. unfold byte_at. rewrite Nat2Z.id, nth_error_app2, Nat.sub_diag by lia. reflexivity.
Qed.

Lemma lax_value_spec l : Forall is_byte l -> forall pre suf pos len, pos = Z.of_nat (length pre) ->
  0 <= len -> (len + 1) * 256 ^ Z.of_nat (length l) <= 2 ^ 64 ->
  lax_value (pre ++ l ++ suf) (length l) pos len
    = Got (len * 256 ^ Z.of_nat (length l) + be_val l, pos + Z.of_nat (length l)).
Proof.
  induction 1 as [|b l Hb _ IH]; intros pre suf pos len Hp H0 H1; cbn [app length lax_value].
  - do 2 f_equal; [|lia]. change (be_val []) with 0. rewrite Z.pow_0_r. lia.
  - rewrite (byte_at_app pre b _ pos Hp). cbn [lax_bind].
    unfold is_byte in Hb. cbn [length] in H1.
    rewrite Nat2Z.inj_succ, Z.pow_succ_r in H1 by lia.
    assert (P : 1 <= 256 ^ Z.of_nat (length l)) by (apply (Z.pow_le_mono_r 256 0); lia).
    assert (Hs : u64 (u64 (len << 8) + b) = len * 256 + b).
    { rewrite (shl_lit len 8 256) by reflexivity. unfold u64. change 0x10000000000000000 with (2 ^ 64).
      assert (len * 256 + b < 2 ^ 64) by nia. rewrite (Z.mod_small (len * 256)) by lia.
      apply Z.mod_small. lia. }
    rewrite Hs. replace (pre ++ b :: l ++ suf) with ((pre ++ [b]) ++ l ++ suf) by now rewrite <- app_assoc.
    rewrite (IH (pre ++ [b]) suf (pos + 1) (len * 256 + b));
      [|rewrite length_app; cbn [length]; lia|lia|nia].
    rewrite be_val_cons, Nat2Z.inj_succ, Z.pow_succ_r by lia. do 2 f_equal; lia.
Qed.

Lemma lax_skip_spec l : forall pre suf pos, pos = Z.of_nat (length pre) -> exists k l',
  l = repeat 0 k ++ l' /\ (l' = [] \/ hd 0 l' <> 0) /\
  lax_skip (pre ++ l ++ suf) (length l) pos = Got (length l', pos + Z.of_nat k).
Proof.
  induction l as [|b l IH]; intros pre suf pos Hp; cbn [app length lax_skip].
  - exists O, []. split; [reflexivity|]. split; [now left|]. now rewrite Z.add_0_r.
  - rewrite (byte_at_app pre b _ pos Hp). cbn [lax_bind]. destruct (Z.eqb_spec b 0) as [->|Hb].
    + destruct (IH (pre ++ [0]) suf (pos + 1)) as (k & l' & -> & H1 & H2).
      { rewrite length_app. cbn [length]. lia. }
      exists (S k), l'. split; [reflexivity|]. split; [exact H1|].
      rewrite <- app_assoc in H2. cbn [app] in H2. rewrite H2. do 2 f_equal. lia.
    + exists O, (b :: l). split; [reflexivity|]. split; [now right|]. now rewrite Z.add_0_r.
Qed.

(** The number of significant bytes, from the value. *)
Lemma significant l : Forall is_byte l -> l = [] \/ hd 0 l <> 0 ->
  Nat.leb 8 (length l) = negb (be_val l <? 2 ^ 56).
Proof.
  intros B H. destruct (Nat.leb_spec 8 (length l)).
  - destruct l as [|a c]; [cbn in *; lia|]. destruct H as [|H]; [discriminate|]. cbn [hd] in H.
    inversion B as [|? ? Ba Bc]; subst. rewrite be_val_cons. pose proof (be_val_range c Bc).
    cbn [length] in *. unfold is_byte in Ba.
    assert (256 ^ 7 <= 256 ^ Z.of_nat (length c)) by (apply Z.pow_le_mono_r; lia).
    rewrite (proj2 (Z.ltb_ge _ _)) by (change (2 ^ 56) with (256 ^ 7); nia). reflexivity.
  - pose proof (be_val_range l B) as R.
    assert (256 ^ Z.of_nat (length l) <= 256 ^ 7) by (apply Z.pow_le_mono_r; lia).
    rewrite (proj2 (Z.ltb_lt _ _)) by (change (2 ^ 56) with (256 ^ 7); lia). reflexivity.
Qed.

(** What the position after the length is, when there is one. *)
Definition after {A} (input : bytes) (r : option (A * bytes)) : lax (A * Z) :=
  match r with
  | Some (a, rest) => Got (a, Z.of_nat (length input) - Z.of_nat (length rest))
  | None => Return0
  end.

(** The bytes of a long length. *)
Lemma lax_long pre l suf pos : Forall is_byte l -> pos = Z.of_nat (length pre) ->
  (get (lenbyte, pos) <- lax_skip (pre ++ l ++ suf) (length l) pos;
   if Nat.leb 8 lenbyte then Return0 else lax_value (pre ++ l ++ suf) lenbyte pos 0)
  = if be_val l <? 2 ^ 56 then Got (be_val l, pos + Z.of_nat (length l)) else Return0.
Proof.
  intros B Hp. destruct (lax_skip_spec l pre suf pos Hp) as (k & l' & El & Hl & E).
  rewrite E. cbn [lax_bind]. subst l. apply Forall_app in B. destruct B as [_ B].
  rewrite (significant l' B Hl), be_val_zeros.
  destruct (Z.ltb_spec (be_val l') (2 ^ 56)) as [V|]; cbn [negb]; [|reflexivity].
  assert (L8 : (length l' < 8)%nat).
  { pose proof (significant l' B Hl) as S. rewrite (proj2 (Z.ltb_lt _ _) V) in S. now apply Nat.leb_gt. }
  rewrite <- app_assoc, app_assoc.
  rewrite (lax_value_spec l' B (pre ++ repeat 0 k) suf (pos + Z.of_nat k) 0).
  - do 2 f_equal. rewrite length_app, repeat_length. lia.
  - rewrite length_app, repeat_length. lia.
  - lia.
  - assert (256 ^ Z.of_nat (length l') <= 256 ^ 8) by (apply Z.pow_le_mono_r; lia).
    change (256 ^ 8) with (2 ^ 64) in *. lia.
Qed.

Lemma lax_length_spec pre suf : Forall is_byte suf -> Z.of_nat (length (pre ++ suf)) < 2 ^ 63 ->
  lax_length (pre ++ suf) (Z.of_nat (length pre)) = after (pre ++ suf) (ref_length suf).
Proof.
  intros B L. unfold lax_length. rewrite length_app in *.
  destruct suf as [|b suf]; [rewrite Nat.add_0_r, Z.eqb_refl; reflexivity|]. cbn [length] in *.
  destruct (Z.eqb_spec (Z.of_nat (length pre)) (Z.of_nat (length pre + S (length suf)))); [lia|].
  rewrite (byte_at_app pre b suf _ eq_refl). cbn [lax_bind ref_length].
  inversion B as [|? ? Bb Bs]; subst. rewrite (top_bit_clear b Bb). unfold is_byte in Bb.
  destruct (Z.ltb_spec b 0x80) as [Hb|Hb]; cbn [negb lax_bind].
  - unfold u64. rewrite Z.mod_small by lia.
    destruct (Z.leb_spec b (Z.of_nat (length suf))).
    + rewrite (proj2 (Z.ltb_ge _ _)) by lia. unfold after. rewrite length_app. cbn [length]. do 2 f_equal. lia.
    + rewrite (proj2 (Z.ltb_lt _ _)) by lia. reflexivity.
  - change 0x80 with 128. unfold u64 at 1. rewrite Z.mod_small by lia.
    destruct (Nat.ltb_spec (length suf) (Z.to_nat (b - 128))) as [K|K].
    { rewrite (proj2 (Z.ltb_lt _ _)) by lia. reflexivity. }
    rewrite (proj2 (Z.ltb_ge _ _)) by lia. set (k := Z.to_nat (b - 128)) in *.
    pose proof (length_firstn k suf) as Lk. pose proof (length_skipn k suf) as Ls.
    pose proof (lax_long (pre ++ [b]) (firstn k suf) (skipn k suf) (Z.of_nat (length pre) + 1)
      (Forall_firstn _ k _ Bs)) as E.
    rewrite firstn_skipn, <- app_assoc, Lk, (Nat.min_l k) in E by lia. cbn [app] in E.
    rewrite E by (rewrite length_app; cbn [length]; lia). clear E.
    pose proof (be_val_range _ (Forall_firstn _ k _ Bs)) as [R _].
    destruct (Z.ltb_spec (be_val (firstn k suf)) (2 ^ 56)) as [V|]; cbn [lax_bind andb]; [|reflexivity].
    unfold u64. rewrite Z.mod_small by lia.
    destruct (Z.leb_spec (be_val (firstn k suf)) (Z.of_nat (length (skipn k suf)))).
    + rewrite (proj2 (Z.ltb_ge _ _)) by lia. unfold after. rewrite length_app. cbn [length]. do 2 f_equal. lia.
    + rewrite (proj2 (Z.ltb_lt _ _)) by lia. reflexivity.
Qed.

(** An integer: its content, where it lies, and the rest. *)
Lemma lax_integer_spec pre suf : Forall is_byte suf -> Z.of_nat (length (pre ++ suf)) < 2 ^ 63 ->
  match ref_int suf with
  | None => lax_integer (pre ++ suf) (Z.of_nat (length pre)) = Return0
  | Some (c, rest) => exists mid, suf = mid ++ c ++ rest /\
      lax_integer (pre ++ suf) (Z.of_nat (length pre))
      = Got (Z.of_nat (length (pre ++ mid)), Z.of_nat (length c), Z.of_nat (length (pre ++ mid ++ c)))
  end.
Proof.
  intros B L. unfold lax_integer. destruct suf as [|t suf].
  { cbn [ref_int]. now rewrite length_app, Nat.add_0_r, Z.eqb_refl. }
  assert (L' : length (pre ++ t :: suf) = S (length pre + length suf))
    by (rewrite length_app; cbn [length]; lia).
  destruct (Z.eqb_spec (Z.of_nat (length pre)) (Z.of_nat (length (pre ++ t :: suf)))) as [|_]; [lia|].
  rewrite (byte_at_app pre t suf _ eq_refl). cbn [lax_bind].
  destruct (Z.eqb_spec t 0x02) as [->|Ht]; cbn [negb].
  2: { unfold ref_int. destruct t as [|[[t|t|]|[t|t|]|]|t]; try reflexivity. now destruct Ht. }
  inversion B as [|? ? _ Bs]; subst. cbn [ref_int].
  pose proof (lax_length_spec (pre ++ [0x02]) suf Bs) as E. rewrite <- app_assoc in E. cbn [app] in E.
  specialize (E L). rewrite length_app in E. cbn [length] in E.
  replace (Z.of_nat (length pre + 1)) with (Z.of_nat (length pre) + 1) in E by lia. rewrite E.
  destruct (ref_length suf) as [[n rest]|] eqn:R; cbn [after lax_bind]; [|reflexivity].
  destruct (ref_length_sound suf n rest Bs R) as (lb & -> & _ & Hn).
  exists (0x02 :: lb). split; [cbn [app]; now rewrite firstn_skipn|].
  rewrite !length_app in *. cbn [length] in *. rewrite length_app in L'.
  rewrite !length_app, length_firstn. f_equal. f_equal; [f_equal|]; lia.
Qed.

Lemma bytes_at_spec pre c suf pos : pos = Z.of_nat (length pre) ->
  bytes_at (pre ++ c ++ suf) pos (Z.of_nat (length c)) = Got c.
Proof.
  intros ->. unfold bytes_at. rewrite (proj2 (Z.leb_le _ _)) by (rewrite !length_app; lia).
  unfold slice. rewrite !Nat2Z.id, skipn_app_exact, firstn_app_exact by reflexivity. reflexivity.
Qed.

(** The significant bytes of a content. *)
Fixpoint stripped (c : bytes) : bytes :=
  match c with 0 :: c => stripped c | _ => c end.

Lemma stripped_zeros k l : l = [] \/ hd 0 l <> 0 -> stripped (repeat 0 k ++ l) = l.
Proof.
  intros H. induction k as [|k IH]; [|exact IH]. cbn [repeat app]. destruct l as [|b l]; [reflexivity|].
  destruct H as [H|H]; [discriminate H|]. cbn [hd] in H. destruct b; [contradiction|reflexivity..].
Qed.

Lemma stripped_spec c : Forall is_byte c -> Forall is_byte (stripped c) /\
  be_val (stripped c) = be_val c /\ (stripped c = [] \/ hd 0 (stripped c) <> 0).
Proof.
  induction 1 as [|b c Hb Hc (IH1 & IH2 & IH3)]; [cbn; auto|].
  cbn [stripped]. destruct b as [|b|b].
  - split; [exact IH1|]. split; [|exact IH3]. now rewrite be_val_cons, Z.mul_0_l.
  - split; [now constructor|]. split; [reflexivity|right; discriminate].
  - split; [now constructor|]. split; [reflexivity|right; discriminate].
Qed.

Lemma lax_copy_spec pre c suf pos last tmpsig ov : pos = Z.of_nat (length pre) ->
  lax_copy (pre ++ c ++ suf) pos (Z.of_nat (length c)) last tmpsig ov
  = if Nat.ltb 32 (length (stripped c)) then Got (tmpsig, true)
    else Got (overwrite tmpsig (last - length (stripped c)) (stripped c), ov).
Proof.
  intros Hp. unfold lax_copy. rewrite Nat2Z.id.
  destruct (lax_skip_spec c pre suf pos Hp) as (k & l & E & Hl & ->). cbn [lax_bind]. subst c.
  rewrite (stripped_zeros k l Hl). destruct (Nat.ltb 32 (length l)); [reflexivity|].
  rewrite <- app_assoc, app_assoc, bytes_at_spec; [reflexivity|].
  rewrite length_app, repeat_length. lia.
Qed.

(** ** The container of a private key *)

(** Version 1 and an octet string of at most 32 bytes; what follows does not matter. *)
Definition ref_key (len : Z) (suf : bytes) : option bytes :=
  if Z.of_nat (length suf) <? len then None else
  match suf with
  | v0 :: v1 :: v2 :: suf =>
    if (v0 =? 2) && (v1 =? 1) && (v2 =? 1) then
      match suf with
      | o0 :: o1 :: suf =>
        if (o0 =? 4) && (o1 <=? 32) && (o1 <=? Z.of_nat (length suf)) then Some (firstn (Z.to_nat o1) suf)
        else None
      | _ => None
      end
    else None
  | _ => None
  end.

(** A sequence whose length takes one or two bytes. *)
Definition ref_container (input : bytes) : option bytes :=
  match input with
  | t :: b :: suf =>
    if t =? 0x30 then
      if b =? 0x81 then match suf with l0 :: suf => ref_key l0 suf | _ => None end
      else if b =? 0x82 then
        match suf with l1 :: l0 :: suf => ref_key (l1 * 256 + l0) suf | _ => None end
      else None
    else None
  | _ => None
  end.

(** The fixed parts of an exported key. *)
Definition begin_compressed : bytes := [
  0x30; 0x81; 0xD3; 0x02; 0x01; 0x01; 0x04; 0x20].

Definition middle_compressed : bytes := [
  0xA0; 0x81; 0x85; 0x30; 0x81; 0x82; 0x02; 0x01; 0x01; 0x30; 0x2C; 0x06; 0x07; 0x2A; 0x86; 0x48;
  0xCE; 0x3D; 0x01; 0x01; 0x02; 0x21; 0x00; 0xFF; 0xFF; 0xFF; 0xFF; 0xFF; 0xFF; 0xFF; 0xFF; 0xFF;
  0xFF; 0xFF; 0xFF; 0xFF; 0xFF; 0xFF; 0xFF; 0xFF; 0xFF; 0xFF; 0xFF; 0xFF; 0xFF; 0xFF; 0xFF; 0xFF;
  0xFF; 0xFF; 0xFE; 0xFF; 0xFF; 0xFC; 0x2F; 0x30; 0x06; 0x04; 0x01; 0x00; 0x04; 0x01; 0x07; 0x04;
  0x21; 0x02; 0x79; 0xBE; 0x66; 0x7E; 0xF9; 0xDC; 0xBB; 0xAC; 0x55; 0xA0; 0x62; 0x95; 0xCE; 0x87;
  0x0B; 0x07; 0x02; 0x9B; 0xFC; 0xDB; 0x2D; 0xCE; 0x28; 0xD9; 0x59; 0xF2; 0x81; 0x5B; 0x16; 0xF8;
  0x17; 0x98; 0x02; 0x21; 0x00; 0xFF; 0xFF; 0xFF; 0xFF; 0xFF; 0xFF; 0xFF; 0xFF; 0xFF; 0xFF; 0xFF;
  0xFF; 0xFF; 0xFF; 0xFF; 0xFE; 0xBA; 0xAE; 0xDC; 0xE6; 0xAF; 0x48; 0xA0; 0x3B; 0xBF; 0xD2; 0x5E;
  0x8C; 0xD0; 0x36; 0x41; 0x41; 0x02; 0x01; 0x01; 0xA1; 0x24; 0x03; 0x22; 0x00].

Definition begin_uncompressed : bytes := [
  0x30; 0x82; 0x01; 0x13; 0x02; 0x01; 0x01; 0x04; 0x20].

Definition middle_uncompressed : bytes := [
  0xA0; 0x81; 0xA5; 0x30; 0x81; 0xA2; 0x02; 0x01; 0x01; 0x30; 0x2C; 0x06; 0x07; 0x2A; 0x86; 0x48;
  0xCE; 0x3D; 0x01; 0x01; 0x02; 0x21; 0x00; 0xFF; 0xFF; 0xFF; 0xFF; 0xFF; 0xFF; 0xFF; 0xFF; 0xFF;
  0xFF; 0xFF; 0xFF; 0xFF; 0xFF; 0xFF; 0xFF; 0xFF; 0xFF; 0xFF; 0xFF; 0xFF; 0xFF; 0xFF; 0xFF; 0xFF;
  0xFF; 0xFF; 0xFE; 0xFF; 0xFF; 0xFC; 0x2F; 0x30; 0x06; 0x04; 0x01; 0x00; 0x04; 0x01; 0x07; 0x04;
  0x41; 0x04; 0x79; 0xBE; 0x66; 0x7E; 0xF9; 0xDC; 0xBB; 0xAC; 0x55; 0xA0; 0x62; 0x95; 0xCE; 0x87;
  0x0B; 0x07; 0x02; 0x9B; 0xFC; 0xDB; 0x2D; 0xCE; 0x28; 0xD9; 0x59; 0xF2; 0x81; 0x5B; 0x16; 0xF8;
  0x17; 0x98; 0x48; 0x3A; 0xDA; 0x77; 0x26; 0xA3; 0xC4; 0x65; 0x5D; 0xA4; 0xFB; 0xFC; 0x0E; 0x11;
  0x08; 0xA8; 0xFD; 0x17; 0xB4; 0x48; 0xA6; 0x85; 0x54; 0x19; 0x9C; 0x47; 0xD0; 0x8F; 0xFB; 0x10;
  0xD4; 0xB8; 0x02; 0x21; 0x00; 0xFF; 0xFF; 0xFF; 0xFF; 0xFF; 0xFF; 0xFF; 0xFF; 0xFF; 0xFF; 0xFF;
  0xFF; 0xFF; 0xFF; 0xFF; 0xFE; 0xBA; 0xAE; 0xDC; 0xE6; 0xAF; 0x48; 0xA0; 0x3B; 0xBF; 0xD2; 0x5E;
  0x8C; 0xD0; 0x36; 0x41; 0x41; 0x02; 0x01; 0x01; 0xA1; 0x44; 0x03; 0x42; 0x00].

Section LaxDer.
Context {F : FieldImpl} {SI : ScalarImpl}.

(** [OutOfBounds] is an access outside of the input; [sig] is an output. *)
Definition ecdsa_signature_parse_der_lax (ctx : secp256k1_context)
    (sig : option secp256k1_ecdsa_signature) (input : bytes)
    : lax (api (option secp256k1_ecdsa_signature)) :=
  let tmpsig := repeat 0 64 in
  let first := secp256k1_ecdsa_signature_parse_compact ctx sig (Some tmpsig) in
  match
    get pos <- lax_sequence input;
    get (rpos, rlen, pos) <- lax_integer input pos;
    get (spos, slen, _) <- lax_integer input pos;
    get (tmpsig, overflow) <- lax_copy input rpos rlen 32 tmpsig false;
    lax_copy input spos slen 64 tmpsig overflow
  with
  | OutOfBounds => OutOfBounds
  | Return0 => Got (Api false (out first) (illegal first))
  | Got (tmpsig, overflow) =>
    let second :=
      if overflow then Api false (out first) (illegal first)
      else
        let r := secp256k1_ecdsa_signature_parse_compact ctx (out first) (Some tmpsig) in
        Api (ret r) (out r) (illegal first ++ illegal r) in
    if ret second then Got (Api true (out second) (illegal second))
    else
      let third := secp256k1_ecdsa_signature_parse_compact ctx (out second) (Some (repeat 0 64)) in
      Got (Api true (out third) (illegal second ++ illegal third))
  end.

(** ** lax_der_privatekey_parsing.c *)

(** [privkey] is the position of the pointer; the key found and whether it is
    one. *)
Definition ec_privkey_import_der (ctx : secp256k1_context) (privkey : bytes) : lax (api bytes) :=
  let stop := Z.of_nat (length privkey) in
  let out32 := repeat 0 32 in
  let reject := Got (Api false out32 []) in
  let pos := 0 in
  if stop <? pos + 1 then reject else
  get tag <- byte_at privkey pos;
  if negb (tag =? 0x30) then reject else
  let pos := pos + 1 in
  if stop <? pos + 1 then reject else
  get b <- byte_at privkey pos;
  if (b .& 0x80) =? 0 then reject else
  let lenb := b .& not32 0x80 in
  let pos := pos + 1 in
  if (lenb <? 1) || (2 <? lenb) then reject else
  if stop <? pos + lenb then reject else
  get low <- byte_at privkey (pos + (lenb - 1));
  get high <- (if 1 <? lenb then get b <- byte_at privkey (pos + (lenb - 2)); Got (b << 8) else Got 0);
  let len := low .| high in
  let pos := pos + lenb in
  if stop <? pos + len then reject else
  if stop <? pos + 3 then reject else
  get v0 <- byte_at privkey pos;
  if negb (v0 =? 0x02) then reject else
  get v1 <- byte_at privkey (pos + 1);
  if negb (v1 =? 0x01) then reject else
  get v2 <- byte_at privkey (pos + 2);
  if negb (v2 =? 0x01) then reject else
  let pos := pos + 3 in
  if stop <? pos + 2 then reject else
  get o0 <- byte_at privkey pos;
  if negb (o0 =? 0x04) then reject else
  get o1 <- byte_at privkey (pos + 1);
  if (0x20 <? o1) || (stop <? pos + 2 + o1) then reject else
  get key <- bytes_at privkey (pos + 2) o1;
  let out32 := overwrite out32 (Z.to_nat (32 - o1)) key in
  let verify := secp256k1_ec_seckey_verify ctx (Some out32) in
  if negb (ret verify) then Got (Api false (repeat 0 32) (illegal verify))
  else Got (Api true out32 (illegal verify)).

(** [pubkey0] is the uninitialised structure; the outputs are the buffer and
    [*privkeylen]. *)
Definition ec_privkey_export_der (ctx : secp256k1_context) (pubkey0 : secp256k1_pubkey)
    (privkey : bytes) (key32 : bytes) (compressed : bool) : api (bytes * Z) :=
  let create := secp256k1_ec_pubkey_create ctx (Some pubkey0) (Some key32) in
  if negb (ret create) then Api false (privkey, 0) (illegal create) else
  let begin := if compressed then begin_compressed else begin_uncompressed in
  let middle := if compressed then middle_compressed else middle_uncompressed in
  let ptr := 0%nat in
  let privkey := overwrite privkey ptr begin in
  let ptr := (ptr + length begin)%nat in
  let privkey := overwrite privkey ptr (slice key32 0 32) in
  let ptr := (ptr + 32)%nat in
  let privkey := overwrite privkey ptr middle in
  let ptr := (ptr + length middle)%nat in
  let pubkeylen := if compressed then 33 else 65 in
  let serialize := secp256k1_ec_pubkey_serialize ctx
    (Some (slice privkey ptr (Z.to_nat pubkeylen))) (Some pubkeylen) (out create)
    (if compressed then SECP256K1_EC_COMPRESSED else SECP256K1_EC_UNCOMPRESSED) in
  match out serialize with
  | (Some octets, Some pubkeylen) =>
    let privkey := overwrite privkey ptr octets in
    Api true (privkey, Z.of_nat ptr + pubkeylen) (illegal create ++ illegal serialize)
  | _ => Api true (privkey, Z.of_nat ptr + pubkeylen) (illegal create ++ illegal serialize)
  end.

(** * Theorems *)

Lemma lax_sequence_spec input : Forall is_byte input -> Z.of_nat (length input) < 2 ^ 63 ->
  match input with
  | 0x30 :: suf =>
    match ref_skip suf with
    | None => lax_sequence input = Return0
    | Some rest => exists pre, input = pre ++ rest /\ lax_sequence input = Got (Z.of_nat (length pre))
    end
  | _ => lax_sequence input = Return0
  end.
Proof.
  intros B L. unfold lax_sequence. destruct input as [|t suf]; [reflexivity|].
  destruct (Z.eqb_spec 0 (Z.of_nat (length (t :: suf)))) as [|_]; [cbn [length] in *; lia|].
  rewrite (byte_at_app [] t suf 0 eq_refl : byte_at (t :: suf) 0 = Got t). cbn [lax_bind].
  destruct (Z.eqb_spec t 0x30) as [->|Ht]; cbn [negb].
  2: { destruct t as [|t|t]; try reflexivity. do 6 (destruct t as [t|t|]; try reflexivity). now destruct Ht. }
  inversion B as [|? ? _ Bs]; subst. destruct suf as [|b suf]; [reflexivity|]. cbn [length] in *.
  destruct (Z.eqb_spec (0 + 1) (Z.of_nat (S (S (length suf))))) as [|_]; [lia|].
  rewrite (byte_at_app [0x30] b suf (0 + 1) eq_refl : byte_at (0x30 :: b :: suf) (0 + 1) = Got b).
  cbn [lax_bind ref_skip]. inversion Bs as [|? ? Bb _]; subst. rewrite (top_bit_clear b Bb).
  unfold is_byte in Bb. destruct (Z.ltb_spec b 0x80) as [Hb|Hb]; cbn [negb].
  - exists [0x30; b]. split; reflexivity.
  - change 0x80 with 128. unfold u64. rewrite Z.mod_small by lia.
    destruct (Nat.ltb_spec (length suf) (Z.to_nat (b - 128))) as [K|K].
    { now rewrite (proj2 (Z.ltb_lt _ _)) by lia. }
    rewrite (proj2 (Z.ltb_ge _ _)) by lia. exists (0x30 :: b :: firstn (Z.to_nat (b - 128)) suf).
    split; [cbn [app]; now rewrite firstn_skipn|]. cbn [length]. rewrite length_firstn. f_equal. lia.
Qed.

(** The 32 bytes of a number that fits, and whether it is above the order. *)
Definition half (c : bytes) : bytes := repeat 0 (32 - length (stripped c)) ++ stripped c.

Lemma half_spec c : Forall is_byte c -> (length (stripped c) <= 32)%nat ->
  length (half c) = 32%nat /\ Forall is_byte (half c) /\ be_val (half c) = be_val c.
Proof.
  intros B L. destruct (stripped_spec c B) as (Bs & V & _). unfold half.
  split; [rewrite length_app, repeat_length; lia|]. split; [|rewrite be_val_zeros; exact V].
  apply Forall_app. split; [|exact Bs]. apply Forall_forall. intros x Hx.
  apply repeat_spec in Hx. subst x. unfold is_byte. lia.
Qed.

Lemma too_long c : Forall is_byte c -> (32 < length (stripped c))%nat -> n_order <= be_val c.
Proof.
  intros B L. destruct (stripped_spec c B) as (Bs & <- & [E|H]); [rewrite E in L; cbn in L; lia|].
  now apply long_above_order.
Qed.

Lemma overwrite_mid (pre old post src : bytes) n : length pre = n -> length old = length src ->
  overwrite (pre ++ old ++ post) n src = pre ++ src ++ post.
Proof.
  intros Hp Ho. unfold overwrite. rewrite firstn_app_exact by exact Hp. do 2 f_equal.
  rewrite app_assoc. apply skipn_app_exact. rewrite length_app. lia.
Qed.

(** The copies of both numbers. *)
Lemma copied l1 l2 c1 c2 : length c1 = l1 -> length c2 = l2 -> (l1 <= 32)%nat -> (l2 <= 32)%nat ->
  overwrite (overwrite (repeat 0 64) (32 - l1) c1) (64 - l2) c2
  = (repeat 0 (32 - l1) ++ c1) ++ (repeat 0 (32 - l2) ++ c2).
Proof.
  intros E1 E2 H1 H2.
  replace (repeat 0 64) with (repeat 0 (32 - l1) ++ repeat 0 l1 ++ repeat 0 32)
    by (rewrite <- !repeat_app; f_equal; lia).
  rewrite overwrite_mid by (rewrite repeat_length; lia).
  replace (repeat 0 32) with (repeat 0 (32 - l2) ++ repeat 0 l2) by (rewrite <- repeat_app; f_equal; lia).
  rewrite !app_assoc, <- (app_nil_r (_ ++ repeat 0 l2)), <- (app_assoc _ (repeat 0 l2)).
  rewrite overwrite_mid by (rewrite ?length_app, !repeat_length; lia). now rewrite app_nil_r.
Qed.

(** The scalar of a number below the order. *)
Definition scalar_of (v : Z) : scalar := fst (s_set_b32 (be_bytes 32 v)).

Definition lax_signature (c1 c2 : bytes) : secp256k1_ecdsa_signature :=
  if (be_val c1 <? n_order) && (be_val c2 <? n_order) then (scalar_of (be_val c1), scalar_of (be_val c2))
  else signature_zero.

Lemma set_half l : Forall is_byte l -> length l = 32%nat ->
  exists x, s_set_b32 l = (x, n_order <=? be_val l) /\ (be_val l < n_order -> x = scalar_of (be_val l)).
Proof.
  intros B L. pose proof (s_set_b32_ok l B L) as S. unfold scalar_of.
  replace (be_bytes 32 (be_val l)) with l by (rewrite <- L; symmetry; apply be_bytes_val, B).
  destruct (s_set_b32 l) as [s o]. destruct S as (_ & _ & ->). exists s. split; reflexivity.
Qed.

Lemma parse_compact_spec ctx sig a b : Forall is_byte a -> length a = 32%nat ->
  Forall is_byte b -> length b = 32%nat ->
  secp256k1_ecdsa_signature_parse_compact ctx (Some sig) (Some (a ++ b)) =
  Api ((be_val a <? n_order) && (be_val b <? n_order)) (Some (lax_signature a b)) [].
Proof.
  intros Ba La Bb Lb. unfold secp256k1_ecdsa_signature_parse_compact, ARG_CHECK, not_null.
  destruct (read_halves a b La Lb) as [-> ->].
  destruct (set_half a Ba La) as (x & -> & Sa), (set_half b Bb Lb) as (y & -> & Sb). unfold lax_signature.
  rewrite <- !Z.ltb_antisym. cbn [andb].
  destruct (Z.ltb_spec (be_val a) n_order); cbn [andb]; [|reflexivity].
  destruct (Z.ltb_spec (be_val b) n_order); cbn [andb]; [|reflexivity].
  unfold secp256k1_ecdsa_signature_save. rewrite Sa, Sb by assumption. reflexivity.
Qed.

Lemma zeros_half : repeat 0 64 = repeat 0 32 ++ repeat 0 32 /\ Forall is_byte (repeat 0 32) /\
  be_val (repeat 0 32) = 0.
Proof. split; [reflexivity|]. split; [repeat constructor; unfold is_byte; lia|reflexivity]. Qed.

Lemma parse_zeros ctx sig :
  secp256k1_ecdsa_signature_parse_compact ctx (Some sig) (Some (repeat 0 64))
  = Api true (Some signature_zero) [].
Proof.
  destruct zeros_half as (-> & B & V). rewrite (parse_compact_spec ctx sig _ _ B eq_refl B eq_refl).
  unfold lax_signature. rewrite V. change (0 <? n_order) with true. cbn [andb].
  destruct (s_set_int_ok 0 ltac:(lia)) as [O0 V0].
  pose proof (scalar_codec _ O0) as S. rewrite V0 in S. unfold scalar_of. rewrite S. reflexivity.
Qed.

(** What the two copies leave, in the three cases. *)
Lemma two_copies input p1 c1 s1 p2 c2 s2 : input = p1 ++ c1 ++ s1 -> input = p2 ++ c2 ++ s2 ->
  Forall is_byte c1 -> Forall is_byte c2 -> exists tmp,
  (get (tmpsig, overflow) <- lax_copy input (Z.of_nat (length p1)) (Z.of_nat (length c1)) 32 (repeat 0 64) false;
   lax_copy input (Z.of_nat (length p2)) (Z.of_nat (length c2)) 64 tmpsig overflow)
  = Got (tmp, Nat.ltb 32 (length (stripped c1)) || Nat.ltb 32 (length (stripped c2))) /\
  ((length (stripped c1) <= 32)%nat -> (length (stripped c2) <= 32)%nat -> tmp = half c1 ++ half c2).
Proof.
  intros E1 E2 B1 B2. subst input. rewrite (lax_copy_spec p1 c1 s1) by reflexivity.
  destruct (Nat.ltb_spec 32 (length (stripped c1))) as [K1|K1]; cbn [lax_bind orb];
    rewrite E2, (lax_copy_spec p2 c2 s2) by reflexivity;
    destruct (Nat.ltb_spec 32 (length (stripped c2))) as [K2|K2]; eexists; (split; [reflexivity|]);
    intros; try lia.
  unfold half. now apply copied.
Qed.

Lemma lax_signature_half c1 c2 : Forall is_byte c1 -> Forall is_byte c2 ->
  (length (stripped c1) <= 32)%nat -> (length (stripped c2) <= 32)%nat ->
  lax_signature (half c1) (half c2) = lax_signature c1 c2.
Proof.
  intros B1 B2 L1 L2. destruct (half_spec c1 B1 L1) as (_ & _ & V1), (half_spec c2 B2 L2) as (_ & _ & V2).
  unfold lax_signature. now rewrite V1, V2.
Qed.

Lemma lax_signature_big c1 c2 : Forall is_byte c1 -> Forall is_byte c2 ->
  Nat.ltb 32 (length (stripped c1)) || Nat.ltb 32 (length (stripped c2)) = true ->
  lax_signature c1 c2 = signature_zero.
Proof.
  intros B1 B2 H. unfold lax_signature.
  apply orb_true_iff in H. rewrite !Nat.ltb_lt in H. destruct H as [H|H]; apply too_long in H; try assumption.
  - now rewrite (proj2 (Z.ltb_ge _ _) H).
  - rewrite (proj2 (Z.ltb_ge _ _) H). now rewrite andb_false_r.
Qed.

Lemma lax_spec ctx sig0 input : Forall is_byte input -> Z.of_nat (length input) < 2 ^ 63 ->
  ecdsa_signature_parse_der_lax ctx (Some sig0) input =
  Got (match ref_form input with
       | Some (c1, c2) => Api true (Some (lax_signature c1 c2)) []
       | None => Api false (Some signature_zero) []
       end).
Proof.
  intros B L. unfold ecdsa_signature_parse_der_lax. rewrite parse_zeros. cbn [out illegal].
  pose proof (lax_sequence_spec input B L) as S. unfold ref_form.
  destruct input as [|t suf]; [now rewrite S|].
  destruct (Z.eq_dec t 0x30) as [->|Ht].
  2: { assert (E : lax_sequence (t :: suf) = Return0).
       { destruct t as [|t|t]; try exact S. do 6 (destruct t as [t|t|]; try exact S). now destruct Ht. }
       rewrite E. cbn [lax_bind]. destruct t as [|t|t]; try reflexivity.
       do 6 (destruct t as [t|t|]; try reflexivity). now destruct Ht. }
  destruct (ref_skip suf) as [r0|]; [|now rewrite S]. destruct S as (p0 & E0 & ->). cbn [lax_bind].
  rewrite E0 in B, L |- *. apply Forall_app in B. destruct B as [Bp B].
  pose proof (lax_integer_spec p0 r0 B L) as I1. destruct (ref_int r0) as [[c1 r1]|]; [|now rewrite I1].
  destruct I1 as (m1 & -> & ->). cbn [lax_bind].
  assert (B1 : Forall is_byte r1 /\ Forall is_byte c1) by (rewrite !Forall_app in B; tauto).
  replace (p0 ++ m1 ++ c1 ++ r1) with ((p0 ++ m1 ++ c1) ++ r1) in * by (rewrite <- !app_assoc; reflexivity).
  pose proof (lax_integer_spec _ r1 (proj1 B1) L) as I2. destruct (ref_int r1) as [[c2 r2]|]; [|now rewrite I2].
  destruct I2 as (m2 & -> & ->). cbn [lax_bind].
  assert (B2 : Forall is_byte c2) by (destruct B1 as [B1 _]; rewrite !Forall_app in B1; tauto).
  destruct (two_copies ((p0 ++ m1 ++ c1) ++ m2 ++ c2 ++ r2) (p0 ++ m1) c1 (m2 ++ c2 ++ r2)
    ((p0 ++ m1 ++ c1) ++ m2) c2 r2) as (tmp & -> & T).
  - rewrite <- !app_assoc. reflexivity.
  - rewrite <- !app_assoc. reflexivity.
  - exact (proj2 B1).
  - exact B2.
  - destruct (_ || _) eqn:K.
    + rewrite (lax_signature_big c1 c2 (proj2 B1) B2 K). cbn [ret out illegal]. now rewrite parse_zeros.
    + apply orb_false_iff in K. rewrite !Nat.ltb_ge in K. destruct K as [K1 K2].
      rewrite (T K1 K2). destruct (half_spec c1 (proj2 B1) K1) as (L1 & H1 & V1), (half_spec c2 B2 K2) as (L2 & H2 & V2).
      rewrite (parse_compact_spec ctx _ _ _ H1 L1 H2 L2). cbn [ret out illegal app].
      rewrite (lax_signature_half c1 c2 (proj2 B1) B2 K1 K2), V1, V2.
      destruct ((be_val c1 <? n_order) && (be_val c2 <? n_order)) eqn:E; [reflexivity|].
      rewrite parse_zeros. unfold lax_signature. now rewrite E.
Qed.

(** ** Private keys *)

Lemma byte_at_suf pre suf k b pos : pos = Z.of_nat (length pre) + Z.of_nat k ->
  nth_error suf k = Some b -> byte_at (pre ++ suf) pos = Got b.
Proof.
  intros -> H. unfold byte_at. replace (Z.to_nat _) with (length pre + k)%nat by lia.
  rewrite nth_error_app2, Nat.add_comm, Nat.add_sub by lia. now rewrite H.
Qed.

(** The part of the import after the length, [pre] being what was read. *)
Definition import_tail (ctx : secp256k1_context) (privkey : bytes) (pos : Z) : lax (api bytes) :=
  let stop := Z.of_nat (length privkey) in
  let reject := Got (Api false (repeat 0 32) []) in
  if stop <? pos + 3 then reject else
  get v0 <- byte_at privkey pos;
  if negb (v0 =? 0x02) then reject else
  get v1 <- byte_at privkey (pos + 1);
  if negb (v1 =? 0x01) then reject else
  get v2 <- byte_at privkey (pos + 2);
  if negb (v2 =? 0x01) then reject else
  let pos := pos + 3 in
  if stop <? pos + 2 then reject else
  get o0 <- byte_at privkey pos;
  if negb (o0 =? 0x04) then reject else
  get o1 <- byte_at privkey (pos + 1);
  if (0x20 <? o1) || (stop <? pos + 2 + o1) then reject else
  get key <- bytes_at privkey (pos + 2) o1;
  let out32 := overwrite (repeat 0 32) (Z.to_nat (32 - o1)) key in
  let verify := secp256k1_ec_seckey_verify ctx (Some out32) in
  if negb (ret verify) then Got (Api false (repeat 0 32) (illegal verify))
  else Got (Api true out32 (illegal verify)).

(** What a key that was found gives. *)
Definition imported (kb : bytes) : api bytes :=
  let key32 := repeat 0 (32 - length kb) ++ kb in
  if seckey_valid key32 then Api true key32 [] else Api false (repeat 0 32) [].

Lemma seckey_verify_spec ctx key : seckey_ok key ->
  secp256k1_ec_seckey_verify ctx (Some key) = Api (seckey_valid key) tt [].
Proof.
  intros Hk. unfold secp256k1_ec_seckey_verify. pose proof (seckey_read key Hk) as K.
  destruct (s_set_b32 key) as [s o]. destruct K as (_ & _ & _ & E & _). now rewrite E.
Qed.

Lemma padded_key kb : Forall is_byte kb -> (length kb <= 32)%nat ->
  overwrite (repeat 0 32) (32 - length kb) kb = repeat 0 (32 - length kb) ++ kb /\
  seckey_ok (repeat 0 (32 - length kb) ++ kb).
Proof.
  intros B L. split.
  - replace (repeat 0 32) with (repeat 0 (32 - length kb) ++ repeat 0 (length kb) ++ [])
      by (rewrite app_nil_r, <- repeat_app; f_equal; lia).
    rewrite overwrite_mid by (rewrite !repeat_length; lia). now rewrite app_nil_r.
  - split; [|rewrite length_app, repeat_length; lia]. apply Forall_app. split; [|exact B].
    apply Forall_forall. intros x Hx. apply repeat_spec in Hx. subst x. unfold is_byte. lia.
Qed.

Lemma import_tail_spec ctx pre suf : Forall is_byte suf ->
  import_tail ctx (pre ++ suf) (Z.of_nat (length pre)) =
  Got (match ref_key 0 suf with Some kb => imported kb | None => Api false (repeat 0 32) [] end).
Proof.
  intros B. unfold import_tail, ref_key. rewrite length_app.
  rewrite (proj2 (Z.ltb_ge (Z.of_nat (length suf)) 0)) by lia.
  destruct suf as [|v0 [|v1 [|v2 suf]]]; cbn [length];
    try (rewrite (proj2 (Z.ltb_lt _ _)) by lia; reflexivity).
  set (all := v0 :: v1 :: v2 :: suf). rewrite (proj2 (Z.ltb_ge _ _)) by lia.
  rewrite (byte_at_suf pre all 0 v0) by (reflexivity || lia). cbn [lax_bind].
  destruct (v0 =? 2); cbn [negb andb]; [|reflexivity].
  rewrite (byte_at_suf pre all 1 v1) by (reflexivity || lia). cbn [lax_bind].
  destruct (v1 =? 1); cbn [negb andb]; [|reflexivity].
  rewrite (byte_at_suf pre all 2 v2) by (reflexivity || lia). cbn [lax_bind].
  destruct (v2 =? 1); cbn [negb andb]; [|reflexivity].
  destruct suf as [|o0 [|o1 suf]]; cbn [length]; try (rewrite (proj2 (Z.ltb_lt _ _)) by lia; reflexivity).
  rewrite (proj2 (Z.ltb_ge _ _)) by lia.
  rewrite (byte_at_suf pre all 3 o0) by (reflexivity || lia). cbn [lax_bind].
  destruct (o0 =? 4); cbn [negb andb]; [|reflexivity].
  rewrite (byte_at_suf pre all 4 o1) by (reflexivity || lia). cbn [lax_bind].
  assert (Bo : is_byte o1 /\ Forall is_byte suf).
  { unfold all in *. inversion B as [|? ? _ B1]; inversion B1 as [|? ? _ B2]; inversion B2 as [|? ? _ B3];
      inversion B3 as [|? ? _ B4]; inversion B4; subst. now split. }
  destruct Bo as [Bo Bs]. unfold is_byte in Bo.
  destruct (Z.ltb_spec 0x20 o1), (Z.leb_spec o1 32); try lia; cbn [orb andb]; [reflexivity|].
  destruct (Z.ltb_spec (Z.of_nat (length pre + S (S (S (S (S (length suf)))))))
    (Z.of_nat (length pre) + 3 + 2 + o1)), (Z.leb_spec o1 (Z.of_nat (length suf))); try lia; [reflexivity|].
  set (kb := firstn (Z.to_nat o1) suf). assert (Lk : Z.of_nat (length kb) = o1)
    by (unfold kb; rewrite length_firstn; lia).
  rewrite <- Lk at 1. unfold all. rewrite <- (firstn_skipn (Z.to_nat o1) suf).
  rewrite (app_assoc pre [v0; v1; v2; o0; o1] (_ ++ _) : pre ++ v0 :: v1 :: v2 :: o0 :: o1 :: _ = _).
  rewrite bytes_at_spec by (rewrite length_app; cbn [length]; lia). cbn [lax_bind].
  destruct (padded_key kb (Forall_firstn _ _ _ Bs) ltac:(lia)) as [E K].
  replace (Z.to_nat (32 - o1)) with (32 - length kb)%nat by lia. rewrite E.
  rewrite (seckey_verify_spec ctx _ K). unfold imported. cbn [ret illegal].
  destruct (seckey_valid _); reflexivity.
Qed.

Lemma low_bits b : is_byte b -> b .& not32 0x80 = b mod 128.
Proof.
  intros Hb. assert (forallb (fun k => (Z.of_nat k .& not32 0x80) =? Z.of_nat k mod 128)
    (seq 0 256) = true) as H by reflexivity.
  rewrite forallb_forall in H. specialize (H (Z.to_nat b)). unfold is_byte in Hb.
  rewrite Z2Nat.id in H by lia. apply Z.eqb_eq, H, in_seq. lia.
Qed.

Lemma ref_key_len len suf : 0 <= len ->
  ref_key len suf = if Z.of_nat (length suf) <? len then None else ref_key 0 suf.
Proof.
  intros H. unfold ref_key. rewrite (proj2 (Z.ltb_ge (Z.of_nat (length suf)) 0)) by lia. reflexivity.
Qed.

(** A key that was found consists of at most 32 bytes. *)
Lemma ref_key_bytes len suf kb : Forall is_byte suf -> ref_key len suf = Some kb ->
  Forall is_byte kb /\ (length kb <= 32)%nat.
Proof.
  intros B. unfold ref_key. destruct (_ <? len); [discriminate|].
  destruct suf as [|v0 [|v1 [|v2 suf]]]; try discriminate. destruct (_ && _); [|discriminate].
  destruct suf as [|o0 [|o1 suf]]; try discriminate.
  destruct ((o0 =? 4) && (o1 <=? 32) && (o1 <=? Z.of_nat (length suf))) eqn:E; [|discriminate].
  apply andb_true_iff in E. destruct E as [E1 _]. apply andb_true_iff in E1. rewrite Z.leb_le in E1.
  intros K. injection K as <-. split; [|rewrite length_firstn; lia].
  apply Forall_firstn. exact (Forall_skipn _ 5 _ B).
Qed.

Lemma container_key input kb : Forall is_byte input -> ref_container input = Some kb ->
  Forall is_byte kb /\ (length kb <= 32)%nat.
Proof.
  intros B. unfold ref_container. destruct input as [|t [|b suf]]; try discriminate.
  destruct (t =? 0x30); [|discriminate]. destruct (b =? 0x81).
  { destruct suf as [|l0 suf]; [discriminate|]. apply ref_key_bytes. exact (Forall_skipn _ 3 _ B). }
  destruct (b =? 0x82); [|discriminate]. destruct suf as [|l1 [|l0 suf]]; try discriminate.
  apply ref_key_bytes. exact (Forall_skipn _ 4 _ B).
Qed.

(** Going on after a length of [len]. *)
Lemma import_end ctx pre suf len : Forall is_byte suf -> 0 <= len ->
  (if Z.of_nat (length (pre ++ suf)) <? Z.of_nat (length pre) + len then Got (Api false (repeat 0 32) [])
   else import_tail ctx (pre ++ suf) (Z.of_nat (length pre)))
  = Got (match ref_key len suf with Some kb => imported kb | None => Api false (repeat 0 32) [] end).
Proof.
  intros B L. rewrite (ref_key_len len suf L), import_tail_spec, length_app by exact B.
  destruct (Z.ltb_spec (Z.of_nat (length pre + length suf)) (Z.of_nat (length pre) + len)),
    (Z.ltb_spec (Z.of_nat (length suf)) len); try lia; reflexivity.
Qed.

Lemma import_spec ctx input : Forall is_byte input ->
  ec_privkey_import_der ctx input =
  Got (match ref_container input with Some kb => imported kb | None => Api false (repeat 0 32) [] end).
Proof.
  intros B. unfold ec_privkey_import_der. destruct input as [|t [|b suf]]; [reflexivity| |].
  { cbn [length]. change (Z.of_nat 1 <? 0 + 1) with false. cbv iota zeta.
    rewrite (byte_at_suf [] [t] 0 t) by reflexivity. cbn [lax_bind]. now destruct (negb (t =? 0x30)). }
  set (input := t :: b :: suf). assert (L : Z.of_nat (length input) = 2 + Z.of_nat (length suf))
    by (unfold input; cbn [length]; lia).
  inversion B as [|? ? _ B1]; subst. inversion B1 as [|? ? Bb Bs]; subst. cbv zeta.
  rewrite (proj2 (Z.ltb_ge _ (0 + 1))), (proj2 (Z.ltb_ge _ (0 + 1 + 1))) by lia.
  rewrite (byte_at_suf [] input 0 t) by reflexivity. cbn [lax_bind].
  rewrite (byte_at_suf [] input 1 b) by reflexivity. cbn [lax_bind].
  unfold ref_container, input. destruct (t =? 0x30); cbn [negb]; [|reflexivity]. fold input.
  rewrite (top_bit_clear b Bb), (low_bits b Bb). unfold is_byte in Bb.
  destruct (Z.ltb_spec b 0x80).
  { destruct (Z.eqb_spec b 0x81); [lia|]. destruct (Z.eqb_spec b 0x82); [lia|]. reflexivity. }
  destruct (Z.eqb_spec b 0x81) as [->|N1]; [|destruct (Z.eqb_spec b 0x82) as [->|N2]].
  3: { replace ((b mod 128 <? 1) || (2 <? b mod 128)) with true; [reflexivity|].
       symmetry. rewrite orb_true_iff, !Z.ltb_lt. dlia. }
  - change ((0x81 mod 128 <? 1) || (2 <? 0x81 mod 128)) with false. change (0x81 mod 128) with 1. cbv iota.
    destruct suf as [|l0 suf]; [reflexivity|]. inversion Bs as [|? ? B0 Bs']; subst.
    rewrite (proj2 (Z.ltb_ge _ _)) by (rewrite L; cbn [length]; lia).
    rewrite (byte_at_suf [] input 2 l0) by reflexivity. change (1 <? 1) with false. cbn [lax_bind].
    rewrite Z.lor_0_r. exact (import_end ctx [t; 0x81; l0] suf l0 Bs' (proj1 B0)).
  - change ((0x82 mod 128 <? 1) || (2 <? 0x82 mod 128)) with false. change (0x82 mod 128) with 2. cbv iota.
    destruct suf as [|l1 [|l0 suf]]; [reflexivity..|].
    inversion Bs as [|? ? Bl1 Bs1]; subst. inversion Bs1 as [|? ? Bl0 Bs']; subst.
    rewrite (proj2 (Z.ltb_ge _ _)) by (rewrite L; cbn [length]; lia).
    rewrite (byte_at_suf [] input 3 l0) by reflexivity. change (1 <? 2) with true. cbv iota. cbn [lax_bind].
    rewrite (byte_at_suf [] input 2 l1) by reflexivity. cbn [lax_bind].
    unfold is_byte in Bl0, Bl1. rewrite (shl_lit l1 8 (2 ^ 8)) by reflexivity.
    rewrite lor_join by lia. rewrite (Z.add_comm l0). change (2 ^ 8) with 256.
    exact (import_end ctx [t; 0x82; l1; l0] suf (l1 * 256 + l0) Bs' ltac:(lia)).
Qed.

(** Consecutive copies. *)
Lemma overwrite_chain (buf a b : bytes) : (length a + length b <= length buf)%nat ->
  overwrite (overwrite buf 0 a) (length a) b = overwrite buf 0 (a ++ b).
Proof.
  intros L. unfold overwrite. cbn [firstn app Nat.add]. rewrite firstn_app_exact by reflexivity.
  rewrite <- app_assoc, length_app. do 2 f_equal.
  rewrite skipn_app, skipn_all2 by lia. cbn [app]. rewrite skipn_skipn. f_equal. lia.
Qed.

Definition export_bytes (key32 octets : bytes) (compressed : bool) : bytes :=
  if compressed then begin_compressed ++ key32 ++ middle_compressed ++ octets
  else begin_uncompressed ++ key32 ++ middle_uncompressed ++ octets.

Lemma export_spec ctx pk0 (buf : bytes) key (c : bool) : gen_ctx_ok (ecmult_gen_ctx ctx) -> seckey_ok key ->
  (279 <= length buf)%nat -> if seckey_valid key then
    exists octets : bytes, length octets = (if c then 33%nat else 65%nat) /\ Forall is_byte octets /\
      ec_privkey_export_der ctx pk0 buf key c
      = Api true (overwrite buf 0 (export_bytes key octets c), (if c then 214 else 279) : Z) []
  else ec_privkey_export_der ctx pk0 buf key c = Api false (buf, 0 : Z) [].
Proof.
  intros HG Hk Lb. pose proof (pubkey_create_spec ctx pk0 key HG Hk) as S.
  unfold ec_privkey_export_der. destruct (seckey_valid key); [|rewrite S; reflexivity].
  destruct S as (pk & -> & R). cbn [ret out illegal negb]. destruct Hk as [Bk Lk].
  destruct (smul (be_val key) G_point) as [|x y]; [now destruct (proj1 R)|].
  rewrite (slice_all key 32 Lk).
  set (octets := if c then compressed x y else uncompressed x y).
  assert (Lo : length octets = (if c then 33%nat else 65%nat))
    by (unfold octets, compressed, uncompressed; destruct c; cbn [length];
        rewrite ?length_app, !length_be_bytes; reflexivity).
  assert (Bo : Forall is_byte octets).
  { unfold octets, compressed, uncompressed. destruct c.
    - constructor; [unfold is_byte; destruct (Z.odd y); cbn; lia|apply be_bytes_byte].
    - constructor; [unfold is_byte; lia|]. apply Forall_app. split; apply be_bytes_byte. }
  exists octets. split; [exact Lo|]. split; [exact Bo|].
  assert (E : forall a m, (length a + 32 + length m + length octets <= length buf)%nat ->
    overwrite (overwrite (overwrite (overwrite buf 0 a) (0 + length a) key) (0 + length a + 32) m)
      (0 + length a + 32 + length m) octets = overwrite buf 0 (a ++ key ++ m ++ octets)).
  { intros a m Ea. rewrite Nat.add_0_l. rewrite overwrite_chain by lia.
    rewrite <- Lk, <- length_app, overwrite_chain by (rewrite length_app; lia).
    rewrite <- (length_app (a ++ key)), overwrite_chain by (rewrite !length_app; lia).
    now rewrite <- !app_assoc. }
  unfold export_bytes. destruct c; cbv zeta.
  - rewrite (api_serialize_spec ctx _ 33 pk x y SECP256K1_EC_COMPRESSED R) by (reflexivity || lia).
    change (negb (SECP256K1_EC_COMPRESSED .& SECP256K1_FLAGS_BIT_COMPRESSION =? 0)) with true.
    cbv iota. fold octets. rewrite overwrite_all by (rewrite repeat_length, Lo; reflexivity).
    cbn [out illegal app]. rewrite E by (rewrite Lo; cbn [length begin_compressed middle_compressed]; lia).
    rewrite Lo. reflexivity.
  - rewrite (api_serialize_spec ctx _ 65 pk x y SECP256K1_EC_UNCOMPRESSED R) by (reflexivity || lia).
    change (negb (SECP256K1_EC_UNCOMPRESSED .& SECP256K1_FLAGS_BIT_COMPRESSION =? 0)) with false.
    cbv iota. fold octets. rewrite overwrite_all by (rewrite repeat_length, Lo; reflexivity).
    cbn [out illegal app]. rewrite E by (rewrite Lo; cbn [length begin_uncompressed middle_uncompressed]; lia).
    rewrite Lo. reflexivity.
Qed.

Lemma scalar_of_val a : sok a -> scalar_of (sval a) = a.
Proof. intros H. unfold scalar_of. now rewrite (scalar_codec a H). Qed.

(** The canonical encoding has the form. *)
Lemma der_sig_lax c1 c2 sig : der_sig c1 c2 sig -> lax_form sig c1 c2.
Proof.
  intros ((_ & L1 & _) & (_ & L2 & _) & ->).
  exists [Z.of_nat (4 + length c2 + length c1)], (0x02 :: [Z.of_nat (length c1)] ++ c1),
    (0x02 :: [Z.of_nat (length c2)] ++ c2), [].
  split; [now rewrite app_nil_r|]. split; [constructor; lia|].
  split; eexists; (split; [constructor; lia|reflexivity]).
Qed.

Lemma export_length key octets (c : bool) : length key = 32%nat ->
  length octets = (if c then 33%nat else 65%nat) ->
  length (export_bytes key octets c) = (if c then 214%nat else 279%nat).
Proof.
  intros Lk Lo. unfold export_bytes. destruct c; rewrite !length_app, Lk, Lo; reflexivity.
Qed.

(** What is exported has the form of a container of the key. *)
Lemma export_container key octets (c : bool) : length key = 32%nat ->
  length octets = (if c then 33%nat else 65%nat) -> ref_container (export_bytes key octets c) = Some key.
Proof.
  intros Lk Lo. unfold export_bytes. destruct c; unfold begin_compressed, begin_uncompressed;
    cbn [app ref_container]; cbv iota beta delta [Z.eqb Pos.eqb];
    unfold ref_key; cbn [length]; rewrite !length_app, Lk, Lo;
    cbn [length middle_compressed middle_uncompressed Z.eqb Pos.eqb andb].
  - rewrite (proj2 (Z.ltb_ge _ _)) by lia.
    rewrite (proj2 (Z.leb_le 32 _)) by lia. change (32 <=? 32) with true. cbn [andb].
    now rewrite firstn_app_exact by exact Lk.
  - rewrite (proj2 (Z.ltb_ge _ _)) by lia.
    rewrite (proj2 (Z.leb_le 32 _)) by lia. change (32 <=? 32) with true. cbn [andb].
    now rewrite firstn_app_exact by exact Lk.
Qed.

Lemma export_bytes_byte key octets (c : bool) : Forall is_byte key -> Forall is_byte octets ->
  Forall is_byte (export_bytes key octets c).
Proof.
  intros Bk Bo. unfold export_bytes.
  assert (H : forall l, forallb (fun b => (0 <=? b) && (b <? 256)) l = true -> Forall is_byte l).
  { intros l Hl. rewrite forallb_forall in Hl. apply Forall_forall. intros x Hx. specialize (Hl x Hx).
    apply andb_true_iff in Hl. unfold is_byte. lia. }
  destruct c; rewrite !Forall_app; repeat split; try assumption; now apply H.
Qed.

Lemma imported_key key : seckey_ok key -> seckey_valid key = true ->
  imported key = Api true key [].
Proof. intros [_ L] V. unfold imported. rewrite L. cbn [repeat Nat.sub app]. now rewrite V. Qed.

(** C38: the lax parser never reads outside of its input; it accepts exactly the
    inputs of the grammar: a sequence with any length bytes, two integers with
    lengths below 2^56 in any number of bytes, and anything after; the result is
    the signature of both numbers, or of two zeros when one is not below the
    order; on any other input it is two zeros. *)
Theorem lax_der_decides_grammar ctx sig0 input : Forall is_byte input ->
  Z.of_nat (length input) < 2 ^ 63 -> exists r,
  ecdsa_signature_parse_der_lax ctx (Some sig0) input = Got r /\ illegal r = [] /\
  (ret r = true <-> exists c1 c2, lax_form input c1 c2) /\
  (forall c1 c2, lax_form input c1 c2 -> out r = Some (lax_signature c1 c2)) /\
  (ret r = false -> out r = Some signature_zero).
Proof.
  intros B L. rewrite (lax_spec ctx sig0 input B L). eexists. split; [reflexivity|].
  pose proof (ref_form_iff input) as I. destruct (ref_form input) as [[c1 c2]|]; cbn [ret out illegal].
  - split; [reflexivity|]. split; [|split; [|discriminate]].
    + split; [|reflexivity]. intros _. exists c1, c2. now apply I.
    + intros d1 d2 H. apply I in H; [|exact B]. now injection H as -> ->.
  - split; [reflexivity|]. assert (N : forall c1 c2, ~ lax_form input c1 c2).
    { intros c1 c2 H. apply I in H; [discriminate H|exact B]. }
    split; [|split; [|reflexivity]].
    + split; [discriminate|]. intros (c1 & c2 & H). now destruct (N c1 c2).
    + intros c1 c2 H. now destruct (N c1 c2).
Qed.

(** A signature the strict parser reads, with both numbers in range and not
    zero, is read by the lax parser as the same signature. *)
Theorem lax_der_extends_strict ctx sig0 input r s : Forall is_byte input ->
  Z.of_nat (length input) < 2 ^ 31 -> secp256k1_ecdsa_sig_parse input = Some (r, s) ->
  sval r <> 0 -> sval s <> 0 ->
  ecdsa_signature_parse_der_lax ctx (Some sig0) input = Got (Api true (Some (r, s)) []).
Proof.
  intros B L H Hr Hs. rewrite (lax_spec ctx sig0 input B) by lia.
  destruct (sig_parse_inv input r s H B L Hr Hs) as (c1 & c2 & D & Or & Os & V1 & V2).
  rewrite (proj2 (ref_form_iff input c1 c2 B) (der_sig_lax _ _ _ D)). unfold lax_signature.
  rewrite <- V1, <- V2, !scalar_of_val by assumption.
  rewrite (proj2 (Z.ltb_lt _ _)) by now apply sok_range.
  now rewrite (proj2 (Z.ltb_lt _ _)) by now apply sok_range.
Qed.

(** C39: reading a private key container never reads outside of it, and gives a
    valid key or zeros; what is exported for a valid key (in 214 or 279 bytes, the
    rest of the buffer untouched) is read back as that key; an invalid key is
    refused and nothing is written. *)
Theorem privkey_container_roundtrip ctx pk0 (buf : bytes) key (c : bool) :
  gen_ctx_ok (ecmult_gen_ctx ctx) -> seckey_ok key -> (279 <= length buf)%nat ->
  (forall input, Forall is_byte input -> exists r, ec_privkey_import_der ctx input = Got r /\
     (if ret r then seckey_ok (out r) /\ seckey_valid (out r) = true else out r = repeat 0 32)) /\
  let r := ec_privkey_export_der ctx pk0 buf key c in
  let privkey := fst (out r) in
  let n := if c then 214%nat else 279%nat in
  ret r = seckey_valid key /\ illegal r = [] /\
  (if seckey_valid key then snd (out r) = Z.of_nat n /\ skipn n privkey = skipn n buf /\
     ec_privkey_import_der ctx (firstn n privkey) = Got (Api true key [])
   else out r = (buf, 0)).
Proof.
  intros HG Hk Lb. split.
  { intros input B. rewrite (import_spec ctx input B). eexists. split; [reflexivity|].
    destruct (ref_container input) as [kb|] eqn:E; [|reflexivity].
    destruct (container_key input kb B E) as [Bk Lk].
    unfold imported. destruct (seckey_valid _) eqn:V; cbn [ret out]; [|reflexivity].
    split; [exact (proj2 (padded_key kb Bk Lk))|exact V]. }
  cbv zeta. pose proof (export_spec ctx pk0 buf key c HG Hk Lb) as S.
  destruct (seckey_valid key) eqn:V; [|now rewrite S].
  destruct S as (octets & Lo & Bo & ->). cbn [ret out illegal fst snd].
  split; [reflexivity|]. split; [reflexivity|]. split; [now destruct c|].
  destruct Hk as [Bk Lk]. pose proof (export_length key octets c Lk Lo) as Le. rewrite <- Le.
  unfold overwrite. rewrite firstn_O, Nat.add_0_l. cbn [app].
  rewrite skipn_app_exact, firstn_app_exact by reflexivity. split; [reflexivity|].
  rewrite import_spec by now apply export_bytes_byte.
  rewrite (export_container key octets c Lk Lo), imported_key; [reflexivity|now split|exact V].
Qed.
End LaxDer.

(** ** Witnesses *)

#[local] Existing Instance field_5x52.
#[local] Existing Instance scalar_4x64.

(** Redundant length bytes, padding and trailing data, which the strict parser
    refuses. *)
Definition sloppy : bytes := [0x30; 0x82; 9; 9; 0x02; 0x81; 2; 0; 5; 0x02; 0x83; 0; 0; 1; 7; 0xAA].

Lemma lax_der_decides_grammar_witness : exists ctx r,
  ecdsa_signature_parse_der_lax ctx (Some signature_zero) sloppy = Got r /\ ret r = true /\
  out r = Some (Scalar 5 0 0 0, Scalar 7 0 0 0) /\ secp256k1_ecdsa_sig_parse sloppy = None.
Proof.
  destruct full_context as (ctx & _). exists ctx.
  destruct (lax_der_decides_grammar ctx signature_zero sloppy) as (r & E & _ & A & O & _).
  { repeat (constructor; [unfold is_byte; lia|]). constructor. }
  { reflexivity. }
  exists r. split; [exact E|].
  assert (H : lax_form sloppy [0; 5] [7]).
  { exists [0x82; 9; 9], [0x02; 0x81; 2; 0; 5], [0x02; 0x83; 0; 0; 1; 7], [0xAA].
    split; [reflexivity|]. split; [exact (skip_long [9; 9] ltac:(reflexivity))|].
    split; [exists [0x81; 2]|exists [0x83; 0; 0; 1]]; (split; [|reflexivity]).
    - exact (ber_long [2] ltac:(reflexivity) ltac:(reflexivity)).
    - exact (ber_long [0; 0; 1] ltac:(reflexivity) ltac:(reflexivity)). }
  split; [exact (proj2 A (ex_intro _ _ (ex_intro _ _ H)))|].
  split; [rewrite (O _ _ H); vm_compute; reflexivity|vm_compute; reflexivity].
Defined.

Lemma lax_der_extends_strict_witness : exists ctx,
  ecdsa_signature_parse_der_lax ctx (Some signature_zero) [0x30; 7; 0x02; 2; 0; 0x80; 0x02; 1; 5]
  = Got (Api true (Some (Scalar 0x80 0 0 0, Scalar 5 0 0 0)) []).
Proof.
  destruct full_context as (ctx & _). exists ctx.
  apply (lax_der_extends_strict (SI := scalar_4x64) ctx signature_zero [0x30; 7; 0x02; 2; 0; 0x80; 0x02; 1; 5]
    (Scalar 0x80 0 0 0) (Scalar 5 0 0 0)).
  - repeat (constructor; [unfold is_byte; lia|]). constructor.
  - reflexivity.
  - vm_compute. reflexivity.
  - vm_compute. discriminate.
  - vm_compute. discriminate.
Defined.

Lemma privkey_container_roundtrip_witness : exists ctx,
  let key := be_bytes 32 7 in
  let r := ec_privkey_export_der ctx pubkey_zero (repeat 0 279) key true in
  ret r = true /\ snd (out r) = 214 /\
  ec_privkey_import_der ctx (firstn 214 (fst (out r))) = Got (Api true key []).
Proof.
  destruct full_context as (ctx & _ & HG & _). exists ctx. intros key r.
  destruct (small_key 7 eq_refl) as (K & V & _).
  destruct (privkey_container_roundtrip ctx pubkey_zero (repeat 0 279) key true HG K
    ltac:(rewrite repeat_length; lia)) as [_ H].
  cbv zeta in H. fold r in H. destruct H as (Er & _ & H). unfold key in Er, H. rewrite V in Er, H.
  destruct H as (En & _ & Ei). exact (conj Er (conj En Ei)).
Defined.
