(* ===== verification/RangeParams.v ===== *)
(** * modules/rangeproof: what a range proof says

    The arithmetic of rangeproof_impl.h: choosing the range of a proof
    ([secp256k1_range_proveparams]) and reading it back from the header
    ([secp256k1_rangeproof_getheader_impl]). *)
From S2P Require Import Prelude.

Definition UINT64_MAX : Z := 0xFFFFFFFFFFFFFFFF.
Definition INT64_MAX : Z := 0x7FFFFFFFFFFFFFFF.

(** The loop of util.h, which a builtin may replace. *)
Fixpoint clz_loop (fuel : nat) (x ret : Z) : Z :=
  match fuel with
  | O => ret
  | S fuel => if (x .& 0x8000000000000000) =? 0 then clz_loop fuel (u64 (x << 1)) (ret + 1) else ret
  end.

Definition secp256k1_clz64_var (x : Z) : Z := if x =? 0 then 64 else clz_loop 64 x 0.

(** ** Choosing the range *)

(** What [secp256k1_range_proveparams] leaves at its pointers. *)
Record params := Params {
  pv : Z; prings : nat; prsizes : list nat; pnpub : nat; psecidx : list nat;
  pmin_value : Z; pmantissa : Z; pscale : Z; pexp : Z; pmin_bits : Z
}.

(** [for (i = 0; (int) i < *exp && (v2 <= UINT64_MAX / 10); i++)]: [i] and [*v]. *)
Fixpoint shrink_loop (n : nat) (i v v2 : Z) : Z * Z :=
  match n with
  | O => (i, v)
  | S n => if v2 <=? UINT64_MAX / 10 then shrink_loop n (i + 1) (v / 10) (u64 (v2 * 10)) else (i, v)
  end.

(** [v2] and [*scale]. *)
Fixpoint grow_loop (n : nat) (v2 scale : Z) : Z * Z :=
  match n with
  | O => (v2, scale)
  | S n => grow_loop n (u64 (v2 * 10)) (u64 (scale * 10))
  end.

Definition ring_size (rings : nat) (mantissa : Z) (i : nat) : nat :=
  if Nat.ltb i (rings - 1) || ((mantissa .& 1) =? 0) then 4%nat else 2%nat.

Definition ring_digit (v : Z) (i : nat) : nat := Z.to_nat ((v >> (Z.of_nat i * 2)) .& 3).

Definition secp256k1_range_proveparams (min_value exp min_bits value : Z) : option params :=
  let exp := if min_value =? UINT64_MAX then -1 else exp in
  if 0 <=? exp then
    if (negb (min_value =? 0) && (INT64_MAX <? value)) || (negb (value =? 0) && (INT64_MAX <=? min_value))
    then None else
    let max_bits := if negb (min_value =? 0) then secp256k1_clz64_var min_value else 64 in
    let min_bits := if max_bits <? min_bits then max_bits else min_bits in
    let exp := if (61 <? min_bits) || (INT64_MAX <? value) then 0 else exp in
    let v := u64 (value - min_value) in
    let v2 := if negb (min_bits =? 0) then UINT64_MAX >> (64 - min_bits) else 0 in
    let '(exp, v) := shrink_loop (Z.to_nat exp) 0 v v2 in
    let '(v2, scale) := grow_loop (Z.to_nat exp) v 1 in
    let min_value := u64 (value - v2) in
    let mantissa := if negb (v =? 0) then 64 - secp256k1_clz64_var v else 1 in
    let mantissa := if mantissa <? min_bits then min_bits else mantissa in
    let rings := Z.to_nat ((mantissa + 1) >> 1) in
    let rsizes := map (ring_size rings mantissa) (seq 0 rings) in
    Some (Params v rings rsizes (fold_right Nat.add O rsizes) (map (ring_digit v) (seq 0 rings))
            min_value mantissa scale exp min_bits)
  else Some (Params 0 1 [1%nat] 2 [O] value 0 1 0 min_bits).

(** ** Reading the header *)

Record header := Header {
  h_offset : Z; h_exp : Z; h_mantissa : Z; h_scale : Z; h_min : Z; h_max : Z
}.

(** [for (i = 0; i < *exp; i++)]: whether it was not left early, [*max_value] and [*scale]. *)
Fixpoint scale_loop (n : nat) (max_value scale : Z) : bool * (Z * Z) :=
  match n with
  | O => (true, (max_value, scale))
  | S n => if UINT64_MAX / 10 <? max_value then (false, (max_value, scale))
           else scale_loop n (u64 (max_value * 10)) (u64 (scale * 10))
  end.

(** The big-endian number in [n] bytes from [pos] on. *)
Definition read_be (proof : bytes) (pos : Z) (n : nat) : Z :=
  for_loop n (fun i v => u64 (v << 8) .| at_ proof (pos + i)) 0.

(** From [*offset += 1] on; [h_min0] is what is at [min_value] before. *)
Definition header_tail (h_min0 : Z) (proof : bytes) (has_min : bool) (offset exp mantissa max_value : Z)
    : bool * header :=
  let plen := Z.of_nat (length proof) in
  let offset := offset + 1 in
  let '(ok, (max_value, scale)) := scale_loop (Z.to_nat exp) max_value 1 in
  if negb ok then (false, Header offset exp mantissa scale h_min0 max_value) else
  if has_min && (u64 (plen - offset) <? 8)
  then (false, Header offset exp mantissa scale 0 max_value) else
  let min_value := if has_min then read_be proof offset 8 else 0 in
  let offset := if has_min then offset + 8 else offset in
  if UINT64_MAX - min_value <? max_value
  then (false, Header offset exp mantissa scale min_value max_value)
  else (true, Header offset exp mantissa scale min_value (u64 (max_value + min_value))).

(** [h] is what is at the pointers before; [plen] is the length of [proof]. *)
Definition secp256k1_rangeproof_getheader_impl (h : header) (proof : bytes) : bool * header :=
  let plen := Z.of_nat (length proof) in
  let offset := h_offset h in
  if (plen <? 65) || negb ((at_ proof offset .& 128) =? 0) then (false, h) else
  let has_nz_range := negb ((at_ proof offset .& 64) =? 0) in
  let has_min := negb ((at_ proof offset .& 32) =? 0) in
  if has_nz_range then
    let exp := at_ proof offset .& 31 in
    let offset := offset + 1 in
    if 18 <? exp then (false, Header offset exp 0 (h_scale h) (h_min h) (h_max h)) else
    let mantissa := at_ proof offset + 1 in
    if 64 <? mantissa then (false, Header offset exp mantissa (h_scale h) (h_min h) (h_max h)) else
    header_tail (h_min h) proof has_min offset exp mantissa (UINT64_MAX >> (64 - mantissa))
  else header_tail (h_min h) proof has_min offset (-1) 0 0.

(** The eight bytes of the minimum. *)
Definition min_octets (v : Z) : bytes := map (fun i => (v >> ((7 - Z.of_nat i) * 8)) .& 255) (seq 0 8).

(** The header of a proof as [secp256k1_rangeproof_sign_impl] writes it. *)
Definition header_bytes (q : params) : bytes :=
  let nz := Nat.ltb 1 (nth 0 (prsizes q) O) in
  ((if nz then 64 .| pexp q else 0) .| (if negb (pmin_value q =? 0) then 32 else 0))
  :: (if nz then [pmantissa q - 1] else [])
  ++ (if negb (pmin_value q =? 0)
      then min_octets (pmin_value q) else []).

(** * Theorems

    ** Leading zeros *)

Lemma top_bit_64 x : 0 <= x < 2 ^ 64 -> ((x .& 0x8000000000000000) =? 0) = (x <? 2 ^ 63).
Proof.
  intros Hx. change 0x8000000000000000 with (2 ^ 63).
  destruct (Z.ltb_spec x (2 ^ 63)) as [L|L].
  - apply Z.eqb_eq, Z.bits_inj'. intros n Hn. rewrite Z.land_spec, Z.pow2_bits_eqb, Z.bits_0 by lia.
    destruct (Z.eqb_spec 63 n) as [<-|]; [|apply andb_false_r].
    rewrite (Z.bits_above_log2 x 63); [reflexivity|lia|].
    destruct (Z.eq_dec x 0) as [->|]; [reflexivity|]. apply Z.log2_lt_pow2; lia.
  - apply Z.eqb_neq. intros E. apply (f_equal (fun y => Z.testbit y 63)) in E.
    rewrite Z.land_spec, Z.pow2_bits_true, Z.bits_0, andb_true_r in E by lia.
    assert (x / 2 ^ 63 = 1) by dlia. rewrite Z.testbit_odd, Z.shiftr_div_pow2 in E by lia.
    rewrite H in E. discriminate E.
Qed.

Lemma clz_loop_spec fuel : forall x ret, 0 < x < 2 ^ 64 -> 63 - Z.log2 x <= Z.of_nat fuel ->
  clz_loop fuel x ret = ret + (63 - Z.log2 x).
Proof.
  induction fuel as [|fuel IH]; intros x ret Hx Hf; cbn [clz_loop].
  - assert (Z.log2 x < 64) by (apply Z.log2_lt_pow2; lia). lia.
  - rewrite top_bit_64 by lia. destruct (Z.ltb_spec x (2 ^ 63)) as [L|L].
    + assert (E : u64 (x << 1) = 2 * x).
      { rewrite (shl_mul x 1) by reflexivity. unfold u64. change 0x10000000000000000 with (2 ^ 64).
        rewrite Z.mod_small; lia. }
      rewrite E, IH; rewrite ?Z.log2_double by lia; lia.
    + assert (Z.log2 x = 63) by (apply Z.log2_unique; lia). lia.
Qed.

Lemma clz_spec x : 0 < x < 2 ^ 64 -> secp256k1_clz64_var x = 63 - Z.log2 x.
Proof.
  intros Hx. unfold secp256k1_clz64_var. destruct (Z.eqb_spec x 0); [lia|].
  rewrite clz_loop_spec; [lia|exact Hx|]. pose proof (Z.log2_nonneg x). lia.
Qed.

(** ** The loops *)

Lemma shrink_spec n : forall i v v2, 0 <= v -> 0 <= v2 <= UINT64_MAX -> exists e,
  0 <= e <= Z.of_nat n /\ shrink_loop n i v v2 = (i + e, v / 10 ^ e) /\ v2 * 10 ^ e <= UINT64_MAX.
Proof.
  induction n as [|n IH]; intros i v v2 Hv Hv2; cbn [shrink_loop].
  - exists 0. rewrite Z.pow_0_r, Z.div_1_r, Z.add_0_r, Z.mul_1_r. repeat split; lia.
  - change (UINT64_MAX / 10) with 1844674407370955161. unfold UINT64_MAX in *.
    destruct (Z.leb_spec v2 1844674407370955161) as [L|L].
    + assert (E : u64 (v2 * 10) = v2 * 10) by (apply Z.mod_small; lia). rewrite E.
      destruct (IH (i + 1) (v / 10) (v2 * 10)) as (e & He & -> & Hm); [dlia|lia|].
      exists (e + 1). assert (P : 10 ^ (e + 1) = 10 * 10 ^ e) by (rewrite Z.pow_add_r by lia; lia).
      split; [lia|]. split; [|lia]. rewrite P, Z.div_div by (try apply Z.pow_pos_nonneg; lia). f_equal. lia.
    + exists 0. rewrite Z.pow_0_r, Z.div_1_r, Z.add_0_r, Z.mul_1_r. repeat split; lia.
Qed.

Lemma grow_spec n : forall v2 scale, 0 <= v2 -> 0 <= scale ->
  v2 * 10 ^ Z.of_nat n < 2 ^ 64 -> scale * 10 ^ Z.of_nat n < 2 ^ 64 ->
  grow_loop n v2 scale = (v2 * 10 ^ Z.of_nat n, scale * 10 ^ Z.of_nat n).
Proof.
  induction n as [|n IH]; intros v2 scale Hv Hs Bv Bs; cbn [grow_loop].
  - now rewrite Z.pow_0_r, !Z.mul_1_r.
  - rewrite Nat2Z.inj_succ, Z.pow_succ_r in * by lia.
    pose proof (Z.pow_pos_nonneg 10 (Z.of_nat n) ltac:(lia) ltac:(lia)) as Pp.
    assert (E1 : u64 (v2 * 10) = v2 * 10) by (apply Z.mod_small; nia).
    assert (E2 : u64 (scale * 10) = scale * 10) by (apply Z.mod_small; nia).
    rewrite E1, E2, IH by nia. f_equal; ring.
Qed.

Lemma scale_loop_spec n : forall max scale, 0 <= max <= UINT64_MAX -> 0 < scale ->
  max * 10 ^ Z.of_nat n <= UINT64_MAX -> scale * 10 ^ Z.of_nat n < 2 ^ 64 ->
  scale_loop n max scale = (true, (max * 10 ^ Z.of_nat n, scale * 10 ^ Z.of_nat n)).
Proof.
  induction n as [|n IH]; intros max scale Hm Hs Bm Bs; cbn [scale_loop].
  - now rewrite Z.pow_0_r, !Z.mul_1_r.
  - rewrite Nat2Z.inj_succ, Z.pow_succ_r in * by lia.
    pose proof (Z.pow_pos_nonneg 10 (Z.of_nat n) ltac:(lia) ltac:(lia)) as Pp.
    change (UINT64_MAX / 10) with 1844674407370955161. unfold UINT64_MAX in *.
    rewrite (proj2 (Z.ltb_ge _ _)) by nia.
    assert (E1 : u64 (max * 10) = max * 10) by (apply Z.mod_small; nia).
    assert (E2 : u64 (scale * 10) = scale * 10) by (apply Z.mod_small; nia).
    rewrite E1, E2, IH by nia. do 2 f_equal; ring.
Qed.

(** When the loop goes on to the end the product has not wrapped. *)
Lemma scale_loop_inv n : forall max scale max' scale', 0 <= max <= UINT64_MAX -> 0 < scale ->
  scale * 10 ^ Z.of_nat n < 2 ^ 64 -> scale_loop n max scale = (true, (max', scale')) ->
  max' = max * 10 ^ Z.of_nat n /\ scale' = scale * 10 ^ Z.of_nat n /\ 0 <= max' <= UINT64_MAX.
Proof.
  induction n as [|n IH]; intros max scale max' scale' Hm Hs Bs E; cbn [scale_loop] in E.
  - injection E as <- <-. rewrite Z.pow_0_r. lia.
  - rewrite Nat2Z.inj_succ, Z.pow_succ_r in * by lia.
    pose proof (Z.pow_pos_nonneg 10 (Z.of_nat n) ltac:(lia) ltac:(lia)) as Pp.
    change (UINT64_MAX / 10) with 1844674407370955161 in E. unfold UINT64_MAX in *.
    destruct (Z.ltb_spec 1844674407370955161 max) as [L|L]; [discriminate E|].
    assert (E1 : u64 (max * 10) = max * 10) by (apply Z.mod_small; lia).
    assert (Hle : scale * 10 <= scale * (10 * 10 ^ Z.of_nat n)) by (clear - Hs Pp; nia).
    assert (E2 : u64 (scale * 10) = scale * 10). { apply Z.mod_small. lia. }
    rewrite E1, E2 in E. destruct (IH (max * 10) (scale * 10) max' scale' ltac:(lia) ltac:(lia) ltac:(lia) E) as (-> & -> & R).
    split; [ring|]. split; [ring|exact R].
Qed.

(** ** The range that was chosen *)

(** The digits of [v] in base 4. *)
Fixpoint digit_sum (l : list nat) : Z :=
  match l with [] => 0 | d :: l => Z.of_nat d + 4 * digit_sum l end.

Record range_ok (value min_value : Z) (q : params) : Prop := {
  ro_value : pv q * pscale q + pmin_value q = value;
  ro_min : min_value <= pmin_value q <= value;
  ro_exp : 0 <= pexp q <= 18;
  ro_scale : pscale q = 10 ^ pexp q;
  ro_mantissa : 1 <= pmantissa q <= 64;
  ro_v : 0 <= pv q < 2 ^ pmantissa q;
  ro_rings : Z.of_nat (prings q) = (pmantissa q + 1) / 2;
  ro_rsizes : prsizes q = map (ring_size (prings q) (pmantissa q)) (seq 0 (prings q));
  ro_npub : pnpub q = fold_right Nat.add O (prsizes q);
  ro_secidx : psecidx q = map (ring_digit (pv q)) (seq 0 (prings q));
  ro_max : (2 ^ pmantissa q - 1) * pscale q + pmin_value q <= UINT64_MAX
}.

(** The proof of a single value. *)
Definition exact_params (value min_bits : Z) : params := Params 0 1 [1%nat] 2 [O] value 0 1 0 min_bits.

(** No choice of bits and exponent leaves room for an overflow. *)
Lemma choices_fit b e : 1 <= b <= 64 -> 0 <= e <= 18 -> (2 ^ b - 1) * 10 ^ e <= UINT64_MAX ->
  (2 ^ b - 1) * 10 ^ e + (2 ^ (64 - b) - 1) + (10 ^ e - 1) <= UINT64_MAX.
Proof.
  intros Hb He H.
  assert (C : forallb (fun b => forallb (fun e => (UINT64_MAX <? (2 ^ Z.of_nat b - 1) * 10 ^ Z.of_nat e) ||
    ((2 ^ Z.of_nat b - 1) * 10 ^ Z.of_nat e + (2 ^ (64 - Z.of_nat b) - 1) + (10 ^ Z.of_nat e - 1) <=? UINT64_MAX))
    (seq 0 19)) (seq 1 64) = true) by (vm_compute; reflexivity).
  rewrite forallb_forall in C. specialize (C (Z.to_nat b) (proj2 (in_seq 64 1 (Z.to_nat b)) ltac:(lia))).
  rewrite forallb_forall in C. specialize (C (Z.to_nat e) (proj2 (in_seq 19 0 (Z.to_nat e)) ltac:(lia))).
  rewrite !Z2Nat.id in C by lia. apply orb_true_iff in C. rewrite Z.ltb_lt, Z.leb_le in C. lia.
Qed.

(** The number of bits of the masked value. *)
Lemma bits_spec v : 0 <= v < 2 ^ 64 ->
  let m := if negb (v =? 0) then 64 - secp256k1_clz64_var v else 1 in
  1 <= m <= 64 /\ v < 2 ^ m /\ (v <> 0 -> 2 ^ m <= 2 * v).
Proof.
  intros Hv. cbv zeta. destruct (Z.eqb_spec v 0) as [->|Nz]; cbn [negb]; [lia|].
  rewrite clz_spec by lia. pose proof (Z.log2_spec v ltac:(lia)) as [L1 L2].
  assert (Z.log2 v < 64) by (apply Z.log2_lt_pow2; lia). pose proof (Z.log2_nonneg v).
  replace (64 - (63 - Z.log2 v)) with (Z.succ (Z.log2 v)) by lia.
  split; [lia|]. split; [exact L2|]. intros _. rewrite Z.pow_succ_r by lia. lia.
Qed.

Lemma max_bits_spec m : 0 < m < 2 ^ 64 -> 0 <= secp256k1_clz64_var m <= 63 /\
  m < 2 ^ (64 - secp256k1_clz64_var m).
Proof.
  intros Hm. rewrite clz_spec by lia. pose proof (Z.log2_spec m ltac:(lia)) as [L1 L2].
  assert (Z.log2 m < 64) by (apply Z.log2_lt_pow2; lia). pose proof (Z.log2_nonneg m).
  replace (64 - (63 - Z.log2 m)) with (Z.succ (Z.log2 m)) by lia. lia.
Qed.

(** The arithmetic of the overflow: [v0] is the distance to the minimum, [b] the
    bits asked for, [m] the bits proved, [e] the exponent. *)
Lemma range_fits value mn b m e : 0 <= mn <= value -> value < 2 ^ 64 -> mn < UINT64_MAX ->
  0 <= e <= 18 -> (INT64_MAX < value -> mn = 0 /\ e = 0) -> (mn <> 0 -> mn < 2 ^ (64 - b)) -> 0 <= b <= 64 ->
  let v := (value - mn) / 10 ^ e in
  (b <> 0 -> (2 ^ b - 1) * 10 ^ e <= UINT64_MAX) ->
  m = b /\ 1 <= b \/ (1 <= m <= 64 /\ (v = 0 -> m = 1) /\ (v <> 0 -> 2 ^ m <= 2 * v)) ->
  (2 ^ m - 1) * 10 ^ e + (value - v * 10 ^ e) <= UINT64_MAX.
Proof.
  intros Hmn Hv Hmax He Hbig Hbits Hb v Hov Hm.
  assert (P10 : 1 <= 10 ^ e) by (apply (Z.pow_le_mono_r 10 0); lia).
  pose proof (Z.div_mod (value - mn) (10 ^ e) ltac:(lia)) as D. fold v in D.
  pose proof (Z.mod_pos_bound (value - mn) (10 ^ e) ltac:(lia)) as R.
  assert (V0 : 0 <= v) by (apply Z.div_pos; lia).
  destruct Hm as [[-> Hb1]|(Hm & M0 & M1)].
  - pose proof (choices_fit b e ltac:(lia) He (Hov ltac:(lia))) as C.
    assert (mn <= 2 ^ (64 - b) - 1).
    { destruct (Z.eq_dec mn 0) as [->|N]; [|specialize (Hbits N); lia].
      pose proof (Z.pow_pos_nonneg 2 (64 - b) ltac:(lia) ltac:(lia)). lia. }
    lia.
  - unfold UINT64_MAX, INT64_MAX in *. destruct (Z.eq_dec v 0) as [E0|N0].
    + rewrite (M0 E0), E0 in *. change (2 ^ 1) with 2.
      assert (10 ^ e <= 10 ^ 18) by (apply Z.pow_le_mono_r; lia). change (10 ^ 18) with 1000000000000000000 in *.
      destruct (Z.le_gt_cases value 0x7FFFFFFFFFFFFFFF) as [Hs|Hl]; [lia|].
      destruct (Hbig ltac:(lia)) as [-> ->]. rewrite Z.pow_0_r in *. lia.
    + specialize (M1 N0). assert (2 ^ m <= 2 ^ 64) by (apply Z.pow_le_mono_r; lia).
      destruct (Z.le_gt_cases value 0x7FFFFFFFFFFFFFFF) as [Hs|Hl].
      * assert (2 ^ m * 10 ^ e <= 2 * v * 10 ^ e) by (apply Z.mul_le_mono_nonneg_r; lia). lia.
      * destruct (Hbig ltac:(lia)) as [-> ->]. rewrite Z.pow_0_r in *. lia.
Qed.

Lemma shr_ones b : 1 <= b <= 64 -> UINT64_MAX >> (64 - b) = 2 ^ b - 1.
Proof.
  intros Hb. change UINT64_MAX with (2 ^ 64 - 1). rewrite shr_div by (apply Z.leb_le; lia).
  symmetry. apply (Z.div_unique _ _ _ (2 ^ (64 - b) - 1)).
  - pose proof (Z.pow_pos_nonneg 2 (64 - b) ltac:(lia) ltac:(lia)). lia.
  - assert (E : 2 ^ 64 = 2 ^ (64 - b) * 2 ^ b) by (rewrite <- Z.pow_add_r by lia; f_equal; lia).
    rewrite E. ring.
Qed.

(** What the choice of [b] bits and the exponent [e] below [exp] gives. *)
Lemma chosen_ok value mn b e m q : 0 <= mn <= value -> value < 2 ^ 64 -> mn < UINT64_MAX ->
  0 <= e <= 18 -> (INT64_MAX < value -> mn = 0 /\ e = 0) -> (mn <> 0 -> mn < 2 ^ (64 - b)) -> 0 <= b <= 64 ->
  (b <> 0 -> (2 ^ b - 1) * 10 ^ e <= UINT64_MAX) ->
  let v := (value - mn) / 10 ^ e in
  m = (let m := if negb (v =? 0) then 64 - secp256k1_clz64_var v else 1 in if m <? b then b else m) ->
  let rings := Z.to_nat ((m + 1) >> 1) in
  let rsizes := map (ring_size rings m) (seq 0 rings) in
  q = Params v rings rsizes (fold_right Nat.add O rsizes) (map (ring_digit v) (seq 0 rings))
        (value - v * 10 ^ e) m (10 ^ e) e b ->
  range_ok value mn q.
Proof.
  intros Hmn Hv Hmax He Hbig Hbits Hb Hov v Em rings rsizes ->.
  assert (P10 : 1 <= 10 ^ e) by (apply (Z.pow_le_mono_r 10 0); lia).
  pose proof (Z.div_mod (value - mn) (10 ^ e) ltac:(lia)) as D. fold v in D.
  pose proof (Z.mod_pos_bound (value - mn) (10 ^ e) ltac:(lia)) as R.
  assert (V0 : 0 <= v) by (apply Z.div_pos; lia).
  assert (V1 : v <= value) by nia.
  destruct (bits_spec v ltac:(lia)) as (B1 & B2 & B3). cbv zeta in Em, B1, B2, B3.
  set (bits := if negb (v =? 0) then _ else _) in *.
  assert (M : 1 <= m <= 64 /\ v < 2 ^ m /\
    (m = b /\ 1 <= b \/ (1 <= m <= 64 /\ (v = 0 -> m = 1) /\ (v <> 0 -> 2 ^ m <= 2 * v)))).
  { destruct (Z.ltb_spec bits b) as [L|L]; subst m.
    - split; [lia|]. split; [|left; lia]. apply (Z.lt_le_trans _ (2 ^ bits)); [exact B2|].
      apply Z.pow_le_mono_r; lia.
    - split; [exact B1|]. split; [exact B2|]. right. split; [exact B1|]. split; [|exact B3].
      intros E. unfold bits. now rewrite E. }
  destruct M as (M1 & M2 & M3). split; cbn [pv pscale pmin_value pexp pmantissa prings prsizes pnpub psecidx].
  - lia.
  - nia.
  - exact He.
  - reflexivity.
  - exact M1.
  - lia.
  - unfold rings. rewrite (shr_lit (m + 1) 1 2) by reflexivity. rewrite Z2Nat.id; [reflexivity|]. dlia.
  - reflexivity.
  - reflexivity.
  - reflexivity.
  - exact (range_fits value mn b m e Hmn Hv Hmax He Hbig Hbits Hb Hov M3).
Qed.

Lemma proveparams_spec mn exp mb value : 0 <= mn <= value -> value < 2 ^ 64 -> -1 <= exp <= 18 ->
  0 <= mb <= 64 ->
  match secp256k1_range_proveparams mn exp mb value with
  | None => 0 <= exp /\ (mn <> 0 /\ INT64_MAX < value \/ value <> 0 /\ INT64_MAX <= mn)
  | Some q => (exp = -1 \/ mn = UINT64_MAX) /\ q = exact_params value mb \/
      0 <= exp /\ range_ok value mn q /\ pexp q <= exp
  end.
Proof.
  intros Hmn Hv He Hb. unfold secp256k1_range_proveparams.
  destruct (Z.eqb_spec mn UINT64_MAX) as [E|N]; [left; split; [now right|reflexivity]|].
  destruct (Z.leb_spec 0 exp) as [L|L]; [|left; split; [left; lia|reflexivity]].
  destruct ((_ && _) || _) eqn:EB.
  { split; [exact L|]. apply orb_true_iff in EB. rewrite !andb_true_iff, !negb_true_iff, !Z.eqb_neq, Z.ltb_lt, Z.leb_le in EB.
    lia. }
  apply orb_false_iff in EB. rewrite !andb_false_iff, !negb_false_iff, !Z.eqb_eq, Z.ltb_ge, Z.leb_gt in EB.
  set (mx := if negb (mn =? 0) then _ else 64). set (b := if mx <? mb then mx else mb).
  assert (Hmx : 0 <= mx <= 64 /\ (mn <> 0 -> mn < 2 ^ (64 - mx))).
  { unfold mx. destruct (Z.eqb_spec mn 0) as [->|Nz]; cbn [negb]; [lia|].
    destruct (max_bits_spec mn ltac:(lia)). lia. }
  assert (HB : 0 <= b <= 64 /\ b <= mx) by (unfold b; destruct (Z.ltb_spec mx mb); lia).
  assert (HBm : mn <> 0 -> mn < 2 ^ (64 - b)).
  { intros Nz. apply (Z.lt_le_trans _ (2 ^ (64 - mx))); [now apply Hmx|]. apply Z.pow_le_mono_r; lia. }
  set (x := if _ || _ then 0 else exp).
  assert (Hx : 0 <= x <= exp /\ (INT64_MAX < value -> x = 0)).
  { unfold x. destruct (Z.ltb_spec INT64_MAX value); [rewrite orb_true_r; lia|].
    rewrite orb_false_r. destruct (61 <? b); lia. }
  unfold UINT64_MAX in N.
  assert (Ev : u64 (value - mn) = value - mn) by (apply Z.mod_small; lia). rewrite Ev.
  set (v2 := if negb (b =? 0) then _ else 0).
  assert (Hv2 : 0 <= v2 <= UINT64_MAX /\ (b <> 0 -> v2 = 2 ^ b - 1)).
  { unfold v2. destruct (Z.eqb_spec b 0) as [E|Nb]; cbn [negb]; [unfold UINT64_MAX; lia|].
    rewrite shr_ones by lia. pose proof (Z.pow_pos_nonneg 2 b ltac:(lia) ltac:(lia)).
    assert (2 ^ b <= 2 ^ 64) by (apply Z.pow_le_mono_r; lia). unfold UINT64_MAX. lia. }
  destruct (shrink_spec (Z.to_nat x) 0 (value - mn) v2 ltac:(lia) (proj1 Hv2)) as (e & He' & -> & Hov).
  rewrite Z2Nat.id in He' by lia. rewrite Z.add_0_l.
  assert (P10 : 1 <= 10 ^ e <= 10 ^ 18) by (split; [apply (Z.pow_le_mono_r 10 0)|apply Z.pow_le_mono_r]; lia).
  change (10 ^ 18) with 1000000000000000000 in P10.
  set (v := (value - mn) / 10 ^ e).
  assert (Vr : 0 <= v /\ v * 10 ^ e <= value - mn).
  { split; [apply Z.div_pos; lia|]. rewrite Z.mul_comm. apply Z.mul_div_le. lia. }
  rewrite (grow_spec (Z.to_nat e) v 1) by (rewrite ?Z2Nat.id by lia; lia).
  rewrite Z2Nat.id, Z.mul_1_l by lia.
  assert (Em : u64 (value - v * 10 ^ e) = value - v * 10 ^ e) by (apply Z.mod_small; lia). rewrite Em.
  right. split; [exact L|]. split; [|cbn [pexp]; lia].
  refine (chosen_ok value mn b e _ _ Hmn Hv _ _ _ HBm _ _ eq_refl eq_refl); [unfold UINT64_MAX|..]; try lia.
Qed.

(** ** Reading the header back *)

Lemma read_be_from l : Forall is_byte l -> forall pre rest i v pos,
  pos + i = Z.of_nat (length pre) -> 0 <= v -> (v + 1) * 256 ^ Z.of_nat (length l) <= 2 ^ 64 ->
  for_from i (length l) (fun i v => u64 (v << 8) .| at_ (pre ++ l ++ rest) (pos + i)) v
  = v * 256 ^ Z.of_nat (length l) + be_val l.
Proof.
  induction 1 as [|b l Hb _ IH]; intros pre rest i v pos Hp H0 H1; cbn [app length for_from].
  - change (be_val []) with 0. rewrite Z.pow_0_r. lia.
  - unfold is_byte in Hb. cbn [length] in H1. rewrite Nat2Z.inj_succ, Z.pow_succ_r in H1 by lia.
    assert (P : 1 <= 256 ^ Z.of_nat (length l)) by (apply (Z.pow_le_mono_r 256 0); lia).
    assert (Eb : at_ (pre ++ b :: l ++ rest) (pos + i) = b).
    { unfold at_. rewrite Hp, Nat2Z.id, app_nth2, Nat.sub_diag by lia. reflexivity. }
    assert (Es : u64 (v << 8) .| b = v * 256 + b).
    { rewrite (shl_lit v 8 256) by reflexivity. unfold u64. rewrite Z.mod_small by nia.
      exact (lor_disjoint v 8 b ltac:(lia) Hb). }
    rewrite Eb, Es. replace (pre ++ b :: l ++ rest) with ((pre ++ [b]) ++ l ++ rest) by now rewrite <- app_assoc.
    rewrite (IH (pre ++ [b]) rest (i + 1) (v * 256 + b) pos);
      [|rewrite length_app; cbn [length]; lia|lia|nia].
    rewrite be_val_cons, Nat2Z.inj_succ, Z.pow_succ_r by lia. lia.
Qed.

Lemma read_be_spec pre l rest pos : Forall is_byte l -> length l = 8%nat -> pos = Z.of_nat (length pre) ->
  read_be (pre ++ l ++ rest) pos 8 = be_val l.
Proof.
  intros B L ->. unfold read_be, for_loop. rewrite <- L.
  rewrite (read_be_from l B pre rest 0 0 (Z.of_nat (length pre))); rewrite ?L; try lia.
Qed.

Lemma min_octets_eq v : min_octets v = be_bytes 8 v.
Proof.
  assert (E : forall k, 0 <= k -> (v >> k) .& 255 = (v / 2 ^ k) mod 256).
  { intros k Hk. rewrite shr_div by (apply Z.leb_le; lia). apply (land_mask_lit _ 255 8 256); reflexivity. }
  unfold min_octets. cbn [seq map]. rewrite !E by lia. cbn [be_bytes app]. rewrite !Z.div_div by lia.
  rewrite Z.div_1_r. reflexivity.
Qed.

(** The first byte. *)
Definition flag_byte (nz : bool) (e : Z) (m : bool) : Z := (if nz then 64 .| e else 0) .| (if m then 32 else 0).

Lemma flag_byte_spec nz e m : 0 <= e <= 18 -> let b := flag_byte nz e m in
  is_byte b /\ ((b .& 128) =? 0) = true /\ ((b .& 64) =? 0) = negb nz /\ ((b .& 32) =? 0) = negb m /\
  (nz = true -> b .& 31 = e).
Proof.
  intros He b.
  assert (C : forallb (fun e => forallb (fun nz => forallb (fun m => let b := flag_byte nz (Z.of_nat e) m in
    (0 <=? b) && (b <? 256) && ((b .& 128) =? 0) && Bool.eqb ((b .& 64) =? 0) (negb nz)
    && Bool.eqb ((b .& 32) =? 0) (negb m) && (negb nz || (b .& 31 =? Z.of_nat e))) [true; false]) [true; false])
    (seq 0 19) = true) by (vm_compute; reflexivity).
  rewrite forallb_forall in C. specialize (C (Z.to_nat e) (proj2 (in_seq 19 0 (Z.to_nat e)) ltac:(lia))).
  rewrite forallb_forall in C. specialize (C nz ltac:(destruct nz; cbn; tauto)).
  rewrite forallb_forall in C. specialize (C m ltac:(destruct m; cbn; tauto)).
  rewrite Z2Nat.id in C by lia. fold b in C. cbv zeta in C.
  rewrite !andb_true_iff, !Bool.eqb_true_iff, orb_true_iff, negb_true_iff, Z.eqb_eq, Z.leb_le, Z.ltb_lt in C.
  destruct C as [[[[[C1 C2] C3] C4] C5] C6]. split; [exact (conj C1 C2)|]. split; [now apply Z.eqb_eq|].
  split; [exact C4|]. split; [exact C5|]. intros ->. destruct C6 as [C6|C6]; [discriminate C6|]. now apply Z.eqb_eq.
Qed.

(** The tail reads back the minimum written after [pre]. *)
Lemma header_tail_ok h0 pre rest e m mn ones : 0 <= mn < 2 ^ 64 -> -1 <= e <= 18 ->
  let proof := pre ++ (if negb (mn =? 0) then min_octets mn else []) ++ rest in
  65 <= Z.of_nat (length proof) < 2 ^ 63 -> 1 <= Z.of_nat (length pre) <= 2 ->
  0 <= ones <= UINT64_MAX -> ones * 10 ^ Z.max 0 e + mn <= UINT64_MAX ->
  header_tail h0 proof (negb (mn =? 0)) (Z.of_nat (length pre) - 1) e m ones
  = (true, Header (Z.of_nat (length pre) + (if negb (mn =? 0) then 8 else 0)) e m (10 ^ Z.max 0 e) mn
       (ones * 10 ^ Z.max 0 e + mn)).
Proof.
  intros Hmn He proof HL Hp Ho Hs. unfold header_tail. cbv zeta.
  assert (P10 : 1 <= 10 ^ Z.max 0 e <= 10 ^ 18)
    by (split; [apply (Z.pow_le_mono_r 10 0)|apply Z.pow_le_mono_r]; lia).
  change (10 ^ 18) with 1000000000000000000 in P10.
  assert (Ee : Z.of_nat (Z.to_nat e) = Z.max 0 e) by lia.
  rewrite scale_loop_spec by (rewrite ?Ee; lia). rewrite Ee, Z.mul_1_l. cbn [negb].
  replace (Z.of_nat (length pre) - 1 + 1) with (Z.of_nat (length pre)) by lia.
  assert (M : (if negb (mn =? 0) then read_be proof (Z.of_nat (length pre)) 8 else 0) = mn).
  { unfold proof. destruct (Z.eqb_spec mn 0) as [->|Nz]; cbn [negb]; [reflexivity|].
    rewrite min_octets_eq. rewrite read_be_spec; [|apply be_bytes_byte|reflexivity|reflexivity].
    rewrite be_val_bytes. apply Z.mod_small. exact Hmn. }
  rewrite M. replace (negb (mn =? 0) && _) with false.
  - rewrite (proj2 (Z.ltb_ge _ _)) by lia. unfold u64. rewrite Z.mod_small by (unfold UINT64_MAX in *; lia).
    do 2 f_equal. destruct (negb (mn =? 0)); lia.
  - symmetry. apply andb_false_iff. right. apply Z.ltb_ge. unfold u64. rewrite Z.mod_small by lia. lia.
Qed.

Lemma header_length q : (1 <= length (header_bytes q) <= 10)%nat.
Proof.
  unfold header_bytes. cbn [length]. rewrite length_app, min_octets_eq.
  destruct (Nat.ltb _ _), (negb _); rewrite ?length_be_bytes; cbn [length]; lia.
Qed.

(** What the header says. *)
Definition header_of (q : params) (e : Z) : header :=
  Header (Z.of_nat (length (header_bytes q))) e (pmantissa q) (pscale q) (pmin_value q)
    ((2 ^ pmantissa q - 1) * pscale q + pmin_value q).

Lemma first_ring q : prsizes q = map (ring_size (prings q) (pmantissa q)) (seq 0 (prings q)) ->
  (1 <= prings q)%nat -> Nat.ltb 1 (nth 0 (prsizes q) O) = true.
Proof.
  intros -> H. destruct (prings q) as [|n]; [lia|]. cbn [seq map nth]. unfold ring_size.
  now destruct (_ || _).
Qed.

(** The header of a range is read back. *)
Lemma getheader_range h value mn q rest : 0 <= mn <= value -> value < 2 ^ 64 -> range_ok value mn q ->
  h_offset h = 0 -> 65 <= Z.of_nat (length (header_bytes q ++ rest)) < 2 ^ 63 ->
  secp256k1_rangeproof_getheader_impl h (header_bytes q ++ rest) = (true, header_of q (pexp q)).
Proof.
  intros Hmn Hv [Rv Rm Re Rs Rma Rvv Rr Rsz _ _ Rmax] H0 HL.
  assert (R1 : (1 <= prings q)%nat) by (clear - Rr Rma; dlia).
  pose proof (first_ring q Rsz R1) as Enz. unfold header_of.
  assert (Elen : Z.of_nat (length (header_bytes q)) = 2 + (if negb (pmin_value q =? 0) then 8 else 0)).
  { unfold header_bytes. rewrite Enz. cbn [app length]. rewrite min_octets_eq.
    destruct (negb _); rewrite ?length_be_bytes; reflexivity. }
  rewrite Elen. unfold header_bytes in *. rewrite Enz in *. cbv zeta in *. cbn [app] in *.
  fold (flag_byte true (pexp q) (negb (pmin_value q =? 0))) in *.
  set (mb := negb (pmin_value q =? 0)) in *. set (b := flag_byte true (pexp q) mb) in *.
  destruct (flag_byte_spec true (pexp q) mb Re) as (_ & F1 & F2 & F3 & F4). fold b in F1, F2, F3, F4.
  unfold secp256k1_rangeproof_getheader_impl. rewrite H0. cbv zeta.
  set (proof := b :: pmantissa q - 1 :: _) in *. rewrite (proj2 (Z.ltb_ge _ _)) by lia.
  change (at_ proof 0) with b. change (at_ proof (0 + 1)) with (pmantissa q - 1).
  rewrite F1, F2, F3, (F4 eq_refl), (negb_involutive mb). cbn [negb orb].
  rewrite (proj2 (Z.ltb_ge _ _)) by lia. replace (pmantissa q - 1 + 1) with (pmantissa q) by lia.
  rewrite (proj2 (Z.ltb_ge _ _)) by lia. rewrite shr_ones by lia.
  pose proof (header_tail_ok (h_min h) [b; pmantissa q - 1] rest (pexp q) (pmantissa q) (pmin_value q)
    (2 ^ pmantissa q - 1)) as T. cbn [app length] in T. fold mb in T.
  change (Z.of_nat 2 - 1) with (0 + 1) in T. rewrite (Z.max_r 0 (pexp q)), <- Rs in T by lia.
  apply T; try lia; [cbn [length] in HL; exact HL|]. pose proof (Z.pow_pos_nonneg 2 (pmantissa q) ltac:(lia) ltac:(lia)).
  assert (2 ^ pmantissa q <= 2 ^ 64) by (apply Z.pow_le_mono_r; lia). unfold UINT64_MAX. lia.
Qed.

Lemma getheader_exact h value mb rest : 0 <= value < 2 ^ 64 -> h_offset h = 0 ->
  let q := exact_params value mb in
  65 <= Z.of_nat (length (header_bytes q ++ rest)) < 2 ^ 63 ->
  secp256k1_rangeproof_getheader_impl h (header_bytes q ++ rest) = (true, header_of q (-1)).
Proof.
  intros Hv H0 q HL. unfold header_of, q in *. unfold header_bytes, exact_params in *.
  cbn [prsizes pmin_value pexp pmantissa pscale nth Nat.ltb Nat.leb app] in *. cbv zeta in *.
  destruct (flag_byte_spec false 0 (negb (value =? 0)) ltac:(lia)) as (_ & F1 & F2 & F3 & _).
  unfold flag_byte in F1, F2, F3. set (b := 0 .| _) in *.
  unfold secp256k1_rangeproof_getheader_impl. rewrite H0. cbv zeta. set (proof := b :: _) in *.
  rewrite (proj2 (Z.ltb_ge _ _)) by lia. change (at_ proof 0) with b.
  rewrite F1, F2, F3, (negb_involutive (negb (value =? 0))). cbn [negb orb].
  pose proof (header_tail_ok (h_min h) [b] rest (-1) 0 value 0 Hv ltac:(lia)) as T. cbn [app length] in T.
  cbv zeta in T. fold proof in T. change (Z.of_nat 1 - 1) with 0 in T. rewrite (T HL) by (unfold UINT64_MAX; cbn; lia).
  cbn [length]. rewrite min_octets_eq. change (10 ^ Z.max 0 (-1)) with 1.
  destruct (negb (value =? 0)); rewrite ?length_be_bytes; cbn [length]; do 2 f_equal; lia.
Qed.

(** ** Any header *)

Lemma read_be_range proof pos n : Forall is_byte proof -> 0 <= read_be proof pos n < 2 ^ 64.
Proof.
  intros B. unfold read_be. apply (for_loop_inv (fun _ v => 0 <= v < 2 ^ 64)); [lia|].
  intros k v _ _. apply lor_range; [lia| |].
  - unfold u64. change 0x10000000000000000 with (2 ^ 64). apply Z.mod_pos_bound. lia.
  - pose proof (at_byte proof (pos + k) B) as H. unfold is_byte in H. lia.
Qed.

(** What a header that is accepted says. *)
Record header_ok (h : header) : Prop := {
  ho_offset : 1 <= h_offset h <= 10;
  ho_kind : h_exp h = -1 /\ h_mantissa h = 0 \/ 0 <= h_exp h <= 18 /\ 1 <= h_mantissa h <= 64;
  ho_scale : h_scale h = 10 ^ Z.max 0 (h_exp h);
  ho_min : 0 <= h_min h;
  ho_max : h_max h = h_min h + (2 ^ h_mantissa h - 1) * h_scale h;
  ho_bound : h_max h <= UINT64_MAX
}.

Lemma header_values h : header_ok h -> 0 <= h_min h < 2 ^ 64 /\ 0 <= h_mantissa h <= 64 /\
  1 <= h_scale h <= 10 ^ 18 /\ h_min h <= h_max h < 2 ^ 64.
Proof.
  intros [_ K Es Mn Mx Bd]. assert (M : 0 <= h_mantissa h <= 64) by lia.
  assert (P10 : 1 <= h_scale h <= 10 ^ 18)
    by (rewrite Es; split; [apply (Z.pow_le_mono_r 10 0)|apply Z.pow_le_mono_r]; lia).
  pose proof (Z.pow_pos_nonneg 2 (h_mantissa h) ltac:(lia) (proj1 M)) as P2. unfold UINT64_MAX in Bd.
  assert (0 <= (2 ^ h_mantissa h - 1) * h_scale h) by (apply Z.mul_nonneg_nonneg; lia). lia.
Qed.

Lemma header_tail_sound h0 proof has_min offset e m ones h' : Forall is_byte proof ->
  0 <= offset <= 1 -> ones = 2 ^ m - 1 -> 0 <= m <= 64 ->
  (e = -1 /\ m = 0 \/ 0 <= e <= 18 /\ 1 <= m <= 64) ->
  header_tail h0 proof has_min offset e m ones = (true, h') -> header_ok h'.
Proof.
  intros B Ho -> Hm He E. unfold header_tail in E. cbv zeta in E.
  assert (Ee : Z.of_nat (Z.to_nat e) = Z.max 0 e) by lia.
  assert (P10 : 1 <= 10 ^ Z.max 0 e <= 10 ^ 18)
    by (split; [apply (Z.pow_le_mono_r 10 0)|apply Z.pow_le_mono_r]; lia).
  change (10 ^ 18) with 1000000000000000000 in P10.
  destruct (scale_loop _ _ _) as [ok [mx sc]] eqn:EL. destruct ok; [|discriminate E]. cbn [negb] in E.
  assert (Pm : 1 <= 2 ^ m <= 2 ^ 64) by (split; [apply (Z.pow_le_mono_r 2 0)|apply Z.pow_le_mono_r]; lia).
  destruct (scale_loop_inv (Z.to_nat e) (2 ^ m - 1) 1 mx sc) as (-> & -> & R);
    [unfold UINT64_MAX; lia|lia|rewrite Ee; lia|exact EL|]. rewrite Ee, Z.mul_1_l in *.
  destruct (has_min && _); [discriminate E|].
  set (mn := if has_min then read_be _ _ _ else 0) in *.
  assert (Rm : 0 <= mn < 2 ^ 64) by (unfold mn; destruct has_min; [now apply read_be_range|lia]).
  destruct (Z.ltb_spec (UINT64_MAX - mn) ((2 ^ m - 1) * 10 ^ Z.max 0 e)) as [L|L]; [discriminate E|].
  injection E as <-. unfold UINT64_MAX in *.
  assert (Eu : u64 ((2 ^ m - 1) * 10 ^ Z.max 0 e + mn) = (2 ^ m - 1) * 10 ^ Z.max 0 e + mn)
    by (apply Z.mod_small; lia).
  split; cbn [h_offset h_exp h_mantissa h_scale h_min h_max]; rewrite ?Eu; try lia; try reflexivity; try exact He.
  - destruct has_min; lia.
  - unfold UINT64_MAX. lia.
Qed.

Lemma getheader_sound h proof h' : Forall is_byte proof -> h_offset h = 0 ->
  secp256k1_rangeproof_getheader_impl h proof = (true, h') ->
  65 <= Z.of_nat (length proof) /\ header_ok h'.
Proof.
  intros B H0 E. unfold secp256k1_rangeproof_getheader_impl in E. rewrite H0 in E. cbv zeta in E.
  destruct (Z.ltb_spec (Z.of_nat (length proof)) 65) as [L|L]; [discriminate E|]. cbn [orb] in E.
  split; [exact L|]. destruct (negb _); [discriminate E|].
  pose proof (at_byte proof 0 B) as B0. pose proof (at_byte proof (0 + 1) B) as B1. unfold is_byte in *.
  destruct (negb ((at_ proof 0 .& 64) =? 0)).
  - set (e := at_ proof 0 .& 31) in *. assert (Re : 0 <= e) by (apply Z.land_nonneg; now right).
    destruct (Z.ltb_spec 18 e); [discriminate E|].
    destruct (Z.ltb_spec 64 (at_ proof (0 + 1) + 1)); [discriminate E|].
    refine (header_tail_sound _ _ _ _ _ _ _ _ B _ _ _ _ E); try lia. rewrite shr_ones; lia.
  - refine (header_tail_sound _ _ _ _ _ _ _ _ B _ _ _ _ E); try lia; reflexivity.
Qed.

(** ** The digits *)

Lemma ring_digit_eq v i : 0 <= v -> Z.of_nat (ring_digit v i) = (v / 4 ^ Z.of_nat i) mod 4.
Proof.
  intros Hv. unfold ring_digit. rewrite shr_div by (apply Z.leb_le; lia).
  rewrite (land_mask_lit _ 3 2 4) by reflexivity.
  replace (2 ^ (Z.of_nat i * 2)) with (4 ^ Z.of_nat i)
    by (rewrite Z.mul_comm, Z.pow_mul_r by lia; reflexivity).
  rewrite Z2Nat.id; [reflexivity|]. apply Z.mod_pos_bound. lia.
Qed.

Lemma digit_sum_spec v n : 0 <= v -> forall k,
  digit_sum (map (ring_digit v) (seq k n)) = (v / 4 ^ Z.of_nat k) mod 4 ^ Z.of_nat n.
Proof.
  intros Hv. induction n as [|n IH]; intros k; cbn [seq map digit_sum].
  - now rewrite Z.pow_0_r, Z.mod_1_r.
  - rewrite IH, ring_digit_eq, !Nat2Z.inj_succ, !Z.pow_succ_r, (Z.mul_comm 4 (4 ^ Z.of_nat k)) by lia.
    assert (P : 0 < 4 ^ Z.of_nat n) by (apply Z.pow_pos_nonneg; lia).
    rewrite <- Z.div_div, Z.rem_mul_r by (try apply Z.pow_nonzero; lia). reflexivity.
Qed.

Lemma digits_ok value mn q : range_ok value mn q ->
  digit_sum (psecidx q) = pv q /\
  forall i, (i < prings q)%nat -> (nth i (psecidx q) 0 < nth i (prsizes q) 0)%nat.
Proof.
  intros [_ _ _ _ Rm Rv Rr Rs _ Rx _]. split.
  - rewrite Rx, digit_sum_spec, Z.pow_0_r, Z.div_1_r by lia. apply Z.mod_small. split; [lia|].
    apply (Z.lt_le_trans _ (2 ^ pmantissa q)); [lia|]. rewrite Rr.
    change 4 with (2 ^ 2). rewrite <- Z.pow_mul_r by dlia. apply Z.pow_le_mono_r; dlia.
  - intros i Hi. rewrite Rx, Rs. rewrite (nth_indep _ O (ring_digit (pv q) O)) by (rewrite length_map, length_seq; exact Hi).
    rewrite map_nth, seq_nth by exact Hi.
    rewrite (nth_indep _ O (ring_size (prings q) (pmantissa q) O)) by (rewrite length_map, length_seq; exact Hi).
    rewrite map_nth, seq_nth by exact Hi. rewrite Nat.add_0_l. pose proof (ring_digit_eq (pv q) i ltac:(lia)) as D.
    unfold ring_size. destruct (_ || _) eqn:E; [dlia|]. apply orb_false_iff in E. destruct E as [E1 E2].
    apply Nat.ltb_ge in E1. rewrite (land_mask_lit _ 1 1 2) in E2 by reflexivity. apply Z.eqb_neq in E2.
    assert (Ei : Z.of_nat i = (pmantissa q - 1) / 2) by dlia.
    assert (Em : pmantissa q = 2 * Z.of_nat i + 1) by dlia.
    assert (Rv' : pv q / 4 ^ Z.of_nat i < 2).
    { apply Z.div_lt_upper_bound; [apply Z.pow_pos_nonneg; lia|]. change 4 with (2 ^ 2).
      rewrite <- Z.pow_mul_r, Z.mul_comm, <- (Z.pow_succ_r 2) by lia. replace (Z.succ (2 * Z.of_nat i)) with (pmantissa q) by lia. lia. }
    pose proof (Z.div_pos (pv q) (4 ^ Z.of_nat i) ltac:(lia) ltac:(apply Z.pow_pos_nonneg; lia)).
    rewrite Z.mod_small in D by lia. lia.
Qed.

(** * The properties *)

(** C16: reading the header. Whatever the bytes, an accepted header has an exponent
    of at most 18 and at most 64 bits of mantissa, or no range at all; the range
    is the minimum plus (2^mantissa - 1) 10^exponent, computed without an
    overflow of 64 bits, and at most 10 bytes were read of a proof of at least 65. *)
Theorem rangeproof_header_sound h proof h' : Forall is_byte proof -> h_offset h = 0 ->
  secp256k1_rangeproof_getheader_impl h proof = (true, h') ->
  65 <= Z.of_nat (length proof) /\ header_ok h'.
Proof. apply getheader_sound. Qed.

(** C15: choosing a range. For every minimum, exponent and number of bits a range is
    found unless the value or the minimum is beyond 2^63 - 1 with the other not
    0; the header written for it is read back with the same exponent, mantissa,
    scale and minimum; the value lies in the range, which starts at or above
    the minimum asked for, and is the sum of the digits in base 4, each within
    its ring, times the scale, plus the minimum. *)
Theorem range_params_roundtrip mn exp mb value rest h : 0 <= mn <= value -> value < 2 ^ 64 ->
  -1 <= exp <= 18 -> 0 <= mb <= 64 -> h_offset h = 0 -> 65 <= Z.of_nat (length rest) < 2 ^ 62 ->
  match secp256k1_range_proveparams mn exp mb value with
  | None => 0 <= exp /\ (mn <> 0 /\ INT64_MAX < value \/ value <> 0 /\ INT64_MAX <= mn)
  | Some q => exists h', secp256k1_rangeproof_getheader_impl h (header_bytes q ++ rest) = (true, h') /\
      h_offset h' = Z.of_nat (length (header_bytes q)) /\ h_mantissa h' = pmantissa q /\
      h_scale h' = pscale q /\ h_min h' = pmin_value q /\ mn <= h_min h' <= value /\ value <= h_max h' /\
      digit_sum (psecidx q) * pscale q + pmin_value q = value /\
      (forall i, (i < prings q)%nat -> (nth i (psecidx q) 0 < nth i (prsizes q) 0)%nat) /\
      (prings q <= 32)%nat
  end.
Proof.
  intros Hmn Hv He Hb H0 HL. pose proof (proveparams_spec mn exp mb value Hmn Hv He Hb) as S.
  destruct (secp256k1_range_proveparams mn exp mb value) as [q|]; [|exact S].
  assert (Len : 65 <= Z.of_nat (length (header_bytes q ++ rest)) < 2 ^ 63).
  { pose proof (header_length q). rewrite length_app. lia. }
  destruct S as [[_ ->]|(L & R & _)].
  - exists (header_of (exact_params value mb) (-1)).
    split; [apply getheader_exact; [lia|exact H0|exact Len]|].
    cbn [header_of exact_params h_offset h_mantissa h_scale h_min h_max pmantissa pscale pmin_value
      psecidx digit_sum prings prsizes].
    repeat (split; [reflexivity || lia|]). split; [|lia].
    intros [|i] Hi; [cbn; lia|lia].
  - exists (header_of q (pexp q)).
    split; [apply (getheader_range h value mn); assumption|].
    destruct (digits_ok value mn q R) as [D1 D2]. destruct R as [Rv Rm _ Rs Rma Rvv Rr _ _ _ _].
    assert (0 <= pscale q) by (rewrite Rs; apply Z.pow_nonneg; lia).
    rewrite D1. cbn [header_of h_offset h_mantissa h_scale h_min h_max].
    repeat (split; [reflexivity || exact Rm|]). split; [nia|]. split; [exact Rv|]. split; [exact D2|].
    clear - Rr Rma. dlia.
Qed.

Definition no_header : header := Header 0 0 0 0 0 0.

Lemma rangeproof_header_sound_witness :
  let proof := [0x61; 7] ++ repeat 0 70 in
  secp256k1_rangeproof_getheader_impl no_header proof = (true, Header 10 1 8 10 0 2550) /\
  65 <= Z.of_nat (length proof) /\ header_ok (Header 10 1 8 10 0 2550).
Proof.
  intros proof. assert (E : secp256k1_rangeproof_getheader_impl no_header proof = (true, Header 10 1 8 10 0 2550))
    by (vm_compute; reflexivity).
  split; [exact E|]. apply (rangeproof_header_sound no_header proof); [|reflexivity|exact E].
  repeat (constructor; [unfold is_byte; lia|]). constructor.
Defined.

Lemma range_params_roundtrip_witness : exists q h',
  secp256k1_range_proveparams 5 1 8 1234 = Some q /\ pscale q = 10 /\
  secp256k1_rangeproof_getheader_impl no_header (header_bytes q ++ repeat 0 100) = (true, h') /\
  h_min h' = 14 /\ h_max h' = 14 + 2550.
Proof.
  pose proof (range_params_roundtrip 5 1 8 1234 (repeat 0 100) no_header ltac:(lia) ltac:(lia) ltac:(lia)
    ltac:(lia) eq_refl ltac:(rewrite repeat_length; lia)) as R.
  destruct (secp256k1_range_proveparams 5 1 8 1234) as [q|] eqn:E; [|vm_compute in E; discriminate E].
  destruct R as (h' & Eh & _). exists q, h'. split; [reflexivity|].
  vm_compute in E. injection E as <-. split; [reflexivity|]. split; [exact Eh|].
  vm_compute in Eh. injection Eh as <-. split; reflexivity.
Defined.
