(* ===== verification/Borromean.v ===== *)
(** * modules/rangeproof/borromean_impl.h: ring signatures

    Several rings that share one challenge.  The arrays of the code run over all
    rings; [count] is the place of the current ring.  A function that returns
    early gives [false] and what it has written so far. *)
From S2P Require Import Field5x52 Scalar4x64.
From S2P Require Import Prelude Primes FieldSpec Field ScalarSpec Scalar Sha256Spec Hash.
From S2P Require Import CurveSpec CurveGroup CurveOrder CurveCount Group Ecmult EcmultGen.
From S2P Require Import EcmultProperties Ecdsa Eckey Api EcdsaProperties ApiProperties.
From S2P Require Import Generator Pedersen.

(** What a function that may leave its output alone has made of it. *)
Definition written {A} (old : A) (out : option A) : A := match out with Some a => a | None => old end.

(** [memcmp(a, b, n) == 0] on two strings of [n] bytes. *)
Definition bytes_eqb (a b : bytes) : bool := if list_eq_dec Z.eq_dec a b then true else false.

Section Borromean.
Context {F : FieldImpl} {SI : ScalarImpl} (junk : secp256k1_gej) (sha0 : sha256_t).

#[local] Abbreviation zero := (s_set_int 0).

Definition secp256k1_borromean_hash (m e : bytes) (ridx eidx : nat) : bytes :=
  let sha256_en := secp256k1_sha256_initialize sha0 in
  let ring := BE32 (u32 (Z.of_nat ridx)) in
  let epos := BE32 (u32 (Z.of_nat eidx)) in
  let sha256_en := secp256k1_sha256_write sha256_en e in
  let sha256_en := secp256k1_sha256_write sha256_en m in
  let sha256_en := secp256k1_sha256_write sha256_en (store32 ring) in
  let sha256_en := secp256k1_sha256_write sha256_en (store32 epos) in
  snd (secp256k1_sha256_finalize sha256_en).

(** The point that stands for member [c] under the challenge [ens], and its
    octets; [tmp] keeps its content if there are none. *)
Definition member_point (ctx : secp256k1_ecmult_context) (s : list scalar) (pubs : list secp256k1_gej)
    (c : nat) (ens : scalar) : secp256k1_gej :=
  secp256k1_ecmult junk ctx junk (nth c pubs junk) ens (nth c s zero).

Definition point_octets (rgej : secp256k1_gej) (tmp : bytes) : bytes :=
  let '(rge, _) := secp256k1_ge_set_gej_var (junk_ge junk) rgej in
  written tmp (snd (secp256k1_eckey_pubkey_serialize rge true)).

(** The inner loop of the verification for ring [i], [n] members being left from
    member [j] on. *)
Fixpoint verify_ring (ctx : secp256k1_ecmult_context) (s : list scalar) (pubs : list secp256k1_gej)
    (m : bytes) (i rsize n j count : nat) (tmp : bytes) (ens : scalar) (overflow : bool)
    (sha256_e0 : sha256_t) (evalues : option (list scalar))
    : bool * (nat * sha256_t * option (list scalar)) :=
  match n with
  | O => (true, (count, sha256_e0, evalues))
  | S n =>
    if overflow || s_is_zero (nth count s zero) || s_is_zero ens
       || secp256k1_gej_is_infinity (nth count pubs junk)
    then (false, (count, sha256_e0, evalues)) else
    let evalues := match evalues with Some l => Some (upd l count ens) | None => None end in
    let rgej := member_point ctx s pubs count ens in
    if secp256k1_gej_is_infinity rgej then (false, (count, sha256_e0, evalues)) else
    let tmp := point_octets rgej tmp in
    if negb (Nat.eqb j (rsize - 1)) then
      let tmp := secp256k1_borromean_hash m tmp i (j + 1) in
      let '(ens, overflow) := s_set_b32 tmp in
      verify_ring ctx s pubs m i rsize n (S j) (count + 1) tmp ens overflow sha256_e0 evalues
    else
      let sha256_e0 := secp256k1_sha256_write sha256_e0 tmp in
      verify_ring ctx s pubs m i rsize n (S j) (count + 1) tmp ens overflow sha256_e0 evalues
  end.

(** The outer loop, from ring [i] on. *)
Fixpoint verify_rings (ctx : secp256k1_ecmult_context) (e0 : bytes) (s : list scalar)
    (pubs : list secp256k1_gej) (m : bytes) (rsizes : list nat) (i count : nat)
    (sha256_e0 : sha256_t) (evalues : option (list scalar))
    : bool * (nat * sha256_t * option (list scalar)) :=
  match rsizes with
  | [] => (true, (count, sha256_e0, evalues))
  | rsize :: rsizes =>
    let tmp := secp256k1_borromean_hash m e0 i 0 in
    let '(ens, overflow) := s_set_b32 tmp in
    let '(ok, (count, sha256_e0, evalues)) :=
      verify_ring ctx s pubs m i rsize rsize 0 count tmp ens overflow sha256_e0 evalues in
    if negb ok then (false, (count, sha256_e0, evalues)) else
    verify_rings ctx e0 s pubs m rsizes (S i) count sha256_e0 evalues
  end.

(** [e0] is the 32 bytes at the pointer, [evalues] NULL or an array. *)
Definition secp256k1_borromean_verify (ctx : secp256k1_ecmult_context) (evalues : option (list scalar))
    (e0 : bytes) (s : list scalar) (pubs : list secp256k1_gej) (rsizes : list nat) (nrings : nat)
    (m : bytes) : bool * option (list scalar) :=
  let sha256_e0 := secp256k1_sha256_initialize sha0 in
  let '(ok, (_, sha256_e0, evalues)) :=
    verify_rings ctx e0 s pubs m (firstn nrings rsizes) 0 0 sha256_e0 evalues in
  if negb ok then (false, evalues) else
  let sha256_e0 := secp256k1_sha256_write sha256_e0 m in
  let '(_, tmp) := secp256k1_sha256_finalize sha256_e0 in
  (bytes_eqb e0 tmp, evalues).

(** The forged members after the signer's: [n] of them from [j] on. *)
Fixpoint forge_up (ctx : secp256k1_ecmult_context) (s : list scalar) (pubs : list secp256k1_gej)
    (m : bytes) (i n j count : nat) (tmp : bytes) : option bytes :=
  match n with
  | O => Some tmp
  | S n =>
    let tmp := secp256k1_borromean_hash m tmp i j in
    let '(ens, overflow) := s_set_b32 tmp in
    if overflow || s_is_zero ens then None else
    let rgej := member_point ctx s pubs (count + j) ens in
    if secp256k1_gej_is_infinity rgej then None else
    forge_up ctx s pubs m i n (S j) count (point_octets rgej tmp)
  end.

(** The first loop over the rings. *)
Fixpoint sign_first (ctx : secp256k1_ecmult_context) (gen_ctx : secp256k1_ecmult_gen_context)
    (s : list scalar) (pubs : list secp256k1_gej) (k : list scalar) (secidx : list nat) (m : bytes)
    (rsizes : list nat) (i count : nat) (tmp : bytes) (sha256_e0 : sha256_t) : option sha256_t :=
  match rsizes with
  | [] => Some sha256_e0
  | rsize :: rsizes =>
    let rgej := secp256k1_ecmult_gen gen_ctx (nth i k zero) in
    let '(rge, rgej) := secp256k1_ge_set_gej rgej in
    if secp256k1_gej_is_infinity rgej then None else
    let tmp := written tmp (snd (secp256k1_eckey_pubkey_serialize rge true)) in
    let j := (nth i secidx 0 + 1)%nat in
    match forge_up ctx s pubs m i (rsize - j) j count tmp with
    | None => None
    | Some tmp =>
      let sha256_e0 := secp256k1_sha256_write sha256_e0 tmp in
      sign_first ctx gen_ctx s pubs k secidx m rsizes (S i) (count + rsize) tmp sha256_e0
    end
  end.

(** The forged members before the signer's, [n] of them from [j] on: the
    challenge of the member after them. *)
Fixpoint forge_down (ctx : secp256k1_ecmult_context) (s : list scalar) (pubs : list secp256k1_gej)
    (m : bytes) (i n j count : nat) (tmp : bytes) (ens : scalar) : option scalar :=
  match n with
  | O => Some ens
  | S n =>
    let rgej := member_point ctx s pubs (count + j) ens in
    if secp256k1_gej_is_infinity rgej then None else
    let tmp := point_octets rgej tmp in
    let tmp := secp256k1_borromean_hash m tmp i (j + 1) in
    let '(ens, overflow) := s_set_b32 tmp in
    if overflow || s_is_zero ens then None else
    forge_down ctx s pubs m i n (S j) count tmp ens
  end.

(** The second loop over the rings. *)
Fixpoint sign_second (ctx : secp256k1_ecmult_context) (e0 : bytes) (s : list scalar)
    (pubs : list secp256k1_gej) (k sec : list scalar) (secidx : list nat) (m : bytes)
    (rsizes : list nat) (i count : nat) : bool * list scalar :=
  match rsizes with
  | [] => (true, s)
  | rsize :: rsizes =>
    let tmp := secp256k1_borromean_hash m e0 i 0 in
    let '(ens, overflow) := s_set_b32 tmp in
    if overflow || s_is_zero ens then (false, s) else
    let j := nth i secidx 0%nat in
    match forge_down ctx s pubs m i j 0 count tmp ens with
    | None => (false, s)
    | Some ens =>
      let r := s_mul ens (nth i sec zero) in
      let r := s_negate r in
      let '(r, _) := s_add r (nth i k zero) in
      let s := upd s (count + j) r in
      if s_is_zero r then (false, s) else
      sign_second ctx e0 s pubs k sec secidx m rsizes (S i) (count + rsize)
    end
  end.

(** The result, [e0] and [s]; [e0] is written before the second loop. *)
Definition secp256k1_borromean_sign (ctx : secp256k1_ecmult_context)
    (gen_ctx : secp256k1_ecmult_gen_context) (e0 : bytes) (s : list scalar) (pubs : list secp256k1_gej)
    (k sec : list scalar) (rsizes secidx : list nat) (nrings : nat) (m : bytes)
    : bool * (bytes * list scalar) :=
  let sha256_e0 := secp256k1_sha256_initialize sha0 in
  match sign_first ctx gen_ctx s pubs k secidx m (firstn nrings rsizes) 0 0 [] sha256_e0 with
  | None => (false, (e0, s))
  | Some sha256_e0 =>
    let sha256_e0 := secp256k1_sha256_write sha256_e0 m in
    let '(_, e0) := secp256k1_sha256_finalize sha256_e0 in
    let '(ok, s) := sign_second ctx e0 s pubs k sec secidx m (firstn nrings rsizes) 0 0 in
    (ok, (e0, s))
  end.

(** * The equations, on points

    A member of a ring is a pair of a number and a point. *)

Definition member : Type := Z * point.

Definition ring_hash (m e : bytes) (i j : nat) : bytes :=
  fips_sha256 (e ++ m ++ be_bytes 4 (Z.of_nat i) ++ be_bytes 4 (Z.of_nat j)).

(** A challenge must be a non-zero scalar, and so must the number; the member's
    point and the point of the equation must be finite. *)
Definition ring_point (e : Z) (mb : member) : option bytes :=
  let '(s, P) := mb in
  if (n_order <=? e) || (s =? 0) || (e =? 0) || is_inf P then None else
  match padd (smul e P) (smul s G_point) with Inf => None | Aff x y => Some (compressed x y) end.

(** The octets at the end of a ring that starts with the hash [h], and the
    challenges. *)
Fixpoint ring_end (m : bytes) (i j : nat) (h : bytes) (ring : list member) : option (bytes * list Z) :=
  match ring with
  | [] => Some ([], [])
  | mb :: rest =>
    match ring_point (be_val h) mb with
    | None => None
    | Some R =>
      match rest with
      | [] => Some (R, [be_val h])
      | _ :: _ =>
        match ring_end m i (S j) (ring_hash m R i (S j)) rest with
        | None => None
        | Some (R, es) => Some (R, be_val h :: es)
        end
      end
    end
  end.

Fixpoint ring_ends (m e0 : bytes) (i : nat) (rings : list (list member)) : option (bytes * list Z) :=
  match rings with
  | [] => Some ([], [])
  | ring :: rings =>
    match ring_end m i 0 (ring_hash m e0 i 0) ring with
    | None => None
    | Some (R, es) =>
      match ring_ends m e0 (S i) rings with
      | None => None
      | Some (Rs, es') => Some (R ++ Rs, es ++ es')
      end
    end
  end.

(** The signature of [m] with the shared challenge [e0]. *)
Definition borromean_valid (m e0 : bytes) (rings : list (list member)) : Prop :=
  exists Rs es, ring_ends m e0 0 rings = Some (Rs, es) /\ e0 = fips_sha256 (Rs ++ m).

(** The rings the arrays stand for. *)
Definition ring_at (mem : nat -> member) (count rsize : nat) : list member := map mem (seq count rsize).

Fixpoint rings_at (mem : nat -> member) (count : nat) (rsizes : list nat) : list (list member) :=
  match rsizes with
  | [] => []
  | rsize :: rsizes => ring_at mem count rsize :: rings_at mem (count + rsize) rsizes
  end.

Definition total (rsizes : list nat) : nat := fold_right Nat.add O rsizes.

(** * Theorems *)

Context (Hjunk : gej_mags junk) (Hsha : buf_ok sha0).

Lemma bytes_eqb_spec a b : bytes_eqb a b = true <-> a = b.
Proof. unfold bytes_eqb. destruct (list_eq_dec Z.eq_dec a b); split; congruence. Qed.

Lemma word_octets n : store32 (BE32 (u32 (Z.of_nat n))) = be_bytes 4 (Z.of_nat n).
Proof.
  rewrite store32_BE32 by (unfold is_word, u32; dlia).
  rewrite (be_bytes_mod 4 (Z.of_nat n)). unfold u32.
  change (256 ^ Z.of_nat 4) with 0x100000000. reflexivity.
Qed.

Lemma fold_left_4 {A B} (f : A -> B -> A) x a b c d :
  fold_left f [a; b; c; d] x = f (f (f (f x a) b) c) d.
Proof. reflexivity. Qed.

Lemma borromean_hash_spec m e i j : Forall is_byte m -> Forall is_byte e ->
  Z.of_nat (length e + length m) < 2 ^ 32 -> secp256k1_borromean_hash m e i j = ring_hash m e i j.
Proof.
  intros Bm Be L. unfold secp256k1_borromean_hash, ring_hash. rewrite !word_octets.
  set (ri := be_bytes 4 (Z.of_nat i)). set (rj := be_bytes 4 (Z.of_nat j)).
  pose proof (sha_run sha0 [e; m; ri; rj] Hsha) as R. cbv zeta in R. rewrite fold_left_4 in R.
  cbn [concat] in R. rewrite app_nil_r in R. apply R.
  - exact (Forall_cons _ Be (Forall_cons _ Bm (Forall_cons _ (be_bytes_byte 4 _)
      (Forall_cons _ (be_bytes_byte 4 _) (Forall_nil _))))).
  - rewrite !length_app. unfold ri, rj. rewrite !length_be_bytes. lia.
Qed.

Lemma point_octets_spec a x y tmp : gej_rep a (Aff x y) -> point_octets a tmp = compressed x y.
Proof.
  intros Ha. unfold point_octets.
  destruct (set_gej_var_rep (junk_ge junk) a _ (conj (proj1 Hjunk) (proj1 (proj2 Hjunk))) Ha) as [R _].
  destruct (secp256k1_ge_set_gej_var _ a) as [g a']. cbn [fst] in R.
  pose proof (key_serialize_spec g true x y R) as K.
  destruct (secp256k1_eckey_pubkey_serialize g true) as [g' o]. now rewrite (proj1 K).
Qed.

Lemma length_compressed x y : length (compressed x y) = 33%nat.
Proof. unfold compressed. cbn [length]. now rewrite length_be_bytes. Qed.

(** ** The arrays

    [P c] is the point of [pubs[c]], for the [size] places in use. *)
Section Arrays.
Context (ctx : secp256k1_ecmult_context) (HC : ctx_ok ctx) (pubs : list secp256k1_gej).
Context (P : nat -> point) (size : nat).
Context (Hp : forall c, (c < size)%nat -> gej_rep (nth c pubs junk) (P c)).

Definition scalars_ok (s : list scalar) : Prop := forall c, (c < size)%nat -> sok (nth c s zero).

Definition mem (s : list scalar) (c : nat) : member := (sval (nth c s zero), P c).

(** What the code does with one member is the equation. *)
Lemma member_step s c h : scalars_ok s -> (c < size)%nat -> is_b32 h ->
  let '(ens, overflow) := s_set_b32 h in
  let bad := overflow || s_is_zero (nth c s zero) || s_is_zero ens
             || secp256k1_gej_is_infinity (nth c pubs junk) in
  let rgej := member_point ctx s pubs c ens in
  (overflow = false -> sok ens /\ sval ens = be_val h) /\
  match ring_point (be_val h) (mem s c) with
  | None => bad = false -> secp256k1_gej_is_infinity rgej = true
  | Some R => bad = false /\ secp256k1_gej_is_infinity rgej = false /\
      (forall tmp, point_octets rgej tmp = R) /\ length R = 33%nat /\ Forall is_byte R
  end.
Proof.
  intros Hs Hc Hh. pose proof (b32_read h Hh) as K. destruct (s_set_b32 h) as [ens o].
  destruct K as [-> K]. cbv zeta. split; [exact K|]. unfold ring_point, mem.
  rewrite (is_infinity_spec _ _ (Hp c Hc)), (s_is_zero_ok _ (Hs c Hc)).
  destruct (Z.leb_spec n_order (be_val h)) as [L|L]; [discriminate|]. cbn [orb].
  destruct (K eq_refl) as [Oe Ve]. rewrite (s_is_zero_ok _ Oe), Ve.
  destruct (sval (nth c s zero) =? 0) eqn:Ez; cbn [orb]; [discriminate|].
  destruct (be_val h =? 0) eqn:Eh; cbn [orb]; [discriminate|].
  destruct (is_inf (P c)) eqn:Ei; [discriminate|].
  assert (M : gej_rep (member_point ctx s pubs c ens)
    (padd (smul (be_val h) (P c)) (smul (sval (nth c s zero)) G_point))).
  { rewrite <- Ve. apply (ecmult_point junk ctx junk _ _ _ _ Hjunk HC Oe (Hs c Hc)); [|exact (Hp c Hc)].
    intros E. rewrite E in Ei. discriminate Ei. }
  destruct (padd _ _) as [|x y].
  - intros _. exact (is_infinity_spec _ _ M).
  - split; [reflexivity|]. split; [exact (is_infinity_spec _ _ M)|].
    split; [intros tmp; exact (point_octets_spec _ x y tmp M)|].
    split; [apply length_compressed|apply compressed_byte].
Qed.

Context (m : bytes) (Bm : Forall is_byte m) (Lm : Z.of_nat (length m) < 2 ^ 31).

Lemma ring_hash_b32 R i j : Forall is_byte R -> length R = 33%nat ->
  secp256k1_borromean_hash m R i j = ring_hash m R i j /\ is_b32 (ring_hash m R i j).
Proof.
  intros B L. rewrite borromean_hash_spec by (assumption || lia). split; [reflexivity|].
  split; [apply length_fips_sha256|apply fips_sha256_byte].
Qed.

(** Storing the challenges. *)
Fixpoint put {A} (l : list A) (c : nat) (es : list A) : list A :=
  match es with [] => l | e :: es => put (upd l c e) (S c) es end.

Definition put_all (evalues : option (list scalar)) (c : nat) (es : list scalar)
    : option (list scalar) := option_map (fun l => put l c es) evalues.

Definition scalars_for (es : list Z) (l : list scalar) : Prop := Forall2 (fun e x => sok x /\ sval x = e) es l.

Lemma verify_ring_spec s i n : scalars_ok s -> forall j count h tmp sha acc evalues,
  (count + n <= size)%nat -> is_b32 h -> repr sha acc ->
  let r := let '(ens, overflow) := s_set_b32 h in
    verify_ring ctx s pubs m i (j + n) n j count tmp ens overflow sha evalues in
  match ring_end m i j h (ring_at (mem s) count n) with
  | None => fst r = false
  | Some (R, es) => exists sha' l, r = (true, ((count + n)%nat, sha', put_all evalues count l)) /\
      scalars_for es l /\ repr sha' (acc ++ R) /\ Forall is_byte R /\ (length R <= 33)%nat
  end.
Proof.
  intros Hs. induction n as [|n IH]; intros j count h tmp sha acc evalues Hn Hh Hr.
  { destruct (s_set_b32 h) as [ens o]. exists sha, []. rewrite (Nat.add_0_r count), app_nil_r.
    split; [now destruct evalues|]. split; [constructor|]. split; [exact Hr|].
    split; [constructor|cbn; lia]. }
  unfold ring_at. cbn [seq map ring_end]. pose proof (member_step s count h Hs ltac:(lia) Hh) as M.
  destruct (s_set_b32 h) as [ens o]. destruct M as [Ho M]. cbn [verify_ring].
  destruct (ring_point (be_val h) (mem s count)) as [R|].
  2: { destruct (o || _ || _ || _); [reflexivity|]. now rewrite M. }
  destruct M as (Eb & Ei & Et & LR & BR). rewrite Eb, Ei, Et. apply orb_false_iff in Eb. destruct Eb as [Eb _].
  apply orb_false_iff in Eb. destruct Eb as [Eb _]. apply orb_false_iff in Eb. destruct Eb as [-> _].
  specialize (Ho eq_refl). destruct n as [|n].
  - cbn [seq map]. replace (Nat.eqb j (j + 1 - 1)) with true by (symmetry; apply Nat.eqb_eq; lia).
    cbn [negb verify_ring]. exists (secp256k1_sha256_write sha R), [ens].
    split; [now destruct evalues|]. split; [constructor; [exact Ho|constructor]|].
    split; [now apply write_repr|]. split; [exact BR|lia].
  - replace (Nat.eqb j (j + S (S n) - 1)) with false by (symmetry; apply Nat.eqb_neq; lia).
    cbn [negb]. cbn [seq map]. destruct (ring_hash_b32 R i (S j) BR LR) as [E Hh'].
    rewrite (Nat.add_1_r j), E.
    set (ev := match evalues with Some l => _ | None => None end).
    specialize (IH (S j) (count + 1)%nat (ring_hash m R i (S j)) (ring_hash m R i (S j)) sha acc ev
      ltac:(lia) Hh' Hr). cbv zeta in IH. rewrite Nat.add_1_r in *.
    replace (S j + S n)%nat with (j + S (S n))%nat in IH by lia.
    unfold ring_at in IH. cbn [seq map] in IH.
    destruct (ring_end m i (S j) _ _) as [[R' es]|]; [|exact IH].
    destruct IH as (sha' & l & E' & Hl & Hr' & B' & L'). exists sha', (ens :: l).
    split; [rewrite E'; unfold ev; rewrite Nat.add_succ_comm; now destruct evalues|].
    split; [now constructor|]. auto.
Qed.
Lemma put_app {A} (a b : list A) : forall l c, put l c (a ++ b) = put (put l c a) (c + length a) b.
Proof.
  induction a as [|x a IH]; intros l c; cbn [app put length]; [now rewrite Nat.add_0_r|].
  rewrite IH. f_equal. lia.
Qed.

Lemma ring_end_length i ring : forall j h R es, ring_end m i j h ring = Some (R, es) ->
  length es = length ring.
Proof.
  induction ring as [|mb ring IH]; intros j h R es E; cbn [ring_end] in E; [now injection E as <- <-|].
  destruct (ring_point (be_val h) mb) as [R'|]; [|discriminate E].
  destruct ring as [|mb' ring]; [now injection E as <- <-|].
  destruct (ring_end m i (S j) _ _) as [[R'' es']|] eqn:E'; [|discriminate E].
  injection E as <- <-. cbn [length]. f_equal. exact (IH _ _ _ _ E').
Qed.

Lemma ring_at_length f c n : length (ring_at f c n) = n.
Proof. unfold ring_at. now rewrite length_map, length_seq. Qed.

Lemma hash_e0 e0 i j : is_b32 e0 ->
  secp256k1_borromean_hash m e0 i j = ring_hash m e0 i j /\ is_b32 (ring_hash m e0 i j).
Proof.
  intros [L B]. rewrite borromean_hash_spec by (assumption || lia). split; [reflexivity|].
  split; [apply length_fips_sha256|apply fips_sha256_byte].
Qed.

Lemma verify_rings_spec s e0 rsizes : scalars_ok s -> is_b32 e0 -> forall i count sha acc evalues,
  (count + total rsizes <= size)%nat -> repr sha acc ->
  let r := verify_rings ctx e0 s pubs m rsizes i count sha evalues in
  match ring_ends m e0 i (rings_at (mem s) count rsizes) with
  | None => fst r = false
  | Some (Rs, es) => exists sha' l,
      r = (true, ((count + total rsizes)%nat, sha', put_all evalues count l)) /\
      scalars_for es l /\ repr sha' (acc ++ Rs) /\ Forall is_byte Rs /\
      (length Rs <= 33 * length rsizes)%nat
  end.
Proof.
  intros Hs He. induction rsizes as [|n rsizes IH]; intros i count sha acc evalues Hn Hr.
  { exists sha, []. cbn [total fold_right]. rewrite (Nat.add_0_r count), app_nil_r.
    split; [now destruct evalues|]. split; [constructor|]. split; [exact Hr|]. split; [constructor|cbn; lia]. }
  cbn [verify_rings rings_at ring_ends total fold_right] in *. fold (total rsizes) in *.
  destruct (hash_e0 e0 i 0 He) as [-> Hh].
  pose proof (verify_ring_spec s i n Hs 0 count _ (ring_hash m e0 i 0) sha acc evalues ltac:(lia) Hh Hr) as V.
  cbv zeta in V. cbn [Nat.add] in V.
  destruct (s_set_b32 (ring_hash m e0 i 0)) as [ens o].
  destruct (ring_end m i 0 _ _) as [[R es]|] eqn:ER.
  2: { destruct (verify_ring _ _ _ _ _ _ _ _ _ _ _ _ _ _) as [ok [[c sha'] ev]]. cbn [fst] in V. now subst ok. }
  destruct V as (sha' & l & -> & Hl & Hr' & BR & LR). cbv zeta. cbn [negb].
  specialize (IH (S i) (count + n)%nat sha' (acc ++ R) (put_all evalues count l) ltac:(lia) Hr'). cbv zeta in IH.
  destruct (ring_ends m e0 (S i) _) as [[Rs es']|]; [|exact IH].
  destruct IH as (sha2 & l2 & E & Hl2 & Hr2 & B2 & L2). exists sha2, (l ++ l2).
  assert (Ll : length l = n).
  { pose proof (Forall2_length Hl) as L. rewrite (ring_end_length _ _ _ _ _ _ ER), ring_at_length in L. now symmetry. }
  split; [|split; [exact (Forall2_app Hl Hl2)|]].
  - rewrite E, Nat.add_assoc. destruct evalues; cbn [put_all option_map]; [|reflexivity].
    now rewrite put_app, Ll.
  - rewrite <- app_assoc in Hr2. split; [exact Hr2|]. split; [now apply Forall_app|].
    rewrite length_app. cbn [length]. lia.
Qed.

Lemma borromean_verify_spec s e0 rsizes evalues : scalars_ok s -> is_b32 e0 ->
  (total rsizes <= size)%nat -> Z.of_nat (length rsizes) < 2 ^ 31 ->
  let r := secp256k1_borromean_verify ctx evalues e0 s pubs rsizes (length rsizes) m in
  match ring_ends m e0 0 (rings_at (mem s) 0 rsizes) with
  | None => fst r = false
  | Some (Rs, es) => exists l, r = (bytes_eqb e0 (fips_sha256 (Rs ++ m)), put_all evalues 0 l) /\
      scalars_for es l
  end.
Proof.
  intros Hs He Hn Ln. unfold secp256k1_borromean_verify. cbv zeta. rewrite firstn_all.
  pose proof (verify_rings_spec s e0 rsizes Hs He 0 0 _ [] evalues Hn (initialize_repr sha0 Hsha)) as V.
  cbv zeta in V. destruct (ring_ends m e0 0 _) as [[Rs es]|].
  2: { destruct (verify_rings _ _ _ _ _ _ _ _ _ _) as [ok [[c sha'] ev]]. cbn [fst] in V. now subst ok. }
  destruct V as (sha' & l & -> & Hl & Hr & BR & LR). cbn [negb app] in *. exists l. split; [|exact Hl].
  destruct (finalize_spec _ _ (write_repr _ _ m Hr Bm)) as [D _]; [rewrite length_app; lia|].
  destruct (secp256k1_sha256_finalize _) as [h tmp]. cbn [snd] in D. now rewrite D.
Qed.

Lemma borromean_verify_valid s e0 rsizes evalues : scalars_ok s -> is_b32 e0 ->
  (total rsizes <= size)%nat -> Z.of_nat (length rsizes) < 2 ^ 31 ->
  fst (secp256k1_borromean_verify ctx evalues e0 s pubs rsizes (length rsizes) m) = true <->
  borromean_valid m e0 (rings_at (mem s) 0 rsizes).
Proof.
  intros Hs He Hn Ln. pose proof (borromean_verify_spec s e0 rsizes evalues Hs He Hn Ln) as V.
  cbv zeta in V. unfold borromean_valid. destruct (ring_ends m e0 0 _) as [[Rs es]|].
  - destruct V as (l & -> & _). cbn [fst]. rewrite bytes_eqb_spec. split; [intros E; now exists Rs, es|].
    intros (Rs' & es' & [= <- <-] & E). exact E.
  - rewrite V. split; [discriminate|]. intros (Rs' & es' & E & _). discriminate E.
Qed.
(** ** Signing *)

Context (gen_ctx : secp256k1_ecmult_gen_context) (HG : gen_ctx_ok gen_ctx).
Context (k sec : list scalar) (secidx : list nat).
Context (nr : nat) (Hk : forall i, (i < nr)%nat -> sok (nth i k zero)).
Context (Hsec : forall i, (i < nr)%nat -> sok (nth i sec zero)).
Context (HP : forall c, (c < size)%nat -> P c <> Inf).

(** What follows a member with the octets [R]. *)
Definition ring_after (i j : nat) (R : bytes) (rest : list member) : option (bytes * list Z) :=
  match rest with [] => Some (R, []) | _ :: _ => ring_end m i j (ring_hash m R i j) rest end.

Lemma ring_end_cons i j h mb rest : ring_end m i j h (mb :: rest) =
  match ring_point (be_val h) mb with
  | None => None
  | Some R => match ring_after i (S j) R rest with
              | None => None
              | Some (R', es) => Some (R', be_val h :: es)
              end
  end.
Proof. cbn [ring_end]. destruct (ring_point _ _); [|reflexivity]. now destruct rest. Qed.

(** A member that has what it takes, but perhaps not the point. *)
Lemma member_forged s c h : scalars_ok s -> (c < size)%nat -> is_b32 h -> sval (nth c s zero) <> 0 ->
  let '(ens, overflow) := s_set_b32 h in
  let rgej := member_point ctx s pubs c ens in
  overflow || s_is_zero ens = false -> secp256k1_gej_is_infinity rgej = false ->
  exists R, ring_point (be_val h) (mem s c) = Some R /\ (forall tmp, point_octets rgej tmp = R) /\
    length R = 33%nat /\ Forall is_byte R.
Proof.
  intros Hs Hc Hh Nz. pose proof (member_step s c h Hs Hc Hh) as M. destruct (s_set_b32 h) as [ens o].
  cbv zeta in *. destruct M as [_ M]. intros E Ei. apply orb_false_iff in E. destruct E as [-> E].
  rewrite E, (s_is_zero_ok _ (Hs c Hc)), (proj2 (Z.eqb_neq _ _) Nz) in M.
  rewrite (is_infinity_spec _ _ (Hp c Hc)) in M.
  replace (is_inf (P c)) with false in M by (pose proof (HP c Hc); now destruct (P c)).
  destruct (ring_point _ _) as [R|]; [|rewrite (M eq_refl) in Ei; discriminate Ei].
  exists R. tauto.
Qed.

Lemma forge_up_spec s i n : scalars_ok s -> forall j count R R', (count + j + n <= size)%nat ->
  (forall t, (t < n)%nat -> sval (nth (count + j + t) s zero) <> 0) ->
  Forall is_byte R -> length R = 33%nat ->
  forge_up ctx s pubs m i n j count R = Some R' ->
  Forall is_byte R' /\ length R' = 33%nat /\
  exists es, ring_after i j R (ring_at (mem s) (count + j) n) = Some (R', es).
Proof.
  intros Hs. induction n as [|n IH]; intros j count R R' Hn Nz BR LR E; cbn [forge_up] in E.
  { injection E as <-. split; [exact BR|]. split; [exact LR|]. now exists []. }
  destruct (ring_hash_b32 R i j BR LR) as [Eh Hh]. rewrite Eh in E.
  pose proof (Nz O ltac:(lia)) as Nz0. rewrite Nat.add_0_r in Nz0.
  pose proof (member_forged s (count + j) _ Hs ltac:(lia) Hh Nz0) as M.
  destruct (s_set_b32 (ring_hash m R i j)) as [ens o]. cbv zeta in M.
  destruct (o || s_is_zero ens); [discriminate E|].
  destruct (secp256k1_gej_is_infinity _); [discriminate E|].
  destruct (M eq_refl eq_refl) as (R1 & E1 & Et & L1 & B1). rewrite Et in E.
  destruct (IH (S j) count R1 R') as (BR' & LR' & es & Ea); try assumption; [lia| |].
  { intros t Ht. replace (count + S j + t)%nat with (count + j + S t)%nat by lia. apply Nz. lia. }
  split; [exact BR'|]. split; [exact LR'|]. exists (be_val (ring_hash m R i j) :: es).
  unfold ring_at. cbn [seq map]. unfold ring_after. rewrite ring_end_cons, E1.
  unfold ring_at in Ea. rewrite Nat.add_succ_r in Ea. now rewrite Ea.
Qed.

Lemma forge_down_spec s i n : scalars_ok s -> forall j count h tmp ens', (count + j + n <= size)%nat ->
  (forall t, (t < n)%nat -> sval (nth (count + j + t) s zero) <> 0) -> is_b32 h ->
  let '(ens, overflow) := s_set_b32 h in
  overflow || s_is_zero ens = false ->
  forge_down ctx s pubs m i n j count tmp ens = Some ens' ->
  exists h' es0, is_b32 h' /\ s_set_b32 h' = (ens', false) /\ s_is_zero ens' = false /\
  forall rest, rest <> [] -> ring_end m i j h (ring_at (mem s) (count + j) n ++ rest) =
    match ring_end m i (j + n) h' rest with
    | None => None
    | Some (R, es) => Some (R, es0 ++ es)
    end.
Proof.
  intros Hs. induction n as [|n IH]; intros j count h tmp ens' Hn Nz Hh.
  { destruct (s_set_b32 h) as [ens o] eqn:Es. intros E F0. cbn [forge_down] in F0. injection F0 as <-.
    apply orb_false_iff in E. destruct E as [-> E]. exists h, [].
    split; [exact Hh|]. split; [exact Es|]. split; [exact E|]. intros rest _. rewrite Nat.add_0_r.
    cbn [ring_at seq map app]. now destruct (ring_end m i j h rest) as [[R es]|]. }
  pose proof (Nz O ltac:(lia)) as Nz0. rewrite Nat.add_0_r in Nz0.
  pose proof (member_forged s (count + j) _ Hs ltac:(lia) Hh Nz0) as M.
  destruct (s_set_b32 h) as [ens o]. cbv zeta in M. intros E F0. cbn [forge_down] in F0.
  destruct (secp256k1_gej_is_infinity _); [discriminate F0|].
  destruct (M E eq_refl) as (R1 & E1 & Et & L1 & B1). rewrite Et in F0.
  destruct (ring_hash_b32 R1 i (S j) B1 L1) as [Eh Hh1]. rewrite (Nat.add_1_r j), Eh in F0.
  specialize (IH (S j) count (ring_hash m R1 i (S j)) (ring_hash m R1 i (S j)) ens' ltac:(lia)).
  destruct (s_set_b32 (ring_hash m R1 i (S j))) as [ens1 o1].
  destruct (o1 || s_is_zero ens1); [discriminate F0|].
  destruct IH as (h' & es0 & H1 & H2 & H3 & H4); try assumption || reflexivity.
  { intros t Ht. replace (count + S j + t)%nat with (count + j + S t)%nat by lia. apply Nz. lia. }
  exists h', (be_val h :: es0). split; [exact H1|]. split; [exact H2|]. split; [exact H3|].
  intros rest Hrest. unfold ring_at. cbn [seq map app]. rewrite ring_end_cons, E1.
  specialize (H4 rest Hrest). unfold ring_at in H4. rewrite Nat.add_succ_r in H4.
  replace (j + S n)%nat with (S j + n)%nat by lia.
  assert (Hne : map (mem s) (seq (S (count + j)) n) ++ rest <> []) by (destruct rest; [contradiction|destruct n; discriminate]).
  unfold ring_after. destruct (map (mem s) (seq (S (count + j)) n) ++ rest) as [|mb l]; [contradiction|].
  rewrite H4. now destruct (ring_end m i (S j + n) h' rest) as [[R es]|].
Qed.
(** The number of the signer closes the ring. *)
Lemma signer_point ens kk x Q X Y : sok ens -> sok kk -> sok x -> s_is_zero ens = false ->
  Q = smul (sval x) G_point -> Q <> Inf -> smul (sval kk) G_point = Aff X Y ->
  let '(r, _) := s_add (s_negate (s_mul ens x)) kk in
  sok r /\ (s_is_zero r = false -> ring_point (sval ens) (sval r, Q) = Some (compressed X Y)).
Proof.
  intros He Hkk Hx Nz EQ HQ EK. destruct (s_mul_ok _ _ He Hx) as [Om Vm].
  destruct (s_negate_ok _ Om) as [On Vn]. pose proof (s_add_ok _ kk On Hkk) as A.
  destruct (s_add _ kk) as [r o]. destruct A as (Or & Vr & _). split; [exact Or|].
  rewrite (s_is_zero_ok _ Or). rewrite (s_is_zero_ok _ He) in Nz. intros Nr. unfold ring_point.
  rewrite (proj2 (Z.leb_gt _ _)) by (apply sok_range, He). rewrite Nr, Nz.
  replace (is_inf Q) with false by (now destruct Q). cbn [orb].
  assert (E : padd (smul (sval ens) Q) (smul (sval r) G_point) = smul (sval kk) G_point).
  { rewrite EQ, smul_smul, <- smul_add by oc. apply smul_cong.
    rewrite Vr, cong_mod, Vn, cong_mod, Vm, cong_mod. apply cong_eq. ring. }
  now rewrite E, EK.
Qed.

(** The rings before the signature: the signer of each knows a logarithm, and no
    other number is zero. *)
Fixpoint rings_ready (s : list scalar) (i count : nat) (rsizes : list nat) : Prop :=
  match rsizes with
  | [] => True
  | n :: rsizes =>
    let j := nth i secidx O in
    (j < n)%nat /\ P (count + j) = smul (sval (nth i sec zero)) G_point /\
    (forall t, (t < n)%nat -> t <> j -> sval (nth (count + t) s zero) <> 0) /\
    rings_ready s (S i) (count + n) rsizes
  end.

(** The ends of the rings as the first loop computes them. *)
Fixpoint ends_from (s : list scalar) (i count : nat) (rsizes : list nat) (Rs : bytes) : Prop :=
  match rsizes with
  | [] => Rs = []
  | n :: rsizes =>
    let j := nth i secidx O in
    exists R Rs' X Y es, Rs = R ++ Rs' /\ smul (sval (nth i k zero)) G_point = Aff X Y /\
      ring_after i (S j) (compressed X Y) (ring_at (mem s) (count + S j) (n - S j)) = Some (R, es) /\
      ends_from s (S i) (count + n) rsizes Rs'
  end.

Lemma ring_at_ext (f g : nat -> member) c n : (forall t, (t < n)%nat -> f (c + t)%nat = g (c + t)%nat) ->
  ring_at f c n = ring_at g c n.
Proof.
  intros E. apply map_ext_in. intros x Hx. apply in_seq in Hx.
  replace x with (c + (x - c))%nat by lia. apply E. lia.
Qed.

Lemma ring_at_split f c n j : (j < n)%nat ->
  ring_at f c n = ring_at f c j ++ f (c + j)%nat :: ring_at f (c + S j) (n - S j).
Proof.
  intros H. unfold ring_at. replace n with (j + S (n - S j))%nat at 1 by lia.
  rewrite seq_app, map_app. cbn [seq map]. now rewrite Nat.add_succ_r.
Qed.

Lemma ends_from_ext s s' rsizes : forall i count Rs,
  (forall c, (count <= c)%nat -> nth c s zero = nth c s' zero) ->
  ends_from s i count rsizes Rs -> ends_from s' i count rsizes Rs.
Proof.
  induction rsizes as [|n rsizes IH]; intros i count Rs E H; [exact H|].
  destruct H as (R & Rs' & X & Y & es & E1 & E2 & E3 & E4). exists R, Rs', X, Y, es.
  split; [exact E1|]. split; [exact E2|]. split.
  - rewrite <- E3. f_equal. apply ring_at_ext. intros t Ht. unfold mem. rewrite E by lia. reflexivity.
  - apply (IH _ (count + n)%nat); [|exact E4]. intros c Hc. apply E. lia.
Qed.

Lemma rings_ready_ext s s' rsizes : forall i count,
  (forall c, (count <= c)%nat -> nth c s zero = nth c s' zero) ->
  rings_ready s i count rsizes -> rings_ready s' i count rsizes.
Proof.
  induction rsizes as [|n rsizes IH]; intros i count E H; [exact I|].
  destruct H as (H1 & H2 & H3 & H4). split; [exact H1|]. split; [exact H2|]. split.
  - intros t Ht Nt. rewrite <- E by lia. now apply H3.
  - apply (IH _ (count + n)%nat); [|exact H4]. intros c Hc. apply E. lia.
Qed.

Lemma sign_first_spec s rsizes : scalars_ok s -> forall i count tmp sha acc sha',
  (count + total rsizes <= size)%nat -> (i + length rsizes <= nr)%nat -> rings_ready s i count rsizes ->
  repr sha acc -> sign_first ctx gen_ctx s pubs k secidx m rsizes i count tmp sha = Some sha' ->
  exists Rs, repr sha' (acc ++ Rs) /\ (length Rs <= 33 * length rsizes)%nat /\
    ends_from s i count rsizes Rs.
Proof.
  intros Hs. induction rsizes as [|n rsizes IH]; intros i count tmp sha acc sha' Hn Hi Hr Ha E;
    cbn [sign_first] in E.
  { injection E as <-. exists []. rewrite app_nil_r. split; [exact Ha|]. split; [cbn; lia|reflexivity]. }
  destruct Hr as (Hj & _ & Nz & Hr). set (j := nth i secidx O) in *.
  cbn [total fold_right] in Hn. fold (total rsizes) in Hn.
  cbn [length] in Hi. pose proof (ecmult_gen_spec gen_ctx _ HG (Hk i ltac:(lia))) as G0.
  destruct (set_gej_rep _ _ G0) as [G1 G2]. destruct (secp256k1_ge_set_gej _) as [rge rgej]. cbn [fst snd] in *.
  rewrite (is_infinity_spec _ _ G2) in E. destruct (smul (sval (nth i k zero)) G_point) as [|X Y] eqn:EK; [discriminate E|].
  cbn [is_inf] in E. pose proof (key_serialize_spec rge true X Y G1) as KS.
  destruct (secp256k1_eckey_pubkey_serialize rge true) as [g o]. destruct KS as [-> _]. cbn [snd written] in E.
  rewrite (Nat.add_1_r j) in E.
  destruct (forge_up _ _ _ _ _ _ _ _ _) as [R|] eqn:EF; [|discriminate E].
  destruct (forge_up_spec s i (n - S j) Hs (S j) count (compressed X Y) R ltac:(lia)) with (4 := EF) as (BR & LR & es & EA).
  { intros t Ht. replace (count + S j + t)%nat with (count + (S j + t))%nat by lia. apply Nz; lia. }
  { apply compressed_byte. }
  { apply length_compressed. }
  destruct (IH (S i) (count + n)%nat R _ (acc ++ R) sha' ltac:(lia) ltac:(lia) Hr (write_repr _ _ R Ha BR) E)
    as (Rs & Hrep & LRs & He).
  exists (R ++ Rs). rewrite <- app_assoc in Hrep. split; [exact Hrep|].
  split; [rewrite length_app; cbn [length]; lia|].
  exists R, Rs, X, Y, es. split; [reflexivity|]. split; [exact EK|]. split; [exact EA|exact He].
Qed.

(** A ring with the signer's number in its place. *)
Lemma ring_closed s s' i count n j h h' es0 R es X Y : (j < n)%nat ->
  (forall t, (t < n)%nat -> t <> j -> mem s (count + t) = mem s' (count + t)) ->
  ring_point (be_val h') (mem s' (count + j)) = Some (compressed X Y) ->
  (forall rest, rest <> [] -> ring_end m i 0 h (ring_at (mem s) (count + 0) j ++ rest) =
    match ring_end m i (0 + j) h' rest with None => None | Some (R, es) => Some (R, es0 ++ es) end) ->
  ring_after i (S j) (compressed X Y) (ring_at (mem s) (count + S j) (n - S j)) = Some (R, es) ->
  exists esr, ring_end m i 0 h (ring_at (mem s') count n) = Some (R, esr).
Proof.
  intros Hj M SP Hring EA.
  rewrite (ring_at_split (mem s') count n j Hj), <- (ring_at_ext (mem s) (mem s') count j) by (intros; apply M; lia).
  rewrite Nat.add_0_r in Hring. rewrite Hring by discriminate. cbn [Nat.add]. rewrite ring_end_cons, SP.
  rewrite <- (ring_at_ext (mem s) (mem s') (count + S j) (n - S j))
    by (intros t Ht; rewrite <- Nat.add_assoc; apply M; lia).
  rewrite EA. now eexists.
Qed.

Lemma sign_second_spec e0 rsizes : is_b32 e0 -> forall s i count s' Rs, scalars_ok s ->
  (size <= length s)%nat -> (count + total rsizes <= size)%nat -> (i + length rsizes <= nr)%nat ->
  rings_ready s i count rsizes -> ends_from s i count rsizes Rs ->
  sign_second ctx e0 s pubs k sec secidx m rsizes i count = (true, s') ->
  scalars_ok s' /\ length s' = length s /\
  (forall c, (c < count)%nat -> nth c s' zero = nth c s zero) /\
  exists es, ring_ends m e0 i (rings_at (mem s') count rsizes) = Some (Rs, es).
Proof.
  intros He. induction rsizes as [|n rsizes IH]; intros s i count s' Rs Hs Ls Hn Hi Hr Hends E;
    cbn [sign_second] in E.
  { injection E as <-. rewrite Hends. split; [exact Hs|]. split; [reflexivity|]. split; [reflexivity|].
    now exists []. }
  destruct Hr as (Hj & HQ & Nz & Hr). destruct Hends as (R & Rs' & X & Y & es & -> & EK & EA & Hends).
  set (j := nth i secidx O) in *. cbn [total fold_right length] in *. fold (total rsizes) in Hn.
  destruct (hash_e0 e0 i 0 He) as [Eh Hh]. rewrite Eh in E.
  destruct (s_set_b32 (ring_hash m e0 i 0)) as [ens o] eqn:Es.
  destruct (o || s_is_zero ens) eqn:Eo; [discriminate E|].
  destruct (forge_down _ _ _ _ _ _ _ _ _ _) as [ens'|] eqn:EF; [|discriminate E].
  pose proof (forge_down_spec s i j Hs 0 count (ring_hash m e0 i 0) (ring_hash m e0 i 0) ens' ltac:(lia)) as FD.
  rewrite Es in FD. destruct FD as (h' & es0 & Hh' & Es' & Nz' & Hring); try assumption.
  { intros t Ht. rewrite Nat.add_0_r. apply Nz; lia. }
  pose proof (b32_read h' Hh') as RD. rewrite Es' in RD. destruct (proj2 RD eq_refl) as [Oe' Ve'].
  pose proof (signer_point ens' (nth i k zero) (nth i sec zero) _ X Y Oe' (Hk i ltac:(lia)) (Hsec i ltac:(lia))
    Nz' HQ (HP (count + j)%nat ltac:(lia)) EK) as SP.
  destruct (s_add _ _) as [r ov]. destruct SP as [Or SP].
  destruct (s_is_zero r) eqn:Er; [discriminate E|]. specialize (SP eq_refl). rewrite Ve' in SP.
  set (s1 := upd s (count + j) r) in *.
  assert (N1 : forall c, nth c s1 zero = if Nat.eqb (count + j) c then r else nth c s zero)
    by (intros c; unfold s1; apply nth_upd; lia).
  assert (Hs1 : scalars_ok s1).
  { intros c Hc. rewrite N1. destruct (Nat.eqb _ _); [exact Or|now apply Hs]. }
  assert (Ext : forall c, (count + n <= c)%nat -> nth c s zero = nth c s1 zero).
  { intros c Hc. rewrite N1. now rewrite (proj2 (Nat.eqb_neq _ _)) by lia. }
  destruct (IH s1 (S i) (count + n)%nat s' Rs' Hs1) as (Hs' & Ls' & Low & es' & ER); try assumption.
  { unfold s1. now rewrite length_upd. }
  { lia. }
  { lia. }
  { exact (rings_ready_ext s s1 rsizes _ _ Ext Hr). }
  { exact (ends_from_ext s s1 rsizes _ _ _ Ext Hends). }
  split; [exact Hs'|]. split; [unfold s1 in Ls'; now rewrite length_upd in Ls'|]. split.
  { intros c Hc. rewrite Low, N1 by lia. now rewrite (proj2 (Nat.eqb_neq _ _)) by lia. }
  assert (M : forall t, (t < n)%nat -> t <> j -> mem s (count + t) = mem s' (count + t)).
  { intros t Ht Nt. unfold mem. rewrite Low, N1 by lia. now rewrite (proj2 (Nat.eqb_neq _ _)) by lia. }
  destruct (ring_closed s s' i count n j (ring_hash m e0 i 0) h' es0 R es X Y Hj M) as [esr E1]; [|exact Hring|exact EA|].
  { unfold mem. rewrite Low, N1, Nat.eqb_refl by lia. exact SP. }
  cbn [rings_at ring_ends]. rewrite E1, ER. now eexists.
Qed.
Lemma borromean_sign_spec e0 s rsizes e0' s' : scalars_ok s -> (size <= length s)%nat ->
  (total rsizes <= size)%nat -> (length rsizes <= nr)%nat -> Z.of_nat (length rsizes) < 2 ^ 31 ->
  rings_ready s 0 0 rsizes ->
  secp256k1_borromean_sign ctx gen_ctx e0 s pubs k sec rsizes secidx (length rsizes) m = (true, (e0', s')) ->
  is_b32 e0' /\ scalars_ok s' /\ length s' = length s /\ borromean_valid m e0' (rings_at (mem s') 0 rsizes).
Proof.
  intros Hs Ls Hn Li Ln Hr E. unfold secp256k1_borromean_sign in E. cbv zeta in E. rewrite firstn_all in E.
  destruct (sign_first _ _ _ _ _ _ _ _ _ _ _ _) as [sha|] eqn:EF; [|discriminate E].
  destruct (sign_first_spec s rsizes Hs 0 0 [] _ [] sha Hn Li Hr (initialize_repr sha0 Hsha) EF)
    as (Rs & Hrep & LRs & Hends). cbn [app] in Hrep.
  destruct (finalize_spec _ _ (write_repr _ _ m Hrep Bm)) as [D _]; [rewrite length_app; lia|].
  destruct (secp256k1_sha256_finalize _) as [hh e1]. cbn [snd] in D.
  destruct (sign_second _ _ _ _ _ _ _ _ _ _ _) as [ok s1] eqn:ES.
  injection E as -> -> ->. subst e0'.
  assert (He : is_b32 (fips_sha256 (Rs ++ m))) by (split; [apply length_fips_sha256|apply fips_sha256_byte]).
  destruct (sign_second_spec _ rsizes He s 0 0 s' Rs Hs Ls Hn Li Hr Hends ES) as (Hs' & Ls' & _ & es & ER).
  split; [exact He|]. split; [exact Hs'|]. split; [exact Ls'|]. exists Rs, es. now split.
Qed.

(** The verification of ring signatures decides the ring equations. *)
Theorem borromean_verify_decides s e0 rsizes evalues : scalars_ok s -> is_b32 e0 ->
  (total rsizes <= size)%nat -> Z.of_nat (length rsizes) < 2 ^ 31 ->
  fst (secp256k1_borromean_verify ctx evalues e0 s pubs rsizes (length rsizes) m) = true <->
  borromean_valid m e0 (rings_at (mem s) 0 rsizes).
Proof. apply borromean_verify_valid. Qed.

(** C17: what is signed verifies. If every ring has a member that is the multiple of
    G by the secret key at its place, no member is the point at infinity and the
    numbers of the other members are not 0, then a signature that is made with any
    nonces is accepted by the verification for the same message and rings. *)
Theorem borromean_sign_verifies e0 s rsizes e0' s' evalues : scalars_ok s -> (size <= length s)%nat ->
  (total rsizes <= size)%nat -> (length rsizes <= nr)%nat -> Z.of_nat (length rsizes) < 2 ^ 31 ->
  rings_ready s 0 0 rsizes ->
  secp256k1_borromean_sign ctx gen_ctx e0 s pubs k sec rsizes secidx (length rsizes) m = (true, (e0', s')) ->
  fst (secp256k1_borromean_verify ctx evalues e0' s' pubs rsizes (length rsizes) m) = true.
Proof.
  intros Hs Ls Hn Li Ln Hr E.
  destruct (borromean_sign_spec e0 s rsizes e0' s' Hs Ls Hn Li Ln Hr E) as (He & Hs' & _ & V).
  now apply borromean_verify_valid.
Qed.
End Arrays.
End Borromean.

(** ** A single key *)

Section Single.
Context {F : FieldImpl} {SI : ScalarImpl} (junk : secp256k1_gej) (sha0 : sha256_t).
Context (Hjunk : gej_mags junk) (Hsha : buf_ok sha0).
#[local] Abbreviation zero := (s_set_int 0).

(** A ring with one member: the signature exists as soon as the challenge and the
    response are not 0. *)
Lemma sign_single ctx gctx e0 s pubs k sec m x y : gen_ctx_ok gctx -> sok (nth 0 k zero) ->
  smul (sval (nth 0 k zero)) G_point = Aff x y -> Forall is_byte m -> Z.of_nat (length m) < 2 ^ 31 ->
  sok (nth 0 sec zero) ->
  let e := fips_sha256 (compressed x y ++ m) in
  let h := be_val (ring_hash m e 0 0) in
  0 < h < n_order -> (sval (nth 0 k zero) - h * sval (nth 0 sec zero)) mod n_order <> 0 ->
  exists s', secp256k1_borromean_sign junk sha0 ctx gctx e0 s pubs k sec [1%nat] [O] 1 m = (true, (e, s')).
Proof.
  intros HG Ok Ek Bm Lm Os e h Hh Hr.
  unfold secp256k1_borromean_sign. cbn [firstn sign_first nth Nat.add Nat.sub forge_up].
  pose proof (ecmult_gen_spec gctx _ HG Ok) as G0. rewrite Ek in G0.
  destruct (set_gej_rep _ _ G0) as [G1 G2]. destruct (secp256k1_ge_set_gej _) as [rge rgej]. cbn [fst snd] in *.
  rewrite (is_infinity_spec _ _ G2). cbn [is_inf].
  assert (B : is_b32 e) by (split; [apply length_fips_sha256|apply fips_sha256_byte]).
  pose proof (key_serialize_spec rge true x y G1) as KS.
  destruct (secp256k1_eckey_pubkey_serialize rge true) as [g o]. destruct KS as [-> _]. cbn [snd written].
  pose proof (write_repr _ _ _ (initialize_repr sha0 Hsha) (compressed_byte x y)) as S1.
  pose proof (write_repr _ _ m S1 Bm) as S2. cbn [app] in S2.
  destruct (finalize_spec _ _ S2) as [D _]; [rewrite length_app, length_compressed; lia|].
  destruct (secp256k1_sha256_finalize _) as [hh e1]. cbn [snd] in D. subst e1. fold e.
  cbn [sign_second forge_down nth Nat.add].
  rewrite (borromean_hash_spec sha0 Hsha m e 0 0 Bm (proj2 B)) by (rewrite (proj1 B); lia).
  assert (Bh : is_b32 (ring_hash m e 0 0)) by (split; [apply length_fips_sha256|apply fips_sha256_byte]).
  pose proof (b32_read _ Bh) as S. destruct (s_set_b32 (ring_hash m e 0 0)) as [ens o]. fold h in S.
  destruct S as [-> S]. rewrite (proj2 (Z.leb_gt _ _)) in S |- * by lia. destruct (S eq_refl) as [Oe Ve].
  rewrite (s_is_zero_ok _ Oe), Ve, (proj2 (Z.eqb_neq h 0)) by lia. cbn [orb].
  destruct (s_mul_ok ens (nth 0 sec zero) Oe Os) as [Om Vm].
  destruct (s_negate_ok _ Om) as [On Vn]. pose proof (s_add_ok _ _ On Ok) as A.
  destruct (s_add _ _) as [r ov]. destruct A as (Or & Vr & _). rewrite (s_is_zero_ok r Or).
  rewrite (proj2 (Z.eqb_neq _ _)); [now eexists|]. rewrite Vr, Vn, Vm, Ve.
  intros E. apply Hr. refine (eq_trans _ E). apply cong_iff. rewrite !cong_mod. apply cong_eq. ring.
Qed.
End Single.

(** ** Witnesses *)

#[local] Existing Instance field_5x52.
#[local] Existing Instance scalar_4x64.

Definition two : list scalar := [s_set_int 2].

Lemma two_ready ctx : gen_ctx_ok ctx ->
  let pubs := [secp256k1_ecmult_gen ctx (s_set_int 2)] in
  let P (_ : nat) := smul 2 G_point in
  (forall c, (c < 1)%nat -> gej_rep (nth c pubs zero_gej) (P c)) /\
  (forall c, (c < 1)%nat -> P c <> Inf) /\
  rings_ready P two [O] [s_set_int 1] 0 0 [1%nat].
Proof.
  intros HG. destruct (small_scalar 2 eq_refl) as [O2 V2]. cbv zeta. split; [|split].
  - intros [|c] Hc; [|lia]. pose proof (ecmult_gen_spec ctx _ HG O2) as R. rewrite V2 in R. exact R.
  - intros c _. apply finite_multiplier. discriminate.
  - split; [exact (le_n 1)|]. cbn [two nth]. rewrite V2. split; [reflexivity|]. split; [intros t Ht Nt; lia|exact I].
Qed.

(** The challenge of the signature of the empty message by one key, with the nonce 1. *)
Definition e0_two : bytes := fips_sha256 (match G_point with Aff x y => compressed x y | Inf => [] end ++ []).

Lemma two_signs : let h := be_val (ring_hash [] e0_two 0 0) in
  0 < h < n_order /\ (1 - h * 2) mod n_order <> 0.
Proof.
  assert (E : let h := be_val (ring_hash [] e0_two 0 0) in
    ((0 <? h) && (h <? n_order) && negb ((1 - h * 2) mod n_order =? 0)) = true) by (vm_compute; reflexivity).
  revert E. cbv zeta. generalize (be_val (ring_hash [] e0_two 0 0)). intros h.
  rewrite !andb_true_iff, negb_true_iff, Z.eqb_neq, !Z.ltb_lt. intros [[H0 H1] H2].
  exact (conj (conj H0 H1) H2).
Qed.

Lemma sign_two ctx gctx : gen_ctx_ok gctx -> exists s',
  secp256k1_borromean_sign zero_gej blank_sha ctx gctx [] [s_set_int 1]
    [secp256k1_ecmult_gen gctx (s_set_int 2)] [s_set_int 1] two [1%nat] [O] 1 [] = (true, (e0_two, s')).
Proof.
  intros HG. destruct (small_scalar 1 eq_refl) as [O1 V1]. destruct (small_scalar 2 eq_refl) as [O2 V2].
  assert (Ex : exists x y, G_point = Aff x y) by (eexists _, _; reflexivity). destruct Ex as (x & y & EG).
  assert (E0 : fips_sha256 (compressed x y ++ []) = e0_two) by (unfold e0_two; rewrite EG; reflexivity).
  pose proof (sign_single zero_gej blank_sha blank_ok ctx gctx [] [s_set_int 1]
    [secp256k1_ecmult_gen gctx (s_set_int 2)] [s_set_int 1] two [] x y HG) as S.
  cbn [nth two] in S. rewrite V1, V2, smul_1, E0 in S.
  exact (S O1 EG (Forall_nil _) eq_refl O2 (proj1 two_signs) (proj2 two_signs)).
Qed.

(** One ring with one member. *)
Lemma borromean_verify_decides_witness : exists ctx,
  let pubs := [secp256k1_gej_set_ge secp256k1_ge_const_g] in
  fst (secp256k1_borromean_verify zero_gej blank_sha ctx None (be_bytes 32 5) [s_set_int 1] pubs [1%nat] 1 [])
    = true <-> borromean_valid [] (be_bytes 32 5) (rings_at (mem (fun _ => G_point) [s_set_int 1]) 0 [1%nat]).
Proof.
  destruct full_context as (ctx & _ & _ & C). exists (ecmult_ctx ctx).
  apply (borromean_verify_decides zero_gej blank_sha zero_gej_mags blank_ok (ecmult_ctx ctx) C
    [secp256k1_gej_set_ge secp256k1_ge_const_g] (fun _ => G_point) 1) with (m := []).
  - intros [|c] Hc; [|lia]. exact (set_ge_rep _ _ const_g_rep).
  - constructor.
  - reflexivity.
  - intros [|c] Hc; [|lia]. apply small_scalar. reflexivity.
  - exact (conj (length_be_bytes 32 5) (be_bytes_byte 32 5)).
  - exact (le_n 1).
  - reflexivity.
Defined.

Lemma borromean_sign_verifies_witness : exists ctx s',
  let pubs := [secp256k1_ecmult_gen (ecmult_gen_ctx ctx) (s_set_int 2)] in
  secp256k1_borromean_sign zero_gej blank_sha (ecmult_ctx ctx) (ecmult_gen_ctx ctx) [] [s_set_int 1] pubs
    [s_set_int 1] two [1%nat] [O] 1 [] = (true, (e0_two, s')) /\
  fst (secp256k1_borromean_verify zero_gej blank_sha (ecmult_ctx ctx) None e0_two s' pubs [1%nat] 1 []) = true.
Proof.
  destruct full_context as (ctx & _ & HG & C). destruct (sign_two (ecmult_ctx ctx) _ HG) as [s' E].
  exists ctx, s'. split; [exact E|]. destruct (two_ready _ HG) as (H1 & H2 & H3).
  assert (O1 : scalars_ok 1 [s_set_int 1]) by (intros [|c] Hc; [apply small_scalar; reflexivity|lia]).
  apply (borromean_sign_verifies zero_gej blank_sha zero_gej_mags blank_ok (ecmult_ctx ctx) C _ _ 1 H1 []
    (Forall_nil _) eq_refl (ecmult_gen_ctx ctx) HG [s_set_int 1] two [O] 1) with (e0 := []) (s := [s_set_int 1]).
  - exact O1.
  - intros [|i] Hi; [apply small_scalar; reflexivity|lia].
  - exact H2.
  - exact O1.
  - exact (le_n 1).
  - exact (le_n 1).
  - exact (le_n 1).
  - reflexivity.
  - exact H3.
  - exact E.
Defined.
