(* ===== verification/Rangeproof.v ===== *)
(** * modules/rangeproof/rangeproof_impl.h: range proofs

    A proof is a header (RangeParams.v), the sign bits and the abscissas of the
    commitments to all digits but the last, the shared challenge and the numbers
    of the rings (Borromean.v).  Local arrays of the code start with the content
    [junk] or [junk_scalar]; [None] is a retry loop that has run out of fuel. *)
From Stdlib Require Import String.
From S2P Require Import Field5x52 Scalar4x64.
From S2P Require Import Prelude Primes FieldSpec Field ScalarSpec Scalar Sha256Spec Hash.
From S2P Require Import CurveSpec CurveGroup CurveOrder CurveCount Residue Svdw Group.
From S2P Require Import Ecmult EcmultGen EcmultConst EcmultProperties Ecdsa Eckey Der Api.
From S2P Require Import EcdsaProperties ApiProperties Generator Pedersen RangeParams Borromean.

Section Rangeproof.
Context {F : FieldImpl} {SI : ScalarImpl} (junk : secp256k1_gej) (junk_ints : list Z).
Context (junk_scalar : scalar) (sha0 : sha256_t) (hmac0 : hmac_sha256_t).

#[local] Abbreviation zero := (s_set_int 0).

(** ** The ring members *)

(** One turn of [while (exp--)]: 2 P, 4 P, 8 P, then 8 P + 2 P. *)
Definition times_ten (base : secp256k1_gej) : secp256k1_gej :=
  let tmp := fst (secp256k1_gej_double_var junk base) in
  let base := fst (secp256k1_gej_double_var base tmp) in
  let base := fst (secp256k1_gej_double_var base base) in
  fst (secp256k1_gej_add_var base base tmp).

(** [for (j = 1; j < rsizes[i]; j++)], [n] turns being left. *)
Fixpoint expand_ring (pubs : list secp256k1_gej) (base : secp256k1_gej) (npub j n : nat)
    : list secp256k1_gej :=
  match n with
  | O => pubs
  | S n =>
    let next := fst (secp256k1_gej_add_var (nth (npub + j) pubs junk)
                       (nth (npub + j - 1) pubs junk) base) in
    expand_ring (upd pubs (npub + j) next) base npub (S j) n
  end.

Fixpoint expand_rings (pubs : list secp256k1_gej) (base : secp256k1_gej) (rsizes : list nat) (npub : nat)
    : list secp256k1_gej :=
  match rsizes with
  | [] => pubs
  | rsize :: rsizes =>
    let pubs := expand_ring pubs base npub 1 (rsize - 1) in
    let base :=
      match rsizes with
      | [] => base
      | _ :: _ =>
        let base := fst (secp256k1_gej_double_var base base) in
        fst (secp256k1_gej_double_var base base)
      end in
    expand_rings pubs base rsizes (npub + rsize)
  end.

Definition secp256k1_rangeproof_pub_expand (pubs : list secp256k1_gej) (exp : Z) (rsizes : list nat)
    (rings : nat) (genp : secp256k1_ge) : list secp256k1_gej :=
  let exp := if exp <? 0 then 0 else exp in
  let base := secp256k1_gej_set_ge genp in
  let base := secp256k1_gej_neg base in
  let base := Nat.iter (Z.to_nat exp) times_ten base in
  expand_rings pubs base (firstn rings rsizes) 0.

Definition secp256k1_rangeproof_serialize_point (point : secp256k1_ge) : bytes :=
  let pointx := fe_normalize (gx point) in
  b2z (negb (secp256k1_fe_is_quad_var (gy point))) :: fe_get_b32 pointx.

(** ** The prover's random numbers *)

(** [a[b] ^= y[b]] for all [b]. *)
Definition xor_bytes (a b : bytes) : bytes := map (fun '(x, y) => x .^ y) (combine a b).

(** The members of ring [i], [n] being left from [j] on. *)
Fixpoint genrand_ring (rng : rfc6979_t) (s : list scalar) (message : option bytes) (ret : bool)
    (i j n npub : nat) : rfc6979_t * list scalar * option bytes * bool * nat :=
  match n with
  | O => (rng, s, message, ret, npub)
  | S n =>
    let '(rng, tmp) := secp256k1_rfc6979_hmac_sha256_generate hmac0 sha0 rng 32 in
    let '(tmp, message) :=
      match message with
      | None => (tmp, None)
      | Some m =>
        let off := ((i * 4 + j) * 32)%nat in
        let tmp := xor_bytes tmp (slice m off 32) in
        (tmp, Some (overwrite m off tmp))
      end in
    let '(x, overflow) := s_set_b32 tmp in
    let s := upd s npub x in
    let ret := ret && negb (overflow || s_is_zero x) in
    genrand_ring rng s message ret i (S j) n (npub + 1)
  end.

Fixpoint genrand_rings (fuel : nat) (rng : rfc6979_t) (sec s : list scalar) (message : option bytes)
    (ret : bool) (acc : scalar) (rsizes : list nat) (i npub : nat)
    : option (bool * list scalar * list scalar * option bytes) :=
  match rsizes with
  | [] => Some (ret, sec, s, message)
  | rsize :: rsizes =>
    match
      match rsizes with
      | _ :: _ =>
        let '(rng, _) := secp256k1_rfc6979_hmac_sha256_generate hmac0 sha0 rng 32 in
        match draw_scalar hmac0 sha0 fuel rng with
        | None => None
        | Some (x, rng) => Some (rng, upd sec i x, fst (s_add acc x))
        end
      | [] => let acc := s_negate acc in Some (rng, upd sec i acc, acc)
      end
    with
    | None => None
    | Some (rng, sec, acc) =>
      let '(rng, s, message, ret, npub) := genrand_ring rng s message ret i 0 rsize npub in
      genrand_rings fuel rng sec s message ret acc rsizes (S i) npub
    end
  end.

(** [*sec], [*s] and [*message] are read and written; [proof] is the header of
    [len] bytes. *)
Definition secp256k1_rangeproof_genrand (fuel : nat) (sec s : list scalar) (message : option bytes)
    (rsizes : list nat) (rings : nat) (nonce : bytes) (commit : secp256k1_ge) (proof : bytes) (len : nat)
    (genp : secp256k1_ge) : option (bool * list scalar * list scalar * option bytes) :=
  let rngseed := slice nonce 0 32 ++ secp256k1_rangeproof_serialize_point commit
    ++ secp256k1_rangeproof_serialize_point genp ++ slice proof 0 len in
  let rng := secp256k1_rfc6979_hmac_sha256_initialize hmac0 sha0 rngseed in
  let acc := s_clear junk_scalar in
  genrand_rings fuel rng sec s message true acc (firstn rings rsizes) 0 0.

(** ** Proving *)

(** The value and the mark, in the 32 bytes at [idx]. *)
Definition encode_value (prep : bytes) (idx : nat) (v : Z) : bytes :=
  let prep := for_loop 8 (fun i prep =>
    let b := (v >> (56 - i * 8)) .& 255 in
    let i := Z.to_nat i in
    let prep := upd prep (24 + i + idx) b in
    let prep := upd prep (16 + i + idx) b in
    let prep := upd prep (8 + i + idx) b in
    upd prep (i + idx) 0) prep in
  upd prep idx 128.

(** [for (i = 0; i < rings; i++)]: the nonces out of [s]. *)
Fixpoint take_nonces (k s : list scalar) (secidx : list nat) (i n : nat) : list scalar * list scalar :=
  match n with
  | O => (k, s)
  | S n =>
    let c := (i * 4 + nth i secidx O)%nat in
    take_nonces (upd k i (nth c s zero)) (upd s c (s_clear (nth c s zero))) secidx (S i) n
  end.

(** The commitments to the digits, the signs at [signs] and the abscissas from
    [len] on; a point at infinity leaves the loop. *)
Fixpoint commit_digits (gen_ctx : secp256k1_ecmult_gen_context) (proof : bytes) (signs len : nat)
    (sha256_m : sha256_t) (pubs : list secp256k1_gej) (sec : list scalar) (secidx : list nat) (scale : Z)
    (genp : secp256k1_ge) (rsizes : list nat) (i npub : nat)
    : bool * (bytes * nat * sha256_t * list secp256k1_gej * nat) :=
  match rsizes with
  | [] => (true, (proof, len, sha256_m, pubs, npub))
  | rsize :: rsizes =>
    let v := u64 (u64 (Z.of_nat (nth i secidx O) * scale) << (Z.of_nat i * 2)) in
    let pub := secp256k1_pedersen_ecmult junk junk_ints gen_ctx (nth i sec zero) v genp in
    let pubs := upd pubs npub pub in
    if secp256k1_gej_is_infinity pub then (false, (proof, len, sha256_m, pubs, npub)) else
    match rsizes with
    | [] => commit_digits gen_ctx proof signs len sha256_m pubs sec secidx scale genp rsizes (S i) (npub + rsize)
    | _ :: _ =>
      let '(c, pub) := secp256k1_ge_set_gej_var (junk_ge junk) pub in
      let pubs := upd pubs npub pub in
      let tmpc := secp256k1_rangeproof_serialize_point c in
      let quadness := at_ tmpc 0 in
      let sha256_m := secp256k1_sha256_write sha256_m tmpc in
      let place := (signs + i / 8)%nat in
      let proof := upd proof place (u8 (nth place proof 0 .| (quadness << Z.of_nat (i mod 8)))) in
      let proof := overwrite proof len (slice tmpc 1 32) in
      commit_digits gen_ctx proof signs (len + 32) sha256_m pubs sec secidx scale genp rsizes (S i) (npub + rsize)
    end
  end.

(** [for (i = 0; i < npub; i++)] at the end. *)
Fixpoint write_scalars (proof : bytes) (len : nat) (s : list scalar) (i n : nat) : bytes * nat :=
  match n with
  | O => (proof, len)
  | S n => write_scalars (overwrite proof len (s_get_b32 (nth i s zero))) (len + 32) s (S i) n
  end.

(** From the random numbers on: the header is the first [len] bytes of [proof]. *)
Definition sign_rings (ctx : secp256k1_ecmult_context) (gen_ctx : secp256k1_ecmult_gen_context)
    (proof : bytes) (plen : Z) (len : nat) (q : params) (sha256_m : sha256_t) (sec s : list scalar)
    (blind : bytes) (extra_commit : option bytes) (genp : secp256k1_ge) : bool * (bytes * Z) :=
  let rings := prings q in
  let rsizes := prsizes q in
  let '(k, s) := take_nonces (repeat junk_scalar 32) s (psecidx q) 0 rings in
  let '(stmp, overflow) := s_set_b32 blind in
  let '(x, _) := s_add (nth (rings - 1) sec zero) stmp in
  let sec := upd sec (rings - 1) x in
  if overflow || s_is_zero x then (false, (proof, plen)) else
  let signs := len in
  let nsigns := ((rings + 6) / 8)%nat in
  let proof := overwrite proof signs (repeat 0 nsigns) in
  let '(ok, (proof, len, sha256_m, pubs, npub)) :=
    commit_digits gen_ctx proof signs (len + nsigns) sha256_m (repeat junk 128) sec (psecidx q) (pscale q)
      genp (firstn rings rsizes) 0 0 in
  if negb ok then (false, (proof, plen)) else
  let pubs := secp256k1_rangeproof_pub_expand pubs (pexp q) rsizes rings genp in
  let sha256_m :=
    match extra_commit with Some e => secp256k1_sha256_write sha256_m e | None => sha256_m end in
  let '(_, tmp) := secp256k1_sha256_finalize sha256_m in
  let '(ok, (e0, s)) :=
    secp256k1_borromean_sign junk sha0 ctx gen_ctx (slice proof len 32) s pubs k sec rsizes (psecidx q) rings tmp in
  let proof := overwrite proof len e0 in
  if negb ok then (false, (proof, plen)) else
  let '(proof, len) := write_scalars proof (len + 32) s 0 npub in
  (true, (proof, Z.of_nat len)).

(** The message and the value, in the bytes that mask the forged numbers. *)
Definition prepare (q : params) (message : option bytes) (msg_len : nat) : bytes :=
  let rings := prings q in
  let last := nth (rings - 1) (prsizes q) O in
  let prep := repeat 0 4096 in
  let prep := match message with Some m => overwrite prep 0 (slice m 0 msg_len) | None => prep end in
  if Nat.ltb 1 last then
    let idx := (last - 1)%nat in
    let idx := if Nat.eqb (nth (rings - 1) (psecidx q) O) idx then (idx - 1)%nat else idx in
    encode_value prep (((rings - 1) * 4 + idx) * 32) (pv q)
  else prep.

(** From the header on, which is the first [len] bytes of [proof]. *)
Definition sign_body (fuel : nat) (ctx : secp256k1_ecmult_context) (gen_ctx : secp256k1_ecmult_gen_context)
    (proof : bytes) (plen : Z) (len : nat) (q : params) (commit : secp256k1_ge) (blind nonce : bytes)
    (message : option bytes) (msg_len : nat) (extra_commit : option bytes) (genp : secp256k1_ge)
    : option (bool * (bytes * Z)) :=
  let rings := prings q in
  if Nat.ltb 0 msg_len && Nat.ltb (128 * (rings - 1)) msg_len then Some (false, (proof, plen)) else
  if u64 (plen - Z.of_nat len) <?
     Z.of_nat (32 * (pnpub q + rings - 1) + 32 + (rings + 6) / 8) then Some (false, (proof, plen)) else
  let sha256_m := secp256k1_sha256_initialize sha0 in
  let sha256_m := secp256k1_sha256_write sha256_m (secp256k1_rangeproof_serialize_point commit) in
  let sha256_m := secp256k1_sha256_write sha256_m (secp256k1_rangeproof_serialize_point genp) in
  let sha256_m := secp256k1_sha256_write sha256_m (slice proof 0 len) in
  let prep := prepare q message msg_len in
  match secp256k1_rangeproof_genrand fuel (repeat junk_scalar 32) (repeat junk_scalar 128) (Some prep)
          (prsizes q) rings nonce commit proof len genp with
  | None => None
  | Some (ok, sec, s, _) =>
    if negb ok then Some (false, (proof, plen)) else
    Some (sign_rings ctx gen_ctx proof plen len q sha256_m sec s blind extra_commit genp)
  end.

(** [proof] is the buffer of [plen] bytes; the result has its content and the
    length at the pointer. *)
Definition secp256k1_rangeproof_sign_impl (fuel : nat) (ctx : secp256k1_ecmult_context)
    (gen_ctx : secp256k1_ecmult_gen_context) (proof : bytes) (plen : Z) (min_value : Z)
    (commit : secp256k1_ge) (blind nonce : bytes) (exp min_bits value : Z) (message : option bytes)
    (msg_len : nat) (extra_commit : option bytes) (genp : secp256k1_ge) : option (bool * (bytes * Z)) :=
  if (plen <? 65) || (value <? min_value) || (64 <? min_bits) || (min_bits <? 0) || (exp <? -1) || (18 <? exp)
  then Some (false, (proof, plen)) else
  match secp256k1_range_proveparams min_value exp min_bits value with
  | None => Some (false, (proof, plen))
  | Some q =>
    let nz := Nat.ltb 1 (nth 0 (prsizes q) O) in
    let has_min := negb (pmin_value q =? 0) in
    let len := O in
    let proof := upd proof len ((if nz then 64 .| pexp q else 0) .| (if has_min then 32 else 0)) in
    let len := (len + 1)%nat in
    let proof := if nz then upd proof len (pmantissa q - 1) else proof in
    let len := if nz then (len + 1)%nat else len in
    let proof := if has_min then overwrite proof len (min_octets (pmin_value q)) else proof in
    let len := if has_min then (len + 8)%nat else len in
    sign_body fuel ctx gen_ctx proof plen len q commit blind nonce message msg_len extra_commit genp
  end.

(** ** Verifying and rewinding *)

Definition secp256k1_rangeproof_recover_x (k e s : scalar) : scalar :=
  let x := s_negate s in
  let '(x, _) := s_add x k in
  let stmp := secp256k1_scalar_inverse e in
  s_mul x stmp.

Definition secp256k1_rangeproof_recover_k (x e s : scalar) : scalar :=
  let stmp := s_mul x e in
  fst (s_add s stmp).

(** The first 32 bytes of [y]. *)
Definition secp256k1_rangeproof_ch32xor (x y : bytes) : bytes := xor_bytes x (firstn 32 y).

(** [for (j = 0; j < 2; j++)]: [j], [value] and [tmp] where the loop is left;
    [top] is the place of the last member. *)
Fixpoint find_value (s : list scalar) (prep : bytes) (top j n : nat) : option (nat * Z * bytes) :=
  match n with
  | O => None
  | S n =>
    let idx := (top - j)%nat in
    let tmp := s_get_b32 (nth idx s zero) in
    let tmp := secp256k1_rangeproof_ch32xor tmp (skipn (idx * 32) prep) in
    if negb ((at_ tmp 0 .& 128) =? 0) && bytes_eqb (slice tmp 16 8) (slice tmp 24 8)
       && bytes_eqb (slice tmp 8 8) (slice tmp 16 8) then
      let value := for_loop 8 (fun i value => u64 (u64 (value << 8) + at_ tmp (24 + i))) 0 in
      Some (j, value, tmp)
    else find_value s prep top (S j) n
  end.

(** [for (b = 0; b < 32 && offset < mlen; b++)] over the bytes of [tmp]. *)
Fixpoint copy_message (m : bytes) (offset mlen : nat) (tmp : bytes) : bytes * nat :=
  match tmp with
  | [] => (m, offset)
  | b :: tmp =>
    if Nat.ltb offset mlen then copy_message (upd m offset b) (S offset) mlen tmp else (m, offset)
  end.

(** The members of ring [i] whose nonce is at [idx], [n] being left from [j] on. *)
Fixpoint message_ring (ev s : list scalar) (prep : bytes) (seci : scalar) (mlen skip1 skip2 idx j n npub : nat)
    (m : bytes) (offset : nat) : bytes * nat * nat :=
  match n with
  | O => (m, offset, npub)
  | S n =>
    if Nat.eqb npub skip1 || Nat.eqb npub skip2 then
      message_ring ev s prep seci mlen skip1 skip2 idx (S j) n (npub + 1) m offset
    else
      let stmp :=
        if Nat.eqb idx j then secp256k1_rangeproof_recover_k seci (nth npub ev junk_scalar) (nth npub s zero)
        else nth npub s zero in
      let tmp := s_get_b32 stmp in
      let tmp := secp256k1_rangeproof_ch32xor tmp (skipn (npub * 32) prep) in
      let '(m, offset) := copy_message m offset mlen tmp in
      message_ring ev s prep seci mlen skip1 skip2 idx (S j) n (npub + 1) m offset
  end.

Fixpoint message_rings (ev s : list scalar) (prep : bytes) (sec : list scalar) (value : Z)
    (mlen skip1 skip2 : nat) (rsizes : list nat) (i npub : nat) (m : bytes) (offset : nat) : bytes * nat :=
  match rsizes with
  | [] => (m, offset)
  | rsize :: rsizes =>
    let idx := Z.to_nat ((value >> (Z.of_nat i * 2)) .& 3) in
    let '(m, offset, npub) :=
      message_ring ev s prep (nth i sec zero) mlen skip1 skip2 idx 0 rsize npub m offset in
    message_rings ev s prep sec value mlen skip1 skip2 rsizes (S i) npub m offset
  end.

(** [m] and [mlen] may be NULL; the result is followed by [*blind], [*v], [*m] and
    [*mlen]. *)
Definition secp256k1_rangeproof_rewind_inner (fuel : nat) (m : option bytes) (mlen : option nat)
    (ev s : list scalar) (rsizes : list nat) (rings : nat) (nonce : bytes) (commit : secp256k1_ge)
    (proof : bytes) (len : nat) (genp : secp256k1_ge)
    : option (bool * (scalar * Z * option bytes * option nat)) :=
  let last := nth (rings - 1) rsizes O in
  let no_message := match mlen with Some _ => Some O | None => None end in
  match secp256k1_rangeproof_genrand fuel (repeat junk_scalar 32) (repeat junk_scalar 128)
          (Some (repeat 0 4096)) rsizes rings nonce commit proof len genp with
  | None => None
  | Some (_, sec, s_orig, prep) =>
    let prep := match prep with Some p => p | None => [] end in
    let blind := s_clear junk_scalar in
    if Nat.eqb rings 1 && Nat.eqb (nth 0 rsizes O) 1 then
      let blind := secp256k1_rangeproof_recover_x (nth 0 s_orig zero) (nth 0 ev junk_scalar) (nth 0 s zero) in
      Some (true, (blind, 0, m, no_message))
    else
    let npub := ((rings - 1) * 4)%nat in
    match find_value s prep (npub + last - 1) 0 2 with
    | None => Some (false, (blind, UINT64_MAX, m, no_message))
    | Some (j, value, tmp) =>
      let prep := overwrite prep ((npub + last - 1 - j) * 32) tmp in
      let skip1 := (last - 1 - j)%nat in
      let skip2 := Z.to_nat ((value >> (Z.of_nat (rings - 1) * 2)) .& 3) in
      if Nat.eqb skip1 skip2 then Some (false, (blind, value, m, no_message)) else
      let skip1 := (skip1 + (rings - 1) * 4)%nat in
      let skip2 := (skip2 + (rings - 1) * 4)%nat in
      let stmp := secp256k1_rangeproof_recover_x (nth skip2 s_orig junk_scalar) (nth skip2 ev junk_scalar)
                    (nth skip2 s junk_scalar) in
      let sec := upd sec (rings - 1) (s_negate (nth (rings - 1) sec zero)) in
      let '(blind, _) := s_add stmp (nth (rings - 1) sec zero) in
      match m, mlen with
      | Some out, Some (S _ as n) =>
        let '(out, offset) := message_rings ev s prep sec value n skip1 skip2 (firstn rings rsizes) 0 0 out 0 in
        Some (true, (blind, value, Some out, Some offset))
      | _, _ => Some (true, (blind, value, m, no_message))
      end
    end
  end.

(** What a verification leaves at its pointers; [blindout], [value_out],
    [message_out] and [outlen] may be NULL. *)
Record verify_out := VerifyOut {
  v_min : Z; v_max : Z;
  v_blind : option bytes; v_value : option Z; v_message : option bytes; v_outlen : option nat
}.

(** The rings of a mantissa: their sizes and the number of members. *)
Definition rings_of (mantissa : Z) : list nat * nat :=
  if negb (mantissa =? 0) then
    let rings := Z.to_nat (mantissa >> 1) in
    let rsizes := repeat 4%nat rings in
    let npub := (rings * 4)%nat in
    if negb ((mantissa .& 1) =? 0) then (rsizes ++ [2%nat], (npub + 2)%nat) else (rsizes, npub)
  else ([1%nat], 1%nat).

(** [for (i = 0; i < rings - 1; i++)]: the commitments to all digits but the last. *)
Fixpoint load_digits (proof : bytes) (signs : list bool) (sha256_m : sha256_t) (pubs : list secp256k1_gej)
    (accj : secp256k1_gej) (offset npub : nat) (rsizes : list nat)
    : sha256_t * list secp256k1_gej * secp256k1_gej * nat * nat :=
  match signs, rsizes with
  | sign :: signs, rsize :: rsizes =>
    let '(fe, _) := fe_set_b32 (slice proof offset 32) in
    let '(c, _) := secp256k1_ge_set_xquad fe in
    let c := if sign then secp256k1_ge_neg c else c in
    let sha256_m := secp256k1_sha256_write sha256_m [b2z sign] in
    let sha256_m := secp256k1_sha256_write sha256_m (slice proof offset 32) in
    let pubs := upd pubs npub (secp256k1_gej_set_ge c) in
    let accj := fst (secp256k1_gej_add_ge_var accj accj c) in
    load_digits proof signs sha256_m pubs accj (offset + 32) (npub + rsize) rsizes
  | _, _ => (sha256_m, pubs, accj, offset, npub)
  end.

(** [for (i = 0; i < npub; i++)]: [n] scalars are left. *)
Fixpoint read_scalars (proof : bytes) (s : list scalar) (offset i n : nat) : option (list scalar * nat) :=
  match n with
  | O => Some (s, offset)
  | S n =>
    let '(x, overflow) := s_set_b32 (slice proof offset 32) in
    let s := upd s i x in
    if overflow then None else read_scalars proof s (offset + 32) (S i) n
  end.

(** From the header [h] on: the check of the rings, with the challenges and the
    numbers the rewinding needs; [None] is an early return. *)
Definition verify_rest (ctx : secp256k1_ecmult_context) (evalues : option (list scalar)) (h : header)
    (commit : secp256k1_ge) (proof : bytes) (extra_commit : option bytes) (genp : secp256k1_ge)
    : option (bool * option (list scalar) * list scalar) :=
  let plen := length proof in
  let offset := Z.to_nat (h_offset h) in
  let '(rsizes, npub) := rings_of (h_mantissa h) in
  let rings := length rsizes in
  if u64 (Z.of_nat plen - Z.of_nat offset) <? Z.of_nat (32 * (npub + rings - 1) + 32 + (rings + 6) / 8)
  then None else
  let sha256_m := secp256k1_sha256_initialize sha0 in
  let sha256_m := secp256k1_sha256_write sha256_m (secp256k1_rangeproof_serialize_point commit) in
  let sha256_m := secp256k1_sha256_write sha256_m (secp256k1_rangeproof_serialize_point genp) in
  let sha256_m := secp256k1_sha256_write sha256_m (slice proof 0 offset) in
  let signs := map (fun i =>
    negb ((nth (offset + i / 8) proof 0 .& (1 << Z.of_nat (i mod 8))) =? 0)) (seq 0 (rings - 1)) in
  let offset := (offset + (rings + 6) / 8)%nat in
  if negb (Nat.eqb ((rings - 1) mod 8) 0)
     && negb ((nth (offset - 1) proof 0 >> Z.of_nat ((rings - 1) mod 8)) =? 0) then None else
  let accj := secp256k1_gej_set_infinity junk in
  let accj :=
    if negb (h_min h =? 0) then secp256k1_pedersen_ecmult_small junk junk_ints (h_min h) genp else accj in
  let '(sha256_m, pubs, accj, offset, npub) :=
    load_digits proof signs sha256_m (repeat junk 128) accj offset 0 rsizes in
  let accj := secp256k1_gej_neg accj in
  let last := fst (secp256k1_gej_add_ge_var (nth npub pubs junk) accj commit) in
  let pubs := upd pubs npub last in
  if secp256k1_gej_is_infinity last then None else
  let pubs := secp256k1_rangeproof_pub_expand pubs (h_exp h) rsizes rings genp in
  let npub := (npub + nth (rings - 1) rsizes O)%nat in
  let e0 := slice proof offset 32 in
  match read_scalars proof (repeat junk_scalar 128) (offset + 32) 0 npub with
  | None => None
  | Some (s, offset) =>
    if negb (Nat.eqb offset plen) then None else
    let sha256_m :=
      match extra_commit with Some e => secp256k1_sha256_write sha256_m e | None => sha256_m end in
    let '(_, m) := secp256k1_sha256_finalize sha256_m in
    let '(ret, evalues) := secp256k1_borromean_verify junk sha0 ctx evalues e0 s pubs rsizes rings m in
    Some (ret, evalues, s)
  end.

(** [h] has what [min_value] and [max_value] point to, and the uninitialised
    [exp], [mantissa] and [scale]; [gen_ctx] and [nonce] may be NULL. *)
Definition secp256k1_rangeproof_verify_impl (fuel : nat) (ctx : secp256k1_ecmult_context)
    (gen_ctx : option secp256k1_ecmult_gen_context) (blindout : option bytes) (value_out : option Z)
    (message_out : option bytes) (outlen : option nat) (nonce : option bytes) (h : header)
    (commit : secp256k1_ge) (proof : bytes) (extra_commit : option bytes) (genp : secp256k1_ge)
    : option (bool * verify_out) :=
  let h := Header 0 (h_exp h) (h_mantissa h) (h_scale h) (h_min h) (h_max h) in
  let '(ok, h) := secp256k1_rangeproof_getheader_impl h proof in
  let done ret := Some (ret, VerifyOut (h_min h) (h_max h) blindout value_out message_out outlen) in
  if negb ok then done false else
  let evalues := match nonce with Some _ => Some (repeat junk_scalar 128) | None => None end in
  match verify_rest ctx evalues h commit proof extra_commit genp with
  | None => done false
  | Some (ret, evalues, s) =>
    match ret, nonce with
    | true, Some nonce =>
      match gen_ctx with
      | None => done false
      | Some gen_ctx =>
        let '(rsizes, _) := rings_of (h_mantissa h) in
        match secp256k1_rangeproof_rewind_inner fuel message_out outlen (match evalues with Some l => l | None => [] end)
                s rsizes (length rsizes) nonce commit proof (Z.to_nat (h_offset h)) genp with
        | None => None
        | Some (ok, (blind, vv, message_out, outlen)) =>
          let out blindout value_out :=
            VerifyOut (h_min h) (h_max h) blindout value_out message_out outlen in
          if negb ok then Some (false, out blindout value_out) else
          let vv := u64 (u64 (vv * h_scale h) + h_min h) in
          let accj := secp256k1_pedersen_ecmult junk junk_ints gen_ctx blind vv genp in
          if secp256k1_gej_is_infinity accj then Some (false, out blindout value_out) else
          let accj := secp256k1_gej_neg accj in
          let accj := fst (secp256k1_gej_add_ge_var accj accj commit) in
          if negb (secp256k1_gej_is_infinity accj) then Some (false, out blindout value_out) else
          let blindout := match blindout with Some _ => Some (s_get_b32 blind) | None => None end in
          let value_out := match value_out with Some _ => Some vv | None => None end in
          Some (ret, out blindout value_out)
        end
      end
    | _, _ => done ret
    end
  end.

(** ** main_impl.h *)

(** The first [len] bytes at a pointer that may be NULL. *)
Definition prefix_of (ptr : option bytes) (len : nat) : option bytes :=
  match ptr with Some l => Some (firstn len l) | None => None end.

(** [exp], [mantissa], [min_value] and [max_value] are in the header [h], which
    has the local [offset] and [scale] as well; [present] says which of the
    four pointers are not NULL. *)
Definition secp256k1_rangeproof_info (ctx : secp256k1_context) (present : bool * bool * bool * bool)
    (h : header) (proof : option bytes) (plen : nat) : api header :=
  let '(has_exp, has_mantissa, has_min, has_max) := present in
  ARG_CHECK ctx has_exp "exp != NULL" h (
  ARG_CHECK ctx has_mantissa "mantissa != NULL" h (
  ARG_CHECK ctx has_min "min_value != NULL" h (
  ARG_CHECK ctx has_max "max_value != NULL" h (
  match proof with
  | None => arg_fail ctx "proof != NULL" h
  | Some proof =>
    let h := Header 0 (h_exp h) (h_mantissa h) 1 (h_min h) (h_max h) in
    let '(ret, h) := secp256k1_rangeproof_getheader_impl h (firstn plen proof) in
    Api ret h []
  end)))).

(** [min_value] and [max_value] are [None] when NULL; [h] has the uninitialised
    locals of the verification. *)
Definition secp256k1_rangeproof_rewind (fuel : nat) (ctx : secp256k1_context)
    (blind_out : option bytes) (value_out : option Z) (message_out : option bytes) (outlen : option nat)
    (nonce : option bytes) (min_value max_value : option Z) (h : header)
    (commit : option secp256k1_pedersen_commitment) (proof : option bytes) (plen : nat)
    (extra_commit : option bytes) (extra_commit_len : nat) (gen : option secp256k1_generator)
    : option (api (option Z * option Z * (option bytes * option Z * option bytes * option nat))) :=
  let old := (min_value, max_value, (blind_out, value_out, message_out, outlen)) in
  let fail what := Some (arg_fail ctx what old) in
  match commit, proof, min_value, max_value with
  | None, _, _, _ => fail "commit != NULL"%string
  | _, None, _, _ => fail "proof != NULL"%string
  | _, _, None, _ => fail "min_value != NULL"%string
  | _, _, _, None => fail "max_value != NULL"%string
  | Some commit, Some proof, Some min0, Some max0 =>
    if negb (not_null message_out || negb (not_null outlen))
    then fail "message_out != NULL || outlen == NULL"%string else
    if negb (not_null nonce) then fail "nonce != NULL"%string else
    if negb (not_null extra_commit || Nat.eqb extra_commit_len 0)
    then fail "extra_commit != NULL || extra_commit_len == 0"%string else
    match gen with
    | None => fail "gen != NULL"%string
    | Some gen =>
      if negb (secp256k1_ecmult_context_is_built (ecmult_ctx ctx))
      then fail "secp256k1_ecmult_context_is_built(&ctx->ecmult_ctx)"%string else
      if negb (secp256k1_ecmult_gen_context_is_built (ecmult_gen_ctx ctx))
      then fail "secp256k1_ecmult_gen_context_is_built(&ctx->ecmult_gen_ctx)"%string else
      let commitp := secp256k1_pedersen_commitment_load commit in
      let genp := secp256k1_generator_load gen in
      let h := Header 0 (h_exp h) (h_mantissa h) (h_scale h) min0 max0 in
      match secp256k1_rangeproof_verify_impl fuel (ecmult_ctx ctx) (Some (ecmult_gen_ctx ctx)) blind_out value_out
              message_out outlen nonce h commitp (firstn plen proof) (prefix_of extra_commit extra_commit_len) genp with
      | None => None
      | Some (ret, o) =>
        Some (Api ret (Some (v_min o), Some (v_max o), (v_blind o, v_value o, v_message o, v_outlen o)) [])
      end
    end
  end.

(** Without a nonce nothing is drawn, so no fuel is used. *)
Definition secp256k1_rangeproof_verify (ctx : secp256k1_context) (min_value max_value : option Z) (h : header)
    (commit : option secp256k1_pedersen_commitment) (proof : option bytes) (plen : nat)
    (extra_commit : option bytes) (extra_commit_len : nat) (gen : option secp256k1_generator)
    : option (api (option Z * option Z)) :=
  let old := (min_value, max_value) in
  let fail what := Some (arg_fail ctx what old) in
  match commit, proof, min_value, max_value with
  | None, _, _, _ => fail "commit != NULL"%string
  | _, None, _, _ => fail "proof != NULL"%string
  | _, _, None, _ => fail "min_value != NULL"%string
  | _, _, _, None => fail "max_value != NULL"%string
  | Some commit, Some proof, Some min0, Some max0 =>
    if negb (not_null extra_commit || Nat.eqb extra_commit_len 0)
    then fail "extra_commit != NULL || extra_commit_len == 0"%string else
    match gen with
    | None => fail "gen != NULL"%string
    | Some gen =>
      if negb (secp256k1_ecmult_context_is_built (ecmult_ctx ctx))
      then fail "secp256k1_ecmult_context_is_built(&ctx->ecmult_ctx)"%string else
      let commitp := secp256k1_pedersen_commitment_load commit in
      let genp := secp256k1_generator_load gen in
      let h := Header 0 (h_exp h) (h_mantissa h) (h_scale h) min0 max0 in
      match secp256k1_rangeproof_verify_impl 0 (ecmult_ctx ctx) None None None None None None h
              commitp (firstn plen proof) (prefix_of extra_commit extra_commit_len) genp with
      | None => None
      | Some (ret, o) => Some (Api ret (Some (v_min o), Some (v_max o)) [])
      end
    end
  end.

(** [proof] is the buffer, [plen] its length at the pointer. *)
Definition secp256k1_rangeproof_sign (fuel : nat) (ctx : secp256k1_context) (proof : option bytes)
    (plen : option Z) (min_value : Z) (commit : option secp256k1_pedersen_commitment)
    (blind nonce : option bytes) (exp min_bits value : Z) (message : option bytes) (msg_len : nat)
    (extra_commit : option bytes) (extra_commit_len : nat) (gen : option secp256k1_generator)
    : option (api (option bytes * option Z)) :=
  let fail what := Some (arg_fail ctx what (proof, plen)) in
  match proof, plen, commit, blind, nonce with
  | None, _, _, _, _ => fail "proof != NULL"%string
  | _, None, _, _, _ => fail "plen != NULL"%string
  | _, _, None, _, _ => fail "commit != NULL"%string
  | _, _, _, None, _ => fail "blind != NULL"%string
  | _, _, _, _, None => fail "nonce != NULL"%string
  | Some buf, Some len, Some commit, Some blind, Some nonce =>
    if negb (not_null message || Nat.eqb msg_len 0) then fail "message != NULL || msg_len == 0"%string else
    if negb (not_null extra_commit || Nat.eqb extra_commit_len 0)
    then fail "extra_commit != NULL || extra_commit_len == 0"%string else
    match gen with
    | None => fail "gen != NULL"%string
    | Some gen =>
      if negb (secp256k1_ecmult_context_is_built (ecmult_ctx ctx))
      then fail "secp256k1_ecmult_context_is_built(&ctx->ecmult_ctx)"%string else
      if negb (secp256k1_ecmult_gen_context_is_built (ecmult_gen_ctx ctx))
      then fail "secp256k1_ecmult_gen_context_is_built(&ctx->ecmult_gen_ctx)"%string else
      let commitp := secp256k1_pedersen_commitment_load commit in
      let genp := secp256k1_generator_load gen in
      match secp256k1_rangeproof_sign_impl fuel (ecmult_ctx ctx) (ecmult_gen_ctx ctx) buf len min_value commitp
              blind nonce exp min_bits value message msg_len (prefix_of extra_commit extra_commit_len) genp with
      | None => None
      | Some (ret, (buf, len)) => Some (Api ret (Some buf, Some len) [])
      end
    end
  end.

End Rangeproof.
