(* ===== verification/RangeproofVerify.v ===== *)
(** * modules/rangeproof/rangeproof_impl.h: what the verification decides

    The ring members are the points P_(i,j) = D_i - j 4^i 10^exp H, where D_i is
    the commitment to digit i; the verification of a proof is refined to the
    ring equations of Borromean.v over those points. *)
From Stdlib Require Import String.
From S2P Require Import Field5x52 Scalar4x64.
From S2P Require Import Prelude Primes FieldSpec Field ScalarSpec Scalar Sha256Spec Hash.
From S2P Require Import CurveSpec CurveGroup CurveOrder CurveCount Residue Svdw Group.
From S2P Require Import Ecmult EcmultGen EcmultConst EcmultProperties Ecdsa Eckey Der Api.
From S2P Require Import EcdsaProperties ApiProperties Generator Pedersen PedersenProperties RangeParams Borromean.
From S2P Require Import Rangeproof.

Section Verify.
Context {F : FieldImpl} {SI : ScalarImpl} (junk : secp256k1_gej) (junk_ints : list Z).
Context (junk_scalar : scalar) (sha0 : sha256_t).
Context (Hjunk : gej_mags junk) (Hsha : buf_ok sha0).

#[local] Abbreviation zero := (s_set_int 0).

(** ** Expanding the rings *)

Lemma rep_curve a P : gej_rep a P -> on_curve P.
Proof. intros H. exact (proj1 (proj2 H)). Qed.

Lemma nth_mags l c : Forall gej_mags l -> gej_mags (nth c l junk).
Proof.
  intros H. destruct (Nat.lt_ge_cases c (length l)) as [L|L].
  - rewrite Forall_forall in H. now apply H, nth_In.
  - now rewrite nth_overflow.
Qed.

Lemma times_ten_rep base H k : on_curve H -> gej_rep base (smul k H) ->
  gej_rep (times_ten junk base) (smul (10 * k) H).
Proof.
  intros CH Hb. unfold times_ten.
  pose proof (proj1 (double_rep junk base _ Hjunk Hb)) as H2. set (tmp := fst _) in *.
  rewrite <- smul_double in H2 by exact CH.
  pose proof (proj1 (double_rep base tmp _ (proj1 Hb) H2)) as H4. rewrite <- smul_double in H4 by exact CH.
  pose proof (proj1 (double_rep _ _ _ (proj1 H4) H4)) as H8. rewrite <- smul_double in H8 by exact CH.
  pose proof (proj1 (add_var_rep _ _ _ _ _ (proj1 H8) H8 H2)) as H10. rewrite <- smul_add in H10 by exact CH.
  replace (10 * k) with (2 * (2 * (2 * k)) + 2 * k) by ring. exact H10.
Qed.

Lemma times_ten_pow n : forall base H k, on_curve H -> gej_rep base (smul k H) ->
  gej_rep (Nat.iter n (times_ten junk) base) (smul (10 ^ Z.of_nat n * k) H).
Proof.
  induction n as [|n IH]; intros base H k CH Hb; cbn [Nat.iter].
  - now rewrite Z.pow_0_r, Z.mul_1_l.
  - rewrite Nat2Z.inj_succ, Z.pow_succ_r, <- Z.mul_assoc by lia. now apply times_ten_rep, IH.
Qed.

(** The rings of a proof have four members, but for the last. *)
Fixpoint ring_sizes (rsizes : list nat) : Prop :=
  match rsizes with
  | [] => False
  | [n] => (1 <= n <= 4)%nat
  | n :: rsizes => n = 4%nat /\ ring_sizes rsizes
  end.

Lemma ring_sizes_total rsizes : ring_sizes rsizes ->
  total rsizes = (4 * (length rsizes - 1) + nth (length rsizes - 1) rsizes 0)%nat /\
  (1 <= nth (length rsizes - 1) rsizes 0 <= 4)%nat /\ (1 <= length rsizes)%nat.
Proof.
  unfold total. induction rsizes as [|n rsizes IH]; [intros []|]. destruct rsizes as [|n' rsizes].
  - cbn. lia.
  - intros [-> R]. destruct (IH R) as (E & B & L). cbn [length] in *. rewrite !Nat.sub_succ, Nat.sub_0_r in *.
    change (nth (S (length rsizes)) (4%nat :: n' :: rsizes) O) with (nth (length rsizes) (n' :: rsizes) O).
    set (x := nth _ _ _) in *. cbn [fold_right] in *. lia.
Qed.

Section Expand.
Context (H : point) (CH : on_curve H).

Lemma expand_ring_spec base b D npub n : gej_rep base (smul b H) -> forall j pubs, (1 <= j)%nat ->
  (npub + j + n <= length pubs)%nat -> Forall gej_mags pubs ->
  gej_rep (nth (npub + j - 1) pubs junk) (padd D (smul (Z.of_nat (j - 1) * b) H)) -> on_curve D ->
  let r := expand_ring junk pubs base npub j n in
  length r = length pubs /\ Forall gej_mags r /\
  (forall c, (c < npub + j \/ npub + j + n <= c)%nat -> nth c r junk = nth c pubs junk) /\
  (forall t, (j <= t < j + n)%nat -> gej_rep (nth (npub + t) r junk) (padd D (smul (Z.of_nat t * b) H))).
Proof.
  intros Hb. induction n as [|n IH]; intros j pubs Hj Hl Hm Hp CD; cbn [expand_ring].
  - split; [reflexivity|]. split; [exact Hm|]. split; [reflexivity|lia].
  - pose proof (proj1 (add_var_rep _ _ _ _ _ (nth_mags pubs (npub + j) Hm) Hp Hb)) as Hn.
    set (next := fst _) in *. rewrite padd_assoc, <- smul_add in Hn by oc.
    replace (Z.of_nat (j - 1) * b + b) with (Z.of_nat j * b) in Hn
      by (replace (Z.of_nat j) with (Z.of_nat (j - 1) + 1) by lia; ring).
    set (pubs' := upd pubs (npub + j) next).
    assert (N : forall c, nth c pubs' junk = if Nat.eqb (npub + j) c then next else nth c pubs junk)
      by (intros c; apply nth_upd; lia).
    destruct (IH (S j) pubs') as (L & M & U & R).
    + lia.
    + unfold pubs'. rewrite length_upd. lia.
    + apply Forall_upd; [exact Hm|exact (proj1 Hn)].
    + rewrite N. replace (npub + S j - 1)%nat with (npub + j)%nat by lia. rewrite Nat.eqb_refl.
      replace (S j - 1)%nat with j by lia. exact Hn.
    + exact CD.
    + split; [unfold pubs' in L; now rewrite length_upd in L|]. split; [exact M|]. split.
      * intros c Hc. rewrite U, N by lia. now rewrite (proj2 (Nat.eqb_neq _ _)) by lia.
      * intros t Ht. destruct (Nat.eq_dec t j) as [->|Nt]; [|apply R; lia].
        rewrite U, N, Nat.eqb_refl by lia. exact Hn.
Qed.

(** Member [c] of a proof whose digits are committed to by [D]. *)
Definition ring_member (D : nat -> point) (scale : Z) (c : nat) : point :=
  padd (D (c / 4)%nat) (smul (Z.of_nat (c mod 4) * - (4 ^ Z.of_nat (c / 4) * scale)) H).

Lemma place_div i t : (t < 4)%nat -> ((4 * i + t) / 4 = i /\ (4 * i + t) mod 4 = t)%nat.
Proof.
  intros Ht. split; symmetry; [apply (Nat.div_unique _ 4 i t)|apply (Nat.mod_unique _ 4 i t)]; lia.
Qed.

Lemma expand_rings_spec D scale rsizes : (forall i, on_curve (D i)) -> ring_sizes rsizes ->
  forall i pubs base, (4 * i + total rsizes <= length pubs)%nat -> Forall gej_mags pubs ->
  gej_rep base (smul (- (4 ^ Z.of_nat i * scale)) H) ->
  (forall k, (k < length rsizes)%nat -> gej_rep (nth (4 * (i + k)) pubs junk) (D (i + k)%nat)) ->
  let r := expand_rings junk pubs base rsizes (4 * i) in
  length r = length pubs /\ (forall c, (c < 4 * i)%nat -> nth c r junk = nth c pubs junk) /\
  (forall c, (4 * i <= c < 4 * i + total rsizes)%nat -> gej_rep (nth c r junk) (ring_member D scale c)).
Proof.
  intros CD. induction rsizes as [|n rsizes IH]; [intros []|]. intros Hr i pubs base Hl Hm Hb HD.
  cbn [expand_rings]. cbn [total fold_right] in Hl |- *. fold (total rsizes) in *.
  assert (Hn : (1 <= n <= 4)%nat) by (destruct rsizes; [exact Hr|destruct Hr; lia]).
  pose proof (HD O ltac:(cbn; lia)) as H0. rewrite Nat.add_0_r in H0.
  destruct (expand_ring_spec base _ (D i) (4 * i) (n - 1) Hb 1 pubs) as (L1 & M1 & U1 & R1);
    [lia|lia|exact Hm| |apply CD|].
  { rewrite Nat.add_sub. cbn [Nat.sub]. rewrite Z.mul_0_l, smul_0, padd_Inf_r. exact H0. }
  set (pubs1 := expand_ring junk pubs base (4 * i) 1 (n - 1)) in *.
  assert (R0 : forall c, (4 * i <= c < 4 * i + n)%nat -> gej_rep (nth c pubs1 junk) (ring_member D scale c)).
  { intros c Hc. unfold ring_member. replace c with (4 * i + (c - 4 * i))%nat by lia.
    destruct (place_div i (c - 4 * i) ltac:(lia)) as [-> ->].
    destruct (Nat.eq_dec c (4 * i)) as [->|Nc]; [|apply R1; lia].
    rewrite Nat.sub_diag, Nat.add_0_r, Z.mul_0_l, smul_0, padd_Inf_r, U1 by lia. exact H0. }
  destruct rsizes as [|n' rsizes].
  - cbn [expand_rings total fold_right] in *. split; [exact L1|].
    split; [intros c Hc; apply U1; lia|]. intros c Hc. apply R0. lia.
  - destruct Hr as [-> Hr].
    pose proof (proj1 (double_rep base base _ (proj1 Hb) Hb)) as B2. set (base2 := fst _) in *.
    rewrite <- smul_double in B2 by exact CH.
    pose proof (proj1 (double_rep base2 base2 _ (proj1 B2) B2)) as B4. rewrite <- smul_double in B4 by exact CH.
    replace (2 * (2 * - (4 ^ Z.of_nat i * scale))) with (- (4 ^ Z.of_nat (S i) * scale)) in B4
      by (rewrite Nat2Z.inj_succ, Z.pow_succ_r by lia; ring).
    replace (4 * i + 4)%nat with (4 * S i)%nat by lia.
    destruct (IH Hr (S i) pubs1 (fst (secp256k1_gej_double_var base2 base2))) as (L2 & U2 & R2).
    + rewrite L1. lia.
    + exact M1.
    + exact B4.
    + intros k Hk. rewrite U1 by lia. replace (S i + k)%nat with (i + S k)%nat by lia. apply HD. cbn [length] in *. lia.
    + split; [now rewrite L2|]. split; [intros c Hc; rewrite U2, U1 by lia; reflexivity|].
      intros c Hc. destruct (Nat.lt_ge_cases c (4 * S i)) as [Lc|Lc]; [rewrite U2 by lia; apply R0; lia|apply R2; lia].
Qed.

(** The ring members from the commitments to the digits. *)
Lemma pub_expand_spec D rsizes pubs exp genp : (forall i, on_curve (D i)) -> ring_sizes rsizes ->
  (total rsizes <= length pubs)%nat -> Forall gej_mags pubs -> ge_rep genp H ->
  (forall k, (k < length rsizes)%nat -> gej_rep (nth (4 * k) pubs junk) (D k)) ->
  let r := secp256k1_rangeproof_pub_expand junk pubs exp rsizes (length rsizes) genp in
  forall c, (c < total rsizes)%nat -> gej_rep (nth c r junk) (ring_member D (10 ^ Z.max 0 exp) c).
Proof.
  intros CD Hr Hl Hm Hg HD r c Hc. unfold r, secp256k1_rangeproof_pub_expand. rewrite firstn_all.
  set (e := if exp <? 0 then 0 else exp).
  assert (Ee : Z.of_nat (Z.to_nat e) = Z.max 0 exp) by (unfold e; destruct (Z.ltb_spec exp 0); lia).
  pose proof (gej_neg_rep _ _ (set_ge_rep _ _ Hg)) as B0.
  rewrite <- (smul_1 H), <- smul_opp in B0 by exact CH.
  pose proof (times_ten_pow (Z.to_nat e) _ H _ CH B0) as B. rewrite Ee in B.
  replace (10 ^ Z.max 0 exp * - (1)) with (- (4 ^ Z.of_nat 0 * 10 ^ Z.max 0 exp)) in B
    by (change (4 ^ Z.of_nat 0) with 1; ring).
  apply (expand_rings_spec D (10 ^ Z.max 0 exp) rsizes CD Hr 0 pubs _ Hl Hm B HD). lia.
Qed.
End Expand.

(** ** The parts of a proof *)

Lemma serialize_point_ok a P : ge_rep a P -> P <> Inf ->
  secp256k1_rangeproof_serialize_point a = quad_bytes 1 P.
Proof.
  intros Ha HP. destruct P as [|x y]; [contradiction|].
  destruct (ge_finite _ _ _ Ha) as (Hc & _ & Kx & Ky).
  destruct (coord_norm _ 8 x Kx eq_refl (proj1 Hc)) as [Nx Vx].
  unfold secp256k1_rangeproof_serialize_point, quad_bytes.
  rewrite (is_quad_spec _ y Ky), (fe_get_b32_ok _ Nx), Vx. now destruct (squareb y).
Qed.

Lemma quad_bytes1_ok P : P <> Inf -> Forall is_byte (quad_bytes 1 P) /\ length (quad_bytes 1 P) = 33%nat.
Proof.
  destruct P as [|x y]; [contradiction|]. intros _. unfold quad_bytes. split.
  - constructor; [destruct (squareb y); unfold is_byte; cbn; lia|apply be_bytes_byte].
  - cbn [length]. now rewrite length_be_bytes.
Qed.

(** The commitments to the digits, and the octets of them that are hashed. *)
Fixpoint digit_points (proof : bytes) (offset : nat) (signs : list bool) : option (list point) :=
  match signs with
  | [] => Some []
  | sign :: signs =>
    match quad_point sign (slice proof offset 32), digit_points proof (offset + 32) signs with
    | Some P, Some Ps => Some (P :: Ps)
    | _, _ => None
    end
  end.

Fixpoint digit_octets (proof : bytes) (offset : nat) (signs : list bool) : bytes :=
  match signs with
  | [] => []
  | sign :: signs => b2z sign :: slice proof offset 32 ++ digit_octets proof (offset + 32) signs
  end.

Lemma slice_ok (l : bytes) off len : Forall is_byte l -> (off + len <= length l)%nat ->
  Forall is_byte (slice l off len) /\ length (slice l off len) = len.
Proof.
  intros B L. unfold slice. split; [now apply Forall_firstn, Forall_skipn|].
  rewrite length_firstn, length_skipn. lia.
Qed.

Lemma digit_points_ok proof : forall signs offset Ds, digit_points proof offset signs = Some Ds ->
  length Ds = length signs /\ Forall on_curve Ds.
Proof.
  induction signs as [|sign signs IH]; intros offset Ds E; cbn [digit_points] in E.
  - injection E as <-. split; [reflexivity|constructor].
  - destruct (quad_point _ _) as [P|] eqn:EP; [|discriminate E].
    destruct (digit_points _ _ _) as [Ps|] eqn:ES; [|discriminate E]. injection E as <-.
    destruct (IH _ _ ES) as [L C]. split; [cbn [length]; now rewrite L|].
    constructor; [exact (proj1 (quad_point_curve _ _ _ EP))|exact C].
Qed.

Lemma digit_octets_ok proof : Forall is_byte proof -> forall signs offset,
  (offset + 32 * length signs <= length proof)%nat ->
  Forall is_byte (digit_octets proof offset signs) /\
  length (digit_octets proof offset signs) = (33 * length signs)%nat.
Proof.
  intros B. induction signs as [|sign signs IH]; intros offset L; cbn [digit_octets length] in *.
  - split; [constructor|reflexivity].
  - destruct (slice_ok proof offset 32 B ltac:(lia)) as [B1 L1].
    destruct (IH (offset + 32)%nat ltac:(lia)) as [B2 L2]. split.
    + constructor; [destruct sign; unfold is_byte; cbn; lia|]. apply Forall_app. now split.
    + cbn [length]. rewrite length_app, L1, L2. lia.
Qed.

Lemma load_digits_spec proof : Forall is_byte proof -> forall signs rsizes i offset sha acc pubs a A Ds,
  ring_sizes rsizes -> length rsizes = S (length signs) ->
  (offset + 32 * length signs <= length proof)%nat -> (4 * (i + length signs) <= length pubs)%nat ->
  repr sha acc -> Forall gej_mags pubs -> gej_rep a A -> digit_points proof offset signs = Some Ds ->
  let '(sha', pubs', a', offset', npub') := load_digits proof signs sha pubs a offset (4 * i) rsizes in
  repr sha' (acc ++ digit_octets proof offset signs) /\ length pubs' = length pubs /\
  Forall gej_mags pubs' /\ (forall c, (c < 4 * i)%nat -> nth c pubs' junk = nth c pubs junk) /\
  (forall k, (k < length signs)%nat -> gej_rep (nth (4 * (i + k)) pubs' junk) (nth k Ds Inf)) /\
  gej_rep a' (fold_left padd Ds A) /\ offset' = (offset + 32 * length signs)%nat /\
  npub' = (4 * (i + length signs))%nat.
Proof.
  intros B. induction signs as [|sign signs IH]; intros rsizes i offset sha acc pubs a A Ds Hr Lr Ho Hl Hs Hm Ha E;
    cbn [digit_points load_digits digit_octets length] in *.
  { injection E as <-. rewrite app_nil_r, Nat.add_0_r. cbn [fold_left]. replace (offset + 32 * 0)%nat with offset by lia.
    split; [exact Hs|]. split; [reflexivity|]. split; [exact Hm|]. split; [reflexivity|].
    split; [intros k Hk; lia|]. split; [exact Ha|]. split; [reflexivity|lia]. }
  destruct rsizes as [|n rsizes]; [destruct Hr|]. destruct rsizes as [|n' rsizes]; [discriminate Lr|].
  destruct Hr as [-> Hr]. destruct (quad_point sign _) as [P|] eqn:EP; [|discriminate E].
  destruct (digit_points _ _ _) as [Ps|] eqn:ES; [|discriminate E]. injection E as <-.
  destruct (slice_ok proof offset 32 B ltac:(lia)) as [Bx Lx].
  pose proof (load_digit sign _ P Bx Lx EP) as LD. destruct (fe_set_b32 _) as [fx okx].
  destruct (secp256k1_ge_set_xquad fx) as [c0 okc]. set (c := if sign then _ else c0) in *.
  pose proof (set_ge_rep _ _ LD) as RD.
  assert (B1 : Forall is_byte [b2z sign])
    by (constructor; [destruct sign; unfold is_byte; cbn; lia|constructor]).
  pose proof (write_repr _ _ _ (write_repr _ _ _ Hs B1) Bx) as Hs2. rewrite <- app_assoc in Hs2.
  cbn [app] in Hs2. set (sha2 := secp256k1_sha256_write _ (slice proof offset 32)) in *.
  pose proof (proj1 (add_ge_var_rep a a c _ _ (proj1 Ha) Ha LD)) as Ha2. set (a2 := fst _) in *.
  set (pubs2 := upd pubs (4 * i) (secp256k1_gej_set_ge c)).
  assert (N : forall k, nth k pubs2 junk = if Nat.eqb (4 * i) k then secp256k1_gej_set_ge c else nth k pubs junk)
    by (intros k; apply nth_upd; lia).
  replace (4 * i + 4)%nat with (4 * S i)%nat by lia.
  specialize (IH (n' :: rsizes) (S i) (offset + 32)%nat sha2 _ pubs2 a2 _ Ps Hr ltac:(cbn [length] in *; lia)
    ltac:(lia) ltac:(unfold pubs2; rewrite length_upd; lia) Hs2 (Forall_upd _ _ _ _ Hm (proj1 RD)) Ha2 ES).
  destruct (load_digits _ _ _ _ _ _ _ _) as [[[[sha' pubs'] a'] offset'] npub'].
  destruct IH as (R1 & R2 & R3 & R4 & R5 & R6 & R7 & R8). unfold pubs2 in R2. rewrite length_upd in R2.
  rewrite <- app_assoc in R1. cbn [app] in R1. split; [exact R1|]. split; [exact R2|]. split; [exact R3|].
  split. { intros k Hk. rewrite R4, N by lia. now rewrite (proj2 (Nat.eqb_neq _ _)) by lia. }
  split.
  { intros [|k] Hk; cbn [nth].
    - rewrite Nat.add_0_r, R4, N, Nat.eqb_refl by lia. exact RD.
    - replace (4 * (i + S k))%nat with (4 * (S i + k))%nat by lia. apply R5. lia. }
  split; [exact R6|]. split; lia.
Qed.

(** Number [c] of those stored from [offset] on. *)
Definition number (proof : bytes) (offset c : nat) : Z := be_val (slice proof (offset + 32 * c) 32).

Lemma read_scalars_spec proof : Forall is_byte proof -> forall n s offset i,
  (offset + 32 * n <= length proof)%nat -> (i + n <= length s)%nat ->
  match read_scalars proof s offset i n with
  | None => exists c, (c < n)%nat /\ n_order <= number proof offset c
  | Some (s', offset') => offset' = (offset + 32 * n)%nat /\ length s' = length s /\
      (forall c, (c < i)%nat -> nth c s' zero = nth c s zero) /\
      forall c, (c < n)%nat -> number proof offset c < n_order /\
        sok (nth (i + c) s' zero) /\ sval (nth (i + c) s' zero) = number proof offset c
  end.
Proof.
  intros B. induction n as [|n IH]; intros s offset i Ho Hl; cbn [read_scalars].
  { split; [lia|]. split; [reflexivity|]. split; [reflexivity|]. intros c Hc. lia. }
  destruct (slice_ok proof offset 32 B ltac:(lia)) as [Bx Lx].
  pose proof (s_set_b32_ok _ Bx Lx) as S. assert (E0 : number proof offset 0 = be_val (slice proof offset 32))
    by (unfold number; now rewrite Nat.mul_0_r, Nat.add_0_r).
  destruct (s_set_b32 _) as [x o]. destruct S as (Ox & Vx & ->).
  destruct (Z.leb_spec n_order (be_val (slice proof offset 32))) as [L|L].
  { exists O. split; [lia|]. now rewrite E0. }
  pose proof (proj1 (be_val_range _ Bx)) as Nn. rewrite Z.mod_small in Vx by lia.
  assert (Es : forall c, number proof (offset + 32) c = number proof offset (S c))
    by (intros c; unfold number; do 2 f_equal; lia).
  specialize (IH (upd s i x) (offset + 32)%nat (S i) ltac:(lia) ltac:(rewrite length_upd; lia)).
  destruct (read_scalars _ _ _ _ _) as [[s' offset']|].
  - destruct IH as (R1 & R2 & R3 & R4). rewrite length_upd in R2. split; [lia|]. split; [exact R2|]. split.
    + intros c Hc. rewrite R3, nth_upd by lia. now rewrite (proj2 (Nat.eqb_neq _ _)) by lia.
    + intros [|c] Hc.
      * rewrite Nat.add_0_r, R3, nth_upd, Nat.eqb_refl, E0 by lia. split; [lia|]. now split.
      * rewrite <- (Es c), (Nat.add_succ_r i c). apply R4. lia.
  - destruct IH as (c & Hc & Hn). exists (S c). split; [lia|]. now rewrite <- Es.
Qed.

(** ** The reference

    [o] is the length of the header and [r] the number of rings. *)

(** Where the sign bits end. *)
Definition body_at (o r : nat) : nat := (o + (r + 6) / 8)%nat.

Definition digit_signs (proof : bytes) (o r : nat) : list bool :=
  map (fun i => Z.testbit (nth (o + i / 8) proof 0) (Z.of_nat (i mod 8))) (seq 0 (r - 1)).

Definition range_digits (proof : bytes) (o r : nat) : option (list point) :=
  digit_points proof (body_at o r) (digit_signs proof o r).

(** The commitments to all digits: the last is what is left of [C]. *)
Definition last_commitment (C H : point) (mn : Z) (Ds : list point) : point :=
  padd (pneg (padd (smul mn H) (psum Ds))) C.

Definition digit_commitment (C H : point) (mn : Z) (Ds : list point) (i : nat) : point :=
  nth i (Ds ++ [last_commitment C H mn Ds]) Inf.

(** The hash the rings sign. *)
Definition range_message (C H : point) (proof : bytes) (o r : nat) (extra : bytes) : bytes :=
  fips_sha256 (quad_bytes 1 C ++ quad_bytes 1 H ++ firstn o proof
    ++ digit_octets proof (body_at o r) (digit_signs proof o r) ++ extra).

Definition range_rings (C H : point) (h : header) (proof : bytes) (Ds : list point) : list (list member) :=
  let rsizes := fst (rings_of (h_mantissa h)) in
  let r := length rsizes in
  let start := (body_at (Z.to_nat (h_offset h)) r + 32 * r)%nat in
  rings_at (fun c => (number proof start c,
    ring_member H (digit_commitment C H (h_min h) Ds) (h_scale h) c)) 0 rsizes.

(** A proof with header [h] whose digits are committed to by [Ds]: it has exactly
    the right length, no sign bits beyond the digits and only numbers below n,
    and its rings are signed. *)
Record range_valid (C H : point) (extra : bytes) (h : header) (proof : bytes) (Ds : list point) : Prop := {
  rv_length : let '(rsizes, npub) := rings_of (h_mantissa h) in
    length proof = (body_at (Z.to_nat (h_offset h)) (length rsizes) + 32 * length rsizes + 32 * npub)%nat;
  rv_signs : let r := length (fst (rings_of (h_mantissa h))) in
    ((r - 1) mod 8 <> 0)%nat ->
    nth (body_at (Z.to_nat (h_offset h)) r - 1) proof 0 < 2 ^ Z.of_nat ((r - 1) mod 8);
  rv_numbers : let '(rsizes, npub) := rings_of (h_mantissa h) in forall c, (c < npub)%nat ->
    number proof (body_at (Z.to_nat (h_offset h)) (length rsizes) + 32 * length rsizes) c < n_order;
  rv_last : last_commitment C H (h_min h) Ds <> Inf;
  rv_rings : let r := length (fst (rings_of (h_mantissa h))) in
    let o := Z.to_nat (h_offset h) in
    borromean_valid (range_message C H proof o r extra) (slice proof (body_at o r + 32 * (r - 1)) 32)
      (range_rings C H h proof Ds)
}.

Lemma ring_sizes_repeat k : ring_sizes (repeat 4%nat (S k)) /\ ring_sizes (repeat 4%nat k ++ [2%nat]).
Proof.
  induction k as [|k [I1 I2]]; [cbn; lia|]. split.
  - exact (conj eq_refl I1).
  - destruct k; exact (conj eq_refl I2).
Qed.

Lemma total_repeat k l : total (repeat 4%nat k ++ l) = (4 * k + total l)%nat.
Proof. induction k as [|k IH]; [reflexivity|]. unfold total in *. cbn [repeat app fold_right]. lia. Qed.

Lemma rings_of_spec mantissa : 0 <= mantissa <= 64 -> let '(rsizes, npub) := rings_of mantissa in
  ring_sizes rsizes /\ npub = total rsizes /\ (1 <= length rsizes <= 32)%nat.
Proof.
  intros Hm. unfold rings_of. destruct (Z.eqb_spec mantissa 0) as [|N]; cbn [negb]; [cbn; lia|].
  rewrite (shr_lit mantissa 1 2), (land_mask_lit mantissa 1 1 2) by reflexivity.
  set (k := Z.to_nat (mantissa / 2)). assert (Ek : Z.of_nat k = mantissa / 2) by (unfold k; dlia).
  destruct (Z.eqb_spec (mantissa mod 2) 0) as [E|E]; cbn [negb].
  - pose proof (total_repeat k []) as T. rewrite app_nil_r in T. rewrite T, repeat_length.
    assert (Hk : (1 <= k <= 32)%nat) by (clear - Ek Hm N E; dlia).
    split; [|cbn; lia]. destruct k as [|k']; [lia|]. exact (proj1 (ring_sizes_repeat k')).
  - assert (Hk : (k <= 31)%nat) by (clear - Ek Hm N E; dlia). split; [exact (proj2 (ring_sizes_repeat k))|].
    rewrite total_repeat, length_app, repeat_length. cbn. lia.
Qed.

Lemma sign_testbit b k : 0 <= k -> negb ((b .& (1 << k)) =? 0) = Z.testbit b k.
Proof.
  intros Hk. rewrite Z.shiftl_1_l. destruct (Z.testbit b k) eqn:T.
  - apply negb_true_iff, Z.eqb_neq. intros E. apply (f_equal (fun z => Z.testbit z k)) in E.
    rewrite Z.land_spec, T, Z.pow2_bits_true, Z.bits_0 in E by exact Hk. discriminate E.
  - apply negb_false_iff, Z.eqb_eq, Z.bits_inj'. intros i Hi. rewrite Z.land_spec, Z.pow2_bits_eqb, Z.bits_0 by exact Hk.
    destruct (Z.eqb_spec k i) as [->|]; [now rewrite T|apply andb_false_r].
Qed.

Lemma nth_byte l i : Forall is_byte l -> is_byte (nth i l 0).
Proof. intros H. pose proof (at_byte l (Z.of_nat i) H) as A. unfold at_ in A. now rewrite Nat2Z.id in A. Qed.

Lemma rings_at_ext (f g : nat -> member) rsizes : forall c,
  (forall t, (c <= t < c + total rsizes)%nat -> f t = g t) -> rings_at f c rsizes = rings_at g c rsizes.
Proof.
  induction rsizes as [|n rsizes IH]; intros c E; [reflexivity|]. cbn [rings_at total fold_right] in *.
  fold (total rsizes) in E. f_equal; [|apply IH; intros t Ht; apply E; lia].
  apply map_ext_in. intros t Ht. apply in_seq in Ht. apply E. lia.
Qed.

(** ** The verification *)

Section Proofs.
Context (C H : point) (commit genp : secp256k1_ge) (proof : bytes).
Context (RC : ge_rep commit C) (FC : C <> Inf) (RH : ge_rep genp H) (FH : H <> Inf).
Context (Bp : Forall is_byte proof).

Lemma curve_C : on_curve C. Proof. exact (proj1 (proj2 RC)). Qed.
Lemma curve_H : on_curve H. Proof. exact (proj1 (proj2 RH)). Qed.

Lemma hash_head o : repr (secp256k1_sha256_write (secp256k1_sha256_write (secp256k1_sha256_write
    (secp256k1_sha256_initialize sha0) (secp256k1_rangeproof_serialize_point commit))
    (secp256k1_rangeproof_serialize_point genp)) (slice proof 0 o))
  (quad_bytes 1 C ++ quad_bytes 1 H ++ firstn o proof).
Proof.
  rewrite (serialize_point_ok _ _ RC FC), (serialize_point_ok _ _ RH FH).
  pose proof (write_repr _ _ _ (initialize_repr sha0 Hsha) (proj1 (quad_bytes1_ok C FC))) as S1.
  pose proof (write_repr _ _ _ S1 (proj1 (quad_bytes1_ok H FH))) as S2.
  pose proof (write_repr _ _ (firstn o proof) S2 (Forall_firstn _ _ _ Bp)) as S3.
  rewrite <- app_assoc in S3. exact S3.
Qed.

Lemma digit_commitment_curve mn Ds : Forall on_curve Ds -> forall i, on_curve (digit_commitment C H mn Ds i).
Proof.
  intros HD i. pose proof curve_C. pose proof curve_H. pose proof (psum_curve Ds HD).
  assert (A : Forall on_curve (Ds ++ [last_commitment C H mn Ds])).
  { apply Forall_app. split; [exact HD|]. constructor; [unfold last_commitment; oc|constructor]. }
  unfold digit_commitment. destruct (Nat.lt_ge_cases i (length (Ds ++ [last_commitment C H mn Ds]))) as [L|L].
  - rewrite Forall_forall in A. now apply A, nth_In.
  - rewrite nth_overflow by exact L. exact I.
Qed.

Lemma commitment_low mn Ds i : (i < length Ds)%nat -> digit_commitment C H mn Ds i = nth i Ds Inf.
Proof. intros L. unfold digit_commitment. now rewrite app_nth1. Qed.

Lemma commitment_last mn Ds : digit_commitment C H mn Ds (length Ds) = last_commitment C H mn Ds.
Proof. unfold digit_commitment. now rewrite app_nth2, Nat.sub_diag by lia. Qed.

Section Loaded.
Context (Hints : length junk_ints = 33%nat).

Lemma accj_rep mn : 0 <= mn < 2 ^ 64 ->
  gej_rep (if negb (mn =? 0) then secp256k1_pedersen_ecmult_small junk junk_ints mn genp
           else secp256k1_gej_set_infinity junk) (smul mn H).
Proof.
  intros Hm. destruct (Z.eqb_spec mn 0) as [->|N]; cbn [negb].
  - exact (rep_inf _ (set_infinity_mags junk) eq_refl).
  - exact (ecmult_small_rep junk junk_ints Hjunk Hints mn genp H Hm RH FH).
Qed.

(** The points once the digits are read and the rings expanded. *)
Lemma rings_loaded h rsizes Ds sha acc o : header_ok h -> ring_sizes rsizes -> (length rsizes <= 32)%nat ->
  repr sha acc -> let r := length rsizes in (body_at o r + 32 * (r - 1) <= length proof)%nat ->
  range_digits proof o r = Some Ds ->
  let signs := digit_signs proof o r in
  let accj := if negb (h_min h =? 0) then secp256k1_pedersen_ecmult_small junk junk_ints (h_min h) genp
              else secp256k1_gej_set_infinity junk in
  let '(sha', pubs, accj, offset, npub) :=
    load_digits proof signs sha (repeat junk 128) accj (body_at o r) 0 rsizes in
  let last := fst (secp256k1_gej_add_ge_var (nth npub pubs junk) (secp256k1_gej_neg accj) commit) in
  let pubs := upd pubs npub last in
  repr sha' (acc ++ digit_octets proof (body_at o r) signs) /\
  offset = (body_at o r + 32 * (r - 1))%nat /\ npub = (4 * (r - 1))%nat /\
  secp256k1_gej_is_infinity last = is_inf (last_commitment C H (h_min h) Ds) /\
  forall c, (c < total rsizes)%nat ->
    gej_rep (nth c (secp256k1_rangeproof_pub_expand junk pubs (h_exp h) rsizes r genp) junk)
      (ring_member H (digit_commitment C H (h_min h) Ds) (h_scale h) c).
Proof.
  intros Hh Hr L32 Hs r Ho HD signs accj. destruct (ring_sizes_total rsizes Hr) as (Et & Bl & L1).
  destruct (digit_points_ok proof _ _ _ HD) as [LD CD].
  assert (Ls : length signs = (r - 1)%nat) by (unfold signs, digit_signs; now rewrite length_map, length_seq).
  fold signs in LD. destruct (header_values h Hh) as (Rmn & _ & _ & _).
  pose proof (load_digits_spec proof Bp signs rsizes 0 (body_at o r) sha acc (repeat junk 128) accj (smul (h_min h) H) Ds Hr
    ltac:(fold r; lia) ltac:(lia) ltac:(rewrite repeat_length; lia) Hs) as LS.
  specialize (LS ltac:(apply Forall_forall; intros g Hg; apply repeat_spec in Hg; now subst g) (accj_rep _ Rmn) HD).
  change (4 * 0)%nat with O in LS. destruct (load_digits _ _ _ _ _ _ _ _) as [[[[sha' pubs] a] offset] npub].
  destruct LS as (R1 & R2 & R3 & _ & R5 & R6 & -> & ->). rewrite repeat_length in R2. rewrite Ls in *.
  pose proof curve_C as CC. pose proof curve_H as CH. pose proof (psum_curve Ds CD) as CS.
  rewrite (proj1 (fold_padd Ds CD _ (smul_on_curve _ _ CH))) in R6.
  pose proof (proj1 (add_ge_var_rep (nth (4 * (0 + (r - 1))) pubs junk) _ _ _ _ (nth_mags _ _ R3)
    (gej_neg_rep _ _ R6) RC)) as RL. fold (last_commitment C H (h_min h) Ds) in RL.
  cbn [Nat.add] in *. set (last := fst _) in *. set (pubs2 := upd pubs (4 * (r - 1)) last).
  split; [exact R1|]. split; [reflexivity|]. split; [reflexivity|]. split; [exact (is_infinity_spec _ _ RL)|].
  assert (Esc : h_scale h = 10 ^ Z.max 0 (h_exp h)) by apply Hh. rewrite Esc.
  apply (pub_expand_spec H CH); [now apply digit_commitment_curve|exact Hr|unfold pubs2; rewrite length_upd; lia| |exact RH|].
  { apply Forall_upd; [exact R3|exact (proj1 RL)]. }
  intros k Hk. fold r in Hk. unfold pubs2. rewrite nth_upd by lia.
  destruct (Nat.eqb_spec (4 * (r - 1)) (4 * k)) as [E|N].
  - replace k with (length Ds) by lia. now rewrite commitment_last.
  - rewrite commitment_low by lia. apply R5. lia.
Qed.

End Loaded.

Context (ctx : secp256k1_ecmult_context) (HC : ctx_ok ctx) (h : header) (Hh : header_ok h).
Context (Lp : 65 <= Z.of_nat (length proof) < 2 ^ 60).
Context (extra : option bytes).

(** The bytes at a pointer that may be NULL. *)
Definition octets_at (ptr : option bytes) : bytes := match ptr with Some l => l | None => [] end.

Context (Be : Forall is_byte (octets_at extra)) (Le : Z.of_nat (length (octets_at extra)) < 2 ^ 60).

Let o := Z.to_nat (h_offset h).
Let rsizes := fst (rings_of (h_mantissa h)).
Let npub := snd (rings_of (h_mantissa h)).
Let r := length rsizes.

Lemma shape : ring_sizes rsizes /\ npub = total rsizes /\ (1 <= r <= 32)%nat /\ (1 <= o <= 10)%nat /\
  (1 <= npub <= 128)%nat.
Proof.
  destruct (header_values h Hh) as (_ & Rm & _ & _). pose proof (rings_of_spec _ Rm) as S.
  unfold r, npub, rsizes. destruct (rings_of (h_mantissa h)) as [rs np]. cbn [fst snd].
  destruct S as (S1 & S2 & S3). destruct (ring_sizes_total rs S1) as (T1 & T2 & _).
  pose proof (ho_offset _ Hh). unfold o. repeat split; try assumption || lia.
Qed.

(** The first test is on the length. *)
Lemma room_test : (u64 (Z.of_nat (length proof) - Z.of_nat o) <?
    Z.of_nat (32 * (npub + r - 1) + 32 + (r + 6) / 8))
  = Nat.ltb (length proof) (body_at o r + 32 * r + 32 * npub).
Proof.
  destruct shape as (_ & _ & Hr & Ho & Hn). unfold u64, body_at. rewrite Z.mod_small by lia.
  apply eq_true_iff_eq. rewrite Z.ltb_lt, Nat.ltb_lt. lia.
Qed.

Lemma stray_test : (negb (Nat.eqb ((r - 1) mod 8) 0)
    && negb ((nth (body_at o r - 1) proof 0 >> Z.of_nat ((r - 1) mod 8)) =? 0)) = false <->
  (((r - 1) mod 8 <> 0)%nat -> nth (body_at o r - 1) proof 0 < 2 ^ Z.of_nat ((r - 1) mod 8)).
Proof.
  set (k := ((r - 1) mod 8)%nat). pose proof (nth_byte proof (body_at o r - 1) Bp) as B. unfold is_byte in B.
  rewrite andb_false_iff, !negb_false_iff, Nat.eqb_eq, Z.eqb_eq, shr_div by (apply Z.leb_le; lia).
  pose proof (Z.pow_pos_nonneg 2 (Z.of_nat k) ltac:(lia) ltac:(lia)) as P.
  rewrite Z.div_small_iff by lia. split; [intros [E|E] N; [contradiction|lia]|].
  intros E. destruct (Nat.eq_dec k 0) as [|N]; [now left|right]. specialize (E N). lia.
Qed.

Lemma signs_read : map (fun i => negb ((nth (o + i / 8) proof 0 .& (1 << Z.of_nat (i mod 8))) =? 0)) (seq 0 (r - 1))
  = digit_signs proof o r.
Proof. apply map_ext. intros i. apply sign_testbit. lia. Qed.

Lemma hash_tail sha : (body_at o r + 32 * (r - 1) <= length proof)%nat ->
  repr sha ((quad_bytes 1 C ++ quad_bytes 1 H ++ firstn o proof)
    ++ digit_octets proof (body_at o r) (digit_signs proof o r)) ->
  snd (secp256k1_sha256_finalize
    (match extra with Some e => secp256k1_sha256_write sha e | None => sha end))
  = range_message C H proof o r (octets_at extra).
Proof.
  intros Lb Hs. pose proof shape as (_ & _ & Hr & Ho & _).
  assert (Hs' : repr (match extra with Some e => secp256k1_sha256_write sha e | None => sha end)
    ((quad_bytes 1 C ++ quad_bytes 1 H ++ firstn o proof)
      ++ digit_octets proof (body_at o r) (digit_signs proof o r) ++ octets_at extra)).
  { rewrite app_assoc. unfold octets_at in *. destruct extra as [e|]; [now apply write_repr|now rewrite app_nil_r]. }
  assert (Ls : length (digit_signs proof o r) = (r - 1)%nat) by (unfold digit_signs; now rewrite length_map, length_seq).
  destruct (digit_octets_ok proof Bp (digit_signs proof o r) (body_at o r) ltac:(lia)) as [_ LO].
  destruct (finalize_spec _ _ Hs') as [E _]; [|rewrite E; unfold range_message; now rewrite <- !app_assoc].
  rewrite !length_app, LO, (proj2 (quad_bytes1_ok C FC)), (proj2 (quad_bytes1_ok H FH)), length_firstn. lia.
Qed.

Lemma shape_eq : rings_of (h_mantissa h) = (rsizes, npub).
Proof. unfold rsizes, npub. now destruct (rings_of _). Qed.

Lemma valid_length Ds : range_valid C H (octets_at extra) h proof Ds ->
  length proof = (body_at o r + 32 * r + 32 * npub)%nat.
Proof. intros V. pose proof (rv_length _ _ _ _ _ _ V) as E. rewrite shape_eq in E. exact E. Qed.

Lemma valid_numbers Ds : range_valid C H (octets_at extra) h proof Ds -> forall c, (c < npub)%nat ->
  number proof (body_at o r + 32 * r) c < n_order.
Proof. intros V. pose proof (rv_numbers _ _ _ _ _ _ V) as E. rewrite shape_eq in E. exact E. Qed.

Context (Hints : length junk_ints = 33%nat).

Lemma verify_rest_spec evalues Ds : range_digits proof o r = Some Ds ->
  match verify_rest junk junk_ints junk_scalar sha0 ctx evalues h commit proof extra genp with
  | None => ~ range_valid C H (octets_at extra) h proof Ds
  | Some (ret, ev, s) => (ret = true <-> range_valid C H (octets_at extra) h proof Ds) /\
      (forall c, (c < npub)%nat -> sok (nth c s zero) /\
         sval (nth c s zero) = number proof (body_at o r + 32 * r) c) /\
      read_scalars proof (repeat junk_scalar 128) (body_at o r + 32 * r) 0 npub = Some (s, length proof) /\
      (ret = true -> exists Rs es l, ring_ends (range_message C H proof o r (octets_at extra))
           (slice proof (body_at o r + 32 * (r - 1)) 32) 0 (range_rings C H h proof Ds) = Some (Rs, es) /\
         ev = put_all evalues 0 l /\ scalars_for es l)
  end.
Proof.
  intros HD. pose proof shape as (Hrs & En & Hr & Ho & Hn). unfold verify_rest. fold o.
  pose proof room_test as RT. pose proof stray_test as ST.
  rewrite shape_eq. cbv zeta. fold r. rewrite RT. destruct (Nat.ltb_spec (length proof) (body_at o r + 32 * r + 32 * npub)) as [L|L].
  { intros V. rewrite (valid_length Ds V) in L. lia. }
  fold (body_at o r). destruct (_ && _).
  { intros V. discriminate (proj2 ST (rv_signs _ _ _ _ _ _ V)). }
  pose proof (proj1 ST eq_refl) as ES. rewrite signs_read.
  pose proof (rings_loaded Hints h rsizes Ds _ _ o Hh Hrs ltac:(fold r; lia) (hash_head o)) as RL. cbv zeta in RL. fold r in RL.
  specialize (RL ltac:(lia) HD).
  destruct (load_digits _ _ _ _ _ _ _ _) as [[[[sha' pubs] a] offset] npub'].
  destruct RL as (R1 & -> & -> & R4 & R5). rewrite R4.
  destruct (is_inf (last_commitment C H (h_min h) Ds)) eqn:EI.
  { apply is_inf_true in EI. intros V. exact (rv_last _ _ _ _ _ _ V EI). }
  assert (FL : last_commitment C H (h_min h) Ds <> Inf) by (intros E; rewrite E in EI; discriminate EI).
  destruct (ring_sizes_total rsizes Hrs) as (Et & Bl & _). fold r in Et. rewrite <- Et, <- En.
  pose proof (read_scalars_spec proof Bp npub (repeat junk_scalar 128) (body_at o r + 32 * (r - 1) + 32) 0
    ltac:(lia) ltac:(rewrite repeat_length; lia)) as RS.
  replace (body_at o r + 32 * (r - 1) + 32)%nat with (body_at o r + 32 * r)%nat in * by lia.
  destruct (read_scalars _ _ _ _ _) as [[s offset']|] eqn:ERS.
  2: { destruct RS as (c & Hc & Hbig). intros V. pose proof (valid_numbers Ds V c Hc). lia. }
  destruct RS as (-> & _ & _ & RS). cbn [Nat.add] in RS.
  destruct (Nat.eqb_spec (body_at o r + 32 * r + 32 * npub) (length proof)) as [EL|NL]; cbn [negb].
  2: { intros V. rewrite (valid_length Ds V) in NL. now apply NL. }
  pose proof (hash_tail sha' ltac:(lia) R1) as Em. destruct (secp256k1_sha256_finalize _) as [sh m].
  cbn [snd] in Em. subst m. set (m := range_message C H proof o r (octets_at extra)).
  assert (Bm : Forall is_byte m) by apply fips_sha256_byte.
  assert (Lm : length m = 32%nat) by apply length_fips_sha256.
  set (e0 := slice proof _ 32).
  assert (He : is_b32 e0).
  { destruct (slice_ok proof (body_at o r + 32 * (r - 1)) 32 Bp ltac:(lia)) as [B1 B2]. now split. }
  set (pubs' := secp256k1_rangeproof_pub_expand _ _ _ _ _ _) in *.
  pose proof (borromean_verify_spec junk sha0 Hjunk Hsha ctx HC pubs' _ npub ltac:(rewrite En; exact R5) m Bm
    ltac:(rewrite Lm; reflexivity) s e0 rsizes evalues (fun c Hc => proj1 (proj2 (RS c Hc))) He
    ltac:(lia) ltac:(fold r; lia)) as BV. cbv zeta in BV. fold r in BV.
  assert (Er : rings_at (mem (ring_member H (digit_commitment C H (h_min h) Ds) (h_scale h)) s) 0 rsizes
    = range_rings C H h proof Ds).
  { apply rings_at_ext. intros c Hc. unfold mem. f_equal. apply RS. rewrite En. apply Hc. }
  rewrite Er in BV. destruct (ring_ends m e0 0 (range_rings C H h proof Ds)) as [[Rs es]|] eqn:RE.
  - destruct BV as (l & -> & Hl). split; [|split; [|split; [now rewrite <- EL|]]].
    + rewrite bytes_eqb_spec. split; [intros E|].
      * split; try assumption; [rewrite shape_eq; fold o r; lia|rewrite shape_eq; intros c Hc; apply RS, Hc|].
        now exists Rs, es.
      * intros V. destruct (rv_rings _ _ _ _ _ _ V) as (Rs' & es' & E' & E2). fold o rsizes r m e0 in E', E2.
        rewrite RE in E'. injection E' as <- <-. exact E2.
    + intros c Hc. apply RS. exact Hc.
    + intros _. now exists Rs, es, l.
  - destruct (secp256k1_borromean_verify _ _ _ _ _ _ _ _ _ _) as [ret ev]. cbn [fst] in BV. subst ret.
    split; [|split; [intros c Hc; apply RS; exact Hc|split; [now rewrite <- EL|discriminate]]]. split; [discriminate|].
    intros V. destruct (rv_rings _ _ _ _ _ _ V) as (Rs' & es' & E' & _). fold o rsizes r m e0 in E'. congruence.
Qed.

End Proofs.

Context (Hints : length junk_ints = 33%nat).

(** Without a nonce nothing but the range is written. *)
Lemma verify_impl_spec hmac0 fuel ctx gen_ctx b v mo ol h commit genp C H proof extra :
  ctx_ok ctx -> ge_rep commit C -> C <> Inf -> ge_rep genp H -> H <> Inf -> Forall is_byte proof ->
  Z.of_nat (length proof) < 2 ^ 60 -> Forall is_byte (octets_at extra) ->
  Z.of_nat (length (octets_at extra)) < 2 ^ 60 ->
  let '(ok, h') := secp256k1_rangeproof_getheader_impl
    (Header 0 (h_exp h) (h_mantissa h) (h_scale h) (h_min h) (h_max h)) proof in
  forall Ds, (ok = true -> range_digits proof (Z.to_nat (h_offset h')) (length (fst (rings_of (h_mantissa h')))) = Some Ds) ->
  exists valid, secp256k1_rangeproof_verify_impl junk junk_ints junk_scalar sha0 hmac0 fuel ctx gen_ctx b v mo ol
      None h commit proof extra genp = Some (valid, VerifyOut (h_min h') (h_max h') b v mo ol) /\
    (valid = true <-> ok = true /\ range_valid C H (octets_at extra) h' proof Ds).
Proof.
  intros HC RC FC RH FH Bp Lp Be Le. unfold secp256k1_rangeproof_verify_impl.
  destruct (secp256k1_rangeproof_getheader_impl _ proof) as [ok h'] eqn:EH. intros Ds HD.
  destruct ok; cbn [negb]; [|exists false; split; [reflexivity|]; split; [discriminate|intros [E _]; discriminate E]].
  destruct (getheader_sound _ proof h' Bp (eq_refl : h_offset (Header 0 _ _ _ _ _) = 0) EH) as [L Hh]. specialize (HD eq_refl).
  pose proof (verify_rest_spec C H commit genp proof RC FC RH FH Bp ctx HC h' Hh (conj L Lp) extra Be Le Hints None Ds HD) as V.
  destruct (verify_rest _ _ _ _ _ _ _ _ _ _ _) as [[[ret ev] s]|].
  - exists ret. destruct V as (V & _). split; [now destruct ret|]. rewrite V. tauto.
  - exists false. split; [reflexivity|]. split; [discriminate|]. intros [_ R]. now destruct V.
Qed.

(** C1: the verification of a range proof, at the interface. For a commitment to C
    under the generator H, and a proof whose digit commitments are points, the
    result is 1 exactly when the header is accepted and the proof is valid for
    it: of the right length, without stray sign bits, all numbers below n, and
    with its rings over the points D_i - j 4^i 10^exp H signed, where the last
    D_i is C - min H minus the others. The range at the pointers is that of the header. *)
Theorem rangeproof_verify_decides hmac0 ctx min0 max0 h commit gen C H proof extra len :
  ctx_ok (ecmult_ctx ctx) -> commits_to commit C -> ge_rep (secp256k1_generator_load gen) H -> H <> Inf ->
  Forall is_byte proof -> Z.of_nat (length proof) < 2 ^ 60 ->
  Forall is_byte (octets_at (prefix_of extra len)) -> Z.of_nat (length (octets_at (prefix_of extra len))) < 2 ^ 60 ->
  (extra = None -> len = O) ->
  let '(ok, h') := secp256k1_rangeproof_getheader_impl
    (Header 0 (h_exp h) (h_mantissa h) (h_scale h) min0 max0) proof in
  forall Ds, (ok = true -> range_digits proof (Z.to_nat (h_offset h')) (length (fst (rings_of (h_mantissa h')))) = Some Ds) ->
  exists valid, secp256k1_rangeproof_verify junk junk_ints junk_scalar sha0 hmac0 ctx (Some min0) (Some max0) h
      (Some commit) (Some proof) (length proof) extra len (Some gen)
    = Some (Api valid (Some (h_min h'), Some (h_max h')) []) /\
    (valid = true <-> ok = true /\ range_valid C H (octets_at (prefix_of extra len)) h' proof Ds).
Proof.
  intros HC [FC RC] RH FH Bp Lp Be Le Hlen. unfold secp256k1_rangeproof_verify. rewrite (proj1 HC), firstn_all.
  replace (not_null extra || Nat.eqb len 0) with true
    by (destruct extra; [reflexivity|rewrite (Hlen eq_refl); reflexivity]). cbn [negb].
  pose proof (verify_impl_spec hmac0 0 (ecmult_ctx ctx) None None None None None
    (Header 0 (h_exp h) (h_mantissa h) (h_scale h) min0 max0) _ _ C H proof (prefix_of extra len)
    HC RC FC RH FH Bp Lp Be Le) as V. cbn [h_exp h_mantissa h_scale h_min h_max] in V.
  destruct (secp256k1_rangeproof_getheader_impl _ proof) as [ok h']. intros Ds HD.
  destruct (V Ds HD) as (valid & -> & E). exists valid. split; [reflexivity|exact E].
Qed.

End Verify.

(** ** Witnesses *)

#[local] Existing Instance field_5x52.
#[local] Existing Instance scalar_4x64.

(** The proof of 65 zeros says nothing about a range and is not valid: its
    header is accepted. *)
Lemma rangeproof_verify_decides_witness : exists ctx valid,
  secp256k1_rangeproof_verify zero_gej (repeat 0 33) (s_set_int 0) blank_sha blank_hmac ctx (Some 0) (Some 0)
    no_header (Some (quad_bytes 9 G_point)) (Some (repeat 0 65)) 65 None 0 (Some secp256k1_generator_h_internal)
  = Some (Api valid (Some 0, Some 0) []) /\
  (valid = true <-> true = true /\
     range_valid G_point H_point [] (Header 1 (-1) 0 1 0 0) (repeat 0 65) []).
Proof.
  destruct full_context as (ctx & _ & _ & C). exists ctx.
  assert (B : Forall is_byte (repeat 0 65))
    by (apply Forall_forall; intros x Hx; apply repeat_spec in Hx; subst x; unfold is_byte; lia).
  exact (rangeproof_verify_decides zero_gej (repeat 0 33) (s_set_int 0) blank_sha zero_gej_mags blank_ok eq_refl
    blank_hmac ctx 0 0 no_header (quad_bytes 9 G_point) secp256k1_generator_h_internal G_point H_point (repeat 0 65)
    None 0 C (commits_quad G_point (proj1 (proj2 const_g_rep)) ltac:(discriminate)) (proj1 HJ_loads)
    ltac:(discriminate) B eq_refl (Forall_nil _) eq_refl (fun _ => eq_refl) [] (fun _ => eq_refl)).
Defined.
