(* ===== verification/RangeproofRandom.v ===== *)
(** * modules/rangeproof/rangeproof_impl.h: the random numbers of a prover

    [secp256k1_rangeproof_genrand] draws the blinding factors of the digits and
    the numbers of the rings from the generator seeded with the nonce, the
    commitment, the generator point and the header: the prover and whoever
    rewinds the proof draw the same.  What is drawn is described on the sequence
    of outputs of the generator. *)
From S2P Require Import Field5x52 Scalar4x64.
From S2P Require Import Prelude Primes FieldSpec Field ScalarSpec Scalar Sha256Spec Hash.
From S2P Require Import CurveSpec CurveGroup CurveOrder CurveCount Residue Svdw Group.
From S2P Require Import Ecmult EcmultGen EcmultConst EcmultProperties Ecdsa Eckey Der Api.
From S2P Require Import EcdsaProperties ApiProperties Generator Pedersen PedersenProperties RangeParams Borromean.
From S2P Require Import Rangeproof RangeproofVerify.

(** ** Bytes in a buffer *)

Lemma nth_overwrite buf off src k : (off + length src <= length buf)%nat ->
  nth k (overwrite buf off src) 0 =
  if Nat.leb off k && Nat.ltb k (off + length src) then nth (k - off) src 0 else nth k buf 0.
Proof.
  intros L. unfold overwrite. assert (Lf : length (firstn off buf) = off) by (rewrite length_firstn; lia).
  destruct (Nat.leb_spec off k) as [H1|H1]; cbn [andb].
  - rewrite app_nth2, Lf by lia. destruct (Nat.ltb_spec k (off + length src)) as [H2|H2].
    + now rewrite app_nth1 by lia.
    + rewrite app_nth2, nth_skipn by lia. f_equal. lia.
  - rewrite app_nth1, nth_firstn by lia. now rewrite (proj2 (Nat.ltb_lt _ _) H1).
Qed.

Lemma nth_slice (l : bytes) off len k : (k < len)%nat -> nth k (slice l off len) 0 = nth (off + k) l 0.
Proof. intros H. unfold slice. rewrite nth_firstn, (proj2 (Nat.ltb_lt _ _) H), nth_skipn. reflexivity. Qed.

Lemma length_slice_min (l : bytes) off len : length (slice l off len) = Nat.min len (length l - off).
Proof. unfold slice. now rewrite length_firstn, length_skipn. Qed.

Lemma slice_overwrite_same buf off src : (off + length src <= length buf)%nat ->
  slice (overwrite buf off src) off (length src) = src.
Proof.
  intros L. unfold slice, overwrite. rewrite skipn_app_exact by (rewrite length_firstn; lia).
  now apply firstn_app_exact.
Qed.

Lemma slice_overwrite_other buf off src o n : (off + length src <= length buf)%nat ->
  (o + n <= length buf)%nat -> (o + n <= off \/ off + length src <= o)%nat ->
  slice (overwrite buf off src) o n = slice buf o n.
Proof.
  intros L L2 D. pose proof (length_overwrite buf off src L) as LO.
  apply (nth_ext _ _ 0 0); rewrite !length_slice_min, LO; [reflexivity|]. intros k Hk.
  rewrite !nth_slice, nth_overwrite by lia.
  destruct (Nat.leb_spec off (o + k)), (Nat.ltb_spec (o + k) (off + length src)); cbn [andb]; reflexivity || lia.
Qed.

(** ** Masks *)

Lemma length_xor a b : length (xor_bytes a b) = Nat.min (length a) (length b).
Proof. unfold xor_bytes. now rewrite length_map, length_combine. Qed.

Lemma nth_xor a b k : length a = length b -> nth k (xor_bytes a b) 0 = nth k a 0 .^ nth k b 0.
Proof.
  unfold xor_bytes. revert b k. induction a as [|x a IH]; intros [|y b] k E; try discriminate E.
  - now destruct k.
  - destruct k as [|k]; [reflexivity|]. apply (IH b k). cbn [length] in E. lia.
Qed.

Lemma xor_bytes_byte a b : Forall is_byte a -> Forall is_byte b -> Forall is_byte (xor_bytes a b).
Proof.
  unfold xor_bytes. intros Ha. revert b. induction Ha as [|x a Hx _ IH]; intros [|y b] Hb; try constructor.
  - inversion Hb; subst. unfold is_byte in *. apply (lxor_range x y 8); [lia|exact Hx|assumption].
  - apply IH. now inversion Hb.
Qed.

Lemma xor_b32 a b : is_b32 a -> is_b32 b -> is_b32 (xor_bytes a b).
Proof.
  intros [La Ba] [Lb Bb]. split; [rewrite length_xor, La, Lb; reflexivity|now apply xor_bytes_byte].
Qed.

(** Masking twice gives the bytes back. *)
Lemma xor_twice a b : length a = length b -> xor_bytes a (xor_bytes a b) = b.
Proof.
  intros E. apply (nth_ext _ _ 0 0); [rewrite !length_xor, E; lia|]. intros k Hk.
  rewrite !nth_xor by (rewrite ?length_xor; lia). now rewrite <- Z.lxor_assoc, Z.lxor_nilpotent.
Qed.

Lemma xor_comm a b : length a = length b -> xor_bytes a b = xor_bytes b a.
Proof.
  intros E. apply (nth_ext _ _ 0 0); [rewrite !length_xor, E; lia|]. intros k Hk.
  rewrite !nth_xor by lia. apply Z.lxor_comm.
Qed.

Lemma xor_zeros a : xor_bytes a (repeat 0 (length a)) = a.
Proof.
  apply (nth_ext _ _ 0 0); [rewrite length_xor, repeat_length; lia|]. intros k Hk.
  rewrite nth_xor by (now rewrite repeat_length). rewrite nth_repeat. apply Z.lxor_0_r.
Qed.

Section Random.
Context {F : FieldImpl} {SI : ScalarImpl} (junk_scalar : scalar) (sha0 : sha256_t) (hmac0 : hmac_sha256_t).
Context (Hs0 : buf_ok sha0) (Hi : buf_ok (inner hmac0)) (Ho : buf_ok (outer hmac0)).

#[local] Abbreviation zero := (s_set_int 0).

(** ** What is drawn

    For every ring the blinding factor, 0 for the last one, and a block for each
    member; the outputs of the generator are used from number [pos] on, and one
    before each blinding factor is thrown away. *)
Definition blocks (seed : bytes) (pos n : nat) : list bytes := map (drbg_block seed) (seq pos n).

Fixpoint ring_draws (fuel : nat) (seed : bytes) (rsizes : list nat) (pos : nat)
    : option (list (Z * list bytes)) :=
  match rsizes with
  | [] => Some []
  | n :: rsizes =>
    match rsizes with
    | [] => Some [(0, blocks seed pos n)]
    | _ :: _ =>
      match first_ok (block_below n_order) seed (S pos) fuel with
      | None => None
      | Some k =>
        match ring_draws fuel seed rsizes (S k + n) with
        | None => None
        | Some l => Some ((be_val (drbg_block seed k), blocks seed (S k) n) :: l)
        end
      end
    end
  end.

(** All blocks, in the order of the members. *)
Definition member_blocks (draws : list (Z * list bytes)) : list bytes := concat (map snd draws).

(** The number of member [c] before it is read as a scalar: the block masked
    with the message. *)
Definition masked (m : bytes) (c : nat) (block : bytes) : bytes := xor_bytes block (slice m (c * 32) 32).

Definition good (b : bytes) : bool := (0 <? be_val b) && (be_val b <? n_order).

Lemma good_test b : is_b32 b -> let '(x, overflow) := s_set_b32 b in
  sok x /\ sval x = be_val b mod n_order /\ negb (overflow || s_is_zero x) = good b.
Proof.
  intros [L B]. pose proof (s_set_b32_ok b B L) as S. destruct (s_set_b32 b) as [x o].
  destruct S as (Ox & Vx & ->). split; [exact Ox|]. split; [exact Vx|]. rewrite (s_is_zero_ok _ Ox), Vx.
  unfold good. pose proof (proj1 (be_val_range b B)) as N.
  destruct (Z.leb_spec n_order (be_val b)) as [H|H]; cbn [orb negb].
  - rewrite (proj2 (Z.ltb_ge _ _) H). now rewrite andb_false_r.
  - rewrite Z.mod_small, (proj2 (Z.ltb_lt _ _) H), andb_true_r by lia.
    destruct (Z.eqb_spec (be_val b) 0), (Z.ltb_spec 0 (be_val b)); reflexivity || lia.
Qed.

(** All numbers from member [c] on are scalars other than 0. *)
Fixpoint all_good (m : bytes) (c : nat) (bl : list bytes) : bool :=
  match bl with [] => true | b :: bl => good (masked m c b) && all_good m (S c) bl end.

Lemma all_good_ext m m' bl : forall c,
  (forall t, (t < length bl)%nat -> slice m ((c + t) * 32) 32 = slice m' ((c + t) * 32) 32) ->
  all_good m c bl = all_good m' c bl.
Proof.
  induction bl as [|b bl IH]; intros c E; [reflexivity|]. cbn [all_good length] in *. f_equal.
  - unfold masked. pose proof (E O ltac:(lia)) as E0. rewrite Nat.add_0_r in E0. now rewrite E0.
  - apply IH. intros t Ht. rewrite Nat.add_succ_comm. apply E. lia.
Qed.

(** The numbers [c], [c] + 1, ... for the blocks, in the message and as scalars. *)
Record numbered (s : list scalar) (m : bytes) (c : nat) (bl : list bytes) (s' : list scalar) (m' : bytes) : Prop := {
  nb_length : length s' = length s /\ length m' = length m;
  nb_bytes : Forall is_byte m';
  nb_other_s : forall d, (d < c \/ c + length bl <= d)%nat -> nth d s' zero = nth d s zero;
  nb_other_m : forall d, (d < c \/ c + length bl <= d)%nat -> (32 * (d + 1) <= length m)%nat ->
    slice m' (d * 32) 32 = slice m (d * 32) 32;
  nb_s : forall t, (t < length bl)%nat -> sok (nth (c + t) s' zero) /\
    sval (nth (c + t) s' zero) = be_val (masked m (c + t) (nth t bl [])) mod n_order;
  nb_m : forall t, (t < length bl)%nat ->
    slice m' ((c + t) * 32) 32 = masked m (c + t) (nth t bl [])
}.

Lemma genrand_ring_spec seed i n : forall rng s m ret j pos, rng_at rng seed pos -> (j + n <= 4)%nat ->
  (4 * i + j + n <= length s)%nat -> Forall is_byte m -> (32 * (4 * i + j + n) <= length m)%nat ->
  let c := (4 * i + j)%nat in let bl := blocks seed pos n in
  exists rng' s' m', genrand_ring sha0 hmac0 rng s (Some m) ret i j n c
    = (rng', s', Some m', ret && all_good m c bl, (c + n)%nat)
    /\ rng_at rng' seed (pos + n) /\ numbered s m c bl s' m'.
Proof.
  induction n as [|n IH]; intros rng s m ret j pos HR Hj Hls Bm Hlm c bl; cbn [genrand_ring].
  { exists rng, s, m. unfold bl, blocks. cbn [seq map all_good]. rewrite andb_true_r, !Nat.add_0_r.
    split; [reflexivity|]. split; [exact HR|].
    split; try reflexivity; try assumption; try (intros t Ht; cbn in Ht; lia). split; reflexivity. }
  destruct (rng_at_generate hmac0 sha0 Hi Ho Hs0 rng seed pos HR) as (rng1 & -> & HR1 & HB).
  set (b := drbg_block seed pos) in *. replace ((i * 4 + j) * 32)%nat with (c * 32)%nat by (unfold c; lia).
  fold (masked m c b). set (x0 := masked m c b).
  destruct (slice_ok m (c * 32) 32 Bm ltac:(unfold c; lia)) as [Bs Ls].
  assert (Hx : is_b32 x0) by exact (xor_b32 b _ HB (conj Ls Bs)).
  pose proof (good_test x0 Hx) as G. destruct (s_set_b32 x0) as [x o]. destruct G as (Ox & Vx & ->).
  set (s1 := upd s c x). set (m1 := overwrite m (c * 32) x0).
  assert (Lm1 : length m1 = length m) by (apply length_overwrite; rewrite (proj1 Hx); unfold c; lia).
  destruct (IH rng1 s1 m1 (ret && good x0) (S j) (S pos) HR1 ltac:(lia) ltac:(unfold s1; rewrite length_upd; lia)
    (overwrite_byte _ _ _ Bm (proj2 Hx)) ltac:(lia)) as (rng' & s' & m' & E & HR' & [N1 N2 N3 N4 N5 N6]).
  assert (Lbl : length (blocks seed (S pos) n) = n) by (unfold blocks; now rewrite length_map, length_seq).
  rewrite Lbl in *. replace (4 * i + S j)%nat with (c + 1)%nat in * by (unfold c; lia).
  assert (Sl : forall d, d <> c -> (32 * (d + 1) <= length m)%nat -> slice m1 (d * 32) 32 = slice m (d * 32) 32).
  { intros d Hd Hl. apply slice_overwrite_other; rewrite ?(proj1 Hx); unfold c in *; lia. }
  assert (Ns : forall d, nth d s1 zero = if Nat.eqb c d then x else nth d s zero)
    by (intros d; apply nth_upd; unfold c; lia).
  exists rng', s', m'. rewrite E. split; [|split].
  - apply f_equal2; [|lia]. f_equal. unfold bl, blocks. cbn [seq map all_good]. fold b x0. rewrite <- andb_assoc. do 2 f_equal.
    rewrite Nat.add_1_r. apply all_good_ext. rewrite length_map, length_seq. intros t Ht. apply Sl; unfold c; lia.
  - replace (pos + S n)%nat with (S pos + n)%nat by lia. exact HR'.
  - unfold bl, blocks. cbn [seq map]. fold b. split; cbn [length]; rewrite ?length_map, ?length_seq.
    + unfold s1 in N1. rewrite length_upd in N1. rewrite Lm1 in N1. exact N1.
    + exact N2.
    + intros d Hd. rewrite N3, Ns by lia. now rewrite (proj2 (Nat.eqb_neq _ _)) by lia.
    + intros d Hd Hl. rewrite N4 by lia. apply Sl; [lia|exact Hl].
    + intros [|t] Ht; cbn [nth].
      * rewrite Nat.add_0_r, N3, Ns, Nat.eqb_refl by lia. now split.
      * replace (c + S t)%nat with (c + 1 + t)%nat by lia. destruct (N5 t ltac:(lia)) as [O5 V5]. split; [exact O5|].
        rewrite V5. fold (blocks seed (S pos) n). unfold masked. rewrite Sl by (unfold c in *; lia). reflexivity.
    + intros [|t] Ht; cbn [nth].
      * rewrite Nat.add_0_r, N4 by (unfold c in *; lia).
        pose proof (slice_overwrite_same m (c * 32) x0) as SO. rewrite (proj1 Hx) in SO. apply SO. unfold c; lia.
      * replace (c + S t)%nat with (c + 1 + t)%nat by lia. rewrite (N6 t ltac:(lia)). fold (blocks seed (S pos) n). unfold masked.
        rewrite Sl by (unfold c in *; lia). reflexivity.
Qed.

Lemma numbered_app s m c a b s1 m1 s2 m2 : (32 * (c + length a + length b) <= length m)%nat ->
  numbered s m c a s1 m1 -> numbered s1 m1 (c + length a) b s2 m2 -> numbered s m c (a ++ b) s2 m2.
Proof.
  intros L [[A1 A1'] A2 A3 A4 A5 A6] [[B1 B1'] B2 B3 B4 B5 B6]. split; rewrite ?length_app.
  - now rewrite B1, B1'.
  - exact B2.
  - intros d Hd. now rewrite B3, A3 by lia.
  - intros d Hd Hl. now rewrite B4, A4 by lia.
  - intros t Ht. destruct (Nat.lt_ge_cases t (length a)) as [H|H].
    + rewrite app_nth1, B3 by lia. now apply A5.
    + rewrite app_nth2 by exact H. destruct (B5 (t - length a)%nat ltac:(lia)) as [O V].
      replace (c + length a + (t - length a))%nat with (c + t)%nat in * by lia. split; [exact O|].
      rewrite V. unfold masked. now rewrite A4 by lia.
  - intros t Ht. destruct (Nat.lt_ge_cases t (length a)) as [H|H].
    + rewrite app_nth1, B4 by lia. now apply A6.
    + rewrite app_nth2 by exact H. pose proof (B6 (t - length a)%nat ltac:(lia)) as V.
      replace (c + length a + (t - length a))%nat with (c + t)%nat in * by lia.
      rewrite V. unfold masked. now rewrite A4 by lia.
Qed.

Lemma all_good_app m c a b : all_good m c (a ++ b) = all_good m c a && all_good m (c + length a) b.
Proof.
  revert c. induction a as [|x a IH]; intros c; cbn [app all_good length]; [now rewrite Nat.add_0_r|].
  rewrite IH, Nat.add_succ_comm. apply andb_assoc.
Qed.

Lemma blocks_length seed pos n : length (blocks seed pos n) = n.
Proof. unfold blocks. now rewrite length_map, length_seq. Qed.

(** What the rings from [i] on have drawn. *)
Record drawn (sec : list scalar) (acc : scalar) (i : nat) (draws : list (Z * list bytes)) (sec' : list scalar)
    : Prop := {
  dr_length : length sec' = length sec;
  dr_low : forall k, (k < i)%nat -> nth k sec' zero = nth k sec zero;
  dr_ok : forall k, (k < length draws)%nat -> sok (nth (i + k) sec' zero);
  dr_value : forall k, (S k < length draws)%nat -> sval (nth (i + k) sec' zero) = fst (nth k draws (0, []));
  dr_last : sval (nth (i + (length draws - 1)) sec' zero) =[n_order]= - (sval acc + zsum fst draws)
}.

Lemma drawn_cons sec acc acc' i x v bl draws sec' : (i < length sec)%nat -> (1 <= length draws)%nat ->
  sok x -> sval x = v -> sval acc' = (sval acc + sval x) mod n_order ->
  drawn (upd sec i x) acc' (S i) draws sec' -> drawn sec acc i ((v, bl) :: draws) sec'.
Proof.
  intros Hi' Hd Ox Vx Va [D1 D2 D3 D4 D5]. rewrite length_upd in D1.
  assert (Nu : forall k, nth k (upd sec i x) zero = if Nat.eqb i k then x else nth k sec zero)
    by (intros k; now apply nth_upd).
  assert (Ei : nth i sec' zero = x) by (rewrite D2, Nu, Nat.eqb_refl by lia; reflexivity).
  split; cbn [length].
  - exact D1.
  - intros k Hk. rewrite D2, Nu by lia. now rewrite (proj2 (Nat.eqb_neq _ _)) by lia.
  - intros [|k] Hk; [now rewrite Nat.add_0_r, Ei|]. rewrite Nat.add_succ_r. apply D3. lia.
  - intros [|k] Hk; cbn [nth fst]; [now rewrite Nat.add_0_r, Ei|]. rewrite Nat.add_succ_r. apply D4. lia.
  - replace (i + (S (length draws) - 1))%nat with (S i + (length draws - 1))%nat by lia.
    rewrite D5, zsum_cons, Va, cong_mod, Vx. apply cong_eq. cbn [fst]. ring.
Qed.

Lemma ring_draws_length fuel seed rsizes : forall pos draws, ring_draws fuel seed rsizes pos = Some draws ->
  length draws = length rsizes /\ length (member_blocks draws) = total rsizes.
Proof.
  unfold member_blocks, total. induction rsizes as [|n rsizes IH]; intros pos draws E; cbn [ring_draws] in E.
  - injection E as <-. split; reflexivity.
  - destruct rsizes as [|n' rsizes].
    + injection E as <-. cbn. rewrite length_app, blocks_length. split; reflexivity.
    + destruct (first_ok _ _ _ _) as [k|]; [|discriminate E].
      destruct (ring_draws fuel seed (n' :: rsizes) _) as [l|] eqn:El; [|discriminate E]. injection E as <-.
      destruct (IH _ _ El) as [I1 I2]. cbn [map snd concat length fold_right] in *.
      rewrite length_app, blocks_length, I1, I2. split; reflexivity.
Qed.

Lemma genrand_last seed n i rng sec s m ret acc pos fuel : rng_at rng seed pos -> (n <= 4)%nat ->
  (S i <= length sec)%nat -> (4 * i + n <= length s)%nat -> Forall is_byte m ->
  (32 * (4 * i + n) <= length m)%nat -> sok acc ->
  exists sec' s' m', genrand_rings sha0 hmac0 fuel rng sec s (Some m) ret acc [n] i (4 * i)
    = Some (ret && all_good m (4 * i) (blocks seed pos n), sec', s', Some m') /\
    numbered s m (4 * i) (blocks seed pos n) s' m' /\ drawn sec acc i [(0, blocks seed pos n)] sec'.
Proof.
  intros HR Hn Hsec Hs Bm Hm Ha. cbn [genrand_rings]. destruct (s_negate_ok _ Ha) as [On Vn].
  destruct (genrand_ring_spec seed i n rng s m ret 0 pos HR ltac:(lia) ltac:(lia) Bm ltac:(lia))
    as (rng' & s' & m' & E & _ & N). rewrite Nat.add_0_r in *. rewrite E.
  assert (Nu : forall k, nth k (upd sec i (s_negate acc)) zero = if Nat.eqb i k then s_negate acc else nth k sec zero)
    by (intros k; apply nth_upd; lia).
  exists (upd sec i (s_negate acc)), s', m'. split; [reflexivity|]. split; [exact N|]. split; cbn [length Nat.sub].
  - apply length_upd.
  - intros k Hk. rewrite Nu. now rewrite (proj2 (Nat.eqb_neq _ _)) by lia.
  - intros k Hk. rewrite Nu. replace (i + k)%nat with i by lia. now rewrite Nat.eqb_refl.
  - intros k Hk. lia.
  - rewrite Nat.add_0_r, Nu, Nat.eqb_refl, Vn. unfold zsum. cbn [map fst fold_right].
    rewrite cong_mod. apply cong_eq. ring.
Qed.

(** A ring that is not the last. *)
Lemma ring_draws_step fuel seed n n' rsizes pos : ring_draws fuel seed (n :: n' :: rsizes) pos =
  match first_ok (block_below n_order) seed (S pos) fuel with
  | None => None
  | Some k =>
    match ring_draws fuel seed (n' :: rsizes) (S k + n) with
    | None => None
    | Some l => Some ((be_val (drbg_block seed k), blocks seed (S k) n) :: l)
    end
  end.
Proof. reflexivity. Qed.

Lemma genrand_rings_step fuel rng sec s m ret acc n n' rsizes i npub :
  genrand_rings sha0 hmac0 fuel rng sec s m ret acc (n :: n' :: rsizes) i npub =
  let '(rng, _) := secp256k1_rfc6979_hmac_sha256_generate hmac0 sha0 rng 32 in
  match draw_scalar hmac0 sha0 fuel rng with
  | None => None
  | Some (x, rng) =>
    let '(rng, s, m, ret, npub) := genrand_ring sha0 hmac0 rng s m ret i 0 n npub in
    genrand_rings sha0 hmac0 fuel rng (upd sec i x) s m ret (fst (s_add acc x)) (n' :: rsizes) (S i) npub
  end.
Proof.
  cbn [genrand_rings]. destruct (secp256k1_rfc6979_hmac_sha256_generate hmac0 sha0 rng 32) as [rng' b].
  now destruct (draw_scalar hmac0 sha0 fuel rng') as [[x rng'']|].
Qed.

Lemma genrand_rings_spec fuel seed rsizes : ring_sizes rsizes ->
  forall i rng sec s m ret acc pos, rng_at rng seed pos -> (i + length rsizes <= length sec)%nat ->
  (4 * i + total rsizes <= length s)%nat -> Forall is_byte m -> (32 * (4 * i + total rsizes) <= length m)%nat -> sok acc ->
  let r := genrand_rings sha0 hmac0 fuel rng sec s (Some m) ret acc rsizes i (4 * i) in
  match ring_draws fuel seed rsizes pos with
  | None => r = None
  | Some draws => exists sec' s' m',
      r = Some (ret && all_good m (4 * i) (member_blocks draws), sec', s', Some m') /\
      numbered s m (4 * i) (member_blocks draws) s' m' /\ drawn sec acc i draws sec'
  end.
Proof.
  induction rsizes as [|n rsizes IH]; [intros []|]. intros Hr i rng sec s m ret acc pos HR Hsec Hs Bm Hm Ha r.
  unfold r. clear r. destruct rsizes as [|n' rsizes].
  { cbn [ring_draws]. unfold total in *. cbn [fold_right length] in *. unfold member_blocks. cbn [map snd concat].
    rewrite app_nil_r. apply genrand_last; try assumption; [exact (proj2 Hr)|lia|lia|lia]. }
  destruct Hr as [-> Hr]. rewrite genrand_rings_step, ring_draws_step.
  destruct (rng_at_generate hmac0 sha0 Hi Ho Hs0 rng seed pos HR) as (rng1 & -> & HR1 & _).
  pose proof (draw_scalar_spec hmac0 sha0 Hi Ho Hs0 fuel rng1 seed (S pos) HR1) as D.
  destruct (first_ok _ _ _ _) as [k|]; [|now rewrite D].
  destruct D as (x & rng2 & -> & HR2 & Ox & Vx & _).
  pose proof (s_add_ok acc x Ha Ox) as A. destruct (s_add acc x) as [acc' o]. destruct A as (Oa & Va & _). cbn [fst].
  cbn [total fold_right length] in *. fold (total (n' :: rsizes)) in *.
  destruct (genrand_ring_spec seed i 4 rng2 s m ret 0 (S k) HR2 ltac:(lia) ltac:(lia) Bm ltac:(lia))
    as (rng3 & s1 & m1 & E & HR3 & N1). rewrite Nat.add_0_r in *. rewrite E.
  pose proof (nb_length _ _ _ _ _ _ N1) as [L1 L1']. pose proof (nb_bytes _ _ _ _ _ _ N1) as B1.
  replace (4 * i + 4)%nat with (4 * S i)%nat by lia.
  specialize (IH Hr (S i) rng3 (upd sec i x) s1 m1 (ret && all_good m (4 * i) (blocks seed (S k) 4)) acc' (S k + 4)%nat
    HR3 ltac:(rewrite length_upd; cbn [length]; lia) ltac:(lia) B1 ltac:(lia) Oa). cbv zeta in IH.
  destruct (ring_draws fuel seed (n' :: rsizes) (S k + 4)) as [draws|] eqn:EQ; [|exact IH].
  destruct IH as (sec' & s' & m' & -> & N2 & D2). destruct (ring_draws_length _ _ _ _ _ EQ) as [LD LM].
  unfold member_blocks in *. cbn [map snd concat]. set (bl := concat (map snd draws)) in *.
  pose proof (blocks_length seed (S k) 4) as L4. set (b4 := blocks seed (S k) 4) in *.
  cbn [total fold_right length] in LD, LM.
  assert (NA : numbered s m (4 * i) (b4 ++ bl) s' m').
  { apply (numbered_app s m (4 * i) b4 bl s1 m1); [lia|exact N1|]. rewrite L4.
    replace (4 * i + 4)%nat with (4 * S i)%nat by lia. exact N2. }
  exists sec', s', m'. split; [|split; [exact NA|]].
  - rewrite all_good_app, L4, andb_assoc. replace (4 * i + 4)%nat with (4 * S i)%nat by lia. do 3 f_equal.
    apply f_equal2; [|reflexivity]. f_equal. apply all_good_ext. intros t Ht.
    apply (nb_other_m _ _ _ _ _ _ N1); [right; rewrite L4; lia|lia].
  - exact (drawn_cons sec acc acc' i x _ b4 draws sec' ltac:(lia) ltac:(lia) Ox Vx Va D2).
Qed.

(** What seeds the generator. *)
Definition range_seed (nonce : bytes) (C H : point) (hdr : bytes) : bytes :=
  slice nonce 0 32 ++ quad_bytes 1 C ++ quad_bytes 1 H ++ hdr.

Lemma genrand_spec fuel m rsizes nonce commit genp C H proof len : ring_sizes rsizes ->
  (length rsizes <= 32)%nat -> Forall is_byte m -> length m = 4096%nat -> Forall is_byte nonce ->
  ge_rep commit C -> C <> Inf -> ge_rep genp H -> H <> Inf -> Forall is_byte proof -> (len <= 10)%nat ->
  let r := secp256k1_rangeproof_genrand junk_scalar sha0 hmac0 fuel (repeat junk_scalar 32) (repeat junk_scalar 128)
             (Some m) rsizes (length rsizes) nonce commit proof len genp in
  match ring_draws fuel (range_seed nonce C H (firstn len proof)) rsizes 0 with
  | None => r = None
  | Some draws => exists sec s m', r = Some (all_good m 0 (member_blocks draws), sec, s, Some m') /\
      numbered (repeat junk_scalar 128) m 0 (member_blocks draws) s m' /\
      drawn (repeat junk_scalar 32) (s_clear junk_scalar) 0 draws sec
  end.
Proof.
  intros Hr L32 Bm Lm Bn RC FC RH FH Bp Hl r. unfold r, secp256k1_rangeproof_genrand. cbv zeta.
  rewrite firstn_all, (serialize_point_ok _ _ RC FC), (serialize_point_ok _ _ RH FH).
  change (slice proof 0 len) with (firstn len proof). fold (range_seed nonce C H (firstn len proof)).
  set (seed := range_seed _ _ _ _). destruct (ring_sizes_total rsizes Hr) as (Et & Bl & _).
  assert (Bs : Forall is_byte seed).
  { repeat (apply Forall_app; split); [|apply quad_bytes1_ok, FC|apply quad_bytes1_ok, FH|now apply Forall_firstn].
    apply Forall_firstn, Forall_skipn, Bn. }
  assert (Ls : Z.of_nat (length seed) < 2 ^ 59).
  { unfold seed, range_seed, slice. rewrite !length_app, (proj2 (quad_bytes1_ok C FC)), (proj2 (quad_bytes1_ok H FH)),
      !length_firstn. lia. }
  apply (genrand_rings_spec fuel seed rsizes Hr 0 _ (repeat junk_scalar 32) (repeat junk_scalar 128) m true
    (s_clear junk_scalar) 0 (rng_at_init hmac0 sha0 Hi Ho Hs0 seed Bs Ls));
    rewrite ?repeat_length; try lia; [exact Bm|apply s_clear_ok].
Qed.
End Random.
