(* ===== verification/RangeproofBuffer.v ===== *)
(** * modules/rangeproof/rangeproof_impl.h: the bytes of a proof

    What the prover writes, piece by piece: serialised digits, sign bits, the
    buffer and its prefix, the message with the value, and the parameters of a
    proof with their header. *)
From S2P Require Import Field5x52 Scalar4x64.
From S2P Require Import Prelude Primes FieldSpec Field ScalarSpec Scalar Sha256Spec Hash.
From S2P Require Import CurveSpec CurveGroup CurveOrder CurveCount Residue Svdw Group.
From S2P Require Import Ecmult EcmultGen EcmultConst EcmultProperties Ecdsa Eckey Der Api.
From S2P Require Import EcdsaProperties ApiProperties Generator Pedersen PedersenProperties RangeParams Borromean.
From S2P Require Import Rangeproof RangeproofVerify RangeproofRandom.

(** ** Serialised digits *)

Definition is_neg (P : point) : bool := match P with Inf => false | Aff _ y => negb (squareb y) end.

Definition xcoord (P : point) : bytes := match P with Inf => [] | Aff x _ => be_bytes 32 x end.

Lemma quad_octets P : P <> Inf -> quad_bytes 1 P = b2z (is_neg P) :: xcoord P.
Proof.
  destruct P as [|x y]; [contradiction|]. intros _. unfold quad_bytes, is_neg, xcoord. now destruct (squareb y).
Qed.

Lemma xcoord_ok P : P <> Inf -> is_b32 (xcoord P).
Proof.
  destruct P as [|x y]; [contradiction|]. intros _. split; [apply length_be_bytes|apply be_bytes_byte].
Qed.

(** Reading back the sign and the abscissa. *)
Lemma quad_point_of P : on_curve P -> P <> Inf -> quad_point (is_neg P) (xcoord P) = Some P.
Proof.
  destruct P as [|x y]; [contradiction|]. intros Hc _. pose proof (y_nonzero x y Hc) as Ny.
  destruct Hc as (Hx & Hy & E). unfold quad_point, is_neg, xcoord.
  assert (Ex : be_val (be_bytes 32 x) mod p = x).
  { rewrite be_val_bytes, (Z.mod_small x (256 ^ _)), Z.mod_small; [reflexivity|exact Hx|].
    unfold in_fp, p in Hx. change (256 ^ Z.of_nat 32) with (2 ^ 256). lia. }
  rewrite Ex. clear Ex. cbv zeta. set (c := x * x * x + 7) in *.
  assert (Sq : is_square c) by (exists y; exact E). rewrite (proj2 (squareb_spec c) Sq).
  pose proof (fp_sqrt_ok c Sq) as Er. pose proof (fp_sqrt_square c) as Qr. pose proof (fp_sqrt_range c) as Rr.
  set (r := fp_sqrt c) in *. clearbody r c. assert (Ey : r * r =[p]= y * y) by (now rewrite Er, E).
  do 2 f_equal. destruct (squareb y) eqn:Q; cbn [negb].
  - apply squareb_spec in Q. apply in_fp_eq; [exact Rr|exact Hy|]. now apply square_root_unique.
  - apply squareb_false, (square_opp y Ny) in Q.
    assert (En : r =[p]= - y) by (apply square_root_unique; [rewrite Ey; apply cong_eq; ring|exact Qr|exact Q]).
    apply in_fp_eq; [apply in_fp_mod|exact Hy|]. rewrite cong_mod, En. apply cong_eq. ring.
Qed.

(** ** Sign bits *)

(** [n] bytes with the bits [sg], and zeros after them. *)
Record sign_bits (sb : bytes) (sg : list bool) (n : nat) : Prop := {
  sb_length : length sb = n;
  sb_bytes : Forall is_byte sb;
  sb_bits : forall k, (k < 8 * n)%nat -> Z.testbit (nth (k / 8) sb 0) (Z.of_nat (k mod 8)) = nth k sg false
}.

Lemma bits_start n : sign_bits (repeat 0 n) [] n.
Proof.
  split; [apply repeat_length| |].
  - apply Forall_forall. intros x Hx. apply repeat_spec in Hx. subst x. unfold is_byte. lia.
  - intros k _. rewrite nth_repeat, Z.bits_0. now destruct k.
Qed.

Lemma or_byte a q j : is_byte a -> 0 <= j < 8 -> let r := u8 (a .| (b2z q << j)) in
  is_byte r /\ forall t, 0 <= t < 8 -> Z.testbit r t = Z.testbit a t || (q && (t =? j)).
Proof.
  intros Ha Hj. cbv zeta. split.
  - unfold u8, is_byte. apply Z.mod_pos_bound. reflexivity.
  - intros t Ht. unfold u8. change 256 with (2 ^ 8). rewrite Z.mod_pow2_bits_low, Z.lor_spec, Z.shiftl_spec by lia.
    f_equal. destruct q; cbn [b2z andb]; [|apply Z.bits_0].
    change 1 with (2 ^ 0). destruct (Z.lt_ge_cases t j) as [L|L].
    + rewrite Z.testbit_neg_r by lia. symmetry. apply Z.eqb_neq. lia.
    + rewrite Z.pow2_bits_eqb by lia. destruct (Z.eqb_spec 0 (t - j)), (Z.eqb_spec t j); reflexivity || lia.
Qed.

Lemma bits_step sb sg n q : sign_bits sb sg n -> (length sg < 8 * n)%nat -> let i := length sg in
  sign_bits (upd sb (i / 8) (u8 (nth (i / 8) sb 0 .| (b2z q << Z.of_nat (i mod 8))))) (sg ++ [q]) n.
Proof.
  intros [L B S] Hi i. pose proof (Nat.mod_upper_bound i 8 ltac:(lia)) as M.
  pose proof (Nat.div_mod_eq i 8) as Di.
  destruct (or_byte (nth (i / 8) sb 0) q (Z.of_nat (i mod 8)) (nth_byte sb (i / 8) B) ltac:(lia)) as [Br Tr].
  set (r := u8 _) in *. split; [now rewrite length_upd|now apply Forall_upd|].
  intros k Hk. pose proof (Nat.mod_upper_bound k 8 ltac:(lia)) as Mk. pose proof (Nat.div_mod_eq k 8) as Dk.
  rewrite nth_upd by lia. specialize (S k Hk).
  destruct (Nat.eqb_spec (i / 8) (k / 8)) as [E|N].
  - rewrite Tr, E, S by lia. destruct (Z.eqb_spec (Z.of_nat (k mod 8)) (Z.of_nat (i mod 8))) as [E'|N'].
    + assert (k = i) by lia. subst k. rewrite (nth_overflow sg) by (unfold i; lia).
      rewrite app_nth2, Nat.sub_diag by (unfold i; lia). now destruct q.
    + rewrite andb_false_r, orb_false_r. destruct (Nat.lt_ge_cases k i) as [H|H]; [now rewrite app_nth1 by (exact H)|].
      rewrite !nth_overflow; [reflexivity|rewrite length_app; cbn [length]; unfold i in *; lia|exact H].
  - rewrite S. destruct (Nat.lt_ge_cases k i) as [H|H]; [now rewrite app_nth1 by (exact H)|].
    rewrite !nth_overflow; [reflexivity|rewrite length_app; cbn [length]; unfold i in *; lia|exact H].
Qed.

(** The bits of a byte from [j] on are zero. *)
Lemma byte_below b j : is_byte b -> 0 <= j < 8 -> (forall t, j <= t < 8 -> Z.testbit b t = false) -> b < 2 ^ j.
Proof.
  intros Hb Hj H. destruct (Z.lt_ge_cases b (2 ^ j)) as [|L]; [assumption|exfalso].
  unfold is_byte in Hb. pose proof (Z.pow_pos_nonneg 2 j ltac:(lia) ltac:(lia)) as P.
  assert (Lb : j <= Z.log2 b < 8).
  { split; [apply Z.log2_le_pow2; lia|]. change 8 with (Z.succ 7). apply Z.lt_succ_r. change 7 with (Z.log2 255).
    apply Z.log2_le_mono. lia. }
  pose proof (H _ Lb) as T. rewrite Z.bit_log2 in T by lia. discriminate T.
Qed.

(** ** The buffer *)

Lemma upd_app_r {A} (a b : list A) k v : upd (a ++ b) (length a + k) v = a ++ upd b k v.
Proof.
  unfold upd. rewrite firstn_app, skipn_app.
  rewrite (firstn_all2 a), (skipn_all2 a) by lia. replace (length a + k - length a)%nat with k by lia.
  now rewrite <- app_assoc.
Qed.

Lemma upd_app_l {A} (a b : list A) k v : (k < length a)%nat -> upd (a ++ b) k v = upd a k v ++ b.
Proof.
  intros H. unfold upd. rewrite firstn_app, skipn_app. replace (k - length a)%nat with O by lia.
  cbn [firstn skipn]. rewrite app_nil_r, <- app_assoc. f_equal.
  destruct (skipn k a) as [|x t] eqn:E; [|reflexivity].
  apply (f_equal (@length A)) in E. rewrite length_skipn in E. cbn in E. lia.
Qed.

(** The buffer starts with [pre], which is [len] bytes. *)
Definition starts (buf : bytes) (len : nat) (pre : bytes) : Prop := firstn len buf = pre /\ length pre = len.

Lemma starts_eq buf len pre : starts buf len pre -> buf = pre ++ skipn len buf.
Proof. intros [E _]. rewrite <- E. symmetry. apply firstn_skipn. Qed.

Lemma starts_app pre post : starts (pre ++ post) (length pre) pre.
Proof. split; [now apply firstn_app_exact|reflexivity]. Qed.

Lemma starts_write buf len pre src : starts buf len pre -> (len + length src <= length buf)%nat ->
  starts (overwrite buf len src) (len + length src) (pre ++ src) /\ length (overwrite buf len src) = length buf.
Proof.
  intros [E L] H. split; [|now apply length_overwrite]. split.
  - rewrite firstn_overwrite by exact H. now rewrite E.
  - rewrite length_app. lia.
Qed.

Lemma starts_upd buf len a b c k v : starts buf len (a ++ b ++ c) -> (k < length b)%nat ->
  starts (upd buf (length a + k) v) len (a ++ upd b k v ++ c).
Proof.
  intros S H. pose proof (starts_eq _ _ _ S) as E. destruct S as [_ L]. rewrite E.
  rewrite <- !app_assoc, upd_app_r, (upd_app_l b) by exact H.
  replace len with (length (a ++ upd b k v ++ c)) by (rewrite !length_app, length_upd in *; lia).
  rewrite (app_assoc (upd b k v)), (app_assoc a). apply starts_app.
Qed.

Lemma starts_nth buf len a b c k : starts buf len (a ++ b ++ c) -> (k < length b)%nat ->
  nth (length a + k) buf 0 = nth k b 0.
Proof.
  intros S H. rewrite (starts_eq _ _ _ S), <- !app_assoc, app_nth2, app_nth1 by lia. f_equal. lia.
Qed.

(** ** The message of the prover *)

(** The value between the mark and zeros, three times. *)
Definition value_block (v : Z) : bytes := [128; 0; 0; 0; 0; 0; 0; 0] ++ min_octets v ++ min_octets v ++ min_octets v.

Lemma value_block_ok v : is_b32 (value_block v).
Proof.
  unfold value_block. rewrite min_octets_eq. split.
  - rewrite !length_app, !length_be_bytes. reflexivity.
  - rewrite !Forall_app. pose proof (be_bytes_byte 8 v) as B. split; [|now repeat split].
    repeat (constructor; [unfold is_byte; lia|]). constructor.
Qed.

(** One turn, on the 32 bytes in question. *)
Definition encode_step (v i : Z) (b : bytes) : bytes :=
  let o := (v >> (56 - i * 8)) .& 255 in
  let i := Z.to_nat i in
  upd (upd (upd (upd b (24 + i) o) (16 + i) o) (8 + i) o) i 0.

Lemma encode_value_eq prep idx v : (idx + 32 <= length prep)%nat ->
  encode_value prep idx v = overwrite prep idx (value_block v).
Proof.
  intros L. set (a := firstn idx prep). set (b := slice prep idx 32). set (c := skipn (idx + 32) prep).
  assert (La : length a = idx) by (unfold a; rewrite length_firstn; lia).
  assert (Lb : length b = 32%nat) by (unfold b, slice; rewrite length_firstn, length_skipn; lia).
  assert (E : prep = a ++ b ++ c).
  { unfold a, b, c, slice. rewrite <- (firstn_skipn idx prep) at 1. f_equal.
    rewrite Nat.add_comm, <- skipn_skipn. symmetry. apply firstn_skipn. }
  assert (EO : overwrite prep idx (value_block v) = a ++ value_block v ++ c)
    by (unfold overwrite; now rewrite (proj1 (value_block_ok v))).
  rewrite EO. clear EO. rewrite E. clearbody a b c. clear E L prep. subst idx.
  assert (UM : forall x k w, (k < length x)%nat -> upd (a ++ x ++ c) (k + length a) w = a ++ upd x k w ++ c).
  { intros x k w Hk. rewrite Nat.add_comm, upd_app_r, upd_app_l by exact Hk. reflexivity. }
  assert (LP : forall n i x, length x = 32%nat -> 0 <= i -> i + Z.of_nat n <= 8 ->
    for_from i n (fun i prep => let b := (v >> (56 - i * 8)) .& 255 in let i := Z.to_nat i in
      upd (upd (upd (upd prep (24 + i + length a) b) (16 + i + length a) b) (8 + i + length a) b) (i + length a) 0)
      (a ++ x ++ c) = a ++ for_from i n (encode_step v) x ++ c /\ length (for_from i n (encode_step v) x) = 32%nat).
  { induction n as [|n IH]; intros i x Lx H0 H8; cbn [for_from]; [now split|].
    rewrite !UM by (rewrite ?length_upd; lia). apply IH; [|lia|lia]. unfold encode_step. now rewrite !length_upd. }
  destruct (LP 8%nat 0 b Lb ltac:(lia) ltac:(lia)) as [E8 L8]. unfold encode_value, for_loop. cbv zeta in *.
  rewrite E8. change (length a) with (0 + length a)%nat at 1. rewrite UM by lia. do 2 f_equal. clear - Lb.
  do 32 (destruct b as [|? b]; [discriminate Lb|]). destruct b; [|discriminate Lb]. reflexivity.
Qed.

(** The parts of a proof that starts with the digits [Ds] after [pre]. *)
Definition xcoords (Ds : list point) : bytes := concat (map xcoord Ds).

Lemma xcoords_length Ds : Forall (fun P => P <> Inf) Ds -> length (xcoords Ds) = (32 * length Ds)%nat.
Proof.
  induction 1 as [|P Ds HP _ IH]; [reflexivity|]. unfold xcoords in *. cbn [map concat length].
  rewrite length_app, IH, (proj1 (xcoord_ok P HP)). lia.
Qed.

Lemma xcoords_app a b : xcoords (a ++ b) = xcoords a ++ xcoords b.
Proof. unfold xcoords. now rewrite map_app, concat_app. Qed.

Lemma digits_found Ds post : Forall (fun P => on_curve P /\ P <> Inf) Ds -> forall pre offset,
  length pre = offset ->
  digit_points (pre ++ xcoords Ds ++ post) offset (map is_neg Ds) = Some Ds /\
  digit_octets (pre ++ xcoords Ds ++ post) offset (map is_neg Ds) = concat (map (quad_bytes 1) Ds).
Proof.
  induction 1 as [|P Ds [CP HP] _ IH]; intros pre offset L; [split; reflexivity|].
  destruct (xcoord_ok P HP) as [Lx _]. unfold xcoords. cbn [map concat digit_points digit_octets].
  rewrite <- app_assoc. fold (xcoords Ds).
  assert (S : slice (pre ++ xcoord P ++ xcoords Ds ++ post) offset 32 = xcoord P).
  { unfold slice. rewrite skipn_app_exact by exact L. now apply firstn_app_exact. }
  rewrite S, (quad_point_of P CP HP), (quad_octets P HP).
  destruct (IH (pre ++ xcoord P) (offset + 32)%nat) as [I1 I2]; [rewrite length_app; lia|].
  rewrite <- app_assoc in I1, I2. rewrite I1, I2. split; reflexivity.
Qed.

(** ** Parameters

    What the proof of a range and that of a single value have in common; [e] is
    the exponent the header is read back with. *)
Record params_ok (value : Z) (q : params) (e : Z) : Prop := {
  po_sizes : ring_sizes (prsizes q);
  po_rings : length (prsizes q) = prings q;
  po_most : (prings q <= 32)%nat;
  po_secidx : length (psecidx q) = prings q;
  po_digits : forall i, (i < prings q)%nat -> (nth i (psecidx q) O < nth i (prsizes q) O)%nat;
  po_npub : (total (prsizes q) <= pnpub q <= 128)%nat;
  po_exp : pexp q = Z.max 0 e /\ -1 <= e <= 18;
  po_scale : pscale q = 10 ^ pexp q;
  po_value : digit_sum (psecidx q) * pscale q + pmin_value q = value;
  po_min : 0 <= pmin_value q <= value;
  po_shape : rings_of (pmantissa q) = (prsizes q, total (prsizes q));
  po_header : forall h rest, h_offset h = 0 -> 65 <= Z.of_nat (length (header_bytes q ++ rest)) < 2 ^ 63 ->
    secp256k1_rangeproof_getheader_impl h (header_bytes q ++ rest) = (true, header_of q e);
  po_ok : header_ok (header_of q e)
}.

Lemma range_sizes rings m : 1 <= m <= 64 -> Z.of_nat rings = (m + 1) / 2 ->
  map (ring_size rings m) (seq 0 rings) = fst (rings_of m) /\
  rings_of m = (fst (rings_of m), total (fst (rings_of m))).
Proof.
  intros Hm Hr. pose proof (rings_of_spec m ltac:(lia)) as S. destruct (rings_of m) as [rs np] eqn:E. cbn [fst].
  destruct S as (_ & -> & _). split; [|reflexivity]. unfold rings_of in E.
  rewrite (proj2 (Z.eqb_neq m 0)), (shr_lit m 1 2), (land_mask_lit m 1 1 2) in E by (reflexivity || lia).
  cbn [negb] in E. set (k := Z.to_nat (m / 2)) in *. assert (Ek : Z.of_nat k = m / 2) by (unfold k; dlia).
  assert (Full : forall l n, (forall i, In i l -> ring_size n m i = 4%nat) ->
    map (ring_size n m) l = repeat 4%nat (length l)).
  { intros l n. induction l as [|i l IH]; intros Hl; [reflexivity|]. cbn [map length repeat].
    rewrite (Hl i (or_introl eq_refl)), IH; [reflexivity|]. intros j Hj. apply Hl. now right. }
  destruct (Z.eqb_spec (m mod 2) 0) as [Ev|Od]; cbn [negb] in E; injection E as <-.
  - replace rings with k by (clear - Ek Hr Ev; dlia). rewrite Full, length_seq; [reflexivity|].
    intros i _. unfold ring_size. rewrite (land_mask_lit m 1 1 2), Ev by reflexivity. now rewrite orb_true_r.
  - replace rings with (S k) by (clear - Ek Hr Od; dlia). rewrite seq_S, map_app. cbn [map Nat.add].
    rewrite Full, length_seq.
    + unfold ring_size. rewrite (land_mask_lit m 1 1 2), (proj2 (Z.eqb_neq _ 0) Od) by reflexivity.
      now rewrite Nat.sub_succ, Nat.sub_0_r, Nat.ltb_irrefl.
    + intros i Hx. apply in_seq in Hx. unfold ring_size. now rewrite (proj2 (Nat.ltb_lt _ _)) by lia.
Qed.

Lemma exact_params_ok value mb : 0 <= value < 2 ^ 64 -> params_ok value (exact_params value mb) (-1).
Proof.
  intros Hv. unfold exact_params. split;
    cbn [pv prings prsizes pnpub psecidx pmin_value pmantissa pscale pexp pmin_bits]; try reflexivity; try (cbn; lia).
  - intros [|i] Hx; [cbn; lia|lia].
  - intros h rest H0 HL. now apply getheader_exact.
  - unfold header_of. split; cbn [pmantissa pscale pmin_value h_offset h_exp h_mantissa h_scale h_min h_max];
      try reflexivity; try (unfold UINT64_MAX; cbn; lia); try (left; split; reflexivity).
    pose proof (header_length (exact_params value mb)). unfold exact_params in *. lia.
Qed.

Lemma range_params_ok value mn q : 0 <= mn <= value -> value < 2 ^ 64 -> range_ok value mn q ->
  params_ok value q (pexp q).
Proof.
  intros Hmn Hv R. destruct (digits_ok value mn q R) as [D1 D2]. pose proof R as R'.
  destruct R as [Rv Rm Re Rs Rma Rvv Rr Rsz Rnp Rx Rmax].
  destruct (range_sizes (prings q) (pmantissa q) Rma Rr) as [S1 S2].
  pose proof (rings_of_spec (pmantissa q) ltac:(lia)) as S. rewrite S2, <- S1, <- Rsz in S.
  destruct S as (T1 & _ & T3). destruct (ring_sizes_total _ T1) as (T4 & T5 & _).
  assert (Lr : length (prsizes q) = prings q) by (rewrite Rsz, length_map, length_seq; reflexivity).
  split; try assumption.
  - lia.
  - now rewrite Rx, length_map, length_seq.
  - rewrite Rnp. fold (total (prsizes q)). lia.
  - rewrite Z.max_r by lia. lia.
  - rewrite D1. exact Rv.
  - lia.
  - now rewrite S2, <- S1, <- Rsz.
  - intros h rest H0 HL. now apply (getheader_range h value mn).
  - pose proof (header_length q). unfold header_of.
    split; cbn [h_offset h_exp h_mantissa h_scale h_min h_max]; try lia.
    rewrite Z.max_r by lia. exact Rs.
Qed.

Lemma ring_sizes_nth l : forall j, ring_sizes l -> (j < length l)%nat ->
  (nth j l O <= 4)%nat /\ (S j < length l -> nth j l O = 4)%nat.
Proof.
  induction l as [|n l IH]; [intros j []|]. intros [|j] Hr Hj.
  - destruct l; cbn in *; lia.
  - destruct l as [|n' l]; [cbn in Hj; lia|]. destruct (IH j (proj2 Hr) ltac:(cbn [length] in *; lia)) as [I1 I2].
    split; [exact I1|]. intros L. apply I2. cbn [length] in *. lia.
Qed.

(** The member of ring [i] the signer knows a logarithm for. *)
Definition signer (secidx : list nat) (i : nat) : nat := (4 * i + nth i secidx O)%nat.

(** The digits of the rings. *)
Lemma secidx_small value q e i : params_ok value q e -> (i < prings q)%nat -> (nth i (psecidx q) O < 4)%nat.
Proof.
  intros Hq Hx. pose proof (po_digits _ _ _ Hq i Hx). pose proof (po_rings _ _ _ Hq).
  pose proof (ring_sizes_nth (prsizes q) i (po_sizes _ _ _ Hq) ltac:(lia)). lia.
Qed.

Lemma signer_place value q e i : params_ok value q e -> (i < prings q)%nat ->
  (signer (psecidx q) i < total (prsizes q))%nat.
Proof.
  intros Hq Hx. pose proof (secidx_small value q e i Hq Hx). pose proof (po_digits _ _ _ Hq i Hx) as Hd.
  pose proof (po_rings _ _ _ Hq) as L. destruct (ring_sizes_total _ (po_sizes _ _ _ Hq)) as (Et & _ & _).
  rewrite L in Et. unfold signer. destruct (Nat.eq_dec i (prings q - 1)) as [->|N]; lia.
Qed.

(** The header in the buffer. *)
Lemma starts_byte buf len pre b : starts buf len pre -> (len < length buf)%nat ->
  starts (upd buf len b) (len + 1) (pre ++ [b]) /\ length (upd buf len b) = length buf.
Proof.
  intros S L. split; [|apply length_upd]. pose proof (starts_eq _ _ _ S) as E. destruct S as [_ Lp].
  assert (U : upd buf len b = pre ++ upd (skipn len buf) 0 b).
  { pose proof (upd_app_r pre (skipn len buf) 0 b) as U. now rewrite Nat.add_0_r, Lp, <- E in U. }
  rewrite U. unfold upd. cbn [firstn skipn app]. destruct (skipn len buf) as [|x t] eqn:Et.
  - apply (f_equal (@length Z)) in Et. rewrite length_skipn in Et. cbn in Et. lia.
  - change (b :: t) with ([b] ++ t). rewrite app_assoc.
    replace (len + 1)%nat with (length (pre ++ [b])) by (rewrite length_app; cbn [length]; lia). apply starts_app.
Qed.
