(* ===== verification/RangeproofSign.v ===== *)
(** * modules/rangeproof/rangeproof_impl.h: signed proofs verify

    The proof a successful [secp256k1_rangeproof_sign_impl] leaves in the buffer
    is the header, the sign bits, the abscissas of the commitments to the digits,
    the challenge and the numbers; it is valid in the sense of RangeproofVerify.v. *)
From S2P Require Import Field5x52 Scalar4x64.
From S2P Require Import Prelude Primes FieldSpec Field ScalarSpec Scalar Sha256Spec Hash.
From S2P Require Import CurveSpec CurveGroup CurveOrder CurveCount Residue Svdw Group.
From S2P Require Import Ecmult EcmultGen EcmultConst EcmultProperties Ecdsa Eckey Der Api.
From S2P Require Import EcdsaProperties ApiProperties Generator Pedersen PedersenProperties RangeParams Borromean.
From S2P Require Import Rangeproof RangeproofVerify RangeproofRandom RangeproofBuffer.

Section Sign.
Context {F : FieldImpl} {SI : ScalarImpl} (junk : secp256k1_gej) (junk_ints : list Z).
Context (junk_scalar : scalar) (sha0 : sha256_t) (hmac0 : hmac_sha256_t).
Context (Hjunk : gej_mags junk) (Hs0 : buf_ok sha0).
Context (Hi : buf_ok (inner hmac0)) (Ho : buf_ok (outer hmac0)).

#[local] Abbreviation zero := (s_set_int 0).

(** ** The commitments to the digits *)

Section Digits.
Context (H : point) (genp : secp256k1_ge) (RH : ge_rep genp H) (FH : H <> Inf).
Context (sec : list scalar) (secidx : list nat) (scale : Z).

(** Digit [i] in its place. *)
Definition digit_value (i : nat) : Z := Z.of_nat (nth i secidx O) * (4 ^ Z.of_nat i * scale).

Definition digit_point (i : nat) : point :=
  padd (smul (sval (nth i sec zero)) G_point) (smul (digit_value i) H).

Lemma digit_shift i : 0 <= scale -> digit_value i < 2 ^ 64 ->
  u64 (u64 (Z.of_nat (nth i secidx O) * scale) << (Z.of_nat i * 2)) = digit_value i /\ 0 <= digit_value i.
Proof.
  intros Hs Hv. unfold digit_value in *. set (d := Z.of_nat (nth i secidx O)) in *.
  assert (P : 1 <= 4 ^ Z.of_nat i) by (apply (Z.pow_le_mono_r 4 0); lia).
  assert (N : 0 <= d * scale) by (apply Z.mul_nonneg_nonneg; lia).
  assert (E : d * (4 ^ Z.of_nat i * scale) = d * scale * 4 ^ Z.of_nat i) by ring. rewrite E in *.
  assert (d * scale * 1 <= d * scale * 4 ^ Z.of_nat i) by (apply Z.mul_le_mono_nonneg_l; lia).
  rewrite shl_mul by (apply Z.leb_le; lia).
  replace (2 ^ (Z.of_nat i * 2)) with (4 ^ Z.of_nat i) by (rewrite Z.mul_comm, Z.pow_mul_r by lia; reflexivity).
  unfold u64. rewrite (Z.mod_small (d * scale)), Z.mod_small by lia. split; [reflexivity|].
  apply Z.mul_nonneg_nonneg; lia.
Qed.

Lemma curve_digit i : on_curve H -> on_curve (digit_point i).
Proof. intros CH. unfold digit_point. oc. Qed.

(** What the loop has written for the digits [Ds], after the header [hdr]. *)
Record digits_written (hdr : bytes) (n : nat) (acc : bytes) (Ds : list point) (proof : bytes) (len : nat)
    (sha : sha256_t) (sb : bytes) : Prop := {
  dw_starts : starts proof len (hdr ++ sb ++ xcoords Ds);
  dw_signs : sign_bits sb (map is_neg Ds) n;
  dw_hash : repr sha (acc ++ concat (map (quad_bytes 1) Ds));
  dw_points : Forall (fun P => on_curve P /\ P <> Inf) Ds
}.

Lemma write_digit hdr n acc Ds proof len sha sb P : digits_written hdr n acc Ds proof len sha sb ->
  on_curve P -> P <> Inf -> (len + 32 <= length proof)%nat -> (length Ds < 8 * n)%nat ->
  let i := length Ds in
  let tmpc := quad_bytes 1 P in
  let place := (length hdr + i / 8)%nat in
  let proof1 := upd proof place (u8 (nth place proof 0 .| (at_ tmpc 0 << Z.of_nat (i mod 8)))) in
  let proof2 := overwrite proof1 len (slice tmpc 1 32) in
  exists sb', digits_written hdr n acc (Ds ++ [P]) proof2 (len + 32) (secp256k1_sha256_write sha tmpc) sb' /\
    length proof2 = length proof.
Proof.
  intros [S B R Q] CP HP Hl Hn i tmpc place proof1 proof2.
  destruct (xcoord_ok P HP) as [Lx Bx].
  assert (Hk : (i / 8 < n)%nat) by (apply Nat.Div0.div_lt_upper_bound; exact Hn).
  assert (Lsb : length sb = n) by apply B.
  pose proof (starts_nth proof len hdr sb (xcoords Ds) (i / 8) S ltac:(lia)) as En. fold place in En.
  assert (Et : at_ tmpc 0 = b2z (is_neg P)) by (unfold tmpc; now rewrite (quad_octets P HP)).
  assert (Es : slice tmpc 1 32 = xcoord P).
  { unfold tmpc. rewrite (quad_octets P HP). unfold slice. cbn [skipn]. now apply firstn_all2; rewrite Lx. }
  pose proof (bits_step sb (map is_neg Ds) n (is_neg P) B) as B2. rewrite length_map in B2.
  specialize (B2 Hn). cbv zeta in B2. fold i in B2.
  pose proof (starts_upd proof len hdr sb (xcoords Ds) (i / 8)
    (u8 (nth (i / 8) sb 0 .| (b2z (is_neg P) << Z.of_nat (i mod 8)))) S ltac:(lia)) as S1. fold place in S1.
  rewrite <- En, <- Et in S1, B2. fold proof1 in S1. set (sb' := upd sb _ _) in *.
  assert (L1 : length proof1 = length proof) by apply length_upd.
  destruct (starts_write proof1 len _ (xcoord P) S1 ltac:(lia)) as [S2 L2].
  unfold proof2. rewrite Es. rewrite Lx in S2.
  exists sb'. split; [|now rewrite L2]. split.
  - rewrite xcoords_app. unfold xcoords at 2. cbn [map concat]. rewrite app_nil_r, !app_assoc in *. exact S2.
  - rewrite map_app. exact B2.
  - rewrite map_app, concat_app. cbn [map concat]. rewrite app_nil_r, app_assoc.
    exact (write_repr _ _ _ R (proj1 (quad_bytes1_ok P HP))).
  - apply Forall_app. split; [exact Q|]. constructor; [now split|constructor].
Qed.

(** The points in the array, after the ring [i]. *)
Record points_written (i n : nat) (pubs pubs' : list secp256k1_gej) : Prop := {
  pw_length : length pubs' = length pubs;
  pw_mags : Forall gej_mags pubs';
  pw_low : forall c, (c < 4 * i)%nat -> nth c pubs' junk = nth c pubs junk;
  pw_rep : forall k, (k < n)%nat -> gej_rep (nth (4 * (i + k)) pubs' junk) (digit_point (i + k)) /\
    digit_point (i + k) <> Inf
}.

Lemma points_one i a pubs : (4 * i < length pubs)%nat -> Forall gej_mags pubs -> gej_rep a (digit_point i) ->
  digit_point i <> Inf -> points_written i 1 pubs (upd pubs (4 * i) a).
Proof.
  intros L M R N. split.
  - apply length_upd.
  - apply Forall_upd; [exact M|apply R].
  - intros c Hc. rewrite nth_upd by exact L. now rewrite (proj2 (Nat.eqb_neq _ _)) by lia.
  - intros k Hk. replace (i + k)%nat with i by lia. rewrite nth_upd, Nat.eqb_refl by exact L. now split.
Qed.

Lemma points_cons i n a pubs pubs' : (4 * i < length pubs)%nat -> gej_rep a (digit_point i) -> digit_point i <> Inf ->
  points_written (S i) n (upd pubs (4 * i) a) pubs' -> points_written i (S n) pubs pubs'.
Proof.
  intros L R N [P1 P2 P3 P4]. rewrite length_upd in P1. split; [exact P1|exact P2| |].
  - intros c Hc. rewrite P3, nth_upd by lia. now rewrite (proj2 (Nat.eqb_neq _ _)) by lia.
  - intros [|k] Hk.
    + rewrite Nat.add_0_r, P3, nth_upd, Nat.eqb_refl by lia. now split.
    + replace (i + S k)%nat with (S i + k)%nat by lia. apply P4. lia.
Qed.

Lemma upd_upd {A} (l : list A) i a b : upd (upd l i a) i b = upd l i b.
Proof.
  unfold upd at 1 3. unfold upd. destruct (Nat.lt_ge_cases i (length l)) as [L|L].
  - assert (Lf : length (firstn i l) = i) by (rewrite length_firstn; lia).
    rewrite firstn_app_exact, skipn_app_exact by exact Lf. f_equal. now destruct (skipn i l).
  - rewrite !(firstn_all2 l), !(skipn_all2 l), !app_nil_r by exact L.
    now rewrite !(firstn_all2 l), !(skipn_all2 l), !app_nil_r by exact L.
Qed.

(** The sum of the commitments to some digits. *)
Lemma psum_digits l : on_curve H -> psum (map digit_point l) =
  padd (smul (zsum (fun i => sval (nth i sec zero)) l) G_point) (smul (zsum digit_value l) H).
Proof.
  intros CH. induction l as [|i l IH]; [reflexivity|]. cbn [map].
  rewrite psum_cons, IH, !zsum_cons, !smul_add by
    (try apply curve_digit; try oc; try exact CH; apply Forall_forall; intros P HP; apply in_map_iff in HP;
     destruct HP as (j & <- & _); apply curve_digit; exact CH).
  unfold digit_point. apply padd_pairs; oc.
Qed.

(** The digits are those of the value. *)
Lemma digit_values_sum : zsum digit_value (seq 0 (length secidx)) = digit_sum secidx * scale.
Proof.
  assert (G : forall l k, zsum (fun i => Z.of_nat (nth (i - k) l O) * (4 ^ Z.of_nat i * scale)) (seq k (length l))
    = 4 ^ Z.of_nat k * digit_sum l * scale).
  { induction l as [|d l IH]; intros k; cbn [length seq digit_sum]; [unfold zsum; cbn; ring|].
    rewrite zsum_cons, Nat.sub_diag. cbn [nth].
    rewrite (zsum_ext _ (fun i => Z.of_nat (nth (i - S k) l O) * (4 ^ Z.of_nat i * scale))).
    - rewrite IH, Nat2Z.inj_succ, Z.pow_succ_r by lia. ring.
    - intros i Hx. apply in_seq in Hx. replace (i - k)%nat with (S (i - S k)) by lia. reflexivity. }
  specialize (G secidx O). rewrite Z.pow_0_r, Z.mul_1_l in G. rewrite <- G.
  apply zsum_ext. intros i _. now rewrite Nat.sub_0_r.
Qed.
Context (Hints : length junk_ints = 33%nat).
Context (gen_ctx : secp256k1_ecmult_gen_context) (HG : gen_ctx_ok gen_ctx).

Lemma digit_rep i : sok (nth i sec zero) -> 0 <= scale -> digit_value i < 2 ^ 64 ->
  gej_rep (secp256k1_pedersen_ecmult junk junk_ints gen_ctx (nth i sec zero)
    (u64 (u64 (Z.of_nat (nth i secidx O) * scale) << (Z.of_nat i * 2))) genp) (digit_point i).
Proof.
  intros Hsec Hs Hv. destruct (digit_shift i Hs Hv) as [-> Nn].
  exact (pedersen_ecmult_rep junk junk_ints Hjunk Hints gen_ctx _ _ _ _ HG Hsec (conj Nn Hv) RH FH).
Qed.

Lemma commit_digits_spec hdr n acc rsizes : ring_sizes rsizes ->
  forall i proof len sha pubs sb Ds, length Ds = i -> digits_written hdr n acc Ds proof len sha sb ->
  (forall k, (k < length rsizes)%nat -> sok (nth (i + k) sec zero) /\ digit_value (i + k) < 2 ^ 64) -> 0 <= scale ->
  (len + 32 * (length rsizes - 1) <= length proof)%nat -> (i + (length rsizes - 1) <= 8 * n)%nat ->
  (4 * i + total rsizes <= length pubs)%nat -> Forall gej_mags pubs ->
  let '(ok, (proof', len', sha', pubs', npub')) :=
    commit_digits junk junk_ints gen_ctx proof (length hdr) len sha pubs sec secidx scale genp rsizes i (4 * i) in
  ok = true -> exists sb',
    digits_written hdr n acc (Ds ++ map digit_point (seq i (length rsizes - 1))) proof' len' sha' sb' /\
    length proof' = length proof /\ len' = (len + 32 * (length rsizes - 1))%nat /\
    npub' = (4 * i + total rsizes)%nat /\ points_written i (length rsizes) pubs pubs'.
Proof.
  pose proof (proj1 (proj2 RH)) as CH.
  induction rsizes as [|m rsizes IH]; [intros []|]. intros Hr i proof len sha pubs sb Ds LD DW Hsec Hsc Hl Hn Hp Hm.
  destruct (Hsec O ltac:(cbn [length]; lia)) as [O1 V1]. rewrite Nat.add_0_r in O1, V1.
  pose proof (digit_rep i O1 Hsc V1) as R. cbn [commit_digits]. set (pub := secp256k1_pedersen_ecmult _ _ _ _ _ _) in *.
  rewrite (is_infinity_spec _ _ R). destruct (is_inf (digit_point i)) eqn:EI; [discriminate|].
  assert (Fin : digit_point i <> Inf) by (intros E; rewrite E in EI; discriminate EI).
  cbn [total fold_right length] in *. fold (total rsizes) in *. destruct rsizes as [|m' rsizes].
  { cbn [commit_digits length Nat.sub seq map total fold_right] in *. intros _. exists sb. rewrite app_nil_r.
    split; [exact DW|]. split; [reflexivity|]. split; [lia|]. split; [lia|].
    apply points_one; try assumption. destruct Hr. lia. }
  destruct Hr as [-> Hr].
  destruct (set_gej_var_rep (junk_ge junk) pub _ (conj (proj1 Hjunk) (proj1 (proj2 Hjunk))) R) as [Rc Rp].
  destruct (secp256k1_ge_set_gej_var (junk_ge junk) pub) as [c pub']. cbn [fst snd] in Rc, Rp.
  rewrite (serialize_point_ok _ _ Rc Fin), upd_upd. cbn [length] in *.
  destruct (write_digit hdr n acc Ds proof len sha sb (digit_point i) DW (curve_digit i CH) Fin
    ltac:(lia) ltac:(lia)) as (sb2 & DW2 & L2). rewrite LD in DW2, L2. cbv zeta in DW2, L2.
  set (proof2 := overwrite _ len _) in *. replace (4 * i + 4)%nat with (4 * S i)%nat by lia.
  specialize (IH Hr (S i) proof2 (len + 32)%nat _ (upd pubs (4 * i) pub') sb2 (Ds ++ [digit_point i])
    ltac:(rewrite length_app; cbn [length]; lia) DW2
    ltac:(intros k Hk; rewrite Nat.add_succ_comm; apply Hsec; lia) Hsc ltac:(lia) ltac:(lia)
    ltac:(rewrite length_upd; lia) (Forall_upd _ _ _ _ Hm (proj1 Rp))).
  destruct (commit_digits _ _ _ _ _ _ _ _ _ _ _ _ _ _ _) as [ok [[[[proof' len'] sha'] pubs'] npub']].
  intros E. destruct (IH E) as (sb' & I1 & I2 & I3 & I4 & I5). exists sb'.
  split; [|split; [lia|split; [lia|split; [lia|]]]].
  - rewrite <- app_assoc in I1. rewrite Nat.sub_succ, Nat.sub_0_r in *. exact I1.
  - apply (points_cons i _ pub'); try assumption. lia.
Qed.

End Digits.

(** ** The nonces *)

Lemma take_nonces_spec secidx n : forall i k s, (forall t, (t < n)%nat -> (nth (i + t) secidx O < 4)%nat) ->
  (i + n <= length k)%nat -> (4 * (i + n) <= length s)%nat ->
  let '(k', s') := take_nonces k s secidx i n in
  length s' = length s /\ (forall j, (j < i)%nat -> nth j k' zero = nth j k zero) /\
  (forall t, (t < n)%nat -> nth (i + t) k' zero = nth (signer secidx (i + t)) s zero /\
     nth (signer secidx (i + t)) s' zero = s_clear (nth (signer secidx (i + t)) s zero)) /\
  (forall c, (forall t, (t < n)%nat -> c <> signer secidx (i + t)) -> nth c s' zero = nth c s zero).
Proof.
  induction n as [|n IH]; intros i k s Hd Hk Hs; cbn [take_nonces].
  { split; [reflexivity|]. split; [reflexivity|]. split; [intros t Ht; lia|reflexivity]. }
  replace (i * 4 + nth i secidx 0)%nat with (signer secidx i) by (unfold signer; lia).
  set (c := signer secidx i). pose proof (Hd O ltac:(lia)) as D0. rewrite Nat.add_0_r in D0.
  set (k1 := upd k i (nth c s zero)). set (s1 := upd s c (s_clear (nth c s zero))).
  assert (Nk : forall j, nth j k1 zero = if Nat.eqb i j then nth c s zero else nth j k zero)
    by (intros j; apply nth_upd; lia).
  assert (Ns : forall d, nth d s1 zero = if Nat.eqb c d then s_clear (nth c s zero) else nth d s zero)
    by (intros d; apply nth_upd; unfold c, signer; lia).
  specialize (IH (S i) k1 s1 ltac:(intros t Ht; rewrite Nat.add_succ_comm; apply Hd; lia)
    ltac:(unfold k1; rewrite length_upd; lia) ltac:(unfold s1; rewrite length_upd; lia)).
  assert (Nc : forall t, (t < n)%nat -> signer secidx (S i + t) <> c).
  { intros t Ht. pose proof (Hd (S t) ltac:(lia)). unfold c, signer. replace (S i + t)%nat with (i + S t)%nat by lia. lia. }
  destruct (take_nonces k1 s1 secidx (S i) n) as [k' s']. destruct IH as (L & Lo & At & Ot).
  unfold s1 in L. rewrite length_upd in L. split; [exact L|]. split; [|split].
  - intros j Hj. rewrite Lo, Nk by lia. now rewrite (proj2 (Nat.eqb_neq _ _)) by lia.
  - intros [|t] Ht.
    + rewrite Nat.add_0_r, Lo, Nk, Nat.eqb_refl by lia. fold c. split; [reflexivity|].
      rewrite Ot, Ns, Nat.eqb_refl; [reflexivity|]. intros t Ht2. now apply not_eq_sym, Nc.
    + rewrite Nat.add_succ_r. change (S (i + t)) with (S i + t)%nat. destruct (At t ltac:(lia)) as [A1 A2].
      pose proof (Nc t ltac:(lia)) as Nt. rewrite Ns in A1, A2. rewrite (proj2 (Nat.eqb_neq _ _)) in A1, A2 by lia.
      now split.
  - intros d Hd'. rewrite Ot, Ns.
    + pose proof (Hd' O ltac:(lia)) as D. rewrite Nat.add_0_r in D. fold c in D.
      now rewrite (proj2 (Nat.eqb_neq _ _)) by lia.
    + intros t Ht. replace (S i + t)%nat with (i + S t)%nat by lia. apply Hd'. lia.
Qed.

(** ** The numbers at the end *)

Definition number_octets (s : list scalar) (i n : nat) : bytes :=
  concat (map (fun c => be_bytes 32 (sval (nth c s zero))) (seq i n)).

Lemma number_octets_length s i n : length (number_octets s i n) = (32 * n)%nat.
Proof.
  unfold number_octets. revert i. induction n as [|n IH]; intros i; [reflexivity|].
  cbn [seq map concat]. rewrite length_app, length_be_bytes, IH. lia.
Qed.

Lemma number_octets_bytes s i n : Forall is_byte (number_octets s i n).
Proof.
  unfold number_octets. revert i. induction n as [|n IH]; intros i; [constructor|].
  cbn [seq map concat]. apply Forall_app. split; [apply be_bytes_byte|apply IH].
Qed.

Lemma write_scalars_spec s n : forall i proof len pre, starts proof len pre ->
  (len + 32 * n <= length proof)%nat -> (forall c, (i <= c < i + n)%nat -> sok (nth c s zero)) ->
  let '(proof', len') := write_scalars proof len s i n in
  starts proof' len' (pre ++ number_octets s i n) /\ len' = (len + 32 * n)%nat.
Proof.
  induction n as [|n IH]; intros i proof len pre S L Hs; cbn [write_scalars].
  { unfold number_octets. cbn [seq map concat]. rewrite app_nil_r. split; [exact S|lia]. }
  rewrite (s_get_b32_ok _ (Hs i ltac:(lia))).
  destruct (starts_write proof len pre (be_bytes 32 (sval (nth i s zero))) S) as [S1 L1];
    [rewrite length_be_bytes; lia|]. rewrite length_be_bytes in S1.
  specialize (IH (Datatypes.S i) _ (len + 32)%nat _ S1 ltac:(lia) ltac:(intros c Hc; apply Hs; lia)).
  destruct (write_scalars _ _ _ _ _) as [proof' len']. destruct IH as [I1 ->]. split; [|lia].
  unfold number_octets in *. cbn [seq map concat]. rewrite <- app_assoc in I1. exact I1.
Qed.

Lemma number_read s n pre c : (c < n)%nat -> (forall c, (c < n)%nat -> sok (nth c s zero)) ->
  number (pre ++ number_octets s 0 n) (length pre) c = sval (nth c s zero).
Proof.
  intros Hc Hs. unfold number, slice. rewrite (Nat.add_comm (length pre)), <- skipn_skipn, skipn_app_exact by reflexivity.
  assert (G : forall n i c, (c < n)%nat ->
    firstn 32 (skipn (32 * c) (number_octets s i n)) = be_bytes 32 (sval (nth (i + c) s zero))).
  { clear. unfold number_octets. induction n as [|n IH]; intros i c Hc; [lia|]. cbn [seq map concat].
    destruct c as [|c].
    - rewrite Nat.mul_0_r, Nat.add_0_r. cbn [skipn]. apply firstn_app_exact, length_be_bytes.
    - replace (32 * S c)%nat with (32 * c + 32)%nat by lia.
      rewrite <- skipn_skipn, skipn_app_exact by apply length_be_bytes.
      rewrite IH by lia. now rewrite Nat.add_succ_comm. }
  rewrite G by exact Hc. rewrite be_val_bytes, Z.mod_small; [reflexivity|].
  pose proof (sok_range _ (Hs c Hc)) as R. unfold n_order in R. change (256 ^ Z.of_nat 32) with (2 ^ 256). cbn [Nat.add]. lia.
Qed.

(** ** The layout of a proof *)

Lemma sign_room r k : (k < r - 1)%nat -> (k / 8 < (r + 6) / 8)%nat /\ (k < 8 * ((r + 6) / 8))%nat.
Proof.
  intros Hk. pose proof (Nat.div_mod_eq (r + 6) 8). pose proof (Nat.mod_upper_bound (r + 6) 8 ltac:(lia)).
  split; [apply Nat.Div0.div_lt_upper_bound|]; lia.
Qed.

Section Layout.
Context (hdr sb e0 : bytes) (Ds : list point) (s : list scalar) (o r n : nat).
Context (Lh : length hdr = o) (Hsb : sign_bits sb (map is_neg Ds) ((r + 6) / 8)) (Hr : (1 <= r)%nat).
Context (LD : length Ds = (r - 1)%nat) (HD : Forall (fun P => on_curve P /\ P <> Inf) Ds).
Context (Le : length e0 = 32%nat) (Hs : forall c, (c < n)%nat -> sok (nth c s zero)).

Definition proof_bytes : bytes := hdr ++ sb ++ xcoords Ds ++ e0 ++ number_octets s 0 n.

Lemma xs_length : length (xcoords Ds) = (32 * (r - 1))%nat.
Proof. rewrite xcoords_length, LD; [reflexivity|]. eapply Forall_impl; [|exact HD]. intros P HP. apply HP. Qed.

Lemma layout_length : length proof_bytes = (body_at o r + 32 * r + 32 * n)%nat.
Proof.
  unfold proof_bytes, body_at. rewrite !length_app, xs_length, Lh, Le, number_octets_length, (sb_length _ _ _ Hsb). lia.
Qed.

Lemma layout_header : firstn o proof_bytes = hdr.
Proof. now apply firstn_app_exact. Qed.

Lemma layout_byte k : (k < (r + 6) / 8)%nat -> nth (o + k) proof_bytes 0 = nth k sb 0.
Proof.
  intros Hk. pose proof (sb_length _ _ _ Hsb). unfold proof_bytes. rewrite app_nth2, app_nth1 by lia. f_equal. lia.
Qed.

Lemma layout_signs : digit_signs proof_bytes o r = map is_neg Ds.
Proof.
  unfold digit_signs. apply (nth_ext _ _ false false); rewrite !length_map, length_seq; [now rewrite LD|].
  intros k Hk. destruct (sign_room r k Hk) as [R1 R2].
  rewrite (nth_indep _ false (Z.testbit (nth (o + O / 8) proof_bytes 0) (Z.of_nat (O mod 8))))
    by (rewrite length_map, length_seq; exact Hk).
  rewrite (map_nth (fun i => Z.testbit (nth (o + i / 8) proof_bytes 0) (Z.of_nat (i mod 8)))), seq_nth by exact Hk.
  cbn [Nat.add]. rewrite layout_byte by exact R1. exact (sb_bits _ _ _ Hsb k R2).
Qed.

Lemma layout_digits : range_digits proof_bytes o r = Some Ds /\
  digit_octets proof_bytes (body_at o r) (digit_signs proof_bytes o r) = concat (map (quad_bytes 1) Ds).
Proof.
  unfold range_digits. rewrite layout_signs. unfold proof_bytes. rewrite (app_assoc hdr sb).
  apply (digits_found Ds (e0 ++ number_octets s 0 n) HD (hdr ++ sb)).
  rewrite length_app, Lh, (sb_length _ _ _ Hsb). reflexivity.
Qed.

Lemma layout_stray : ((r - 1) mod 8 <> 0)%nat ->
  nth (body_at o r - 1) proof_bytes 0 < 2 ^ Z.of_nat ((r - 1) mod 8).
Proof.
  intros N. pose proof (Nat.div_mod_eq (r - 1) 8) as D1. pose proof (Nat.mod_upper_bound (r - 1) 8 ltac:(lia)) as M1.
  pose proof (Nat.div_mod_eq (r + 6) 8) as D2. pose proof (Nat.mod_upper_bound (r + 6) 8 ltac:(lia)) as M2.
  assert (Eb : (body_at o r - 1 = o + (r - 1) / 8)%nat) by (unfold body_at; lia).
  assert (Rk : ((r - 1) / 8 < (r + 6) / 8)%nat) by lia. rewrite Eb, layout_byte by exact Rk.
  apply byte_below; [apply nth_byte, Hsb|lia|]. intros t Ht.
  set (k := (8 * ((r - 1) / 8) + Z.to_nat t)%nat).
  assert (Ek : (k / 8 = (r - 1) / 8)%nat) by (symmetry; apply (Nat.div_unique _ _ _ (Z.to_nat t)); unfold k; lia).
  assert (Em : (k mod 8 = Z.to_nat t)%nat) by (symmetry; apply (Nat.mod_unique _ _ ((r - 1) / 8)); unfold k; lia).
  pose proof (sb_bits _ _ _ Hsb k ltac:(unfold k; lia)) as B. rewrite Ek, Em, Z2Nat.id in B by lia.
  rewrite B. apply nth_overflow. rewrite length_map, LD. unfold k. lia.
Qed.

Lemma layout_challenge : slice proof_bytes (body_at o r + 32 * (r - 1)) 32 = e0.
Proof.
  unfold slice, proof_bytes. rewrite !(app_assoc hdr), !(app_assoc _ (xcoords Ds)), skipn_app_exact.
  - now apply firstn_app_exact.
  - rewrite !length_app, xs_length, Lh, (sb_length _ _ _ Hsb). reflexivity.
Qed.

Lemma layout_number c : (c < n)%nat -> number proof_bytes (body_at o r + 32 * r) c = sval (nth c s zero).
Proof.
  intros Hc. unfold proof_bytes. rewrite !(app_assoc hdr), !(app_assoc _ (xcoords Ds)), !(app_assoc _ e0).
  replace (body_at o r + 32 * r)%nat with (length (((hdr ++ sb) ++ xcoords Ds) ++ e0)).
  - now apply number_read.
  - rewrite !length_app, xs_length, Lh, Le, (sb_length _ _ _ Hsb). unfold body_at. lia.
Qed.
End Layout.

(** ** The rings of the signer *)

Lemma rings_ready_intro P sec secidx s rsizes : ring_sizes rsizes -> forall i,
  (forall t, (t < length rsizes)%nat -> (nth (i + t) secidx O < nth t rsizes O)%nat /\
     P (signer secidx (i + t)) = smul (sval (nth (i + t) sec zero)) G_point) ->
  (forall c, (4 * i <= c < 4 * i + total rsizes)%nat ->
     (forall t, (t < length rsizes)%nat -> c <> signer secidx (i + t)) -> sval (nth c s zero) <> 0) ->
  rings_ready P sec secidx s i (4 * i) rsizes.
Proof.
  induction rsizes as [|n rsizes IH]; [intros []|]. intros Hr i Hd Hz. cbn [rings_ready].
  assert (Hn : (1 <= n <= 4)%nat) by (destruct rsizes; [exact Hr|destruct Hr; lia]).
  destruct (Hd O ltac:(cbn [length]; lia)) as [D0 P0]. rewrite Nat.add_0_r in D0, P0. cbn [nth] in D0.
  cbn [total fold_right length] in *. fold (total rsizes) in *.
  split; [exact D0|]. split; [exact P0|]. split.
  - intros t Ht Nt. apply Hz; [lia|]. intros t' Ht'. unfold signer. destruct t' as [|t'].
    + rewrite Nat.add_0_r. lia.
    + destruct rsizes as [|m rsizes]; [cbn in Ht'; lia|]. destruct Hr as [-> _]. lia.
  - destruct rsizes as [|m rsizes]; [exact I|]. destruct Hr as [-> Hr].
    replace (4 * i + 4)%nat with (4 * S i)%nat by lia. apply (IH Hr (S i)).
    + intros t Ht. rewrite Nat.add_succ_comm. apply (Hd (S t)). cbn [length] in *. lia.
    + intros c Hc Hs'. apply Hz; [lia|]. intros [|t] Ht.
      * unfold signer. rewrite Nat.add_0_r. lia.
      * rewrite <- Nat.add_succ_comm. apply Hs'. lia.
Qed.

(** ** The proof that is left in the buffer *)

Section Valid.
Context (H : point) (CH : on_curve H) (FH : H <> Inf) (blind : bytes) (value : Z) (q : params) (e : Z).
Context (Hq : params_ok value q e) (sec : list scalar).

Let r := prings q.
Let C := commit_point blind value H.
Let D := digit_point H sec (psecidx q) (pscale q).
Let Ds := map D (seq 0 (r - 1)).

Context (Hlast : sval (nth (r - 1) sec zero)
  =[n_order]= be_val blind - zsum (fun i => sval (nth i sec zero)) (seq 0 (r - 1))).

Lemma rings_pos : (1 <= r)%nat.
Proof. unfold r. rewrite <- (po_rings _ _ _ Hq). exact (proj2 (proj2 (ring_sizes_total _ (po_sizes _ _ _ Hq)))). Qed.

Lemma values_sum : zsum (digit_value (psecidx q) (pscale q)) (seq 0 (r - 1))
  + digit_value (psecidx q) (pscale q) (r - 1) + pmin_value q = value.
Proof.
  pose proof rings_pos as R1. rewrite <- (po_value _ _ _ Hq), <- (digit_values_sum (psecidx q) (pscale q)).
  rewrite (po_secidx _ _ _ Hq). fold r. replace r with (S (r - 1)) at 3 by lia.
  rewrite seq_S, zsum_app, zsum_cons. unfold zsum at 3. cbn [map fold_right Nat.add]. ring.
Qed.

(** What is left of the commitment is the commitment to the last digit. *)
Lemma last_is_digit : last_commitment C H (pmin_value q) Ds = D (r - 1)%nat.
Proof.
  unfold last_commitment. set (A := zsum (fun i => sval (nth i sec zero)) (seq 0 (r - 1))) in *.
  set (V := zsum (digit_value (psecidx q) (pscale q)) (seq 0 (r - 1))) in *.
  assert (EP : padd (smul (pmin_value q) H) (psum Ds) = padd (smul A G_point) (smul (pmin_value q + V) H)).
  { unfold Ds, D. rewrite psum_digits by exact CH. fold A V.
    rewrite <- padd_assoc, (padd_comm (smul (pmin_value q) H)), padd_assoc, <- smul_add by oc. reflexivity. }
  assert (EC : C = padd (padd (smul (pmin_value q) H) (psum Ds)) (D (r - 1)%nat)).
  { rewrite EP. unfold C, commit_point, D, digit_point. rewrite padd_pairs, <- !smul_add by oc.
    f_equal; [|f_equal; pose proof values_sum as VS; fold V in VS; lia].
    apply smul_cong. fold D. rewrite Hlast. apply cong_eq. ring. }
  rewrite EC. apply padd_cancel_l; [|apply curve_digit; exact CH].
  rewrite EP. oc.
Qed.

Lemma length_Ds : length Ds = (r - 1)%nat.
Proof. unfold Ds. now rewrite length_map, length_seq. Qed.

Lemma commitments_are_digits i : (i < r)%nat -> digit_commitment C H (pmin_value q) Ds i = D i.
Proof.
  intros Hx. destruct (Nat.eq_dec i (r - 1)) as [->|N].
  - rewrite <- length_Ds at 1. rewrite commitment_last. exact last_is_digit.
  - rewrite commitment_low by (rewrite length_Ds; lia). unfold Ds.
    rewrite (nth_indep _ Inf (D O)) by (rewrite length_map, length_seq; lia).
    rewrite map_nth, seq_nth by lia. reflexivity.
Qed.

(** The signer's member of a ring is a multiple of G. *)
Lemma signer_member i : (i < r)%nat ->
  ring_member H (digit_commitment C H (pmin_value q) Ds) (pscale q) (signer (psecidx q) i)
  = smul (sval (nth i sec zero)) G_point.
Proof.
  intros Hx. pose proof (secidx_small value q e i Hq Hx) as H4.
  unfold ring_member, signer. destruct (place_div i _ H4) as [-> ->]. rewrite commitments_are_digits by exact Hx.
  unfold D, digit_point, digit_value. set (d := Z.of_nat (nth i (psecidx q) O)). set (w := 4 ^ Z.of_nat i * pscale q).
  rewrite padd_assoc, <- smul_add by oc. replace (d * w + d * - w) with 0 by ring. rewrite smul_0. apply padd_Inf_r.
Qed.
End Valid.

Lemma zsum_member {A} (f : A -> Z) l x : (forall y, In y l -> 0 <= f y) -> In x l -> f x <= zsum f l.
Proof.
  intros Hn. induction l as [|y l IH]; intros Hx; [destruct Hx|]. rewrite zsum_cons.
  assert (N : 0 <= zsum f l).
  { clear - Hn. induction l as [|z l IH]; [reflexivity|]. rewrite zsum_cons.
    pose proof (Hn z (or_intror (or_introl eq_refl))).
    assert (0 <= zsum f l) by (apply IH; intros w Hw; apply Hn; destruct Hw as [->|Hw]; [now left|right; now right]). lia. }
  pose proof (Hn y (or_introl eq_refl)). destruct Hx as [->|Hx]; [lia|].
  specialize (IH (fun z Hz => Hn z (or_intror Hz)) Hx). lia.
Qed.

Lemma digit_value_fits value q e i : params_ok value q e -> value < 2 ^ 64 -> (i < prings q)%nat ->
  0 <= pscale q /\ digit_value (psecidx q) (pscale q) i < 2 ^ 64.
Proof.
  intros Hq Hv Hx. assert (Sc : 0 <= pscale q) by (rewrite (po_scale _ _ _ Hq); apply Z.pow_nonneg; lia).
  split; [exact Sc|]. pose proof (po_value _ _ _ Hq) as E. rewrite <- (digit_values_sum (psecidx q) (pscale q)) in E.
  rewrite (po_secidx _ _ _ Hq) in E. pose proof (po_min _ _ _ Hq) as M.
  pose proof (zsum_member (digit_value (psecidx q) (pscale q)) (seq 0 (prings q)) i) as Z1.
  assert (N : forall y, In y (seq 0 (prings q)) -> 0 <= digit_value (psecidx q) (pscale q) y).
  { intros y _. unfold digit_value. apply Z.mul_nonneg_nonneg; [lia|]. apply Z.mul_nonneg_nonneg; [|exact Sc].
    apply Z.pow_nonneg. lia. }
  specialize (Z1 N ltac:(apply in_seq; lia)). lia.
Qed.

(** ** The random numbers *)

Lemma all_good_nth m bl : forall c t, all_good m c bl = true -> (t < length bl)%nat ->
  0 < be_val (masked m (c + t) (nth t bl [])) < n_order.
Proof.
  induction bl as [|b bl IH]; intros c t E Ht; [cbn in Ht; lia|]. cbn [all_good] in E.
  apply andb_true_iff in E. destruct E as [E1 E2]. destruct t as [|t].
  - rewrite Nat.add_0_r. unfold good in E1. apply andb_true_iff in E1. rewrite !Z.ltb_lt in E1. exact E1.
  - rewrite <- Nat.add_succ_comm. apply (IH (S c) t E2). cbn [length] in Ht. lia.
Qed.

Lemma ring_draws_last fuel seed rsizes : forall pos draws, ring_draws fuel seed rsizes pos = Some draws ->
  fst (nth (length draws - 1) draws (0, [])) = 0.
Proof.
  induction rsizes as [|n rsizes IH]; intros pos draws E; [now injection E as <-|].
  destruct rsizes as [|n' rsizes]; [cbn [ring_draws] in E; now injection E as <-|].
  rewrite ring_draws_step in E. destruct (first_ok _ _ _ _) as [k|]; [|discriminate E].
  destruct (ring_draws fuel seed (n' :: rsizes) _) as [l|] eqn:El; [|discriminate E]. injection E as <-.
  specialize (IH _ _ El). cbn [length]. rewrite Nat.sub_succ, Nat.sub_0_r.
  destruct l as [|x l]; [destruct (ring_draws_length _ _ _ _ _ El) as [LD _]; discriminate LD|].
  cbn [length] in *. rewrite Nat.sub_succ, Nat.sub_0_r in IH. exact IH.
Qed.

Lemma zsum_nth {A} (f : A -> Z) d l : zsum f l = zsum (fun k => f (nth k l d)) (seq 0 (length l)).
Proof.
  assert (G : forall k, zsum f l = zsum (fun j => f (nth (j - k) l d)) (seq k (length l))).
  { induction l as [|x l IH]; intros k; [reflexivity|]. cbn [length seq]. rewrite !zsum_cons, Nat.sub_diag. cbn [nth].
    f_equal. rewrite (IH (S k)). apply zsum_ext. intros j Hj. apply in_seq in Hj.
    replace (j - k)%nat with (S (j - S k)) by lia. reflexivity. }
  rewrite (G O). apply zsum_ext. intros j _. now rewrite Nat.sub_0_r.
Qed.

(** The blinding factors add up to 0. *)
Lemma drawn_sum fuel seed rsizes sec0 acc draws sec : ring_draws fuel seed rsizes 0 = Some draws ->
  (1 <= length draws)%nat -> sval acc = 0 -> drawn sec0 acc 0 draws sec ->
  sval (nth (length draws - 1) sec zero) =[n_order]=
    - zsum (fun i => sval (nth i sec zero)) (seq 0 (length draws - 1)).
Proof.
  intros E L1 E0 [_ _ _ D4 D5]. cbn [Nat.add] in *. rewrite D5, E0, (zsum_nth fst (0, [])).
  replace (length draws) with (S (length draws - 1)) at 1 by lia.
  rewrite seq_S, zsum_app, zsum_cons. cbn [Nat.add]. rewrite (ring_draws_last _ _ _ _ _ E).
  rewrite (zsum_ext (fun k => fst (nth k draws (0, []))) (fun i => sval (nth i sec zero))).
  - unfold zsum at 2. cbn [map fold_right]. apply cong_eq. ring.
  - intros k Hk. apply in_seq in Hk. symmetry. apply D4. lia.
Qed.

Section Run.
Context (Hints : length junk_ints = 33%nat) (ctx : secp256k1_ecmult_context) (HC : ctx_ok ctx).
Context (gen_ctx : secp256k1_ecmult_gen_context) (HG : gen_ctx_ok gen_ctx).
Context (H : point) (genp : secp256k1_ge) (RH : ge_rep genp H) (FH : H <> Inf).
Context (blind : bytes) (Hb : is_b32 blind) (value : Z) (Hv : value < 2 ^ 64) (q : params) (e : Z).
Context (Hq : params_ok value q e) (extra : option bytes) (Be : Forall is_byte (octets_at extra)).
Context (Le : Z.of_nat (length (octets_at extra)) < 2 ^ 60).

Let r := prings q.
Let npub := total (prsizes q).
Let C := commit_point blind value H.

Context (FC : C <> Inf).

(** The signed rings are in the buffer. *)
Record signed (hdr : bytes) (sec : list scalar) (proof : bytes) (plen : Z)
    (sb e0 : bytes) (s' : list scalar) : Prop := {
  sg_starts : starts proof (Z.to_nat plen)
    (proof_bytes hdr sb e0 (map (digit_point H sec (psecidx q) (pscale q)) (seq 0 (r - 1))) s' npub);
  sg_len : plen = Z.of_nat (length hdr + (r + 6) / 8 + 32 * r + 32 * npub);
  sg_signs : sign_bits sb (map is_neg (map (digit_point H sec (psecidx q) (pscale q)) (seq 0 (r - 1)))) ((r + 6) / 8);
  sg_digits : forall i, (i < r)%nat -> digit_point H sec (psecidx q) (pscale q) i <> Inf;
  sg_e0 : is_b32 e0;
  sg_ok : forall c, (c < npub)%nat -> sok (nth c s' zero);
  sg_rings : let Ds := map (digit_point H sec (psecidx q) (pscale q)) (seq 0 (r - 1)) in
    borromean_valid (fips_sha256 (quad_bytes 1 C ++ quad_bytes 1 H ++ hdr ++ concat (map (quad_bytes 1) Ds)
        ++ octets_at extra)) e0
      (rings_at (mem (ring_member H (digit_commitment C H (pmin_value q) Ds) (pscale q)) s') 0 (prsizes q))
}.

(** The numbers and the nonces of the signature. *)
Lemma nonces_ready s k s1 : length s = 128%nat ->
  (forall c, (c < npub)%nat -> sok (nth c s zero) /\ sval (nth c s zero) <> 0) ->
  take_nonces (repeat junk_scalar 32) s (psecidx q) 0 r = (k, s1) ->
  length s1 = 128%nat /\ scalars_ok npub s1 /\
  (forall i, (i < r)%nat -> nth i k zero = nth (signer (psecidx q) i) s zero /\ sok (nth i k zero)) /\
  (forall c, (c < npub)%nat -> (forall i, (i < r)%nat -> c <> signer (psecidx q) i) ->
     nth c s1 zero = nth c s zero).
Proof.
  intros Ls Hs E. pose proof (po_most _ _ _ Hq) as R32. fold r in R32.
  pose proof (take_nonces_spec (psecidx q) r 0 (repeat junk_scalar 32) s
    (fun t Ht => secidx_small value q e t Hq Ht) ltac:(rewrite repeat_length; lia) ltac:(lia)) as T.
  rewrite E in T. destruct T as (L & _ & T1 & T2). cbn [Nat.add] in T1, T2.
  split; [now rewrite L|]. split; [|split].
  - intros c Hc. destruct (In_dec Nat.eq_dec c (map (signer (psecidx q)) (seq 0 r))) as [In|Out].
    + apply in_map_iff in In. destruct In as (i & <- & Hx). apply in_seq in Hx.
      destruct (T1 i ltac:(lia)) as [_ ->]. apply s_clear_ok.
    + rewrite T2; [now apply Hs|]. intros t Ht ->. apply Out, in_map, in_seq. lia.
  - intros i Hx. destruct (T1 i Hx) as [-> _]. split; [reflexivity|]. apply Hs, (signer_place value q e i Hq Hx).
  - intros c _ Hc. now apply T2.
Qed.

Lemma sec_updated sec x : (length sec = 32 /\ r <= 32)%nat -> (forall i, (i < r)%nat -> sok (nth i sec zero)) ->
  sok x -> forall i, (i < r)%nat -> sok (nth i (upd sec (r - 1) x) zero).
Proof.
  intros [L R] Hs Hx i Hi'. rewrite nth_upd by lia. destruct (Nat.eqb _ _); [exact Hx|now apply Hs].
Qed.

Lemma last_updated sec x : length sec = 32%nat -> sval x =[n_order]= be_val blind + sval (nth (r - 1) sec zero) ->
  sval (nth (r - 1) sec zero) =[n_order]= - zsum (fun i => sval (nth i sec zero)) (seq 0 (r - 1)) ->
  let sec' := upd sec (r - 1) x in
  sval (nth (r - 1) sec' zero) =[n_order]= be_val blind - zsum (fun i => sval (nth i sec' zero)) (seq 0 (r - 1)).
Proof.
  intros L Cx Hsum sec'. pose proof (po_most _ _ _ Hq) as R32. fold r in R32.
  pose proof (rings_pos value q e Hq) as R1. fold r in R1.
  assert (E : zsum (fun i => sval (nth i sec' zero)) (seq 0 (r - 1)) = zsum (fun i => sval (nth i sec zero)) (seq 0 (r - 1))).
  { apply zsum_ext. intros i Hx. apply in_seq in Hx. unfold sec'. rewrite nth_upd by lia.
    now rewrite (proj2 (Nat.eqb_neq _ _)) by lia. }
  rewrite E. unfold sec'. rewrite nth_upd, Nat.eqb_refl, Cx, Hsum by lia. apply cong_eq. ring.
Qed.

(** The hash that is signed. *)
Lemma message_hash hdr Ds sha : (length hdr <= 10)%nat -> length Ds = (r - 1)%nat -> (r <= 32)%nat ->
  repr sha ((quad_bytes 1 C ++ quad_bytes 1 H ++ hdr) ++ concat (map (quad_bytes 1) Ds)) ->
  Forall (fun P => P <> Inf) Ds ->
  snd (secp256k1_sha256_finalize (match extra with Some e => secp256k1_sha256_write sha e | None => sha end))
  = fips_sha256 (quad_bytes 1 C ++ quad_bytes 1 H ++ hdr ++ concat (map (quad_bytes 1) Ds) ++ octets_at extra).
Proof.
  intros Lh LD R32 Hs HD.
  assert (Hs' : repr (match extra with Some e => secp256k1_sha256_write sha e | None => sha end)
    (((quad_bytes 1 C ++ quad_bytes 1 H ++ hdr) ++ concat (map (quad_bytes 1) Ds)) ++ octets_at extra)).
  { unfold octets_at in *. destruct extra as [b|]; [now apply write_repr|now rewrite app_nil_r]. }
  assert (LO : (length (concat (map (quad_bytes 1) Ds)) = 33 * length Ds)%nat).
  { clear - HD. induction HD as [|P Ds HP _ IH]; [reflexivity|]. cbn [map concat length].
    rewrite length_app, (proj2 (quad_bytes1_ok P HP)), IH. lia. }
  destruct (finalize_spec _ _ Hs') as [E _]; [|rewrite E; now rewrite <- !app_assoc].
  rewrite !length_app, LO, (proj2 (quad_bytes1_ok C FC)), (proj2 (quad_bytes1_ok H FH)). lia.
Qed.

(** The ring members in the array. *)
Lemma signer_points sec pubs :
  sval (nth (r - 1) sec zero) =[n_order]= be_val blind - zsum (fun i => sval (nth i sec zero)) (seq 0 (r - 1)) ->
  points_written H sec (psecidx q) (pscale q) 0 r (repeat junk 128) pubs ->
  let Ds := map (digit_point H sec (psecidx q) (pscale q)) (seq 0 (r - 1)) in
  forall c, (c < npub)%nat ->
  gej_rep (nth c (secp256k1_rangeproof_pub_expand junk pubs (pexp q) (prsizes q) r genp) junk)
    (ring_member H (digit_commitment C H (pmin_value q) Ds) (pscale q) c).
Proof.
  intros Hlast [P1 P2 _ P4] Ds c Hc. rewrite repeat_length in P1.
  pose proof (proj1 (proj2 RH)) as CH. pose proof (po_rings _ _ _ Hq) as Lr. fold r in Lr.
  pose proof (commitments_are_digits H CH blind value q e Hq sec Hlast) as CD. fold r C Ds in CD.
  assert (CC : forall i, on_curve (digit_commitment C H (pmin_value q) Ds i)).
  { intros i. destruct (Nat.lt_ge_cases i r) as [L|L]; [rewrite CD by exact L; now apply curve_digit|].
    unfold digit_commitment. rewrite nth_overflow; [exact I|]. rewrite length_app. unfold Ds. rewrite length_map, length_seq.
    pose proof (rings_pos value q e Hq) as R1. fold r in R1. cbn [length]. lia. }
  rewrite <- Lr. pose proof (po_exp _ _ _ Hq) as [Ee _].
  assert (Esc : pscale q = 10 ^ Z.max 0 (pexp q)) by (rewrite (po_scale _ _ _ Hq); f_equal; lia).
  rewrite Esc. apply (pub_expand_spec junk Hjunk H CH); try assumption; [apply (po_sizes _ _ _ Hq)| |].
  - pose proof (po_npub _ _ _ Hq). rewrite P1. lia.
  - intros j Hj. rewrite Lr in Hj. rewrite CD by exact Hj. exact (proj1 (P4 j Hj)).
Qed.

(** From the ring signature on. *)
Lemma rings_finished hdr plen sec s k proof' plen' proof sha pubs sb :
  (length hdr <= 10)%nat -> Forall is_byte hdr -> (forall i, (i < r)%nat -> sok (nth i sec zero)) ->
  sval (nth (r - 1) sec zero) =[n_order]= be_val blind - zsum (fun i => sval (nth i sec zero)) (seq 0 (r - 1)) ->
  length s = 128%nat -> scalars_ok npub s -> (forall i, (i < r)%nat -> sok (nth i k zero)) ->
  (forall c, (c < npub)%nat -> (forall i, (i < r)%nat -> c <> signer (psecidx q) i) -> sval (nth c s zero) <> 0) ->
  let Ds := map (digit_point H sec (psecidx q) (pscale q)) (seq 0 (r - 1)) in
  let n := ((r + 6) / 8)%nat in let len := (length hdr + n + 32 * (r - 1))%nat in
  (forall c, (c < npub)%nat -> ring_member H (digit_commitment C H (pmin_value q) Ds) (pscale q) c <> Inf) ->
  (len + 32 + 32 * npub <= length proof)%nat ->
  digits_written hdr n (quad_bytes 1 C ++ quad_bytes 1 H ++ hdr) Ds proof len sha sb ->
  points_written H sec (psecidx q) (pscale q) 0 r (repeat junk 128) pubs ->
  (let '(_, tmp) := secp256k1_sha256_finalize
     (match extra with Some e => secp256k1_sha256_write sha e | None => sha end) in
   let '(ok, (e0, s)) :=
     secp256k1_borromean_sign junk sha0 ctx gen_ctx (slice proof len 32) s
       (secp256k1_rangeproof_pub_expand junk pubs (pexp q) (prsizes q) r genp) k sec (prsizes q) (psecidx q) r tmp in
   let proof := overwrite proof len e0 in
   if negb ok then (false, (proof, plen)) else
   let '(proof, len) := write_scalars proof (len + 32) s 0 npub in
   (true, (proof, Z.of_nat len))) = (true, (proof', plen')) ->
  exists sb e0 s', signed hdr sec proof' plen' sb e0 s'.
Proof.
  intros Lh Bh Osec Hlast Ls Os Ok Nz Ds n len Fin Room [W1 W2 W3 W4] PW E.
  pose proof (proj1 (proj2 RH)) as CH.
  pose proof (rings_pos value q e Hq) as R1. pose proof (po_rings _ _ _ Hq) as Lr. fold r in R1, Lr.
  pose proof (po_sizes _ _ _ Hq) as RS. pose proof (po_npub _ _ _ Hq) as Np. fold npub in Np.
  pose proof (length_Ds H q sec) as LDs. fold r Ds in LDs. pose proof (po_most _ _ _ Hq) as R32. fold r in R32.
  set (M := quad_bytes 1 C ++ quad_bytes 1 H ++ hdr ++ concat (map (quad_bytes 1) Ds) ++ octets_at extra).
  assert (EM : snd (secp256k1_sha256_finalize (match extra with Some e => secp256k1_sha256_write sha e | None => sha end))
    = fips_sha256 M).
  { exact (message_hash hdr Ds sha Lh LDs R32 W3 (Forall_impl _ (fun P HP => proj2 HP) W4)). }
  destruct (secp256k1_sha256_finalize _) as [hh tmp]. cbn [snd] in EM. subst tmp.
  set (pubs' := secp256k1_rangeproof_pub_expand _ _ _ _ _ _) in *.
  destruct (secp256k1_borromean_sign _ _ _ _ _ _ _ _ _ _ _ _ _) as [ok [e0 s']] eqn:EB.
  destruct ok; cbn [negb] in E; [|discriminate E].
  pose proof (signer_points sec pubs Hlast PW) as EP. cbv zeta in EP. fold Ds pubs' in EP.
  rewrite <- Lr in EB.
  pose proof (borromean_sign_spec junk sha0 Hjunk Hs0 ctx HC pubs' _ npub EP (fips_sha256 M) (fips_sha256_byte M)
    ltac:(rewrite length_fips_sha256; reflexivity) gen_ctx HG k sec (psecidx q) r Ok Osec Fin (slice proof len 32) s (prsizes q) e0 s' Os
    ltac:(lia) (le_n npub) ltac:(lia) ltac:(lia)) as BS.
  destruct BS as (He0 & Os' & _ & BV).
  { apply (rings_ready_intro _ sec (psecidx q) s (prsizes q) RS 0).
    - intros t Ht. rewrite Lr in Ht. cbn [Nat.add]. split; [exact (po_digits _ _ _ Hq t Ht)|].
      exact (signer_member H CH blind value q e Hq sec Hlast t Ht).
    - intros c Hc Nc. cbn [Nat.add] in *. apply Nz; [lia|]. intros i Hx. apply Nc. lia. }
  { exact EB. }
  destruct (starts_write proof len _ e0 W1 ltac:(rewrite (proj1 He0); lia)) as [S2 L2].
  rewrite (proj1 He0) in S2.
  pose proof (write_scalars_spec s' npub 0 _ (len + 32)%nat _ S2 ltac:(lia) (fun c Hc => Os' c (proj2 Hc))) as WS.
  destruct (write_scalars _ _ _ _ _) as [proof3 len3]. destruct WS as [S3 ->]. injection E as <- <-.
  exists sb, e0, s'. split; rewrite ?Nat2Z.id; try assumption.
  - unfold proof_bytes. rewrite <- !app_assoc in S3. exact S3.
  - f_equal. unfold len, n. lia.
  - intros i Hx. exact (proj2 (pw_rep _ _ _ _ _ _ _ _ PW i Hx)).
Qed.

(** From the commitments to the digits on. *)
Lemma rings_signed hdr proof plen len sha sec s k proof' plen' : starts proof len hdr ->
  (len + (r + 6) / 8 + 32 * r + 32 * npub <= length proof)%nat -> (length hdr <= 10)%nat -> Forall is_byte hdr ->
  repr sha (quad_bytes 1 C ++ quad_bytes 1 H ++ hdr) ->
  (forall i, (i < r)%nat -> sok (nth i sec zero)) ->
  sval (nth (r - 1) sec zero) =[n_order]= be_val blind - zsum (fun i => sval (nth i sec zero)) (seq 0 (r - 1)) ->
  length s = 128%nat -> scalars_ok npub s -> (forall i, (i < r)%nat -> sok (nth i k zero)) ->
  (forall c, (c < npub)%nat -> (forall i, (i < r)%nat -> c <> signer (psecidx q) i) -> sval (nth c s zero) <> 0) ->
  let Ds := map (digit_point H sec (psecidx q) (pscale q)) (seq 0 (r - 1)) in
  (forall c, (c < npub)%nat -> ring_member H (digit_commitment C H (pmin_value q) Ds) (pscale q) c <> Inf) ->
  (let nsigns := ((r + 6) / 8)%nat in
   let proof := overwrite proof len (repeat 0 nsigns) in
   let '(ok, (proof, len, sha, pubs, npub)) :=
     commit_digits junk junk_ints gen_ctx proof len (len + nsigns) sha (repeat junk 128) sec (psecidx q) (pscale q)
       genp (firstn r (prsizes q)) 0 0 in
   if negb ok then (false, (proof, plen)) else
   let pubs := secp256k1_rangeproof_pub_expand junk pubs (pexp q) (prsizes q) r genp in
   let sha := match extra with Some e => secp256k1_sha256_write sha e | None => sha end in
   let '(_, tmp) := secp256k1_sha256_finalize sha in
   let '(ok, (e0, s)) :=
     secp256k1_borromean_sign junk sha0 ctx gen_ctx (slice proof len 32) s pubs k sec (prsizes q) (psecidx q) r tmp in
   let proof := overwrite proof len e0 in
   if negb ok then (false, (proof, plen)) else
   let '(proof, len) := write_scalars proof (len + 32) s 0 npub in
   (true, (proof, Z.of_nat len))) = (true, (proof', plen')) ->
  exists sb e0 s', signed hdr sec proof' plen' sb e0 s'.
Proof.
  intros S Room Lh Bh Hsha Osec Hlast Ls Os Ok Nz Ds Fin E. cbv zeta in E.
  pose proof (rings_pos value q e Hq) as R1. pose proof (po_rings _ _ _ Hq) as Lr. fold r in R1, Lr.
  pose proof (po_sizes _ _ _ Hq) as RS. pose proof (po_npub _ _ _ Hq) as Np. fold npub in Np.
  destruct (ring_sizes_total _ RS) as (Et & Bt & _). fold npub in Et. rewrite Lr in Et, Bt.
  set (n := ((r + 6) / 8)%nat) in *. destruct (starts_write proof len hdr (repeat 0 n) S) as [S1 L1];
    [rewrite repeat_length; lia|]. rewrite repeat_length in S1. set (proof1 := overwrite proof len _) in *.
  assert (El : len = length hdr) by (now destruct S). rewrite <- Lr, firstn_all, El in E.
  assert (DW : digits_written hdr n (quad_bytes 1 C ++ quad_bytes 1 H ++ hdr) [] proof1 (length hdr + n) sha (repeat 0 n)).
  { split; [|apply bits_start| |constructor].
    - unfold xcoords. cbn [map concat]. rewrite app_nil_r, <- El. exact S1.
    - cbn [map concat]. rewrite app_nil_r. exact Hsha. }
  assert (Room8 : (r - 1 <= 8 * n)%nat)
    by (unfold n; pose proof (Nat.div_mod_eq (r + 6) 8); pose proof (Nat.mod_upper_bound (r + 6) 8 ltac:(lia)); lia).
  pose proof (commit_digits_spec H genp RH FH sec (psecidx q) (pscale q) Hints gen_ctx HG hdr n _ (prsizes q) RS 0 proof1
    (length hdr + n) sha (repeat junk 128) (repeat 0 n) [] eq_refl DW) as CD.
  specialize (CD ltac:(intros j Hj; rewrite Lr in Hj; split; [now apply Osec|now apply (digit_value_fits value q e)])
    (proj1 (digit_value_fits value q e O Hq Hv ltac:(fold r; lia))) ltac:(lia) ltac:(lia)
    ltac:(rewrite repeat_length; fold npub; lia)
    ltac:(apply Forall_forall; intros g Hg; apply repeat_spec in Hg; now subst g)).
  change (4 * 0)%nat with O in CD.
  destruct (commit_digits _ _ _ _ _ _ _ _ _ _ _ _ _ _ _) as [ok [[[[proof2 len2] sha2] pubs2] npub2]].
  destruct ok; cbn [negb] in E; [|discriminate E]. destruct (CD eq_refl) as (sb & D1 & D2 & D3 & D4 & D5).
  cbn [app Nat.add] in D1, D4, D5. rewrite Lr in *. fold Ds in D1. fold npub in D4. subst npub2 len2.
  exact (rings_finished hdr plen sec s k proof' plen' proof2 sha2 pubs2 sb Lh Bh Osec Hlast Ls Os Ok Nz Fin
    ltac:(lia) D1 D5 E).
Qed.

Lemma sign_rings_spec hdr proof plen len sha sec s proof' plen' : starts proof len hdr ->
  (len + (r + 6) / 8 + 32 * r + 32 * npub <= length proof)%nat -> (length hdr <= 10)%nat -> Forall is_byte hdr ->
  repr sha (quad_bytes 1 C ++ quad_bytes 1 H ++ hdr) -> length sec = 32%nat -> length s = 128%nat ->
  (forall i, (i < r)%nat -> sok (nth i sec zero)) ->
  sval (nth (r - 1) sec zero) =[n_order]= - zsum (fun i => sval (nth i sec zero)) (seq 0 (r - 1)) ->
  (forall c, (c < npub)%nat -> sok (nth c s zero) /\ sval (nth c s zero) <> 0) ->
  sign_rings junk junk_ints junk_scalar sha0 ctx gen_ctx proof plen len q sha sec s blind extra genp
    = (true, (proof', plen')) ->
  exists x, let sec' := upd sec (r - 1) x in
    let Ds := map (digit_point H sec' (psecidx q) (pscale q)) (seq 0 (r - 1)) in
    sok x /\ sval x =[n_order]= be_val blind + sval (nth (r - 1) sec zero) /\ sval x <> 0 /\
    ((forall c, (c < npub)%nat -> ring_member H (digit_commitment C H (pmin_value q) Ds) (pscale q) c <> Inf) ->
     exists sb e0 s', signed hdr sec' proof' plen' sb e0 s').
Proof.
  intros S Room Lh Bh Hsha Lsec Ls Osec Hsum Hs E. unfold sign_rings in E. cbv zeta in E. fold r in E.
  destruct (take_nonces _ _ _ _ _) as [k s1] eqn:TN.
  destruct (nonces_ready s k s1 Ls Hs TN) as (Ls1 & Os1 & Hk & Hn).
  pose proof (po_most _ _ _ Hq) as R32. fold r in R32.
  pose proof (s_set_b32_ok blind (proj2 Hb) (proj1 Hb)) as SB. destruct (s_set_b32 blind) as [stmp ov].
  destruct SB as (Ost & Vst & Eov). pose proof (rings_pos value q e Hq) as R1. fold r in R1.
  pose proof (s_add_ok _ stmp (Osec (r - 1)%nat ltac:(lia)) Ost) as A. destruct (s_add _ stmp) as [x ox].
  destruct A as (Ox & Vx & _). destruct (ov || s_is_zero x) eqn:Eg; [discriminate E|].
  apply orb_false_iff in Eg. destruct Eg as [_ Ez]. rewrite (s_is_zero_ok _ Ox) in Ez. apply Z.eqb_neq in Ez.
  assert (Cx : sval x =[n_order]= be_val blind + sval (nth (r - 1) sec zero))
    by (rewrite Vx, cong_mod, Vst, cong_mod; apply cong_eq; ring).
  exists x. cbv zeta. split; [exact Ox|]. split; [exact Cx|]. split; [exact Ez|].
  set (sec' := upd sec (r - 1) x) in *. intros Fin.
  exact (rings_signed hdr proof plen len sha sec' s1 k proof' plen' S Room Lh Bh Hsha
    (sec_updated sec x (conj Lsec R32) Osec Ox) (last_updated sec x Lsec Cx Hsum) Ls1 Os1 (fun i Hx => proj2 (Hk i Hx))
    (fun c Hc Nc => eq_ind_r (fun z => sval z <> 0) (proj2 (Hs c Hc)) (Hn c Hc Nc)) Fin E).
Qed.

Lemma prepare_ok message msg_len : (msg_len <= 4096)%nat -> Forall is_byte (octets_at message) ->
  length (prepare q message msg_len) = 4096%nat /\ Forall is_byte (prepare q message msg_len).
Proof.
  intros Hl Bm. unfold prepare. cbv zeta. fold r.
  set (prep := match message with Some m => overwrite (repeat 0 4096) 0 (slice m 0 msg_len) | None => repeat 0 4096 end).
  assert (Z0 : Forall is_byte (repeat 0 4096)).
  { apply Forall_forall. intros x Hx. apply repeat_spec in Hx. subst x. unfold is_byte. lia. }
  assert (P : length prep = 4096%nat /\ Forall is_byte prep).
  { unfold prep. destruct message as [m|]; [|split; [apply repeat_length|exact Z0]]. cbn [octets_at] in Bm. split.
    - rewrite length_overwrite; [apply repeat_length|]. rewrite length_slice_min, repeat_length. lia.
    - apply overwrite_byte; [exact Z0|]. unfold slice. now apply Forall_firstn. }
  destruct P as [LP BP]. pose proof (po_rings _ _ _ Hq) as Lr. fold r in Lr.
  pose proof (po_npub _ _ _ Hq) as Np. destruct (ring_sizes_total _ (po_sizes _ _ _ Hq)) as (Et & Bt & _).
  rewrite Lr in Et, Bt. destruct (Nat.ltb_spec 1 (nth (r - 1) (prsizes q) O)) as [L|L]; [|now split].
  set (idx := if Nat.eqb _ _ then _ else _).
  assert (Hi' : (idx < nth (r - 1) (prsizes q) O)%nat) by (unfold idx; destruct (Nat.eqb _ _); lia).
  destruct (value_block_ok (pv q)) as [VL VB]. rewrite encode_value_eq by lia. split.
  - rewrite length_overwrite; rewrite ?VL; lia.
  - now apply overwrite_byte.
Qed.

Lemma sign_body_spec fuel proof plen len commit nonce message msg_len proof' plen' hdr : starts proof len hdr ->
  (length hdr <= 10)%nat -> Forall is_byte hdr -> Forall is_byte proof -> plen <= Z.of_nat (length proof) ->
  65 <= plen < 2 ^ 60 -> ge_rep commit C -> Forall is_byte nonce -> Forall is_byte (octets_at message) ->
  sign_body junk junk_ints junk_scalar sha0 hmac0 fuel ctx gen_ctx proof plen len q commit blind nonce message msg_len
    extra genp = Some (true, (proof', plen')) ->
  exists draws sec s m' x, let prep := prepare q message msg_len in
    let sec' := upd sec (r - 1) x in
    let Ds := map (digit_point H sec' (psecidx q) (pscale q)) (seq 0 (r - 1)) in
    ring_draws fuel (range_seed nonce C H hdr) (prsizes q) 0 = Some draws /\
    all_good prep 0 (member_blocks draws) = true /\
    numbered (repeat junk_scalar 128) prep 0 (member_blocks draws) s m' /\
    drawn (repeat junk_scalar 32) (s_clear junk_scalar) 0 draws sec /\
    sok x /\ sval x =[n_order]= be_val blind + sval (nth (r - 1) sec zero) /\ sval x <> 0 /\
    ((forall c, (c < npub)%nat -> ring_member H (digit_commitment C H (pmin_value q) Ds) (pscale q) c <> Inf) ->
     plen' <= plen /\ exists sb e0 s', signed hdr sec' proof' plen' sb e0 s').
Proof.
  intros S Lh Bh Bp Hpl Rpl RC Bn Bm E. unfold sign_body in E. cbv zeta in E. fold r in E.
  destruct (_ && _) eqn:EM; [discriminate E|].
  destruct (Z.ltb_spec (u64 (plen - Z.of_nat len)) (Z.of_nat (32 * (pnpub q + r - 1) + 32 + (r + 6) / 8))) as [|Room];
    [discriminate E|].
  pose proof (po_rings _ _ _ Hq) as Lr. pose proof (po_most _ _ _ Hq) as R32. fold r in Lr, R32.
  pose proof (rings_pos value q e Hq) as R1. fold r in R1. pose proof (po_npub _ _ _ Hq) as Np. fold npub in Np.
  assert (El : len = length hdr) by (now destruct S). assert (Eh : firstn len proof = hdr) by (now destruct S).
  assert (Eu : u64 (plen - Z.of_nat len) = plen - Z.of_nat len) by (apply Z.mod_small; lia). rewrite Eu in Room.
  assert (Hm : (msg_len <= 4096)%nat).
  { apply andb_false_iff in EM. rewrite !Nat.ltb_ge in EM. lia. }
  destruct (prepare_ok message msg_len Hm Bm) as [LP BP]. set (prep := prepare q message msg_len) in *.
  pose proof (genrand_spec junk_scalar sha0 hmac0 Hs0 Hi Ho fuel prep (prsizes q) nonce commit genp C H proof len
    (po_sizes _ _ _ Hq) ltac:(lia) BP LP Bn RC FC RH FH Bp ltac:(lia)) as G. cbv zeta in G. rewrite Lr, Eh in G.
  destruct (ring_draws _ _ _ _) as [draws|] eqn:ED; [|rewrite G in E; discriminate E].
  destruct G as (sec & s & m' & EG & NB & DR). rewrite EG in E.
  destruct (all_good prep 0 (member_blocks draws)) eqn:AG; cbn [negb] in E; [|discriminate E].
  injection E as E. destruct (ring_draws_length _ _ _ _ _ ED) as [LD LM]. fold npub in LM. rewrite Lr in LD.
  pose proof (hash_head sha0 Hs0 C H commit genp proof RC FC RH FH Bp len) as HH. rewrite Eh in HH.
  destruct (sign_rings_spec hdr proof plen len _ sec s proof' plen' S ltac:(lia) Lh Bh HH) as (x & Ox & Vx & Nx & SG).
  - now rewrite (dr_length _ _ _ _ _ DR), repeat_length.
  - now rewrite (proj1 (nb_length _ _ _ _ _ _ NB)), repeat_length.
  - intros i Hx. apply (dr_ok _ _ _ _ _ DR i). lia.
  - rewrite <- LD. exact (drawn_sum fuel _ _ _ (s_clear junk_scalar) draws sec ED ltac:(lia) (proj2 (s_clear_ok _)) DR).
  - intros c Hc. destruct (nb_s _ _ _ _ _ _ NB c ltac:(lia)) as [Oc Vc]. cbn [Nat.add] in Oc, Vc.
    split; [exact Oc|]. rewrite Vc. pose proof (all_good_nth prep _ 0 c AG ltac:(lia)) as Gc. cbn [Nat.add] in Gc.
    rewrite Z.mod_small; lia.
  - exact E.
  - exists draws, sec, s, m', x. split; [reflexivity|]. split; [exact AG|]. split; [exact NB|]. split; [exact DR|].
    split; [exact Ox|]. split; [exact Vx|]. split; [exact Nx|]. intros Fin.
    destruct (SG Fin) as (sb & e0 & s' & SI'). split; [|now exists sb, e0, s'].
    rewrite (sg_len _ _ _ _ _ _ _ SI'). lia.
Qed.

(** The blinding factors of the digits, and the points of the rings: the signer
    cannot use a point at infinity. *)
Definition secret (draws : list (Z * list bytes)) (i : nat) : Z :=
  if Nat.eqb i (r - 1) then be_val blind - zsum (fun k => fst (nth k draws (0, []))) (seq 0 (r - 1))
  else fst (nth i draws (0, [])).

Definition members_finite (draws : list (Z * list bytes)) : Prop :=
  forall i j, (i < r)%nat -> (j < nth i (prsizes q) O)%nat ->
  padd (smul (secret draws i) G_point)
    (smul ((Z.of_nat (nth i (psecidx q) O) - Z.of_nat j) * (4 ^ Z.of_nat i * pscale q)) H) <> Inf.

Lemma secret_ok draws sec x i : length draws = r -> (i < r)%nat ->
  fst (nth (r - 1) draws (0, [])) = 0 ->
  drawn (repeat junk_scalar 32) (s_clear junk_scalar) 0 draws sec ->
  sval x =[n_order]= be_val blind + sval (nth (r - 1) sec zero) ->
  sval (nth i (upd sec (r - 1) x) zero) =[n_order]= secret draws i.
Proof.
  intros LD Hx E0 [D1 _ _ D4 D5] Vx. rewrite repeat_length in D1. cbn [Nat.add] in *. rewrite LD in *.
  pose proof (po_most _ _ _ Hq) as R32. fold r in R32.
  rewrite nth_upd by lia. unfold secret. rewrite Nat.eqb_sym. destruct (Nat.eqb_spec i (r - 1)) as [->|N].
  - rewrite Vx, D5, (proj2 (s_clear_ok _)), (zsum_nth fst (0, [])), LD.
    replace r with (S (r - 1)) at 1 by lia. rewrite seq_S, zsum_app, zsum_cons. cbn [Nat.add]. rewrite E0.
    unfold zsum at 2. cbn [map fold_right]. apply cong_eq. ring.
  - apply cong_eq, D4. lia.
Qed.

Lemma members_ready draws sec x : length draws = r -> fst (nth (r - 1) draws (0, [])) = 0 ->
  drawn (repeat junk_scalar 32) (s_clear junk_scalar) 0 draws sec ->
  sval x =[n_order]= be_val blind + sval (nth (r - 1) sec zero) -> members_finite draws ->
  let Ds := map (digit_point H (upd sec (r - 1) x) (psecidx q) (pscale q)) (seq 0 (r - 1)) in
  sval (nth (r - 1) (upd sec (r - 1) x) zero) =[n_order]=
    be_val blind - zsum (fun i => sval (nth i (upd sec (r - 1) x) zero)) (seq 0 (r - 1)) ->
  forall c, (c < npub)%nat -> ring_member H (digit_commitment C H (pmin_value q) Ds) (pscale q) c <> Inf.
Proof.
  intros LD E0 DR Vx MF Ds Hlast c Hc. pose proof (proj1 (proj2 RH)) as CH.
  pose proof (po_rings _ _ _ Hq) as Lr. fold r in Lr. pose proof (Nat.mod_upper_bound c 4 ltac:(lia)) as M4.
  pose proof (Nat.div_mod_eq c 4) as Dc. destruct (ring_sizes_total _ (po_sizes _ _ _ Hq)) as (Et & Bt & _).
  fold npub in Et. rewrite Lr in Et, Bt. pose proof (rings_pos value q e Hq) as R1. fold r in R1.
  assert (Hi' : (c / 4 < r)%nat) by lia.
  assert (Hj : (c mod 4 < nth (c / 4) (prsizes q) O)%nat).
  { destruct (ring_sizes_nth (prsizes q) (c / 4) (po_sizes _ _ _ Hq) ltac:(lia)) as [_ N4].
    destruct (Nat.eq_dec (c / 4) (r - 1)) as [E|N]; [rewrite E; lia|rewrite N4; lia]. }
  specialize (MF _ _ Hi' Hj). unfold ring_member.
  pose proof (commitments_are_digits H CH blind value q e Hq _ Hlast _ Hi') as CD. fold r C Ds in CD. rewrite CD.
  unfold digit_point, digit_value.
  set (w := 4 ^ Z.of_nat (c / 4) * pscale q) in *. rewrite padd_assoc, <- smul_add by oc.
  rewrite (smul_cong _ _ (secret_ok draws sec x _ LD Hi' E0 DR Vx)).
  replace (Z.of_nat (nth (c / 4) (psecidx q) O) * w + Z.of_nat (c mod 4) * - w)
    with ((Z.of_nat (nth (c / 4) (psecidx q) O) - Z.of_nat (c mod 4)) * w) by ring. exact MF.
Qed.

(** What is in the buffer is a valid proof. *)
Lemma signed_valid sec proof plen sb e0 s' : signed (header_bytes q) sec proof plen sb e0 s' ->
  sval (nth (r - 1) sec zero) =[n_order]= be_val blind - zsum (fun i => sval (nth i sec zero)) (seq 0 (r - 1)) ->
  let Ds := map (digit_point H sec (psecidx q) (pscale q)) (seq 0 (r - 1)) in
  let P := proof_bytes (header_bytes q) sb e0 Ds s' npub in
  let h := header_of q e in
  range_digits P (Z.to_nat (h_offset h)) (length (fst (rings_of (h_mantissa h)))) = Some Ds /\
  range_valid C H (octets_at extra) h P Ds.
Proof.
  intros SG Hlast Ds P h. set (hdr := header_bytes q) in *.
  pose proof (proj1 (proj2 RH)) as CH. pose proof (rings_pos value q e Hq) as R1. fold r in R1.
  pose proof (length_Ds H q sec) as LD. fold r Ds in LD.
  assert (HD : Forall (fun P => on_curve P /\ P <> Inf) Ds).
  { apply Forall_forall. intros Q HQ. apply in_map_iff in HQ. destruct HQ as (i & <- & Hx). apply in_seq in Hx.
    split; [now apply curve_digit|]. apply (sg_digits _ _ _ _ _ _ _ SG). lia. }
  pose proof (sg_signs _ _ _ _ _ _ _ SG) as SB. fold Ds in SB. pose proof (sg_ok _ _ _ _ _ _ _ SG) as Os.
  pose proof (sg_e0 _ _ _ _ _ _ _ SG) as [Le0 _].
  assert (Eo : Z.to_nat (h_offset h) = length hdr) by apply Nat2Z.id.
  assert (Esh : rings_of (h_mantissa h) = (prsizes q, npub)) by apply (po_shape _ _ _ Hq).
  assert (Er : length (fst (rings_of (h_mantissa h))) = r) by (rewrite Esh; apply (po_rings _ _ _ Hq)).
  destruct (layout_digits hdr sb e0 Ds s' (length hdr) r npub eq_refl SB R1 LD HD Le0) as [D1 D2].
  pose proof (layout_signs hdr sb e0 Ds s' (length hdr) r npub eq_refl SB R1 LD Le0) as LS. fold P in D1, D2, LS.
  pose proof (layout_number hdr sb e0 Ds s' _ r npub eq_refl SB R1 LD HD Le0 Os) as LN. fold P in LN.
  rewrite Eo, Er. split; [exact D1|]. split.
  - rewrite Esh, Eo, (po_rings _ _ _ Hq). fold r. exact (layout_length hdr sb e0 Ds s' _ r npub eq_refl SB R1 LD HD Le0).
  - cbv zeta. rewrite Er, Eo. exact (layout_stray hdr sb e0 Ds s' _ r npub eq_refl SB R1 LD Le0).
  - rewrite Esh, Eo, (po_rings _ _ _ Hq). fold r. intros c Hc. rewrite (LN c Hc). apply sok_range, Os, Hc.
  - pose proof (last_is_digit H CH blind value q e Hq sec Hlast) as LI. fold r C Ds in LI.
    change (h_min h) with (pmin_value q). rewrite LI.
    apply (sg_digits _ _ _ _ _ _ _ SG). fold r. lia.
  - cbv zeta. rewrite Er, Eo. unfold range_message, range_rings. rewrite Er, Eo, Esh, D2. cbn [fst].
    pose proof (layout_header hdr sb e0 Ds s' _ npub eq_refl) as LH. fold P in LH. rewrite LH.
    pose proof (layout_challenge hdr sb e0 Ds s' _ r npub eq_refl SB LD HD Le0) as LC. fold P in LC. rewrite LC.
    pose proof (sg_rings _ _ _ _ _ _ _ SG) as BV. cbv zeta in BV. fold Ds in BV.
    erewrite rings_at_ext; [exact BV|]. intros c Hc. unfold mem. f_equal. apply LN, Hc.
Qed.

(** The header in the buffer. *)
Lemma header_byte : Forall is_byte (header_bytes q).
Proof.
  unfold header_bytes. cbv zeta. fold (flag_byte (Nat.ltb 1 (nth 0 (prsizes q) O)) (pexp q) (negb (pmin_value q =? 0))).
  set (nz := Nat.ltb 1 _). pose proof (po_exp _ _ _ Hq) as [Ee Re].
  constructor; [apply flag_byte_spec; lia|]. apply Forall_app. split.
  - destruct nz eqn:Enz; [|constructor]. constructor; [|constructor].
    destruct (header_values _ (po_ok _ _ _ Hq)) as (_ & Rm & _ & _). cbn [header_of h_mantissa] in Rm.
    assert (N : pmantissa q <> 0).
    { intros E0. pose proof (po_shape _ _ _ Hq) as S. rewrite E0 in S. cbn in S. injection S as S _.
      unfold nz in Enz. rewrite <- S in Enz. discriminate Enz. }
    unfold is_byte. lia.
  - destruct (negb _); [|constructor]. rewrite min_octets_eq. apply be_bytes_byte.
Qed.

Lemma header_written proof : Forall is_byte proof -> (10 <= length proof)%nat ->
  let nz := Nat.ltb 1 (nth 0 (prsizes q) O) in
  let has_min := negb (pmin_value q =? 0) in
  let proof1 := upd proof 0 ((if nz then 64 .| pexp q else 0) .| (if has_min then 32 else 0)) in
  let proof2 := if nz then upd proof1 1 (pmantissa q - 1) else proof1 in
  let len := if nz then 2%nat else 1%nat in
  let proof3 := if has_min then overwrite proof2 len (min_octets (pmin_value q)) else proof2 in
  let len := if has_min then (len + 8)%nat else len in
  starts proof3 len (header_bytes q) /\ Forall is_byte proof3 /\ length proof3 = length proof.
Proof.
  intros Bp L10 nz has_min proof1 proof2 len proof3 len'. pose proof header_byte as BH. unfold header_bytes in *.
  fold nz has_min in BH |- *. set (flag := (if nz then 64 .| pexp q else 0) .| (if has_min then 32 else 0)) in *.
  inversion BH as [|? ? B0 B1]; subst. apply Forall_app in B1. destruct B1 as [B1 B2].
  assert (S1 : starts proof1 1 [flag] /\ length proof1 = length proof)
    by exact (starts_byte proof 0 [] flag (conj eq_refl eq_refl) ltac:(lia)).
  assert (S2 : starts proof2 len (flag :: (if nz then [pmantissa q - 1] else [])) /\ length proof2 = length proof).
  { unfold proof2, len. destruct S1 as [S1 L1]. destruct nz; [|now split]. rewrite <- L1.
    exact (starts_byte proof1 1 [flag] _ S1 ltac:(lia)). }
  assert (F1 : Forall is_byte proof1) by (apply Forall_upd; assumption).
  assert (F2 : Forall is_byte proof2)
    by (unfold proof2; destruct nz; [apply Forall_upd; [exact F1|now inversion B1]|exact F1]).
  destruct S2 as [S2 L2]. unfold proof3, len'. destruct has_min.
  - assert (L8 : length (min_octets (pmin_value q)) = 8%nat) by now rewrite min_octets_eq, length_be_bytes.
    destruct (starts_write proof2 len _ (min_octets (pmin_value q)) S2) as [S3 L3].
    { rewrite L8, L2. unfold len. destruct nz; lia. }
    rewrite L8 in S3. split; [exact S3|].
    split; [now apply overwrite_byte|now rewrite L3].
  - rewrite app_nil_r. split; [exact S2|]. split; [exact F2|exact L2].
Qed.

Lemma signed_bytes sec proof plen sb e0 s' : signed (header_bytes q) sec proof plen sb e0 s' ->
  Forall is_byte (proof_bytes (header_bytes q) sb e0
    (map (digit_point H sec (psecidx q) (pscale q)) (seq 0 (r - 1))) s' npub).
Proof.
  intros SG. unfold proof_bytes. rewrite !Forall_app. split; [exact header_byte|].
  split; [apply (sg_signs _ _ _ _ _ _ _ SG)|]. split; [|split; [apply (sg_e0 _ _ _ _ _ _ _ SG)|]].
  - unfold xcoords. apply Forall_concat, Forall_map, Forall_forall. intros P HP.
    apply in_map_iff in HP. destruct HP as (i & <- & Hx). apply in_seq in Hx.
    apply xcoord_ok, (sg_digits _ _ _ _ _ _ _ SG). lia.
  - unfold number_octets. apply Forall_concat, Forall_map, Forall_forall. intros c _. apply be_bytes_byte.
Qed.

(** A run that does not fail in its tests goes on after the header. *)
Lemma sign_impl_enter fuel proof plen mn commit nonce exp mb message msg_len res :
  Forall is_byte proof -> plen <= Z.of_nat (length proof) -> secp256k1_range_proveparams mn exp mb value = Some q ->
  secp256k1_rangeproof_sign_impl junk junk_ints junk_scalar sha0 hmac0 fuel ctx gen_ctx proof plen mn commit blind nonce
    exp mb value message msg_len extra genp = res ->
  (forall b, res <> Some (false, b)) -> 65 <= plen /\ exists proof' len,
    starts proof' len (header_bytes q) /\ Forall is_byte proof' /\ length proof' = length proof /\
    sign_body junk junk_ints junk_scalar sha0 hmac0 fuel ctx gen_ctx proof' plen len q commit blind nonce message msg_len
      extra genp = res.
Proof.
  intros Bp Hpl EQ E Hres. unfold secp256k1_rangeproof_sign_impl in E. rewrite EQ in E.
  destruct (_ || _) eqn:EA; [exfalso; now apply (Hres (proof, plen))|].
  rewrite !orb_false_iff, !Z.ltb_ge in EA. split; [lia|]. cbv zeta in E.
  pose proof (header_written proof Bp ltac:(lia)) as HW. cbv zeta in HW. cbn [Nat.add] in E.
  match type of HW with starts ?b ?l _ /\ _ => exists b, l end. repeat (split; [apply HW|]). exact E.
Qed.

(** Without enough fuel nothing is returned, and only then. *)
Lemma sign_impl_none fuel proof plen mn commit nonce exp mb message msg_len :
  Forall is_byte proof -> plen <= Z.of_nat (length proof) -> ge_rep commit C ->
  Forall is_byte nonce -> Forall is_byte (octets_at message) ->
  secp256k1_range_proveparams mn exp mb value = Some q ->
  secp256k1_rangeproof_sign_impl junk junk_ints junk_scalar sha0 hmac0 fuel ctx gen_ctx proof plen mn commit blind nonce
    exp mb value message msg_len extra genp = None ->
  ring_draws fuel (range_seed nonce C H (header_bytes q)) (prsizes q) 0 = None.
Proof.
  intros Bp Hpl RC Bn Bm EQ E.
  destruct (sign_impl_enter _ _ _ _ _ _ _ _ _ _ _ Bp Hpl EQ E ltac:(discriminate)) as (L65 & proof3 & len & S & B3 & L3 & EB).
  clear E. unfold sign_body in EB. cbv zeta in EB. fold r in EB.
  destruct (_ && _) eqn:EM; [discriminate EB|]. destruct (_ <? _); [discriminate EB|].
  assert (Hm : (msg_len <= 4096)%nat).
  { apply andb_false_iff in EM. rewrite !Nat.ltb_ge in EM. pose proof (po_most _ _ _ Hq) as R32. fold r in R32. lia. }
  destruct (prepare_ok message msg_len Hm Bm) as [LP BP]. pose proof (po_rings _ _ _ Hq) as Lr. fold r in Lr.
  pose proof (po_most _ _ _ Hq) as R32. fold r in R32. pose proof (header_length q) as Lh. destruct S as [Eh Ll].
  pose proof (genrand_spec junk_scalar sha0 hmac0 Hs0 Hi Ho fuel _ (prsizes q) nonce commit genp C H proof3 len
    (po_sizes _ _ _ Hq) ltac:(lia) BP LP Bn RC FC RH FH B3 ltac:(lia)) as G. cbv zeta in G. rewrite Lr, Eh in G.
  destruct (ring_draws _ _ _ _) as [draws|]; [|reflexivity]. destruct G as (sec & s & m' & EG & _). rewrite EG in EB.
  destruct (negb _); discriminate EB.
Qed.

(** The proof of a successful run. *)
Lemma sign_impl_spec fuel proof plen mn commit nonce exp mb message msg_len proof' plen' :
  Forall is_byte proof -> plen <= Z.of_nat (length proof) -> plen < 2 ^ 60 -> ge_rep commit C ->
  Forall is_byte nonce -> Forall is_byte (octets_at message) ->
  secp256k1_range_proveparams mn exp mb value = Some q ->
  (forall draws, ring_draws fuel (range_seed nonce C H (header_bytes q)) (prsizes q) 0 = Some draws ->
     members_finite draws) ->
  secp256k1_rangeproof_sign_impl junk junk_ints junk_scalar sha0 hmac0 fuel ctx gen_ctx proof plen mn commit blind nonce
    exp mb value message msg_len extra genp = Some (true, (proof', plen')) ->
  0 <= plen' <= plen /\ exists P Ds, let h := header_of q e in
    starts proof' (Z.to_nat plen') P /\
    range_digits P (Z.to_nat (h_offset h)) (length (fst (rings_of (h_mantissa h)))) = Some Ds /\
    range_valid C H (octets_at extra) h P Ds /\ (exists rest, P = header_bytes q ++ rest) /\
    Forall is_byte P.
Proof.
  intros Bp Hpl Lpl RC Bn Bm EQ MF E.
  destruct (sign_impl_enter _ _ _ _ _ _ _ _ _ _ _ Bp Hpl EQ E ltac:(discriminate)) as (L65 & proof3 & len & S & B3 & L3 & EB).
  pose proof (header_length q) as Lh.
  destruct (sign_body_spec fuel proof3 plen len commit nonce message msg_len proof' plen' (header_bytes q) S
    ltac:(lia) header_byte B3 ltac:(lia) ltac:(lia) RC Bn Bm EB) as (draws & sec & s & m' & x & ED & _ & _ & DR & Ox & Vx & _ & K).
  pose proof (ring_draws_last _ _ _ _ _ ED) as E0. destruct (ring_draws_length _ _ _ _ _ ED) as [LD _].
  pose proof (po_rings _ _ _ Hq) as Lr. fold r in Lr. rewrite Lr in LD.
  pose proof (rings_pos value q e Hq) as R1. fold r in R1. rewrite LD in E0.
  pose proof (drawn_sum fuel _ _ _ (s_clear junk_scalar) draws sec ED ltac:(lia) (proj2 (s_clear_ok _)) DR) as Sum.
  rewrite LD in Sum. pose proof (dr_length _ _ _ _ _ DR) as Ls. rewrite repeat_length in Ls.
  pose proof (last_updated sec x Ls Vx Sum) as Hlast. cbv zeta in Hlast.
  destruct (K (members_ready draws sec x LD E0 DR Vx (MF draws ED) Hlast)) as [Hle (sb & e0 & s' & SG)].
  split; [rewrite (sg_len _ _ _ _ _ _ _ SG) in *; lia|].
  destruct (signed_valid _ _ _ _ _ _ SG Hlast) as [D V]. eexists _, _. cbv zeta in *.
  split; [exact (sg_starts _ _ _ _ _ _ _ SG)|]. split; [exact D|]. split; [exact V|].
  split; [now eexists|]. exact (signed_bytes _ _ _ _ _ _ SG).
Qed.
End Run.
End Sign.
