(* ===== verification/RangeproofProperties.v ===== *)
(** * modules/rangeproof: signing and verifying at the interface

    The functions of main_impl.h put together: a proof that is signed for a
    commitment is accepted by the verification, which gives a range that has
    the value in it. *)
From S2P Require Import Field5x52 Scalar4x64.
From S2P Require Import Prelude Primes FieldSpec Field ScalarSpec Scalar Sha256Spec Hash.
From S2P Require Import CurveSpec CurveGroup CurveOrder CurveCount Residue Svdw Group.
From S2P Require Import Ecmult EcmultGen EcmultConst EcmultProperties Ecdsa Eckey Der Api.
From S2P Require Import EcdsaProperties ApiProperties Generator Pedersen PedersenProperties RangeParams Borromean.
From S2P Require Import Rangeproof RangeproofVerify RangeproofRandom RangeproofBuffer RangeproofSign.

(** The parameters that were chosen, and the exponent they are read back with. *)
Lemma chosen_params_ok mn exp mb value q : 0 <= mn <= value -> value < 2 ^ 64 -> -1 <= exp <= 18 -> 0 <= mb <= 64 ->
  secp256k1_range_proveparams mn exp mb value = Some q ->
  exists e, params_ok value q e /\ mn <= pmin_value q /\ value <= h_max (header_of q e).
Proof.
  intros Hmn Hv He Hb E. pose proof (proveparams_spec mn exp mb value Hmn Hv He Hb) as S. rewrite E in S.
  destruct S as [[_ ->]|(_ & R & _)].
  - exists (-1). split; [apply exact_params_ok; lia|]. cbn. lia.
  - exists (pexp q). split; [exact (range_params_ok value mn q Hmn Hv R)|].
    pose proof (ro_min _ _ _ R). pose proof (ro_value _ _ _ R) as E1. pose proof (ro_v _ _ _ R) as Rv. split; [lia|].
    cbn [header_of h_max]. assert (Sc : 0 <= pscale q) by (rewrite (ro_scale _ _ _ R); apply Z.pow_nonneg; lia).
    assert (pv q * pscale q <= (2 ^ pmantissa q - 1) * pscale q) by (apply Z.mul_le_mono_nonneg_r; lia). lia.
Qed.

Lemma prefix_given {A} (ptr : option A) len : (ptr = None -> len = O) -> not_null ptr || Nat.eqb len 0 = true.
Proof. intros H. destruct ptr; [reflexivity|]. now rewrite (H eq_refl). Qed.

Section Properties.
Context {F : FieldImpl} {SI : ScalarImpl} (junk : secp256k1_gej) (junk_ints : list Z).
Context (junk_scalar : scalar) (sha0 : sha256_t) (hmac0 : hmac_sha256_t).
Context (Hjunk : gej_mags junk) (Hints : length junk_ints = 33%nat) (Hs0 : buf_ok sha0).
Context (Hi : buf_ok (inner hmac0)) (Ho : buf_ok (outer hmac0)).

Section Signed.
Context (ctx : secp256k1_context) (HC : ctx_ok (ecmult_ctx ctx)) (HG : gen_ctx_ok (ecmult_gen_ctx ctx)).
Context (H : point) (gen : secp256k1_generator) (RH : ge_rep (secp256k1_generator_load gen) H) (FH : H <> Inf).
Context (blind : bytes) (Hb : is_b32 blind) (value : Z) (Hv : value < 2 ^ 64).

Let C := commit_point blind value H.

Context (commit : secp256k1_pedersen_commitment) (HK : commits_to commit C).
Context (extra : option bytes) (elen : nat) (Be : Forall is_byte (octets_at (prefix_of extra elen))).
Context (Le : Z.of_nat (length (octets_at (prefix_of extra elen))) < 2 ^ 60) (Hnull : extra = None -> elen = O).

(** The bytes of a valid proof are accepted. *)
Lemma valid_accepted q e P Ds min0 max0 h : params_ok value q e ->
  (exists rest, P = header_bytes q ++ rest) -> Forall is_byte P -> Z.of_nat (length P) < 2 ^ 60 ->
  range_digits P (Z.to_nat (h_offset (header_of q e))) (length (fst (rings_of (h_mantissa (header_of q e))))) = Some Ds ->
  range_valid C H (octets_at (prefix_of extra elen)) (header_of q e) P Ds ->
  secp256k1_rangeproof_verify junk junk_ints junk_scalar sha0 hmac0 ctx (Some min0) (Some max0) h
    (Some commit) (Some P) (length P) extra elen (Some gen)
  = Some (Api true (Some (pmin_value q), Some (h_max (header_of q e))) []).
Proof.
  intros Hq [rest EP] BP LP HD V. destruct HK as [FC RC]. unfold secp256k1_rangeproof_verify.
  rewrite (proj1 HC), firstn_all, (prefix_given _ _ Hnull). cbn [negb].
  pose proof (verify_impl_spec junk junk_ints junk_scalar sha0 Hjunk Hs0 Hints hmac0 0 (ecmult_ctx ctx) None None None
    None None (Header 0 (h_exp h) (h_mantissa h) (h_scale h) min0 max0) _ _ C H P (prefix_of extra elen)
    HC RC FC RH FH BP LP Be Le) as VS. cbn [h_exp h_mantissa h_scale h_min h_max] in VS.
  assert (L65 : 65 <= Z.of_nat (length P)).
  { pose proof (rv_length _ _ _ _ _ _ V) as E. cbn [header_of h_mantissa h_offset] in E. rewrite (po_shape _ _ _ Hq), Nat2Z.id in E.
    unfold body_at in E. pose proof (header_length q). destruct (ring_sizes_total _ (po_sizes _ _ _ Hq)) as (Et & Bt & L1). lia. }
  rewrite EP in L65, LP. pose proof (po_header _ _ _ Hq (Header 0 (h_exp h) (h_mantissa h) (h_scale h) min0 max0) rest eq_refl
    ltac:(lia)) as EH. rewrite <- EP in EH. rewrite EH in VS.
  destruct (VS Ds (fun _ => HD)) as (valid & -> & E). rewrite (proj2 E (conj eq_refl V)). reflexivity.
Qed.

Lemma sign_run fuel buf plen mn nonce exp mb message msg_len :
  (message = None -> msg_len = O) ->
  secp256k1_rangeproof_sign junk junk_ints junk_scalar sha0 hmac0 fuel ctx (Some buf) (Some plen) mn (Some commit)
    (Some blind) (Some nonce) exp mb value message msg_len extra elen (Some gen)
  = match secp256k1_rangeproof_sign_impl junk junk_ints junk_scalar sha0 hmac0 fuel (ecmult_ctx ctx) (ecmult_gen_ctx ctx) buf plen
            mn (secp256k1_pedersen_commitment_load commit) blind nonce exp mb value message msg_len
            (prefix_of extra elen) (secp256k1_generator_load gen) with
    | None => None
    | Some (ret, (buf, len)) => Some (Api ret (Some buf, Some len) [])
    end.
Proof.
  intros Hm. unfold secp256k1_rangeproof_sign.
  now rewrite (prefix_given _ _ Hm), (prefix_given _ _ Hnull), (proj1 HC), (gc_built _ HG).
Qed.

(** C2: signing and verifying, at the interface. For a commitment to the value under
    the generator H, and unless a ring member other than the signer's happens to be
    the point at infinity, a run of the signer that returns 1 leaves a proof within
    the buffer whose bytes the verification accepts, for the same commitment, the
    same extra data and the same generator; the range it gives starts at or above
    the minimum asked for and contains the value. The signer never reports success
    without the proof and its length, and has no result only if the retry loop for
    the blinding factors runs out of fuel. *)
Theorem rangeproof_sign_verifies fuel buf plen mn nonce exp mb message msg_len min0 max0 h :
  Forall is_byte buf -> plen <= Z.of_nat (length buf) -> plen < 2 ^ 60 -> Forall is_byte nonce ->
  Forall is_byte (octets_at message) -> (message = None -> msg_len = O) -> 0 <= mn ->
  (forall q draws, secp256k1_range_proveparams mn exp mb value = Some q ->
     ring_draws fuel (range_seed nonce C H (header_bytes q)) (prsizes q) 0 = Some draws ->
     members_finite H blind q draws) ->
  match secp256k1_rangeproof_sign junk junk_ints junk_scalar sha0 hmac0 fuel ctx (Some buf) (Some plen) mn (Some commit)
          (Some blind) (Some nonce) exp mb value message msg_len extra elen (Some gen) with
  | Some (Api true (Some buf', Some len) _) => 0 <= len <= plen /\ exists lo hi,
      secp256k1_rangeproof_verify junk junk_ints junk_scalar sha0 hmac0 ctx (Some min0) (Some max0) h (Some commit)
        (Some (firstn (Z.to_nat len) buf')) (Z.to_nat len) extra elen (Some gen)
      = Some (Api true (Some lo, Some hi) []) /\ mn <= lo <= value /\ value <= hi
  | Some (Api true _ _) => False
  | Some (Api false _ _) => True
  | None => exists q, secp256k1_range_proveparams mn exp mb value = Some q /\
      ring_draws fuel (range_seed nonce C H (header_bytes q)) (prsizes q) 0 = None
  end.
Proof.
  intros Bb Hpl Lpl Bn Bm Hm Hmn MF. rewrite sign_run by exact Hm. destruct HK as [FC RC].
  match goal with |- context [match ?run with Some _ => _ | None => None end] => set (R := run) end.
  assert (NF : (forall b, R <> Some (false, b)) -> exists q e, secp256k1_range_proveparams mn exp mb value = Some q /\
    params_ok value q e /\ mn <= pmin_value q /\ value <= h_max (header_of q e)).
  { intros NR. unfold R, secp256k1_rangeproof_sign_impl in NR.
    destruct (_ || _) eqn:EA; [exfalso; now apply (NR (buf, plen))|]. rewrite !orb_false_iff, !Z.ltb_ge in EA.
    destruct (secp256k1_range_proveparams mn exp mb value) as [q|] eqn:EQ; [|exfalso; now apply (NR (buf, plen))].
    destruct (chosen_params_ok mn exp mb value q ltac:(lia) Hv ltac:(lia) ltac:(lia) EQ) as (e & K). now exists q, e. }
  destruct R as [[[|] [buf' len]]|] eqn:E; unfold R in E; clear R; [|exact I|].
  - destruct (NF ltac:(discriminate)) as (q & e & EQ & Hq & Hlo & Hhi).
    destruct (sign_impl_spec junk junk_ints junk_scalar sha0 hmac0 Hjunk Hs0 Hi Ho Hints _ HC _ HG H _ RH FH blind Hb value Hv
      q e Hq _ Be Le FC fuel buf plen mn _ nonce exp mb message msg_len buf' len Bb Hpl Lpl RC Bn Bm EQ
      (fun draws => MF q draws EQ) E) as (Rl & P & Ds & ES & HD & V & HP & BP).
    split; [exact Rl|]. exists (pmin_value q), (h_max (header_of q e)).
    destruct ES as [-> LP]. rewrite <- LP. split; [|split; [|exact Hhi]].
    + apply (valid_accepted q e P Ds); try assumption. lia.
    + pose proof (po_min _ _ _ Hq). lia.
  - destruct (NF ltac:(discriminate)) as (q & e & EQ & Hq & _). exists q. split; [exact EQ|].
    exact (sign_impl_none junk junk_ints junk_scalar sha0 hmac0 Hs0 Hi Ho Hints (ecmult_ctx ctx) (ecmult_gen_ctx ctx) H _ RH FH
      blind value q e Hq (prefix_of extra elen) FC fuel buf plen mn _ nonce exp mb message msg_len Bb Hpl RC Bn Bm EQ E).
Qed.
End Signed.

(** ** Rewinding *)

Section Rewound.
Context (Hjs : sok junk_scalar).

#[local] Abbreviation zero := (s_set_int 0).

Lemma read_scalars_sok proof n : Forall is_byte proof -> forall s offset i s' offset',
  (offset + 32 * n <= length proof)%nat -> Forall sok s ->
  read_scalars proof s offset i n = Some (s', offset') -> Forall sok s' /\ length s' = length s.
Proof.
  intros B. induction n as [|n IH]; intros s offset i s' offset' L Hs E; cbn [read_scalars] in E.
  { injection E as <- _. now split. }
  destruct (slice_ok proof offset 32 B ltac:(lia)) as [Bx Lx]. pose proof (s_set_b32_ok _ Bx Lx) as S.
  destruct (s_set_b32 _) as [x o]. destruct o; [discriminate E|].
  destruct (IH (upd s i x) (offset + 32)%nat (Datatypes.S i) s' offset' ltac:(lia) (Forall_upd _ _ _ _ Hs (proj1 S)) E) as [I1 I2].
  split; [exact I1|]. now rewrite length_upd in I2.
Qed.

Lemma read_scalars_end proof n : forall s offset i s' offset',
  read_scalars proof s offset i n = Some (s', offset') -> offset' = (offset + 32 * n)%nat.
Proof.
  induction n as [|n IH]; intros s offset i s' offset' E; cbn [read_scalars] in E; [injection E as _ <-; lia|].
  destruct (s_set_b32 _) as [x o]. destruct o; [discriminate E|]. apply IH in E. lia.
Qed.

Lemma put_sok l : Forall sok l -> forall a c, Forall sok a -> Forall sok (put a c l) /\ length (put a c l) = length a.
Proof.
  induction 1 as [|x l Hx _ IH]; intros a c Ha; cbn [put]; [now split|].
  destruct (IH (upd a c x) (S c) (Forall_upd _ _ _ _ Ha Hx)) as [I1 I2]. rewrite length_upd in I2. now split.
Qed.

Lemma scalars_for_sok es l : scalars_for es l -> Forall sok l.
Proof. induction 1 as [|e x es l [Hx _] _ IH]; now constructor. Qed.

Lemma nth_sok l c d : Forall sok l -> sok d -> sok (nth c l d).
Proof.
  intros Hl Hd. destruct (Nat.lt_ge_cases c (length l)) as [L|L]; [|now rewrite nth_overflow].
  rewrite Forall_forall in Hl. now apply Hl, nth_In.
Qed.

Lemma repeat_sok n : Forall sok (repeat junk_scalar n).
Proof. apply Forall_forall. intros x Hx. apply repeat_spec in Hx. now subst x. Qed.

Lemma zero_sok : sok zero.
Proof. apply s_set_int_ok. lia. Qed.

Lemma recover_x_ok k e s : sok k -> sok e -> sok s -> sok (secp256k1_rangeproof_recover_x k e s).
Proof.
  intros Hk He Hs. unfold secp256k1_rangeproof_recover_x. destruct (s_negate_ok _ Hs) as [On _].
  pose proof (s_add_ok _ k On Hk) as A. destruct (s_add _ k) as [x o]. destruct A as (Ox & _).
  exact (proj1 (s_mul_ok _ _ Ox (proj1 (proj2 (inverse_pow _ He))))).
Qed.

(** The numbers of the prover are drawn again. *)
Lemma genrand_again fuel rsizes nonce commit genp C H proof len : ring_sizes rsizes -> (length rsizes <= 32)%nat ->
  Forall is_byte nonce -> ge_rep commit C -> C <> Inf -> ge_rep genp H -> H <> Inf -> Forall is_byte proof -> (len <= 10)%nat ->
  match secp256k1_rangeproof_genrand junk_scalar sha0 hmac0 fuel (repeat junk_scalar 32) (repeat junk_scalar 128)
          (Some (repeat 0 4096)) rsizes (length rsizes) nonce commit proof len genp with
  | None => ring_draws fuel (range_seed nonce C H (firstn len proof)) rsizes 0 = None
  | Some (_, sec, s, prep) => (forall i, (i < length rsizes)%nat -> sok (nth i sec zero)) /\ length sec = 32%nat /\
      (forall c d, sok d -> sok (nth c s d))
  end.
Proof.
  intros Hr L32 Bn RC FC RH FH Bp Hl.
  assert (Bz : Forall is_byte (repeat 0 4096))
    by (apply Forall_forall; intros x Hx; apply repeat_spec in Hx; subst x; unfold is_byte; lia).
  pose proof (genrand_spec junk_scalar sha0 hmac0 Hs0 Hi Ho fuel _ rsizes nonce commit genp C H proof len Hr L32 Bz
    (repeat_length 0 4096) Bn RC FC RH FH Bp Hl) as G. cbv zeta in G.
  destruct (ring_draws _ _ _ _) as [draws|] eqn:ED; [|now rewrite G].
  destruct G as (sec & s & m' & -> & NB & DR). destruct (ring_draws_length _ _ _ _ _ ED) as [LD LM].
  split; [|split].
  - intros i Hx. apply (dr_ok _ _ _ _ _ DR i). lia.
  - now rewrite (dr_length _ _ _ _ _ DR), repeat_length.
  - intros c d Hd. destruct (Nat.lt_ge_cases c 128) as [L|L].
    2: { rewrite nth_overflow; [exact Hd|]. rewrite (proj1 (nb_length _ _ _ _ _ _ NB)), repeat_length. exact L. }
    rewrite (nth_indep _ d zero) by (rewrite (proj1 (nb_length _ _ _ _ _ _ NB)), repeat_length; exact L).
    destruct (Nat.lt_ge_cases c (length (member_blocks draws))) as [Lb|Lb].
    + exact (proj1 (nb_s _ _ _ _ _ _ NB c Lb)).
    + rewrite (nb_other_s _ _ _ _ _ _ NB c) by lia. apply nth_sok; [apply repeat_sok|apply zero_sok].
Qed.

Lemma rewind_inner_ok fuel m mlen ev s rsizes nonce commit genp C H proof len : ring_sizes rsizes ->
  (length rsizes <= 32)%nat -> Forall is_byte nonce -> ge_rep commit C -> C <> Inf -> ge_rep genp H -> H <> Inf ->
  Forall is_byte proof -> (len <= 10)%nat -> Forall sok ev -> Forall sok s ->
  match secp256k1_rangeproof_rewind_inner junk_scalar sha0 hmac0 fuel m mlen ev s rsizes (length rsizes) nonce commit
          proof len genp with
  | None => ring_draws fuel (range_seed nonce C H (firstn len proof)) rsizes 0 = None
  | Some (_, (blind, _, _, _)) => sok blind
  end.
Proof.
  intros Hr L32 Bn RC FC RH FH Bp Hl Hev Hs. unfold secp256k1_rangeproof_rewind_inner.
  pose proof (genrand_again fuel rsizes nonce commit genp C H proof len Hr L32 Bn RC FC RH FH Bp Hl) as G.
  destruct (secp256k1_rangeproof_genrand _ _ _ _ _ _ _ _ _ _ _ _ _ _) as [[[[ok sec] so] prep]|]; [|exact G].
  destruct G as (Hsec & Ls & Hso). destruct (ring_sizes_total _ Hr) as (_ & _ & L1). pose proof zero_sok as Z0.
  destruct (_ && _).
  { apply recover_x_ok; [now apply Hso|now apply nth_sok|now apply nth_sok]. }
  destruct (find_value _ _ _ _ _) as [[[j value] tmp]|]; [|apply s_clear_ok].
  destruct (Nat.eqb _ _); [apply s_clear_ok|].
  rewrite nth_upd, Nat.eqb_refl by lia.
  match goal with |- context [s_add (secp256k1_rangeproof_recover_x ?k ?e ?x) ?y] =>
    assert (Ox : sok (secp256k1_rangeproof_recover_x k e x))
      by (apply recover_x_ok; [now apply Hso|now apply nth_sok|now apply nth_sok]);
    assert (Oy : sok y) by (apply s_negate_ok, Hsec; lia);
    pose proof (s_add_ok _ y Ox Oy) as A; destruct (s_add _ y) as [b o] end.
  destruct A as (Ob & _). destruct m as [out|]; [|exact Ob]. destruct mlen as [[|n]|]; try exact Ob.
  now destruct (message_rings _ _ _ _ _ _ _ _ _ _ _ _).
Qed.

(** All numbers the verification has read, and its challenges. *)
Lemma verify_rest_sok C H commit genp proof ctx h extra Ds ret ev s : ge_rep commit C -> C <> Inf -> ge_rep genp H ->
  H <> Inf -> Forall is_byte proof -> ctx_ok ctx -> header_ok h -> 65 <= Z.of_nat (length proof) < 2 ^ 60 ->
  Forall is_byte (octets_at extra) -> Z.of_nat (length (octets_at extra)) < 2 ^ 60 ->
  range_digits proof (Z.to_nat (h_offset h)) (length (fst (rings_of (h_mantissa h)))) = Some Ds ->
  verify_rest junk junk_ints junk_scalar sha0 ctx (Some (repeat junk_scalar 128)) h commit proof extra genp
    = Some (ret, ev, s) ->
  Forall sok s /\ (ret = true <-> range_valid C H (octets_at extra) h proof Ds) /\
  (ret = true -> exists l, ev = Some l /\ Forall sok l).
Proof.
  intros RC FC RH FH Bp HC Hh Lp Be Le HD E.
  pose proof (verify_rest_spec junk junk_ints junk_scalar sha0 Hjunk Hs0 C H commit genp proof RC FC RH FH Bp ctx HC h Hh Lp
    extra Be Le Hints (Some (repeat junk_scalar 128)) Ds HD) as V. rewrite E in V. destruct V as (V1 & _ & V2 & V3).
  split; [|split; [exact V1|]].
  - set (o := body_at _ _) in V2. set (n := snd _) in V2. set (a := (o + _)%nat) in V2.
    pose proof (read_scalars_end proof n _ _ _ _ _ V2) as En.
    exact (proj1 (read_scalars_sok proof n Bp _ a O s (length proof) ltac:(lia) (repeat_sok 128) V2)).
  - intros Er. destruct (V3 Er) as (Rs & es & l & _ & -> & Hl). eexists. split; [reflexivity|].
    exact (proj1 (put_sok l (scalars_for_sok _ _ Hl) _ 0 (repeat_sok 128))).
Qed.

Lemma opened_by P C : on_curve P -> on_curve C -> padd (pneg P) C = Inf -> C = P.
Proof.
  intros CP CC E. assert (E2 : padd P (padd (pneg P) C) = C) by (rewrite <- padd_assoc, padd_neg by oc; reflexivity).
  now rewrite E, padd_Inf_r in E2.
Qed.

Lemma verify_impl_rewinds fuel ctx gen_ctx b v mo ol nonce h commit genp C H proof extra :
  ctx_ok ctx -> gen_ctx_ok gen_ctx -> ge_rep commit C -> C <> Inf -> ge_rep genp H -> H <> Inf -> Forall is_byte proof ->
  Z.of_nat (length proof) < 2 ^ 60 -> Forall is_byte (octets_at extra) -> Z.of_nat (length (octets_at extra)) < 2 ^ 60 ->
  Forall is_byte nonce ->
  let '(ok, h') := secp256k1_rangeproof_getheader_impl
    (Header 0 (h_exp h) (h_mantissa h) (h_scale h) (h_min h) (h_max h)) proof in
  forall Ds, (ok = true -> range_digits proof (Z.to_nat (h_offset h')) (length (fst (rings_of (h_mantissa h')))) = Some Ds) ->
  match secp256k1_rangeproof_verify_impl junk junk_ints junk_scalar sha0 hmac0 fuel ctx (Some gen_ctx) b v mo ol
      (Some nonce) h commit proof extra genp with
  | None => ring_draws fuel (range_seed nonce C H (firstn (Z.to_nat (h_offset h')) proof))
      (fst (rings_of (h_mantissa h'))) 0 = None
  | Some (ret, o) => v_min o = h_min h' /\ v_max o = h_max h' /\
      if ret : bool then ok = true /\ range_valid C H (octets_at extra) h' proof Ds /\
        exists blind value, is_b32 blind /\ be_val blind < n_order /\ 0 <= value < 2 ^ 64 /\
          C = commit_point blind value H /\ v_blind o = option_map (fun _ => blind) b /\
          v_value o = option_map (fun _ => value) v
      else v_blind o = b /\ v_value o = v
  end.
Proof.
  intros HC HG RC FC RH FH Bp Lp Be Le Bn. unfold secp256k1_rangeproof_verify_impl.
  destruct (secp256k1_rangeproof_getheader_impl _ proof) as [ok h'] eqn:EH. intros Ds HD.
  destruct ok; cbn [negb]; [|now repeat split].
  destruct (getheader_sound _ proof h' Bp (eq_refl : h_offset (Header 0 _ _ _ _ _) = 0) EH) as [L Hh]. specialize (HD eq_refl).
  destruct (verify_rest _ _ _ _ _ _ _ _ _ _ _) as [[[ret ev] s]|] eqn:EV; [|now repeat split].
  destruct (verify_rest_sok _ _ _ _ _ _ _ _ Ds _ _ _ RC FC RH FH Bp HC Hh (conj L Lp) Be Le HD EV) as (Ss & V & Sev).
  destruct ret; [|now repeat split]. destruct (Sev eq_refl) as (l & -> & Sl).
  destruct (shape proof h' Hh extra) as (Hr & _ & Lr & Lo & _).
  destruct (rings_of (h_mantissa h')) as [rsizes npub] eqn:ERO. cbn [fst snd] in *.
  pose proof (rewind_inner_ok fuel mo ol l s rsizes nonce commit genp C H proof (Z.to_nat (h_offset h')) Hr ltac:(lia) Bn
    RC FC RH FH Bp ltac:(lia) Sl Ss) as R.
  destruct (secp256k1_rangeproof_rewind_inner _ _ _ _ _ _ _ _ _ _ _ _ _ _ _) as [[rok [[[x vv] mo'] ol']]|]; [|exact R].
  destruct rok; cbn [negb]; [|now repeat split].
  set (value := u64 _). assert (Rv : 0 <= value < 2 ^ 64) by (apply Z.mod_pos_bound; lia).
  pose proof (pedersen_ecmult_rep junk junk_ints Hjunk Hints gen_ctx x value genp H HG R Rv RH FH) as P1.
  set (P := padd _ _) in P1. set (a1 := secp256k1_pedersen_ecmult _ _ _ _ _ _) in *.
  destruct (secp256k1_gej_is_infinity a1); [now repeat split|].
  pose proof (gej_neg_rep _ _ P1) as P2. pose proof (proj1 (add_ge_var_rep _ _ _ _ _ (proj1 P2) P2 RC)) as P3.
  rewrite (is_infinity_spec _ _ P3). destruct (is_inf (padd (pneg P) C)) eqn:EI; cbn [negb]; [|now repeat split].
  apply is_inf_true in EI. split; [reflexivity|]. split; [reflexivity|]. split; [reflexivity|]. split; [now apply V|].
  exists (be_bytes 32 (sval x)), value. pose proof (sok_range _ R) as Rx.
  assert (Ex : be_val (be_bytes 32 (sval x)) = sval x).
  { rewrite be_val_bytes. apply Z.mod_small. unfold n_order in Rx. change (256 ^ Z.of_nat 32) with (2 ^ 256). lia. }
  cbn [v_blind v_value]. rewrite (s_get_b32_ok _ R).
  split; [split; [apply length_be_bytes|apply be_bytes_byte]|]. split; [lia|]. split; [exact Rv|]. split; [|now destruct b, v].
  unfold commit_point. rewrite Ex. apply opened_by; [exact (rep_curve _ _ P1)|exact (proj1 (proj2 RC))|exact EI].
Qed.

(** C14: rewinding, at the interface: a rewinding that succeeds has found an opening
    of the commitment. For a commitment to C under the generator H, and a proof
    whose digit commitments are points, the result is 1 only if the proof is
    valid; then the blinding factor written is a scalar, the value written one of
    64 bits, and C = blind G + value H. With the result 0 neither is touched.
    The range is that of the header in both cases; only a retry loop that runs out
    of fuel leaves no result. *)
Theorem rangeproof_rewind_opens fuel ctx b v mo ol nonce min0 max0 h commit gen C H proof extra len :
  ctx_ok (ecmult_ctx ctx) -> gen_ctx_ok (ecmult_gen_ctx ctx) -> commits_to commit C ->
  ge_rep (secp256k1_generator_load gen) H -> H <> Inf -> Forall is_byte proof -> Z.of_nat (length proof) < 2 ^ 60 ->
  Forall is_byte (octets_at (prefix_of extra len)) -> Z.of_nat (length (octets_at (prefix_of extra len))) < 2 ^ 60 ->
  (extra = None -> len = O) -> Forall is_byte nonce -> (mo = None -> ol = None) ->
  let '(ok, h') := secp256k1_rangeproof_getheader_impl
    (Header 0 (h_exp h) (h_mantissa h) (h_scale h) min0 max0) proof in
  forall Ds, (ok = true -> range_digits proof (Z.to_nat (h_offset h')) (length (fst (rings_of (h_mantissa h')))) = Some Ds) ->
  match secp256k1_rangeproof_rewind junk junk_ints junk_scalar sha0 hmac0 fuel ctx b v mo ol (Some nonce) (Some min0)
          (Some max0) h (Some commit) (Some proof) (length proof) extra len (Some gen) with
  | None => ring_draws fuel (range_seed nonce C H (firstn (Z.to_nat (h_offset h')) proof))
      (fst (rings_of (h_mantissa h'))) 0 = None
  | Some (Api ret (lo, hi, (b', v', _, _)) calls) => lo = Some (h_min h') /\ hi = Some (h_max h') /\ calls = [] /\
      if ret then ok = true /\ range_valid C H (octets_at (prefix_of extra len)) h' proof Ds /\
        exists blind value, is_b32 blind /\ be_val blind < n_order /\ 0 <= value < 2 ^ 64 /\
          C = commit_point blind value H /\ b' = option_map (fun _ => blind) b /\ v' = option_map (fun _ => value) v
      else b' = b /\ v' = v
  end.
Proof.
  intros HC HG [FC RC] RH FH Bp Lp Be Le Hlen Bn Hmo. unfold secp256k1_rangeproof_rewind.
  rewrite (proj1 HC), (gc_built _ HG), firstn_all, (prefix_given _ _ Hlen).
  replace (not_null mo || negb (not_null ol)) with true
    by (destruct mo; [reflexivity|rewrite (Hmo eq_refl); reflexivity]). cbn [negb not_null].
  pose proof (verify_impl_rewinds fuel (ecmult_ctx ctx) (ecmult_gen_ctx ctx) b v mo ol nonce
    (Header 0 (h_exp h) (h_mantissa h) (h_scale h) min0 max0) _ _ C H proof (prefix_of extra len)
    HC HG RC FC RH FH Bp Lp Be Le Bn) as V. cbn [h_exp h_mantissa h_scale h_min h_max] in V.
  destruct (secp256k1_rangeproof_getheader_impl _ proof) as [ok h']. intros Ds HD. specialize (V Ds HD).
  destruct (secp256k1_rangeproof_verify_impl _ _ _ _ _ _ _ _ _ _ _ _ _ _ _ _ _ _) as [[ret o]|]; [|exact V].
  destruct V as (-> & -> & V). repeat (split; [reflexivity|]). exact V.
Qed.
End Rewound.
End Properties.

(** ** A run that succeeds: the proof of a single value *)

Section Exact.
Context {F : FieldImpl} {SI : ScalarImpl} (junk : secp256k1_gej) (junk_ints : list Z).
Context (junk_scalar : scalar) (sha0 : sha256_t) (hmac0 : hmac_sha256_t).
Context (Hjunk : gej_mags junk) (Hints : length junk_ints = 33%nat) (Hs0 : buf_ok sha0).
Context (Hi : buf_ok (inner hmac0)) (Ho : buf_ok (outer hmac0)).
Context (ctx : secp256k1_ecmult_context) (gctx : secp256k1_ecmult_gen_context) (HG : gen_ctx_ok gctx).
Context (C H : point) (commit genp : secp256k1_ge) (RC : ge_rep commit C) (FC : C <> Inf).
Context (RH : ge_rep genp H) (FH : H <> Inf).
#[local] Abbreviation zero := (s_set_int 0).

Lemma block_32 seed : is_b32 (drbg_block seed 0).
Proof.
  unfold drbg_block, drbg_state. cbn [Nat.iter nat_rect]. unfold drbg_next.
  destruct (drbg_seed seed) as [K V]. cbn [fst snd].
  split; [apply length_rfc_hmac|apply rfc_hmac_byte].
Qed.

Lemma exact_chosen : secp256k1_range_proveparams 0 (-1) 0 0 = Some (exact_params 0 0).
Proof. reflexivity. Qed.

Lemma exact_prepared : prepare (exact_params 0 0) None 0 = repeat 0 4096.
Proof. reflexivity. Qed.

Lemma first_block : slice (repeat 0 4096) (0 * 32) 32 = repeat 0 32.
Proof. reflexivity. Qed.

(** The one nonce of the proof of a single value is the first block. *)
Lemma exact_nonces fuel proof nonce kb : Forall is_byte nonce -> Forall is_byte proof -> firstn 1 proof = [0] ->
  drbg_block (range_seed nonce C H [0]) 0 = kb -> 0 < be_val kb < n_order -> exists sec s m',
  secp256k1_rangeproof_genrand junk_scalar sha0 hmac0 fuel (repeat junk_scalar 32) (repeat junk_scalar 128)
    (Some (repeat 0 4096)) [1%nat] 1 nonce commit proof 1 genp = Some (true, sec, s, Some m') /\
  (sok (nth 0 s zero) /\ sval (nth 0 s zero) = be_val kb) /\ length sec = 32%nat /\ length s = 128%nat /\
  sok (nth 0 sec zero) /\ sval (nth 0 sec zero) = 0.
Proof.
  intros Bn Bp Ep Ekb Rk.
  assert (Z0 : Forall is_byte (repeat 0 4096)).
  { apply Forall_forall. intros z Hz. apply repeat_spec in Hz. subst z. unfold is_byte. lia. }
  pose proof (genrand_spec junk_scalar sha0 hmac0 Hs0 Hi Ho fuel (repeat 0 4096) [1%nat] nonce commit genp C H proof 1
    ltac:(cbn; lia) ltac:(cbn; lia) Z0 (repeat_length _ _) Bn RC FC RH FH Bp ltac:(lia)) as G.
  cbv zeta in G. rewrite Ep in G. cbn [ring_draws blocks map seq length] in G.
  destruct (block_32 (range_seed nonce C H [0])) as [Lk _]. rewrite Ekb in G, Lk.
  assert (Em : masked (repeat 0 4096) 0 kb = kb).
  { unfold masked. rewrite first_block, <- Lk. apply xor_zeros. }
  generalize dependent (repeat 0 4096). intros prep _ G Em.
  destruct G as (sec & s & m' & -> & NB & DR). unfold member_blocks in *. cbn [map snd concat app] in *.
  cbn [all_good]. rewrite Em. unfold good.
  rewrite (proj2 (Z.ltb_lt 0 _)), (proj2 (Z.ltb_lt _ n_order)) by lia. cbn [andb].
  destruct (nb_s _ _ _ _ _ _ NB O ltac:(cbn; lia)) as [Ok Vk]. cbn [Nat.add nth] in Ok, Vk.
  rewrite Em, Z.mod_small in Vk by lia.
  pose proof (dr_ok _ _ _ _ _ DR O ltac:(cbn; lia)) as Osec. pose proof (dr_last _ _ _ _ _ DR) as Vsec.
  cbn [Nat.add Nat.sub length] in Osec, Vsec. unfold zsum in Vsec. cbn [map fst fold_right] in Vsec.
  rewrite (proj2 (s_clear_ok _)) in Vsec. pose proof (sok_range _ Osec) as RR.
  exists sec, s, m'. split; [reflexivity|]. split; [exact (conj Ok Vk)|].
  split; [rewrite (dr_length _ _ _ _ _ DR); apply repeat_length|].
  split; [rewrite (proj1 (nb_length _ _ _ _ _ _ NB)); apply repeat_length|]. split; [exact Osec|].
  exact (cong_small _ _ _ Vsec RR ltac:(lia)).
Qed.

Lemma exact_rings proof plen sha sec s blind k x y m : repr sha m -> Z.of_nat (length m) < 2 ^ 61 ->
  is_b32 blind -> 0 < be_val blind < n_order -> sok (nth 0 s zero) -> sval (nth 0 s zero) = k ->
  (1 <= length s)%nat -> (1 <= length sec)%nat -> sok (nth 0 sec zero) -> sval (nth 0 sec zero) = 0 ->
  smul k G_point = Aff x y ->
  let mh := fips_sha256 m in
  let h := be_val (ring_hash mh (fips_sha256 (compressed x y ++ mh)) 0 0) in
  0 < h < n_order -> (k - h * be_val blind) mod n_order <> 0 ->
  exists buf' len, sign_rings junk junk_ints junk_scalar sha0 ctx gctx proof plen 1 (exact_params 0 0) sha sec s
    blind None genp = (true, (buf', len)).
Proof.
  intros HH Lm Hb Rb Ok Vk Ls Lsec Osec Vsec Ek mh h Rh Hr.
  unfold sign_rings. cbn [exact_params prings prsizes psecidx pscale take_nonces nth Nat.add Nat.mul]. cbv zeta.
  pose proof (b32_read blind Hb) as SB. destruct (s_set_b32 blind) as [stmp ov].
  destruct SB as [-> SB]. rewrite (proj2 (Z.leb_gt _ _)) in SB |- * by lia. destruct (SB eq_refl) as [Ost Vst].
  change (1 - 1)%nat with O. pose proof (s_add_ok _ _ Osec Ost) as A.
  destruct (s_add (nth 0 sec zero) stmp) as [x0 ox]. destruct A as (Ox & Vx & _).
  assert (Ex : sval x0 = be_val blind) by (rewrite Vx, Vst, Vsec, Z.add_0_l, Z.mod_small; lia).
  rewrite (s_is_zero_ok _ Ox), Ex, (proj2 (Z.eqb_neq _ 0)) by lia. cbn [orb negb].
  cbn [firstn commit_digits].
  change (u64 (u64 (Z.of_nat (nth 0 [0%nat] 0%nat) * 1) << (Z.of_nat 0 * 2))) with 0.
  rewrite !nth_upd by (rewrite ?repeat_length; lia). cbn [Nat.eqb].
  pose proof (pedersen_ecmult_rep junk junk_ints Hjunk Hints gctx x0 0 genp H HG Ox ltac:(lia) RH FH) as R.
  rewrite Ex, smul_0, padd_Inf_r in R. rewrite (is_infinity_spec _ _ R).
  destruct (smul (be_val blind) G_point) as [|x1 y1] eqn:EB.
  { exfalso. apply (finite_multiplier (be_val blind)); [rewrite Z.mod_small; lia|exact EB]. }
  cbn [is_inf negb]. destruct (finalize_spec _ _ HH Lm) as [D _].
  destruct (secp256k1_sha256_finalize sha) as [hh tmp]. cbn [snd] in D. subst tmp. fold mh.
  match goal with |- context [secp256k1_borromean_sign junk sha0 ctx gctx ?e ?s' ?pubs ?k' ?sec' [1%nat] [O] 1 mh] =>
    pose proof (sign_single junk sha0 Hs0 ctx gctx e s' pubs k' sec' mh x y HG) as SS end.
  rewrite !nth_upd in SS by (rewrite ?repeat_length; lia). cbn [Nat.eqb] in SS. rewrite Vk, Ex in SS.
  destruct (SS Ok Ek (fips_sha256_byte _) ltac:(unfold mh; rewrite length_fips_sha256; reflexivity) Ox Rh Hr) as [s' ->].
  cbn [negb]. destruct (write_scalars _ _ _ _ _) as [proof1 len1]. now eexists _, _.
Qed.

(** The proof of the value 0, without a range, is made as soon as its one nonce
    is a good number and the challenge and the response are not 0. *)
Lemma exact_signed fuel (buf : bytes) plen blind nonce x y :
  Forall is_byte buf -> plen <= Z.of_nat (length buf) -> 97 <= plen < 2 ^ 60 -> Forall is_byte nonce ->
  is_b32 blind -> 0 < be_val blind < n_order ->
  let kb := drbg_block (range_seed nonce C H [0]) 0 in
  0 < be_val kb < n_order -> smul (be_val kb) G_point = Aff x y ->
  let m := fips_sha256 (quad_bytes 1 C ++ quad_bytes 1 H ++ [0]) in
  let h := be_val (ring_hash m (fips_sha256 (compressed x y ++ m)) 0 0) in
  0 < h < n_order -> (be_val kb - h * be_val blind) mod n_order <> 0 ->
  exists buf' len, secp256k1_rangeproof_sign_impl junk junk_ints junk_scalar sha0 hmac0 fuel ctx gctx buf plen
    0 commit blind nonce (-1) 0 0 None 0 None genp = Some (true, (buf', len)).
Proof.
  intros Bb Lb Rp Bn Hb Rb kb Rk Ek m h Rh Hr. unfold secp256k1_rangeproof_sign_impl.
  rewrite (proj2 (Z.ltb_ge plen 65)), exact_chosen by lia.
  cbn [Z.ltb Z.compare orb Z.opp]. change ((-1 <? -1) || false) with false. cbv iota zeta.
  cbn [exact_params prsizes nth Nat.ltb Nat.leb pmin_value Z.eqb negb Nat.add].
  change (0 .| 0) with 0.
  set (proof := upd buf 0 0).
  assert (Ep : firstn 1 proof = [0]).
  { unfold proof. destruct buf as [|b0 buf0]; [cbn in Lb; lia|]. reflexivity. }
  assert (Bp : Forall is_byte proof) by (apply Forall_upd; [exact Bb|unfold is_byte; lia]).
  clearbody proof. unfold sign_body. rewrite exact_prepared. cbn [exact_params prings prsizes pnpub]. cbv zeta.
  change (Nat.ltb 0 0 && Nat.ltb (128 * (1 - 1)) 0) with false. cbv iota.
  change (Z.of_nat (32 * (2 + 1 - 1) + 32 + (1 + 6) / 8)) with 96. change (Z.of_nat 1) with 1.
  rewrite u64_id, (proj2 (Z.ltb_ge (plen - 1) 96)) by lia.
  destruct (exact_nonces fuel proof nonce _ Bn Bp Ep eq_refl Rk) as (sec & s & m' & -> & [Ok Vk] & Lsec & Ls & Osec & Vsec).
  cbn [negb]. pose proof (hash_head sha0 Hs0 C H commit genp proof RC FC RH FH Bp 1) as HH. rewrite Ep in HH.
  assert (LH : Z.of_nat (length (quad_bytes 1 C ++ quad_bytes 1 H ++ [0])) < 2 ^ 61).
  { rewrite !length_app, (proj2 (quad_bytes1_ok C FC)), (proj2 (quad_bytes1_ok H FH)). reflexivity. }
  destruct (exact_rings proof plen _ sec s blind _ x y _ HH LH Hb Rb Ok Vk ltac:(lia) ltac:(lia) Osec Vsec Ek Rh Hr)
    as (buf' & len & ->). now eexists _, _.
Qed.
End Exact.

(** ** Witnesses *)

#[local] Existing Instance field_5x52.
#[local] Existing Instance scalar_4x64.

(** The values of the run for the commitment G, the nonce of 32 zeros and no
    extra data. *)
Definition one_nonce : Z := 0xc9f625246abb755b24c22d1adf9a40b31bc7716153958e1f3a9c3899cbdb9321.
Definition one_x : Z := 0x5fdbc8fed7808b54ff60b9001b582cd37c40061d498b11005ce42233c45b8bc5.
Definition one_y : Z := 0xa5aa7faa9de2a3d558fdd85f45d2d014f150c19a1c7083be54d675055b8f7ed2.

Lemma quad_G : quad_bytes 1 G_point
  = 0 :: be_bytes 32 0x79be667ef9dcbbac55a06295ce870b07029bfcdb2dce28d959f2815b16f81798.
Proof.
  unfold quad_bytes, G_point. match goal with |- context [squareb ?y] => replace (squareb y) with true end; [reflexivity|].
  symmetry. apply squareb_spec. exists 0x91b50266b3fb9078aba19595872c0b4e64f1e6bff173f4c28e3ab410d2778003.
  apply cong_iff. reflexivity.
Qed.

Lemma quad_H : quad_bytes 1 H_point
  = 1 :: be_bytes 32 0x50929b74c1a04954b78b4b6035e97a5e078a5a0f28ec96d547bfee9ace803ac0.
Proof.
  unfold quad_bytes, H_point. match goal with |- context [squareb ?y] => replace (squareb y) with false end; [reflexivity|].
  symmetry. exact (not_square_by 0x31d3c6863973926e049e637cb1b5f40a36dac28af1766968c30c2313f3a38904
    0x5bbcceaf98d765ec4a9383f4084d575f646f85c959be24fdb5c0b8a33b8105a8 eq_refl).
Qed.

Lemma one_block : be_val (drbg_block (range_seed (repeat 0 32) G_point H_point [0]) 0) = one_nonce.
Proof. unfold range_seed. rewrite quad_G, quad_H. vm_compute. reflexivity. Qed.

Lemma one_point : smul one_nonce G_point = Aff one_x one_y.
Proof.
  apply smul_check.
  - split; [split; [discriminate|reflexivity]|]. split; [split; [discriminate|reflexivity]|].
    apply cong_iff. reflexivity.
  - vm_compute. reflexivity.
Qed.

Lemma one_challenge :
  let m := fips_sha256 (quad_bytes 1 G_point ++ quad_bytes 1 H_point ++ [0]) in
  let h := be_val (ring_hash m (fips_sha256 (compressed one_x one_y ++ m)) 0 0) in
  0 < h < n_order /\ (one_nonce - h * 1) mod n_order <> 0.
Proof.
  rewrite quad_G, quad_H. cbv zeta. match goal with |- 0 < ?h < _ /\ _ =>
    assert (E : ((0 <? h) && (h <? n_order) && negb ((one_nonce - h * 1) mod n_order =? 0)) = true)
      by (vm_compute; reflexivity); revert E; generalize h end.
  intros h. rewrite !andb_true_iff, negb_true_iff, Z.eqb_neq, !Z.ltb_lt. intros [[H0 H1] H2].
  exact (conj (conj H0 H1) H2).
Qed.

(** Every byte string of zeros. *)
Lemma zeros_byte n : Forall is_byte (repeat 0 n).
Proof. apply Forall_forall. intros x Hx. apply repeat_spec in Hx. subst x. unfold is_byte. lia. Qed.

Lemma one_commit : commit_point (be_bytes 32 1) 0 H_point = G_point.
Proof. unfold commit_point. rewrite smul_0, padd_Inf_r. change (be_val (be_bytes 32 1)) with 1. apply smul_1. Qed.

(** The proof that the commitment G holds the value 0 is made. *)
Lemma one_signed ctx : ctx_ok (ecmult_ctx ctx) -> gen_ctx_ok (ecmult_gen_ctx ctx) -> exists buf' len,
  secp256k1_rangeproof_sign zero_gej (repeat 0 33) (s_set_int 0) blank_sha blank_hmac 1 ctx (Some (repeat 0 200))
    (Some 200) 0 (Some (quad_bytes 9 G_point)) (Some (be_bytes 32 1)) (Some (repeat 0 32)) (-1) 0 0 None 0 None 0
    (Some secp256k1_generator_h_internal) = Some (Api true (Some buf', Some len) []).
Proof.
  intros C G. destruct (commits_quad G_point (proj1 (proj2 const_g_rep)) ltac:(discriminate)) as [FC RC].
  assert (Vb : be_val (be_bytes 32 1) = 1) by reflexivity.
  destruct (exact_signed zero_gej (repeat 0 33) (s_set_int 0) blank_sha blank_hmac zero_gej_mags eq_refl blank_ok
    blank_ok blank_ok (ecmult_ctx ctx) (ecmult_gen_ctx ctx) G G_point H_point _ _ RC FC (proj1 HJ_loads)
    ltac:(discriminate) 1 (repeat 0 200) 200 (be_bytes 32 1) (repeat 0 32) one_x one_y (zeros_byte 200)
    ltac:(rewrite repeat_length; lia) ltac:(lia) (zeros_byte 32) (b32_ok 1) ltac:(rewrite Vb; split; reflexivity))
    as (buf' & len & E); rewrite ?one_block, ?Vb.
  - split; reflexivity.
  - exact one_point.
  - exact (proj1 one_challenge).
  - exact (proj2 one_challenge).
  - exists buf', len. unfold secp256k1_rangeproof_sign. cbn [prefix_of not_null Nat.eqb orb].
    rewrite (proj1 C), (gc_built _ G), E. reflexivity.
Qed.

(** The commitment to 0 with the blinding factor 1 is G: its proof is made, and what
    is made is accepted. *)
Lemma rangeproof_sign_verifies_witness : exists ctx buf' len lo hi,
  let commit := quad_bytes 9 G_point in
  secp256k1_rangeproof_sign zero_gej (repeat 0 33) (s_set_int 0) blank_sha blank_hmac 1 ctx (Some (repeat 0 200))
    (Some 200) 0 (Some commit) (Some (be_bytes 32 1)) (Some (repeat 0 32)) (-1) 0 0 None 0 None 0
    (Some secp256k1_generator_h_internal) = Some (Api true (Some buf', Some len) []) /\
  0 <= len <= 200 /\
  secp256k1_rangeproof_verify zero_gej (repeat 0 33) (s_set_int 0) blank_sha blank_hmac ctx (Some 0) (Some 0) no_header
    (Some commit) (Some (firstn (Z.to_nat len) buf')) (Z.to_nat len) None 0 (Some secp256k1_generator_h_internal)
  = Some (Api true (Some lo, Some hi) []) /\ 0 <= lo <= 0 /\ 0 <= hi.
Proof.
  destruct full_context as (ctx & _ & G & C). destruct (one_signed ctx C G) as (buf' & len & E).
  assert (K : commits_to (quad_bytes 9 G_point) (commit_point (be_bytes 32 1) 0 H_point)).
  { rewrite one_commit. apply commits_quad; [exact (proj1 (proj2 const_g_rep))|discriminate]. }
  assert (L200 : 200 <= Z.of_nat (length (repeat 0 200))) by (rewrite repeat_length; lia).
  pose proof (rangeproof_sign_verifies zero_gej (repeat 0 33) (s_set_int 0) blank_sha blank_hmac zero_gej_mags eq_refl blank_ok
    blank_ok blank_ok ctx C G H_point secp256k1_generator_h_internal (proj1 HJ_loads) ltac:(discriminate) (be_bytes 32 1)
    (b32_ok 1) 0 eq_refl _ K None 0 (Forall_nil _) eq_refl (fun _ => eq_refl) 1 (repeat 0 200) 200 0 (repeat 0 32) (-1) 0
    None 0 0 0 no_header (zeros_byte _) L200 eq_refl (zeros_byte _) (Forall_nil _) (fun _ => eq_refl) (Z.le_refl 0)) as S.
  match type of S with _ -> match ?run with _ => _ end =>
    assert (E' : run = Some (Api true (Some buf', Some len) [])) by exact E end.
  rewrite E' in S. destruct S as [Rl (lo & hi & V & R)].
  - intros q draws Eq _. rewrite exact_chosen in Eq. injection Eq as <-.
    intros i j Hx Hj. cbn [exact_params prings prsizes psecidx pscale] in *.
    destruct i as [|i]; [|lia]. cbn [nth] in Hj |- *. destruct j as [|j]; [|lia].
    rewrite Z.sub_diag, Z.mul_0_l, smul_0, padd_Inf_r. unfold secret. cbn [exact_params prings Nat.sub Nat.eqb seq].
    unfold zsum. cbn [map fold_right]. change (be_val (be_bytes 32 1)) with 1. rewrite smul_1. discriminate.
  - exists ctx, buf', len, lo, hi. exact (conj E (conj Rl (conj V R))).
Defined.

(** The proof of 65 zeros for G: its header says that the value is 0. *)
Lemma rangeproof_rewind_opens_witness : exists ctx,
  match secp256k1_rangeproof_rewind zero_gej (repeat 0 33) (s_set_int 0) blank_sha blank_hmac 1 ctx (Some []) (Some 0)
          None None (Some (repeat 0 32)) (Some 0) (Some 0) no_header (Some (quad_bytes 9 G_point)) (Some (repeat 0 65)) 65
          None 0 (Some secp256k1_generator_h_internal) with
  | None => ring_draws 1 (range_seed (repeat 0 32) G_point H_point [0]) [1%nat] 0 = None
  | Some (Api ret (lo, hi, (b', v', _, _)) calls) => lo = Some 0 /\ hi = Some 0 /\ calls = [] /\
      if ret then true = true /\ range_valid G_point H_point [] (Header 1 (-1) 0 1 0 0) (repeat 0 65) [] /\
        exists blind value, is_b32 blind /\ be_val blind < n_order /\ 0 <= value < 2 ^ 64 /\
          G_point = commit_point blind value H_point /\ b' = Some blind /\ v' = Some value
      else b' = Some [] /\ v' = Some 0
  end.
Proof.
  destruct full_context as (ctx & _ & G & C). exists ctx.
  exact (rangeproof_rewind_opens zero_gej (repeat 0 33) (s_set_int 0) blank_sha blank_hmac zero_gej_mags eq_refl blank_ok
    blank_ok blank_ok (proj1 (small_scalar 0 eq_refl)) 1 ctx (Some []) (Some 0) None None (repeat 0 32) 0 0 no_header
    (quad_bytes 9 G_point) secp256k1_generator_h_internal G_point H_point (repeat 0 65) None 0 C G
    (commits_quad G_point (proj1 (proj2 const_g_rep)) ltac:(discriminate)) (proj1 HJ_loads) ltac:(discriminate) (zeros_byte _)
    eq_refl (Forall_nil _) eq_refl (fun _ => eq_refl) (zeros_byte _) (fun _ => eq_refl) [] (fun _ => eq_refl)).
Defined.
